(* ===== verification/_CoqProject ===== *)
-Q . S2P
Prelude.v
GoStrings.v
GoFloat.v
Effects.v
Types.v
External.v
AbiDecode.v
Model.v
PeggySol.v
PeggyState.v
PeggyStateFacts.v
Confirmations.v
Checkpoint.v
EthPeggy.v
Bridge.v
BridgeFacts.v
Dispatch.v
Committer.v
Concurrent.v
ConcurrentFacts.v
GoSort.v
Interfaces.v
Oracle.v
OracleFacts.v
Loops.v
Signer.v
BatchCreator.v
Relayer.v
RelayerFacts.v
Query.v
Broadcast.v
Orchestrator.v
Tasks.v
OracleLoop.v
OracleOnce.v
OracleLive.v
RelayerContract.v
EthNetwork.v
Binding.v
BridgeLive.v
PeggyUtil.v
PriceFeed.v
Keystore.v
KeystoreFacts.v
Keys.v
KeysFacts.v
Sending.v
Signing.v
RelayAccepted.v
Keyring.v
CosmosNet.v
Tendermint.v
Provider.v
Options.v
Startup.v
StartupFacts.v
Version.v
