(* ===== verification/Prelude.v ===== *)
(** * Peggo: the orchestrator of the Injective bridge

    Peggo (Go, [src/orchestrator] and [src/cmd/peggo]) is the process that every
    bridge validator and every relayer runs between Ethereum and the Injective chain.
    The bridge contract is [src/solidity/contracts/Peggy.sol].

    ** The program and its parts

    - The _oracle_ reads the events of the bridge contract, from the last height that
      it knows up to 12 blocks behind the head, and claims them on Injective in the
      order of their nonces.
    - The _signer_ asks Injective for the validator sets and batches that this validator
      has not confirmed, signs their hashes with its Ethereum key and broadcasts the
      confirmations.
    - The _batch creator_ asks Injective to batch the withdrawals of a token once their
      fees are worth it, at the price that the _price feed_ gives.
    - The _relayer_ finds on Ethereum the validator set that the contract has, checks
      and repacks the confirmations collected on Injective, and sends [updateValset]
      and [submitBatch] transactions through the _committer_.
    - The four run as loops ([RunLoop]) in one group of goroutines ([ParanoidGroup]); the
      start-up code reads the _options_, sets up the _keys_, _key ring_, _Injective
      network_ and _Ethereum network_, and decides which of the loops run.

    Everything that a part asks of another one is a method of an interface, and the
    development follows that: a part is a program over the commands of the interfaces
    that it uses, and the implementation of an interface is a program for every command
    over the interfaces below it.  [oracle_over_binding], [bridge_events_claimed], [relayer_over_binding],
    [relayed_update_accepted] and [relayed_batches_accepted] put parts together this way.

    ** Files

    Common ground:
    - [Prelude]: integers at their width, strings, lists and options, shared tactics.
    - [GoStrings], [GoFloat], [GoSort]: the parts of Go's library that the program's
      results depend on: [strings], [strconv], [path], [bufio] lines, [encoding/hex];
      [float64] and its conversion to an integer; [sort.Sort] as insertion of an order.
    - [Effects]: programs with calls ([prog]), panics ([panicv]) and answers; their
      executions ([runs]), rules for all of them ([wp]) and for the one against a given
      environment ([exec], [wph]), execution against constant answers ([eval]), sums of
      interfaces ([SumI], [liftl]) and replacement of commands by programs ([interp]).
    - [Types]: events, messages, validator sets and batches, with nil where Go has it.
    - [External]: what other packages do, as type classes of operations with the laws
      that are relied on ([Geth], [Shopspring]); [Model]: executable instances of
      them, used by every witness.
    - [Interfaces]: [OrchI], the commands of the orchestrator's loops, and [retry].

    The bridge contract and its client, [orchestrator/ethereum/peggy/]:
    - [PeggySol]: [Peggy.sol]'s checkpoint, signature check, [updateValset], [submitBatch].
    - [PeggyState], [PeggyStateFacts]: all its external functions, its owner, pause and
      re-entrancy flags, and calls over time, with the calls back of token contracts.
    - [AbiDecode]: the decoding of ABI data, with its round trip; [Dispatch]: the contract
      finds the called function by the selector and decodes its arguments.
    - [Confirmations], [Checkpoint]: [sigToVRS], [checkValsetSigsAndRepack],
      [checkBatchSigsAndRepack] (valset_update.go, submit_batch.go), and the hashes of
      message_signatures.go.
    - [EthPeggy]: the methods of peggy_contract.go, valset_update.go, submit_batch.go,
      send_to_cosmos.go, pending_transactions.go.
    - [Bridge], [BridgeFacts]: the client and the contract together.
    - [Committer]: [ethereum/committer/], [ethereum/util/noncecache.go].  [Concurrent],
      [ConcurrentFacts]: several goroutines that send.  [Sending]: the client over it.
    - [EthNetwork]: [ethereum/network.go], and the oracle running over it.  [Binding]: the
      generated filters, iterators and readers of [solidity/wrappers/Peggy.sol] below it, down
      to the logs of the node; the oracle and the relayer over both.
    - [Provider]: [ethereum/provider/provider.go], [ethereum/util/contract.go].
    - [PeggyUtil]: [ethereum/util/peggy.go].
    - [Keystore], [KeystoreFacts]: [ethereum/keystore/].

    The loops, [orchestrator/]:
    - [Oracle], [OracleFacts], [OracleLoop]: oracle.go, one iteration and all of them;
      [OracleOnce]: what it claims over all of them;
      [OracleLive]: from the start-up on, over the events that the contract emits;
      [BridgeLive]: the same over the network and the binding, from the node's logs.
    - [Signer]: signer.go.  [BatchCreator]: batch_creator.go.  [PriceFeed]: pricefeed/.
    - [Relayer], [RelayerFacts]: relayer.go; [RelayerContract]: its search over the events
      that the contract emits.
    - [Loops]: loops/const_time_loop.go, loops/paranoid_group.go.
    - [Orchestrator]: orchestrator.go, and the interleaved tasks of relayer.go.  [Tasks]:
      the loops of signer.go, batch_creator.go and relayer.go.

    The Injective side, [orchestrator/cosmos/]:
    - [Query], [Broadcast]: peggy/query.go, peggy/broadcast.go.
    - [CosmosNet], [Tendermint], [Keyring]: network.go, tendermint/client.go, keyring.go.

    The executable, [cmd/peggo/]:
    - [Options]: options.go, util.go.  [Keys], [KeysFacts]: keys.go.
    - [Startup], [StartupFacts]: orchestrator.go, tx.go, metrics.go, util.go, and
      [NewNetwork] of ethereum/network.go.  [Version]: version/version.go.

    All of it together:
    - [Signing]: the keys, the broadcasts, the committer and the contract.  [RelayAccepted]:
      the relayer as well, from the events of the contract back to its calls.

    ** How Go is modelled

    - An integer is a [Z] with the wrap-around of its width written out ([u64], [i64],
      [u8]); a [*big.Int] is a [Z]; a [float64] is a [gofloat].
    - A pointer, slice or interface that the code may find nil is an [option]; an error
      is an [error], nil or an [err] that records what [errors.Wrap] adds.
    - A panic (nil dereference, index out of range, explicit) ends the program with its
      [panicv]; [recover] ([retry]'s and [ParanoidGroup]'s) is modelled where the code
      has it.
    - A pure function that may panic returns an [option]; the caller turns [None] into
      the panic.
    - Mutable state that outlives a call (nonce cache, key cache, last observed height,
      wallet index) is passed and returned.  What goroutines share is a step relation
      ([ParanoidGroup]; [pool_step] for the nonce cache and its mutex) or the interleavings
      of the tasks' calls ([relay_runs]).
    - A call of the contract runs up to its calls of token contracts ([before]), then the
      calls that these make back, then the rest ([after]).  The token contracts' answers are
      arbitrary ([tokens]): when one of them refuses a payment, the call reverts; a call that
      reverts has no effect.
    - An interface is a type of commands with the type of their answer.  An execution
      is the list of the calls with their answers; nothing is assumed of the answers
      unless a hypothesis says so, so that a theorem without one holds against every
      node, chain, file system and user.
    - Code that is not in the repository is a type class whose fields are its operations
      and the documented laws used.  Every class has an instance ([Model] or a Module
      [Example]), which shows that the laws are consistent and makes witnesses compute.

    ** Theorems

    - Safety of the bridge: what [updateValset] and [submitBatch] accept
      ([updateValset_sound], [submitBatch_sound]), that the hash signed by orchestrators
      is the one that the contract computes ([EncodeValsetConfirm_is_checkpoint]) from a
      pre-image that determines the set ([checkpoint_preimage_inj]), that repacking keeps
      members, powers and signatures in place ([checkValsetSigsAndRepack_correct]), and
      so that what the relayer sends is accepted ([relayed_valset_accepted],
      [relayed_batch_accepted]) and well typed ([valset_calldata_typed]).
      [orchestrators_valset_accepted] and [orchestrators_batch_accepted] add the keys, the
      committer and the decoding: nothing is assumed of the confirmations but that
      orchestrators broadcast them, and the bytes are those that the node gets and the
      contract executes.  [relayed_update_accepted] and [relayed_batches_accepted] add the
      relayer: the contract executes what a run sends with the set that it found in the
      contract's events.  Each is executed exactly when the token contracts accept its payments.
    - The contract over time, whatever token contracts call back: numbered events
      ([event_nonces_consecutive]), no batch twice ([batches_executed_once]); without calls
      back the last event is the current set ([last_valset_event_current]), with them it
      need not be ([reentered_updateValset_misleads]).
    - Oracle: ranges ([oracle_range]), no event claimed twice ([oracle_claims_once]), nothing skipped
      over all iterations ([runOracle_no_skip]) and over the network and the binding
      ([oracle_over_binding]), whose getters hide failed iterations ([event_getter_spec]); with nodes that answer, everything that the contract emits
      is claimed, once and in order ([validator_mode_claims_all], from the logs on
      [bridge_events_claimed]).
    - Relayer: the search ends and finds the newest event ([findLatestValsetOnEth_latest]),
      which is the contract's current set ([relayer_finds_current_set], from the logs on
      [relayer_over_binding]) unless its members are out of order ([relayer_reorders_set]); each task is safe ([relayValset_safe], [relayTokenBatch_safe]) and so are their interleavings
      ([relay_respects_config], [runRelayer_respects_config]); the order of validators
      ([BridgeValidators_Sort_canonical]).
    - Committer and provider: what is sent ([SendTx_safe], [TransactFn_sends]), when
      sending ends ([SendTx_terminates]) and when not ([SendTx_known_transaction]);
      concurrent calls are as good as one after the other ([concurrent_sends_serial]) and
      all end ([concurrent_sends_end]).
    - Signer, broadcasts, keys: what is confirmed, by whom ([signValidatorSets_confirms],
      [SendValsetConfirm_signs_checkpoint], [init_signs_for_address],
      [New_indexes], [cached_key_origin], [NewKeyring_key]).
    - Goroutine group: [wait_sound], [wait_returns], [wait_loses_error].
    - Batch creator, price feed, coins: [requestTokenBatch_iff], [QueryUSDPrice_spec],
      [PeggyCoin_roundtrip].
    - Start-up: [orchestratorCmd_config], [orchestratorCmd_without_signer],
      [default_chain_id_never_starts], [registerEthKeyCmd_spec], [awaitConnection_ends],
      [init_silent_iff].

    ** Fuel and bounds

    - [findLatestValsetOnEth] searches windows of 2000 blocks down to block 0:
      [search_fuel] is the height / 2000 + 2, proved enough.
    - [SendTx] takes any fuel (out of it, the client over it stops with [still_sending]);
      [SendTx_terminates] shows that two more than the number of "known transaction"
      answers is enough, and [SendTx_known_transaction] that none is against a node that
      only gives such answers.
    - [concurrent_sends_end] is about executions with the fuel that every call was given.
    - An iteration of the oracle gets at most 2000 blocks further: [validator_mode_claims_all]
      says how far any number of iterations gets.
    - [RunLoop] and the metrics loop run until they are stopped; theorems about them
      hold for every fuel, that is after any number of iterations.
    - [awaitConnection] ends by its context: thirteen turns of five seconds fill the
      minute.
    - The walk through a key store goes one level deep, since its callback skips every
      sub-directory: [wallet_depth] is 1.
    - Nonces and powers are assumed below 2^63 where the code converts them to [int64]
      ([small]); this is what [EncodeValsetConfirm_is_checkpoint] needs.

    ** Not modelled

    - Logging and metrics reports (no result depends on them), the telemetry and process
      guards of [initMetrics] beyond its start, help texts of the options, registration
      of the commands in [main], codec registration (encoding.go, [Codec] of the key
      ring).
    - The generated contract bindings ([solidity/wrappers]) beyond what the program uses of
      Peggy's: sessions, transactors, watchers and the bindings of other contracts.
    - Gas in the contract, the token contracts themselves (their calls back are arbitrary),
      and the proxy in front of the contract.
    - The mutexes of the key cache and of the single operations of the nonce cache, which
      only protect their maps, are implicit in the sequential state; time-outs of HTTP and gRPC clients are answers of the interface. *)
From Stdlib Require Export ZArith Lia Ascii String.
From stdpp Require Export base tactics option numbers list strings gmap sorting.

#[global] Open Scope Z_scope.

(** ** Go's fixed-width integers

    A Go integer of width [w] is a [Z] kept in its range; every conversion or
    arithmetic operation that may leave the range is written with the wrapping
    function of its type. *)
Definition u64 (x : Z) : Z := x mod 2 ^ 64.
Definition u8 (x : Z) : Z := x mod 2 ^ 8.
Definition i64 (x : Z) : Z := (x + 2 ^ 63) mod 2 ^ 64 - 2 ^ 63.

Definition is_u64 (x : Z) : Prop := 0 <= x < 2 ^ 64.
Definition is_i64 (x : Z) : Prop := - 2 ^ 63 <= x < 2 ^ 63.
Definition is_u256 (x : Z) : Prop := 0 <= x < 2 ^ 256.
Definition is_addr (x : Z) : Prop := 0 <= x < 2 ^ 160.

(** [Uint64] of [math/big]: the low 64 bits of the absolute value. *)
Definition big_Uint64 (x : Z) : Z := Z.abs x mod 2 ^ 64.

Create HintDb go.

Lemma u64_range x : is_u64 (u64 x).
Proof. unfold is_u64, u64. apply Z.mod_pos_bound. lia. Qed.

Lemma u64_small x : is_u64 x -> u64 x = x.
Proof. unfold is_u64, u64. apply Z.mod_small. Qed.

Lemma big_Uint64_range x : is_u64 (big_Uint64 x).
Proof. unfold is_u64, big_Uint64. apply Z.mod_pos_bound. lia. Qed.

Lemma big_Uint64_small x : is_u64 x -> big_Uint64 x = x.
Proof.
  unfold is_u64, big_Uint64. intros H.
  rewrite Z.abs_eq by lia. apply Z.mod_small. lia.
Qed.

Lemma i64_small x : is_i64 x -> i64 x = x.
Proof. unfold is_i64, i64. intros H. rewrite Z.mod_small; lia. Qed.

Lemma i64_range x : is_i64 (i64 x).
Proof.
  unfold is_i64, i64. pose proof (Z.mod_pos_bound (x + 2 ^ 63) (2 ^ 64)). lia.
Qed.

#[export] Hint Resolve u64_range big_Uint64_range i64_range : go.

(** ** Go's [error]

    A Go error is an interface value: [nil] or some error.  The text of an error
    is kept because the code inspects it with [strings.Contains]. *)
Inductive err : Type :=
  | ErrNew (msg : string)
  | ErrWrap (cause : err) (msg : string).

#[global] Instance err_eq_dec : EqDecision err.
Proof. solve_decision. Defined.

Abbreviation error := (option err).

(** [err.Error()] *)
Fixpoint err_Error (e : err) : string :=
  match e with
  | ErrNew m => m
  | ErrWrap c m => (m ++ ": " ++ err_Error c)%string
  end.

(** [errors.Wrap] of [github.com/pkg/errors]: documented to return nil on nil. *)
Definition Wrap (e : error) (msg : string) : error :=
  (fun c => ErrWrap c msg) <$> e.

(** [strings.Contains] and [strings.HasPrefix] / [strings.HasSuffix]. *)
Fixpoint strings_HasPrefix (s prefix : string) : bool :=
  match prefix, s with
  | EmptyString, _ => true
  | String p prefix', String c s' => Ascii.eqb p c && strings_HasPrefix s' prefix'
  | String _ _, EmptyString => false
  end.

Fixpoint strings_Contains (s sub : string) : bool :=
  strings_HasPrefix s sub ||
  match s with
  | EmptyString => false
  | String _ s' => strings_Contains s' sub
  end.

Lemma strings_HasPrefix_app p s : strings_HasPrefix (p ++ s) p = true.
Proof. induction p as [|c p IH]; simpl; [by destruct s|]. by rewrite Ascii.eqb_refl. Qed.

Lemma strings_HasPrefix_inv s p :
  strings_HasPrefix s p = true -> exists s', s = (p ++ s')%string.
Proof.
  revert s. induction p as [|c p IH]; intros s; simpl; [eauto|].
  destruct s as [|c' s]; [done|].
  intros [->%Ascii.eqb_eq [s' ->]%IH]%andb_true_iff. by exists s'.
Qed.

(** ** Tactics shared by the development *)

(** Case analysis on the scrutinee of a [match] in the goal or a hypothesis. *)
Ltac case_goal := match goal with |- context [match ?x with _ => _ end] => destruct x eqn:? end.

(** Use every [u64] range fact of the context. *)
Ltac unfold_ranges := unfold is_u64, is_i64, is_u256, is_addr in *.

(** ** Lists *)

Lemma last_error_cons {A} (x : A) l : is_Some (last (x :: l)).
Proof. revert x. induction l as [|y l IH]; intros x; [by eexists|]. exact (IH y). Qed.

Lemma cons_inv {A} (x y : A) l k : x :: l = y :: k -> x = y /\ l = k.
Proof. by intros [= -> ->]. Qed.

(** A Go map filled by a loop over a slice keeps the last value of each key. *)
Lemma lookup_fill {K V} `{Countable K} (k : V -> K) (m : gmap K V) (l : list V) a :
  foldl (fun m v => <[k v := v]> m) m l !! a =
  match last (base.filter (fun v => k v = a) l) with Some v => Some v | None => m !! a end.
Proof.
  induction l as [|v l IH] using rev_ind; [done|].
  rewrite foldl_app, filter_app. cbn [foldl]. rewrite filter_cons, filter_nil.
  destruct (decide (k v = a)) as [<-|Hne].
  - by rewrite last_snoc, lookup_insert_eq.
  - by rewrite app_nil_r, lookup_insert_ne.
Qed.

Lemma last_filter_Some {A} (P : A -> Prop) `{forall x, Decision (P x)} l x :
  last (base.filter P l) = Some x -> P x /\ x ∈ l.
Proof.
  intros Hl. apply last_Some_elem_of, list_elem_of_filter in Hl. tauto.
Qed.
