(* ===== verification/GoStrings.v ===== *)
(** * GoStrings: what the program uses of Go's package strings

    Strings are byte strings; the ASCII cases of the Unicode functions are modelled. *)
From Stdlib Require Import Init.Byte.
From S2P Require Import Prelude.

(** ** Spaces and cases *)

(** [unicode.IsSpace] below 128. *)
Definition is_space (c : ascii) : bool :=
  let n := nat_of_ascii c in ((9 <=? n) && (n <=? 13) || (n =? 32))%nat.

Fixpoint trim_left (s : string) : string :=
  match s with
  | String c s' => if is_space c then trim_left s' else s
  | EmptyString => EmptyString
  end.

Fixpoint string_rev_acc (s acc : string) : string :=
  match s with
  | EmptyString => acc
  | String c s' => string_rev_acc s' (String c acc)
  end.
Definition string_rev (s : string) : string := string_rev_acc s EmptyString.

Definition strings_TrimSpace (s : string) : string :=
  string_rev (trim_left (string_rev (trim_left s))).

Definition lower_ascii (c : ascii) : ascii :=
  let n := nat_of_ascii c in
  if ((65 <=? n) && (n <=? 90))%nat then ascii_of_nat (n + 32) else c.

Fixpoint strings_ToLower (s : string) : string :=
  match s with
  | EmptyString => EmptyString
  | String c s' => String (lower_ascii c) (strings_ToLower s')
  end.

(** [strings.HasSuffix] and [strings.TrimSuffix] *)
Definition strings_HasSuffix (s suffix : string) : bool :=
  strings_HasPrefix (string_rev s) (string_rev suffix).

Definition strings_TrimSuffix (s suffix : string) : string :=
  if strings_HasSuffix s suffix
  then String.substring 0 (String.length s - String.length suffix) s else s.

(** [strings.TrimPrefix] *)
Definition strings_TrimPrefix (s prefix : string) : string :=
  if strings_HasPrefix s prefix
  then String.substring (String.length prefix) (String.length s - String.length prefix) s else s.

(** ** [strings.Split] on one character *)
Fixpoint strings_Split (sep : ascii) (s : string) : list string :=
  match s with
  | EmptyString => [EmptyString]
  | String c s' =>
      let r := strings_Split sep s' in
      if Ascii.eqb c sep then EmptyString :: r
      else match r with
           | [] => [String c EmptyString]
           | p :: r' => String c p :: r'
           end
  end.

(** The separator does not occur. *)
Fixpoint no_char (sep : ascii) (s : string) : bool :=
  match s with
  | EmptyString => true
  | String c s' => negb (Ascii.eqb c sep) && no_char sep s'
  end.

(** The parts joined by the separator. *)
Fixpoint join (sep : ascii) (parts : list string) : string :=
  match parts with
  | [] => EmptyString
  | [p] => p
  | p :: parts' => p ++ String sep (join sep parts')
  end.

Section split.
Context (sep : ascii).

Lemma split_no_char s : no_char sep s = true -> strings_Split sep s = [s].
Proof.
  induction s as [|c s IH]; [done|]. cbn. intros [Hc Hs]%andb_true_iff. rewrite IH by done.
  by destruct (Ascii.eqb c sep).
Qed.

Lemma split_app p c :
  no_char sep p = true -> strings_Split sep (p ++ String sep c) = p :: strings_Split sep c.
Proof.
  induction p as [|x p IH].
  - intros _. change (strings_Split sep (String sep c) = EmptyString :: strings_Split sep c).
    cbn [strings_Split]. by rewrite Ascii.eqb_refl.
  - cbn [no_char]. intros [Hx Hp]%andb_true_iff.
    change (strings_Split sep (String x (p ++ String sep c)) = String x p :: strings_Split sep c).
    cbn [strings_Split]. rewrite IH by done. by destruct (Ascii.eqb x sep).
Qed.

Lemma split_nonempty s : strings_Split sep s <> [].
Proof.
  destruct s as [|x s]; [done|]. cbn [strings_Split]. destruct (Ascii.eqb x sep); [done|].
  by destruct (strings_Split sep s).
Qed.

(** Splitting loses nothing: joining the parts gives the string back. *)
Lemma join_split s : join sep (strings_Split sep s) = s.
Proof.
  induction s as [|x s IH]; [done|]. cbn [strings_Split].
  pose proof (split_nonempty s) as Hne.
  destruct (strings_Split sep s) as [|q r] eqn:E; [done|].
  destruct (Ascii.eqb_spec x sep) as [->|Hx].
  - change (String sep (join sep (q :: r)) = String sep s). by rewrite IH.
  - destruct r as [|q' r]; [by rewrite <- IH|].
    change (String x (join sep (q :: q' :: r)) = String x s). by rewrite IH.
Qed.

(** No part contains the separator. *)
Lemma split_parts s : Forall (fun p => no_char sep p = true) (strings_Split sep s).
Proof.
  induction s as [|x s IH]; [by repeat constructor|]. cbn [strings_Split].
  destruct (Ascii.eqb x sep) eqn:Ex; [by constructor|].
  destruct (strings_Split sep s) as [|q r].
  - constructor; [|done]. cbn. by rewrite Ex.
  - apply Forall_cons in IH as [Hq Hr]. constructor; [|done]. cbn. by rewrite Ex.
Qed.

Lemma split_one s c : strings_Split sep s = [c] -> s = c.
Proof. intros H. rewrite <- (join_split s), H. done. Qed.

Lemma split_two s p c : strings_Split sep s = [p; c] -> s = (p ++ String sep c)%string.
Proof. intros H. rewrite <- (join_split s), H. done. Qed.
End split.

(** The two parts of a string with one separator. *)
Lemma split_two_iff sep s p c :
  strings_Split sep s = [p; c] <->
  s = (p ++ String sep c)%string /\ no_char sep p = true /\ no_char sep c = true.
Proof.
  split.
  - intros H. split; [by apply split_two|]. pose proof (split_parts sep s) as Hf. rewrite H in Hf.
    apply Forall_cons in Hf as [Hp Hf]. by apply Forall_cons in Hf as [Hc _].
  - intros (-> & Hp & Hc). by rewrite split_app, split_no_char by done.
Qed.

(** ** Packages path and path/filepath (on Unix) *)

(** One segment of [path.Clean]; [acc] is the cleaned prefix, last segment first. *)
Definition clean_step (rooted : bool) (acc : list string) (seg : string) : list string :=
  if String.eqb seg "" || String.eqb seg "." then acc
  else if String.eqb seg ".." then
    match acc with
    | top :: acc' => if String.eqb top ".." then seg :: acc else acc'
    | [] => if rooted then [] else [seg]
    end
  else seg :: acc.

Definition path_Clean (p : string) : string :=
  let rooted := strings_HasPrefix p "/" in
  let body := join "/" (reverse (foldl (clean_step rooted) [] (strings_Split "/" p))) in
  if rooted then ("/" ++ body)%string
  else if String.eqb body "" then "." else body.

(** [path.Join]: empty elements are ignored. *)
Definition path_Join (elem : list string) : string :=
  match List.filter (fun e => negb (String.eqb e "")) elem with
  | [] => ""
  | es => path_Clean (join "/" es)
  end.

Definition filepath_IsAbs (p : string) : bool := strings_HasPrefix p "/".

Example path_Join_ex : path_Join ["/home/x/"; "./keys"; "../k.json"]%string = "/home/x/k.json"%string.
Proof. reflexivity. Qed.

(** ** [hex.DecodeString] of encoding/hex *)
Definition hex_digit (c : ascii) : option Z :=
  let n := Z.of_nat (nat_of_ascii c) in
  if (48 <=? n) && (n <=? 57) then Some (n - 48)
  else if (97 <=? n) && (n <=? 102) then Some (n - 87)
  else if (65 <=? n) && (n <=? 70) then Some (n - 55)
  else None.

Fixpoint hex_DecodeString (s : string) : list Byte.byte + err :=
  match s with
  | EmptyString => inl []
  | String a EmptyString =>
      match hex_digit a with
      | Some _ => inr (ErrNew "encoding/hex: odd length hex string")
      | None => inr (ErrNew "encoding/hex: invalid byte")
      end
  | String a (String b s') =>
      match hex_digit a, hex_digit b with
      | Some x, Some y =>
          match hex_DecodeString s' with
          | inl l => inl (default x00 (Byte.of_N (Z.to_N (16 * x + y))) :: l)
          | inr e => inr e
          end
      | _, _ => inr (ErrNew "encoding/hex: invalid byte")
      end
  end.

Example hex_DecodeString_ex : hex_DecodeString "00fF" = inl [x00; xff].
Proof. reflexivity. Qed.

(** ** [strings.Trim] on one character, and the lines of a [bufio.Scanner] *)
Fixpoint trim_left_char (q : ascii) (s : string) : string :=
  match s with
  | String c s' => if Ascii.eqb c q then trim_left_char q s' else s
  | EmptyString => EmptyString
  end.

Definition strings_Trim (q : ascii) (s : string) : string :=
  string_rev (trim_left_char q (string_rev (trim_left_char q s))).

(** A line without a trailing carriage return. *)
Definition drop_CR (s : string) : string := strings_TrimSuffix s (String (ascii_of_nat 13) EmptyString).

(** [bufio.ScanLines]: a final empty line is not returned; a line that does not fit the
    scanner's buffer of 64 KB ends the scan. *)
Fixpoint scanned (lines : list string) : list string :=
  match lines with
  | [] => []
  | l :: lines =>
      if (64 * 1024 <=? Z.of_nat (String.length l))%Z then []
      else match lines with
           | [] => if String.eqb l "" then [] else [drop_CR l]
           | _ => drop_CR l :: scanned lines
           end
  end.

Definition scan_lines (s : string) : list string := scanned (strings_Split (ascii_of_nat 10) s).
