(* ===== verification/GoFloat.v ===== *)
(** * GoFloat: Go's floating point numbers

    A float is a dyadic number [m * 2^e] or one of the special values.  The
    conversion [float32(f)] of the language rounds to nearest, ties to even, at
    24 bits of precision. *)
From Stdlib Require Import QArith Qpower Lqa.
From S2P Require Import Prelude.
#[local] Open Scope Z_scope.

Inductive gofloat : Type :=
  | FFin (m e : Z)
  | FInf (neg : bool)
  | FNaN.

(** The value of a finite float. *)
Definition dyadic (m e : Z) : Q := (inject_Z m * Qpower 2 e)%Q.

Definition Qltb (x y : Q) : bool := negb (Qle_bool y x).

(** The comparison [x < y] of the language. *)
Definition float_lt (x y : gofloat) : bool :=
  match x, y with
  | FFin m e, FFin m' e' => Qltb (dyadic m e) (dyadic m' e')
  | FInf true, FFin _ _ | FInf true, FInf false | FFin _ _, FInf false => true
  | _, _ => false
  end.

(** The comparison [x == 0]. *)
Definition float_is_zero (x : gofloat) : bool :=
  match x with FFin m _ => m =? 0 | _ => false end.

(** [m / 2^k] rounded to nearest, ties to even. *)
Definition rne (m k : Z) : Z :=
  let q := m / 2 ^ k in
  let r := m mod 2 ^ k in
  match 2 * r ?= 2 ^ k with
  | Lt => q
  | Gt => q + 1
  | Eq => if Z.even q then q else q + 1
  end.

(** [float32(f)]: 24 bits of precision, exponent of the last place >= -149. *)
Definition float32_exp (m e : Z) : Z := Z.max (e + (Z.log2 (Z.abs m) + 1) - 24) (-149).

Definition float32 (x : gofloat) : gofloat :=
  match x with
  | FFin m e =>
      let e' := float32_exp m e in
      if e' <=? e then FFin m e
      else
        let m' := rne m (e' - e) in
        if 2 ^ 24 * 2 ^ 104 <=? Z.abs m' * 2 ^ Z.max e' 0 then FInf (m <? 0)
        else FFin m' e'
  | _ => x
  end.

(** Doubles: 53 bits of precision. *)
Definition is_float64 (m e : Z) : Prop := Z.abs m < 2 ^ 53 /\ -1074 <= e <= 971.

(** ** Rounding respects the representable numbers *)

Lemma rne_lower m k n : 0 <= k -> n * 2 ^ k <= m -> n <= rne m k.
Proof.
  intros Hk Hn. assert (n <= m / 2 ^ k) by (apply Z.div_le_lower_bound; lia).
  unfold rne. repeat case_goal; lia.
Qed.

Lemma rne_upper m k n : 0 <= k -> m <= n * 2 ^ k -> rne m k <= n.
Proof.
  intros Hk Hn. pose proof (Z.pow_pos_nonneg 2 k ltac:(lia) Hk) as Hp.
  pose proof (Z.div_mod m (2 ^ k) ltac:(lia)) as Hdm.
  pose proof (Z.mod_pos_bound m (2 ^ k) Hp) as Hb.
  assert (m / 2 ^ k <= n) by (apply Z.div_le_upper_bound; lia).
  destruct (Z.eq_dec (m / 2 ^ k) n) as [Heq|].
  - assert (m mod 2 ^ k = 0) as Hm by nia. unfold rne. rewrite Hm.
    replace (2 * 0 ?= 2 ^ k) with Lt by (symmetry; apply Z.compare_lt_iff; lia). lia.
  - unfold rne. repeat case_goal; lia.
Qed.

Lemma dyadic_shift m e k : 0 <= k -> (dyadic m (e + k) == dyadic (m * 2 ^ k) e)%Q.
Proof.
  intros Hk. unfold dyadic. rewrite Qpower_plus by done.
  rewrite inject_Z_mult, Zpower_Qpower by done.
  change (inject_Z 2) with 2%Q. ring.
Qed.

Lemma Qpower2_pos e : (0 < Qpower 2 e)%Q.
Proof. apply Qpower_0_lt. done. Qed.

Lemma dyadic_le m m' e : m <= m' <-> (dyadic m e <= dyadic m' e)%Q.
Proof.
  unfold dyadic. rewrite (Zle_Qle m m'). split; intros H.
  - apply Qmult_le_compat_r; [done|]. apply Qlt_le_weak, Qpower2_pos.
  - by apply Qmult_lt_0_le_reg_r in H; [|apply Qpower2_pos].
Qed.

Lemma dyadic_le_shift m n e k :
  0 <= k -> (dyadic n (e + k) <= dyadic m e)%Q <-> n * 2 ^ k <= m.
Proof. intros Hk. rewrite dyadic_shift by done. symmetry. apply dyadic_le. Qed.

Lemma dyadic_ge_shift m n e k :
  0 <= k -> (dyadic m e <= dyadic n (e + k))%Q <-> m <= n * 2 ^ k.
Proof. intros Hk. rewrite dyadic_shift by done. symmetry. apply dyadic_le. Qed.

Lemma Qltb_false x y : Qltb x y = false <-> (y <= x)%Q.
Proof. unfold Qltb. rewrite negb_false_iff. apply Qle_bool_iff. Qed.

Lemma Qltb_true x y : Qltb x y = true <-> (x < y)%Q.
Proof.
  unfold Qltb. rewrite negb_true_iff, <- not_true_iff_false, Qle_bool_iff.
  split; [apply Qnot_le_lt|apply Qlt_not_le].
Qed.

(** A bound [n * 2^g] whose last place is not below the rounding place is
    respected from both sides. *)
Lemma float32_rounds_up m e n g :
  float32_exp m e <= g -> (dyadic n g <= dyadic m e)%Q ->
  let e' := float32_exp m e in
  e < e' -> (dyadic n g <= dyadic (rne m (e' - e)) e')%Q.
Proof.
  intros Hg Hle e' He.
  replace g with (e' + (g - e')) by lia. rewrite dyadic_le_shift by lia.
  apply rne_lower; [lia|].
  replace g with (e + (g - e)) in Hle by lia. rewrite dyadic_le_shift in Hle by lia.
  replace (g - e) with ((g - e') + (e' - e)) in Hle by lia.
  rewrite Z.pow_add_r in Hle by lia. lia.
Qed.

Lemma float32_rounds_down m e n g :
  float32_exp m e <= g -> (dyadic m e <= dyadic n g)%Q ->
  let e' := float32_exp m e in
  e < e' -> (dyadic (rne m (e' - e)) e' <= dyadic n g)%Q.
Proof.
  intros Hg Hle e' He.
  replace g with (e' + (g - e')) by lia. rewrite dyadic_ge_shift by lia.
  apply rne_upper; [lia|].
  replace g with (e + (g - e)) in Hle by lia. rewrite dyadic_ge_shift in Hle by lia.
  replace (g - e) with ((g - e') + (e' - e)) in Hle by lia.
  rewrite Z.pow_add_r in Hle by lia. lia.
Qed.

(** The magnitude of a float bounds its rounding place. *)
Lemma float32_exp_magnitude m e p :
  0 < m -> (dyadic m e < dyadic 1 p)%Q -> -149 <= p - 24 -> float32_exp m e <= p - 24.
Proof.
  intros Hm Hlt Hp. unfold float32_exp. rewrite Z.abs_eq by lia.
  apply Z.max_lub; [|lia]. pose proof (Z.log2_spec m Hm) as [Hl _].
  destruct (Z.le_gt_cases (e + Z.log2 m) (p - 1)) as [|Hgt]; [lia|exfalso].
  apply (Qlt_not_le _ _ Hlt).
  apply Qle_trans with (dyadic 1 (e + Z.log2 m)).
  - replace (e + Z.log2 m) with (p + (e + Z.log2 m - p)) by lia.
    rewrite dyadic_ge_shift by lia. pose proof (Z.pow_pos_nonneg 2 (e + Z.log2 m - p)). lia.
  - rewrite dyadic_le_shift by (apply Z.log2_nonneg). lia.
Qed.

Lemma dyadic_pos m e : (0 < dyadic m e)%Q -> 0 < m.
Proof.
  intros H. destruct (Z.le_gt_cases m 0) as [Hm|]; [exfalso|done].
  apply (dyadic_le m 0 e) in Hm. apply (Qlt_not_le _ _ H).
  eapply Qle_trans; [exact Hm|]. unfold dyadic. rewrite Qmult_0_l. apply Qle_refl.
Qed.

Lemma rne_nonneg m k : 0 <= m -> 0 <= k -> 0 <= rne m k.
Proof. intros. apply rne_lower; lia. Qed.

Lemma float32_digits m e :
  0 <= m -> e < float32_exp m e -> rne m (float32_exp m e - e) <= 2 ^ 24.
Proof.
  intros Hm He. apply rne_upper; [lia|]. rewrite <- Z.pow_add_r by lia.
  destruct (Z.eq_dec m 0) as [->|]; [apply Z.pow_nonneg; lia|].
  pose proof (Z.log2_spec m ltac:(lia)) as [_ Hs].
  apply Z.lt_le_incl. eapply Z.lt_le_trans; [exact Hs|].
  apply Z.pow_le_mono_r; [lia|]. unfold float32_exp. rewrite Z.abs_eq by lia. lia.
Qed.

(** The test [float32(f) < c] for an integral [c] at a double [f >= c]. *)
Lemma float32_ge m e c :
  0 < c < 2 ^ 23 -> (dyadic c 0 <= dyadic m e)%Q ->
  float_lt (float32 (FFin m e)) (FFin c 0) = false.
Proof.
  intros Hc Hle.
  assert (0 < m) as Hm.
  { apply (dyadic_pos m e). eapply Qlt_le_trans; [|exact Hle].
    unfold dyadic. rewrite Qmult_1_r. change 0%Q with (inject_Z 0). rewrite <- Zlt_Qlt. lia. }
  cbn [float32]. destruct (Z.leb_spec (float32_exp m e) e) as [|He].
  { by apply Qltb_false. }
  case_match; [by rewrite (proj2 (Z.ltb_ge m 0)) by lia|].
  apply Qltb_false. destruct (Z.le_gt_cases (float32_exp m e) 0) as [|Hp].
  - by apply float32_rounds_up.
  - set (e' := float32_exp m e) in *.
    assert (e' = e + (Z.log2 m + 1) - 24) as He'.
    { unfold e', float32_exp in *. rewrite Z.abs_eq in * by lia. lia. }
    apply Qle_trans with (dyadic (2 ^ 23) e').
    + replace e' with (0 + e') by lia. rewrite dyadic_ge_shift by lia.
      pose proof (Z.pow_pos_nonneg 2 e'). nia.
    + apply dyadic_le, rne_lower; [lia|].
      rewrite <- Z.pow_add_r by lia. replace (23 + (e' - e)) with (Z.log2 m) by lia.
      by apply Z.log2_spec.
Qed.

(** The same test at a non-negative double below [c] by one unit in the last
    place of a float32 of magnitude below [2^p]. *)
Lemma float32_lt m e n p c :
  0 <= m -> -149 <= p - 24 -> (dyadic n (p - 24) < dyadic 1 p)%Q ->
  (dyadic m e <= dyadic n (p - 24))%Q -> (dyadic n (p - 24) < dyadic c 0)%Q -> p <= 100 ->
  float_lt (float32 (FFin m e)) (FFin c 0) = true.
Proof.
  intros Hm Hp Hnp Hle Hc Hp'. cbn [float32].
  destruct (Z.leb_spec (float32_exp m e) e) as [|He].
  { apply Qltb_true. by eapply Qle_lt_trans. }
  assert (dyadic (rne m (float32_exp m e - e)) (float32_exp m e) <= dyadic n (p - 24))%Q
    as Hd.
  { destruct (Z.eq_dec m 0) as [->|].
    - unfold rne. rewrite Z.div_0_l, Z.mod_0_l by lia.
      pose proof (Z.pow_pos_nonneg 2 (float32_exp 0 e - e)).
      replace (2 * 0 ?= _) with Lt by (symmetry; apply Z.compare_lt_iff; lia).
      eapply Qle_trans; [|exact Hle]. unfold dyadic. rewrite !Qmult_0_l. apply Qle_refl.
    - apply float32_rounds_down; [|done..].
      apply float32_exp_magnitude; [lia| |done]. by eapply Qle_lt_trans. }
  case_match eqn:Hov; [exfalso|apply Qltb_true; by eapply Qle_lt_trans].
  apply Z.leb_le in Hov. rewrite Z.abs_eq in Hov by (apply rne_nonneg; lia).
  pose proof (float32_digits m e Hm He).
  assert (float32_exp m e <= Z.max (p - 24) (-149)) as Hexp.
  { destruct (Z.eq_dec m 0) as [->|].
    - unfold float32_exp in *. change (Z.log2 (Z.abs 0)) with 0 in *. lia.
    - pose proof (float32_exp_magnitude m e p ltac:(lia) (Qle_lt_trans _ _ _ Hle Hnp) Hp). lia. }
  assert (2 ^ Z.max (float32_exp m e) 0 <= 2 ^ 76) by (apply Z.pow_le_mono_r; lia).
  pose proof (rne_nonneg m (float32_exp m e - e) Hm ltac:(lia)). nia.
Qed.
