(* ===== verification/Effects.v ===== *)
(** * Effects: Go code that calls external services

    A method of the program is a [prog]: a tree of calls to the interface it
    uses, each with the reply it waits for, ending in a value or in a panic.
    [runs] relates a program to the traces of calls and replies it can have,
    for every behaviour of the environment; [exec] runs it against a concrete
    handler; [interp] implements the calls of one interface by programs over
    another; [wp] is the weakest precondition over traces and outcomes that
    the proofs of the components use. *)
From S2P Require Import Prelude.

(** ** Interfaces *)
Record Iface : Type := MkIface { cmd : Type; reply : cmd -> Type }.

(** The value given to [panic]: an error (as for runtime errors) or another value. *)
Inductive panicv : Type :=
  | PanicError (e : err)
  | PanicValue (msg : string).

Definition nil_dereference : panicv :=
  PanicError (ErrNew "runtime error: invalid memory address or nil pointer dereference").

Inductive prog (I : Iface) (A : Type) : Type :=
  | Ret (a : A)
  | Panic (v : panicv)
  | Call (c : cmd I) (k : reply I c -> prog I A).
Arguments Ret {I A} _.
Arguments Panic {I A} _.
Arguments Call {I A} _ _.

Fixpoint prog_bind {I A B} (f : A -> prog I B) (p : prog I A) : prog I B :=
  match p with
  | Ret a => f a
  | Panic m => Panic m
  | Call c k => Call c (fun r => prog_bind f (k r))
  end.

#[global] Instance prog_ret I : MRet (prog I) := fun A a => Ret a.
#[global] Instance prog_mbind I : MBind (prog I) := fun A B f p => prog_bind f p.

(** Issue one call and return its reply. *)
Definition call {I} (c : cmd I) : prog I (reply I c) := Call c (fun r => Ret r).

(** Dereferencing a Go pointer: panics on nil. *)
Definition deref {I A} (p : option A) : prog I A :=
  match p with
  | Some a => Ret a
  | None => Panic nil_dereference
  end.

(** ** Traces *)
Definition event (I : Iface) : Type := { c : cmd I & reply I c }.
Definition Ev {I : Iface} (c : cmd I) (r : reply I c) : event I := existT c r.

Inductive outcome (A : Type) : Type :=
  | Done (a : A)
  | Crashed (v : panicv).
Arguments Done {A} _.
Arguments Crashed {A} _.

Inductive runs {I A} : prog I A -> list (event I) -> outcome A -> Prop :=
  | runs_ret a : runs (Ret a) [] (Done a)
  | runs_panic m : runs (Panic m) [] (Crashed m)
  | runs_call c k r tr o : runs (k r) tr o -> runs (Call c k) (Ev c r :: tr) o.

(** The weakest precondition over traces and outcomes. *)
Fixpoint wp {I A} (p : prog I A) (Q : list (event I) -> outcome A -> Prop) : Prop :=
  match p with
  | Ret a => Q [] (Done a)
  | Panic m => Q [] (Crashed m)
  | Call c k => forall r, wp (k r) (fun tr o => Q (Ev c r :: tr) o)
  end.

(** Running against a handler: a concrete environment with state [W]. *)
Definition handler (I : Iface) (W : Type) : Type := forall c : cmd I, W -> reply I c * W.

Fixpoint exec {I A W} (h : handler I W) (p : prog I A) (w : W)
  : outcome A * list (event I) * W :=
  match p with
  | Ret a => (Done a, [], w)
  | Panic m => (Crashed m, [], w)
  | Call c k =>
      let '(r, w1) := h c w in
      let '(o, tr, w2) := exec h (k r) w1 in
      (o, Ev c r :: tr, w2)
  end.

(** An environment that does not change: it answers a call always the same way. *)
Definition answers (I : Iface) : Type := forall c : cmd I, reply I c.

Fixpoint eval {I A} (env : answers I) (p : prog I A) : outcome A :=
  match p with
  | Ret a => Done a
  | Panic v => Crashed v
  | Call c k => eval env (k (env c))
  end.

(** Implementing the calls of [I] by programs over [J]. *)
Fixpoint interp {I J A} (h : forall c : cmd I, prog J (reply I c)) (p : prog I A)
  : prog J A :=
  match p with
  | Ret a => Ret a
  | Panic m => Panic m
  | Call c k => prog_bind (fun r => interp h (k r)) (h c)
  end.

(** The same with a state that the implementation keeps between the calls. *)
Fixpoint interp_st {I J St A} (h : forall c : cmd I, St -> prog J (reply I c * St)) (p : prog I A) (s : St)
  : prog J (A * St) :=
  match p with
  | Ret a => Ret (a, s)
  | Panic m => Panic m
  | Call c k => prog_bind (fun rs : reply I c * St => interp_st h (k rs.1) rs.2) (h c s)
  end.

(** Two interfaces side by side, and the programs that use only one of them. *)
Definition SumI (I J : Iface) : Iface :=
  MkIface (cmd I + cmd J)
    (fun c => match c with inl c => reply I c | inr c => reply J c end).

Definition liftl {I J A} (p : prog I A) : prog (SumI I J) A :=
  interp (fun c => Call (I := SumI I J) (inl c) Ret) p.

(** [recover()] in a deferred function: a panic becomes a value. *)
Fixpoint prog_recover {I A} (f : panicv -> A) (p : prog I A) : prog I A :=
  match p with
  | Ret a => Ret a
  | Panic m => Ret (f m)
  | Call c k => Call c (fun r => prog_recover f (k r))
  end.

(** A Go [for] loop over a slice whose body may return early ([inr]) or
    continue with new values of the captured variables ([inl]). *)
Fixpoint prog_for {I X St R} (xs : list X) (s : St)
    (body : X -> St -> prog I (St + R)) : prog I (St + R) :=
  match xs with
  | [] => Ret (inl s)
  | x :: xs' =>
      res ← body x s;
      match res with
      | inl s' => prog_for xs' s' body
      | inr r => Ret (inr r)
      end
  end.

(** ** Laws *)
Section laws.
Context {I : Iface}.
Implicit Types tr : list (event I).

Lemma wp_runs {A} (p : prog I A) Q :
  wp p Q <-> forall tr o, runs p tr o -> Q tr o.
Proof.
  split.
  - intros H tr o Hr. revert Q H. induction Hr; simpl; intros Q H; auto.
    by apply (IHHr (fun tr o => Q (Ev c r :: tr) o)).
  - revert Q. induction p as [a|m|c k IH]; simpl; intros Q H.
    + apply H, runs_ret.
    + apply H, runs_panic.
    + intros r. apply IH. intros tr o Hr. by apply H, runs_call.
Qed.

Lemma wp_mono {A} (p : prog I A) (Q Q' : _ -> _ -> Prop) :
  wp p Q -> (forall tr o, Q tr o -> Q' tr o) -> wp p Q'.
Proof. intros H HQ. apply wp_runs. intros tr o Hr. apply HQ. by eapply wp_runs in H. Qed.

#[global] Instance wp_proper {A} (p : prog I A) :
  Proper (pointwise_relation _ (pointwise_relation _ iff) ==> iff) (wp p).
Proof.
  intros Q Q' HQ. split; intros H; eapply wp_mono; [exact H| |exact H|];
    intros tr o; apply HQ.
Qed.

(** Postconditions of one program can be proved apart. *)
Lemma wp_conj {A} (p : prog I A) (Q Q' : _ -> _ -> Prop) :
  wp p Q -> wp p Q' -> wp p (fun tr o => Q tr o /\ Q' tr o).
Proof. intros H H'. apply wp_runs. intros tr o Hr. split; by eapply wp_runs in Hr; eauto. Qed.

Lemma wp_bind {A B} (p : prog I A) (f : A -> prog I B) Q :
  wp (p ≫= f) Q <->
  wp p (fun tr o => match o with
                    | Done a => wp (f a) (fun tr' o' => Q (tr ++ tr') o')
                    | Crashed m => Q tr (Crashed m)
                    end).
Proof.
  revert Q. induction p as [a|m|c k IH]; intros Q; simpl; [done|done|].
  split; intros H r; [specialize (H r); by apply IH in H | by apply IH].
Qed.

Lemma wp_call (c : cmd I) Q :
  wp (call c) Q <-> forall r, Q [Ev c r] (Done r).
Proof. done. Qed.

Lemma wp_deref {A} (x : option A) Q :
  wp (I:=I) (deref x) Q <->
  match x with
  | Some a => Q [] (Done a)
  | None => Q [] (Crashed nil_dereference)
  end.
Proof. by destruct x. Qed.

(** Programs are total: whatever the environment answers, a handler runs a
    program to an outcome, along one of its traces. *)
Lemma exec_runs {A W} (h : handler I W) (p : prog I A) w :
  runs p (exec h p w).1.2 (exec h p w).1.1.
Proof.
  revert w. induction p as [a|m|c k IH]; intros w; simpl.
  - constructor.
  - constructor.
  - destruct (h c w) as [r w1]. specialize (IH r w1).
    destruct (exec h (k r) w1) as [[o tr] w2]. by constructor.
Qed.

Lemma exec_bind {A B W} (h : handler I W) (f : A -> prog I B) (p : prog I A) w :
  exec h (prog_bind f p) w =
  let '(o, tr, w1) := exec h p w in
  match o with
  | Done a => let '(o', tr', w2) := exec h (f a) w1 in (o', tr ++ tr', w2)
  | Crashed m => (Crashed m, tr, w1)
  end.
Proof.
  revert w. induction p as [a|m|c k IH]; intros w; simpl.
  - by destruct (exec h (f a) w) as [[o tr] w2].
  - done.
  - destruct (h c w) as [r w1]. rewrite IH.
    destruct (exec h (k r) w1) as [[[a|m] tr] w2]; [|done].
    by destruct (exec h (f a) w2) as [[o tr'] w3].
Qed.

Lemma exec_Forall {A W} (h : handler I W) (P : event I -> Prop) (p : prog I A) w :
  (forall c w, P (Ev c (h c w).1)) -> Forall P (exec h p w).1.2.
Proof.
  intros HP. revert w. induction p as [a|m|c k IH]; intros w; simpl; [constructor..|].
  specialize (HP c w). destruct (h c w) as [r w1]. specialize (IH r w1).
  destruct (exec h (k r) w1) as [[o tr] w2]. by constructor.
Qed.

Lemma eval_runs {A} (env : answers I) (p : prog I A) :
  exists tr, runs p tr (eval env p).
Proof.
  induction p as [a|m|c k IH]; simpl; [eexists; constructor..|].
  destruct (IH (env c)) as [tr Htr]. eexists. by constructor.
Qed.

Lemma eval_bind {A B} (env : answers I) (p : prog I A) (f : A -> prog I B) :
  eval env (p ≫= f) =
  match eval env p with Done a => eval env (f a) | Crashed v => Crashed v end.
Proof. induction p as [a|m|c k IH]; simpl; [done..|]. apply IH. Qed.

Lemma runs_total {A} (p : prog I A) (h : handler I unit) :
  exists tr o, runs p tr o.
Proof. eexists _, _. apply (exec_runs h p tt). Qed.

Lemma wp_recover {A} (f : panicv -> A) (p : prog I A) Q :
  wp (prog_recover f p) Q <->
  wp p (fun tr o => match o with
                    | Done a => Q tr (Done a)
                    | Crashed m => Q tr (Done (f m))
                    end).
Proof.
  revert Q. induction p as [a|m|c k IH]; intros Q; simpl; [done|done|].
  split; intros H r; [specialize (H r); by apply IH in H | by apply IH].
Qed.

(** A trace in which the handler gives the replies; the one of [exec] is the only such run. *)
Fixpoint conforms {W} (h : handler I W) (w : W) tr (w' : W) : Prop :=
  match tr with
  | [] => w' = w
  | ev :: tr => projT2 ev = (h (projT1 ev) w).1 /\ conforms h (h (projT1 ev) w).2 tr w'
  end.

Lemma exec_conforms {A W} (h : handler I W) (p : prog I A) w :
  conforms h w (exec h p w).1.2 (exec h p w).2.
Proof.
  revert w. induction p as [a|m|c k IH]; intros w; simpl; [done..|].
  destruct (h c w) as [r w1] eqn:Eh. specialize (IH r w1).
  destruct (exec h (k r) w1) as [[o tr] w2]. cbn in *. by rewrite Eh.
Qed.

Lemma runs_conforms {A W} (h : handler I W) (p : prog I A) tr o w w' :
  runs p tr o -> conforms h w tr w' -> exec h p w = (o, tr, w').
Proof.
  intros Hr. revert w. induction Hr as [a|m|c k r tr o Hr IH]; intros w; cbn; [by intros ->|by intros ->|].
  destruct (h c w) as [r' w1]. cbn. intros [-> Hc]. by rewrite (IH _ Hc).
Qed.

Lemma conforms_app {W} (h : handler I W) w tr tr' w' :
  conforms h w (tr ++ tr') w' <-> exists w1, conforms h w tr w1 /\ conforms h w1 tr' w'.
Proof.
  revert w. induction tr as [|ev tr IH]; intros w; cbn.
  - split; [by exists w|]. by intros (w1 & -> & H).
  - rewrite IH. naive_solver.
Qed.

(** Loop rule: an invariant over the elements done, the trace and the state. *)
Lemma wp_for {X St R} (xs : list X) (s : St) (body : X -> St -> prog I (St + R))
    (Inv : list X -> list (event I) -> St -> Prop) Q :
  Inv [] [] s ->
  (forall done x rest tr s, xs = done ++ x :: rest -> Inv done tr s ->
     wp (body x s) (fun tr' o =>
       match o with
       | Done (inl s') => Inv (done ++ [x]) (tr ++ tr') s'
       | Done (inr r) => Q (tr ++ tr') (Done (inr r))
       | Crashed m => Q (tr ++ tr') (Crashed m)
       end)) ->
  (forall tr s, Inv xs tr s -> Q tr (Done (inl s))) ->
  wp (prog_for xs s body) Q.
Proof.
  intros H0 Hstep Hend.
  cut (forall done tr0 s0, forall rest, xs = done ++ rest -> Inv done tr0 s0 ->
         wp (prog_for rest s0 body) (fun tr o => Q (tr0 ++ tr) o)).
  { intros H. by apply (H [] [] s xs). }
  intros done tr0 s0 rest. revert done tr0 s0.
  induction rest as [|x rest IH]; intros done tr0 s0 Heq Hinv; simpl.
  - rewrite app_nil_r in Heq |- *. subst done. by apply Hend.
  - apply wp_bind. eapply wp_mono; [eapply Hstep; eauto|].
    intros tr [[s'|r]|m] H; simpl in *; [|by rewrite app_nil_r|done].
    eapply wp_mono; [apply (IH (done ++ [x])); [by rewrite <- app_assoc|exact H]|].
    intros tr' o. by rewrite app_assoc.
Qed.
End laws.

(** ** [retry.Do] of [github.com/avast/retry-go]

    The library is not part of the repository.  [retry_trace n fn s tr o] is the
    behaviour it documents: [fn] is called until it returns nil, at most [n]
    times; when the attempts are used up, or the context is cancelled between
    two attempts, a non-nil error is returned.  [s] holds the variables that the
    closure [fn] captures and assigns. *)
Inductive retry_trace {I St} (fn : St -> prog I (St * error))
  : nat -> St -> list (event I) -> outcome (St * error) -> Prop :=
  | retry_stop n s e : retry_trace fn n s [] (Done (s, Some e))
  | retry_ok n s tr s' :
      runs (fn s) tr (Done (s', None)) ->
      retry_trace fn (S n) s tr (Done (s', None))
  | retry_crash n s tr m :
      runs (fn s) tr (Crashed m) ->
      retry_trace fn (S n) s tr (Crashed m)
  | retry_again n s tr s' e tr' o :
      runs (fn s) tr (Done (s', Some e)) ->
      retry_trace fn n s' tr' o ->
      retry_trace fn (S n) s (tr ++ tr') o.

Class RetryLib (I : Iface) : Type := {
  retry_Do : forall {St : Type}, nat -> (St -> prog I (St * error)) -> St ->
             prog I (St * error);
  retry_Do_spec : forall St n (fn : St -> prog I (St * error)) s tr o,
    runs (retry_Do n fn s) tr o -> retry_trace fn n s tr o
}.

(** The proof rule: an invariant of the failed attempts. *)
Lemma wp_retry {I : Iface} `{!RetryLib I} {St} n (fn : St -> prog I (St * error)) s
    (Inv : list (event I) -> St -> Prop) Q :
  Inv [] s ->
  (forall tr s e, Inv tr s -> Q tr (Done (s, Some e))) ->
  (forall tr s, Inv tr s -> wp (fn s) (fun tr' o =>
     match o with
     | Done (s', None) => Q (tr ++ tr') (Done (s', None))
     | Done (s', Some e) => Inv (tr ++ tr') s'
     | Crashed m => Q (tr ++ tr') (Crashed m)
     end)) ->
  wp (retry_Do n fn s) Q.
Proof.
  intros H0 Hstop Hstep. apply wp_runs. intros tr o Hr.
  apply retry_Do_spec in Hr.
  cut (forall tr0, Inv tr0 s -> Q (tr0 ++ tr) o). { intros Hc. by apply (Hc []). }
  clear H0. induction Hr as [n s e|n s tr s' Hr|n s tr m Hr|n s tr s' e tr' o Hr _ IH];
    intros tr0 Hinv.
  - rewrite app_nil_r. by apply Hstop.
  - by eapply (proj1 (wp_runs _ _)) in Hr; [|by apply (Hstep _ _ Hinv)].
  - by eapply (proj1 (wp_runs _ _)) in Hr; [|by apply (Hstep _ _ Hinv)].
  - rewrite app_assoc. apply IH.
    by eapply (proj1 (wp_runs _ _)) in Hr; [|by apply (Hstep _ _ Hinv)].
Qed.

(** While the context is not done, the library makes a first attempt, and does no more when
    that one succeeds. *)
Class RetryAttempts (I : Iface) `{!RetryLib I} : Prop :=
  retry_attempts : forall St n (fn : St -> prog I (St * error)) s tr o,
    runs (retry_Do (S n) fn s) tr o ->
    exists tr1 o1 tr2, runs (fn s) tr1 o1 /\ tr = tr1 ++ tr2 /\
      forall s', o1 = Done (s', None) -> tr2 = [] /\ o = Done (s', None).

(** So what every attempt does at least once, the library does while attempts are left. *)
Lemma wp_retry_nonempty {I : Iface} `{!RetryLib I, !RetryAttempts I} {St} n
    (fn : St -> prog I (St * error)) s :
  n <> 0%nat -> wp (fn s) (fun tr _ => tr <> []) -> wp (retry_Do n fn s) (fun tr _ => tr <> []).
Proof.
  intros Hn Hfn. apply wp_runs. intros tr o Hr. destruct n as [|n]; [done|].
  destruct (retry_attempts _ _ _ _ _ _ Hr) as (tr1 & o1 & tr2 & Hr1 & -> & _).
  apply (proj1 (wp_runs _ _) Hfn) in Hr1. by destruct tr1.
Qed.

(** ** Refinement: implementing an interface *)

(** [tr'] is what the calls of [tr] do when [h] implements them. *)
Inductive implements {I J} (h : forall c : cmd I, prog J (reply I c))
  : list (event I) -> list (event J) -> Prop :=
  | implements_nil : implements h [] []
  | implements_cons c r tr tr1 tr2 :
      runs (h c) tr1 (Done r) -> implements h tr tr2 ->
      implements h (Ev c r :: tr) (tr1 ++ tr2).

(** Every execution that returns is an execution of the program over its interface. *)
Lemma wp_interp {I J A} (h : forall c : cmd I, prog J (reply I c)) (p : prog I A) :
  wp (interp h p) (fun tr' o => forall a, o = Done a ->
    exists tr, runs p tr (Done a) /\ implements h tr tr').
Proof.
  induction p as [a|m|c k IH]; cbn [interp].
  - intros b [= <-]. exists []. split; constructor.
  - done.
  - apply (wp_bind (h c) (fun r => interp h (k r))), wp_runs. intros tr1 [r|m] Hr; [|done].
    eapply wp_mono; [apply IH|]. intros tr2 o H a ->.
    destruct (H a eq_refl) as (tr & Hrun & Himp). exists (Ev c r :: tr).
    split; by constructor.
Qed.

(** What every result of a program satisfies, its implementations satisfy. *)
Lemma wp_interp_result {I J A} (h : forall c : cmd I, prog J (reply I c)) (p : prog I A) (P : A -> Prop) :
  wp p (fun _ o => forall a, o = Done a -> P a) ->
  wp (interp h p) (fun _ o => forall a, o = Done a -> P a).
Proof.
  intros Hp. eapply wp_mono; [apply wp_interp|]. intros tr o H a Ha.
  destruct (H a Ha) as (tr' & Hr & _). by eapply (proj1 (wp_runs _ _) Hp); [exact Hr|].
Qed.

Lemma implements_Forall {I J} (h : forall c : cmd I, prog J (reply I c))
    (P : event I -> Prop) (P' : event J -> Prop) tr tr' :
  (forall c, wp (h c) (fun t o => forall r, o = Done r -> Forall P' t -> P (Ev c r))) ->
  implements h tr tr' -> Forall P' tr' -> Forall P tr.
Proof.
  intros HP. induction 1 as [|c r tr tr1 tr2 Hr _ IH]; intros Hf; [constructor|].
  apply Forall_app in Hf as [H1 H2]. constructor; [|auto].
  by eapply (proj1 (wp_runs _ _) (HP c)).
Qed.

(** A lifted program has the traces of the program, with its calls injected. *)
Definition left_event {I} J (ev : event I) : event (SumI I J) :=
  existT (inl (projT1 ev) : cmd (SumI I J)) (projT2 ev).

Lemma wp_liftl {I J A} (p : prog I A) (Q : list (event (SumI I J)) -> outcome A -> Prop) :
  wp (liftl p) Q <-> wp p (fun tr o => Q (map (left_event J) tr) o).
Proof.
  revert Q. induction p as [a|m|c k IH]; intros Q; [done|done|].
  split; intros H r; [specialize (H r); by apply IH in H | by apply IH].
Qed.

(** ** Which calls a program issues *)
Definition issues {I A} (P : cmd I -> Prop) (p : prog I A) : Prop :=
  wp p (fun tr _ => Forall (fun ev : event I => P (projT1 ev)) tr).

Section issues.
Context {I : Iface} (P : cmd I -> Prop).

Lemma issues_ret {A} (a : A) : issues P (Ret a : prog I A).
Proof. constructor. Qed.

Lemma issues_panic {A} v : issues P (Panic v : prog I A).
Proof. constructor. Qed.

Lemma issues_deref {A} (x : option A) : issues P (deref x).
Proof. destruct x; constructor. Qed.

Lemma issues_Call {A} c (k : reply I c -> prog I A) :
  P c -> (forall r, issues P (k r)) -> issues P (Call c k).
Proof.
  intros Hc Hk r. eapply wp_mono; [apply Hk|]. intros tr o H. by constructor.
Qed.

Lemma issues_bind {A B} (f : A -> prog I B) (p : prog I A) :
  issues P p -> (forall a, issues P (f a)) -> issues P (prog_bind f p).
Proof.
  intros Hp Hf. apply (wp_bind p f). eapply wp_mono; [apply Hp|].
  intros tr [a|m] H; [|done]. eapply wp_mono; [apply Hf|].
  intros tr' o H'. by apply Forall_app.
Qed.

Lemma issues_retry `{!RetryLib I} {St} n (fn : St -> prog I (St * error)) s :
  (forall s, issues P (fn s)) -> issues P (retry_Do n fn s).
Proof.
  intros Hfn. apply (wp_retry n fn s (fun tr _ => Forall (fun ev : event I => P (projT1 ev)) tr));
    [constructor|done|].
  intros tr s' Htr. eapply wp_mono; [apply Hfn|].
  intros tr' [[s1 [e|]]|m] H; by apply Forall_app.
Qed.

Lemma issues_interp {J A} (h : forall c : cmd J, prog I (reply J c)) (p : prog J A) :
  (forall c, issues P (h c)) -> issues P (interp h p).
Proof.
  intros Hh. induction p as [a|m|c k IH]; cbn [interp]; [apply issues_ret|apply issues_panic|].
  by apply (issues_bind (fun r => interp h (k r)) (h c)).
Qed.

Lemma issues_recover {A} (f : panicv -> A) (p : prog I A) : issues P p -> issues P (prog_recover f p).
Proof. intros Hp. apply wp_recover. eapply wp_mono; [exact Hp|]. by intros tr [a|m]. Qed.

Lemma issues_for {X St R} (xs : list X) (s : St) (body : X -> St -> prog I (St + R)) :
  (forall x s, issues P (body x s)) -> issues P (prog_for xs s body).
Proof.
  intros Hb. revert s. induction xs as [|x xs IH]; intros s; cbn [prog_for]; [apply issues_ret|].
  apply issues_bind; [apply Hb|]. intros [s'|r]; [apply IH|apply issues_ret].
Qed.

Lemma issues_runs {A} (p : prog I A) tr o :
  issues P p -> runs p tr o -> Forall (fun ev : event I => P (projT1 ev)) tr.
Proof. intros H. by apply (proj1 (wp_runs _ _) H). Qed.
End issues.

(** ** Properties of traces that hold of parts one after the other *)

(** Every execution of the program has a trace with [P]. *)
Definition keeps {I A} (P : list (event I) -> Prop) (p : prog I A) : Prop := wp p (fun tr _ => P tr).

Class Concatenable {I} (P : list (event I) -> Prop) : Prop := {
  conc_nil : P [];
  conc_app tr tr' : P tr -> P tr' -> P (tr ++ tr')
}.

Section keeps.
Context {I : Iface} (P : list (event I) -> Prop) `{!Concatenable P}.

Lemma keeps_ret {A} (a : A) : keeps P (Ret a : prog I A).
Proof using Type*. apply conc_nil. Qed.

Lemma keeps_panic {A} m : keeps P (Panic m : prog I A).
Proof using Type*. apply conc_nil. Qed.

Lemma keeps_bind {A B} (f : A -> prog I B) (p : prog I A) :
  keeps P p -> (forall a, keeps P (f a)) -> keeps P (p ≫= f).
Proof using Type*.
  intros Hp Hf. apply wp_bind. eapply wp_mono; [exact Hp|]. intros tr [a|m] Htr; [|done].
  eapply wp_mono; [apply Hf|]. intros tr' o Htr'. exact (conc_app _ _ Htr Htr').
Qed.

Lemma keeps_Call {A} (c : cmd I) (k : reply I c -> prog I A) :
  (forall r, P [Ev c r]) -> (forall r, keeps P (k r)) -> keeps P (Call c k).
Proof using Type*.
  intros Hc Hk r. eapply wp_mono; [apply Hk|]. intros tr o Htr. exact (conc_app [Ev c r] tr (Hc r) Htr).
Qed.

Lemma keeps_retry `{!RetryLib I} {St} n (fn : St -> prog I (St * error)) s :
  (forall s, keeps P (fn s)) -> keeps P (retry_Do n fn s).
Proof using Type*.
  intros Hfn. apply (wp_retry n fn s (fun tr _ => P tr)); [apply conc_nil|done|].
  intros tr s' Htr. eapply wp_mono; [apply Hfn|]. intros tr' [[s1 [e|]]|m] H; exact (conc_app _ _ Htr H).
Qed.

Lemma keeps_recover {A} (f : panicv -> A) (p : prog I A) : keeps P p -> keeps P (prog_recover f p).
Proof using Type*. intros Hp. apply wp_recover. eapply wp_mono; [exact Hp|]. by intros tr [a|m]. Qed.
End keeps.

Lemma issues_mono {I A} (P Q : cmd I -> Prop) (p : prog I A) :
  (forall c, P c -> Q c) -> issues P p -> issues Q p.
Proof.
  intros HPQ H. eapply wp_mono; [apply H|]. intros tr o Htr. eapply Forall_impl; [exact Htr|auto].
Qed.

(** A command that satisfies [P] was issued first. *)
Lemma issues_Call_inv {I A} (d : answers I) (P : cmd I -> Prop) c (k : reply I c -> prog I A) :
  issues P (Call c k) -> P c /\ forall r, issues P (k r).
Proof.
  intros H. split.
  - destruct (eval_runs d (k (d c))) as [tr Hr]. by apply (runs_call c), (issues_runs P _ _ _ H), Forall_inv in Hr.
  - intros r. eapply wp_mono; [exact (H r)|]. by intros tr o ?%Forall_inv_tail.
Qed.

(** If the implementation of every command of [P] only has events of [T], so has that of a
    program that only issues commands of [P]; [Inv] holds of the state. *)
Lemma issues_interp_st {I J St A} (h : forall c : cmd I, St -> prog J (reply I c * St))
    (d : answers I) (P : cmd I -> Prop) (T : event J -> Prop) (Inv : St -> Prop) (p : prog I A) s :
  (forall c s, P c -> Inv s ->
     wp (h c s) (fun tr o => Forall T tr /\ forall r s', o = Done (r, s') -> Inv s')) ->
  issues P p -> Inv s -> wp (interp_st h p s) (fun tr _ => Forall T tr).
Proof.
  intros Hh. revert s. induction p as [a|m|c k IH]; intros s Hp Hs; cbn [interp_st]; [constructor..|].
  apply (issues_Call_inv d) in Hp as [Hc Hk].
  apply (wp_bind (h c s) (fun rs => interp_st h (k rs.1) rs.2)).
  eapply wp_mono; [by apply Hh|]. intros tr [[r s']|m] [Htr Hinv]; [|done].
  eapply wp_mono; [apply IH; [apply Hk|by eapply Hinv]|]. intros tr' o' Htr'. by apply Forall_app.
Qed.

(** A concrete retry loop (no cancellation), which satisfies the contract. *)
Fixpoint retry_loop {I St} (n : nat) (fn : St -> prog I (St * error)) (s : St)
  : prog I (St * error) :=
  match n with
  | O => Ret (s, Some (ErrNew "All attempts fail"))
  | S n' =>
      '(s', e) ← fn s;
      match e with
      | None => Ret (s', None)
      | Some _ => retry_loop n' fn s'
      end
  end.

Lemma retry_loop_trace {I St} n (fn : St -> prog I (St * error)) s :
  wp (retry_loop n fn s) (retry_trace fn n s).
Proof.
  revert s. induction n as [|n IH]; intros s; cbn [retry_loop]; [apply retry_stop|].
  apply wp_bind, wp_runs. intros tr [[s' [e|]]|m] Hr; simpl.
  - eapply wp_mono; [apply IH|]. intros tr' o Ht. by eapply retry_again.
  - rewrite app_nil_r. by apply retry_ok.
  - by apply retry_crash.
Qed.

Definition retry_loop_lib (I : Iface) : RetryLib I := {|
  retry_Do := @retry_loop I;
  retry_Do_spec St n fn s := proj1 (wp_runs _ _) (retry_loop_trace n fn s)
|}.

Lemma retry_loop_attempts (I : Iface) : @RetryAttempts I (retry_loop_lib I).
Proof.
  intros St n fn s tr o Hr. cut (wp (retry_loop (S n) fn s) (fun tr o => exists tr1 o1 tr2,
    runs (fn s) tr1 o1 /\ tr = tr1 ++ tr2 /\
    forall s', o1 = Done (s', None) -> tr2 = [] /\ o = Done (s', None))).
  { intros H. by apply (proj1 (wp_runs _ _) H). }
  cbn [retry_loop]. apply wp_bind, wp_runs. intros tr1 [[s' [e|]]|m] Hr1.
  - apply wp_runs. intros tr2 o2 _. by exists tr1, (Done (s', Some e)), tr2.
  - exists tr1, (Done (s', None)), []. split; [done|]. split; [done|]. by intros s1 [= ->].
  - exists tr1, (Crashed m), []. rewrite app_nil_r. by repeat split.
Qed.

(** Against a handler that lets the first attempt succeed, [retry_Do] is that attempt. *)
Lemma exec_retry_first {I : Iface} `{!RetryLib I, !RetryAttempts I} {St W} (h : handler I W) n
    (fn : St -> prog I (St * error)) s w s' tr w' :
  exec h (fn s) w = (Done (s', None), tr, w') ->
  exec h (retry_Do (S n) fn s) w = (Done (s', None), tr, w').
Proof.
  intros He. pose proof (exec_runs h (retry_Do (S n) fn s) w) as Hr.
  pose proof (exec_conforms h (retry_Do (S n) fn s) w) as Hc.
  destruct (exec h (retry_Do (S n) fn s) w) as [[o t] w2]. cbn in *.
  apply retry_attempts in Hr as (tr1 & o1 & tr2 & Hr1 & -> & Hok).
  apply conforms_app in Hc as (w1 & Hc1 & Hc2).
  apply (runs_conforms h _ _ _ _ _ Hr1) in Hc1. rewrite He in Hc1. injection Hc1 as <- <- <-.
  destruct (Hok s' eq_refl) as [-> ->]. cbn in Hc2. by rewrite app_nil_r, Hc2.
Qed.

(** ** The weakest precondition of a run against a handler *)
Section wph.
Context {I : Iface} {W : Type} (h : handler I W).

Definition wph {A} (p : prog I A) (w : W) (Q : outcome A -> list (event I) -> W -> Prop) : Prop :=
  let '(o, tr, w') := exec h p w in Q o tr w'.

Lemma wph_mono {A} (p : prog I A) w (Q Q' : _ -> _ -> _ -> Prop) :
  wph p w Q -> (forall o tr w', Q o tr w' -> Q' o tr w') -> wph p w Q'.
Proof. unfold wph. destruct (exec h p w) as [[o tr] w']. auto. Qed.

Lemma wph_call c w Q : Q (Done (h c w).1) [Ev c (h c w).1] (h c w).2 -> wph (call c) w Q.
Proof. unfold wph, call. cbn. by destruct (h c w). Qed.

Lemma wph_bind {A B} (p : prog I A) (f : A -> prog I B) w Q :
  wph p w (fun o tr w1 => match o with
                          | Done a => wph (f a) w1 (fun o' tr' w2 => Q o' (tr ++ tr') w2)
                          | Crashed m => Q (Crashed m) tr w1
                          end) ->
  wph (p ≫= f) w Q.
Proof.
  unfold wph. change (p ≫= f) with (prog_bind f p). rewrite exec_bind.
  destruct (exec h p w) as [[[a|m] tr] w1]; [|done]. by destruct (exec h (f a) w1) as [[o tr'] w2].
Qed.

Lemma wph_bind_call {A} c (f : reply I c -> prog I A) w Q :
  wph (f (h c w).1) (h c w).2 (fun o tr w' => Q o (Ev c (h c w).1 :: tr) w') -> wph (call c ≫= f) w Q.
Proof. intros H. apply wph_bind, wph_call. exact H. Qed.

Lemma wph_retry_first `{!RetryLib I, !RetryAttempts I} {St} n (fn : St -> prog I (St * error)) s w Q :
  wph (fn s) w (fun o tr w' => (exists s', o = Done (s', None)) /\ Q o tr w') ->
  wph (retry_Do (S n) fn s) w Q.
Proof.
  unfold wph. destruct (exec h (fn s) w) as [[o tr] w'] eqn:E. intros [[s' ->] HQ].
  by rewrite (exec_retry_first h n fn s w s' tr w' E).
Qed.

Lemma wph_recover {A} (f : panicv -> A) (p : prog I A) w Q :
  wph p w (fun o tr w' => Q (match o with Done a => Done a | Crashed m => Done (f m) end) tr w') ->
  wph (prog_recover f p) w Q.
Proof.
  unfold wph. cut (exec h (prog_recover f p) w = let '(o, tr, w') := exec h p w in
    (match o with Done a => Done a | Crashed m => Done (f m) end, tr, w')).
  { intros ->. by destruct (exec h p w) as [[o tr] w']. }
  revert w. induction p as [a|m|c k IH]; intros w; cbn; [done..|].
  destruct (h c w) as [r w1]. rewrite IH. by destruct (exec h (k r) w1) as [[o tr] w2].
Qed.
End wph.

(** ** A handler below an implementation *)
Section via.
Context {I J : Iface} {W : Type} (h : forall c : cmd I, prog J (reply I c)) (node : handler J W) (d : answers I).

(** The commands of [I] answered by running their implementation against [node]. *)
Definition via : handler I W := fun c w =>
  match exec node (h c) w with
  | (Done r, _, w') => (r, w')
  | (Crashed _, _, w') => (d c, w')
  end.

Lemma via_Done c w r tr w' : exec node (h c) w = (Done r, tr, w') -> via c w = (r, w').
Proof. unfold via. by intros ->. Qed.

(** A program whose commands do not panic in their implementation runs over the
    implementation as it does against [via]. *)
Lemma exec_interp {A} (P : cmd I -> Prop) (p : prog I A) w :
  (forall c w, P c -> exists r, (exec node (h c) w).1.1 = Done r) -> issues P p ->
  exists tr', exec node (interp h p) w = ((exec via p w).1.1, tr', (exec via p w).2) /\
    implements h (exec via p w).1.2 tr'.
Proof.
  intros Hsafe. revert w. induction p as [a|m|c k IH]; intros w Hp; cbn [interp exec].
  - exists []. split; [done|constructor].
  - exists []. split; [done|constructor].
  - apply (issues_Call_inv d) in Hp as [Hc Hk]. destruct (Hsafe c w Hc) as [r Hr].
    pose proof (exec_runs node (h c) w) as Hruns.
    destruct (exec node (h c) w) as [[o tr1] w1] eqn:E. cbn in Hr, Hruns. subst o.
    rewrite (via_Done _ _ _ _ _ E), exec_bind, E.
    destruct (IH r w1 (Hk r)) as (tr2 & -> & Himp).
    destruct (exec via (k r) w1) as [[o tr] w2]. cbn in *. exists (tr1 ++ tr2). split; [done|].
    by constructor.
Qed.

Lemma wph_interp {A} (P : cmd I -> Prop) (p : prog I A) w (Q : outcome A -> list (event J) -> W -> Prop) :
  (forall c w, P c -> exists r, (exec node (h c) w).1.1 = Done r) -> issues P p ->
  wph via p w (fun o tr w' => forall tr', implements h tr tr' -> Q o tr' w') -> wph node (interp h p) w Q.
Proof.
  intros Hsafe Hp HQ. destruct (exec_interp P p w Hsafe Hp) as (tr' & He & Himp).
  unfold wph in *. rewrite He. destruct (exec via p w) as [[o tr] w']. by apply HQ.
Qed.
End via.
