(* ===== verification/Types.v ===== *)
(** * Types: the data that the components exchange

    The contract events are the structs of the generated binding
    [solidity/wrappers/Peggy.sol/wrapper.go]; the chain messages and query
    results are the fields of [peggytypes] (protobuf types of sdk-go) that the
    program reads or writes.  A [common.Address] is the integer of its 20 bytes,
    a [common.Hash] / [bytes32] the integer of its 32 bytes (big-endian), an
    [AccAddress] its bech32 string.  A pointer that may be nil, and the
    [big.Int] inside an [sdkmath.Int] (nil in its zero value), is an [option]. *)
From S2P Require Import Prelude.

Abbreviation Address := Z (only parsing).
Abbreviation Hash := Z (only parsing).
Abbreviation AccAddress := string (only parsing).

(** ** Contract events (generated binding) *)

Record PeggySendToCosmosEvent : Type := MkSendToCosmosEvent {
  stc_TokenContract : Address;
  stc_Sender : Address;
  stc_Destination : Hash;
  stc_Amount : Z;
  stc_EventNonce : Z;
  stc_BlockNumber : Z
}.

Record PeggySendToInjectiveEvent : Type := MkSendToInjectiveEvent {
  sti_TokenContract : Address;
  sti_Sender : Address;
  sti_Destination : Hash;
  sti_Amount : Z;
  sti_EventNonce : Z;
  sti_Data : string;
  sti_BlockNumber : Z
}.

Record PeggyTransactionBatchExecutedEvent : Type := MkBatchExecutedEvent {
  tbe_BatchNonce : Z;
  tbe_Token : Address;
  tbe_EventNonce : Z;
  tbe_BlockNumber : Z
}.

Record PeggyERC20DeployedEvent : Type := MkERC20DeployedEvent {
  erc_CosmosDenom : string;
  erc_TokenContract : Address;
  erc_Name : string;
  erc_Symbol : string;
  erc_Decimals : Z;
  erc_EventNonce : Z;
  erc_BlockNumber : Z
}.

Record PeggyValsetUpdatedEvent : Type := MkValsetUpdatedEvent {
  vue_NewValsetNonce : Z;
  vue_EventNonce : Z;
  vue_RewardAmount : Z;
  vue_RewardToken : Address;
  vue_Validators : list Address;
  vue_Powers : list Z;
  vue_BlockNumber : Z
}.

(** ** Chain state as the queries return it ([peggytypes]) *)

Record BridgeValidator : Type := MkBridgeValidator {
  Power : Z;
  EthereumAddress : string
}.

Record Valset : Type := MkValset {
  vs_Nonce : Z;
  vs_Members : list BridgeValidator;
  vs_Height : Z;
  vs_RewardAmount : option Z;
  vs_RewardToken : string
}.

Record ERC20Token : Type := MkERC20Token {
  et_Contract : string;
  et_Amount : option Z
}.

Record OutgoingTransferTx : Type := MkOutgoingTransferTx {
  tx_DestAddress : string;
  tx_Erc20Token : option ERC20Token;
  tx_Erc20Fee : option ERC20Token
}.

Record OutgoingTxBatch : Type := MkOutgoingTxBatch {
  BatchNonce : Z;
  BatchTimeout : Z;
  Transactions : list OutgoingTransferTx;
  TokenContract : string;
  Block : Z
}.

Record LastClaimEvent : Type := MkLastClaimEvent {
  EthereumEventNonce : Z;
  EthereumEventHeight : Z
}.

Record BatchFees : Type := MkBatchFees {
  bf_Token : string;
  bf_TotalFees : option Z
}.

Record Params : Type := MkParams {
  BridgeEthereumAddress : string;
  BridgeContractStartHeight : Z;
  CosmosCoinErc20Contract : string
}.

(** ** Messages broadcast to the chain ([peggytypes]) *)

Record MsgValsetConfirm : Type := MkMsgValsetConfirm {
  mvc_Orchestrator : AccAddress;
  mvc_EthAddress : string;
  mvc_Nonce : Z;
  mvc_Signature : string
}.

Record MsgConfirmBatch : Type := MkMsgConfirmBatch {
  mcb_Orchestrator : AccAddress;
  mcb_Nonce : Z;
  mcb_Signature : string;
  mcb_EthSigner : string;
  mcb_TokenContract : string
}.

(** [cosmostypes.Coin] *)
Record Coin : Type := MkCoin { coin_Denom : string; coin_Amount : option Z }.

#[global] Instance BridgeValidator_eq_dec : EqDecision BridgeValidator.
Proof. solve_decision. Defined.
#[global] Instance Valset_eq_dec : EqDecision Valset.
Proof. solve_decision. Defined.
#[global] Instance ERC20Token_eq_dec : EqDecision ERC20Token.
Proof. solve_decision. Defined.
#[global] Instance OutgoingTransferTx_eq_dec : EqDecision OutgoingTransferTx.
Proof. solve_decision. Defined.
#[global] Instance OutgoingTxBatch_eq_dec : EqDecision OutgoingTxBatch.
Proof. solve_decision. Defined.
