(* ===== verification/External.v ===== *)
(** * External: what the program relies on from third-party libraries

    go-ethereum (addresses, hex, hashing, ABI packing) and shopspring/decimal
    are not part of the repository.  Each is a class: its operations and, as
    fields, the documented behaviour that the program relies on.  Every theorem
    holds for every instance; [Model.v] gives concrete ones for the examples. *)
From Stdlib Require Import Init.Byte QArith Qabs Qpower DecimalString.
From S2P Require Import Prelude GoFloat Types.
#[local] Open Scope Z_scope.

Abbreviation bytes := (list Byte.byte).

#[global] Instance byte_eq_dec : EqDecision Byte.byte := Byte.byte_eq_dec.

(** ** Big-endian integers *)
Definition byte_Z (b : Byte.byte) : Z := Z.of_N (Byte.to_N b).

Definition Z_byte (z : Z) : Byte.byte :=
  match Byte.of_N (Z.to_N (z mod 256)) with Some b => b | None => x00 end.

Definition be_Z (bs : bytes) : Z := foldl (fun acc b => acc * 256 + byte_Z b) 0 bs.

(** The [n] low-order bytes of [z], most significant first. *)
Fixpoint Z_be (n : nat) (z : Z) : bytes :=
  match n with
  | O => []
  | S n' => Z_be n' (z / 256) ++ [Z_byte z]
  end.

Lemma byte_Z_range b : 0 <= byte_Z b < 256.
Proof. unfold byte_Z. pose proof (Byte.to_N_bounded b). lia. Qed.

Lemma byte_Z_Z_byte z : byte_Z (Z_byte z) = z mod 256.
Proof.
  unfold byte_Z, Z_byte. pose proof (Z.mod_pos_bound z 256 ltac:(lia)) as Hb.
  destruct (Byte.of_N (Z.to_N (z mod 256))) as [b|] eqn:E.
  - apply Byte.to_of_N in E. rewrite E. lia.
  - apply Byte.of_N_None_iff in E. lia.
Qed.

Lemma be_Z_snoc bs b : be_Z (bs ++ [b]) = be_Z bs * 256 + byte_Z b.
Proof. unfold be_Z. by rewrite foldl_app. Qed.

Lemma length_Z_be n z : length (Z_be n z) = n.
Proof. revert z. induction n; intros z; simpl; [done|]. rewrite length_app, IHn. simpl. lia. Qed.

Lemma be_Z_Z_be n z : be_Z (Z_be n z) = z mod 256 ^ Z.of_nat n.
Proof.
  revert z. induction n as [|n IH]; intros z.
  - simpl. by rewrite Z.mod_1_r.
  - cbn [Z_be]. rewrite be_Z_snoc, IH, byte_Z_Z_byte.
    rewrite Nat2Z.inj_succ, Z.pow_succ_r by lia.
    rewrite Z.rem_mul_r by lia. lia.
Qed.

Lemma be_Z_range bs : 0 <= be_Z bs < 256 ^ Z.of_nat (length bs).
Proof.
  induction bs as [|b bs IH] using rev_ind; [done|].
  rewrite be_Z_snoc, length_app, Nat2Z.inj_add. change (Z.of_nat (length [b])) with 1.
  rewrite Z.pow_add_r by lia. pose proof (byte_Z_range b). lia.
Qed.

Lemma Z_be_inj n x y :
  0 <= x < 256 ^ Z.of_nat n -> 0 <= y < 256 ^ Z.of_nat n -> Z_be n x = Z_be n y -> x = y.
Proof.
  intros Hx Hy Heq. apply (f_equal be_Z) in Heq. rewrite !be_Z_Z_be in Heq.
  by rewrite !Z.mod_small in Heq by done.
Qed.

(** ** ABI values and their encoding (Ethereum contract ABI specification)

    [abi.encode] is the Solidity built-in that [Peggy.sol] calls; go-ethereum's
    [Pack] is documented to produce the same bytes after a 4-byte selector. *)
Inductive abi_elem : Type := TUint256 | TUint8 | TBytes32 | TAddress.

#[warnings="-register-all"]
Inductive abi_type : Type :=
  | TElem (t : abi_elem)
  | TArray (t : abi_elem)
  | TBytes
  | TStruct (fs : list abi_type).

#[warnings="-register-all"]
Inductive abi_val : Type :=
  | VElem (t : abi_elem) (z : Z)
  | VArray (t : abi_elem) (zs : list Z)
  | VBytes (b : bytes)
  | VStruct (fs : list abi_val).

#[global] Instance abi_elem_eq_dec : EqDecision abi_elem.
Proof. solve_decision. Defined.

Fixpoint has_type (v : abi_val) (t : abi_type) : bool :=
  match v, t with
  | VElem e _, TElem e' => bool_decide (e = e')
  | VArray e _, TArray e' => bool_decide (e = e')
  | VBytes _, TBytes => true
  | VStruct vs, TStruct ts =>
      (fix go vs ts := match vs, ts with
                       | [], [] => true
                       | v :: vs, t :: ts => has_type v t && go vs ts
                       | _, _ => false
                       end) vs ts
  | _, _ => false
  end.

Fixpoint have_types (vs : list abi_val) (ts : list abi_type) : bool :=
  match vs, ts with
  | [], [] => true
  | v :: vs, t :: ts => has_type v t && have_types vs ts
  | _, _ => false
  end.

(** A 32-byte word: two's complement of the integer. *)
Definition abi_word (z : Z) : bytes := Z_be 32 (z mod 2 ^ 256).

Definition pad32 (b : bytes) : bytes :=
  b ++ replicate (Z.to_nat ((- Z.of_nat (length b)) mod 32)) x00.

(** Head/tail encoding of a sequence: [true] marks a dynamic component. *)
Definition head_size (ps : list (bool * bytes)) : Z :=
  foldr (fun (p : bool * bytes) acc => (if p.1 then 32 else Z.of_nat (length p.2)) + acc) 0 ps.

Fixpoint enc_heads (off : Z) (ps : list (bool * bytes)) : bytes :=
  match ps with
  | [] => []
  | (true, b) :: ps' => abi_word off ++ enc_heads (off + Z.of_nat (length b)) ps'
  | (false, b) :: ps' => b ++ enc_heads off ps'
  end.

Definition enc_tails (ps : list (bool * bytes)) : bytes :=
  concat (map (fun p : bool * bytes => if p.1 then p.2 else []) ps).

Definition enc_tuple (ps : list (bool * bytes)) : bytes :=
  enc_heads (head_size ps) ps ++ enc_tails ps.

Fixpoint abi_dynamic (v : abi_val) : bool :=
  match v with
  | VElem _ _ => false
  | VArray _ _ | VBytes _ => true
  | VStruct fs => existsb abi_dynamic fs
  end.

Fixpoint abi_enc (v : abi_val) : bytes :=
  match v with
  | VElem _ z => abi_word z
  | VArray _ zs => abi_word (Z.of_nat (length zs)) ++ concat (map abi_word zs)
  | VBytes b => abi_word (Z.of_nat (length b)) ++ pad32 b
  | VStruct fs => enc_tuple (map (fun f => (abi_dynamic f, abi_enc f)) fs)
  end.

Definition abi_encode (vs : list abi_val) : bytes :=
  enc_tuple (map (fun f => (abi_dynamic f, abi_enc f)) vs).

Lemma length_abi_word z : length (abi_word z) = 32%nat.
Proof. apply length_Z_be. Qed.

Lemma abi_word_inj x y : is_u256 x -> is_u256 y -> abi_word x = abi_word y -> x = y.
Proof.
  unfold is_u256, abi_word. intros Hx Hy H.
  apply Z_be_inj in H; [|apply Z.mod_pos_bound; lia..]. by rewrite !Z.mod_small in H.
Qed.

(** A sequence of words determines the words. *)
Definition abi_words (zs : list Z) : bytes := concat (map abi_word zs).

Lemma length_abi_words zs : length (abi_words zs) = (32 * length zs)%nat.
Proof.
  unfold abi_words. induction zs as [|z zs IH]; [done|]. cbn [map concat].
  rewrite length_app, length_abi_word, IH. cbn [length]. lia.
Qed.

Lemma abi_words_app xs ys : abi_words (xs ++ ys) = abi_words xs ++ abi_words ys.
Proof. unfold abi_words. by rewrite map_app, concat_app. Qed.

Lemma abi_words_cons x xs : abi_words (x :: xs) = abi_word x ++ abi_words xs.
Proof. done. Qed.

Lemma abi_words_inj xs ys :
  Forall is_u256 xs -> Forall is_u256 ys -> abi_words xs = abi_words ys -> xs = ys.
Proof.
  intros Hx. revert ys. induction Hx as [|x xs Hx _ IH]; intros ys Hy Heq.
  - apply (f_equal length) in Heq. rewrite !length_abi_words in Heq. destruct ys; simpl in *; [done|lia].
  - destruct Hy as [|y ys Hy Hys].
    { apply (f_equal length) in Heq. rewrite !length_abi_words in Heq. simpl in Heq. lia. }
    rewrite !abi_words_cons in Heq. apply app_inj_1 in Heq as [Hw Hws];
      [|by rewrite !length_abi_word].
    f_equal; [by apply abi_word_inj|by apply IH].
Qed.

Lemma abi_enc_array t zs : abi_enc (VArray t zs) = abi_words (Z.of_nat (length zs) :: zs).
Proof. done. Qed.

(** A parsed [abi.ABI]: its methods with the types of their inputs. *)
Definition ABI : Type := list (string * list abi_type).

Fixpoint abi_method (a : ABI) (name : string) : option (list abi_type) :=
  match a with
  | [] => None
  | (n, ts) :: a' => if String.eqb n name then Some ts else abi_method a' name
  end.

(** ** go-ethereum *)
Class Geth : Type := {
  HexToAddress : string -> Address;
  Address_Hex : Address -> string;
  HexToAddress_range s : is_addr (HexToAddress s);
  HexToAddress_Hex a : is_addr a -> HexToAddress (Address_Hex a) = a;
  FromHex : string -> bytes;
  Bytes2Hex : bytes -> string;
  FromHex_Bytes2Hex b : FromHex (Bytes2Hex b) = b;
  BytesToHash : bytes -> Hash;
  BytesToHash_32 b : length b = 32%nat -> BytesToHash b = be_Z b;
  Keccak256Hash : bytes -> Hash;
  Keccak256Hash_range b : is_u256 (Keccak256Hash b);
  abi_Pack : ABI -> string -> list abi_val -> bytes * error;
  abi_MethodID : ABI -> string -> bytes;
  abi_MethodID_length a name : is_Some (abi_method a name) -> length (abi_MethodID a name) = 4%nat;
  abi_Pack_ok a name ts vs :
    abi_method a name = Some ts -> have_types vs ts = true ->
    abi_Pack a name vs = (abi_MethodID a name ++ abi_encode vs, None);
  abi_Pack_missing a name vs :
    abi_method a name = None -> is_Some (abi_Pack a name vs).2
}.

(** ** shopspring/decimal

    [dec_Q d] is the number that the decimal [d] stands for.  Multiplication and
    shifts are exact; a quotient is a nearest multiple of 10^-16
    ([DivisionPrecision]) and [Float64] a nearest double, of which the program
    only needs that rounding does not cross a representable number. *)
Class Shopspring : Type := {
  decimal : Type;
  dec_Q : decimal -> Q;
  NewFromBigInt : Z -> Z -> decimal;
  NewFromBigInt_Q v e : (dec_Q (NewFromBigInt v e) == inject_Z v * Qpower 10 e)%Q;
  NewFromInt : Z -> decimal;
  NewFromInt_Q v : (dec_Q (NewFromInt v) == inject_Z v)%Q;
  NewFromFloat : gofloat -> option decimal;
  NewFromFloat_finite m e : is_Some (NewFromFloat (FFin m e));
  NewFromString : string -> decimal * error;
  NewFromString_nat (n : N) :
    exists d, NewFromString (NilZero.string_of_uint (N.to_uint n)) = (d, None) /\ (dec_Q d == inject_Z (Z.of_N n))%Q;
  dec_Mul : decimal -> decimal -> decimal;
  dec_Mul_Q a b : (dec_Q (dec_Mul a b) == dec_Q a * dec_Q b)%Q;
  dec_Shift : decimal -> Z -> decimal;
  dec_Shift_Q d n : (dec_Q (dec_Shift d n) == dec_Q d * Qpower 10 n)%Q;
  dec_Div : decimal -> decimal -> decimal;
  dec_Div_Q a b : ~ (dec_Q b == 0)%Q ->
    exists q, (dec_Q (dec_Div a b) == q # 10 ^ 16)%Q /\
      forall n, ((n # 10 ^ 16 <= dec_Q a / dec_Q b)%Q -> n <= q) /\
                ((dec_Q a / dec_Q b <= n # 10 ^ 16)%Q -> q <= n);
  dec_Float64 : decimal -> gofloat;
  dec_Float64_Q d : (Qabs (dec_Q d) < Qpower 2 1000)%Q ->
    exists m e, dec_Float64 d = FFin m e /\ is_float64 m e /\
      forall m' e', is_float64 m' e' ->
        ((dyadic m' e' <= dec_Q d)%Q -> (dyadic m' e' <= dyadic m e)%Q) /\
        ((dec_Q d <= dyadic m' e')%Q -> (dyadic m e <= dyadic m' e')%Q);
  dec_LessThan : decimal -> decimal -> bool;
  dec_LessThan_Q a b : dec_LessThan a b = Qltb (dec_Q a) (dec_Q b);
  dec_GreaterThan : decimal -> decimal -> bool;
  dec_GreaterThan_Q a b : dec_GreaterThan a b = Qltb (dec_Q b) (dec_Q a);
  dec_IntPart : decimal -> Z;
  dec_IntPart_Q d n : (dec_Q d == inject_Z n)%Q -> is_i64 n -> dec_IntPart d = n;
  dec_BigInt : decimal -> Z;
  dec_BigInt_Q d n : (dec_Q d == inject_Z n)%Q -> dec_BigInt d = n
}.
