(* ===== verification/AbiDecode.v ===== *)
(** * AbiDecode: decoding of call data (Ethereum contract ABI specification)

    A Solidity contract decodes its call data by the types of the called function: heads at
    fixed places, dynamic values at the offsets that the heads give; values outside of
    their type revert.  [abi_decode_encode] is the round trip with [abi_encode] of
    [External.v]. *)
From Stdlib Require Import Init.Byte.
From S2P Require Import Prelude Types External.

(** ** Values in the range of their types *)
Definition elem_ok (e : abi_elem) (z : Z) : bool :=
  (0 <=? z) && (z <? match e with TUint256 | TBytes32 => 2 ^ 256 | TUint8 => 2 ^ 8 | TAddress => 2 ^ 160 end).

Fixpoint val_ok (v : abi_val) : bool :=
  match v with
  | VElem e z => elem_ok e z
  | VArray e zs => forallb (elem_ok e) zs
  | VBytes _ => true
  | VStruct vs => forallb val_ok vs
  end.

Fixpoint type_dynamic (t : abi_type) : bool :=
  match t with
  | TElem _ => false
  | TArray _ | TBytes => true
  | TStruct fs => existsb type_dynamic fs
  end.

(** The size of the head of a value. *)
Fixpoint type_head (t : abi_type) : Z :=
  match t with
  | TElem _ | TArray _ | TBytes => 32
  | TStruct fs =>
      if existsb type_dynamic fs then 32 else foldr (fun f acc => type_head f + acc) 0 fs
  end.

(** ** Decoding *)
Definition word_at (b : bytes) (off : Z) : option Z :=
  if (0 <=? off) && (off + 32 <=? Z.of_nat (length b))
  then Some (be_Z (take 32 (drop (Z.to_nat off) b))) else None.

Definition slice (b : bytes) (off n : Z) : option bytes :=
  if (0 <=? off) && (0 <=? n) && (off + n <=? Z.of_nat (length b))
  then Some (take (Z.to_nat n) (drop (Z.to_nat off) b)) else None.

(** The words of a byte string. *)
Fixpoint words_of (n : nat) (b : bytes) : list Z :=
  match n with
  | O => []
  | S n => be_Z (take 32 b) :: words_of n (drop 32 b)
  end.

Section fields.
Context (dec : abi_type -> bytes -> Z -> option abi_val).

(** The fields of a tuple whose encoding starts at [base], from the head on. *)
Fixpoint dec_list (ts : list abi_type) (base : bytes) (head : Z) : option (list abi_val) :=
  match ts with
  | [] => Some []
  | t :: ts =>
      v ← dec t base head;
      vs ← dec_list ts base (head + type_head t);
      Some (v :: vs)
  end.
End fields.

Fixpoint dec (t : abi_type) (base : bytes) (head : Z) : option abi_val :=
  match t with
  | TElem e => z ← word_at base head; if elem_ok e z then Some (VElem e z) else None
  | TArray e =>
      off ← word_at base head;
      n ← word_at base off;
      b ← slice base (off + 32) (32 * n);
      let zs := words_of (Z.to_nat n) b in
      if forallb (elem_ok e) zs then Some (VArray e zs) else None
  | TBytes =>
      off ← word_at base head;
      n ← word_at base off;
      VBytes <$> slice base (off + 32) n
  | TStruct fs =>
      if existsb type_dynamic fs then
        off ← word_at base head;
        b ← slice base off (Z.of_nat (length base) - off);
        VStruct <$> dec_list dec fs b 0
      else VStruct <$> dec_list dec fs base head
  end.

Definition abi_decode (ts : list abi_type) (b : bytes) : option (list abi_val) := dec_list dec ts b 0.

(** ** Reading back *)
Lemma be_Z_abi_word z : is_u256 z -> be_Z (abi_word z) = z.
Proof.
  unfold is_u256, abi_word. intros Hz. rewrite be_Z_Z_be.
  change (256 ^ Z.of_nat 32) with (2 ^ 256). rewrite (Z.mod_small z) by done. by apply Z.mod_small.
Qed.

Lemma word_at_app pre z post :
  is_u256 z -> word_at (pre ++ abi_word z ++ post) (Z.of_nat (length pre)) = Some z.
Proof.
  intros Hz. unfold word_at. rewrite !length_app, length_abi_word.
  destruct (Z.leb_spec 0 (Z.of_nat (length pre))); [|lia].
  destruct (Z.leb_spec (Z.of_nat (length pre) + 32)
    (Z.of_nat (length pre + (32 + length post)))); [|lia]. cbn [andb].
  rewrite Nat2Z.id, drop_app_length, take_app_length' by (by rewrite length_abi_word).
  by rewrite be_Z_abi_word.
Qed.

Lemma slice_app pre b post :
  slice (pre ++ b ++ post) (Z.of_nat (length pre)) (Z.of_nat (length b)) = Some b.
Proof.
  unfold slice. rewrite !length_app.
  destruct (Z.leb_spec 0 (Z.of_nat (length pre))); [|lia].
  destruct (Z.leb_spec 0 (Z.of_nat (length b))); [|lia].
  destruct (Z.leb_spec (Z.of_nat (length pre) + Z.of_nat (length b))
    (Z.of_nat (length pre + (length b + length post)))); [|lia]. cbn [andb].
  by rewrite !Nat2Z.id, drop_app_length, take_app_length.
Qed.

Lemma words_of_words zs : Forall is_u256 zs -> words_of (length zs) (abi_words zs) = zs.
Proof.
  induction 1 as [|z zs Hz _ IH]; [done|]. rewrite abi_words_cons. cbn [length words_of].
  rewrite take_app_length', drop_app_length' by (by rewrite length_abi_word).
  by rewrite be_Z_abi_word, IH.
Qed.

Lemma elem_ok_u256 e z : elem_ok e z = true -> is_u256 z.
Proof. unfold elem_ok, is_u256. intros [H1%Z.leb_le H2%Z.ltb_lt]%andb_prop. destruct e; lia. Qed.

(** A tail that starts at [off]: the bytes from there on. *)
Lemma drop_split (b suf : bytes) (off : Z) :
  0 <= off <= Z.of_nat (length b) -> drop (Z.to_nat off) b = suf ->
  exists pre, b = pre ++ suf /\ off = Z.of_nat (length pre).
Proof.
  intros Hoff Hd. exists (take (Z.to_nat off) b). rewrite <- Hd, take_drop. split; [done|].
  rewrite length_take. lia.
Qed.

(** ** Induction on values *)
Section abi_val_ind.
Context (P : abi_val -> Prop).
Context (Helem : forall e z, P (VElem e z)) (Harray : forall e zs, P (VArray e zs)).
Context (Hbytes : forall b, P (VBytes b)) (Hstruct : forall vs, Forall P vs -> P (VStruct vs)).

Fixpoint abi_val_nested_ind (v : abi_val) : P v :=
  match v with
  | VElem e z => Helem e z
  | VArray e zs => Harray e zs
  | VBytes b => Hbytes b
  | VStruct vs =>
      Hstruct vs ((fix go (vs : list abi_val) : Forall P vs :=
                     match vs with
                     | [] => Forall_nil_2 P
                     | v :: vs => Forall_cons_2 P v vs (abi_val_nested_ind v) (go vs)
                     end) vs)
  end.
End abi_val_ind.

(** ** Types and shapes *)
Lemma has_type_struct vs ts : has_type (VStruct vs) (TStruct ts) = have_types vs ts.
Proof. revert ts. induction vs as [|v vs IH]; intros [|t ts]; try done. Qed.

Lemma dynamic_type v : forall t, has_type v t = true -> abi_dynamic v = type_dynamic t.
Proof.
  induction v as [e z|e zs|b|vs IH] using abi_val_nested_ind; intros [e'|e'| |ts]; try done.
  rewrite has_type_struct. cbn [abi_dynamic type_dynamic]. revert ts.
  induction IH as [|v vs Hv _ IH]; intros [|t ts]; try done. cbn.
  intros [H1 H2]%andb_prop. by rewrite (Hv t H1), (IH ts H2).
Qed.

Abbreviation parts vs := (map (fun f => (abi_dynamic f, abi_enc f)) vs).

Lemma length_enc_heads off ps : Z.of_nat (length (enc_heads off ps)) = head_size ps.
Proof.
  revert off. induction ps as [|[[|] b] ps IH]; intros off; [done| |]; cbn [enc_heads head_size foldr fst snd];
    rewrite length_app, ?length_abi_word, Nat2Z.inj_add, IH; unfold head_size; lia.
Qed.

Lemma enc_heads_static off off' vs :
  existsb abi_dynamic vs = false -> enc_heads off (parts vs) = enc_heads off' (parts vs).
Proof.
  revert off off'. induction vs as [|v vs IH]; intros off off'; cbn; [done|].
  intros [-> H]%orb_false_elim. f_equal. by apply IH.
Qed.

Lemma enc_tails_static vs : existsb abi_dynamic vs = false -> enc_tails (parts vs) = [].
Proof.
  unfold enc_tails. induction vs as [|v vs IH]; cbn; [done|]. by intros [-> ->%IH]%orb_false_elim.
Qed.

Lemma existsb_dynamic vs ts :
  have_types vs ts = true -> existsb abi_dynamic vs = existsb type_dynamic ts.
Proof.
  revert ts. induction vs as [|v vs IH]; intros [|t ts]; try done. cbn.
  intros [H1 H2]%andb_prop. by rewrite (dynamic_type v t H1), (IH ts H2).
Qed.

(** The head of a static value is its encoding. *)
Lemma length_static v : forall t,
  has_type v t = true -> abi_dynamic v = false -> Z.of_nat (length (abi_enc v)) = type_head t.
Proof.
  induction v as [e z|e zs|b|vs IH] using abi_val_nested_ind; intros [e'|e'| |ts]; try done.
  rewrite has_type_struct. intros Ht Hd. cbn [abi_dynamic] in Hd.
  cbn [abi_enc type_head]. rewrite <- (existsb_dynamic vs ts Ht), Hd. unfold enc_tuple.
  rewrite length_app, Nat2Z.inj_add, length_enc_heads, (enc_tails_static vs Hd), Z.add_0_r.
  revert ts Ht. induction IH as [|v vs Hv _ IH]; intros [|t ts]; try done. cbn in Hd |- *.
  apply orb_false_elim in Hd as [Hd Hds]. intros [H1 H2]%andb_prop.
  rewrite Hd. cbn. rewrite (Hv t H1 Hd). unfold head_size in IH. by rewrite (IH Hds ts H2).
Qed.

(** ** The round trip *)

(** [v] is read back where it stands: a static value in place, a dynamic value from the
    offset that stands in place. *)
Definition decodes (v : abi_val) : Prop :=
  forall t base, has_type v t = true -> val_ok v = true -> Z.of_nat (length base) < 2 ^ 256 ->
  if abi_dynamic v
  then forall head off post, word_at base head = Some off -> 0 <= off <= Z.of_nat (length base) ->
         drop (Z.to_nat off) base = abi_enc v ++ post -> dec t base head = Some v
  else forall pre post, base = pre ++ abi_enc v ++ post -> dec t base (Z.of_nat (length pre)) = Some v.

Lemma dynamic_head t : type_dynamic t = true -> type_head t = 32.
Proof. destruct t as [e|e| |fs]; try done. cbn. by intros ->. Qed.

Lemma drop_parts (a b c d e : bytes) : drop (length (a ++ b ++ c ++ d)) (a ++ b ++ c ++ d ++ e) = e.
Proof. rewrite !app_assoc. by rewrite drop_app_length. Qed.

Lemma dec_parts vs : Forall decodes vs -> forall ts hd tl post,
  have_types vs ts = true -> forallb val_ok vs = true ->
  let off := Z.of_nat (length hd) + head_size (parts vs) + Z.of_nat (length tl) in
  let base := hd ++ enc_heads off (parts vs) ++ tl ++ enc_tails (parts vs) ++ post in
  Z.of_nat (length base) < 2 ^ 256 ->
  dec_list dec ts base (Z.of_nat (length hd)) = Some vs.
Proof.
  induction 1 as [|v vs Hv _ IH]; intros [|t ts] hd tl post; try done.
  intros [Ht Hts]%andb_prop [Hok Hoks]%andb_prop off base Hlen.
  cbn [dec_list]. unfold decodes in Hv. specialize (Hv t base Ht Hok Hlen).
  unfold base, off in *. clear base off. cbn [map] in *.
  pose proof (dynamic_type v t Ht) as Hdt. destruct (abi_dynamic v) eqn:Hd.
  - cbn [enc_heads head_size foldr fst snd] in *. unfold enc_tails in *. cbn [map concat fst snd] in *.
    fold (head_size (parts vs)) in *. fold (enc_tails (parts vs)) in *.
    set (off := Z.of_nat (length hd) + (32 + head_size (parts vs)) + Z.of_nat (length tl)) in *.
    set (hs := enc_heads (off + Z.of_nat (length (abi_enc v))) (parts vs)) in *.
    assert (Hhs : Z.of_nat (length hs) = head_size (parts vs)) by apply length_enc_heads.
    rewrite <- !app_assoc in Hv, Hlen |- *.
    assert (Hoff : off = Z.of_nat (length (hd ++ abi_word off ++ hs ++ tl))).
    { rewrite !length_app, length_abi_word. unfold off. lia. }
    assert (Hpos : off <= Z.of_nat (length (hd ++ abi_word off ++ hs ++ tl ++ abi_enc v ++
                            enc_tails (parts vs) ++ post))).
    { rewrite Hoff at 1. rewrite !length_app. lia. }
    rewrite (Hv _ off (enc_tails (parts vs) ++ post)); cycle 1.
    + apply word_at_app. unfold is_u256. lia.
    + lia.
    + replace (Z.to_nat off) with (length (hd ++ abi_word off ++ hs ++ tl)) by lia. apply drop_parts.
    + cbn [mbind option_bind]. rewrite (dynamic_head t) by congruence.
      specialize (IH ts (hd ++ abi_word off) (tl ++ abi_enc v) post Hts Hoks).
      rewrite !length_app, length_abi_word in IH.
      replace (Z.of_nat (length hd + 32) + head_size (parts vs) + Z.of_nat (length tl + length (abi_enc v)))
        with (off + Z.of_nat (length (abi_enc v))) in IH by (unfold off; lia).
      replace (Z.of_nat (length hd + 32)) with (Z.of_nat (length hd) + 32) in IH by lia.
      fold hs in IH. rewrite <- !app_assoc in IH. rewrite IH; [done|]. rewrite !length_app, length_abi_word in Hlen. lia.
  - cbn [enc_heads head_size foldr fst snd] in *. unfold enc_tails in *. cbn [map concat fst snd] in *.
    fold (head_size (parts vs)) in *. fold (enc_tails (parts vs)) in *. rewrite app_nil_l in *.
    pose proof (length_static v t Ht Hd) as Hhead.
    rewrite (Hv hd (enc_heads (Z.of_nat (length hd) + (Z.of_nat (length (abi_enc v)) + head_size (parts vs))
               + Z.of_nat (length tl)) (parts vs) ++ tl ++ enc_tails (parts vs) ++ post))
      by (by rewrite <- !app_assoc).
    cbn [mbind option_bind]. rewrite <- Hhead.
    specialize (IH ts (hd ++ abi_enc v) tl post Hts Hoks). rewrite !(length_app hd (abi_enc v)) in IH.
    replace (Z.of_nat (length hd + length (abi_enc v)) + head_size (parts vs))
      with (Z.of_nat (length hd) + (Z.of_nat (length (abi_enc v)) + head_size (parts vs))) in IH by lia.
    replace (Z.of_nat (length hd + length (abi_enc v))) with (Z.of_nat (length hd) + Z.of_nat (length (abi_enc v)))
      in IH by lia.
    rewrite <- !app_assoc in *. by rewrite IH.
Qed.

Lemma decodes_all v : decodes v.
Proof.
  induction v as [e z|e zs|b|vs IH] using abi_val_nested_ind; intros [e'|e'| |ts] base; try done.
  - cbn [has_type]. intros ->%bool_decide_eq_true_1 Hok Hlen pre post ->. cbn [dec abi_enc].
    rewrite word_at_app by (by eapply elem_ok_u256). cbn [mbind option_bind val_ok] in *. by rewrite Hok.
  - cbn [has_type]. intros ->%bool_decide_eq_true_1 Hok Hlen. cbn [abi_dynamic val_ok] in *.
    intros head off post Hw Hoff Hd. cbn [dec]. rewrite Hw. cbn [mbind option_bind].
    apply drop_split in Hd as (pre & -> & ->); [|done]. rewrite abi_enc_array, abi_words_cons in *.
    rewrite !length_app, length_abi_word, length_abi_words in Hlen. rewrite <- app_assoc.
    rewrite word_at_app by (unfold is_u256; lia). cbn [mbind option_bind].
    replace (Z.of_nat (length pre) + 32) with (Z.of_nat (length (pre ++ abi_word (Z.of_nat (length zs)))))
      by (rewrite length_app, length_abi_word; lia).
    replace (32 * Z.of_nat (length zs)) with (Z.of_nat (length (abi_words zs))) by (rewrite length_abi_words; lia).
    rewrite (app_assoc pre), slice_app. cbn [mbind option_bind].
    rewrite Nat2Z.id, words_of_words; [by rewrite Hok|].
    apply Forall_forall. intros z Hz. eapply elem_ok_u256, (proj1 (forallb_forall _ _) Hok).
    by apply list_elem_of_In.
  - intros _ _ Hlen. cbn [abi_dynamic]. intros head off post Hw Hoff Hd. cbn [dec]. rewrite Hw. cbn [mbind option_bind].
    apply drop_split in Hd as (pre & -> & ->); [|done]. cbn [abi_enc] in *. unfold pad32 in *.
    rewrite !length_app, length_abi_word in Hlen. rewrite <- !app_assoc.
    rewrite word_at_app by (unfold is_u256; lia). cbn [mbind option_bind].
    replace (Z.of_nat (length pre) + 32) with (Z.of_nat (length (pre ++ abi_word (Z.of_nat (length b)))))
      by (rewrite length_app, length_abi_word; lia).
    by rewrite (app_assoc pre), slice_app.
  - rewrite has_type_struct. intros Ht Hok Hlen. cbn [abi_dynamic val_ok abi_enc] in *.
    pose proof (existsb_dynamic vs ts Ht) as He. destruct (existsb abi_dynamic vs) eqn:Hd.
    + intros head off post Hw Hoff Hdrop. cbn [dec]. rewrite Hw, <- He. cbn [mbind option_bind].
      apply drop_split in Hdrop as (pre & -> & ->); [|done].
      rewrite length_app, Nat2Z.inj_add in *. rewrite Z.add_simpl_l.
      pose proof (slice_app pre (enc_tuple (parts vs) ++ post) []) as Hs. rewrite app_nil_r in Hs. rewrite Hs.
      cbn [mbind option_bind].
      pose proof (dec_parts vs IH ts [] [] post Ht Hok) as Hp. cbn [length app] in Hp. change (Z.of_nat 0) with 0 in Hp.
      rewrite Z.add_0_l, Z.add_0_r in Hp. unfold enc_tuple in *. rewrite <- app_assoc in *. rewrite Hp; [done|lia].
    + intros pre post ->. cbn [dec]. rewrite <- He.
      pose proof (dec_parts vs IH ts pre [] post Ht Hok) as Hp. unfold enc_tuple in *.
      rewrite (enc_heads_static _ (head_size (parts vs))), app_nil_l in Hp by done.
      rewrite <- !app_assoc in *. by rewrite Hp.
Qed.

(** What [abi_encode] encodes, [abi_decode] reads back, whatever follows. *)
Lemma abi_decode_encode ts vs post :
  have_types vs ts = true -> forallb val_ok vs = true ->
  Z.of_nat (length (abi_encode vs ++ post)) < 2 ^ 256 ->
  abi_decode ts (abi_encode vs ++ post) = Some vs.
Proof.
  intros Ht Hok Hlen. unfold abi_decode, abi_encode, enc_tuple in *.
  pose proof (dec_parts vs) as Hp. specialize (Hp (Forall_true _ _ decodes_all) ts [] [] post Ht Hok).
  cbn [length app] in Hp. change (Z.of_nat 0) with 0 in Hp. rewrite Z.add_0_l, Z.add_0_r in Hp. rewrite <- app_assoc in *. by rewrite Hp.
Qed.
