(* ===== verification/Model.v ===== *)
(** * Model: concrete instances of the external libraries

    They make every definition of the development executable, and show that the
    laws assumed of the libraries are consistent.  Hashing and the EIP-55 case of
    printed addresses are replaced by simple stand-ins. *)
From Stdlib Require Import Init.Byte QArith Qabs Qpower Qround DecimalString DecimalN Lqa.
From S2P Require Import Prelude GoFloat Types External.
#[local] Open Scope Z_scope.

(** ** Hexadecimal *)
Definition hex_digit (z : Z) : ascii :=
  match z with
  | 0 => "0" | 1 => "1" | 2 => "2" | 3 => "3" | 4 => "4" | 5 => "5" | 6 => "6" | 7 => "7"
  | 8 => "8" | 9 => "9" | 10 => "a" | 11 => "b" | 12 => "c" | 13 => "d" | 14 => "e"
  | _ => "f"
  end%char.

Definition hex_value (c : ascii) : option Z :=
  let n := Z.of_nat (nat_of_ascii c) in
  if (48 <=? n) && (n <=? 57) then Some (n - 48)
  else if (97 <=? n) && (n <=? 102) then Some (n - 87)
  else if (65 <=? n) && (n <=? 70) then Some (n - 55)
  else None.

Fixpoint hex_of_bytes (bs : bytes) : string :=
  match bs with
  | [] => EmptyString
  | b :: bs' => String (hex_digit (byte_Z b / 16))
                  (String (hex_digit (byte_Z b mod 16)) (hex_of_bytes bs'))
  end.

Fixpoint bytes_of_hex (s : string) : bytes :=
  match s with
  | String c1 (String c2 s') =>
      match hex_value c1, hex_value c2 with
      | Some x, Some y => Z_byte (16 * x + y) :: bytes_of_hex s'
      | _, _ => []
      end
  | _ => []
  end.

Definition strip_0x (s : string) : string :=
  match s with
  | String "0" (String "x" s') | String "0" (String "X" s') => s'
  | _ => s
  end.

Definition model_FromHex (s : string) : bytes :=
  let s := strip_0x s in
  bytes_of_hex (if Nat.even (String.length s) then s else String "0" s).

Lemma bytes_of_hex_of_bytes bs : bytes_of_hex (hex_of_bytes bs) = bs.
Proof. induction bs as [|b bs IH]; [done|]. cbn [hex_of_bytes]. destruct b; cbn; by rewrite IH. Qed.

Lemma even_hex_of_bytes bs : Nat.even (String.length (hex_of_bytes bs)) = true.
Proof. induction bs as [|b bs IH]; [done|exact IH]. Qed.

Lemma model_FromHex_bytes bs : model_FromHex (hex_of_bytes bs) = bs.
Proof.
  unfold model_FromHex.
  replace (strip_0x (hex_of_bytes bs)) with (hex_of_bytes bs) by (by destruct bs as [|[] bs]).
  by rewrite even_hex_of_bytes, bytes_of_hex_of_bytes.
Qed.

Definition model_HexToAddress (s : string) : Z := be_Z (model_FromHex s) mod 2 ^ 160.
Definition model_Address_Hex (a : Z) : string := String "0" (String "x" (hex_of_bytes (Z_be 20 a))).

Lemma model_HexToAddress_Hex a : is_addr a -> model_HexToAddress (model_Address_Hex a) = a.
Proof.
  intros Ha. unfold model_HexToAddress, model_Address_Hex, model_FromHex.
  cbn [strip_0x]. rewrite even_hex_of_bytes, bytes_of_hex_of_bytes, be_Z_Z_be.
  change (256 ^ Z.of_nat 20) with (2 ^ 160). unfold is_addr in Ha. rewrite (Z.mod_small a) by lia. by apply Z.mod_small.
Qed.

(** ** Hashing and packing *)
Definition model_keccak (b : bytes) : Z :=
  foldl (fun acc x => (acc * 31 + byte_Z x + 1) mod 2 ^ 256) 0 b.

Lemma model_keccak_range b : is_u256 (model_keccak b).
Proof.
  unfold model_keccak. induction b as [|x b _] using rev_ind; [done|].
  rewrite foldl_app. cbn [foldl]. apply Z.mod_pos_bound. lia.
Qed.

Definition model_MethodID (a : ABI) (name : string) : bytes :=
  take 4 (list_byte_of_string name ++ replicate 4 x00).

Lemma model_MethodID_length a name : length (model_MethodID a name) = 4%nat.
Proof. unfold model_MethodID. rewrite length_take, length_app, length_replicate. lia. Qed.

Definition model_Pack (a : ABI) (name : string) (vs : list abi_val) : bytes * error :=
  match abi_method a name with
  | Some ts =>
      if have_types vs ts then (model_MethodID a name ++ abi_encode vs, None)
      else ([], Some (ErrNew "abi: cannot use arguments"))
  | None => ([], Some (ErrNew "method not found"))
  end.

#[global, refine] Instance model_geth : Geth := {|
  HexToAddress := model_HexToAddress;
  Address_Hex := model_Address_Hex;
  FromHex := model_FromHex;
  Bytes2Hex := hex_of_bytes;
  BytesToHash b := be_Z b mod 2 ^ 256;
  Keccak256Hash := model_keccak;
  abi_Pack := model_Pack;
  abi_MethodID := model_MethodID
|}.
Proof.
  - intros s. apply Z.mod_pos_bound. lia.
  - apply model_HexToAddress_Hex.
  - apply model_FromHex_bytes.
  - intros b Hb. apply Z.mod_small. pose proof (be_Z_range b) as H. by rewrite Hb in H.
  - apply model_keccak_range.
  - intros. apply model_MethodID_length.
  - intros a name ts vs Hm Ht. unfold model_Pack. by rewrite Hm, Ht.
  - intros a name vs Hm. unfold model_Pack. rewrite Hm. by eexists.
Defined.

(** ** Decimals: rational numbers *)

(** Nearest integer (halves up). *)
Definition Qrnd (x : Q) : Z := Qfloor (x + (1 # 2))%Q.

Lemma Qrnd_lower x n : (inject_Z n <= x)%Q -> n <= Qrnd x.
Proof.
  intros H. unfold Qrnd. rewrite <- (Qfloor_Z n). apply Qfloor_resp_le. lra.
Qed.

Lemma Qrnd_upper x n : (x <= inject_Z n)%Q -> Qrnd x <= n.
Proof.
  intros H. unfold Qrnd. apply Z.lt_succ_r. rewrite Zlt_Qlt.
  eapply Qle_lt_trans; [apply Qfloor_le|]. rewrite <- Z.add_1_r, inject_Z_plus.
  change (inject_Z 1) with 1%Q. lra.
Qed.

(** [log2 |x|] rounded down, for [x] not zero. *)
Definition Qlog2 (x : Q) : Z :=
  let l := Z.log2 (Z.abs (Qnum x)) - Z.log2 (Zpos (Qden x)) in
  if Qle_bool (Qpower 2 l) (Qabs x) then l else l - 1.

Lemma Qpower2_le a b : a <= b <-> (Qpower 2 a <= Qpower 2 b)%Q.
Proof.
  split; intros H; [by apply Qpower_le_compat_l|].
  apply Z.nlt_ge. intros Hlt. revert H. apply Qlt_not_le. by apply Qpower_lt_compat_l.
Qed.

Lemma Qpower2_Z n : 0 <= n -> (Qpower 2 n == inject_Z (2 ^ n))%Q.
Proof. intros. by rewrite Zpower_Qpower. Qed.

Lemma Qlog2_spec x :
  ~ (x == 0)%Q -> (Qpower 2 (Qlog2 x) <= Qabs x < Qpower 2 (Qlog2 x + 1))%Q.
Proof.
  intros Hx. destruct x as [p q]. unfold Qlog2. cbn [Qnum Qden].
  assert (0 < Z.abs p) as Hp. { unfold Qeq in Hx. simpl in Hx. lia. }
  set (lp := Z.log2 (Z.abs p)). set (lq := Z.log2 (Zpos q)).
  pose proof (Z.log2_spec (Z.abs p) Hp) as [Hp1 Hp2]. fold lp in Hp1, Hp2.
  pose proof (Z.log2_spec (Zpos q) ltac:(lia)) as [Hq1 Hq2]. fold lq in Hq1, Hq2.
  pose proof (Z.log2_nonneg (Z.abs p)). fold lp in H.
  pose proof (Z.log2_nonneg (Zpos q)). fold lq in H0.
  assert (Qabs (p # q) == inject_Z (Z.abs p) / inject_Z (Zpos q))%Q as Habs.
  { unfold Qeq. simpl. lia. }
  rewrite Zle_Qle in Hp1, Hq1. rewrite Zlt_Qlt in Hp2, Hq2.
  rewrite <- Qpower2_Z in Hp1, Hp2, Hq1, Hq2 by lia. rewrite <- Z.add_1_r in Hp2, Hq2.
  assert (0 < inject_Z (Zpos q))%Q as Hq0 by done.
  assert (Qpower 2 (lp - lq - 1) < Qabs (p # q))%Q as Hlo.
  { rewrite Habs. apply Qlt_shift_div_l; [done|]. eapply Qlt_le_trans; [|exact Hp1].
    replace lp with (lp - lq - 1 + (lq + 1)) at 2 by lia. rewrite Qpower_plus by done.
    apply Qmult_lt_l; [apply Qpower2_pos|done]. }
  assert (Qabs (p # q) < Qpower 2 (lp - lq + 1))%Q as Hhi.
  { rewrite Habs. apply Qlt_shift_div_r; [done|]. eapply Qlt_le_trans; [exact Hp2|].
    replace (lp + 1) with (lp - lq + 1 + lq) by lia. rewrite Qpower_plus by done.
    apply Qmult_le_l; [apply Qpower2_pos|done]. }
  destruct (Qle_bool _ _) eqn:E.
  - apply Qle_bool_iff in E. done.
  - apply not_true_iff_false in E. rewrite Qle_bool_iff in E. apply Qnot_le_lt in E.
    replace (lp - lq - 1 + 1) with (lp - lq) by lia. split; [by apply Qlt_le_weak|done].
Qed.

Definition model_Float64 (x : Q) : gofloat :=
  let e := Z.max (Qlog2 x - 52) (-1074) in
  let m := Qrnd (x * Qpower 2 (- e))%Q in
  if Z.abs m =? 2 ^ 53 then FFin (m / 2) (e + 1) else FFin m e.

(** Scaling by a power of two moves between a decimal and its mantissa. *)
Lemma dyadic_scale n e x : (dyadic n e <= x)%Q <-> (inject_Z n <= x * Qpower 2 (- e))%Q.
Proof.
  unfold dyadic. pose proof (Qpower2_pos (- e)) as Hp.
  rewrite <- (Qmult_le_r (inject_Z n * 2 ^ e) x (2 ^ (- e)) Hp).
  assert (inject_Z n * 2 ^ e * 2 ^ (- e) == inject_Z n)%Q as ->; [|done].
  rewrite <- Qmult_assoc, <- Qpower_plus, Z.add_opp_diag_r by done. apply Qmult_1_r.
Qed.

Lemma dyadic_scale' n e x : (x <= dyadic n e)%Q <-> (x * Qpower 2 (- e) <= inject_Z n)%Q.
Proof.
  unfold dyadic. pose proof (Qpower2_pos (- e)) as Hp.
  rewrite <- (Qmult_le_r x (inject_Z n * 2 ^ e) (2 ^ (- e)) Hp).
  assert (inject_Z n * 2 ^ e * 2 ^ (- e) == inject_Z n)%Q as ->; [|done].
  rewrite <- Qmult_assoc, <- Qpower_plus, Z.add_opp_diag_r by done. apply Qmult_1_r.
Qed.

(** A double whose exponent is below the rounding place is small. *)
Lemma float64_small m e p :
  is_float64 m e -> e < p -> (- dyadic 1 (p + 52) < dyadic m e < dyadic 1 (p + 52))%Q.
Proof.
  intros [Hm _] He.
  assert (dyadic 1 (p + 52) == dyadic (2 ^ (p + 52 - e)) e)%Q as Heq.
  { replace (p + 52) with (e + (p + 52 - e)) at 1 by lia.
    rewrite dyadic_shift by lia. by rewrite Z.mul_1_l. }
  rewrite Heq. assert (2 ^ 53 <= 2 ^ (p + 52 - e)) by (apply Z.pow_le_mono_r; lia).
  unfold dyadic. pose proof (Qpower2_pos e).
  assert (forall a b, a < b -> (inject_Z a * 2 ^ e < inject_Z b * 2 ^ e)%Q) as Hlt.
  { intros a b Hab. apply Qmult_lt_r; [done|]. by rewrite <- Zlt_Qlt. }
  split; [|apply Hlt; lia].
  eapply Qle_lt_trans; [|apply (Hlt (- 2 ^ (p + 52 - e))); lia].
  rewrite inject_Z_opp. apply Qle_lteq. right. ring.
Qed.

Lemma dyadic_1 e : (dyadic 1 e == Qpower 2 e)%Q.
Proof. unfold dyadic. apply Qmult_1_l. Qed.

Lemma dyadic_opp m e : (dyadic (- m) e == - dyadic m e)%Q.
Proof. unfold dyadic. rewrite inject_Z_opp. ring. Qed.

Definition round_exp (x : Q) : Z := Z.max (Qlog2 x - 52) (-1074).
Definition round_man (x : Q) : Z := Qrnd (x * Qpower 2 (- round_exp x))%Q.

Lemma round_no_cross x m' e' :
  is_float64 m' e' ->
  ((dyadic m' e' <= x)%Q -> (dyadic m' e' <= dyadic (round_man x) (round_exp x))%Q) /\
  ((x <= dyadic m' e')%Q -> (dyadic (round_man x) (round_exp x) <= dyadic m' e')%Q).
Proof.
  intros Hf. set (e := round_exp x).
  assert (forall n g, e <= g -> (dyadic n g == dyadic (n * 2 ^ (g - e)) e)%Q) as Hsh.
  { intros n g Hg. replace g with (e + (g - e)) at 1 by lia. apply dyadic_shift. lia. }
  assert (forall n g, e <= g -> (dyadic n g <= x)%Q -> (dyadic n g <= dyadic (round_man x) e)%Q)
    as Hlo.
  { intros n g Hg. rewrite Hsh, dyadic_scale, <- dyadic_le by done. apply Qrnd_lower. }
  assert (forall n g, e <= g -> (x <= dyadic n g)%Q -> (dyadic (round_man x) e <= dyadic n g)%Q)
    as Hhi.
  { intros n g Hg. rewrite Hsh, dyadic_scale', <- dyadic_le by done. apply Qrnd_upper. }
  destruct (Z.le_gt_cases e e') as [|Hlt]; [auto|].
  destruct (Qeq_dec x 0) as [H0|H0].
  - assert (dyadic 0 e == 0)%Q as Hz by apply Qmult_0_l.
    pose proof (Hlo 0 e (Z.le_refl _)) as H1. pose proof (Hhi 0 e (Z.le_refl _)) as H2.
    rewrite Hz in H1, H2. split; intros H; rewrite H0 in *; lra.
  - pose proof (Qlog2_spec x H0) as [HL _].
    assert (Qlog2 x = e + 52) as HeL by (unfold e, round_exp, is_float64 in *; lia).
    rewrite HeL, <- dyadic_1 in HL. destruct (float64_small m' e' e Hf Hlt) as [Hs1 Hs2].
    pose proof (Hlo 1 (e + 52) ltac:(lia)) as H1.
    pose proof (Hhi (Z.opp 1) (e + 52) ltac:(lia)) as H2. rewrite dyadic_opp in H2.
    destruct (Qlt_le_dec x 0) as [Hx|Hx].
    + rewrite Qabs_neg in HL by lra. split; intros H; lra.
    + rewrite Qabs_pos in HL by lra. split; intros H; lra.
Qed.

Lemma round_man_bound x : Z.abs (round_man x) <= 2 ^ 53.
Proof.
  unfold round_man. set (e := round_exp x).
  assert (Qabs x < dyadic (2 ^ 53) e)%Q as Hx.
  { destruct (Qeq_dec x 0) as [H0|H0].
    - rewrite H0. change (0 < dyadic (2 ^ 53) e)%Q. unfold dyadic.
      apply Qmult_lt_0_compat; [done|apply Qpower2_pos].
    - pose proof (Qlog2_spec x H0) as [_ HL]. eapply Qlt_le_trans; [exact HL|].
      rewrite <- dyadic_1.
      replace (Qlog2 x + 1) with (Qlog2 x - 52 + 53) by lia. rewrite dyadic_shift by lia.
      rewrite Z.mul_1_l. unfold dyadic. apply Qmult_le_l; [done|].
      apply (proj1 (Qpower2_le _ _)). unfold e, round_exp. lia. }
  apply Z.abs_le. split.
  - apply Qrnd_lower. apply dyadic_scale. rewrite dyadic_opp.
    pose proof (Qle_Qabs (- x)) as Hm. rewrite Qabs_opp in Hm. lra.
  - apply Qrnd_upper. apply dyadic_scale'. pose proof (Qle_Qabs x). lra.
Qed.

Lemma model_Float64_ok x :
  (Qabs x < Qpower 2 1000)%Q ->
  exists m e, model_Float64 x = FFin m e /\ is_float64 m e /\
    forall m' e', is_float64 m' e' ->
      ((dyadic m' e' <= x)%Q -> (dyadic m' e' <= dyadic m e)%Q) /\
      ((x <= dyadic m' e')%Q -> (dyadic m e <= dyadic m' e')%Q).
Proof.
  intros Hx. unfold model_Float64. fold (round_exp x). fold (round_man x).
  pose proof (round_no_cross x) as Hc. pose proof (round_man_bound x) as Hm.
  assert (-1074 <= round_exp x <= 970) as He.
  { unfold round_exp. destruct (Qeq_dec x 0) as [H0|H0].
    - destruct x as [p q]. assert (p = 0) as -> by (unfold Qeq in H0; simpl in H0; lia).
      unfold Qlog2. cbn [Qnum Qden]. pose proof (Z.log2_nonneg (Zpos q)).
      change (Z.log2 (Z.abs 0)) with 0. cbv zeta. destruct (Qle_bool _ _); lia.
    - destruct (Qlog2_spec x H0) as [HL _].
      destruct (Z.le_gt_cases 1000 (Qlog2 x)) as [HL'|]; [exfalso|lia].
      apply (Qlt_not_le _ _ Hx). eapply Qle_trans; [|exact HL]. by apply (proj1 (Qpower2_le _ _)). }
  destruct (Z.eqb_spec (Z.abs (round_man x)) (2 ^ 53)) as [Heq|Hne].
  - assert (round_man x = 2 ^ 53 \/ round_man x = - 2 ^ 53) as Hr by lia.
    eexists _, _. split; [done|]. split.
    { split; [by destruct Hr as [-> | ->]|lia]. }
    intros m' e' Hf. specialize (Hc m' e' Hf).
    rewrite dyadic_shift by lia. destruct Hr as [Hr|Hr]; rewrite Hr in Hc |- *; exact Hc.
  - eexists _, _. split; [done|]. split; [unfold is_float64; lia|exact Hc].
Qed.

Lemma Qdigits_le n D x : (n # D <= x)%Q <-> (inject_Z n <= x * inject_Z (Zpos D))%Q.
Proof. destruct x as [p q]. unfold Qle. simpl. lia. Qed.

Lemma Qdigits_ge n D x : (x <= n # D)%Q <-> (x * inject_Z (Zpos D) <= inject_Z n)%Q.
Proof. destruct x as [p q]. unfold Qle. simpl. lia. Qed.

Lemma quot_integral d n : (d == inject_Z n)%Q -> Z.quot (Qnum d) (Zpos (Qden d)) = n.
Proof.
  unfold Qeq. simpl. intros H. rewrite Z.mul_1_r in H. rewrite H.
  by apply Z.quot_mul.
Qed.

Lemma uint_string_roundtrip n :
  NilZero.uint_of_string (NilZero.string_of_uint (N.to_uint n)) = Some (N.to_uint n).
Proof.
  apply NilZero.usu. intros H. pose proof (f_equal N.of_uint H) as Hn.
  rewrite Unsigned.of_to in Hn. simpl in Hn. by subst.
Qed.

#[global, refine] Instance model_shopspring : Shopspring := {|
  decimal := Q;
  dec_Q d := d;
  NewFromBigInt v e := (inject_Z v * Qpower 10 e)%Q;
  NewFromInt v := inject_Z v;
  NewFromFloat f := match f with FFin m e => Some (dyadic m e) | _ => None end;
  NewFromString s := match NilZero.uint_of_string s with
                     | Some u => (inject_Z (Z.of_N (N.of_uint u)), None)
                     | None => (0%Q, Some (ErrNew ("can't convert " ++ s ++ " to decimal")))
                     end;
  dec_Mul := Qmult;
  dec_Shift d n := (d * Qpower 10 n)%Q;
  dec_Div a b := (Qrnd (a / b * inject_Z (10 ^ 16)) # 10 ^ 16)%Q;
  dec_Float64 := model_Float64;
  dec_LessThan a b := Qltb a b;
  dec_GreaterThan a b := Qltb b a;
  dec_IntPart d := i64 (Z.quot (Qnum d) (Zpos (Qden d)));
  dec_BigInt d := Z.quot (Qnum d) (Zpos (Qden d))
|}.
Proof.
  - reflexivity.
  - reflexivity.
  - by eexists.
  - intros n. eexists. rewrite uint_string_roundtrip, Unsigned.of_to. split; reflexivity.
  - reflexivity.
  - reflexivity.
  - intros a b _. eexists. split; [reflexivity|]. intros n.
    rewrite Qdigits_le, Qdigits_ge. split; [apply Qrnd_lower|apply Qrnd_upper].
  - apply model_Float64_ok.
  - done.
  - done.
  - intros d n Hd Hn. rewrite (quot_integral d n) by done. by apply i64_small.
  - apply quot_integral.
Defined.
