(* ===== verification/PeggySol.v ===== *)
(** * PeggySol: the bridge contract, solidity/contracts/Peggy.sol

    The part of the contract that the relayer's transactions run: checkpoints,
    signature checks, [updateValset] and [submitBatch].  A function returns
    [None] where the contract reverts.  Arithmetic on [uint256] is checked
    (Solidity 0.8): an overflow reverts.  Token contracts are external; the
    transfers a call makes are returned in order, and whether the token accepts
    them is the argument [tokenOk]. *)
From S2P Require Import Prelude Types External.

(** [struct ValsetArgs] *)
Record ValsetArgs : Type := MkValsetArgs {
  va_Validators : list Address;
  va_Powers : list Z;
  va_ValsetNonce : Z;
  va_RewardAmount : Z;
  va_RewardToken : Address
}.

#[global] Instance ValsetArgs_eq_dec : EqDecision ValsetArgs.
Proof. solve_decision. Defined.

(** Signature recovery is an EVM precompile. *)
Class Evm : Type := { ecrecover : Hash -> Z -> Hash -> Hash -> Address }.

Inductive TokenOp : Type :=
  | SafeTransfer (token to : Address) (amount : Z)
  | Mint (token to : Address) (amount : Z)
  | Burn (token from : Address) (amount : Z)
  | SafeTransferFrom (token from to : Address) (amount : Z).

Inductive ContractEvent : Type :=
  | EvValsetUpdated (newNonce eventNonce rewardAmount : Z) (rewardToken : Address)
      (validators : list Address) (powers : list Z)
  | EvBatchExecuted (batchNonce : Z) (token : Address) (eventNonce : Z)
  | EvSendToInjective (token sender : Address) (destination : Hash) (amount eventNonce : Z) (data : string)
  | EvERC20Deployed (cosmosDenom : string) (token : Address) (name symbol : string)
      (decimals eventNonce : Z).

Record Contract : Type := MkContract {
  state_lastValsetCheckpoint : Hash;
  state_lastBatchNonces : gmap Z Z;
  state_lastValsetNonce : Z;
  state_lastEventNonce : Z;
  state_peggyId : Hash;
  state_powerThreshold : Z;
  isInjectiveNativeToken : gset Z;
  paused : bool
}.

Definition MAX_NONCE_JUMP_LIMIT : Z := 10000000000000.

(** [require] *)
Definition require (b : bool) : option unit := if b then Some tt else None.

(** Checked addition on uint256. *)
Definition add256 (x y : Z) : option Z := if x + y <? 2 ^ 256 then Some (x + y) else None.

Section contract.
Context {GE : Geth} {EV : Evm}.

Definition checkpoint_method : Z :=
  0x636865636b706f696e7400000000000000000000000000000000000000000000.
Definition batch_method : Z :=
  0x7472616e73616374696f6e426174636800000000000000000000000000000000.

Definition checkpoint_preimage (a : ValsetArgs) (peggyId : Hash) : bytes :=
  abi_encode [VElem TBytes32 peggyId; VElem TBytes32 checkpoint_method;
              VElem TUint256 (va_ValsetNonce a); VArray TAddress (va_Validators a);
              VArray TUint256 (va_Powers a); VElem TUint256 (va_RewardAmount a);
              VElem TAddress (va_RewardToken a)].

Definition makeCheckpoint (a : ValsetArgs) (peggyId : Hash) : Hash :=
  Keccak256Hash (checkpoint_preimage a peggyId).

Definition batch_preimage (peggyId : Hash) (amounts : list Z) (destinations : list Address)
    (fees : list Z) (batchNonce : Z) (token : Address) (batchTimeout : Z) : bytes :=
  abi_encode [VElem TBytes32 peggyId; VElem TBytes32 batch_method;
              VArray TUint256 amounts; VArray TAddress destinations; VArray TUint256 fees;
              VElem TUint256 batchNonce; VElem TAddress token; VElem TUint256 batchTimeout].

Definition batchHash (peggyId : Hash) (amounts : list Z) (destinations : list Address)
    (fees : list Z) (batchNonce : Z) (token : Address) (batchTimeout : Z) : Hash :=
  Keccak256Hash (batch_preimage peggyId amounts destinations fees batchNonce token batchTimeout).

(** [verifySig]: the digest of the "Ethereum Signed Message" envelope. *)
Definition signed_message_digest (h : Hash) : Hash :=
  Keccak256Hash (Byte.x19 :: list_byte_of_string "Ethereum Signed Message:" ++
                 Byte.x0a :: list_byte_of_string "32" ++ abi_word h).

Definition verifySig (signer : Address) (theHash : Hash) (v : Z) (r s : Hash) : bool :=
  signer =? ecrecover (signed_message_digest theHash) v r s.

(** [_validateValidatorSet] *)
Fixpoint validatePowers (powers : list Z) (threshold cumulativePower : Z) : option Z :=
  match powers with
  | [] => Some cumulativePower
  | p :: powers' =>
      cum ← add256 cumulativePower p;
      if threshold <? cum then Some cum else validatePowers powers' threshold cum
  end.

Definition validateValidatorSet (validators : list Address) (powers : list Z) (threshold : Z)
  : option unit :=
  _ ← require (length validators =? length powers)%nat;
  cum ← validatePowers powers threshold 0;
  require (threshold <? cum).

(** The loop of [checkValidatorSignatures]: the lists have been checked to have
    one length; a missing element would revert. *)
Fixpoint checkSignatures (validators : list Address) (powers v : list Z) (r s : list Hash)
    (theHash : Hash) (threshold cumulativePower : Z) : option Z :=
  match validators with
  | [] => Some cumulativePower
  | val :: validators' =>
      match powers, v, r, s with
      | p :: powers', vi :: v', ri :: r', si :: s' =>
          if vi =? 0
          then checkSignatures validators' powers' v' r' s' theHash threshold cumulativePower
          else
            _ ← require (verifySig val theHash vi ri si);
            cum ← add256 cumulativePower p;
            if threshold <? cum then Some cum
            else checkSignatures validators' powers' v' r' s' theHash threshold cum
      | _, _, _, _ => None
      end
  end.

Definition checkValidatorSignatures (validators : list Address) (powers v : list Z)
    (r s : list Hash) (theHash : Hash) (threshold : Z) : option unit :=
  cum ← checkSignatures validators powers v r s theHash threshold 0;
  require (threshold <? cum).

Definition wellFormedSigs (a : ValsetArgs) (v : list Z) (r s : list Hash) : bool :=
  let n := length (va_Validators a) in
  ((n =? length (va_Powers a)) && (n =? length v) && (n =? length r) && (n =? length s))%nat.

(** The next event: [state_lastEventNonce + 1] is stored and emitted. *)
Definition emit (mk : Z -> ContractEvent) (c : Contract) : option (Contract * ContractEvent) :=
  eventNonce ← add256 (state_lastEventNonce c) 1;
  Some (MkContract (state_lastValsetCheckpoint c) (state_lastBatchNonces c) (state_lastValsetNonce c)
          eventNonce (state_peggyId c) (state_powerThreshold c) (isInjectiveNativeToken c) (paused c),
        mk eventNonce).

(** The payment of the submission reward. *)
Definition reward_ops (sender : Address) (a : ValsetArgs) : list TokenOp :=
  if negb (va_RewardToken a =? 0) && negb (va_RewardAmount a =? 0)
  then [SafeTransfer (va_RewardToken a) sender (va_RewardAmount a)] else [].

(** [updateValset] up to the calls of the reward token. *)
Definition updateValset_checks (sender : Address) (newValset currentValset : ValsetArgs)
    (v : list Z) (r s : list Hash) (c : Contract) : option (Contract * list TokenOp) :=
  _ ← require (negb (paused c));
  _ ← require (va_ValsetNonce currentValset <? va_ValsetNonce newValset);
  _ ← require (wellFormedSigs currentValset v r s);
  limit ← add256 (va_ValsetNonce currentValset) MAX_NONCE_JUMP_LIMIT;
  _ ← require (va_ValsetNonce newValset <? limit);
  _ ← require (makeCheckpoint currentValset (state_peggyId c) =? state_lastValsetCheckpoint c);
  let newCheckpoint := makeCheckpoint newValset (state_peggyId c) in
  _ ← checkValidatorSignatures (va_Validators currentValset) (va_Powers currentValset) v r s
        newCheckpoint (state_powerThreshold c);
  _ ← validateValidatorSet (va_Validators newValset) (va_Powers newValset)
        (state_powerThreshold c);
  Some (MkContract newCheckpoint (state_lastBatchNonces c) (va_ValsetNonce newValset)
          (state_lastEventNonce c) (state_peggyId c) (state_powerThreshold c)
          (isInjectiveNativeToken c) (paused c), reward_ops sender newValset).

Definition valset_event (a : ValsetArgs) (eventNonce : Z) : ContractEvent :=
  EvValsetUpdated (va_ValsetNonce a) eventNonce (va_RewardAmount a) (va_RewardToken a)
    (va_Validators a) (va_Powers a).

(** [updateValset] *)
Definition updateValset (tokenOk : list TokenOp -> bool) (sender : Address)
    (newValset currentValset : ValsetArgs) (v : list Z) (r s : list Hash) (c : Contract)
  : option (Contract * list TokenOp * ContractEvent) :=
  '(c, ops) ← updateValset_checks sender newValset currentValset v r s c;
  _ ← require (tokenOk ops);
  '(c, ev) ← emit (valset_event newValset) c;
  Some (c, ops, ev).

(** [lastBatchNonce] *)
Definition lastBatchNonce (c : Contract) (token : Address) : Z :=
  default 0 (state_lastBatchNonces c !! token).

(** The transfers of [submitBatch] and the total of the fees. *)
Fixpoint payDestinations (native : bool) (token : Address) (amounts : list Z)
    (destinations : list Address) (fees : list Z) (totalFee : Z)
  : option (list TokenOp * Z) :=
  match amounts with
  | [] => Some ([], totalFee)
  | amt :: amounts' =>
      match destinations, fees with
      | dst :: destinations', fee :: fees' =>
          total ← add256 totalFee fee;
          '(ops, total') ← payDestinations native token amounts' destinations' fees' total;
          Some ((if native then Mint token dst amt else SafeTransfer token dst amt) :: ops, total')
      | _, _ => None
      end
  end.

(** [submitBatch] up to the calls of the token. *)
Definition submitBatch_checks (sender : Address) (blockNumber : Z)
    (currentValset : ValsetArgs) (v : list Z) (r s : list Hash)
    (amounts : list Z) (destinations : list Address) (fees : list Z)
    (batchNonce : Z) (token : Address) (batchTimeout : Z) (c : Contract)
  : option (Contract * list TokenOp) :=
  _ ← require (negb (paused c));
  _ ← require (lastBatchNonce c token <? batchNonce);
  limit ← add256 (lastBatchNonce c token) MAX_NONCE_JUMP_LIMIT;
  _ ← require (batchNonce <? limit);
  _ ← require (blockNumber <? batchTimeout);
  _ ← require (wellFormedSigs currentValset v r s);
  _ ← require (makeCheckpoint currentValset (state_peggyId c) =? state_lastValsetCheckpoint c);
  _ ← require ((length amounts =? length destinations) && (length amounts =? length fees))%nat;
  _ ← checkValidatorSignatures (va_Validators currentValset) (va_Powers currentValset) v r s
        (batchHash (state_peggyId c) amounts destinations fees batchNonce token batchTimeout)
        (state_powerThreshold c);
  '(transfers, totalFee) ← payDestinations (bool_decide (token ∈ isInjectiveNativeToken c))
                             token amounts destinations fees 0;
  let ops := transfers ++ (if 0 <? totalFee then [SafeTransfer token sender totalFee] else []) in
  Some (MkContract (state_lastValsetCheckpoint c) (<[token := batchNonce]> (state_lastBatchNonces c))
          (state_lastValsetNonce c) (state_lastEventNonce c) (state_peggyId c) (state_powerThreshold c)
          (isInjectiveNativeToken c) (paused c), ops).

(** [submitBatch] *)
Definition submitBatch (tokenOk : list TokenOp -> bool) (sender : Address) (blockNumber : Z)
    (currentValset : ValsetArgs) (v : list Z) (r s : list Hash)
    (amounts : list Z) (destinations : list Address) (fees : list Z)
    (batchNonce : Z) (token : Address) (batchTimeout : Z) (c : Contract)
  : option (Contract * list TokenOp * ContractEvent) :=
  '(c, ops) ← submitBatch_checks sender blockNumber currentValset v r s amounts destinations fees
                batchNonce token batchTimeout c;
  _ ← require (tokenOk ops);
  '(c, ev) ← emit (EvBatchExecuted batchNonce token) c;
  Some (c, ops, ev).

(** ** What the hashes commit to *)

Lemma abi_word_of_Z z : abi_word z = abi_words [z].
Proof. symmetry. apply app_nil_r. Qed.

(** Unfold [abi.encode] of words and arrays of words into its words. *)
Ltac abi_to_words :=
  unfold abi_encode, enc_tuple, enc_tails, head_size;
  cbn [map abi_dynamic foldr enc_heads fst snd concat];
  rewrite !abi_enc_array; cbn [abi_enc]; rewrite !length_abi_word, !app_nil_r, !app_nil_l;
  rewrite ?length_abi_words, !abi_words_app;
  rewrite !(abi_words_cons _ (_ :: _)), !abi_word_of_Z, <- !abi_words_app;
  f_equal; cbn [app length];
  repeat match goal with
         | |- _ :: _ = _ :: _ => apply (f_equal2 cons); [lia|]
         end; reflexivity.

(** The pre-image of a checkpoint as 32-byte words: seven heads, then the two
    arrays with their lengths. *)
Lemma checkpoint_preimage_words a id :
  checkpoint_preimage a id =
  abi_words ([id; checkpoint_method; va_ValsetNonce a; 224;
              256 + 32 * Z.of_nat (length (va_Validators a)); va_RewardAmount a;
              va_RewardToken a] ++
             (Z.of_nat (length (va_Validators a)) :: va_Validators a) ++
             (Z.of_nat (length (va_Powers a)) :: va_Powers a)).
Proof.
  unfold checkpoint_preimage. abi_to_words.
Qed.

Lemma batch_preimage_words id amounts dests fees nonce token timeout :
  batch_preimage id amounts dests fees nonce token timeout =
  abi_words ([id; batch_method; 256; 288 + 32 * Z.of_nat (length amounts);
              320 + 32 * Z.of_nat (length amounts) + 32 * Z.of_nat (length dests);
              nonce; token; timeout] ++
             (Z.of_nat (length amounts) :: amounts) ++
             (Z.of_nat (length dests) :: dests) ++ (Z.of_nat (length fees) :: fees)).
Proof. unfold batch_preimage. abi_to_words. Qed.

(** Arguments in the ranges of their Solidity types, with parallel arrays. *)
Record wf_ValsetArgs (a : ValsetArgs) : Prop := {
  wf_va_length : length (va_Validators a) = length (va_Powers a);
  wf_va_small : Z.of_nat (length (va_Validators a)) < 2 ^ 64;
  wf_va_validators : Forall is_addr (va_Validators a);
  wf_va_powers : Forall is_u256 (va_Powers a);
  wf_va_nonce : is_u256 (va_ValsetNonce a);
  wf_va_reward : is_u256 (va_RewardAmount a);
  wf_va_token : is_addr (va_RewardToken a)
}.

Lemma is_addr_u256 a : is_addr a -> is_u256 a.
Proof. unfold_ranges. lia. Qed.

Lemma nat_u256 (n : nat) : Z.of_nat n < 2 ^ 64 -> is_u256 (Z.of_nat n).
Proof. unfold_ranges. lia. Qed.

Lemma checkpoint_words_u256 a id :
  wf_ValsetArgs a -> is_u256 id ->
  Forall is_u256
    ([id; checkpoint_method; va_ValsetNonce a; 224;
      256 + 32 * Z.of_nat (length (va_Validators a)); va_RewardAmount a; va_RewardToken a] ++
     (Z.of_nat (length (va_Validators a)) :: va_Validators a) ++
     (Z.of_nat (length (va_Powers a)) :: va_Powers a)).
Proof.
  intros [Hl Hs Hv Hp Hn Hr Ht] Hid. rewrite <- Hl.
  repeat (apply Forall_app; split); repeat (apply Forall_cons; split); try done;
    try (by apply nat_u256); try (by apply is_addr_u256).
  - unfold_ranges. lia.
  - eapply Forall_impl; [exact Hv|]. apply is_addr_u256.
Qed.

(** What is hashed into a checkpoint determines the bridge identifier and
    every field of the validator set: two different sets never share a pre-image. *)
Lemma checkpoint_preimage_inj a a' id id' :
  wf_ValsetArgs a -> wf_ValsetArgs a' -> is_u256 id -> is_u256 id' ->
  checkpoint_preimage a id = checkpoint_preimage a' id' -> a = a' /\ id = id'.
Proof.
  intros Ha Ha' Hid Hid'. rewrite !checkpoint_preimage_words.
  intros Heq%abi_words_inj; [|by apply checkpoint_words_u256..].
  pose proof (wf_va_length _ Ha) as Hl. pose proof (wf_va_length _ Ha') as Hl'.
  simpl in Heq. injection Heq as -> Hn Hoff Hr Ht Hlen Hrest.
  apply Nat2Z.inj in Hlen. apply app_inj_1 in Hrest as [Hv Hrest]; [|done].
  injection Hrest as Hlen' Hp.
  destruct a, a'; simpl in *; by subst.
Qed.


(** ** Signature and power checks *)

(** Power of the entries that carry a signature ([v] is not zero). *)
Fixpoint signed_sum (powers v : list Z) : Z :=
  match powers, v with
  | p :: powers', vi :: v' => (if vi =? 0 then 0 else p) + signed_sum powers' v'
  | _, _ => 0
  end.

(** Power of the entries whose signature verifies. *)
Fixpoint verified_sum (validators : list Address) (powers v : list Z) (r s : list Hash)
    (h : Hash) : Z :=
  match validators, powers, v, r, s with
  | val :: vals', p :: powers', vi :: v', ri :: r', si :: s' =>
      (if negb (vi =? 0) && verifySig val h vi ri si then p else 0)
      + verified_sum vals' powers' v' r' s' h
  | _, _, _, _, _ => 0
  end.

Definition sum_powers (powers : list Z) : Z := foldr Z.add 0 powers.

(** What [submitBatch] asks of the token: the amounts to their destinations, minted when the
    token is one of Injective, and the fees to the sender. *)
Definition payments (native : bool) (token : Address) (amounts : list Z) (destinations : list Address)
  : list TokenOp :=
  zip_with (fun amt dst => if native then Mint token dst amt else SafeTransfer token dst amt)
    amounts destinations.

Definition batch_ops (c : Contract) (sender token : Address) (amounts : list Z)
    (destinations : list Address) (fees : list Z) : list TokenOp :=
  payments (bool_decide (token ∈ isInjectiveNativeToken c)) token amounts destinations ++
  (if 0 <? sum_powers fees then [SafeTransfer token sender (sum_powers fees)] else []).

(** Every entry that carries a signature carries a valid one. *)
Definition sigs_verify (validators : list Address) (v : list Z) (r s : list Hash) (h : Hash)
  : Prop :=
  forall i val vi ri si, validators !! i = Some val -> v !! i = Some vi -> r !! i = Some ri ->
    s !! i = Some si -> vi <> 0 -> verifySig val h vi ri si = true.

Lemma sigs_verify_cons val vi ri si validators v r s h :
  sigs_verify (val :: validators) (vi :: v) (ri :: r) (si :: s) h <->
  (vi <> 0 -> verifySig val h vi ri si = true) /\ sigs_verify validators v r s h.
Proof.
  unfold sigs_verify. split.
  - intros H. split; [by apply (H 0%nat)|]. intros i. apply (H (S i)).
  - intros [H0 H] [|i]; [by intros ???? [= <-] [= <-] [= <-] [= <-]|apply H].
Qed.

Lemma signed_sum_nonneg powers v : Forall (fun p => 0 <= p) powers -> 0 <= signed_sum powers v.
Proof.
  intros Hp. revert v. induction Hp as [|p powers Hp _ IH]; intros [|vi v]; simpl; try lia.
  specialize (IH v). destruct (vi =? 0); lia.
Qed.

Lemma add256_Some x y : x + y < 2 ^ 256 -> add256 x y = Some (x + y).
Proof. intros H. unfold add256. by rewrite (proj2 (Z.ltb_lt _ _) H). Qed.

(** Valid signatures of more than the threshold are accepted. *)
Lemma checkSignatures_accepts validators powers v r s h th cum :
  length validators = length powers -> length v = length powers ->
  length r = length powers -> length s = length powers ->
  sigs_verify validators v r s h -> Forall (fun p => 0 <= p) powers ->
  cum + signed_sum powers v < 2 ^ 256 -> th < cum + signed_sum powers v ->
  exists cum', checkSignatures validators powers v r s h th cum = Some cum' /\ th < cum'.
Proof.
  revert powers v r s cum.
  induction validators as [|val validators IH];
    intros [|p powers] [|vi v] [|ri r] [|si s] cum; try done.
  - intros _ _ _ _ _ _ _ H. exists cum. simpl in *. split; [done|lia].
  - intros [= H1] [= H2] [= H3] [= H4] [Hv Hvs]%sigs_verify_cons [Hp Hps]%Forall_cons.
    cbn [signed_sum checkSignatures]. pose proof (signed_sum_nonneg powers v Hps) as H0.
    destruct (Z.eqb_spec vi 0) as [->|Hne]; intros Hov Hth.
    + apply IH; auto; lia.
    + rewrite Hv by done. cbn [require mbind option_bind]. rewrite add256_Some by lia.
      cbn [mbind option_bind]. destruct (Z.ltb_spec th (cum + p)) as [Hc|Hc]; [eauto|].
      apply IH; auto; lia.
Qed.

(** Whatever is accepted was signed by more than the threshold. *)
Lemma checkSignatures_sound validators powers v r s h th cum cum' :
  Forall (fun p => 0 <= p) powers ->
  checkSignatures validators powers v r s h th cum = Some cum' ->
  cum' <= cum + verified_sum validators powers v r s h.
Proof.
  assert (forall validators powers v r s, Forall (fun p => 0 <= p) powers ->
            0 <= verified_sum validators powers v r s h) as Hnn.
  { clear. intros validators. induction validators as [|val validators IH];
      intros [|p powers] [|vi v] [|ri r] [|si s] H; simpl; try lia.
    apply Forall_cons in H as [Hp H]. specialize (IH powers v r s H).
    destruct (_ && _); lia. }
  revert powers v r s cum.
  induction validators as [|val validators IH];
    intros [|p powers] [|vi v] [|ri r] [|si s] cum Hps; simpl; try done;
    try (intros [= <-]; lia).
  apply Forall_cons in Hps as [Hp Hps]. destruct (vi =? 0); cbn [negb andb].
  { intros H%IH; [lia|done]. }
  destruct (verifySig val h vi ri si); simpl; [|done].
  unfold add256. destruct (cum + p <? 2 ^ 256); simpl; [|done].
  destruct (th <? cum + p).
  - intros [= <-]. specialize (Hnn validators powers v r s Hps). lia.
  - intros H%IH; [lia|done].
Qed.

Lemma validatePowers_accepts powers th cum :
  Forall (fun p => 0 <= p) powers -> cum + sum_powers powers < 2 ^ 256 ->
  th < cum + sum_powers powers ->
  exists cum', validatePowers powers th cum = Some cum' /\ th < cum'.
Proof.
  intros Hp. revert cum. induction Hp as [|p powers Hp Hps IH]; intros cum Hov Hth; simpl in *.
  - exists cum. split; [done|lia].
  - assert (0 <= foldr Z.add 0 powers) as H0.
    { clear - Hps. induction Hps; simpl; lia. }
    rewrite add256_Some by (unfold sum_powers in *; lia). simpl.
    destruct (Z.ltb_spec th (cum + p)); [eauto|]. apply IH; unfold sum_powers in *; lia.
Qed.

(** What [updateValset] and [submitBatch] ask of the signatures. *)
Record signatures_pass (a : ValsetArgs) (v : list Z) (r s : list Hash) (h : Hash) (th : Z)
  : Prop := {
  sp_powers : length (va_Powers a) = length (va_Validators a);
  sp_v : length v = length (va_Validators a);
  sp_r : length r = length (va_Validators a);
  sp_s : length s = length (va_Validators a);
  sp_verify : sigs_verify (va_Validators a) v r s h;
  sp_nonneg : Forall (fun p => 0 <= p) (va_Powers a);
  sp_bound : signed_sum (va_Powers a) v < 2 ^ 256;
  sp_threshold : th < signed_sum (va_Powers a) v
}.

Lemma signatures_pass_ok a v r s h th :
  signatures_pass a v r s h th ->
  wellFormedSigs a v r s = true /\
  checkValidatorSignatures (va_Validators a) (va_Powers a) v r s h th = Some tt.
Proof.
  intros [H1 H2 H3 H4 Hv Hp Hov Hth]. split.
  - unfold wellFormedSigs. by rewrite H1, H2, H3, H4, !Nat.eqb_refl.
  - unfold checkValidatorSignatures.
    destruct (checkSignatures_accepts (va_Validators a) (va_Powers a) v r s h th 0)
      as (cum & -> & Hc); try done; try congruence; try lia.
    simpl. unfold require. by rewrite (proj2 (Z.ltb_lt _ _) Hc).
Qed.

Lemma validateValidatorSet_ok a th :
  length (va_Powers a) = length (va_Validators a) -> Forall (fun p => 0 <= p) (va_Powers a) ->
  sum_powers (va_Powers a) < 2 ^ 256 -> th < sum_powers (va_Powers a) ->
  validateValidatorSet (va_Validators a) (va_Powers a) th = Some tt.
Proof.
  intros Hl Hp Hov Hth. unfold validateValidatorSet. rewrite Hl, Nat.eqb_refl. simpl.
  destruct (validatePowers_accepts (va_Powers a) th 0) as (cum & -> & Hc); [done|lia|lia|].
  simpl. unfold require. by rewrite (proj2 (Z.ltb_lt _ _) Hc).
Qed.

Lemma require_Some b u : require b = Some u -> b = true.
Proof. by destruct b. Qed.

Lemma require_bind {A} b (f : unit -> option A) x :
  (u ← require b; f u) = Some x -> b = true /\ f tt = Some x.
Proof. destruct b; by simpl. Qed.

(** ** The contract's guarantee *)

Lemma emit_Some mk c c' ev :
  emit mk c = Some (c', ev) ->
  ev = mk (state_lastEventNonce c') /\ state_lastEventNonce c' = state_lastEventNonce c + 1 /\
  state_lastValsetCheckpoint c' = state_lastValsetCheckpoint c /\
  state_lastBatchNonces c' = state_lastBatchNonces c /\
  state_lastValsetNonce c' = state_lastValsetNonce c /\
  state_peggyId c' = state_peggyId c /\ state_powerThreshold c' = state_powerThreshold c /\
  isInjectiveNativeToken c' = isInjectiveNativeToken c /\ paused c' = paused c.
Proof.
  unfold emit, add256. destruct (_ <? _); simpl; [|done]. by intros [= <- <-].
Qed.

(** What the checks of the two calls ask, and what they write. *)
Lemma updateValset_checks_Some sender new cur v r s c c' ops :
  updateValset_checks sender new cur v r s c = Some (c', ops) ->
  va_ValsetNonce cur < va_ValsetNonce new /\
  makeCheckpoint cur (state_peggyId c) = state_lastValsetCheckpoint c /\
  (Forall (fun p => 0 <= p) (va_Powers cur) ->
   state_powerThreshold c <
     verified_sum (va_Validators cur) (va_Powers cur) v r s (makeCheckpoint new (state_peggyId c))) /\
  c' = MkContract (makeCheckpoint new (state_peggyId c)) (state_lastBatchNonces c) (va_ValsetNonce new)
         (state_lastEventNonce c) (state_peggyId c) (state_powerThreshold c)
         (isInjectiveNativeToken c) (paused c).
Proof.
  unfold updateValset_checks.
  intros (_ & [Hn%Z.ltb_lt (_ & (limit & _ & [_ [Hc%Z.eqb_eq H]%require_bind]%require_bind)%bind_Some)%require_bind]%require_bind)%require_bind.
  apply bind_Some in H as (u & Hsig & (_ & _ & [= <- _])%bind_Some).
  apply bind_Some in Hsig as (cum & Hcum & Hth%require_Some%Z.ltb_lt).
  split; [done|]. split; [done|]. split; [|done]. intros Hp.
  apply checkSignatures_sound in Hcum; [lia|done].
Qed.

Lemma submitBatch_checks_Some sender bn cur v r s amounts dests fees nonce token timeout c c' ops :
  submitBatch_checks sender bn cur v r s amounts dests fees nonce token timeout c = Some (c', ops) ->
  lastBatchNonce c token < nonce /\ bn < timeout /\
  makeCheckpoint cur (state_peggyId c) = state_lastValsetCheckpoint c /\
  (Forall (fun p => 0 <= p) (va_Powers cur) ->
   state_powerThreshold c <
     verified_sum (va_Validators cur) (va_Powers cur) v r s
       (batchHash (state_peggyId c) amounts dests fees nonce token timeout)) /\
  c' = MkContract (state_lastValsetCheckpoint c) (<[token := nonce]> (state_lastBatchNonces c))
         (state_lastValsetNonce c) (state_lastEventNonce c) (state_peggyId c) (state_powerThreshold c)
         (isInjectiveNativeToken c) (paused c).
Proof.
  unfold submitBatch_checks.
  intros (_ & [Hn%Z.ltb_lt (limit & _ & [_ [Ht%Z.ltb_lt (_ & [Hc%Z.eqb_eq [_ H]%require_bind]%require_bind)%require_bind]%require_bind]%require_bind)%bind_Some]%require_bind)%require_bind.
  apply bind_Some in H as (u & Hsig & ([trs fee] & _ & [= <- _])%bind_Some).
  apply bind_Some in Hsig as (cum & Hcum & Hth%require_Some%Z.ltb_lt).
  split; [done|]. split; [done|]. split; [done|]. split; [|done]. intros Hp.
  apply checkSignatures_sound in Hcum; [lia|done].
Qed.

(** C10: [updateValset] succeeds only with a newer nonce, for the recorded
    checkpoint, and with valid signatures over the new checkpoint of more than
    [state_powerThreshold] of the current set's power; it then records the new
    checkpoint and nonce and leaves the batch nonces alone. *)
Theorem updateValset_sound ok sender new cur v r s c c' ops ev :
  Forall (fun p => 0 <= p) (va_Powers cur) ->
  updateValset ok sender new cur v r s c = Some (c', ops, ev) ->
  va_ValsetNonce cur < va_ValsetNonce new /\
  makeCheckpoint cur (state_peggyId c) = state_lastValsetCheckpoint c /\
  state_powerThreshold c <
    verified_sum (va_Validators cur) (va_Powers cur) v r s (makeCheckpoint new (state_peggyId c)) /\
  state_lastValsetCheckpoint c' = makeCheckpoint new (state_peggyId c) /\
  state_lastValsetNonce c' = va_ValsetNonce new /\
  state_lastBatchNonces c' = state_lastBatchNonces c /\
  state_peggyId c' = state_peggyId c.
Proof.
  intros Hp. unfold updateValset.
  intros ([c1 ops1] & Hchk & [_ ([c2 ev1] & Hem & [= <- _ _])%bind_Some]%require_bind)%bind_Some.
  apply updateValset_checks_Some in Hchk as (Hn & Hc & Hth & ->). specialize (Hth Hp).
  apply emit_Some in Hem as (_ & _ & -> & -> & -> & -> & _). done.
Qed.

(** C11: [submitBatch] succeeds only for a newer batch nonce of the token, before
    the timeout, with valid signatures over the batch hash of more than
    [state_powerThreshold] of the recorded set's power; it then records the batch
    nonce and keeps the checkpoint. *)
Theorem submitBatch_sound ok sender bn cur v r s amounts dests fees nonce token timeout c c' ops ev :
  Forall (fun p => 0 <= p) (va_Powers cur) ->
  submitBatch ok sender bn cur v r s amounts dests fees nonce token timeout c = Some (c', ops, ev) ->
  lastBatchNonce c token < nonce /\ bn < timeout /\
  makeCheckpoint cur (state_peggyId c) = state_lastValsetCheckpoint c /\
  state_powerThreshold c <
    verified_sum (va_Validators cur) (va_Powers cur) v r s
      (batchHash (state_peggyId c) amounts dests fees nonce token timeout) /\
  lastBatchNonce c' token = nonce /\
  state_lastValsetCheckpoint c' = state_lastValsetCheckpoint c.
Proof.
  intros Hp. unfold submitBatch.
  intros ([c1 ops1] & Hchk & [_ ([c2 ev1] & Hem & [= <- _ _])%bind_Some]%require_bind)%bind_Some.
  apply submitBatch_checks_Some in Hchk as (Hn & Ht & Hc & Hth & ->). specialize (Hth Hp).
  apply emit_Some in Hem as (_ & _ & -> & Hb & _).
  unfold lastBatchNonce at 2. rewrite Hb. cbn. by rewrite lookup_insert_eq.
Qed.

End contract.
