(* ===== verification/PeggyState.v ===== *)
(** * PeggyState: the bridge contract over time (solidity/contracts/Peggy.sol)

    Every external function of the contract, its owner and its pause and re-entrancy
    flags.  A call runs in two parts: [before] up to the calls of token contracts and
    [after] from there on.  A token contract may call the bridge back, so that other
    calls can run between the two parts ([exec_call] and [callbacks]); a call that
    reverts leaves no trace.  [transact] is the execution without callbacks. *)
From S2P Require Import Prelude Types External PeggySol.

(** ** State and environment *)

(** [Peggy] with its base contracts [OwnableUpgradeableWithExpiry], [Initializable] and
    [ReentrancyGuard]. *)
Record Peggy : Type := MkPeggy {
  core : Contract;
  owner : Address;
  deployTimestamp : Z;
  initialized : bool;
  entered : bool
}.

(** What a call sees of its transaction and block; [created] is the address at which it
    would create a contract. *)
Record msg : Type := MkMsg {
  msg_sender : Address;
  this : Address;
  block_number : Z;
  block_timestamp : Z;
  created : Address
}.

(** The balances of the bridge around a [safeTransferFrom]. *)
Record received : Type := MkReceived { balanceBefore : Z; balanceAfter : Z }.

(** The answers of the token contracts in a call: whether they accept what the call asks of
    them (when one of the transfers fails, the call of the bridge reverts), and the balances. *)
Record tokens : Type := MkTokens { tokenOk : list TokenOp -> bool; balances : received }.

Inductive contract_call : Type :=
  | Initialize (peggyId : Hash) (powerThreshold : Z) (validators : list Address) (powers : list Z)
  | UpdateValset (newValset currentValset : ValsetArgs) (v : list Z) (r s : list Hash)
  | SubmitBatch (currentValset : ValsetArgs) (v : list Z) (r s : list Hash) (amounts : list Z)
      (destinations : list Address) (fees : list Z) (batchNonce : Z) (token : Address)
      (batchTimeout : Z)
  | SendToInjective (token : Address) (destination : Hash) (amount : Z) (data : string)
  | DeployERC20 (cosmosDenom name symbol : string) (decimals : Z)
  | EmergencyPause
  | EmergencyUnpause
  | RenounceOwnership
  | TransferOwnership (newOwner : Address)
  | RenounceOwnershipAfterExpiry.

(** What is left to do when the token contracts return. *)
Inductive frame : Type :=
  | Finished
  | Emits (guarded : bool) (mk : received -> option (Z -> ContractEvent)).

Definition with_core (p : Peggy) (c : Contract) : Peggy :=
  MkPeggy c (owner p) (deployTimestamp p) (initialized p) (entered p).
Definition with_entered (p : Peggy) (b : bool) : Peggy :=
  MkPeggy (core p) (owner p) (deployTimestamp p) (initialized p) b.
Definition with_owner (p : Peggy) (a : Address) : Peggy :=
  MkPeggy (core p) a (deployTimestamp p) (initialized p) (entered p).
Definition with_paused (p : Peggy) (b : bool) : Peggy :=
  let c := core p in
  with_core p (MkContract (state_lastValsetCheckpoint c) (state_lastBatchNonces c)
    (state_lastValsetNonce c) (state_lastEventNonce c) (state_peggyId c) (state_powerThreshold c)
    (isInjectiveNativeToken c) b).

(** The storage of a contract that has just been deployed. *)
Definition blank : Peggy := MkPeggy (MkContract 0 ∅ 0 0 0 0 ∅ false) 0 0 false false.

Section contract.
Context {GE : Geth} {EV : Evm}.

(** ** Ownership *)
Definition onlyOwner (m : msg) (p : Peggy) : option unit := require (owner p =? msg_sender m).
Definition getOwnershipExpiryTimestamp (p : Peggy) : option Z :=
  add256 (deployTimestamp p) (82 * 7 * 24 * 60 * 60).
Definition isOwnershipExpired (m : msg) (p : Peggy) : option bool :=
  expiry ← getOwnershipExpiryTimestamp p; Some (expiry <? block_timestamp m).

(** ** The external functions *)
Definition initialize (m : msg) (peggyId : Hash) (powerThreshold : Z) (validators : list Address)
    (powers : list Z) (p : Peggy) : option (Peggy * list TokenOp * frame) :=
  _ ← require (negb (initialized p));
  _ ← validateValidatorSet validators powers powerThreshold;
  let valset := MkValsetArgs validators powers 0 0 0 in
  let c := core p in
  Some (MkPeggy (MkContract (makeCheckpoint valset peggyId) (state_lastBatchNonces c)
                   (state_lastValsetNonce c) (state_lastEventNonce c) peggyId powerThreshold
                   (isInjectiveNativeToken c) (paused c))
          (msg_sender m) (block_timestamp m) true (entered p),
        [], Emits false (fun _ => Some (fun n => EvValsetUpdated (state_lastValsetNonce c) n 0 0 validators powers))).

Definition sendToInjective (m : msg) (token : Address) (destination : Hash) (amount : Z) (data : string)
    (p : Peggy) : option (Peggy * list TokenOp * frame) :=
  _ ← require (negb (paused (core p)));
  _ ← require (negb (entered p));
  let event transferAmount n := EvSendToInjective token (msg_sender m) destination transferAmount n data in
  Some (if bool_decide (token ∈ isInjectiveNativeToken (core p))
        then (with_entered p true, [Burn token (msg_sender m) amount],
              Emits true (fun _ => Some (event amount)))
        else (with_entered p true, [SafeTransferFrom token (msg_sender m) (this m) amount],
              Emits true (fun b => _ ← require (balanceBefore b <=? balanceAfter b);
                                   Some (event (balanceAfter b - balanceBefore b))))).

Definition deployERC20 (m : msg) (cosmosDenom name symbol : string) (decimals : Z) (p : Peggy)
  : option (Peggy * list TokenOp * frame) :=
  let c := core p in
  Some (with_core p (MkContract (state_lastValsetCheckpoint c) (state_lastBatchNonces c)
          (state_lastValsetNonce c) (state_lastEventNonce c) (state_peggyId c) (state_powerThreshold c)
          ({[ created m ]} ∪ isInjectiveNativeToken c) (paused c)),
        [], Emits false (fun _ => Some (fun n => EvERC20Deployed cosmosDenom (created m) name symbol decimals n))).

(** A function up to its calls of token contracts. *)
Definition before (m : msg) (k : contract_call) (p : Peggy) : option (Peggy * list TokenOp * frame) :=
  match k with
  | Initialize peggyId th validators powers => initialize m peggyId th validators powers p
  | UpdateValset new cur v r s =>
      '(c, ops) ← updateValset_checks (msg_sender m) new cur v r s (core p);
      Some (with_core p c, ops, Emits false (fun _ => Some (valset_event new)))
  | SubmitBatch cur v r s amounts dests fees nonce token timeout =>
      _ ← require (negb (entered p));
      '(c, ops) ← submitBatch_checks (msg_sender m) (block_number m) cur v r s amounts dests fees nonce
                    token timeout (core p);
      Some (with_entered (with_core p c) true, ops, Emits true (fun _ => Some (EvBatchExecuted nonce token)))
  | SendToInjective token destination amount data => sendToInjective m token destination amount data p
  | DeployERC20 cosmosDenom name symbol decimals => deployERC20 m cosmosDenom name symbol decimals p
  | EmergencyPause =>
      _ ← onlyOwner m p; _ ← require (negb (paused (core p))); Some (with_paused p true, [], Finished)
  | EmergencyUnpause =>
      _ ← onlyOwner m p; _ ← require (paused (core p)); Some (with_paused p false, [], Finished)
  | RenounceOwnership => _ ← onlyOwner m p; Some (with_owner p 0, [], Finished)
  | TransferOwnership newOwner =>
      _ ← onlyOwner m p; _ ← require (negb (newOwner =? 0)); Some (with_owner p newOwner, [], Finished)
  | RenounceOwnershipAfterExpiry =>
      expired ← isOwnershipExpired m p; _ ← require expired; Some (with_owner p 0, [], Finished)
  end.

(** The rest of a function: the event, and the release of the re-entrancy guard. *)
Definition after (fr : frame) (b : received) (p : Peggy) : option (Peggy * list ContractEvent) :=
  match fr with
  | Finished => Some (p, [])
  | Emits guarded mk =>
      mk ← mk b;
      '(c, ev) ← emit mk (core p);
      let p := with_core p c in
      Some (if guarded : bool then with_entered p false else p, [ev])
  end.

(** ** Execution *)

(** A call with callbacks by the token contracts that it calls. *)
Inductive exec_call : msg -> contract_call -> Peggy -> Peggy -> list ContractEvent -> Prop :=
  | exec_call_intro m k p p1 ops fr evs p2 t p3 ev :
      before m k p = Some (p1, ops, fr) ->
      tokenOk t ops = true ->
      callbacks ops p1 p2 evs ->
      after fr (balances t) p2 = Some (p3, ev) ->
      exec_call m k p p3 (evs ++ ev)
with callbacks : list TokenOp -> Peggy -> Peggy -> list ContractEvent -> Prop :=
  | callbacks_none ops p : callbacks ops p p []
  | callbacks_call op ops m k p p1 p2 evs1 evs2 :
      exec_call m k p p1 evs1 -> callbacks (op :: ops) p1 p2 evs2 ->
      callbacks (op :: ops) p p2 (evs1 ++ evs2).

Scheme exec_call_mind := Induction for exec_call Sort Prop
  with callbacks_mind := Induction for callbacks Sort Prop.
Combined Scheme exec_call_callbacks_ind from exec_call_mind, callbacks_mind.

(** The states of the contract since it was deployed, with all its events. *)
Inductive reachable : Peggy -> list ContractEvent -> Prop :=
  | reachable_deployed : reachable blank []
  | reachable_call p log m k p' evs :
      reachable p log -> exec_call m k p p' evs -> reachable p' (log ++ evs).

(** Without callbacks. *)
Definition transact (m : msg) (t : tokens) (k : contract_call) (p : Peggy)
  : option (Peggy * list TokenOp * list ContractEvent) :=
  '(p, ops, fr) ← before m k p;
  _ ← require (tokenOk t ops);
  '(p, evs) ← after fr (balances t) p;
  Some (p, ops, evs).

Lemma transact_Some m t k p p' ops evs :
  transact m t k p = Some (p', ops, evs) ->
  exists p1 fr, before m k p = Some (p1, ops, fr) /\ tokenOk t ops = true /\
    after fr (balances t) p1 = Some (p', evs).
Proof.
  unfold transact. intros ([[p1 ops1] fr] & Hb & [Hok ([p2 evs'] & Ha & [= <- <- <-])%bind_Some]%require_bind)%bind_Some.
  by exists p1, fr.
Qed.

Lemma transact_exec m t k p p' ops evs :
  transact m t k p = Some (p', ops, evs) -> exec_call m k p p' evs.
Proof.
  intros (p1 & fr & Hb & Hok & Ha)%transact_Some.
  apply (exec_call_intro m k p p1 ops fr [] p1 t p' evs Hb Hok); [constructor|done].
Qed.

(** The two calls of the relayer are those of [PeggySol.v]. *)
Definition on_core (p : Peggy) (r : Contract * list TokenOp * ContractEvent)
  : Peggy * list TokenOp * list ContractEvent :=
  let '(c, ops, ev) := r in (with_core p c, ops, [ev]).

Lemma transact_UpdateValset m t new cur v r s p :
  transact m t (UpdateValset new cur v r s) p =
  on_core p <$> updateValset (tokenOk t) (msg_sender m) new cur v r s (core p).
Proof.
  unfold updateValset, transact, before. destruct (updateValset_checks _ _ _ _ _ _ _) as [[c ops]|]; [|done].
  cbn. destruct (tokenOk t ops); [|done]. cbn. by destruct (emit _ c) as [[c' ev]|].
Qed.

Lemma transact_SubmitBatch m t cur v r s amounts dests fees nonce token timeout p :
  entered p = false ->
  transact m t (SubmitBatch cur v r s amounts dests fees nonce token timeout) p =
  on_core p <$> submitBatch (tokenOk t) (msg_sender m) (block_number m) cur v r s amounts dests fees nonce
                  token timeout (core p).
Proof.
  unfold submitBatch, transact, before. intros Hent. rewrite Hent. cbn [negb require mbind option_bind].
  destruct (submitBatch_checks _ _ _ _ _ _ _ _ _ _ _ _ _) as [[c ops]|]; [|done].
  cbn. destruct (tokenOk t ops); [|done]. cbn. destruct (emit _ c) as [[c' ev]|]; [|done].
  unfold on_core, with_core, with_entered. cbn. by rewrite <- Hent.
Qed.
End contract.
