(* ===== verification/PeggyStateFacts.v ===== *)
(** * PeggyStateFacts: what holds of the bridge contract over all its calls

    The theorems about [reachable] states hold whatever the token contracts call back. *)
From S2P Require Import Prelude Types External Model PeggySol PeggyState.

(** ** Events *)
Definition event_nonce (ev : ContractEvent) : Z :=
  match ev with
  | EvValsetUpdated _ n _ _ _ _ | EvBatchExecuted _ _ n | EvSendToInjective _ _ _ _ n _
  | EvERC20Deployed _ _ _ _ _ n => n
  end.

(** The nonces of the batches of a token, in the order of the log. *)
Definition batch_nonces (token : Address) (log : list ContractEvent) : list Z :=
  omap (fun ev => match ev with
                  | EvBatchExecuted n t _ => if t =? token then Some n else None
                  | _ => None
                  end) log.

Definition is_valset_event (ev : ContractEvent) : bool :=
  if ev is EvValsetUpdated _ _ _ _ _ _ then true else false.

Definition nonce_of (p : Peggy) : Z := state_lastEventNonce (core p).
Definition batch_nonce_of (p : Peggy) (token : Address) : Z := lastBatchNonce (core p) token.

Section facts.
Context {GE : Geth} {EV : Evm}.

(** Take apart a successful [before]. *)
Ltac invert_before H :=
  cbn in H; unfold initialize, sendToInjective, deployERC20, onlyOwner, isOwnershipExpired in H;
  repeat match type of H with
  | (_ ← require _; _) = Some _ => apply require_bind in H as [? H]
  | (_ ≫= _) = Some _ => let c := fresh "c" in apply bind_Some in H as (c & ? & H)
  | (let '(_, _) := ?c in _) = Some _ => destruct c
  | (if ?b then _ else _) = Some _ => destruct b eqn:?
  end;
  try case_match; injection H as H; subst.

(** ** Event nonces *)

(** The events of a frame carry the nonce that they are given. *)
Definition frame_nonce (fr : frame) : Prop :=
  match fr with
  | Finished => True
  | Emits _ mk => forall b f n, mk b = Some f -> event_nonce (f n) = n
  end.

Lemma before_nonce m k p p1 ops fr :
  before m k p = Some (p1, ops, fr) -> nonce_of p1 = nonce_of p /\ frame_nonce fr.
Proof.
  unfold nonce_of, frame_nonce. intros H. destruct k; invert_before H; cbn;
    repeat match goal with
    | H : updateValset_checks _ _ _ _ _ _ _ = Some _ |- _ =>
        apply updateValset_checks_Some in H as (_ & _ & _ & ->)
    | H : submitBatch_checks _ _ _ _ _ _ _ _ _ _ _ _ _ = Some _ |- _ =>
        apply submitBatch_checks_Some in H as (_ & _ & _ & _ & ->)
    end; cbn; split; try done; intros b f n.
  all: try by intros [= <-].
  by intros [_ [= <-]]%require_bind.
Qed.

Lemma after_nonce fr b p p' evs :
  frame_nonce fr -> after fr b p = Some (p', evs) ->
  map event_nonce evs = seqZ (nonce_of p + 1) (Z.of_nat (length evs)) /\
  nonce_of p' = nonce_of p + Z.of_nat (length evs).
Proof.
  destruct fr as [|g mk]; cbn; [intros _ [= <- <-]; cbn; split; [done|lia]|].
  intros Hfr (f & Hf & ([c ev] & He & [= <- <-])%bind_Some)%bind_Some.
  apply emit_Some in He as (-> & Hn & _). unfold nonce_of. cbn [map length].
  rewrite (Hfr _ _ _ Hf), Hn. split; [done|]. destruct g; cbn; lia.
Qed.

(** Consecutive nonces of consecutive parts of a log. *)
Definition numbered (p p' : Peggy) (evs : list ContractEvent) : Prop :=
  map event_nonce evs = seqZ (nonce_of p + 1) (Z.of_nat (length evs)) /\
  nonce_of p' = nonce_of p + Z.of_nat (length evs).

Lemma numbered_nil p : numbered p p [].
Proof. split; [done|]. cbn. lia. Qed.

Lemma numbered_app p p1 p2 evs1 evs2 :
  numbered p p1 evs1 -> numbered p1 p2 evs2 -> numbered p p2 (evs1 ++ evs2).
Proof.
  intros [H1 Hn1] [H2 Hn2]. unfold numbered. rewrite map_app, H1, H2, length_app, Nat2Z.inj_add.
  rewrite seqZ_app by lia. split; [|lia]. do 2 f_equal. lia.
Qed.

Lemma exec_numbered :
  (forall m k p p' evs, exec_call m k p p' evs -> numbered p p' evs) /\
  (forall ops p p' evs, callbacks ops p p' evs -> numbered p p' evs).
Proof.
  apply exec_call_callbacks_ind.
  - intros m k p p1 ops fr evs p2 t p3 ev Hb _ _ IH Ha.
    apply before_nonce in Hb as [Hn Hfr]. apply (numbered_app p p2).
    + unfold numbered in *. by rewrite <- Hn.
    + by eapply after_nonce.
  - intros ops p. apply numbered_nil.
  - intros op ops m k p p1 p2 evs1 evs2 _ IH1 _ IH2. by eapply numbered_app.
Qed.

Lemma reachable_numbered p log :
  reachable p log -> map event_nonce log = seqZ 1 (state_lastEventNonce (core p)).
Proof.
  intros Hr. assert (numbered blank p log) as [H Hn].
  { induction Hr as [|p log m k p' evs _ IH He]; [apply numbered_nil|].
    eapply numbered_app; [exact IH|]. by apply (proj1 exec_numbered m k). }
  unfold nonce_of in *. cbn in H, Hn. by rewrite Hn, H.
Qed.

(** C7: the events of the bridge are numbered without gaps: whatever calls are made and
    whatever the token contracts call back, the nonces of the log are 1, 2, 3, ... up to
    the contract's last event nonce.  This is what the claims of the oracle rely on. *)
Theorem event_nonces_consecutive p log :
  reachable p log -> map event_nonce log = seqZ 1 (state_lastEventNonce (core p)).
Proof. apply reachable_numbered. Qed.

(** ** Batches *)

(** What the first part of a call does to the batches: nothing, with or without taking the
    re-entrancy guard, or it records the next batch under the guard. *)
Inductive batch_begin (p p1 : Peggy) : frame -> Prop :=
  | bb_free fr :
      entered p1 = entered p -> state_lastBatchNonces (core p1) = state_lastBatchNonces (core p) ->
      match fr with
      | Finished => True
      | Emits g mk => g = false /\ forall b f n t, mk b = Some f -> batch_nonces t [f n] = []
      end ->
      batch_begin p p1 fr
  | bb_guarded mk :
      entered p = false -> entered p1 = true ->
      state_lastBatchNonces (core p1) = state_lastBatchNonces (core p) ->
      (forall b f n t, mk b = Some f -> batch_nonces t [f n] = []) ->
      batch_begin p p1 (Emits true mk)
  | bb_batch nonce token :
      entered p = false -> entered p1 = true ->
      state_lastBatchNonces (core p1) = <[token := nonce]> (state_lastBatchNonces (core p)) ->
      batch_nonce_of p token < nonce ->
      batch_begin p p1 (Emits true (fun _ => Some (EvBatchExecuted nonce token))).

Lemma before_batch m k p p1 ops fr : before m k p = Some (p1, ops, fr) -> batch_begin p p1 fr.
Proof.
  intros H. destruct k; invert_before H; cbn;
    repeat match goal with
    | H : updateValset_checks _ _ _ _ _ _ _ = Some _ |- _ =>
        apply updateValset_checks_Some in H as (_ & _ & _ & ->)
    | H : negb _ = true |- _ => apply negb_true_iff in H
    end.
  all: try (by apply bb_free);
    try (apply bb_free; [done|done|split; [done|]; by intros b f n t [= <-]]).
  - match goal with H : submitBatch_checks _ _ _ _ _ _ _ _ _ _ _ _ _ = Some _ |- _ =>
      apply submitBatch_checks_Some in H as (Hn & _ & _ & _ & ->) end.
    by apply bb_batch.
  - apply bb_guarded; [done..|]. by intros b f n t [= <-].
  - apply bb_guarded; [done..|]. by intros b f n t [_ [= <-]]%require_bind.
Qed.

(** The batches of a token in a part of a log, between two states: increasing nonces, above
    the recorded nonce before and up to the one after; none while the guard is taken. *)
Definition batches_between (token : Address) (p p' : Peggy) (evs : list ContractEvent) : Prop :=
  let old := batch_nonce_of p token in let new := batch_nonce_of p' token in
  entered p' = entered p /\ old <= new /\
  StronglySorted Z.lt (batch_nonces token evs) /\
  Forall (fun n => old < n <= new) (batch_nonces token evs) /\
  (entered p = true -> batch_nonces token evs = [] /\ new = old).

Lemma batch_nonces_app token l l' : batch_nonces token (l ++ l') = batch_nonces token l ++ batch_nonces token l'.
Proof. apply omap_app. Qed.

Lemma StronglySorted_app_lt l l' x :
  StronglySorted Z.lt l -> StronglySorted Z.lt l' ->
  Forall (fun n => n <= x) l -> Forall (fun n => x < n) l' -> StronglySorted Z.lt (l ++ l').
Proof.
  intros Hl Hl' Hx Hx'. induction Hl as [|n l _ IH Hn]; [done|]. apply Forall_cons in Hx as [Hnx Hx].
  cbn. constructor; [by apply IH|]. apply Forall_app. split; [done|].
  eapply Forall_impl; [exact Hx'|]. cbn. lia.
Qed.

Lemma batches_between_nil token p p' :
  entered p' = entered p -> state_lastBatchNonces (core p') = state_lastBatchNonces (core p) ->
  forall evs, batch_nonces token evs = [] -> batches_between token p p' evs.
Proof.
  intros He Hb evs Hn. unfold batches_between, batch_nonce_of, lastBatchNonce. rewrite Hb, Hn, He.
  repeat split; try done; try constructor; lia.
Qed.

Lemma batches_between_app token p p1 p2 evs1 evs2 :
  batches_between token p p1 evs1 -> batches_between token p1 p2 evs2 ->
  batches_between token p p2 (evs1 ++ evs2).
Proof.
  intros (He1 & Hle1 & Hs1 & Hf1 & Hg1) (He2 & Hle2 & Hs2 & Hf2 & Hg2).
  unfold batches_between. rewrite batch_nonces_app. split; [congruence|]. split; [lia|]. split; [|split].
  - apply (StronglySorted_app_lt _ _ (batch_nonce_of p1 token)); try done.
    + eapply Forall_impl; [exact Hf1|]. cbn. lia.
    + eapply Forall_impl; [exact Hf2|]. cbn. lia.
  - apply Forall_app. split; (eapply Forall_impl; [eassumption|]); cbn; lia.
  - intros Hg. destruct (Hg1 Hg) as [-> Hn1]. destruct Hg2 as [-> Hn2]; [congruence|]. split; [done|lia].
Qed.

(** What the second part does, for a frame of the first. *)
Lemma after_batch token p p1 p2 fr b p3 ev :
  batch_begin p p1 fr -> after fr b p2 = Some (p3, ev) ->
  forall evs, batches_between token p1 p2 evs -> batches_between token p p3 (evs ++ ev).
Proof.
  intros Hb Ha evs Hev. destruct Hb as [fr He Hs Hfr|mk He He1 Hs Hmk|nonce t He He1 Hs Hlt].
  - apply (batches_between_app token p p1 p3 [] (evs ++ ev)); [by apply batches_between_nil|].
    eapply batches_between_app; [exact Hev|]. destruct fr as [|g mk]; cbn in Ha.
    { injection Ha as <- <-. by apply batches_between_nil. }
    destruct Hfr as [-> Hmk].
    apply bind_Some in Ha as (f & Hf & ([c e] & (-> & _ & _ & Hb & _)%emit_Some & [= <- <-])%bind_Some).
    apply batches_between_nil; [done|done|by eapply Hmk].
  - cbn in Ha. apply bind_Some in Ha as (f & Hf & ([c e] & (-> & _ & _ & Hb & _)%emit_Some & [= <- <-])%bind_Some).
    destruct Hev as (He2 & _ & _ & _ & Hg). destruct (Hg He1) as [Hnil Hn].
    unfold batches_between, batch_nonce_of, lastBatchNonce in *. rewrite batch_nonces_app, Hnil. cbn [core with_entered with_core].
    rewrite Hb, Hn, Hs, (Hmk _ _ _ _ Hf). cbn. rewrite He. repeat split; try done; try constructor; lia.
  - cbn in Ha. apply bind_Some in Ha as ([c e] & (-> & _ & _ & Hb & _)%emit_Some & [= <- <-]).
    destruct Hev as (He2 & _ & _ & _ & Hg). destruct (Hg He1) as [Hnil Hn].
    unfold batches_between, batch_nonce_of, lastBatchNonce in *. rewrite batch_nonces_app, Hnil.
    cbn [core with_entered with_core entered]. rewrite Hb, Hn, Hs, He. cbn [app batch_nonces omap list_omap].
    destruct (Z.eqb_spec t token) as [->|Hne].
    + rewrite lookup_insert_eq. simpl. repeat split; try done; try lia; repeat constructor; lia.
    + rewrite lookup_insert_ne by done. simpl. repeat split; try done; try lia; constructor.
Qed.

Lemma exec_batches token :
  (forall m k p p' evs, exec_call m k p p' evs -> batches_between token p p' evs) /\
  (forall ops p p' evs, callbacks ops p p' evs -> batches_between token p p' evs).
Proof.
  apply exec_call_callbacks_ind.
  - intros m k p p1 ops fr evs p2 t p3 ev Hb%before_batch _ _ IH Ha. by eapply after_batch.
  - intros ops p. by apply batches_between_nil.
  - intros op ops m k p p1 p2 evs1 evs2 _ IH1 _ IH2. by eapply batches_between_app.
Qed.

(** C6: no batch is executed twice: in every reachable log, whatever the token contracts call
    back, the batch nonces of each token strictly increase and the last is the recorded one
    or below it. *)
Theorem batches_executed_once p log token :
  reachable p log ->
  StronglySorted Z.lt (batch_nonces token log) /\
  Forall (fun n => 0 < n <= lastBatchNonce (core p) token) (batch_nonces token log).
Proof.
  intros Hr. assert (batches_between token blank p log) as (_ & _ & Hs & Hf & _).
  { induction Hr as [|p log m k p' evs _ IH He]; [by apply batches_between_nil|].
    eapply batches_between_app; [exact IH|]. by apply (proj1 (exec_batches token) m k). }
  by split.
Qed.

(** ** The current validator set *)

(** The contract since its initialization, without callbacks. *)
Inductive history : Peggy -> list ContractEvent -> Prop :=
  | history_init m t id th validators powers p ops evs :
      transact m t (Initialize id th validators powers) blank = Some (p, ops, evs) -> history p evs
  | history_call m t k p log p' ops evs :
      history p log -> transact m t k p = Some (p', ops, evs) -> history p' (log ++ evs).

Lemma history_reachable p log : history p log -> reachable p log.
Proof.
  induction 1 as [m b id th vals pows p ops evs H|m b k p log p' ops evs _ IH H].
  - apply (reachable_call blank [] m (Initialize id th vals pows) p evs reachable_deployed).
    by eapply transact_exec.
  - eapply reachable_call; [exact IH|]. by eapply transact_exec.
Qed.

(** The last [ValsetUpdatedEvent] of the log. *)
Definition last_valset (log : list ContractEvent) : option ContractEvent :=
  last (base.filter (fun ev => is_valset_event ev = true) log).

Definition valset_current (p : Peggy) (log : list ContractEvent) : Prop :=
  initialized p = true /\
  exists a n, last_valset log = Some (valset_event a n) /\
    state_lastValsetCheckpoint (core p) = makeCheckpoint a (state_peggyId (core p)) /\
    state_lastValsetNonce (core p) = va_ValsetNonce a.

Lemma last_valset_app log evs :
  last_valset (log ++ evs) = match last_valset evs with Some ev => Some ev | None => last_valset log end.
Proof. unfold last_valset. rewrite filter_app, last_app. by destruct (last _). Qed.

(** An accepted [updateValset] emits the event of the new set and stores its checkpoint; any
    other call leaves the validator set, and emits no event of one. *)
Lemma transact_valset m t k p p' ops evs :
  transact m t k p = Some (p', ops, evs) -> initialized p = true ->
  initialized p' = true /\ state_peggyId (core p') = state_peggyId (core p) /\
  ((exists new cur v r s n, k = UpdateValset new cur v r s /\ evs = [valset_event new n] /\
     va_ValsetNonce cur < va_ValsetNonce new /\
     makeCheckpoint cur (state_peggyId (core p)) = state_lastValsetCheckpoint (core p) /\
     state_lastValsetCheckpoint (core p') = makeCheckpoint new (state_peggyId (core p')) /\
     state_lastValsetNonce (core p') = va_ValsetNonce new) \/
   (base.filter (fun ev => is_valset_event ev = true) evs = [] /\
    state_lastValsetCheckpoint (core p') = state_lastValsetCheckpoint (core p) /\
    state_lastValsetNonce (core p') = state_lastValsetNonce (core p))).
Proof.
  intros (p1 & fr & Hb & _ & Ha)%transact_Some Hi.
  destruct k; invert_before Hb; cbn in Ha;
    repeat match goal with
    | H : updateValset_checks _ _ _ _ _ _ _ = Some _ |- _ =>
        apply updateValset_checks_Some in H as (Hlt & Hcur & _ & ->)
    | H : submitBatch_checks _ _ _ _ _ _ _ _ _ _ _ _ _ = Some _ |- _ =>
        apply submitBatch_checks_Some in H as (_ & _ & _ & _ & ->)
    | H : negb (initialized _) = true |- _ => by rewrite Hi in H
    | H : Some _ = Some _ |- _ => injection H as <- <-
    | H : ((_ ← require _; Some _) ≫= _) = Some _ |- _ =>
        apply bind_Some in H as (? & [_ [= <-]]%require_bind & H)
    | H : (_ ≫= _) = Some _ |- _ =>
        let c := fresh "c" in let ev := fresh "ev" in
        apply bind_Some in H as ([c ev] & (-> & _ & Hc & _ & Hn & Hid & _)%emit_Some & [= <- <-])
    end.
  all: try (cbn; rewrite ?Hc, ?Hn, ?Hid; split; [done|]; split; [done|]; right; by repeat split).
  cbn. rewrite Hc, Hn, Hid. split; [done|]. split; [done|]. left.
  eexists _, _, _, _, _, _. split; [done|]. split; [done|]. by repeat split.
Qed.

(** Without callbacks, the last [ValsetUpdatedEvent] of the log always describes the
    validator set whose checkpoint the contract has, with its nonce: this is what the
    relayer, which reads the events, passes to the contract, which keeps only the hash. *)
Lemma last_valset_event_current p log :
  history p log ->
  exists a n, last_valset log = Some (valset_event a n) /\
    state_lastValsetCheckpoint (core p) = makeCheckpoint a (state_peggyId (core p)) /\
    state_lastValsetNonce (core p) = va_ValsetNonce a.
Proof.
  intros Hh. assert (valset_current p log) as [_ H]; [|exact H].
  induction Hh as [m b id th vals pows p ops evs H|m b k p log p' ops evs _ [Hi IH] H].
  - apply transact_Some in H as (p1 & fr & Hb & _ & Ha). invert_before Hb. cbn in Ha. injection Ha as <- <-. split; [done|].
    by exists (MkValsetArgs vals pows 0 0 0), 1.
  - destruct (transact_valset _ _ _ _ _ _ _ H Hi)
      as (Hi' & Hid & [(new & cur & v & r & s & n & -> & -> & _ & _ & Hc & Hn)|(Hl & Hc & Hn)]).
    + split; [done|]. exists new, n. by rewrite last_valset_app.
    + split; [done|]. destruct IH as (a & n & Hl' & Hc' & Hn'). exists a, n.
      rewrite last_valset_app. unfold last_valset at 1. rewrite Hl, Hl', Hc, Hn, Hid. done.
Qed.
End facts.

(** ** An example: one validator, whose signatures the model recovers from R *)
Module Example.
#[local] Instance evm : Evm := {| ecrecover _ _ r _ := r mod 2 ^ 160 |}.

Definition m : msg := MkMsg 1 0xcc 10 1000 0xdd.
Definition nothing : tokens := MkTokens (fun _ => true) (MkReceived 0 0).
Definition args (n reward : Z) (token : Address) : ValsetArgs := MkValsetArgs [0xaa] [10] n reward token.
Definition start : contract_call := Initialize 42 5 [0xaa] [10].
Definition update (new cur : ValsetArgs) : contract_call := UpdateValset new cur [27] [0xaa] [0].
Definition batch : contract_call :=
  SubmitBatch (args 0 0 0) [27] [0xaa] [0] [50] [0xab] [2] 3 0xee 900.
Definition deposit : contract_call := SendToInjective 0xee 7 30 "".

(** Run calls one after the other. *)
Fixpoint run (ks : list contract_call) (p : Peggy) (log : list ContractEvent)
  : option (Peggy * list ContractEvent) :=
  match ks with
  | [] => Some (p, log)
  | k :: ks => '(p, _, evs) ← transact m nothing k p; run ks p (log ++ evs)
  end.

Lemma run_history ks p log p' log' :
  history p log -> run ks p log = Some (p', log') -> history p' log'.
Proof.
  revert p log. induction ks as [|k ks IH]; intros p log Hh; cbn; [by intros [= <- <-]|].
  intros ([[p1 ops] evs] & Ht & Hr)%bind_Some. eapply IH; [|exact Hr]. by eapply history_call.
Qed.

(** The state and the log after the first call, and after the others. *)
Definition started : Peggy := MkPeggy (MkContract (makeCheckpoint (args 0 0 0) 42) ∅ 0 1 42 5 ∅ false) 1 1000 true false.
Definition first_event : ContractEvent := EvValsetUpdated 0 1 0 0 [0xaa] [10].

Lemma started_history : history started [first_event].
Proof. by eapply (history_init m nothing 42 5 [0xaa] [10]). Qed.

Definition later : Peggy :=
  MkPeggy (MkContract (makeCheckpoint (args 4 0 0) 42) {[ 0xee := 3 ]} 4 4 42 5 ∅ false) 1 1000 true false.
Definition later_log : list ContractEvent :=
  [first_event; EvBatchExecuted 3 0xee 2; EvSendToInjective 0xee 1 7 0 3 ""; EvValsetUpdated 4 4 0 0 [0xaa] [10]].

Lemma later_history : history later later_log.
Proof.
  apply (run_history [batch; deposit; update (args 4 0 0) (args 0 0 0)] started [first_event]);
    [apply started_history|by vm_compute].
Qed.

Lemma event_nonces_consecutive_witness :
  reachable later later_log /\ map event_nonce later_log = seqZ 1 (state_lastEventNonce (core later)).
Proof.
  split; [apply history_reachable, later_history|].
  apply event_nonces_consecutive, history_reachable, later_history.
Defined.

Lemma batches_executed_once_witness :
  StronglySorted Z.lt (batch_nonces 0xee later_log) /\
  Forall (fun n => 0 < n <= lastBatchNonce (core later) 0xee) (batch_nonces 0xee later_log).
Proof. apply batches_executed_once, history_reachable, later_history. Defined.

Lemma last_valset_event_current_witness :
  exists a n, last_valset later_log = Some (valset_event a n) /\
    state_lastValsetCheckpoint (core later) = makeCheckpoint a (state_peggyId (core later)) /\
    state_lastValsetNonce (core later) = va_ValsetNonce a.
Proof. apply last_valset_event_current, later_history. Defined.

(** C13: with callbacks that is not so.  [updateValset] has no re-entrancy guard and pays the
    reward before it emits its event: if the reward token updates the validator set again, the
    last event describes the older set, not the one whose checkpoint the contract has. *)
Theorem reentered_updateValset_misleads :
  exists p log a n, reachable p log /\ last_valset log = Some (valset_event a n) /\
    state_lastValsetCheckpoint (core p) <> makeCheckpoint a (state_peggyId (core p)).
Proof.
  set (new := args 1 7 0xee). set (newer := args 2 0 0).
  assert (exists p, exec_call m (update new (args 0 0 0)) started p
            [valset_event newer 2; valset_event new 3] /\
            state_lastValsetCheckpoint (core p) <> makeCheckpoint new (state_peggyId (core p)))
    as (p & Hex & Hne).
  { eexists. split.
    - eapply (exec_call_intro m (update new (args 0 0 0)) started _ _ _ [valset_event newer 2] _ nothing _
                [valset_event new 3]).
      + by vm_compute.
      + done.
      + eapply (callbacks_call _ _ m (update newer new) _ _ _ [valset_event newer 2] []);
          [|apply callbacks_none].
        eapply (transact_exec m nothing (update newer new)). by vm_compute.
      + by vm_compute.
    - by vm_compute. }
  exists p, ([first_event] ++ [valset_event newer 2; valset_event new 3]), new, 3.
  split; [|done]. eapply reachable_call; [apply history_reachable, started_history|exact Hex].
Qed.
End Example.
