(* ===== verification/Confirmations.v ===== *)
(** * Confirmations: signatures and voting power (package orchestrator/ethereum/peggy)

    Models [peggy_contract.go] ([sigToVRS], [peggyPowerToPercent]),
    [valset_update.go] and [submit_batch.go] ([checkValsetSigsAndRepack],
    [checkBatchSigsAndRepack], [validatorsAndPowers], [getBatchCheckpointValues]).
    [None] as the result of one of these functions is a panic. *)
From Stdlib Require Import QArith Qpower Qabs Lqa.
From S2P Require Import Prelude GoFloat Types External.
#[local] Open Scope Z_scope.

Section confirmations.
Context {GE : Geth} {SH : Shopspring}.

Definition totalPeggyPower : Z := 4294967295.

(** [sigToVRS] *)
Definition sigToVRS (sigHex : string) : option (Z * Hash * Hash) :=
  let signatureBytes := FromHex sigHex in
  match signatureBytes !! 64%nat with
  | None => None
  | Some b =>
      let vParam := byte_Z b in
      let v := if vParam =? 0 then 27 else if vParam =? 1 then 28 else vParam in
      let r := BytesToHash (take 32 signatureBytes) in
      let s := BytesToHash (take 32 (drop 32 signatureBytes)) in
      Some (v, r, s)
  end.

(** [peggyPowerToPercent] *)
Definition peggyPowerToPercent (total : Z) : gofloat :=
  let d := NewFromBigInt total 0 in
  let f := dec_Float64 (dec_Shift (dec_Div d (NewFromInt totalPeggyPower)) 2) in
  float32 f.

Definition ErrInsufficientVotingPowerToPass : err := ErrNew "insufficient voting power".

(** The five parallel slices that the functions below build. *)
Record Repacked : Type := MkRepacked {
  rp_validators : list Address;
  rp_powers : list Z;
  rp_v : list Z;
  rp_r : list Hash;
  rp_s : list Hash
}.

Definition repacked_nil : Repacked := MkRepacked [] [] [] [] [].

Definition repacked_cons (val : Address) (pow v : Z) (r s : Hash) (rp : Repacked) : Repacked :=
  MkRepacked (val :: rp_validators rp) (pow :: rp_powers rp) (v :: rp_v rp)
             (r :: rp_r rp) (s :: rp_s rp).

(** The loop over the members of the validator set, shared by the two check
    functions: [goodSig] is the map lookup guarded by the address comparison.
    It returns the slices and [powerOfGoodSigs]. *)
Fixpoint repackMembers (goodSig : BridgeValidator -> option string)
    (members : list BridgeValidator) : option (Repacked * Z) :=
  match members with
  | [] => Some (repacked_nil, 0)
  | m :: members' =>
      let mPower := Power m in
      match goodSig m with
      | Some sig =>
          match sigToVRS sig with
          | None => None
          | Some (sigV, sigR, sigS) =>
              '(rp, good) ← repackMembers goodSig members';
              Some (repacked_cons (HexToAddress (EthereumAddress m)) mPower sigV sigR sigS rp,
                    mPower + good)
          end
      | None =>
          '(rp, good) ← repackMembers goodSig members';
          Some (repacked_cons (HexToAddress (EthereumAddress m)) mPower 0 0 0 rp, good)
      end
  end.

(** [checkValsetSigsAndRepack] *)
Definition valsetSignerToSig (confirms : list MsgValsetConfirm) : gmap string MsgValsetConfirm :=
  foldl (fun m sig => <[mvc_EthAddress sig := sig]> m) ∅ confirms.

Definition valsetGoodSig (signerToSig : gmap string MsgValsetConfirm) (m : BridgeValidator)
  : option string :=
  match signerToSig !! EthereumAddress m with
  | Some sig => if String.eqb (mvc_EthAddress sig) (EthereumAddress m)
                then Some (mvc_Signature sig) else None
  | None => None
  end.

Definition checkValsetSigsAndRepack (valset : Valset) (confirms : list MsgValsetConfirm)
  : option (Repacked * error) :=
  if (length confirms =? 0)%nat
  then Some (repacked_nil, Some (ErrNew "no signatures in valset confirmation"))
  else
    let signerToSig := valsetSignerToSig confirms in
    '(rp, powerOfGoodSigs) ← repackMembers (valsetGoodSig signerToSig) (vs_Members valset);
    if float_lt (peggyPowerToPercent powerOfGoodSigs) (FFin 66 0)
    then Some (rp, Some ErrInsufficientVotingPowerToPass)
    else Some (rp, None).

(** [checkBatchSigsAndRepack] *)
Definition batchSignerToSig (confirms : list MsgConfirmBatch) : gmap string MsgConfirmBatch :=
  foldl (fun m sig => <[mcb_EthSigner sig := sig]> m) ∅ confirms.

Definition batchGoodSig (signerToSig : gmap string MsgConfirmBatch) (m : BridgeValidator)
  : option string :=
  match signerToSig !! EthereumAddress m with
  | Some sig => if String.eqb (mcb_EthSigner sig) (EthereumAddress m)
                then Some (mcb_Signature sig) else None
  | None => None
  end.

Definition checkBatchSigsAndRepack (valset : Valset) (confirms : list MsgConfirmBatch)
  : option (Repacked * error) :=
  if (length confirms =? 0)%nat
  then Some (repacked_nil, Some (ErrNew "no signatures in batch confirmation"))
  else
    let signerToSig := batchSignerToSig confirms in
    '(rp, powerOfGoodSigs) ← repackMembers (batchGoodSig signerToSig) (vs_Members valset);
    if float_lt (peggyPowerToPercent powerOfGoodSigs) (FFin 66 0)
    then Some (rp, Some ErrInsufficientVotingPowerToPass)
    else Some (rp, None).

(** [validatorsAndPowers] *)
Definition validatorsAndPowers (valset : Valset) : list Address * list Z :=
  (map (fun m => HexToAddress (EthereumAddress m)) (vs_Members valset),
   map Power (vs_Members valset)).

(** [getBatchCheckpointValues]: a nil token pointer panics; an amount may be nil. *)
Definition getBatchCheckpointValues (batch : OutgoingTxBatch)
  : option (list (option Z) * list Address * list (option Z)) :=
  amounts ← mapM (fun tx => et_Amount <$> tx_Erc20Token tx) (Transactions batch);
  fees ← mapM (fun tx => et_Amount <$> tx_Erc20Fee tx) (Transactions batch);
  Some (amounts, map (fun tx => HexToAddress (tx_DestAddress tx)) (Transactions batch), fees).

(** ** The voting power test *)

Definition percent_decimal (total : Z) : decimal :=
  dec_Shift (dec_Div (NewFromBigInt total 0) (NewFromInt totalPeggyPower)) 2.

(** The decimal quotient lies on the same side of a 16-digit number as the
    exact one. *)
Lemma percent_decimal_bounds total :
  exists q, (dec_Q (percent_decimal total) == (q # 10 ^ 16) * 100)%Q /\
    forall n, (n * totalPeggyPower <= total * 10 ^ 16 -> n <= q) /\
              (total * 10 ^ 16 <= n * totalPeggyPower -> q <= n).
Proof.
  unfold percent_decimal.
  set (a := NewFromBigInt total 0). set (b := NewFromInt totalPeggyPower).
  assert (dec_Q a == inject_Z total)%Q as Ha.
  { unfold a. rewrite NewFromBigInt_Q. change (10 ^ 0)%Q with 1%Q. ring. }
  assert (dec_Q b == 4294967295)%Q as Hb by (unfold b; apply NewFromInt_Q).
  destruct (dec_Div_Q a b) as (q & Hq & Hn); [rewrite Hb; discriminate|].
  exists q. split; [rewrite dec_Shift_Q, Hq; reflexivity|]. intros n. specialize (Hn n).
  assert (dec_Q a / dec_Q b == (total # 4294967295))%Q as Hx.
  { rewrite Ha, Hb. unfold Qeq. simpl. lia. }
  rewrite Hx in Hn. unfold totalPeggyPower, Qle in *. simpl in Hn.
  split; intros H; apply Hn; lia.
Qed.

Lemma percent_double total :
  0 <= total < 2 ^ 256 ->
  exists m e, dec_Float64 (percent_decimal total) = FFin m e /\
    forall n m' e', is_float64 m' e' ->
      (n * totalPeggyPower <= total * 10 ^ 16 -> (dyadic m' e' <= (n # 10 ^ 16) * 100)%Q ->
       (dyadic m' e' <= dyadic m e)%Q) /\
      (total * 10 ^ 16 <= n * totalPeggyPower -> ((n # 10 ^ 16) * 100 <= dyadic m' e')%Q ->
       (dyadic m e <= dyadic m' e')%Q).
Proof.
  intros Ht. destruct (percent_decimal_bounds total) as (q & Hq & Hn).
  assert (0 <= q <= 2 ^ 256 * 10 ^ 16) as Hrange.
  { unfold totalPeggyPower in Hn. split; apply Hn; lia. }
  destruct (dec_Float64_Q (percent_decimal total)) as (m & e & -> & _ & Hnear).
  { rewrite Hq. apply Qle_lt_trans with (inject_Z (2 ^ 320)); [|reflexivity].
    rewrite Qabs_pos; unfold Qle; simpl; lia. }
  exists m, e. split; [done|]. intros n m' e' Hf. specialize (Hnear m' e' Hf).
  specialize (Hn n). destruct Hn as [Hlo Hhi].
  split; intros H Hd; [apply Hlo in H|apply Hhi in H]; clear Hlo Hhi.
  - apply Hnear. rewrite Hq. eapply Qle_trans; [exact Hd|]. unfold Qle; simpl; lia.
  - apply Hnear. rewrite Hq. eapply Qle_trans; [|exact Hd]. unfold Qle; simpl; lia.
Qed.

(** At least 66% of the total power passes the test. *)
Lemma power_66_passes total :
  0 <= total < 2 ^ 256 -> 66 * totalPeggyPower <= 100 * total ->
  float_lt (peggyPowerToPercent total) (FFin 66 0) = false.
Proof.
  intros Ht H. unfold peggyPowerToPercent. fold (percent_decimal total).
  destruct (percent_double total Ht) as (m & e & -> & Hd).
  apply float32_ge; [lia|].
  apply (Hd (66 * 10 ^ 14)); [by unfold is_float64|lia|by compute].
Qed.

(** At most 65.999992% fails it. *)
Lemma power_below_66_fails total :
  0 <= total -> 10 ^ 8 * total <= 65999992 * totalPeggyPower ->
  float_lt (peggyPowerToPercent total) (FFin 66 0) = true.
Proof.
  intros Ht H. unfold peggyPowerToPercent. fold (percent_decimal total).
  destruct (percent_double total) as (m & e & -> & Hd); [unfold totalPeggyPower in *; lia|].
  set (u := 66 * 2 ^ 17 - 1).
  assert (dyadic 0 0 <= dyadic m e)%Q as H0.
  { apply (Hd 0); [by unfold is_float64|lia|by compute]. }
  assert (0 <= m).
  { destruct (Z.lt_ge_cases m 0) as [Hm|]; [exfalso|done]. revert H0. apply Qlt_not_le.
    unfold dyadic. rewrite Qmult_0_l. apply Qlt_le_trans with (0 * 2 ^ e)%Q.
    - apply Qmult_lt_compat_r; [apply Qpower2_pos|]. change 0%Q with (inject_Z 0).
      by rewrite <- Zlt_Qlt.
    - rewrite Qmult_0_l. apply Qle_refl. }
  apply (float32_lt m e u 7); [done|done|by compute| |by compute|done].
  apply (Hd (65999992 * 10 ^ 8)); [by unfold is_float64|lia|by compute].
Qed.

(** ** The repacked slices *)

(** The confirmation that counts for an address: the last one it sent. *)
Definition valset_confirm_of (confirms : list MsgValsetConfirm) (a : string) : option string :=
  mvc_Signature <$> last (base.filter (fun c => mvc_EthAddress c = a) confirms).

Definition batch_confirm_of (confirms : list MsgConfirmBatch) (a : string) : option string :=
  mcb_Signature <$> last (base.filter (fun c => mcb_EthSigner c = a) confirms).

Lemma valsetGoodSig_last confirms m :
  valsetGoodSig (valsetSignerToSig confirms) m = valset_confirm_of confirms (EthereumAddress m).
Proof.
  unfold valsetGoodSig, valsetSignerToSig, valset_confirm_of. rewrite lookup_fill.
  destruct (last _) as [c|] eqn:E; [|done]. apply last_filter_Some in E as [-> _].
  by rewrite String.eqb_refl.
Qed.

Lemma batchGoodSig_last confirms m :
  batchGoodSig (batchSignerToSig confirms) m = batch_confirm_of confirms (EthereumAddress m).
Proof.
  unfold batchGoodSig, batchSignerToSig, batch_confirm_of. rewrite lookup_fill.
  destruct (last _) as [c|] eqn:E; [|done]. apply last_filter_Some in E as [-> _].
  by rewrite String.eqb_refl.
Qed.

(** Power of the members that have a counted confirmation. *)
Definition signedPower (confirm_of : string -> option string) (ms : list BridgeValidator) : Z :=
  foldr (fun m acc => (if confirm_of (EthereumAddress m) is Some _ then Power m else 0) + acc) 0 ms.

(** The i-th entry of the slices describes the i-th member: its address, its
    power and its signature, or the zero signature that the contract skips. *)
Definition entry_of (confirm_of : string -> option string) (m : BridgeValidator)
    (v r s : Z) : Prop :=
  match confirm_of (EthereumAddress m) with
  | Some sig => sigToVRS sig = Some (v, r, s)
  | None => v = 0 /\ r = 0 /\ s = 0
  end.

Definition repacked_for (confirm_of : string -> option string) (ms : list BridgeValidator)
    (rp : Repacked) : Prop :=
  rp_validators rp = map (fun m => HexToAddress (EthereumAddress m)) ms /\
  rp_powers rp = map Power ms /\
  length (rp_v rp) = length ms /\ length (rp_r rp) = length ms /\ length (rp_s rp) = length ms /\
  forall i m, ms !! i = Some m -> exists v r s,
    rp_v rp !! i = Some v /\ rp_r rp !! i = Some r /\ rp_s rp !! i = Some s /\
    entry_of confirm_of m v r s.

Lemma repackMembers_spec confirm_of goodSig ms rp good :
  (forall m, goodSig m = confirm_of (EthereumAddress m)) ->
  repackMembers goodSig ms = Some (rp, good) ->
  repacked_for confirm_of ms rp /\ good = signedPower confirm_of ms.
Proof.
  intros Hg. revert rp good. induction ms as [|m ms IH]; intros rp good; simpl.
  { by intros [= <- <-]. }
  rewrite Hg. unfold repacked_for. destruct (confirm_of (EthereumAddress m)) as [sig|] eqn:Ec.
  - destruct (sigToVRS sig) as [[[v r] s]|] eqn:Es; [|done].
    destruct (repackMembers goodSig ms) as [[rp' good']|] eqn:Er; simpl; [|done].
    intros [= <- <-]. destruct (IH _ _ eq_refl) as [(Ha & Hp & Hv & Hr & Hs & Hi) ->].
    simpl. rewrite Ha, Hp, Hv, Hr, Hs. repeat split; try done.
    intros [|i] m' Hm'; simpl in *; [|by apply Hi].
    injection Hm' as <-. exists v, r, s. unfold entry_of. by rewrite Ec.
  - destruct (repackMembers goodSig ms) as [[rp' good']|] eqn:Er; simpl; [|done].
    intros [= <- <-]. destruct (IH _ _ eq_refl) as [(Ha & Hp & Hv & Hr & Hs & Hi) ->].
    simpl. rewrite Ha, Hp, Hv, Hr, Hs. repeat split; try done.
    intros [|i] m' Hm'; simpl in *; [|by apply Hi].
    injection Hm' as <-. exists 0, 0, 0. unfold entry_of. by rewrite Ec.
Qed.

(** A signature that [sigToVRS] can split: at least 65 bytes. *)
Definition long_sig (sig : string) : Prop := (65 <= length (FromHex sig))%nat.

Lemma sigToVRS_total sig : long_sig sig <-> is_Some (sigToVRS sig).
Proof.
  unfold long_sig, sigToVRS. split.
  - intros H. destruct (lookup_lt_is_Some_2 (FromHex sig) 64) as [b ->]; [lia|]. by eexists.
  - destruct (FromHex sig !! 64%nat) eqn:E; [|by intros []].
    intros _. apply lookup_lt_Some in E. lia.
Qed.

Lemma repackMembers_total goodSig ms :
  (forall m sig, m ∈ ms -> goodSig m = Some sig -> long_sig sig) ->
  is_Some (repackMembers goodSig ms).
Proof.
  induction ms as [|m ms IH]; intros H; simpl; [by eexists|].
  destruct IH as [[rp good] ->]; [intros m' sig Hm'; apply H; by right|].
  destruct (goodSig m) as [sig|] eqn:E; simpl; [|by eexists].
  destruct (proj1 (sigToVRS_total sig)) as [[[v r] s] ->]; simpl; [|by eexists].
  apply (H m); [by left|done].
Qed.

Lemma signedPower_range confirm_of ms :
  Forall (fun m => is_u64 (Power m)) ms ->
  0 <= signedPower confirm_of ms <= Z.of_nat (length ms) * 2 ^ 64.
Proof.
  unfold signedPower, is_u64. induction 1 as [|m ms Hm _ IH]; cbn [foldr length]; [lia|].
  destruct (confirm_of _); lia.
Qed.

(** [checkValsetSigsAndRepack] and [checkBatchSigsAndRepack] have one contract:
    what they return for a non-empty list of confirmations. *)
Definition repack_contract (confirm_of : string -> option string) (valset : Valset)
    (rp : Repacked) (e : error) : Prop :=
  repacked_for confirm_of (vs_Members valset) rp /\
  let p := signedPower confirm_of (vs_Members valset) in
  (66 * totalPeggyPower <= 100 * p -> e = None) /\
  (10 ^ 8 * p <= 65999992 * totalPeggyPower ->
   e = Some ErrInsufficientVotingPowerToPass) /\
  (e = None \/ e = Some ErrInsufficientVotingPowerToPass).

Lemma repack_contract_intro confirm_of goodSig valset rp good :
  (forall m, goodSig m = confirm_of (EthereumAddress m)) ->
  Forall (fun m => is_u64 (Power m)) (vs_Members valset) ->
  (Z.of_nat (length (vs_Members valset)) < 2 ^ 64) ->
  repackMembers goodSig (vs_Members valset) = Some (rp, good) ->
  repack_contract confirm_of valset rp
    (if float_lt (peggyPowerToPercent good) (FFin 66 0)
     then Some ErrInsufficientVotingPowerToPass else None).
Proof.
  intros Hg Hp Hlen Hr. apply (repackMembers_spec confirm_of) in Hr as [Hrp ->]; [|done].
  pose proof (signedPower_range confirm_of _ Hp). split; [done|]. cbv zeta. repeat split.
  - intros H66. rewrite power_66_passes; [done|nia|done].
  - intros H66. rewrite power_below_66_fails; [done|lia|done].
  - case_match; auto.
Qed.

End confirmations.
