(* ===== verification/Checkpoint.v ===== *)
(** * Checkpoint: the hashes that validators sign

    Models [orchestrator/ethereum/peggy/message_signatures.go].  [None] is a
    panic. *)
From S2P Require Import Prelude GoFloat Types External Model PeggySol Confirmations.

(** [ValsetCheckpointABIJSON] and [OutgoingBatchTxConfirmABIJSON], parsed. *)
Definition ValsetCheckpointABI : ABI :=
  [("checkpoint"%string,
    [TElem TBytes32; TElem TBytes32; TElem TUint256; TArray TAddress; TArray TUint256;
     TElem TUint256; TElem TAddress])].

Definition OutgoingBatchTxConfirmABI : ABI :=
  [("transactionBatch"%string,
    [TElem TBytes32; TElem TBytes32; TArray TUint256; TArray TAddress; TArray TUint256;
     TElem TUint256; TElem TAddress; TElem TUint256])].

(** [copy(dst[:], []uint8(s))] into a zeroed 32-byte array. *)
Definition copy32 (s : string) : Hash :=
  be_Z (take 32 (list_byte_of_string s ++ replicate 32 Byte.x00)).

Section checkpoint.
Context {GE : Geth}.

(** [EncodeValsetConfirm] *)
Definition EncodeValsetConfirm (peggyID : Hash) (valset : Valset) : option Hash :=
  let checkpoint := copy32 "checkpoint" in
  let memberAddresses := map (fun m => HexToAddress (EthereumAddress m)) (vs_Members valset) in
  let convertedPowers := map (fun m => i64 (Power m)) (vs_Members valset) in
  let rewardToken := HexToAddress (vs_RewardToken valset) in
  rewardAmount ← vs_RewardAmount valset;
  let '(packed, packErr) :=
    abi_Pack ValsetCheckpointABI "checkpoint"
      [VElem TBytes32 peggyID; VElem TBytes32 checkpoint;
       VElem TUint256 (i64 (vs_Nonce valset)); VArray TAddress memberAddresses;
       VArray TUint256 convertedPowers; VElem TUint256 rewardAmount;
       VElem TAddress rewardToken] in
  match packErr with
  | Some _ => None
  | None => Some (Keccak256Hash (drop 4 packed))
  end.

(** [EncodeTxBatchConfirm]: a nil amount makes the packing panic; a packing
    error returns the zero hash. *)
Definition EncodeTxBatchConfirm (peggyID : Hash) (batch : OutgoingTxBatch) : option Hash :=
  let batchMethodName := copy32 "transactionBatch" in
  txAmounts ← mapM (fun tx => tx_Erc20Token tx ≫= et_Amount) (Transactions batch);
  let txDestinations := map (fun tx => HexToAddress (tx_DestAddress tx)) (Transactions batch) in
  txFees ← mapM (fun tx => tx_Erc20Fee tx ≫= et_Amount) (Transactions batch);
  let '(abiEncodedBatch, packErr) :=
    abi_Pack OutgoingBatchTxConfirmABI "transactionBatch"
      [VElem TBytes32 peggyID; VElem TBytes32 batchMethodName;
       VArray TUint256 txAmounts; VArray TAddress txDestinations; VArray TUint256 txFees;
       VElem TUint256 (i64 (BatchNonce batch)); VElem TAddress (HexToAddress (TokenContract batch));
       VElem TUint256 (i64 (BatchTimeout batch))] in
  match packErr with
  | Some _ => Some 0
  | None => Some (Keccak256Hash (drop 4 abiEncodedBatch))
  end.

(** The arguments that the relayer passes for a validator set: [validatorsAndPowers]
    and the fields of [ValsetArgs].  [None]: packing the nil reward panics. *)
Definition valset_args (validators : list Address) (powers : list Z) (valset : Valset)
  : option ValsetArgs :=
  rewardAmount ← vs_RewardAmount valset;
  Some (MkValsetArgs validators powers (vs_Nonce valset) rewardAmount
          (HexToAddress (vs_RewardToken valset))).

Definition valset_args_of (valset : Valset) : option ValsetArgs :=
  let '(validators, powers) := validatorsAndPowers valset in
  valset_args validators powers valset.

(** The amounts and fees of a batch as integers; [None] if one is nil. *)
Definition batch_values (batch : OutgoingTxBatch) : option (list Z * list Address * list Z) :=
  '(amounts, destinations, fees) ← getBatchCheckpointValues batch;
  amounts' ← mapM (fun a => a) amounts;
  fees' ← mapM (fun a => a) fees;
  Some (amounts', destinations, fees').

Lemma copy32_checkpoint : copy32 "checkpoint" = checkpoint_method.
Proof. by vm_compute. Qed.

Lemma copy32_transactionBatch : copy32 "transactionBatch" = batch_method.
Proof. by vm_compute. Qed.

(** Hashing what follows the selector hashes [abi.encode] of the arguments. *)
Lemma drop_selector a name ts b :
  abi_method a name = Some ts -> drop 4 (abi_MethodID a name ++ b) = b.
Proof.
  intros Hm. rewrite drop_app_length' by (symmetry; apply abi_MethodID_length; by rewrite Hm).
  done.
Qed.

(** Nonces and powers below 2^63, which int64 keeps. *)
Definition small (x : Z) : Prop := 0 <= x < 2 ^ 63.

Lemma i64_of_small x : small x -> i64 x = x.
Proof. intros H. apply i64_small. unfold small, is_i64 in *. lia. Qed.

Lemma map_i64_small {A} (f : A -> Z) l :
  Forall (fun x => small (f x)) l -> map (fun x => i64 (f x)) l = map f l.
Proof. induction 1 as [|x l Hx _ IH]; [done|]. cbn [map]. by rewrite IH, i64_of_small. Qed.

Lemma EncodeValsetConfirm_checkpoint id vs a :
  small (vs_Nonce vs) -> Forall (fun m => small (Power m)) (vs_Members vs) ->
  valset_args_of vs = Some a ->
  EncodeValsetConfirm id vs = Some (makeCheckpoint a id).
Proof.
  unfold valset_args_of, valset_args, EncodeValsetConfirm. intros Hn Hp.
  destruct (vs_RewardAmount vs) as [r|]; simpl; [|done]. intros [= <-].
  erewrite abi_Pack_ok by reflexivity.
  erewrite drop_selector by reflexivity. rewrite copy32_checkpoint.
  rewrite map_i64_small, i64_of_small by done. done.
Qed.

Lemma mapM_amounts (f : OutgoingTransferTx -> option ERC20Token) txs l l' :
  mapM (fun tx => et_Amount <$> f tx) txs = Some l -> mapM (fun a => a) l = Some l' ->
  mapM (fun tx => f tx ≫= et_Amount) txs = Some l'.
Proof.
  revert l l'. induction txs as [|tx txs IH]; intros l l'; simpl; [by intros [= <-] [= <-]|].
  destruct (f tx) as [t|]; simpl; [|done].
  destruct (mapM _ txs) as [l0|] eqn:E; simpl; [|done]. intros [= <-]. simpl.
  destruct (et_Amount t) as [x|]; simpl; [|done].
  destruct (mapM (fun a => a) l0) as [l0'|] eqn:E'; simpl; [|done]. intros [= <-].
  by rewrite (IH _ _ eq_refl E').
Qed.

Lemma EncodeTxBatchConfirm_hash id b amounts dests fees :
  small (BatchNonce b) -> small (BatchTimeout b) ->
  batch_values b = Some (amounts, dests, fees) ->
  EncodeTxBatchConfirm id b =
  Some (batchHash id amounts dests fees (BatchNonce b) (HexToAddress (TokenContract b))
          (BatchTimeout b)).
Proof.
  unfold batch_values, getBatchCheckpointValues, EncodeTxBatchConfirm. intros Hn Ht.
  intros ([[la ld] lf] & (la0 & Ea & (lf0 & Ef & [= <- <- <-])%bind_Some)%bind_Some & Hv)%bind_Some.
  apply bind_Some in Hv as (la' & Ea' & (lf' & Ef' & [= <- <- <-])%bind_Some).
  rewrite (mapM_amounts _ _ _ _ Ea Ea'). cbn [mbind option_bind].
  rewrite (mapM_amounts _ _ _ _ Ef Ef'). cbn [mbind option_bind].
  erewrite abi_Pack_ok by reflexivity.
  erewrite drop_selector by reflexivity. rewrite copy32_transactionBatch.
  by rewrite !i64_of_small.
Qed.

End checkpoint.
