(* ===== verification/EthPeggy.v ===== *)
(** * EthPeggy: the relayer's view of the bridge contract (orchestrator/ethereum/peggy)

    Models the operations of [peggyContract]: [peggy_contract.go]
    ([NewPeggyContract], [Address]), [valset_update.go] ([SendEthValsetUpdate]),
    [submit_batch.go] ([SendTransactionBatch]), [utils.go], [send_to_cosmos.go] and
    [pending_transactions.go].  The embedded [EVMCommitter] is the command
    [SendTx]; reads of the contract through the generated binding are commands. *)
From S2P Require Import Prelude Effects GoFloat Types External Model PeggySol Confirmations.
From S2P Require Import Checkpoint.

(** ** Interface: what the contract client calls *)
Inductive peggy_cmd : Type :=
  | SendTx (recipient : Address) (txData : bytes)
  | Now
  | LastBatchNonce (from erc20 : Address)
  | StateLastValsetNonce (from : Address)
  | StatePeggyId (from : Address)
  | ERC20Symbol (from erc20 : Address)
  | ERC20Allowance (from erc20 owner spender : Address).

Definition peggy_reply (c : peggy_cmd) : Type :=
  match c with
  | SendTx _ _ => Hash * error
  | Now => Z
  | LastBatchNonce _ _ | StateLastValsetNonce _ => Z * error
  | StatePeggyId _ => Hash * error
  | ERC20Symbol _ _ => string * error
  | ERC20Allowance _ _ _ _ => Z * error
  end.

Definition PeggyI : Iface := MkIface peggy_cmd peggy_reply.

(** Issue a command of [PeggyI]. *)
Definition pcall (c : peggy_cmd) : prog PeggyI (peggy_reply c) := @call PeggyI c.

(** ** State *)

(** [PendingTxInput] and [PendingTxInputList] *)
Record PendingTxInput : Type := MkPendingTxInput { InputData : bytes; ReceivedTime : Z }.

Definition PendingTxInputList : Type := list PendingTxInput.

(** [peggyContract]: [ethProvider] is a pointer that may be nil. *)
Record peggyContract : Type := MkPeggyContract {
  ethProvider : option unit;
  peggyAddress : Address;
  pendingTxInputList : PendingTxInputList;
  pendingTxWaitDuration : Z
}.

(** [NewPeggyContract], given the binding that [wrappers.NewPeggy] returns. *)
Definition NewPeggyContract (bindErr : error) (peggyAddress : Address)
    (pendingTxInputList : PendingTxInputList) (pendingTxWaitDuration : Z)
  : option peggyContract * error :=
  match bindErr with
  | Some e => (None, Some e)
  | None => (Some (MkPeggyContract None peggyAddress pendingTxInputList pendingTxWaitDuration), None)
  end.

(** [maxUintAllowance] *)
Definition maxUintAllowance : Z := 0 - 0 + 2 ^ 256 - 1.

(** The methods of [peggyABI] and [erc20ABI] that the program packs. *)
Definition valset_args_type : abi_type :=
  TStruct [TArray TAddress; TArray TUint256; TElem TUint256; TElem TUint256; TElem TAddress].

Definition peggyABI : ABI :=
  [("deployERC20"%string, [TBytes; TBytes; TBytes; TElem TUint8]);
   ("lastBatchNonce"%string, [TElem TAddress]);
   ("sendToInjective"%string, [TElem TAddress; TElem TBytes32; TElem TUint256; TBytes]);
   ("state_lastEventNonce"%string, []);
   ("state_lastValsetNonce"%string, []);
   ("state_peggyId"%string, []);
   ("submitBatch"%string,
    [valset_args_type; TArray TUint8; TArray TBytes32; TArray TBytes32; TArray TUint256;
     TArray TAddress; TArray TUint256; TElem TUint256; TElem TAddress; TElem TUint256]);
   ("updateValset"%string,
    [valset_args_type; valset_args_type; TArray TUint8; TArray TBytes32; TArray TBytes32])].

Definition erc20ABI : ABI :=
  [("allowance"%string, [TElem TAddress; TElem TAddress]);
   ("approve"%string, [TElem TAddress; TElem TUint256]);
   ("symbol"%string, [])].

Definition abi_of_args (a : ValsetArgs) : abi_val :=
  VStruct [VArray TAddress (va_Validators a); VArray TUint256 (va_Powers a);
           VElem TUint256 (va_ValsetNonce a); VElem TUint256 (va_RewardAmount a);
           VElem TAddress (va_RewardToken a)].

Section peggy.
Context {GE : Geth} {SH : Shopspring}.

(** ** Pending transactions *)

(** [IsBatchOrValsetUpdateTx]: [None] is the panic of [inputData[:4]]. *)
Definition IsBatchOrValsetUpdateTx (inputData : bytes) : option bool :=
  let submitBatchMethod := abi_MethodID peggyABI "submitBatch" in
  let valsetUpdateMethod := abi_MethodID peggyABI "updateValset" in
  if (length inputData <? 4)%nat then None
  else Some (bool_decide (submitBatchMethod = take 4 inputData) ||
             bool_decide (valsetUpdateMethod = take 4 inputData)).

(** [AddPendingTxInput], at the time [now]. *)
Definition AddPendingTxInput (p : PendingTxInputList) (input : bytes) (now : Z)
  : option PendingTxInputList :=
  match IsBatchOrValsetUpdateTx input with
  | None => None
  | Some false => Some p
  | Some true =>
      let p := p ++ [MkPendingTxInput input now] in
      Some (if (100 <? length p)%nat then tail p else p)
  end.

(** [IsPendingTxInput]: the clock is read at the first entry with the same data. *)
Fixpoint IsPendingTxInput (p : PendingTxInputList) (txInput : bytes) (pendingTxWaitDuration : Z)
  : prog PeggyI bool :=
  match p with
  | [] => mret false
  | pendingTxInput :: p' =>
      if bool_decide (InputData pendingTxInput = txInput)
      then now ← pcall Now;
           mret (now <? ReceivedTime pendingTxInput + pendingTxWaitDuration)
      else IsPendingTxInput p' txInput pendingTxWaitDuration
  end.

(** The body of the loop of [SubscribeToPendingTxs]: one received transaction. *)
Definition onPendingTransaction (s : peggyContract) (input : bytes) (now : Z)
  : option peggyContract :=
  p ← AddPendingTxInput (pendingTxInputList s) input now;
  Some (MkPeggyContract (ethProvider s) (peggyAddress s) p (pendingTxWaitDuration s)).

(** [SubscribeToPendingTxs]: the process ends when the dial or the subscription fails;
    otherwise the loop handles the transactions as they are received, at their times
    ([Listening None]: the goroutine has panicked). *)
Inductive subscription : Type :=
  | Fatalln (msg : string)
  | Listening (s : option peggyContract).

Definition SubscribeToPendingTxs (s : peggyContract) (dialErr subscribeErr : error)
    (received : list (bytes * Z)) : subscription :=
  match dialErr with
  | Some _ => Fatalln "Failed to connect to Ethereum Alchemy websocket"
  | None =>
      match subscribeErr with
      | Some _ => Fatalln "Failed to subscribe to pending transactions"
      | None => Listening (foldl (fun s x => s ← s; onPendingTransaction s x.1 x.2) (Some s) received)
      end
  end.

(** The list of pending transactions never grows beyond 100 entries, and transactions with at
    least four bytes of input do not make the goroutine panic. *)
Lemma SubscribeToPendingTxs_bounded s received :
  (length (pendingTxInputList s) <= 100)%nat ->
  (forall x, x ∈ received -> (4 <= length x.1)%nat) ->
  exists s', SubscribeToPendingTxs s None None received = Listening (Some s') /\
    (length (pendingTxInputList s') <= 100)%nat /\ peggyAddress s' = peggyAddress s.
Proof.
  cbn. revert s. induction received as [|[input now] received IH]; intros s Hs Hin; cbn [foldl mbind option_bind fst snd]; [by exists s|].
  assert (exists s', onPendingTransaction s input now = Some s' /\
    (length (pendingTxInputList s') <= 100)%nat /\ peggyAddress s' = peggyAddress s) as (s' & -> & Hs' & Ha).
  { pose proof (Hin (input, now) ltac:(left)) as H4. cbn in H4.
    unfold onPendingTransaction, AddPendingTxInput, IsBatchOrValsetUpdateTx.
    rewrite (proj2 (Nat.ltb_ge _ _) H4). destruct (_ || _); cbn -[Nat.ltb]; [|by eexists].
    eexists. split; [done|]. split; [|done]. cbn [pendingTxInputList].
    destruct (Nat.ltb_spec 100 (length (pendingTxInputList s ++ [MkPendingTxInput input now]))) as [H|H]; [|lia].
    rewrite length_app in H. cbn in H. destruct (pendingTxInputList s) as [|x l]; cbn in *; [lia|].
    rewrite length_app. cbn. lia. }
  destruct (IH s' Hs') as (s'' & Hf & Hs'' & Ha'); [intros x Hx; apply Hin; by right|].
  exists s''. split; [done|]. split; [done|]. congruence.
Qed.

(** ** Sending *)

(** [Address] *)
Definition Address_ (s : peggyContract) : Address := peggyAddress s.

Definition errNotGreater : err := ErrNew "new valset nonce should be greater than old valset nonce".
Definition errPendingValset : err :=
  ErrNew "Transaction with same valset input data is already present in mempool".
Definition errPendingBatch : err :=
  ErrNew "Transaction with same batch input data is already present in mempool".

(** [SendEthValsetUpdate] *)
Definition SendEthValsetUpdate (s : peggyContract) (oldValset newValset : Valset)
    (confirms : list MsgValsetConfirm) : prog PeggyI (option Hash * error) :=
  if vs_Nonce newValset <=? vs_Nonce oldValset then mret (None, Some errNotGreater)
  else
    let '(newValidators, newPowers) := validatorsAndPowers newValset in
    let newValsetArgs := valset_args newValidators newPowers newValset in
    '(rp, err) ← deref (checkValsetSigsAndRepack oldValset confirms);
    match err with
    | Some _ => mret (None, Wrap err "confirmations check failed")
    | None =>
        let currentValsetArgs := valset_args (rp_validators rp) (rp_powers rp) oldValset in
        newArgs ← deref newValsetArgs;
        currentArgs ← deref currentValsetArgs;
        let '(txData, err) :=
          abi_Pack peggyABI "updateValset"
            [abi_of_args newArgs; abi_of_args currentArgs;
             VArray TUint8 (rp_v rp); VArray TBytes32 (rp_r rp); VArray TBytes32 (rp_s rp)] in
        match err with
        | Some _ => mret (None, err)
        | None =>
            pending ← IsPendingTxInput (pendingTxInputList s) txData (pendingTxWaitDuration s);
            if (pending : bool) then mret (None, Some errPendingValset)
            else
              '(txHash, err) ← pcall (SendTx (peggyAddress s) txData);
              match err with
              | Some _ => mret (None, err)
              | None => mret (Some txHash, None)
              end
        end
    end.

(** [SendTransactionBatch] *)
Definition SendTransactionBatch (s : peggyContract) (currentValset : Valset)
    (batch : OutgoingTxBatch) (confirms : list MsgConfirmBatch)
  : prog PeggyI (option Hash * error) :=
  '(rp, err) ← deref (checkBatchSigsAndRepack currentValset confirms);
  match err with
  | Some _ => mret (None, Wrap err "confirmations check failed")
  | None =>
      '(amounts, destinations, fees) ← deref (getBatchCheckpointValues batch);
      currentArgs ← deref (valset_args (rp_validators rp) (rp_powers rp) currentValset);
      amounts ← deref (mapM (fun a => a) amounts);
      fees ← deref (mapM (fun a => a) fees);
      let '(txData, err) :=
        abi_Pack peggyABI "submitBatch"
          [abi_of_args currentArgs;
           VArray TUint8 (rp_v rp); VArray TBytes32 (rp_r rp); VArray TBytes32 (rp_s rp);
           VArray TUint256 amounts; VArray TAddress destinations; VArray TUint256 fees;
           VElem TUint256 (BatchNonce batch); VElem TAddress (HexToAddress (TokenContract batch));
           VElem TUint256 (BatchTimeout batch)] in
      match err with
      | Some _ => mret (None, err)
      | None =>
          pending ← IsPendingTxInput (pendingTxInputList s) txData (pendingTxWaitDuration s);
          if (pending : bool) then mret (None, Some errPendingBatch)
          else
            '(txHash, err) ← pcall (SendTx (peggyAddress s) txData);
            match err with
            | Some _ => mret (None, err)
            | None => mret (Some txHash, None)
            end
      end
  end.

(** ** Reads *)

(** [GetTxBatchNonce] *)
Definition GetTxBatchNonce (erc20ContractAddress callerAddress : Address)
  : prog PeggyI (option Z * error) :=
  '(nonce, err) ← pcall (LastBatchNonce callerAddress erc20ContractAddress);
  match err with
  | Some _ => mret (None, Wrap err "LastBatchNonce call failed")
  | None => mret (Some nonce, None)
  end.

(** [GetValsetNonce] *)
Definition GetValsetNonce (callerAddress : Address) : prog PeggyI (option Z * error) :=
  '(nonce, err) ← pcall (StateLastValsetNonce callerAddress);
  match err with
  | Some _ => mret (None, Wrap err "StateLastValsetNonce call failed")
  | None => mret (Some nonce, None)
  end.

(** [GetPeggyID] *)
Definition GetPeggyID (callerAddress : Address) : prog PeggyI (Hash * error) :=
  '(peggyID, err) ← pcall (StatePeggyId callerAddress);
  match err with
  | Some _ => mret (0, Wrap err "StatePeggyId call failed")
  | None => mret (peggyID, None)
  end.

(** [GetERC20Symbol]: the call goes through [ethProvider]. *)
Definition GetERC20Symbol (s : peggyContract) (erc20ContractAddress callerAddress : Address)
  : prog PeggyI (string * error) :=
  _ ← deref (ethProvider s);
  '(out, err) ← pcall (ERC20Symbol callerAddress erc20ContractAddress);
  match err with
  | Some _ => mret (""%string, Wrap err "ERC20 [symbol] call failed")
  | None => mret (out, None)
  end.

(** [cosmosDestAddressBytes]: zero bytes are appended up to 32. *)
Definition padDestination (b : bytes) : bytes := b ++ replicate (32 - length b) Byte.x00.

(** [SendToCosmos] *)
Definition SendToCosmos (s : peggyContract) (erc20 : Address) (amount : Z)
    (cosmosAccAddress : bytes) (senderAddress : Address) : prog PeggyI (option Hash * error) :=
  _ ← deref (ethProvider s);
  '(allowance, err) ← pcall (ERC20Allowance 0 erc20 senderAddress (peggyAddress s));
  match err with
  | Some _ => mret (None, Wrap err "failed to get ERC20 allowance for peggy contract")
  | None =>
      approveErr ←
        (if negb (allowance =? maxUintAllowance) then
           let '(txData, err) :=
             abi_Pack erc20ABI "approve"
               [VElem TAddress (peggyAddress s); VElem TUint256 maxUintAllowance] in
           match err with
           | Some _ => mret err
           | None => '(_, err) ← pcall (SendTx erc20 txData); mret err
           end
         else mret None);
      match approveErr with
      | Some _ => mret (None, approveErr)
      | None =>
          let '(txData, err) :=
            abi_Pack peggyABI "sendToCosmos"
              [VElem TAddress erc20; VBytes (padDestination cosmosAccAddress);
               VElem TUint256 amount] in
          match err with
          | Some _ => mret (None, err)
          | None =>
              '(txHash, err) ← pcall (SendTx (peggyAddress s) txData);
              match err with
              | Some _ => mret (None, err)
              | None => mret (Some txHash, None)
              end
          end
      end
  end.

End peggy.
