(* ===== verification/Bridge.v ===== *)
(** * Bridge: the transactions of the relayer are accepted by the contract

    Links the Go code that checks and repacks confirmations
    ([Confirmations.v], [EthPeggy.v]) with the Solidity code that verifies them
    ([PeggySol.v]). *)
From S2P Require Import Prelude Effects GoFloat Types External Model PeggySol Confirmations.
From S2P Require Import Checkpoint EthPeggy.

Section bridge.
Context {GE : Geth} {SH : Shopspring} {EV : Evm}.

(** Members as the chain normalises them. *)
Record wf_members (ms : list BridgeValidator) : Prop := {
  wf_powers : Forall (fun m => small (Power m)) ms;
  wf_count : Z.of_nat (length ms) < 2 ^ 64
}.

(** Every counted confirmation is a signature of the hash [h] by its member. *)
Definition good_confirms (confirm_of : string -> option string) (ms : list BridgeValidator)
    (h : Hash) : Prop :=
  forall m sig v r s, m ∈ ms -> confirm_of (EthereumAddress m) = Some sig ->
    sigToVRS sig = Some (v, r, s) ->
    verifySig (HexToAddress (EthereumAddress m)) h v r s = true.

Lemma sigToVRS_nonzero sig v r s : sigToVRS sig = Some (v, r, s) -> v <> 0.
Proof.
  unfold sigToVRS. destruct (FromHex sig !! 64%nat) as [b|]; [|done].
  destruct (Z.eqb_spec (byte_Z b) 0); [by intros [= <- <- <-]|].
  destruct (Z.eqb_spec (byte_Z b) 1); [by intros [= <- <- <-]|]. by intros [= <- <- <-].
Qed.

Lemma repacked_for_cons confirm_of m ms rp :
  repacked_for confirm_of (m :: ms) rp ->
  exists v r s rp', rp = repacked_cons (HexToAddress (EthereumAddress m)) (Power m) v r s rp' /\
    entry_of confirm_of m v r s /\ repacked_for confirm_of ms rp'.
Proof.
  destruct rp as [ra rpw rv rr rs]. intros (Ha & Hp & Hv & Hr & Hs & Hi). simpl in *. subst ra rpw.
  destruct rv as [|v rv], rr as [|r rr], rs as [|s rs]; simpl in *; try lia.
  exists v, r, s, (MkRepacked (map (fun m => HexToAddress (EthereumAddress m)) ms) (map Power ms) rv rr rs).
  split; [done|]. split.
  - destruct (Hi 0%nat m eq_refl) as (v' & r' & s' & [= <-] & [= <-] & [= <-] & He). done.
  - repeat split; simpl; try lia. intros i. apply (Hi (S i)).
Qed.

Lemma repacked_signed_sum confirm_of ms rp :
  repacked_for confirm_of ms rp ->
  signed_sum (rp_powers rp) (rp_v rp) = signedPower confirm_of ms.
Proof.
  revert rp. induction ms as [|m ms IH]; intros rp H.
  - destruct H as (_ & -> & _). done.
  - apply repacked_for_cons in H as (v & r & s & rp' & -> & He & H). simpl. rewrite (IH _ H).
    unfold entry_of in He. destruct (confirm_of (EthereumAddress m)) as [sig|].
    + apply sigToVRS_nonzero in He. by rewrite (proj2 (Z.eqb_neq _ _) He).
    + destruct He as (-> & _). done.
Qed.

Lemma repacked_sigs_verify confirm_of ms rp h :
  repacked_for confirm_of ms rp -> good_confirms confirm_of ms h ->
  sigs_verify (rp_validators rp) (rp_v rp) (rp_r rp) (rp_s rp) h.
Proof.
  revert rp. induction ms as [|m ms IH]; intros rp H Hg.
  - destruct H as (-> & _). by intros i val.
  - apply repacked_for_cons in H as (v & r & s & rp' & -> & He & H).
    apply sigs_verify_cons. split.
    + intros Hne. unfold entry_of in He.
      destruct (confirm_of (EthereumAddress m)) as [sig|] eqn:E.
      * by apply (Hg m sig); [left|..].
      * by destruct He.
    + apply IH; [done|]. intros m' sig v' r' s' Hm. apply Hg. by right.
Qed.

Lemma wf_members_u64 ms : wf_members ms -> Forall (fun m => is_u64 (Power m)) ms.
Proof. intros [H _]. eapply Forall_impl; [exact H|]. unfold small, is_u64. lia. Qed.

(** Repacked confirmations of more than the threshold pass the contract's check. *)
Lemma repacked_signatures_pass confirm_of vs rp a h th :
  repacked_for confirm_of (vs_Members vs) rp -> wf_members (vs_Members vs) ->
  good_confirms confirm_of (vs_Members vs) h ->
  valset_args (rp_validators rp) (rp_powers rp) vs = Some a ->
  th < signedPower confirm_of (vs_Members vs) ->
  signatures_pass a (rp_v rp) (rp_r rp) (rp_s rp) h th.
Proof.
  intros Hrp Hwf Hg Ha Hth. unfold valset_args in Ha.
  destruct (vs_RewardAmount vs) as [rw|]; simpl in Ha; [|done]. injection Ha as <-.
  pose proof (repacked_sigs_verify _ _ _ _ Hrp Hg) as Hver.
  pose proof (repacked_signed_sum _ _ _ Hrp) as Hsum.
  pose proof (signedPower_range confirm_of _ (wf_members_u64 _ Hwf)) as Hrange.
  pose proof (wf_count _ Hwf) as Hcount.
  destruct Hrp as (Hval & Hpow & Hv & Hr & Hs & _).
  split; cbn [va_Validators va_Powers]; rewrite ?Hsum; try done;
    rewrite ?Hval, ?Hpow, ?length_map; try done.
  - apply Forall_map. eapply Forall_impl; [apply (wf_members_u64 _ Hwf)|].
    unfold is_u64. simpl. lia.
  - lia.
Qed.

(** Arguments of [updateValset] and [submitBatch] within their types. *)
Record wf_sigs (v : list Z) (r s : list Hash) : Prop := {
  ws_v : Forall (fun x => 0 <= x < 256) v;
  ws_r : Forall is_u256 r;
  ws_s : Forall is_u256 s;
  ws_length : Z.of_nat (length v) < 2 ^ 64 /\ Z.of_nat (length r) < 2 ^ 64 /\ Z.of_nat (length s) < 2 ^ 64
}.

Record wf_batch (amounts : list Z) (dests : list Address) (fees : list Z) (nonce : Z) (token : Address)
    (timeout : Z) : Prop := {
  wb_amounts : Forall is_u256 amounts;
  wb_dests : Forall is_addr dests;
  wb_fees : Forall is_u256 fees;
  wb_nonce : is_u256 nonce;
  wb_token : is_addr token;
  wb_timeout : is_u256 timeout;
  wb_length : Z.of_nat (length amounts) < 2 ^ 64 /\ Z.of_nat (length dests) < 2 ^ 64 /\ Z.of_nat (length fees) < 2 ^ 64
}.

Lemma sigToVRS_ranges sig v r s :
  sigToVRS sig = Some (v, r, s) -> 0 <= v < 256 /\ is_u256 r /\ is_u256 s.
Proof.
  unfold sigToVRS. destruct (FromHex sig !! 64%nat) as [b|] eqn:Hb; [|done].
  apply lookup_lt_Some in Hb. pose proof (byte_Z_range b) as Hr. intros [= <- <- <-].
  split; [destruct (_ =? 0); [lia|]; destruct (_ =? 1); lia|].
  assert (forall bs, length bs = 32%nat -> is_u256 (BytesToHash bs)) as Hh.
  { intros bs Hl. rewrite BytesToHash_32 by done. pose proof (be_Z_range bs) as H. rewrite Hl in H. exact H. }
  split; apply Hh; rewrite length_take, ?length_drop; lia.
Qed.

(** What is repacked is within the types of the contract. *)
Lemma repacked_wf_sigs confirm_of ms rp :
  repacked_for confirm_of ms rp -> Z.of_nat (length ms) < 2 ^ 64 -> wf_sigs (rp_v rp) (rp_r rp) (rp_s rp).
Proof.
  intros H Hlen. pose proof H as (_ & _ & Hv & Hr & Hs & _).
  assert (Forall (fun x => 0 <= x < 256) (rp_v rp) /\ Forall is_u256 (rp_r rp) /\ Forall is_u256 (rp_s rp))
    as (Hfv & Hfr & Hfs); [|split; try done; lia].
  clear Hv Hr Hs Hlen. revert rp H. induction ms as [|m ms IH]; intros rp H.
  - destruct rp as [ra rpw [|] [|] [|]]; destruct H as (_ & _ & Hv & Hr & Hs & _); try done.
  - apply repacked_for_cons in H as (v & r & s & rp' & -> & He & H). destruct (IH rp' H) as (Hv & Hr & Hs).
    assert (0 <= v < 256 /\ is_u256 r /\ is_u256 s) as (? & ? & ?); [|by repeat split; constructor].
    unfold entry_of in He. destruct (confirm_of _); [by eapply sigToVRS_ranges|].
    destruct He as (-> & -> & ->). unfold is_u256. lia.
Qed.

(** The contract is in a state where the validator set [cur] can act. *)
Record ready (c : Contract) (cur : ValsetArgs) : Prop := {
  rd_unpaused : paused c = false;
  rd_checkpoint : makeCheckpoint cur (state_peggyId c) = state_lastValsetCheckpoint c;
  rd_event : state_lastEventNonce c + 1 < 2 ^ 256;
  rd_threshold : 10 ^ 8 * state_powerThreshold c <= 65999992 * totalPeggyPower
}.

Lemma repack_contract_threshold confirm_of vs rp c cur :
  repack_contract confirm_of vs rp None -> ready c cur ->
  state_powerThreshold c < signedPower confirm_of (vs_Members vs).
Proof.
  intros (_ & _ & Hlow & _) Hready. pose proof (rd_threshold _ _ Hready).
  destruct (Z.le_gt_cases (10 ^ 8 * signedPower confirm_of (vs_Members vs))
              (65999992 * totalPeggyPower)) as [Hle|]; [|lia].
  by specialize (Hlow Hle).
Qed.

(** ** Acceptance by the contract *)

(** The contract executes the call, to [c'], when the token contracts accept its payments; when
    they do not, it reverts. *)
Definition executes_update (sender : Address) (new cur : ValsetArgs) (v : list Z) (r s : list Hash)
    (c c' : Contract) : Prop :=
  forall ok, updateValset ok sender new cur v r s c =
    if ok (reward_ops sender new)
    then Some (c', reward_ops sender new, valset_event new (state_lastEventNonce c + 1)) else None.

Definition executes_batch (sender : Address) (bn : Z) (cur : ValsetArgs) (v : list Z) (r s : list Hash)
    (amounts : list Z) (dests : list Address) (fees : list Z) (nonce : Z) (token : Address)
    (timeout : Z) (c c' : Contract) : Prop :=
  let ops := batch_ops c sender token amounts dests fees in
  forall ok, submitBatch ok sender bn cur v r s amounts dests fees nonce token timeout c =
    if ok ops then Some (c', ops, EvBatchExecuted nonce token (state_lastEventNonce c + 1)) else None.

Lemma updateValset_accepts sender new cur v r s c :
  ready c cur ->
  signatures_pass cur v r s (makeCheckpoint new (state_peggyId c)) (state_powerThreshold c) ->
  va_ValsetNonce cur < va_ValsetNonce new < va_ValsetNonce cur + MAX_NONCE_JUMP_LIMIT ->
  is_u64 (va_ValsetNonce cur) ->
  validateValidatorSet (va_Validators new) (va_Powers new) (state_powerThreshold c) = Some tt ->
  exists c', executes_update sender new cur v r s c c'.
Proof.
  intros [Hp Hc He _] [Hw Hs]%signatures_pass_ok Hn Hu Hnew.
  eexists. intros ok. unfold updateValset, updateValset_checks.
  rewrite Hp, (proj2 (Z.ltb_lt _ _) (proj1 Hn)), Hw. cbn [negb require mbind option_bind].
  rewrite (add256_Some (va_ValsetNonce cur)) by (unfold is_u64, MAX_NONCE_JUMP_LIMIT in *; lia). cbn [mbind option_bind].
  rewrite (proj2 (Z.ltb_lt _ _) (proj2 Hn)), Hc, Z.eqb_refl. cbn [require mbind option_bind].
  rewrite Hs. cbn [mbind option_bind]. rewrite Hnew. cbn [mbind option_bind].
  destruct (ok (reward_ops sender new)); [|done]. cbn [require mbind option_bind].
  unfold emit. cbn [state_lastEventNonce]. by rewrite add256_Some by lia.
Qed.

Lemma payDestinations_total native token amounts dests fees tot :
  length dests = length amounts -> length fees = length amounts ->
  Forall (fun f => 0 <= f) fees -> 0 <= tot -> tot + sum_powers fees < 2 ^ 256 ->
  payDestinations native token amounts dests fees tot
    = Some (payments native token amounts dests, tot + sum_powers fees).
Proof.
  revert dests fees tot. induction amounts as [|a amounts IH]; intros [|d dests] [|f fees] tot;
    simpl; try done.
  { intros _ _ _ _ _. by rewrite Z.add_0_r. }
  intros [= H1] [= H2] [Hf Hfs]%Forall_cons Ht Hov.
  assert (0 <= foldr Z.add 0 fees) by (clear -Hfs; induction Hfs; simpl; lia).
  rewrite add256_Some by (unfold sum_powers in *; lia). cbn [mbind option_bind].
  rewrite IH by (try done; unfold sum_powers in *; lia). cbn [mbind option_bind].
  unfold sum_powers. do 2 f_equal. lia.
Qed.

Lemma submitBatch_accepts sender bn cur v r s amounts dests fees nonce token timeout c :
  ready c cur ->
  signatures_pass cur v r s
    (batchHash (state_peggyId c) amounts dests fees nonce token timeout) (state_powerThreshold c) ->
  lastBatchNonce c token < nonce < lastBatchNonce c token + MAX_NONCE_JUMP_LIMIT ->
  lastBatchNonce c token < 2 ^ 64 -> bn < timeout ->
  length dests = length amounts -> length fees = length amounts ->
  Forall (fun f => 0 <= f) fees -> sum_powers fees < 2 ^ 256 ->
  exists c', executes_batch sender bn cur v r s amounts dests fees nonce token timeout c c'.
Proof.
  intros [Hp Hc He _] [Hw Hs]%signatures_pass_ok Hn Hu Ht Hd Hf Hnn Hov.
  set (ops := batch_ops c sender token amounts dests fees). eexists. intros ok. fold ops.
  unfold submitBatch, submitBatch_checks.
  rewrite Hp, (proj2 (Z.ltb_lt _ _) (proj1 Hn)). cbn [negb require mbind option_bind].
  rewrite (add256_Some (lastBatchNonce c token)) by (unfold MAX_NONCE_JUMP_LIMIT in *; lia). cbn [mbind option_bind].
  rewrite (proj2 (Z.ltb_lt _ _) (proj2 Hn)), (proj2 (Z.ltb_lt _ _) Ht), Hw, Hc, Z.eqb_refl, Hd, Hf,
    Nat.eqb_refl.
  cbn [require mbind option_bind andb]. rewrite Hs. cbn [mbind option_bind].
  rewrite payDestinations_total by done. cbn [mbind option_bind].
  change (payments _ _ _ _ ++ _) with ops.
  destruct (ok ops); [|done]. cbn [require mbind option_bind].
  unfold emit. cbn [state_lastEventNonce]. by rewrite add256_Some by lia.
Qed.


(** ** What the contract client sends *)

(** The transactions of a trace: recipient and call data. *)
Definition sends (tr : list (event PeggyI)) : list (Address * bytes) :=
  omap (fun ev : event PeggyI => match ev with
                 | existT (SendTx r d) _ => Some (r, d)
                 | _ => None
                 end) tr.

Lemma wp_IsPendingTxInput p d w Q :
  (forall tr b, sends tr = [] -> Q tr (Done b)) -> wp (IsPendingTxInput p d w) Q.
Proof.
  intros HQ. induction p as [|e p IH]; cbn [IsPendingTxInput]; [by apply HQ|].
  case_bool_decide; [|exact IH]. intros now. by apply HQ.
Qed.

Definition updateValset_data (new cur : ValsetArgs) (v : list Z) (r s : list Hash) : bytes :=
  abi_MethodID peggyABI "updateValset" ++
  abi_encode [abi_of_args new; abi_of_args cur; VArray TUint8 v; VArray TBytes32 r;
              VArray TBytes32 s].

Definition submitBatch_data (cur : ValsetArgs) (v : list Z) (r s : list Hash)
    (amounts : list Z) (dests : list Address) (fees : list Z) (nonce : Z) (token : Address)
    (timeout : Z) : bytes :=
  abi_MethodID peggyABI "submitBatch" ++
  abi_encode [abi_of_args cur; VArray TUint8 v; VArray TBytes32 r; VArray TBytes32 s;
              VArray TUint256 amounts; VArray TAddress dests; VArray TUint256 fees;
              VElem TUint256 nonce; VElem TAddress token; VElem TUint256 timeout].

(** The outcome of the last step of both operations: look for a pending
    duplicate, send, and return the hash or the error. *)
Definition send_outcome (to : Address) (data : bytes) (dup : err)
    (tr : list (event PeggyI)) (o : outcome (option Hash * error)) : Prop :=
  (sends tr = [] /\ o = Done (None, Some dup)) \/
  (exists tr0 r, tr = tr0 ++ [@Ev PeggyI (SendTx to data) r] /\ sends tr0 = [] /\
     o = Done (match r.2 with Some e => (None, Some e) | None => (Some r.1, None) end)).

Lemma send_outcome_sends to d dup tr o to' data :
  send_outcome to d dup tr o -> (to', data) ∈ sends tr -> to' = to /\ data = d.
Proof.
  intros [[-> _]|(tr0 & r & -> & Htr & _)]; [by intros ?%elem_of_nil|].
  unfold sends in *. rewrite omap_app, Htr. cbn. by intros [= -> ->]%list_elem_of_singleton.
Qed.

Lemma wp_send_unless_pending p d w to dup :
  wp (pending ← IsPendingTxInput p d w;
      if (pending : bool) then mret (None, Some dup)
      else '(txHash, err) ← pcall (SendTx to d);
           match err with
           | Some _ => mret (None, err)
           | None => mret (Some txHash, None)
           end) (send_outcome to d dup).
Proof.
  apply wp_bind, wp_IsPendingTxInput. intros tr [] Htr; cbn.
  - left. by rewrite app_nil_r.
  - intros [h [e|]]; cbn; right; exists tr; by eexists.
Qed.

(** [SendEthValsetUpdate] once the confirmations have been checked. *)
Lemma SendEthValsetUpdate_passed s old new confirms rp cur newA :
  vs_Nonce old < vs_Nonce new ->
  checkValsetSigsAndRepack old confirms = Some (rp, None) ->
  valset_args (rp_validators rp) (rp_powers rp) old = Some cur ->
  valset_args_of new = Some newA ->
  wp (SendEthValsetUpdate s old new confirms)
    (send_outcome (peggyAddress s) (updateValset_data newA cur (rp_v rp) (rp_r rp) (rp_s rp))
       errPendingValset).
Proof.
  intros Hn Hc Hcur Hnew. unfold SendEthValsetUpdate, valset_args_of in *.
  rewrite (proj2 (Z.leb_gt _ _) Hn). destruct (validatorsAndPowers new) as [nv np].
  rewrite Hc. cbn [deref mbind prog_mbind prog_bind].
  rewrite Hcur, Hnew. cbn [deref mbind prog_mbind prog_bind].
  erewrite abi_Pack_ok by reflexivity. apply wp_send_unless_pending.
Qed.

(** ... and when they do not pass, nothing is sent. *)
Lemma SendEthValsetUpdate_refused s old new confirms rp e :
  checkValsetSigsAndRepack old confirms = Some (rp, Some e) ->
  wp (SendEthValsetUpdate s old new confirms) (fun tr o =>
    tr = [] /\ exists e', o = Done (None, Some e')).
Proof.
  intros Hc. unfold SendEthValsetUpdate.
  destruct (_ <=? _).
  { cbn. eauto. }
  destruct (validatorsAndPowers new) as [nv np]. rewrite Hc. cbn. split; eauto.
Qed.

Lemma SendTransactionBatch_passed s vs batch confirms rp cur amounts dests fees :
  checkBatchSigsAndRepack vs confirms = Some (rp, None) ->
  valset_args (rp_validators rp) (rp_powers rp) vs = Some cur ->
  batch_values batch = Some (amounts, dests, fees) ->
  wp (SendTransactionBatch s vs batch confirms)
    (send_outcome (peggyAddress s)
       (submitBatch_data cur (rp_v rp) (rp_r rp) (rp_s rp) amounts dests fees (BatchNonce batch)
          (HexToAddress (TokenContract batch)) (BatchTimeout batch))
       errPendingBatch).
Proof.
  intros Hc Hcur Hb. unfold SendTransactionBatch, batch_values in *.
  apply bind_Some in Hb as ([[la ld] lf] & Hv & Hb). rewrite Hc, Hv.
  cbn [deref mbind prog_mbind prog_bind]. rewrite Hcur. cbn [deref prog_bind].
  apply bind_Some in Hb as (la' & Ha & (lf' & Hf & [= <- <- <-])%bind_Some). rewrite Ha.
  cbn [deref mbind prog_mbind prog_bind]. rewrite Hf. cbn [deref mbind prog_mbind prog_bind].
  erewrite abi_Pack_ok by reflexivity. apply wp_send_unless_pending.
Qed.

Lemma SendTransactionBatch_refused s vs batch confirms rp e :
  checkBatchSigsAndRepack vs confirms = Some (rp, Some e) ->
  wp (SendTransactionBatch s vs batch confirms) (fun tr o =>
    tr = [] /\ exists e', o = Done (None, Some e')).
Proof. intros Hc. unfold SendTransactionBatch. rewrite Hc. cbn. split; eauto. Qed.

(** The contract of the check functions, on every list of confirmations. *)
Lemma checkValset_contract vs confirms rp e :
  wf_members (vs_Members vs) -> confirms <> [] ->
  checkValsetSigsAndRepack vs confirms = Some (rp, e) ->
  repack_contract (valset_confirm_of confirms) vs rp e.
Proof.
  intros Hwf Hne. unfold checkValsetSigsAndRepack.
  destruct (Nat.eqb_spec (length confirms) 0) as [H0|_];
    [by apply nil_length_inv in H0|].
  intros ([rp' good] & Hr & H)%bind_Some.
  pose proof (repack_contract_intro (valset_confirm_of confirms) _ vs rp' good
    (valsetGoodSig_last confirms) (wf_members_u64 _ Hwf) (wf_count _ Hwf) Hr) as Hrc.
  destruct (float_lt _ _); by injection H as <- <-.
Qed.

Lemma checkBatch_contract vs confirms rp e :
  wf_members (vs_Members vs) -> confirms <> [] ->
  checkBatchSigsAndRepack vs confirms = Some (rp, e) ->
  repack_contract (batch_confirm_of confirms) vs rp e.
Proof.
  intros Hwf Hne. unfold checkBatchSigsAndRepack.
  destruct (Nat.eqb_spec (length confirms) 0) as [H0|_];
    [by apply nil_length_inv in H0|].
  intros ([rp' good] & Hr & H)%bind_Some.
  pose proof (repack_contract_intro (batch_confirm_of confirms) _ vs rp' good
    (batchGoodSig_last confirms) (wf_members_u64 _ Hwf) (wf_count _ Hwf) Hr) as Hrc.
  destruct (float_lt _ _); by injection H as <- <-.
Qed.

Lemma checkValset_total vs confirms :
  (forall m sig, m ∈ vs_Members vs ->
     valset_confirm_of confirms (EthereumAddress m) = Some sig -> long_sig sig) ->
  exists rp e, checkValsetSigsAndRepack vs confirms = Some (rp, e).
Proof.
  intros Hlong. unfold checkValsetSigsAndRepack. destruct (_ =? _)%nat; [by eexists _, _|].
  destruct (repackMembers_total (valsetGoodSig (valsetSignerToSig confirms)) (vs_Members vs))
    as [[rp good] ->].
  { intros m sig Hm. rewrite valsetGoodSig_last. by apply Hlong. }
  simpl. destruct (float_lt _ _); by eexists _, _.
Qed.

Lemma checkBatch_total vs confirms :
  (forall m sig, m ∈ vs_Members vs ->
     batch_confirm_of confirms (EthereumAddress m) = Some sig -> long_sig sig) ->
  exists rp e, checkBatchSigsAndRepack vs confirms = Some (rp, e).
Proof.
  intros Hlong. unfold checkBatchSigsAndRepack. destruct (_ =? _)%nat; [by eexists _, _|].
  destruct (repackMembers_total (batchGoodSig (batchSignerToSig confirms)) (vs_Members vs))
    as [[rp good] ->].
  { intros m sig Hm. rewrite batchGoodSig_last. by apply Hlong. }
  simpl. destruct (float_lt _ _); by eexists _, _.
Qed.

End bridge.
