(* ===== verification/BridgeFacts.v ===== *)
(** * BridgeFacts: properties of the hashes, the checks and the transactions *)
From S2P Require Import Prelude Effects GoFloat Types External Model PeggySol Confirmations.
From S2P Require Import Checkpoint EthPeggy Bridge.

Section facts.
Context {GE : Geth} {SH : Shopspring} {EV : Evm}.

(** C22: the hash that the orchestrators sign for a validator set is the
    checkpoint that [Peggy.sol] computes from the arguments that the relayer
    passes, for nonces and powers below 2^63. *)
Theorem EncodeValsetConfirm_is_checkpoint id vs a :
  small (vs_Nonce vs) -> Forall (fun m => small (Power m)) (vs_Members vs) ->
  valset_args_of vs = Some a ->
  EncodeValsetConfirm id vs = Some (makeCheckpoint a id).
Proof. apply EncodeValsetConfirm_checkpoint. Qed.

(** The hash that the orchestrators sign for a batch is the one that
    [submitBatch] computes from the values that the relayer passes. *)
Lemma EncodeTxBatchConfirm_is_batch_hash id b amounts dests fees :
  small (BatchNonce b) -> small (BatchTimeout b) ->
  batch_values b = Some (amounts, dests, fees) ->
  EncodeTxBatchConfirm id b =
  Some (batchHash id amounts dests fees (BatchNonce b) (HexToAddress (TokenContract b))
          (BatchTimeout b)).
Proof. apply EncodeTxBatchConfirm_hash. Qed.

Lemma repacked_args confirm_of vs rp :
  repacked_for confirm_of (vs_Members vs) rp ->
  valset_args (rp_validators rp) (rp_powers rp) vs = valset_args_of vs.
Proof. by intros (-> & -> & _). Qed.

Lemma check_nil_confirms vs : checkValsetSigsAndRepack vs [] =
  Some (repacked_nil, Some (ErrNew "no signatures in valset confirmation")).
Proof. done. Qed.

Lemma valset_args_of_fields vs a :
  valset_args_of vs = Some a ->
  va_ValsetNonce a = vs_Nonce vs /\ va_Powers a = map Power (vs_Members vs) /\
  length (va_Powers a) = length (va_Validators a).
Proof.
  unfold valset_args_of, valset_args, validatorsAndPowers.
  destruct (vs_RewardAmount vs); simpl; [|done]. intros [= <-]. simpl. by rewrite !length_map.
Qed.

Lemma new_valset_accepted vs a th :
  wf_members (vs_Members vs) -> valset_args_of vs = Some a -> th < sum_powers (va_Powers a) ->
  validateValidatorSet (va_Validators a) (va_Powers a) th = Some tt.
Proof.
  intros [Hp Hn] (_ & Hpow & Hl)%valset_args_of_fields Hth.
  assert (0 <= sum_powers (va_Powers a) <= Z.of_nat (length (vs_Members vs)) * 2 ^ 63
          /\ Forall (fun p => 0 <= p) (va_Powers a)) as [Hsum Hnn].
  { rewrite Hpow. clear - Hp. unfold small in Hp. induction Hp as [|m ms Hm _ [IH1 IH2]].
    - split; [simpl; lia|by constructor].
    - cbn [sum_powers map foldr length]. unfold sum_powers in IH1.
      split; [lia|constructor; [lia|done]]. }
  apply validateValidatorSet_ok; try done. lia.
Qed.

Lemma SendEthValsetUpdate_accepted s old new confirms newA curA c sender h :
  wf_members (vs_Members old) -> wf_members (vs_Members new) ->
  small (vs_Nonce old) -> small (vs_Nonce new) ->
  vs_Nonce new < vs_Nonce old + MAX_NONCE_JUMP_LIMIT ->
  valset_args_of old = Some curA -> valset_args_of new = Some newA ->
  ready c curA ->
  EncodeValsetConfirm (state_peggyId c) new = Some h ->
  good_confirms (valset_confirm_of confirms) (vs_Members old) h ->
  state_powerThreshold c < sum_powers (va_Powers newA) ->
  wp (SendEthValsetUpdate s old new confirms) (fun tr _ =>
    forall to data, (to, data) ∈ sends tr ->
      to = peggyAddress s /\
      exists v r s' c',
        data = updateValset_data newA curA v r s' /\ wf_sigs v r s' /\
        executes_update sender newA curA v r s' c c').
Proof.
  intros Hwo Hwn Hno Hnn Hlim Hcur Hnew Hready Henc Hgood Hth.
  destruct (Z.le_gt_cases (vs_Nonce new) (vs_Nonce old)) as [Hle|Hgt].
  { unfold SendEthValsetUpdate. rewrite (proj2 (Z.leb_le _ _) Hle). cbn.
    by intros to data ?%elem_of_nil. }
  destruct (checkValsetSigsAndRepack old confirms) as [[rp [e|]]|] eqn:Hc.
  - eapply wp_mono; [by eapply SendEthValsetUpdate_refused|].
    intros tr o [-> _] to data Hin. by apply elem_of_nil in Hin.
  - assert (confirms <> []) as Hne by (intros ->; done).
    pose proof (checkValset_contract _ _ _ _ Hwo Hne Hc) as Hrc.
    pose proof (repack_contract_threshold _ _ _ _ _ Hrc Hready) as Hpow.
    destruct Hrc as [Hrp _]. pose proof (repacked_args _ _ _ Hrp) as Hargs.
    rewrite Hcur in Hargs.
    eapply wp_mono; [by eapply SendEthValsetUpdate_passed|].
    intros tr o Ho to data Hin. apply (send_outcome_sends _ _ _ _ _ _ _ Ho) in Hin as [-> ->]. split; [done|].
    exists (rp_v rp), (rp_r rp), (rp_s rp).
    edestruct (updateValset_accepts sender newA curA (rp_v rp) (rp_r rp) (rp_s rp) c)
      as (c' & Hup); [done|..].
    + eapply repacked_signatures_pass; try done.
      erewrite EncodeValsetConfirm_checkpoint in Henc by (try done; apply Hwn).
      by injection Henc as ->.
    + rewrite (proj1 (valset_args_of_fields _ _ Hcur)), (proj1 (valset_args_of_fields _ _ Hnew)).
      lia.
    + rewrite (proj1 (valset_args_of_fields _ _ Hcur)). unfold small, is_u64 in *. lia.
    + by eapply new_valset_accepted.
    + pose proof (repacked_wf_sigs _ _ _ Hrp (wf_count _ Hwo)). eauto 10.
  - unfold SendEthValsetUpdate. rewrite (proj2 (Z.leb_gt _ _) Hgt).
    destruct (validatorsAndPowers new). rewrite Hc. cbn. by intros to data ?%elem_of_nil.
Qed.

(** C8: every [updateValset] transaction that the relayer sends goes to the bridge
    contract, which executes it, whoever sends it, exactly when the reward token accepts the
    payment of the reward.  The hypotheses: powers and nonces of both sets are below 2^63; the
    new nonce is less than [MAX_NONCE_JUMP_LIMIT] above the old one; the contract is not paused,
    has event nonces left, and is at the checkpoint of the old set with a threshold of at most
    65.999992%; the new set's power is above the threshold; and every counted confirmation is
    its signer's signature of the hash that the orchestrators sign ([EncodeValsetConfirm])
    for the new set. *)
Theorem relayed_valset_accepted s old new confirms newA curA c sender h :
  wf_members (vs_Members old) -> wf_members (vs_Members new) ->
  small (vs_Nonce old) -> small (vs_Nonce new) ->
  vs_Nonce new < vs_Nonce old + MAX_NONCE_JUMP_LIMIT ->
  valset_args_of old = Some curA -> valset_args_of new = Some newA ->
  ready c curA ->
  EncodeValsetConfirm (state_peggyId c) new = Some h ->
  good_confirms (valset_confirm_of confirms) (vs_Members old) h ->
  state_powerThreshold c < sum_powers (va_Powers newA) ->
  wp (SendEthValsetUpdate s old new confirms) (fun tr _ =>
    forall to data, (to, data) ∈ sends tr ->
      to = peggyAddress s /\
      exists v r s' c',
        data = updateValset_data newA curA v r s' /\
        executes_update sender newA curA v r s' c c').
Proof.
  intros. eapply wp_mono; [by eapply SendEthValsetUpdate_accepted|].
  intros tr o Hs to data Hin. destruct (Hs to data Hin) as (? & v & r & s' & c' & ? & _ & ?). eauto 10.
Qed.


Lemma batch_values_lengths batch amounts dests fees :
  batch_values batch = Some (amounts, dests, fees) ->
  length dests = length amounts /\ length fees = length amounts.
Proof.
  unfold batch_values, getBatchCheckpointValues.
  intros ([[la ld] lf] & (la0 & Ea & (lf0 & Ef & [= <- <- <-])%bind_Some)%bind_Some & Hv)%bind_Some.
  apply bind_Some in Hv as (la' & Ea' & (lf' & Ef' & [= <- <- <-])%bind_Some).
  apply length_mapM in Ea, Ef, Ea', Ef'. rewrite length_map. lia.
Qed.

Lemma SendTransactionBatch_accepted s vs batch confirms cur c sender bn h amounts dests fees :
  wf_members (vs_Members vs) ->
  small (BatchNonce batch) -> small (BatchTimeout batch) ->
  valset_args_of vs = Some cur -> batch_values batch = Some (amounts, dests, fees) ->
  ready c cur ->
  EncodeTxBatchConfirm (state_peggyId c) batch = Some h ->
  good_confirms (batch_confirm_of confirms) (vs_Members vs) h ->
  0 <= lastBatchNonce c (HexToAddress (TokenContract batch)) < BatchNonce batch ->
  BatchNonce batch < lastBatchNonce c (HexToAddress (TokenContract batch)) + MAX_NONCE_JUMP_LIMIT ->
  bn < BatchTimeout batch ->
  Forall (fun f => 0 <= f) fees -> sum_powers fees < 2 ^ 256 ->
  wp (SendTransactionBatch s vs batch confirms) (fun tr _ =>
    forall to data, (to, data) ∈ sends tr ->
      to = peggyAddress s /\
      exists v r s' c',
        data = submitBatch_data cur v r s' amounts dests fees (BatchNonce batch)
                 (HexToAddress (TokenContract batch)) (BatchTimeout batch) /\ wf_sigs v r s' /\
        executes_batch sender bn cur v r s' amounts dests fees (BatchNonce batch)
          (HexToAddress (TokenContract batch)) (BatchTimeout batch) c c').
Proof.
  intros Hw Hn Ht Hcur Hb Hready Henc Hgood Hlo Hhi Hbn Hfees Hsum.
  destruct (checkBatchSigsAndRepack vs confirms) as [[rp [e|]]|] eqn:Hc.
  - eapply wp_mono; [by eapply SendTransactionBatch_refused|].
    intros tr o [-> _] to data Hin. by apply elem_of_nil in Hin.
  - assert (confirms <> []) as Hne by (intros ->; done).
    pose proof (checkBatch_contract _ _ _ _ Hw Hne Hc) as Hrc.
    pose proof (repack_contract_threshold _ _ _ _ _ Hrc Hready) as Hpow.
    destruct Hrc as [Hrp _]. pose proof (repacked_args _ _ _ Hrp) as Hargs.
    rewrite Hcur in Hargs. pose proof (batch_values_lengths _ _ _ _ Hb) as [Hld Hlf].
    eapply wp_mono; [by eapply SendTransactionBatch_passed|].
    intros tr o Ho to data Hin. apply (send_outcome_sends _ _ _ _ _ _ _ Ho) in Hin as [-> ->]. split; [done|].
    exists (rp_v rp), (rp_r rp), (rp_s rp).
    erewrite EncodeTxBatchConfirm_hash in Henc by done. injection Henc as <-.
    pose proof (repacked_signatures_pass _ _ _ _ _ _ Hrp Hw Hgood Hargs Hpow) as Hpass.
    destruct (submitBatch_accepts sender bn cur (rp_v rp) (rp_r rp) (rp_s rp)
                amounts dests fees (BatchNonce batch) (HexToAddress (TokenContract batch))
                (BatchTimeout batch) c Hready Hpass) as (c' & Hup);
      [lia|unfold small in *; lia|done..|].
    pose proof (repacked_wf_sigs _ _ _ Hrp (wf_count _ Hw)). by exists c'.
  - unfold SendTransactionBatch. rewrite Hc. cbn. by intros to data ?%elem_of_nil.
Qed.

(** Every [submitBatch] transaction that the relayer sends is accepted by the
    contract: when the batch is newer than the contract's last one for the token and
    has not timed out, and every counted confirmation is its signer's signature of
    the hash that the orchestrators sign for the batch ([EncodeTxBatchConfirm]). *)
Lemma relayed_batch_accepted s vs batch confirms cur c sender bn h amounts dests fees :
  wf_members (vs_Members vs) ->
  small (BatchNonce batch) -> small (BatchTimeout batch) ->
  valset_args_of vs = Some cur -> batch_values batch = Some (amounts, dests, fees) ->
  ready c cur ->
  EncodeTxBatchConfirm (state_peggyId c) batch = Some h ->
  good_confirms (batch_confirm_of confirms) (vs_Members vs) h ->
  0 <= lastBatchNonce c (HexToAddress (TokenContract batch)) < BatchNonce batch ->
  BatchNonce batch < lastBatchNonce c (HexToAddress (TokenContract batch)) + MAX_NONCE_JUMP_LIMIT ->
  bn < BatchTimeout batch ->
  Forall (fun f => 0 <= f) fees -> sum_powers fees < 2 ^ 256 ->
  wp (SendTransactionBatch s vs batch confirms) (fun tr _ =>
    forall to data, (to, data) ∈ sends tr ->
      to = peggyAddress s /\
      exists v r s' c',
        data = submitBatch_data cur v r s' amounts dests fees (BatchNonce batch)
                 (HexToAddress (TokenContract batch)) (BatchTimeout batch) /\
        executes_batch sender bn cur v r s' amounts dests fees (BatchNonce batch)
          (HexToAddress (TokenContract batch)) (BatchTimeout batch) c c').
Proof.
  intros. eapply wp_mono; [by eapply SendTransactionBatch_accepted|].
  intros tr o Hs to data Hin. destruct (Hs to data Hin) as (? & v & r & s' & c' & ? & _ & ?). eauto 10.
Qed.

(** [SendEthValsetUpdate] on a newer set confirmed by at least 66% of the old
    set's power: unless a duplicate is pending, it sends exactly one transaction,
    the packed [updateValset] call, and returns its hash or the sending error. *)
Lemma SendEthValsetUpdate_sends s old new confirms newA curA :
  wf_members (vs_Members old) -> vs_Nonce old < vs_Nonce new ->
  valset_args_of old = Some curA -> valset_args_of new = Some newA ->
  confirms <> [] ->
  (forall m sig, m ∈ vs_Members old ->
     valset_confirm_of confirms (EthereumAddress m) = Some sig -> long_sig sig) ->
  66 * totalPeggyPower <= 100 * signedPower (valset_confirm_of confirms) (vs_Members old) ->
  exists v r s', wp (SendEthValsetUpdate s old new confirms)
    (send_outcome (peggyAddress s) (updateValset_data newA curA v r s') errPendingValset).
Proof.
  intros Hw Hn Hcur Hnew Hne Hlong H66.
  destruct (checkValset_total old confirms Hlong) as (rp & e & Hc).
  pose proof (checkValset_contract _ _ _ _ Hw Hne Hc) as (Hrp & H1 & _).
  rewrite (H1 H66) in Hc. exists (rp_v rp), (rp_r rp), (rp_s rp).
  apply SendEthValsetUpdate_passed; try done. by rewrite (repacked_args _ _ _ Hrp).
Qed.

(** C21: [checkValsetSigsAndRepack] on a non-empty list of confirmations long
    enough to be split: the slices list every member in order with its power, and
    the last confirmation of its address as [v], [r], [s] or zeros without one; the
    error is nil at 66% of [totalPeggyPower] or more and
    [ErrInsufficientVotingPowerToPass] at 65.999992% or less. *)
Theorem checkValsetSigsAndRepack_correct vs confirms :
  wf_members (vs_Members vs) -> confirms <> [] ->
  (forall m sig, m ∈ vs_Members vs ->
     valset_confirm_of confirms (EthereumAddress m) = Some sig -> long_sig sig) ->
  exists rp e, checkValsetSigsAndRepack vs confirms = Some (rp, e) /\
    repack_contract (valset_confirm_of confirms) vs rp e.
Proof.
  intros Hw Hne Hlong.
  destruct (checkValset_total vs confirms Hlong) as (rp & e & Hc).
  exists rp, e. split; [done|]. by apply checkValset_contract.
Qed.

(** The same for [checkBatchSigsAndRepack]. *)
Lemma checkBatchSigsAndRepack_correct vs confirms :
  wf_members (vs_Members vs) -> confirms <> [] ->
  (forall m sig, m ∈ vs_Members vs ->
     batch_confirm_of confirms (EthereumAddress m) = Some sig -> long_sig sig) ->
  exists rp e, checkBatchSigsAndRepack vs confirms = Some (rp, e) /\
    repack_contract (batch_confirm_of confirms) vs rp e.
Proof.
  intros Hw Hne Hlong.
  destruct (checkBatch_total vs confirms Hlong) as (rp & e & Hc).
  exists rp, e. split; [done|]. by apply checkBatch_contract.
Qed.

End facts.

(** ** A concrete bridge: two validators, the first holds 69.8% of the power *)
Module Example.
#[local] Instance evm : Evm := {| ecrecover _ _ r _ := r mod 2 ^ 160 |}.

Definition addrA : string := "0x00000000000000000000000000000000000000aa".
Definition addrB : string := "0x00000000000000000000000000000000000000bb".
Definition sigA : string := hex_of_bytes (Z_be 32 0xaa ++ Z_be 32 5 ++ [Byte.x1b]).

Definition members : list BridgeValidator :=
  [MkBridgeValidator 3000000000 addrA; MkBridgeValidator 1294967295 addrB].
Definition old : Valset := MkValset 7 members 100 (Some 0) "0x0".
Definition new : Valset := MkValset 8 members 200 (Some 10) addrB.
Definition confirms : list MsgValsetConfirm := [MkMsgValsetConfirm "inj1a" addrA 8 sigA].
Definition batch : OutgoingTxBatch :=
  MkOutgoingTxBatch 3 900
    [MkOutgoingTransferTx addrA (Some (MkERC20Token addrB (Some 50)))
       (Some (MkERC20Token addrB (Some 2)))] addrB 0.
Definition batch_confirms : list MsgConfirmBatch := [MkMsgConfirmBatch "inj1a" 3 sigA addrA addrB].
Definition args (n reward : Z) (token : Address) : ValsetArgs :=
  MkValsetArgs [0xaa; 0xbb] [3000000000; 1294967295] n reward token.
Definition chain : Contract :=
  MkContract (makeCheckpoint (args 7 0 0) 42) ∅ 7 12 42 2834678000 ∅ false.
Definition client : peggyContract := MkPeggyContract None 0xcc [] 1000.

Lemma wf : wf_members members.
Proof. split; [|done]. by repeat constructor. Qed.

Lemma ready_chain : ready chain (args 7 0 0).
Proof. by split; vm_compute. Qed.

Lemma sigA_vrs : sigToVRS sigA = Some (27, 0xaa, 5).
Proof. by vm_compute. Qed.

Lemma addrA_address : HexToAddress addrA = 0xaa.
Proof. by vm_compute. Qed.

(** The only counted confirmation is A's, and it verifies for every hash. *)
Lemma good_sig confirm_of (h : Hash) :
  confirm_of addrA = Some sigA -> confirm_of addrB = None -> good_confirms confirm_of members h.
Proof.
  intros HA HB m sig v r s [->|[->|Hm%elem_of_nil]%elem_of_cons]%elem_of_cons; [| |done];
    cbn [EthereumAddress]; [rewrite HA|by rewrite HB].
  intros [= <-]. rewrite sigA_vrs, addrA_address. by intros [= <- <- <-].
Qed.

Lemma long_sigs confirm_of :
  confirm_of addrA = Some sigA -> confirm_of addrB = None ->
  forall m sig, m ∈ members -> confirm_of (EthereumAddress m) = Some sig -> long_sig sig.
Proof.
  intros HA HB m sig [->|[->|Hm%elem_of_nil]%elem_of_cons]%elem_of_cons; [| |done];
    cbn [EthereumAddress]; [rewrite HA|by rewrite HB].
  intros [= <-]. apply sigToVRS_total. by rewrite sigA_vrs.
Qed.

Lemma relayed_valset_accepted_witness :
  wp (SendEthValsetUpdate client old new confirms) (fun tr _ =>
    forall to data, (to, data) ∈ sends tr ->
      to = 0xcc /\
      exists v r s' c',
        data = updateValset_data (args 8 10 0xbb) (args 7 0 0) v r s' /\
        executes_update 1 (args 8 10 0xbb) (args 7 0 0) v r s' chain c').
Proof.
  eapply (relayed_valset_accepted client old new confirms (args 8 10 0xbb) (args 7 0 0) chain
            1 (makeCheckpoint (args 8 10 0xbb) 42)).
  - exact wf.
  - exact wf.
  - done.
  - done.
  - done.
  - by vm_compute.
  - by vm_compute.
  - exact ready_chain.
  - by vm_compute.
  - by apply good_sig.
  - by vm_compute.
Defined.

Lemma relayed_batch_accepted_witness :
  wp (SendTransactionBatch client old batch batch_confirms) (fun tr _ =>
    forall to data, (to, data) ∈ sends tr ->
      to = peggyAddress client /\
      exists v r s' c',
        data = submitBatch_data (args 7 0 0) v r s' [50] [0xaa] [2] (BatchNonce batch)
                 (HexToAddress (TokenContract batch)) (BatchTimeout batch) /\
        executes_batch 1 500 (args 7 0 0) v r s' [50] [0xaa] [2] (BatchNonce batch)
          (HexToAddress (TokenContract batch)) (BatchTimeout batch) chain c').
Proof.
  eapply (relayed_batch_accepted client old batch batch_confirms (args 7 0 0) chain
            1 500 (batchHash 42 [50] [0xaa] [2] 3 0xbb 900) [50] [0xaa] [2]).
  - exact wf.
  - done.
  - done.
  - by vm_compute.
  - by vm_compute.
  - exact ready_chain.
  - by vm_compute.
  - by apply good_sig.
  - by vm_compute.
  - by vm_compute.
  - done.
  - by repeat constructor.
  - by vm_compute.
Defined.

Lemma SendEthValsetUpdate_sends_witness :
  exists v r s', wp (SendEthValsetUpdate client old new confirms)
    (send_outcome 0xcc (updateValset_data (args 8 10 0xbb) (args 7 0 0) v r s') errPendingValset).
Proof.
  apply (SendEthValsetUpdate_sends client old new confirms (args 8 10 0xbb) (args 7 0 0)).
  - exact wf.
  - done.
  - by vm_compute.
  - by vm_compute.
  - done.
  - by apply long_sigs.
  - by vm_compute.
Defined.

Lemma checkValsetSigsAndRepack_correct_witness :
  exists rp e, checkValsetSigsAndRepack old confirms = Some (rp, e) /\
    repack_contract (valset_confirm_of confirms) old rp e.
Proof.
  apply (checkValsetSigsAndRepack_correct old confirms); [exact wf|done|by apply long_sigs].
Defined.

Lemma checkBatchSigsAndRepack_correct_witness :
  exists rp e, checkBatchSigsAndRepack old batch_confirms = Some (rp, e) /\
    repack_contract (batch_confirm_of batch_confirms) old rp e.
Proof.
  apply (checkBatchSigsAndRepack_correct old batch_confirms); [exact wf|done|by apply long_sigs].
Defined.

Lemma EncodeValsetConfirm_is_checkpoint_witness :
  EncodeValsetConfirm 42 new = Some (makeCheckpoint (args 8 10 0xbb) 42).
Proof.
  apply (EncodeValsetConfirm_is_checkpoint 42 new); [done|apply wf|by vm_compute].
Defined.

Lemma EncodeTxBatchConfirm_is_batch_hash_witness :
  EncodeTxBatchConfirm 42 batch =
  Some (batchHash 42 [50] [0xaa] [2] (BatchNonce batch) (HexToAddress (TokenContract batch))
          (BatchTimeout batch)).
Proof.
  apply (EncodeTxBatchConfirm_is_batch_hash 42 batch); [done|done|by vm_compute].
Defined.

Lemma args_nonneg n r t : Forall (fun p => 0 <= p) (va_Powers (args n r t)).
Proof. by repeat constructor. Qed.

Lemma updateValset_sound_witness :
  exists c' ops ev,
    updateValset (fun _ => true) 1 (args 8 10 0xbb) (args 7 0 0) [27; 0] [0xaa; 0] [5; 0] chain
      = Some (c', ops, ev) /\
    state_powerThreshold chain <
      verified_sum (va_Validators (args 7 0 0)) (va_Powers (args 7 0 0)) [27; 0] [0xaa; 0] [5; 0]
        (makeCheckpoint (args 8 10 0xbb) (state_peggyId chain)).
Proof.
  assert (is_Some (updateValset (fun _ => true) 1 (args 8 10 0xbb) (args 7 0 0) [27; 0] [0xaa; 0]
            [5; 0] chain)) as [[[c' ops] ev] H] by (vm_compute; by eexists).
  exists c', ops, ev. split; [exact H|].
  destruct (updateValset_sound _ _ _ _ _ _ _ _ _ _ _ (args_nonneg 7 0 0) H) as (_ & _ & Hth & _).
  exact Hth.
Defined.

Lemma submitBatch_sound_witness :
  exists c' ops ev,
    submitBatch (fun _ => true) 1 500 (args 7 0 0) [27; 0] [0xaa; 0] [5; 0] [50] [0xaa] [2] 3 0xbb
      900 chain = Some (c', ops, ev) /\
    lastBatchNonce c' 0xbb = 3.
Proof.
  assert (is_Some (submitBatch (fun _ => true) 1 500 (args 7 0 0) [27; 0] [0xaa; 0] [5; 0] [50]
            [0xaa] [2] 3 0xbb 900 chain)) as [[[c' ops] ev] H] by (vm_compute; by eexists).
  exists c', ops, ev. split; [exact H|].
  destruct (submitBatch_sound _ _ _ _ _ _ _ _ _ _ _ _ _ _ _ _ _ (args_nonneg 7 0 0) H)
    as (_ & _ & _ & _ & Hn & _).
  exact Hn.
Defined.

Lemma checkpoint_preimage_inj_witness :
  args 7 0 0 = args 7 0 0 /\ 42 = 42.
Proof.
  assert (wf_ValsetArgs (args 7 0 0)) as Hw by (split; by repeat constructor).
  by apply (checkpoint_preimage_inj (args 7 0 0) (args 7 0 0) 42 42).
Defined.

End Example.
