(* ===== verification/Dispatch.v ===== *)
(** * Dispatch: executing the call data of a transaction on the contract

    The function that a transaction to the bridge calls is found by its selector, and its
    arguments are decoded; data that is too short, malformed or out of range reverts. *)
From Stdlib Require Import Init.Byte.
From S2P Require Import Prelude Effects GoFloat Types External AbiDecode Model PeggySol PeggyState.
From S2P Require Import Confirmations Checkpoint EthPeggy Bridge BridgeFacts.

Definition args_of_abi (v : abi_val) : option ValsetArgs :=
  match v with
  | VStruct [VArray TAddress validators; VArray TUint256 powers; VElem TUint256 nonce;
             VElem TUint256 rewardAmount; VElem TAddress rewardToken] =>
      Some (MkValsetArgs validators powers nonce rewardAmount rewardToken)
  | _ => None
  end.

(** The call of an external function with decoded arguments. *)
Definition call_of (name : string) (vs : list abi_val) : option contract_call :=
  match vs with
  | [new; cur; VArray TUint8 v; VArray TBytes32 r; VArray TBytes32 s] =>
      if String.eqb name "updateValset" then
        new ← args_of_abi new; cur ← args_of_abi cur; Some (UpdateValset new cur v r s)
      else None
  | [cur; VArray TUint8 v; VArray TBytes32 r; VArray TBytes32 s; VArray TUint256 amounts;
     VArray TAddress destinations; VArray TUint256 fees; VElem TUint256 batchNonce;
     VElem TAddress token; VElem TUint256 batchTimeout] =>
      if String.eqb name "submitBatch" then
        cur ← args_of_abi cur;
        Some (SubmitBatch cur v r s amounts destinations fees batchNonce token batchTimeout)
      else None
  | [VElem TAddress token; VElem TBytes32 destination; VElem TUint256 amount; VBytes data] =>
      if String.eqb name "sendToInjective"
      then Some (SendToInjective token destination amount (string_of_list_byte data)) else None
  | [VBytes cosmosDenom; VBytes tokenName; VBytes symbol; VElem TUint8 decimals] =>
      if String.eqb name "deployERC20"
      then Some (DeployERC20 (string_of_list_byte cosmosDenom) (string_of_list_byte tokenName)
                   (string_of_list_byte symbol) decimals)
      else None
  | _ => None
  end.

(** The state-changing functions among those that the program knows of. *)
Definition external_functions : list string :=
  ["updateValset"; "submitBatch"; "sendToInjective"; "deployERC20"]%string.

Section dispatch.
Context {GE : Geth} {EV : Evm}.

Definition dispatch (data : bytes) : option contract_call :=
  name ← List.find (fun n => bool_decide (take 4 data = abi_MethodID peggyABI n)) external_functions;
  ts ← abi_method peggyABI name;
  vs ← abi_decode ts (drop 4 data);
  call_of name vs.

(** A transaction to the contract: its data decides what it does. *)
Definition execute (m : msg) (t : tokens) (data : bytes) (p : Peggy)
  : option (Peggy * list TokenOp * list ContractEvent) :=
  k ← dispatch data; transact m t k p.
End dispatch.

(** Solidity rejects a contract in which two external functions have the same selector. *)
Class Selectors {GE : Geth} : Prop :=
  selectors_NoDup : NoDup (map (abi_MethodID peggyABI) external_functions).

(** ** Sizes *)
Lemma length_enc_tails vs :
  Z.of_nat (length (enc_tails (parts vs))) =
  foldr (fun v acc => (if abi_dynamic v then Z.of_nat (length (abi_enc v)) else 0) + acc) 0 vs.
Proof.
  unfold enc_tails. induction vs as [|v vs IH]; [done|]. cbn [map concat foldr fst snd].
  rewrite length_app, Nat2Z.inj_add, IH. by destruct (abi_dynamic v).
Qed.

Lemma length_enc_tuple vs :
  Z.of_nat (length (enc_tuple (parts vs))) =
  foldr (fun v acc => (if abi_dynamic v then 32 else 0) + Z.of_nat (length (abi_enc v)) + acc) 0 vs.
Proof.
  unfold enc_tuple. rewrite length_app, Nat2Z.inj_add, length_enc_heads, length_enc_tails.
  unfold head_size. induction vs as [|v vs IH]; [done|]. cbn [map foldr fst snd]. rewrite <- IH.
  destruct (abi_dynamic v); lia.
Qed.

Lemma length_abi_array e zs : Z.of_nat (length (abi_enc (VArray e zs))) = 32 + 32 * Z.of_nat (length zs).
Proof. rewrite abi_enc_array, abi_words_cons, length_app, length_abi_word, length_abi_words. lia. Qed.

Lemma length_abi_elem e z : Z.of_nat (length (abi_enc (VElem e z))) = 32.
Proof. cbn [abi_enc]. by rewrite length_abi_word. Qed.

(** ** What is dispatched *)
Lemma find_NoDup {A B} `{!EqDecision B} (f : A -> B) (l : list A) x :
  NoDup (map f l) -> x ∈ l -> List.find (fun y => bool_decide (f x = f y)) l = Some x.
Proof.
  induction l as [|y l IH]; cbn; [by intros _ ?%elem_of_nil|].
  intros [Hy Hl]%NoDup_cons [->|Hx]%elem_of_cons.
  - by rewrite bool_decide_eq_true_2.
  - rewrite bool_decide_eq_false_2; [by apply IH|]. intros He. apply Hy. rewrite <- He.
    apply list_elem_of_In, in_map. by apply list_elem_of_In.
Qed.

Lemma elem_ok_of_u256 e z : (e = TUint256 \/ e = TBytes32) -> is_u256 z -> elem_ok e z = true.
Proof. unfold is_u256, elem_ok. intros [-> | ->] Hz; apply andb_true_intro; split; lia. Qed.

Lemma elem_ok_addr z : is_addr z -> elem_ok TAddress z = true.
Proof. unfold is_addr, elem_ok. intros Hz; apply andb_true_intro; split; lia. Qed.

Lemma elem_ok_u8 z : 0 <= z < 256 -> elem_ok TUint8 z = true.
Proof. unfold elem_ok. intros Hz; apply andb_true_intro; split; lia. Qed.

Lemma array_ok e (P : Z -> Prop) zs :
  (forall z, P z -> elem_ok e z = true) -> Forall P zs -> val_ok (VArray e zs) = true.
Proof. intros He. induction 1 as [|z zs Hz _ IH]; [done|]. cbn in *. by rewrite He, IH. Qed.

Create HintDb abi.
#[local] Hint Resolve elem_ok_of_u256 elem_ok_addr elem_ok_u8 : abi.

Lemma abi_of_args_ok a : wf_ValsetArgs a -> val_ok (abi_of_args a) = true.
Proof.
  intros [_ _ Hv Hp Hn Hr Ht]. cbn [abi_of_args val_ok forallb].
  change (forallb (elem_ok ?e) ?zs) with (val_ok (VArray e zs)).
  rewrite (array_ok TAddress is_addr), (array_ok TUint256 is_u256), elem_ok_addr,
    !(elem_ok_of_u256 TUint256); auto with abi.
Qed.

Lemma length_abi_of_args a :
  Z.of_nat (length (abi_enc (abi_of_args a))) =
  7 * 32 + 32 * Z.of_nat (length (va_Validators a)) + 32 * Z.of_nat (length (va_Powers a)).
Proof.
  unfold abi_of_args. cbn [abi_enc]. rewrite length_enc_tuple. cbn [foldr abi_dynamic].
  rewrite !length_abi_array, !length_abi_elem. lia.
Qed.

Section dispatch_facts.
Context {GE : Geth} {EV : Evm} {SE : Selectors}.

Lemma dispatch_call name ts vs :
  name ∈ external_functions -> abi_method peggyABI name = Some ts ->
  have_types vs ts = true -> forallb val_ok vs = true -> Z.of_nat (length (abi_encode vs)) < 2 ^ 256 ->
  dispatch (abi_MethodID peggyABI name ++ abi_encode vs) = call_of name vs.
Proof.
  intros Hname Hts Ht Hok Hlen. unfold dispatch.
  assert (length (abi_MethodID peggyABI name) = 4%nat) as Hid by (by apply abi_MethodID_length; rewrite Hts).
  rewrite take_app_length', drop_app_length' by done.
  rewrite find_NoDup by (apply selectors_NoDup || done). cbn [mbind option_bind]. rewrite Hts. cbn [mbind option_bind].
  pose proof (abi_decode_encode ts vs [] Ht Hok) as Hd. rewrite app_nil_r in Hd. by rewrite Hd.
Qed.

Lemma dispatch_updateValset new cur v r s :
  wf_ValsetArgs new -> wf_ValsetArgs cur -> wf_sigs v r s ->
  dispatch (updateValset_data new cur v r s) = Some (UpdateValset new cur v r s).
Proof.
  intros Hnew Hcur [Hv Hr Hs (Hlv & Hlr & Hls)]. unfold updateValset_data.
  rewrite (dispatch_call _ (default [] (abi_method peggyABI "updateValset"))).
  - by destruct new, cur.
  - set_solver.
  - done.
  - done.
  - cbn [forallb]. rewrite !abi_of_args_ok, (array_ok TUint8 _ v elem_ok_u8), !(array_ok TBytes32 is_u256);
      auto with abi.
  - unfold abi_encode. rewrite length_enc_tuple. cbn [foldr abi_dynamic abi_of_args existsb orb].
    fold (abi_of_args new) (abi_of_args cur). rewrite !length_abi_array, !length_abi_of_args.
    pose proof (wf_va_length _ Hnew). pose proof (wf_va_small _ Hnew).
    pose proof (wf_va_length _ Hcur). pose proof (wf_va_small _ Hcur). lia.
Qed.

Lemma dispatch_submitBatch cur v r s amounts dests fees nonce token timeout :
  wf_ValsetArgs cur -> wf_sigs v r s -> wf_batch amounts dests fees nonce token timeout ->
  dispatch (submitBatch_data cur v r s amounts dests fees nonce token timeout)
    = Some (SubmitBatch cur v r s amounts dests fees nonce token timeout).
Proof.
  intros Hcur [Hv Hr Hs (Hlv & Hlr & Hls)] [Ha Hd Hf Hn Ht Hto (Hla & Hld & Hlf)]. unfold submitBatch_data.
  rewrite (dispatch_call _ (default [] (abi_method peggyABI "submitBatch"))).
  - by destruct cur.
  - set_solver.
  - done.
  - done.
  - cbn [forallb]. rewrite !abi_of_args_ok, (array_ok TUint8 _ v elem_ok_u8), !(array_ok TBytes32 is_u256),
      !(array_ok TUint256 is_u256), (array_ok TAddress is_addr); auto with abi.
    cbn [val_ok]. rewrite elem_ok_addr, !(elem_ok_of_u256 TUint256); auto.
  - unfold abi_encode. rewrite length_enc_tuple. cbn [foldr abi_dynamic abi_of_args existsb orb].
    fold (abi_of_args cur). rewrite !length_abi_array, !length_abi_of_args, !length_abi_elem.
    pose proof (wf_va_length _ Hcur). pose proof (wf_va_small _ Hcur). lia.
Qed.

(** The contract executes the data of the two calls of the relayer as those calls. *)
Lemma execute_updateValset m t new cur v r s p c' :
  wf_ValsetArgs new -> wf_ValsetArgs cur -> wf_sigs v r s ->
  executes_update (msg_sender m) new cur v r s (core p) c' ->
  let ops := reward_ops (msg_sender m) new in
  execute m t (updateValset_data new cur v r s) p =
    if tokenOk t ops
    then Some (with_core p c', ops, [valset_event new (state_lastEventNonce (core p) + 1)]) else None.
Proof.
  intros Hnew Hcur Hs Hup ops. unfold execute. rewrite dispatch_updateValset by done. cbn [mbind option_bind].
  rewrite transact_UpdateValset, (Hup (tokenOk t)). fold ops. by destruct (tokenOk t ops).
Qed.

Lemma execute_submitBatch m t cur v r s amounts dests fees nonce token timeout p c' :
  wf_ValsetArgs cur -> wf_sigs v r s -> wf_batch amounts dests fees nonce token timeout -> entered p = false ->
  executes_batch (msg_sender m) (block_number m) cur v r s amounts dests fees nonce token timeout (core p) c' ->
  let ops := batch_ops (core p) (msg_sender m) token amounts dests fees in
  execute m t (submitBatch_data cur v r s amounts dests fees nonce token timeout) p =
    if tokenOk t ops
    then Some (with_core p c', ops, [EvBatchExecuted nonce token (state_lastEventNonce (core p) + 1)]) else None.
Proof.
  intros Hcur Hs Hb Hent Hup ops. unfold execute. rewrite dispatch_submitBatch by done. cbn [mbind option_bind].
  rewrite transact_SubmitBatch, (Hup (tokenOk t)) by done. fold ops. by destruct (tokenOk t ops).
Qed.

(** The arguments that the relayer makes of a validator set are within their types. *)
Lemma wf_args_of_valset vs a :
  wf_members (vs_Members vs) -> small (vs_Nonce vs) -> valset_args_of vs = Some a ->
  is_u256 (va_RewardAmount a) -> wf_ValsetArgs a.
Proof.
  intros [Hp Hc] Hn. unfold valset_args_of, valset_args, validatorsAndPowers.
  destruct (vs_RewardAmount vs) as [rw|]; simpl; [|done]. intros [= <-] Hr. simpl in Hr.
  split; cbn; rewrite ?length_map; try done.
  - apply Forall_map, Forall_true. intros m'. apply HexToAddress_range.
  - apply Forall_map. eapply Forall_impl; [exact Hp|]. unfold small, is_u256. cbn. lia.
  - unfold small, is_u256 in *. lia.
  - apply HexToAddress_range.
Qed.

(** The values of a batch: amounts and fees in range make it fit its types. *)
Lemma wf_batch_of_values batch amounts dests fees :
  batch_values batch = Some (amounts, dests, fees) ->
  small (BatchNonce batch) -> small (BatchTimeout batch) -> Z.of_nat (length (Transactions batch)) < 2 ^ 64 ->
  Forall is_u256 amounts -> Forall is_u256 fees ->
  wf_batch amounts dests fees (BatchNonce batch) (HexToAddress (TokenContract batch)) (BatchTimeout batch).
Proof.
  intros Hb Hn Ht Hl Ha Hf. pose proof (batch_values_lengths _ _ _ _ Hb) as [Hld Hlf].
  assert (Forall is_addr dests /\ length dests = length (Transactions batch)) as [Hd Hlt].
  { unfold batch_values, getBatchCheckpointValues in Hb.
    apply bind_Some in Hb as ([[la ld] lf] & (la0 & _ & (lf0 & _ & [= <- <- <-])%bind_Some)%bind_Some & Hv).
    apply bind_Some in Hv as (la' & _ & (lf' & _ & [= <- <- <-])%bind_Some). rewrite length_map.
    split; [|done]. apply Forall_map, Forall_true. intros tx. apply HexToAddress_range. }
  split; try done; try (unfold small, is_u256 in *; lia). apply HexToAddress_range.
Qed.
(** C12: the call data of a validator set update is well typed whatever strings the
    confirmations hold as signatures: the contract decodes it to a call of [updateValset]
    with the arguments of the two sets, and every V, R and S fits its Solidity type (for sets
    with powers and nonces below 2^63 and rewards of 256 bits). *)
Theorem valset_calldata_typed {SH : Shopspring} s old new confirms newA curA :
  wf_members (vs_Members old) -> wf_members (vs_Members new) ->
  small (vs_Nonce old) -> small (vs_Nonce new) ->
  valset_args_of old = Some curA -> valset_args_of new = Some newA ->
  is_u256 (va_RewardAmount curA) -> is_u256 (va_RewardAmount newA) ->
  wp (SendEthValsetUpdate s old new confirms) (fun tr _ =>
    forall to data, (to, data) ∈ sends tr ->
      exists v r s', dispatch data = Some (UpdateValset newA curA v r s') /\ wf_sigs v r s').
Proof.
  intros Hwo Hwn Hno Hnn Hcur Hnew Hrc Hrn.
  destruct (Z.le_gt_cases (vs_Nonce new) (vs_Nonce old)) as [Hle|Hgt].
  { unfold SendEthValsetUpdate. rewrite (proj2 (Z.leb_le _ _) Hle). cbn. by intros to data ?%elem_of_nil. }
  destruct (checkValsetSigsAndRepack old confirms) as [[rp [e|]]|] eqn:Hc.
  - eapply wp_mono; [by eapply SendEthValsetUpdate_refused|].
    intros tr o [-> _] to data Hin. by apply elem_of_nil in Hin.
  - assert (confirms <> []) as Hne by (intros ->; done).
    destruct (checkValset_contract _ _ _ _ Hwo Hne Hc) as [Hrp _].
    pose proof (repacked_args _ _ _ Hrp) as Hargs. rewrite Hcur in Hargs.
    eapply wp_mono; [by eapply SendEthValsetUpdate_passed|].
    intros tr o Ho to data Hin. apply (send_outcome_sends _ _ _ _ _ _ _ Ho) in Hin as [_ ->].
    pose proof (repacked_wf_sigs _ _ _ Hrp (wf_count _ Hwo)) as Hs. eexists _, _, _. split; [|exact Hs].
    apply dispatch_updateValset; [by apply (wf_args_of_valset new)|by apply (wf_args_of_valset old)|exact Hs].
  - unfold SendEthValsetUpdate. rewrite (proj2 (Z.leb_gt _ _) Hgt).
    destruct (validatorsAndPowers new). rewrite Hc. cbn. by intros to data ?%elem_of_nil.
Qed.
End dispatch_facts.
