(* ===== verification/Committer.v ===== *)
(** * Committer: signing and sending Ethereum transactions

    Models [orchestrator/ethereum/util/noncecache.go] (Module [NonceCache]) and
    [orchestrator/ethereum/committer/] (options, [ParseMaxGasPrice],
    [NewEthCommitter], [SendTx]).  All uses of the cache run in one goroutine at a
    time per account ([Serialize]), so the cache is threaded as state. *)
From Stdlib Require Import QArith Qround.
From S2P Require Import Prelude GoStrings Effects GoFloat Types External Model.
#[local] Open Scope Z_scope.

(** ** The nonce cache: a map from accounts to int64 *)
Module NonceCache.

Abbreviation nonceCache := (gmap Z Z).

Definition NewNonceCache : nonceCache := ∅.

(** [LoadOrStore(account, int64(0))]: the value, whether it was present, the map. *)
Definition LoadOrStore (n : nonceCache) (account : Address) : Z * bool * nonceCache :=
  match n !! account with
  | Some nonce => (nonce, true, n)
  | None => (0, false, <[account := 0]> n)
  end.

Definition Get (n : nonceCache) (account : Address) : Z * bool * nonceCache :=
  LoadOrStore n account.

Definition Set_ (n : nonceCache) (account : Address) (nonce : Z) : nonceCache :=
  <[account := nonce]> n.

Definition Incr (n : nonceCache) (account : Address) : Z * nonceCache :=
  let '(v, _, n) := LoadOrStore n account in
  let nonce := i64 (v + 1) in
  (nonce, <[account := nonce]> n).

Definition Decr (n : nonceCache) (account : Address) : Z * nonceCache :=
  let '(v, _, n) := LoadOrStore n account in
  let nonce := i64 (v - 1) in
  (nonce, <[account := nonce]> n).

(** [Sync], given the result of [syncFn]. *)
Definition Sync (n : nonceCache) (account : Address) (res : Z * error) : nonceCache :=
  let '(nonce, err) := res in
  match err with
  | None => <[account := i64 nonce]> n
  | Some _ => n
  end.

(** The nonce of an account, zero when it was never used. *)
Definition nonce_of (n : nonceCache) (account : Address) : Z := default 0 (n !! account).

Lemma Get_spec n a : Get n a = (nonce_of n a, bool_decide (is_Some (n !! a)),
                                <[a := nonce_of n a]> n).
Proof.
  unfold Get, LoadOrStore, nonce_of. destruct (n !! a) as [x|] eqn:E; simpl; [|done].
  by rewrite insert_id.
Qed.

Lemma Incr_spec n a :
  Incr n a = (i64 (nonce_of n a + 1), <[a := i64 (nonce_of n a + 1)]> n).
Proof.
  unfold Incr, LoadOrStore, nonce_of. destruct (n !! a) as [x|] eqn:E; simpl; [done|].
  by rewrite insert_insert_eq.
Qed.

Lemma Decr_spec n a :
  Decr n a = (i64 (nonce_of n a - 1), <[a := i64 (nonce_of n a - 1)]> n).
Proof.
  unfold Decr, LoadOrStore, nonce_of. destruct (n !! a) as [x|] eqn:E; simpl; [done|].
  by rewrite insert_insert_eq.
Qed.

Lemma nonce_of_insert n a x : nonce_of (<[a := x]> n) a = x.
Proof. unfold nonce_of. by rewrite lookup_insert_eq. Qed.

Lemma nonce_of_insert_ne n a b x : a <> b -> nonce_of (<[a := x]> n) b = nonce_of n b.
Proof. intros. unfold nonce_of. by rewrite lookup_insert_ne. Qed.

End NonceCache.

(** ** Options *)
Section committer.
Context {SH : Shopspring}.

Record options : Type := MkOptions {
  GasPrice : decimal;
  GasLimit : Z;
  RPCTimeout : Z
}.

Definition second : Z := 1000000000.

Definition defaultOptions : options :=
  let '(v, _) := NewFromString "20" in
  MkOptions (dec_Shift v 9) 1000000 (10 * second).

(** An [EVMCommitterOption] updates the options and may fail. *)
Definition EVMCommitterOption : Type := options -> options * error.

(** [applyOptions]: the options so far are kept when one fails. *)
Fixpoint applyOptions (o : options) (opts : list EVMCommitterOption) : options * error :=
  match opts with
  | [] => (o, None)
  | oo :: opts' =>
      let '(o', err) := oo o in
      match err with
      | Some _ => (o', Wrap err "failed to apply option to EVMCommitter")
      | None => applyOptions o' opts'
      end
  end.

Definition OptionGasPriceFromString (str : string) : EVMCommitterOption := fun o =>
  let '(gasPrice, err) := NewFromString str in
  match err with
  | Some _ => (o, Wrap err "unable to parse gas price from string to decimal")
  | None => (MkOptions gasPrice (GasLimit o) (RPCTimeout o), None)
  end.

Definition OptionGasPriceFromDecimal (gasPrice : decimal) : EVMCommitterOption := fun o =>
  (MkOptions gasPrice (GasLimit o) (RPCTimeout o), None).

Definition OptionGasPriceFromBigInt (i : Z) : EVMCommitterOption := fun o =>
  (MkOptions (NewFromBigInt i 0) (GasLimit o) (RPCTimeout o), None).

Definition OptionGasLimit (limit : Z) : EVMCommitterOption := fun o =>
  (MkOptions (GasPrice o) limit (RPCTimeout o), None).

Definition TxBroadcastTimeout (dur : Z) : EVMCommitterOption := fun o =>
  (MkOptions (GasPrice o) (GasLimit o) dur, None).

(** ** [ParseMaxGasPrice] *)

(** [ParseMaxGasPrice]; [None] is the panic on a number that does not parse. *)
Definition ParseMaxGasPrice (maxGasPriceStr : string) : option Z :=
  let maxGasPriceStr := strings_TrimSpace maxGasPriceStr in
  let maxGasPriceStr := strings_ToLower maxGasPriceStr in
  let unit := "gwei"%string in
  let '(maxGasPriceStr, isGwei) :=
    if strings_HasSuffix maxGasPriceStr unit
    then (strings_TrimSuffix maxGasPriceStr unit, true) else (maxGasPriceStr, false) in
  let maxGasPriceStr := strings_TrimSpace maxGasPriceStr in
  let '(maxGasPrice, err) := NewFromString maxGasPriceStr in
  match err with
  | Some _ => None
  | None =>
      let maxGasPrice := if isGwei : bool then dec_Shift maxGasPrice 9 else maxGasPrice in
      Some (dec_IntPart maxGasPrice)
  end.

(** ** Interface: the provider and the signer *)

(** [types.NewTransaction(nonce, to, nil, gasLimit, gasPrice, data)] *)
Record Transaction : Type := MkTransaction {
  tx_nonce : Z;
  tx_to : Address;
  tx_gasLimit : Z;
  tx_gasPrice : Z;
  tx_data : bytes
}.

(** [ethereum.CallMsg]; its value is zero. *)
Record CallMsg : Type := MkCallMsg {
  cm_From : Address;
  cm_To : Address;
  cm_GasPrice : Z;
  cm_Data : bytes
}.

Inductive evm_cmd : Type :=
  | SuggestGasPrice
  | EstimateGas (msg : CallMsg)
  | PendingNonceAt (account : Address)
  | Signer (from : Address) (tx : Transaction)
  | SendTransactionWithRet (tx : Transaction).

(** [Signer] replies with the hash of the signed transaction. *)
Definition evm_reply (c : evm_cmd) : Type :=
  match c with
  | SuggestGasPrice => Z * error
  | EstimateGas _ => Z * error
  | PendingNonceAt _ => Z * error
  | Signer _ _ => Hash * error
  | SendTransactionWithRet _ => Hash * error
  end.

Definition EvmI : Iface := MkIface evm_cmd evm_reply.
Definition ecall (c : evm_cmd) : prog EvmI (evm_reply c) := @call EvmI c.

(** [ethCommitter] *)
Record ethCommitter : Type := MkEthCommitter {
  committerOpts : options;
  fromAddress : Address;
  ethGasPriceAdjustment : gofloat;
  ethMaxGasPrice : Z;
  nonceCache : NonceCache.nonceCache
}.

(** [NewEthCommitter] *)
Definition NewEthCommitter (fromAddress : Address) (ethGasPriceAdjustment : gofloat)
    (ethMaxGasPrice : string) (opts : list EVMCommitterOption)
  : prog EvmI (option ethCommitter * error) :=
  maxGasPrice ← deref (ParseMaxGasPrice ethMaxGasPrice);
  let '(o, err) := applyOptions defaultOptions opts in
  match err with
  | Some _ => mret (None, err)
  | None =>
      res ← ecall (PendingNonceAt fromAddress);
      mret (Some (MkEthCommitter o fromAddress ethGasPriceAdjustment maxGasPrice
                    (NonceCache.Sync NonceCache.NewNonceCache fromAddress res)), None)
  end.

(** The multiplication of two [big.Float] values at 53 bits of precision,
    truncated to an integer.  [None]: [NewFloat] panics on NaN, and the product of
    zero and infinity panics; the integer of an infinite product is left at 0. *)
Definition incrementPrice (suggestedGasPrice : Z) (adjustment : gofloat) : option Z :=
  match adjustment with
  | FNaN => None
  | FInf _ => if suggestedGasPrice =? 0 then None else Some 0
  | FFin m e =>
      let p := suggestedGasPrice * m in
      let k := Z.max 0 (Z.log2 (Z.abs p) + 1 - 53) in
      let r := rne p k in
      let ex := e + k in
      Some (if 0 <=? ex then r * 2 ^ ex else Z.quot r (2 ^ (- ex)))
  end.

Definition has (e : err) (sub : string) : bool := strings_Contains (err_Error e) sub.

(** The three nonce errors of the switch. *)
Definition is_nonce_error (e : err) : bool :=
  has e "nonce too low" || has e "nonce too high" ||
  has e "the tx doesn't have the correct nonce".

(** (The decimal numbers inside two error texts are left out of the model.)

    What one turn of the sending loop does: return, or go round again. *)
Inductive turn : Type :=
  | Return (txHash : Hash) (err : error)
  | Again (nonce : Z) (resyncUsed : bool).

(** The body of the [for] loop inside [Serialize]. *)
Definition sendTurn (from recipient : Address) (txData : bytes) (gasLimit gasPrice nonce : Z)
    (resyncUsed : bool) (cache : NonceCache.nonceCache)
  : prog EvmI (turn * NonceCache.nonceCache) :=
  let tx := MkTransaction (big_Uint64 nonce) recipient gasLimit gasPrice txData in
  '(txHash, err) ← ecall (Signer from tx);
  match err with
  | Some _ => mret (Return 0 (Wrap err "failed to sign transaction"), cache)
  | None =>
      '(txHashRet, err) ← ecall (SendTransactionWithRet tx);
      match err with
      | None =>
          let '(_, cache) := NonceCache.Incr cache from in
          mret (Return txHashRet None, cache)
      | Some e =>
          if has e "invalid sender" then
            let '(_, cache) := NonceCache.Incr cache from in
            mret (Return txHash (Some (ErrNew "failed to sign transaction")), cache)
          else if is_nonce_error e then
            if resyncUsed
            then mret (Return txHash (Wrap err "nonce mismatch"), cache)
            else
              res ← ecall (PendingNonceAt from);
              let cache := NonceCache.Sync cache from res in
              let '(nonce, _, cache) := NonceCache.Get cache from in
              mret (Again nonce true, cache)
          else if has e "known transaction" then
            let '(_, cache) := NonceCache.Incr cache from in
            mret (Again nonce resyncUsed, cache)
          else if has e "VM Exception" then
            let '(_, cache) := NonceCache.Incr cache from in
            mret (Return txHash err, cache)
          else mret (Return txHash err, cache)
      end
  end.

(** The loop: [None] when it has not returned after [fuel] turns. *)
Fixpoint sendLoop (fuel : nat) (from recipient : Address) (txData : bytes)
    (gasLimit gasPrice nonce : Z) (resyncUsed : bool) (cache : NonceCache.nonceCache)
  : prog EvmI (option (Hash * error) * NonceCache.nonceCache) :=
  match fuel with
  | O => mret (None, cache)
  | S fuel' =>
      '(t, cache) ← sendTurn from recipient txData gasLimit gasPrice nonce resyncUsed cache;
      match t with
      | Return txHash err => mret (Some (txHash, err), cache)
      | Again nonce resyncUsed =>
          sendLoop fuel' from recipient txData gasLimit gasPrice nonce resyncUsed cache
      end
  end.

Definition errSuggest (e : err) : err := ErrNew ("failed to suggest gas price: " ++ err_Error e).
Definition errMaxGasPrice : err := ErrNew "Suggested gas price is greater than max gas price".

Definition with_cache (e : ethCommitter) (c : NonceCache.nonceCache) : ethCommitter :=
  MkEthCommitter (committerOpts e) (fromAddress e) (ethGasPriceAdjustment e) (ethMaxGasPrice e) c.

(** [SendTx]: the result is [None] when the sending loop uses up the fuel. *)
Definition SendTx (fuel : nat) (e : ethCommitter) (recipient : Address) (txData : bytes)
  : prog EvmI (option (Hash * error) * ethCommitter) :=
  '(suggestedGasPrice, err) ← ecall SuggestGasPrice;
  match err with
  | Some err => mret (Some (0, Some (errSuggest err)), e)
  | None =>
      gasPrice ← deref (incrementPrice suggestedGasPrice (ethGasPriceAdjustment e));
      if ethMaxGasPrice e <? gasPrice then mret (Some (0, Some errMaxGasPrice), e)
      else
        '(gasLimit, err) ←
          ecall (EstimateGas (MkCallMsg (fromAddress e) recipient gasPrice txData));
        match err with
        | Some _ => mret (Some (0, Wrap err "failed to estimate gas"), e)
        | None =>
            let '(nonce, _, cache) := NonceCache.Get (nonceCache e) (fromAddress e) in
            '(res, cache) ← sendLoop fuel (fromAddress e) recipient txData gasLimit gasPrice
                              nonce false cache;
            match res with
            | None => mret (None, with_cache e cache)
            | Some (txHash, Some err) => mret (Some (0, Some err), with_cache e cache)
            | Some (txHash, None) => mret (Some (txHash, None), with_cache e cache)
            end
        end
  end.


(** ** What the sending loop does *)

(** The replies on which the loop skips a nonce: the last case before a return. *)
Definition is_known (e : err) : bool :=
  negb (has e "invalid sender") && negb (is_nonce_error e) && has e "known transaction".

Definition known_reply (ev : event EvmI) : bool :=
  match ev with
  | existT (SendTransactionWithRet _) r => if r.2 is Some e then is_known e else false
  | _ => false
  end.

Fixpoint known (tr : list (event EvmI)) : nat :=
  match tr with
  | [] => 0
  | ev :: tr' => (if known_reply ev then 1 else 0) + known tr'
  end.

Lemma known_app tr tr' : known (tr ++ tr') = (known tr + known tr')%nat.
Proof. induction tr as [|ev tr IH]; [done|]. cbn [known app]. rewrite IH. lia. Qed.

(** The transactions that a trace hands to the node. *)
Definition submitted (tr : list (event EvmI)) : list Transaction :=
  omap (fun ev : event EvmI => match ev with
                 | existT (SendTransactionWithRet tx) _ => Some tx
                 | _ => None
                 end) tr.

Lemma submitted_app tr tr' : submitted (tr ++ tr') = submitted tr ++ submitted tr'.
Proof. apply omap_app. Qed.

Definition turn_ok (from : Address) (tx : Transaction) (nonce : Z) (resyncUsed : bool)
    (cache : NonceCache.nonceCache) (tr : list (event EvmI)) (t : turn)
    (cache' : NonceCache.nonceCache) : Prop :=
  Forall (fun tx' => tx' = tx) (submitted tr) /\
  let incr := <[from := i64 (NonceCache.nonce_of cache from + 1)]> cache in
  match t with
  | Return h None =>
      (exists h0, tr = [@Ev EvmI (Signer from tx) (h0, None);
                        @Ev EvmI (SendTransactionWithRet tx) (h, None)]) /\ cache' = incr
  | Return h (Some _) => True
  | Again n ru =>
      (known tr = 1%nat /\ n = nonce /\ ru = resyncUsed /\ cache' = incr) \/
      (known tr = 0%nat /\ resyncUsed = false /\ ru = true /\ n = NonceCache.nonce_of cache' from)
  end.

Lemma sendTurn_spec from to data gl gp nonce ru cache :
  let tx := MkTransaction (big_Uint64 nonce) to gl gp data in
  wp (sendTurn from to data gl gp nonce ru cache) (fun tr o =>
    exists t cache', o = Done (t, cache') /\ turn_ok from tx nonce ru cache tr t cache').
Proof.
  intros tx [h0 [e|]]; cbn [prog_bind wp].
  { eexists _, _. split; [done|]. by split. }
  intros [h [e|]]; cbn.
  2:{ rewrite NonceCache.Incr_spec. cbn. eexists _, _. split; [done|]. split; [by constructor|].
      split; [by eexists|done]. }
  destruct (has e "invalid sender") eqn:E1; [|destruct (is_nonce_error e) eqn:E2; [|
    destruct (has e "known transaction") eqn:E3; [|destruct (has e "VM Exception") eqn:E4]]].
  - rewrite NonceCache.Incr_spec. cbn.
    eexists _, _. split; [done|]. split; [by constructor|done].
  - destruct ru.
    + cbn. eexists _, _. split; [done|]. split; [by constructor|done].
    + intros res. rewrite NonceCache.Get_spec. cbn. eexists _, _. split; [done|].
      split; [by constructor|]. right. cbn [known known_reply Ev fst snd Nat.add]. unfold is_known.
      rewrite E1, E2. by rewrite NonceCache.nonce_of_insert.
  - rewrite NonceCache.Incr_spec. cbn. eexists _, _. split; [done|]. split; [by constructor|].
    left. cbn [known known_reply Ev fst snd Nat.add]. unfold is_known. by rewrite E1, E2, E3.
  - rewrite NonceCache.Incr_spec. cbn. eexists _, _. split; [done|]. split; [by constructor|done].
  - cbn. eexists _, _. split; [done|]. split; [by constructor|done].
Qed.

(** The nonce and the cache of the successful turn, without known-transaction
    replies: the cache moves one past the nonce that was sent. *)
Lemma sendLoop_spec fuel from to data gl gp nonce ru cache :
  wp (sendLoop fuel from to data gl gp nonce ru cache) (fun tr o =>
    exists res cache', o = Done (res, cache') /\
      Forall (fun tx => tx_to tx = to /\ tx_data tx = data /\ tx_gasLimit tx = gl /\
                        tx_gasPrice tx = gp) (submitted tr) /\
      match res with
      | None => (fuel <= known tr + (if ru then 0 else 1))%nat
      | Some (h, Some e) => True
      | Some (h, None) =>
          exists tr0 n, let tx := MkTransaction (big_Uint64 n) to gl gp data in
            last tr = Some (@Ev EvmI (SendTransactionWithRet tx) (h, None)) /\
            tr = tr0 ++ [@Ev EvmI (SendTransactionWithRet tx) (h, None)] /\
            (nonce = NonceCache.nonce_of cache from -> known tr = 0%nat ->
             NonceCache.nonce_of cache' from = i64 (n + 1))
      end).
Proof.
  revert nonce ru cache. induction fuel as [|fuel IH]; intros nonce resyncUsed cache; cbn [sendLoop].
  { eexists _, _. split; [done|]. split; [constructor|]. lia. }
  apply wp_bind. eapply wp_mono; [apply sendTurn_spec|].
  intros tr o (t & cache1 & -> & Hsub & Ht).
  assert (Forall (fun tx => tx_to tx = to /\ tx_data tx = data /\ tx_gasLimit tx = gl /\
                            tx_gasPrice tx = gp) (submitted tr)) as Hsub'.
  { eapply Forall_impl; [exact Hsub|]. by intros tx ->. }
  destruct t as [h [e|]|n ru']; cbn.
  - eexists _, _. rewrite app_nil_r. split; [done|]. by split.
  - destruct Ht as [[h0 ->] ->]. eexists _, _. split; [done|]. split; [done|].
    exists [@Ev EvmI (Signer from (MkTransaction (big_Uint64 nonce) to gl gp data)) (h0, None)], nonce.
    split; [done|]. split; [done|]. intros -> _. by rewrite NonceCache.nonce_of_insert.
  - eapply wp_mono; [apply IH|]. intros tr' o (res & cache' & -> & Hsub2 & Hres).
    exists res, cache'. split; [done|]. rewrite submitted_app, Forall_app. split; [done|].
    rewrite known_app. destruct res as [[h [e|]]|]; [done| |].
    + destruct Hres as (tr0 & n' & Hl & -> & Hn). exists (tr ++ tr0), n'.
      rewrite last_app, Hl, app_assoc. split; [done|]. split; [done|]. intros Hnonce Hk.
      destruct Ht as [(Hk1 & _)|(_ & _ & _ & ->)]; [lia|]. apply Hn; [done|lia].
    + destruct Ht as [(-> & -> & -> & _)|(-> & -> & -> & _)]; [destruct resyncUsed|]; lia.
Qed.


(** What is handed to the node, and that the settings of the committer stay. *)
Lemma SendTx_spec fuel e to data :
  wp (SendTx fuel e to data) (fun tr o =>
    Forall (fun tx => tx_to tx = to /\ tx_data tx = data /\ tx_gasPrice tx <= ethMaxGasPrice e /\
              @Ev EvmI (EstimateGas (MkCallMsg (fromAddress e) to (tx_gasPrice tx) data))
                  (tx_gasLimit tx, None) ∈ tr)
      (submitted tr) /\
    forall res e', o = Done (res, e') -> ethMaxGasPrice e' = ethMaxGasPrice e).
Proof.
  unfold SendTx. intros [price [er|]]; cbn; [by split; [constructor|intros res e' [= _ <-]]|].
  destruct (incrementPrice price _) as [gp|]; cbn; [|by split; [constructor|]].
  destruct (Z.ltb_spec (ethMaxGasPrice e) gp) as [|Hle]; cbn;
    [by split; [constructor|intros res e' [= _ <-]]|].
  intros [gl [er|]]; cbn; [by split; [constructor|intros res e' [= _ <-]]|]. rewrite NonceCache.Get_spec.
  apply wp_bind. eapply wp_mono; [apply sendLoop_spec|].
  intros tr o (res & cache' & -> & Hsub & _).
  destruct res as [[h [er|]]|]; cbn; rewrite app_nil_r;
    (split; [|by intros res' e' [= _ <-]]); (eapply Forall_impl; [exact Hsub|]);
    intros tx (-> & -> & -> & ->); (repeat split; [done|]); right; left.
Qed.

(** C25: every transaction that [SendTx] hands to the node is the requested call,
    at a gas price of at most [ethMaxGasPrice], with the estimated gas limit. *)
Theorem SendTx_safe fuel e to data :
  wp (SendTx fuel e to data) (fun tr o =>
    Forall (fun tx => tx_to tx = to /\ tx_data tx = data /\ tx_gasPrice tx <= ethMaxGasPrice e /\
              @Ev EvmI (EstimateGas (MkCallMsg (fromAddress e) to (tx_gasPrice tx) data))
                  (tx_gasLimit tx, None) ∈ tr)
      (submitted tr)).
Proof. eapply wp_mono; [apply SendTx_spec|]. by intros tr o []. Qed.

(** C26: [SendTx] returns: the loop goes round once for a wrong nonce, once for
    each "known transaction" reply, and otherwise returns, so with fuel for two
    turns more than those replies it never runs out. *)
Theorem SendTx_terminates fuel e to data :
  wp (SendTx fuel e to data) (fun tr o =>
    forall e', o = Done (None, e') -> (fuel <= known tr + 1)%nat).
Proof.
  unfold SendTx. intros [price [er|]]; cbn; [done|].
  destruct (incrementPrice price _) as [gp|]; cbn; [|done].
  destruct (Z.ltb_spec (ethMaxGasPrice e) gp) as [|Hle]; cbn; [done|].
  intros [gl [er|]]; cbn; [done|]. rewrite NonceCache.Get_spec.
  apply wp_bind. eapply wp_mono; [apply sendLoop_spec|].
  intros tr o (res & cache' & -> & _ & Hres).
  destruct res as [[h [er|]]|]; cbn; try done. intros e' _. rewrite app_nil_r.
  cbn [known known_reply Ev]. lia.
Qed.

(** When [SendTx] reports success, the last call of the trace is the
    submission that the node accepted under the returned hash; without "known
    transaction" replies the nonce cache is then one past the nonce submitted. *)
Lemma SendTx_success fuel e to data :
  wp (SendTx fuel e to data) (fun tr o =>
    forall h e', o = Done (Some (h, None), e') ->
      exists tx n, last tr = Some (@Ev EvmI (SendTransactionWithRet tx) (h, None)) /\
        tx_nonce tx = big_Uint64 n /\
        (known tr = 0%nat -> NonceCache.nonce_of (nonceCache e') (fromAddress e) = i64 (n + 1))).
Proof.
  unfold SendTx. intros [price [er|]]; cbn; [done|].
  destruct (incrementPrice price _) as [gp|]; cbn; [|done].
  destruct (Z.ltb_spec (ethMaxGasPrice e) gp) as [|Hle]; cbn; [done|].
  intros [gl [er|]]; cbn; [done|]. rewrite NonceCache.Get_spec.
  apply wp_bind. eapply wp_mono; [apply sendLoop_spec|].
  intros tr o (res & cache' & -> & _ & Hres).
  destruct res as [[h [er|]]|]; cbn; try done. intros h' e' [= <- <-].
  destruct Hres as (tr0 & n & Hl & -> & Hn). exists (MkTransaction (big_Uint64 n) to gl gp data), n.
  rewrite app_nil_r.
  split; [|split; [done|]].
  - by rewrite app_comm_cons, last_snoc.
  - cbn [known known_reply Ev Nat.add]. intros Hk. apply Hn; [|done].
    by rewrite NonceCache.nonce_of_insert.
Qed.

(** ** The "known transaction" case

    The new nonce is assigned to a variable of the inner block, and the top of
    the loop sets [opts.Nonce] from the outer one: the same nonce is sent again. *)
Definition known_node : handler EvmI unit := fun c _ =>
  (match c return evm_reply c with
   | SuggestGasPrice => (1, None)
   | EstimateGas _ => (21000, None)
   | PendingNonceAt _ => (5, None)
   | Signer _ _ => (7, None)
   | SendTransactionWithRet _ => (0, Some (ErrNew "known transaction"))
   end, tt).

Lemma known_loop fuel from to data gl gp nonce ru cache :
  let r := exec known_node (sendLoop fuel from to data gl gp nonce ru cache) tt in
  (exists cache', r.1.1 = Done (None, cache')) /\
  submitted r.1.2 = replicate fuel (MkTransaction (big_Uint64 nonce) to gl gp data).
Proof.
  revert cache. induction fuel as [|fuel IH]; intros cache.
  - cbn. split; [|done]. by exists cache.
  - cbn [sendLoop]. specialize (IH (<[from := i64 (NonceCache.nonce_of cache from + 1)]> cache)).
    unfold sendTurn. unfold mbind, prog_mbind, ecall, call, mret, prog_ret.
    cbn [prog_bind exec known_node].
    change (has (ErrNew "known transaction") "invalid sender") with false.
    change (is_nonce_error (ErrNew "known transaction")) with false.
    change (has (ErrNew "known transaction") "known transaction") with true.
    cbv iota. rewrite NonceCache.Incr_spec. cbn [prog_bind exec].
    destruct (exec known_node _ tt) as [[o tr] []]. cbn in IH |- *.
    destruct IH as [(cache' & ->) Hs]. rewrite Hs. split; [by exists cache'|done].
Qed.

(** C27: against a node that answers "known transaction", [SendTx] never returns
    and submits the same transaction, with the same nonce, on every turn: the nonce
    that the comment says is skipped is not. *)
Theorem SendTx_known_transaction fuel e to data :
  incrementPrice 1 (ethGasPriceAdjustment e) = Some 1 -> 1 <= ethMaxGasPrice e ->
  let r := exec known_node (SendTx fuel e to data) tt in
  (exists e', r.1.1 = Done (None, e')) /\
  submitted r.1.2 =
    replicate fuel (MkTransaction (big_Uint64 (NonceCache.nonce_of (nonceCache e) (fromAddress e)))
                      to 21000 1 data).
Proof.
  intros Hp Hm. unfold SendTx. unfold mbind, prog_mbind, ecall, call, mret, prog_ret.
  cbn [prog_bind exec known_node]. rewrite Hp. cbn [deref prog_bind].
  rewrite (proj2 (Z.ltb_ge _ _) Hm). cbn [prog_bind exec known_node].
  rewrite NonceCache.Get_spec, exec_bind.
  pose proof (known_loop fuel (fromAddress e) to data 21000 1
    (NonceCache.nonce_of (nonceCache e) (fromAddress e)) false
    (<[fromAddress e := NonceCache.nonce_of (nonceCache e) (fromAddress e)]> (nonceCache e)))
    as Hk.
  destruct (exec known_node (sendLoop _ _ _ _ _ _ _ _ _) tt) as [[o tr] []]. cbn in Hk |- *.
  destruct Hk as [[cache' ->] Hs]. cbn. rewrite app_nil_r. split; [by eexists|done].
Qed.

End committer.

Module Example.

Definition committer : ethCommitter :=
  MkEthCommitter defaultOptions 0xaa (FFin 1 0) 500 ∅.

Lemma SendTx_known_transaction_witness :
  submitted (exec known_node (SendTx 3 committer 0xbb [Byte.x01]) tt).1.2 =
    replicate 3 (MkTransaction 0 0xbb 21000 1 [Byte.x01]).
Proof.
  apply (SendTx_known_transaction 3 committer 0xbb [Byte.x01]); [by vm_compute|done].
Defined.

End Example.
