(* ===== verification/Concurrent.v ===== *)
(** * Concurrent: several goroutines send transactions (noncecache.go, eth_committer.go)

    The relayer runs its batch and its validator set task at the same time, and both send
    through the same committer.  [SendTx] is written here over the operations of the shared
    nonce cache and the mutex of [Serialize], and a pool of such calls runs in every
    interleaving of their steps.  Alone, a call is [SendTx]; [ConcurrentFacts.v] shows that
    a pool of them is no more than calls made one after the other.

    The read-write mutexes of the single cache operations are only taken between the lock
    and the unlock of the account's guard and are left out. *)
From S2P Require Import Prelude GoStrings Effects GoFloat Types External Committer.

(** ** The shared cache *)
Inductive cache_cmd : Type :=
  | GuardLock (account : Address)
  | GuardUnlock (account : Address)
  | CacheGet (account : Address)
  | CacheIncr (account : Address)
  | CacheSync (account : Address) (res : Z * error).

Definition cache_reply (c : cache_cmd) : Type :=
  match c with
  | GuardLock _ | GuardUnlock _ | CacheSync _ _ => unit
  | CacheGet _ => Z * bool
  | CacheIncr _ => Z
  end.

Definition CacheI : Iface := MkIface cache_cmd cache_reply.
Definition CommitI : Iface := SumI EvmI CacheI.
Definition ask (c : evm_cmd) : prog CommitI (evm_reply c) := @call CommitI (inl c).
Definition shared (c : cache_cmd) : prog CommitI (cache_reply c) := @call CommitI (inr c).

(** [defer]: the call is made when the program returns and when it panics. *)
Fixpoint prog_finally {I A} (c : cmd I) (p : prog I A) : prog I A :=
  match p with
  | Ret a => Call c (fun _ => Ret a)
  | Panic v => Call c (fun _ => Panic v)
  | Call c' k => Call c' (fun r => prog_finally c (k r))
  end.

(** [Serialize] *)
Definition Serialize {A} (account : Address) (fn : prog CommitI A) : prog CommitI A :=
  _ ← shared (GuardLock account); prog_finally (I := CommitI) (inr (GuardUnlock account)) fn.

(** [SendTx] over the shared cache: the body of the loop, the loop, and the method. *)
Definition sendTurnC (from recipient : Address) (txData : bytes) (gasLimit gasPrice nonce : Z)
    (resyncUsed : bool) : prog CommitI turn :=
  let tx := MkTransaction (big_Uint64 nonce) recipient gasLimit gasPrice txData in
  '(txHash, err) ← ask (Signer from tx);
  match err with
  | Some _ => mret (Return 0 (Wrap err "failed to sign transaction"))
  | None =>
      '(txHashRet, err) ← ask (SendTransactionWithRet tx);
      match err with
      | None => _ ← shared (CacheIncr from); mret (Return txHashRet None)
      | Some e =>
          if has e "invalid sender" then
            _ ← shared (CacheIncr from);
            mret (Return txHash (Some (ErrNew "failed to sign transaction")))
          else if is_nonce_error e then
            if resyncUsed
            then mret (Return txHash (Wrap err "nonce mismatch"))
            else
              res ← ask (PendingNonceAt from);
              _ ← shared (CacheSync from res);
              '(nonce, _) ← shared (CacheGet from);
              mret (Again nonce true)
          else if has e "known transaction" then
            _ ← shared (CacheIncr from); mret (Again nonce resyncUsed)
          else if has e "VM Exception" then
            _ ← shared (CacheIncr from); mret (Return txHash err)
          else mret (Return txHash err)
      end
  end.

Fixpoint sendLoopC (fuel : nat) (from recipient : Address) (txData : bytes)
    (gasLimit gasPrice nonce : Z) (resyncUsed : bool) : prog CommitI (option (Hash * error)) :=
  match fuel with
  | O => mret None
  | S fuel' =>
      t ← sendTurnC from recipient txData gasLimit gasPrice nonce resyncUsed;
      match t with
      | Return txHash err => mret (Some (txHash, err))
      | Again nonce resyncUsed => sendLoopC fuel' from recipient txData gasLimit gasPrice nonce resyncUsed
      end
  end.

Definition SendTxC {SH : Shopspring} (fuel : nat) (e : ethCommitter) (recipient : Address) (txData : bytes)
  : prog CommitI (option (Hash * error)) :=
  '(suggestedGasPrice, err) ← ask SuggestGasPrice;
  match err with
  | Some err => mret (Some (0, Some (errSuggest err)))
  | None =>
      gasPrice ← deref (incrementPrice suggestedGasPrice (ethGasPriceAdjustment e));
      if ethMaxGasPrice e <? gasPrice then mret (Some (0, Some errMaxGasPrice))
      else
        '(gasLimit, err) ← ask (EstimateGas (MkCallMsg (fromAddress e) recipient gasPrice txData));
        match err with
        | Some _ => mret (Some (0, Wrap err "failed to estimate gas"))
        | None =>
            res ← Serialize (fromAddress e) (
              '(nonce, _) ← shared (CacheGet (fromAddress e));
              sendLoopC fuel (fromAddress e) recipient txData gasLimit gasPrice nonce false);
            match res with
            | None => mret None
            | Some (txHash, Some err) => mret (Some (0, Some err))
            | Some (txHash, None) => mret (Some (txHash, None))
            end
        end
  end.

(** ** Goroutines *)
Abbreviation ncache := (gmap Z Z) (only parsing).

(** One step of a goroutine, on the cache and the set of locked guards; what it calls the
    provider and the signer for is recorded. *)
Inductive thread_step {A} : prog CommitI A -> ncache * gset Z -> list (event EvmI) ->
    prog CommitI A -> ncache * gset Z -> Prop :=
  | ts_ask c k r s : thread_step (Call (I := CommitI) (inl c) k) s [Ev c r] (k r) s
  | ts_lock a k n g : a ∉ g ->
      thread_step (Call (I := CommitI) (inr (GuardLock a)) k) (n, g) [] (k tt) (n, {[ a ]} ∪ g)
  | ts_unlock a k n g :
      thread_step (Call (I := CommitI) (inr (GuardUnlock a)) k) (n, g) [] (k tt) (n, g ∖ {[ a ]})
  | ts_get a k n g :
      thread_step (Call (I := CommitI) (inr (CacheGet a)) k) (n, g) []
        (k (NonceCache.Get n a).1) ((NonceCache.Get n a).2, g)
  | ts_incr a k n g :
      thread_step (Call (I := CommitI) (inr (CacheIncr a)) k) (n, g) []
        (k (NonceCache.Incr n a).1) ((NonceCache.Incr n a).2, g)
  | ts_sync a res k n g :
      thread_step (Call (I := CommitI) (inr (CacheSync a res)) k) (n, g) [] (k tt)
        (NonceCache.Sync n a res, g).

(** Goroutines with their traces, and what they share. *)
Definition pool (A : Type) : Type := list (prog CommitI A * list (event EvmI)) * (ncache * gset Z).

Inductive pool_step {A} : pool A -> pool A -> Prop :=
  | pool_step_intro (ts : list (prog CommitI A * list (event EvmI))) s i p t ev p' s' :
      ts !! i = Some (p, t) -> thread_step p s ev p' s' ->
      pool_step (ts, s) (<[i := (p', t ++ ev)]> ts, s').

(** Goroutines that start with the cache [n]. *)
Definition start_pool {A} (ps : list (prog CommitI A)) (n : ncache) : pool A :=
  (map (fun p => (p, [])) ps, (n, ∅)).

Definition ended {A} (p : prog CommitI A) : bool := if p is Call _ _ then false else true.

(** ** The same program alone *)
Definition alone_handler (c : cmd CommitI) (n : ncache) : prog EvmI (reply CommitI c * ncache) :=
  match c return prog EvmI (reply CommitI c * ncache) with
  | inl c => Call (I := EvmI) c (fun r => Ret (r, n))
  | inr c =>
      match c return prog EvmI (cache_reply c * ncache) with
      | GuardLock _ | GuardUnlock _ => Ret (tt, n)
      | CacheGet a => Ret (NonceCache.Get n a)
      | CacheIncr a => Ret (NonceCache.Incr n a)
      | CacheSync a res => Ret (tt, NonceCache.Sync n a res)
      end
  end.

Definition alone {A} (p : prog CommitI A) (n : ncache) : prog EvmI (A * ncache) :=
  interp_st alone_handler p n.

Lemma wp_alone_bind {A B} (p : prog CommitI A) (f : A -> prog CommitI B) n Q :
  wp (alone p n) (fun tr o => match o with
                              | Done (a, n') => wp (alone (f a) n') (fun tr' o' => Q (tr ++ tr') o')
                              | Crashed v => Q tr (Crashed v)
                              end) ->
  wp (alone (p ≫= f) n) Q.
Proof.
  unfold alone. change (p ≫= f) with (prog_bind f p). revert n Q.
  induction p as [a|v|c k IH]; intros n Q; cbn [interp_st prog_bind]; [done..|].
  intros H. apply (wp_bind (alone_handler c n) (fun rs => interp_st alone_handler (prog_bind f (k rs.1)) rs.2)).
  apply (wp_bind (alone_handler c n) (fun rs => interp_st alone_handler (k rs.1) rs.2)) in H.
  eapply wp_mono; [exact H|]. intros tr [[r n']|v] H'; [|done]. apply IH. eapply wp_mono; [exact H'|].
  intros tr' [[a n'']|v]; cbn; [|done]. intros H''. eapply wp_mono; [exact H''|].
  intros tr'' o. by rewrite app_assoc.
Qed.

Lemma wp_alone_finally {A} a (p : prog CommitI A) n Q :
  wp (alone p n) Q -> wp (alone (prog_finally (I := CommitI) (inr (GuardUnlock a)) p) n) Q.
Proof.
  unfold alone. revert n Q. induction p as [x|v|c k IH]; intros n Q; cbn [interp_st prog_finally]; [done..|].
  intros H. apply (wp_bind (alone_handler c n) (fun rs => interp_st alone_handler (k rs.1) rs.2)) in H.
  apply (wp_bind (alone_handler c n)
           (fun rs => interp_st alone_handler (prog_finally (I := CommitI) (inr (GuardUnlock a)) (k rs.1)) rs.2)).
  eapply wp_mono; [exact H|]. intros tr [[r n']|v] H'; [|done]. by apply IH.
Qed.

(** Alone, [SendTxC] is [SendTx]. *)
Section alone.
Context {SH : Shopspring}.

Lemma wp_alone_sendTurn from to data gl gp nonce ru n Q :
  wp (sendTurn from to data gl gp nonce ru n) Q -> wp (alone (sendTurnC from to data gl gp nonce ru) n) Q.
Proof.
  intros H [h [er|]]; specialize (H (h, Some er)) || specialize (H (h, None)); cbn in H |- *; [done|].
  intros [h' [er|]]; specialize (H (h', Some er)) || specialize (H (h', None)); cbn in H |- *;
    [|by destruct (NonceCache.Incr n from)].
  repeat case_match; cbn in *; try done;
    repeat match goal with H : NonceCache.Incr _ _ = _ |- _ => rewrite H in *; clear H end; cbn in *; try done.
  intros r. specialize (H r). cbn in *.
  by destruct (NonceCache.Get (NonceCache.Sync n from r) from) as [[x b] n'].
Qed.

Lemma wp_alone_sendLoop fuel from to data gl gp nonce ru n Q :
  wp (sendLoop fuel from to data gl gp nonce ru n) Q ->
  wp (alone (sendLoopC fuel from to data gl gp nonce ru) n) Q.
Proof.
  revert nonce ru n Q. induction fuel as [|fuel IH]; intros nonce ru n Q; cbn [sendLoop sendLoopC]; [done|].
  intros H. apply wp_alone_bind, wp_alone_sendTurn. apply wp_bind in H. eapply wp_mono; [exact H|].
  intros tr [[[h er|x b] n']|v]; cbn; [done| |done]. apply IH.
Qed.

(** The result and the cache as [SendTx] returns them. *)
Definition with_committer_state (e : ethCommitter) (o : outcome (option (Hash * error) * ncache))
  : outcome (option (Hash * error) * ethCommitter) :=
  match o with Done (r, n) => Done (r, with_cache e n) | Crashed v => Crashed v end.

Lemma wp_alone_SendTx fuel e to data n Q :
  wp (SendTx fuel (with_cache e n) to data) Q ->
  wp (alone (SendTxC fuel e to data) n) (fun tr o => Q tr (with_committer_state e o)).
Proof.
  intros H [price [er|]]; specialize (H (price, Some er)) || specialize (H (price, None)); cbn in H |- *; [done|].
  destruct (incrementPrice price (ethGasPriceAdjustment e)) as [gp|]; cbn in H |- *; [|done].
  destruct (ethMaxGasPrice e <? gp); cbn in H |- *; [done|].
  intros [gl [er|]]; specialize (H (gl, Some er)) || specialize (H (gl, None)); cbn in H |- *; [done|].
  apply wp_alone_bind, wp_alone_finally.
  change (wp (alone ('(nonce, _) ← shared (CacheGet (fromAddress e));
    sendLoopC fuel (fromAddress e) to data gl gp nonce false) n) ?Q) with
    (wp (alone (let '(nonce, _) := (NonceCache.Get n (fromAddress e)).1 in
      sendLoopC fuel (fromAddress e) to data gl gp nonce false) (NonceCache.Get n (fromAddress e)).2) Q).
  destruct (NonceCache.Get n (fromAddress e)) as [[nonce b] n1]. cbn in H |- *.
  apply wp_bind in H. apply wp_alone_sendLoop. eapply wp_mono; [exact H|].
  by intros tr [[[[h [er|]]|] n2]|v].
Qed.

Lemma alone_SendTx fuel e to data n tr o :
  runs (alone (SendTxC fuel e to data) n) tr o ->
  runs (SendTx fuel (with_cache e n) to data) tr (with_committer_state e o).
Proof.
  intros Hr. assert (wp (SendTx fuel (with_cache e n) to data) (runs (SendTx fuel (with_cache e n) to data)))
    as Hw by (apply wp_runs; done).
  exact (proj1 (wp_runs _ _) (wp_alone_SendTx fuel e to data n _ Hw) tr o Hr).
Qed.
End alone.
