(* ===== verification/ConcurrentFacts.v ===== *)
(** * ConcurrentFacts: concurrent calls of [SendTx] are serialized

    Every interleaving is the same as calls made one after the other, which is what the
    other files reason about, and every execution ends. *)
From S2P Require Import Prelude GoStrings Effects GoFloat Types External Committer Concurrent.

(** ** Lock discipline *)
Section discipline.
Context {A : Type} (a : Address).

(** Between the lock of [a] and its unlock, after which the goroutine returns. *)
Fixpoint inside (p : prog CommitI A) : Prop :=
  match p with
  | Ret _ | Panic _ => False
  | Call c k =>
      match c return (reply CommitI c -> prog CommitI A) -> Prop with
      | inl c => fun k => forall r, inside (k r)
      | inr c =>
          match c return (cache_reply c -> prog CommitI A) -> Prop with
          | GuardLock _ => fun _ => False
          | GuardUnlock a' => fun k => a' = a /\ exists x, k tt = Ret x
          | CacheGet _ | CacheIncr _ | CacheSync _ _ => fun k => forall r, inside (k r)
          end
      end k
  end.

(** Before the lock, without a look at the cache. *)
Fixpoint outside (p : prog CommitI A) : Prop :=
  match p with
  | Ret _ | Panic _ => True
  | Call c k =>
      match c return (reply CommitI c -> prog CommitI A) -> Prop with
      | inl c => fun k => forall r, outside (k r)
      | inr c =>
          match c return (cache_reply c -> prog CommitI A) -> Prop with
          | GuardLock a' => fun k => a' = a /\ inside (k tt)
          | _ => fun _ => False
          end
      end k
  end.
End discipline.

(** A section: neither locks nor panics. *)
Fixpoint section_code {A} (p : prog CommitI A) : Prop :=
  match p with
  | Ret _ => True
  | Panic _ => False
  | Call c k =>
      match c with inr (GuardLock _) | inr (GuardUnlock _) => False | _ => True end /\
      forall r, section_code (k r)
  end.

Lemma section_bind {A B} (p : prog CommitI A) (f : A -> prog CommitI B) :
  section_code p -> (forall x, section_code (f x)) -> section_code (p ≫= f).
Proof.
  change (p ≫= f) with (prog_bind f p). intros Hp Hf.
  induction p as [x|v|c k IH]; cbn in *; [apply Hf|done|]. destruct Hp as [Hc Hk]. split; [done|auto].
Qed.

Lemma section_inside {A B} a (p : prog CommitI A) (f : A -> prog CommitI B) :
  section_code p -> (forall x, exists y, f x = Ret y) ->
  inside a (prog_bind f (prog_finally (I := CommitI) (inr (GuardUnlock a)) p)).
Proof.
  intros Hp Hf. induction p as [x|v|[c|[a'|a'|a'|a'|a' res]] k IH]; cbn in *; try done; try tauto;
    destruct Hp as [Hc Hk]; try done; auto.
Qed.

Lemma sendTurnC_section from to data gl gp nonce ru : section_code (sendTurnC from to data gl gp nonce ru).
Proof.
  split; [done|]. intros [h [er|]]; cbn; [done|]. split; [done|]. intros [h' [er|]]; cbn; [|done].
  repeat case_match; cbn; try done. split; [done|]. intros r. split; [done|]. intros _. split; [done|].
  by intros [x b].
Qed.

Lemma sendLoopC_section fuel from to data gl gp nonce ru : section_code (sendLoopC fuel from to data gl gp nonce ru).
Proof.
  revert nonce ru. induction fuel as [|fuel IH]; intros nonce ru; [done|].
  apply section_bind; [apply sendTurnC_section|]. by intros [h er|x b].
Qed.

Lemma SendTxC_outside {SH : Shopspring} fuel e to data : outside (fromAddress e) (SendTxC fuel e to data).
Proof.
  intros [price [er|]]; cbn; [done|]. destruct (incrementPrice price _) as [gp|]; cbn; [|done].
  destruct (ethMaxGasPrice e <? gp); cbn; [done|]. intros [gl [er|]]; cbn; [done|]. split; [done|].
  refine (section_inside (fromAddress e) ('(nonce, _) ← shared (CacheGet (fromAddress e));
    sendLoopC fuel (fromAddress e) to data gl gp nonce false)
    (fun res => match res with
                | None => Ret None
                | Some (_, Some err) => Ret (Some (0, Some err))
                | Some (txHash, None) => Ret (Some (txHash, None))
                end) _ _).
  - split; [done|]. intros [nonce b]. apply sendLoopC_section.
  - intros [[h [er|]]|]; by eexists.
Qed.

(** ** Serialization *)
Section serial.
Context {A : Type}.

(** Steps of one goroutine, whatever the guards. *)
Inductive steps : prog CommitI A -> ncache -> list (event EvmI) -> prog CommitI A -> ncache -> Prop :=
  | steps_refl p n : steps p n [] p n
  | steps_snoc p n t p1 n1 g g' ev p2 n2 :
      steps p n t p1 n1 -> thread_step p1 (n1, g) ev p2 (n2, g') -> steps p n (t ++ ev) p2 n2.

Lemma steps_alone p n t p' n' :
  steps p n t p' n' -> forall t' o, runs (alone p' n') t' o -> runs (alone p n) (t ++ t') o.
Proof.
  induction 1 as [|p n t p1 n1 g g' ev p2 n2 _ IH Hs]; intros t' o Hr; [done|].
  rewrite <- app_assoc. apply IH.
  remember (n1, g) as s1 eqn:E1. remember (n2, g') as s2 eqn:E2.
  destruct Hs; simplify_eq; try exact Hr.
  - by apply (runs_call (I := EvmI)).
Qed.

(** A goroutine that has ended, from cache [n] to cache [n']; a panic leaves the cache. *)
Definition ended_between (p : prog CommitI A) (n n' : ncache) : Prop :=
  match p with Ret _ => True | Panic _ => n' = n | Call _ _ => False end.

(** Goroutines one after the other: [order] lists them, with the caches in between. *)
Inductive serial (R : nat -> ncache -> ncache -> Prop) : ncache -> list nat -> ncache -> Prop :=
  | serial_nil n : serial R n [] n
  | serial_cons n i n' order n'' : R i n n' -> serial R n' order n'' -> serial R n (i :: order) n''.

Lemma serial_app R n o1 n' o2 n'' : serial R n o1 n' -> serial R n' o2 n'' -> serial R n (o1 ++ o2) n''.
Proof. induction 1; [done|]. intros H'. econstructor; [eassumption|auto]. Qed.

Lemma serial_mono (R R' : nat -> ncache -> ncache -> Prop) n order n' :
  (forall i m m', i ∈ order -> R i m m' -> R' i m m') -> serial R n order n' -> serial R' n order n'.
Proof.
  intros H Hs. induction Hs as [|n i n' order n'' Hi Hs IH]; [constructor|].
  econstructor; [apply H; [left|exact Hi]|]. apply IH. intros j m m' Hj. apply H. by right.
Qed.
End serial.

(** ** The invariant of a pool *)
Section pool.
Context {A : Type} (a : Address) (ps : list (prog CommitI A)) (n0 : ncache).

Lemma outside_step (p p' : prog CommitI A) n g ev n' g' :
  outside a p -> thread_step p (n, g) ev p' (n', g') ->
  n' = n /\ ((g' = g /\ outside a p' /\ forall m, thread_step p (m, g) ev p' (m, g)) \/
             (a ∉ g /\ g' = {[ a ]} ∪ g /\ inside a p')).
Proof.
  intros Ho Hs. remember (n, g) as s eqn:E. remember (n', g') as s' eqn:E'.
  destruct Hs; cbn in Ho; simplify_eq; try done.
  - split; [done|]. left. split; [done|]. split; [apply Ho|]. intros m. constructor.
  - destruct Ho as [-> Hk]. split; [done|]. by right.
Qed.

Lemma inside_step (p p' : prog CommitI A) n g ev n' g' :
  inside a p -> thread_step p (n, g) ev p' (n', g') ->
  (g' = g /\ inside a p') \/ (g' = g ∖ {[ a ]} /\ exists x, p' = Ret x).
Proof.
  intros Hi Hs. remember (n, g) as s eqn:E. remember (n', g') as s' eqn:E'.
  destruct Hs; cbn in Hi; simplify_eq; try done; try (left; split; [done|apply Hi]).
  destruct Hi as [-> Hk]. right. by split.
Qed.

(** Goroutine [i] went from cache [n] to cache [n'] and ended. *)
Definition ran (ts : list (prog CommitI A * list (event EvmI))) (i : nat) (n n' : ncache) : Prop :=
  exists p0 p t, ps !! i = Some p0 /\ ts !! i = Some (p, t) /\ steps p0 n t p n' /\ ended_between p n n'.

(** It has not come to its section. *)
Definition waiting (ts : list (prog CommitI A * list (event EvmI))) (i : nat) : Prop :=
  forall p0 p t, ps !! i = Some p0 -> ts !! i = Some (p, t) -> outside a p /\ forall n, steps p0 n t p n.

(** It holds the guard, which it got with cache [n]. *)
Definition holds (ts : list (prog CommitI A * list (event EvmI))) (i : nat) (n n' : ncache) : Prop :=
  exists p0 p t, ps !! i = Some p0 /\ ts !! i = Some (p, t) /\ steps p0 n t p n' /\ inside a p.

(** The goroutines of [order] are done, one after the other, [owner] has the guard, and the
    others wait. *)
Definition pool_inv (st : pool A) (order : list nat) (owner : option nat) (n : ncache) : Prop :=
  length st.1 = length ps /\ NoDup order /\ serial (ran st.1) n0 order n /\
  (forall i, i ∉ order -> owner <> Some i -> waiting st.1 i) /\
  match owner with
  | None => st.2.1 = n /\ a ∉ st.2.2
  | Some i => i ∉ order /\ a ∈ st.2.2 /\ holds st.1 i n st.2.1
  end.

Lemma start_inv : Forall (outside a) ps -> pool_inv (start_pool ps n0) [] None n0.
Proof.
  intros Hps. split; [apply length_map|]. split; [constructor|]. split; [constructor|]. split.
  - intros i _ _ p0 p t Hp0 Hp. cbn in Hp. rewrite list_lookup_fmap, Hp0 in Hp. injection Hp as <- <-.
    split; [by eapply Forall_lookup_1|]. intros n. constructor.
  - split; [done|apply not_elem_of_empty].
Qed.

Lemma ran_insert ts j x i n n' : i <> j -> ran ts i n n' -> ran (<[j := x]> ts) i n n'.
Proof. intros Hij (p0 & p & t & H0 & H1 & H). exists p0, p, t. by rewrite list_lookup_insert_ne. Qed.

Lemma waiting_insert ts j x i : i <> j -> waiting ts i -> waiting (<[j := x]> ts) i.
Proof. intros Hij H p0 p t H0 H1. rewrite list_lookup_insert_ne in H1 by done. by apply H. Qed.

Lemma serial_insert ts j x n order n' :
  j ∉ order -> serial (ran ts) n order n' -> serial (ran (<[j := x]> ts)) n order n'.
Proof.
  intros Hj. apply serial_mono. intros i m m' Hi. apply ran_insert. by intros ->.
Qed.

(** A goroutine that has ended takes no step. *)
Lemma order_ended ts n order n' i p t :
  serial (ran ts) n order n' -> i ∈ order -> ts !! i = Some (p, t) -> ended p = true.
Proof.
  induction 1 as [|n j n1 order n2 (p0 & p1 & t1 & H0 & H1 & H2 & H3) _ IH]; [by intros ?%elem_of_nil|].
  intros [->|Hi]%elem_of_cons Ht; [|by apply IH]. rewrite H1 in Ht. injection Ht as <- <-.
  by destruct p1.
Qed.

Lemma thread_step_ended (p p' : prog CommitI A) s ev s' : thread_step p s ev p' s' -> ended p = false.
Proof. by destruct 1. Qed.

(** What a step of goroutine [i] leaves as it was. *)
Lemma pool_inv_others ts s order owner n i p t x :
  pool_inv (ts, s) order owner n -> i ∉ order -> ts !! i = Some (p, t) ->
  let ts' := <[i := x]> ts in
  length ts' = length ps /\ ts' !! i = Some x /\ serial (ran ts') n0 order n /\
  (forall j, j <> i -> j ∉ order -> owner <> Some j -> waiting ts' j).
Proof.
  intros (Hlen & _ & Hser & Hwait & _) Hio Hi ts'. split; [by unfold ts'; rewrite length_insert|].
  split; [apply list_lookup_insert_eq; by eapply lookup_lt_Some|]. split; [by apply serial_insert|].
  intros j Hj Hjo Hjw. apply waiting_insert; [done|]. by apply Hwait.
Qed.

Lemma owner_step ts c g order i n p t ev p' c' g' :
  pool_inv (ts, (c, g)) order (Some i) n -> ts !! i = Some (p, t) -> thread_step p (c, g) ev p' (c', g') ->
  exists order' owner' n', pool_inv (<[i := (p', t ++ ev)]> ts, (c', g')) order' owner' n'.
Proof.
  intros Hinv Hi Hs. pose proof Hinv as (_ & Hnd & _ & _ & Hio & Ha & q0 & q & u & Hq0 & Hq & Hst & Hin).
  destruct (pool_inv_others _ _ _ _ _ _ _ _ (p', t ++ ev) Hinv Hio Hi) as (Hlen' & Hi' & Hser' & Hothers).
  cbn [fst snd] in *. simplify_eq.
  pose proof (steps_snoc _ _ _ _ _ _ _ _ _ _ Hst Hs) as Hst'.
  destruct (inside_step _ _ _ _ _ _ _ Hin Hs) as [[-> Hin']|[-> [x ->]]].
  - exists order, (Some i), n. split; [done|]. split; [done|]. split; [done|]. split.
    + intros j Hj Hjw. apply Hothers; [congruence|done|done].
    + split; [done|]. split; [done|]. eexists _, _, _. split; [exact Hq0|]. by split; [exact Hi'|].
  - exists (order ++ [i]), None, c'. split; [done|]. split; [|split; [|split]].
    + apply NoDup_app. split; [done|]. split; [|apply NoDup_singleton].
      intros j Hj ->%list_elem_of_singleton. done.
    + eapply serial_app; [exact Hser'|]. econstructor; [|constructor].
      eexists _, _, _. split; [exact Hq0|]. by split; [exact Hi'|].
    + intros j Hj _. rewrite elem_of_app, list_elem_of_singleton in Hj.
      apply Hothers; [tauto|tauto|]. intros [= ->]. tauto.
    + split; [done|]. cbn. set_solver.
Qed.

Lemma waiting_step ts c g order owner i n p t ev p' c' g' :
  pool_inv (ts, (c, g)) order owner n -> i ∉ order -> owner <> Some i ->
  ts !! i = Some (p, t) -> thread_step p (c, g) ev p' (c', g') ->
  exists order' owner' n', pool_inv (<[i := (p', t ++ ev)]> ts, (c', g')) order' owner' n'.
Proof.
  intros Hinv Hio Hne Hi Hs. pose proof Hinv as (Hlen & Hnd & _ & Hwait & Hown).
  destruct (pool_inv_others _ _ _ _ _ _ _ _ (p', t ++ ev) Hinv Hio Hi) as (Hlen' & Hi' & Hser' & Hothers).
  cbn [fst snd] in *.
  assert (exists p0, ps !! i = Some p0) as [p0 Hp0].
  { apply lookup_lt_is_Some. rewrite <- Hlen. by eapply lookup_lt_Some. }
  destruct (Hwait i Hio Hne p0 p t Hp0 Hi) as [Hout Hst].
  destruct (outside_step _ _ _ _ _ _ _ Hout Hs) as [-> [(-> & Hout' & Hany)|(Ha & -> & Hin)]].
  - exists order, owner, n. split; [done|]. split; [done|]. split; [done|]. split.
    + intros j Hj Hjw. destruct (decide (j = i)) as [->|Hji]; [|by apply Hothers].
      intros q0 q u Hq0 Hq. cbn in Hq. rewrite Hi' in Hq. simplify_eq. split; [done|].
      intros m. by eapply steps_snoc; [apply Hst|apply Hany].
    + destruct owner as [j|]; [|done]. destruct Hown as (Hj & Hag & q0 & q & u & Hq0 & Hq & Hh).
      split; [done|]. split; [done|]. exists q0, q, u. split; [done|]. split; [|done].
      cbn. rewrite list_lookup_insert_ne; [done|]. by intros ->.
  - destruct owner as [j|]; [by destruct Hown as (_ & Hag & _)|]. destruct Hown as [-> _].
    exists order, (Some i), n. split; [done|]. split; [done|]. split; [done|]. split.
    + intros j Hj Hjw. apply Hothers; [congruence|done|done].
    + split; [done|]. split; [cbn; set_solver|]. exists p0, p', (t ++ ev). split; [done|]. split; [done|].
      split; [|done]. by eapply steps_snoc.
Qed.

Lemma pool_inv_step st st' order owner n :
  pool_inv st order owner n -> pool_step st st' -> exists order' owner' n', pool_inv st' order' owner' n'.
Proof.
  intros Hinv Hs. destruct Hs as [ts [c g] i p t ev p' [c' g'] Hi Hs].
  assert (i ∉ order) as Hio.
  { intros Hin. pose proof (order_ended _ _ _ _ _ _ _ (proj1 (proj2 (proj2 Hinv))) Hin Hi) as He.
    apply thread_step_ended in Hs. congruence. }
  destruct (decide (owner = Some i)) as [->|Hne]; [by eapply owner_step|by eapply waiting_step].
Qed.

Lemma pool_inv_reachable st :
  Forall (outside a) ps -> rtc pool_step (start_pool ps n0) st ->
  exists order owner n, pool_inv st order owner n.
Proof.
  intros Hps Hr. assert (exists order owner n, pool_inv (start_pool ps n0) order owner n) as H
    by (eexists _, _, _; by apply start_inv).
  induction Hr as [st|st1 st2 st3 Hs _ IH]; [done|].
  apply IH. destruct H as (order & owner & n & H). by eapply pool_inv_step.
Qed.
End pool.

(** ** Concurrent calls of [SendTx] *)
Section sends.
Context {SH : Shopspring}.

(** Goroutines that send through the committer [e]. *)
Definition sends (fuel : nat) (e : ethCommitter) (calls : list (Address * bytes))
  : list (prog CommitI (option (Hash * error))) :=
  map (fun c => SendTxC fuel e c.1 c.2) calls.

Definition send_pool (fuel : nat) (e : ethCommitter) (calls : list (Address * bytes))
  : pool (option (Hash * error)) :=
  start_pool (sends fuel e calls) (nonceCache e).

(** What goroutine [i] did is what [SendTx] does alone, from cache [n] to cache [n']. *)
Definition served (fuel : nat) (e : ethCommitter) (calls : list (Address * bytes))
    (ts : list (prog CommitI (option (Hash * error)) * list (event EvmI))) (i : nat) (n n' : ncache) : Prop :=
  exists to data p t, calls !! i = Some (to, data) /\ ts !! i = Some (p, t) /\
    match p with
    | Ret r => runs (SendTx fuel (with_cache e n) to data) t (Done (r, with_cache e n'))
    | Panic v => runs (SendTx fuel (with_cache e n) to data) t (Crashed v) /\ n' = n
    | Call _ _ => False
    end.

Lemma sends_outside fuel e calls : Forall (outside (fromAddress e)) (sends fuel e calls).
Proof. apply Forall_map, Forall_true. intros c. apply SendTxC_outside. Qed.

Lemma ran_served fuel e calls ts i n n' : ran (sends fuel e calls) ts i n n' -> served fuel e calls ts i n n'.
Proof.
  intros (p0 & p & t & H0 & H1 & Hst & He). unfold sends in H0. rewrite list_lookup_fmap in H0.
  destruct (calls !! i) as [[to data]|] eqn:Ec; [|done]. injection H0 as <-. cbn in Hst.
  exists to, data, p, t. split; [done|]. split; [done|].
  destruct p as [r|v|c k]; [| |done]; (pose proof (steps_alone _ _ _ _ _ Hst []) as Hr; rewrite app_nil_r in Hr).
  - exact (alone_SendTx fuel e to data n t _ (Hr (Done (r, n')) (runs_ret _))).
  - split; [|done]. exact (alone_SendTx fuel e to data n t _ (Hr (Crashed v) (runs_panic _))).
Qed.

(** A pool in which all have ended has the guard free, and those that never took it ran
    from whatever cache. *)
Lemma pool_inv_ended fuel e calls ts s order owner n :
  pool_inv (fromAddress e) (sends fuel e calls) (nonceCache e) (ts, s) order owner n ->
  Forall (fun x => ended x.1 = true) ts ->
  s.1 = n /\ forall i, (i < length calls)%nat -> i ∉ order -> served fuel e calls ts i n n.
Proof.
  intros (Hlen & _ & _ & Hwait & Hown) Hall. cbn [fst snd] in *.
  unfold sends in Hlen. rewrite length_map in Hlen. destruct owner as [i|].
  { destruct Hown as (_ & _ & p0 & p & t & _ & Ht & _ & Hin).
    pose proof (Forall_lookup_1 _ _ _ _ Hall Ht) as He. by destruct p. }
  destruct Hown as [-> _]. split; [done|]. intros i Hi Ho.
  destruct (lookup_lt_is_Some_2 calls i Hi) as [c Hc].
  destruct (lookup_lt_is_Some_2 ts i ltac:(lia)) as [[p t] Ht].
  assert (sends fuel e calls !! i = Some (SendTxC fuel e c.1 c.2)) as Hp0
    by (unfold sends; by rewrite list_lookup_fmap, Hc).
  destruct (Hwait i Ho ltac:(done) _ p t Hp0 Ht) as [_ Hst].
  apply ran_served. eexists _, p, t. split; [exact Hp0|]. split; [done|]. split; [apply Hst|].
  pose proof (Forall_lookup_1 _ _ _ _ Hall Ht) as He. by destruct p.
Qed.

Lemma serial_in fuel e calls ts n order n' i :
  serial (ran (sends fuel e calls) ts) n order n' -> i ∈ order -> (i < length calls)%nat.
Proof.
  induction 1 as [|n j n1 order n2 (p0 & p & t & H0 & _) _ IH]; [by intros ?%elem_of_nil|].
  intros [->|Hi]%elem_of_cons; [|by apply IH]. apply lookup_lt_Some in H0.
  unfold sends in H0. by rewrite length_map in H0.
Qed.

(** C5: concurrent transactions are serialized: when goroutines call [SendTx] of one
    committer and have all ended, whatever the interleaving of their calls of the provider, of
    the signer and of the nonce cache, there is an order in which each of them, alone and with
    the cache that the one before left, has the same trace and the same result. *)
Theorem concurrent_sends_serial fuel e calls ts n g :
  rtc pool_step (send_pool fuel e calls) (ts, (n, g)) -> Forall (fun x => ended x.1 = true) ts ->
  exists order, order ≡ₚ seq 0 (length calls) /\ serial (served fuel e calls ts) (nonceCache e) order n.
Proof.
  intros Hr Hall.
  destruct (pool_inv_reachable _ _ _ _ (sends_outside fuel e calls) Hr) as (order & owner & m & Hinv).
  destruct (pool_inv_ended _ _ _ _ _ _ _ _ Hinv Hall) as [Hn Hrest]. cbn in Hn. subst m.
  destruct Hinv as (_ & Hnd & Hser & _). cbn [fst] in Hser.
  set (rest := base.filter (fun i => i ∉ order) (seq 0 (length calls))). exists (order ++ rest). split.
  - apply NoDup_Permutation; [|apply NoDup_seq|].
    + apply NoDup_app. split; [done|]. split; [|apply NoDup_filter, NoDup_seq].
      intros i Hi [Hni _]%list_elem_of_filter. done.
    + intros i. unfold rest. rewrite elem_of_app, list_elem_of_filter, elem_of_seq. split.
      * intros [Hi|[_ Hi]]; [|done]. pose proof (serial_in _ _ _ _ _ _ _ _ Hser Hi). lia.
      * intros Hi. destruct (decide (i ∈ order)); auto.
  - eapply serial_app; [eapply serial_mono; [|exact Hser]; intros; by apply ran_served|].
    assert (forall i, i ∈ rest -> served fuel e calls ts i n n) as Hrest'.
    { intros i [Hi Hs%elem_of_seq]%list_elem_of_filter. apply Hrest; [lia|done]. }
    clearbody rest. induction rest as [|i rest IH]; [constructor|].
    econstructor; [apply Hrest'; left|]. apply IH. intros j Hj. apply Hrest'. by right.
Qed.

(** ** Every execution ends *)

(** One goroutine of a list has made a step: its program is smaller. *)
Definition smaller {A} (p' p : prog CommitI A) : Prop := exists s ev s', thread_step p s ev p' s'.

Lemma thread_step_child {A} (p p' : prog CommitI A) s ev s' :
  thread_step p s ev p' s' -> match p with Call c k => exists r, p' = k r | _ => False end.
Proof. by destruct 1; eexists. Qed.

Lemma smaller_acc {A} (p : prog CommitI A) : Acc smaller p.
Proof.
  induction p as [x|v|c k IH]; constructor; intros p' (s & ev & s' & Hs); apply thread_step_child in Hs; [done..|].
  destruct Hs as [r ->]. apply IH.
Qed.

Definition list_smaller {A} (ps' ps : list (prog CommitI A)) : Prop :=
  exists i p p', ps !! i = Some p /\ smaller p' p /\ ps' = <[i := p']> ps.

Lemma list_smaller_acc {A} (ps : list (prog CommitI A)) : Acc list_smaller ps.
Proof.
  induction ps as [|p ps IHps]; [constructor; by intros ps' (i & p & p' & Hi & _)|].
  revert p. induction IHps as [ps Hps IHps]. intros p. induction (smaller_acc p) as [p _ IHp].
  constructor. intros ps' ([|i] & q & q' & Hi & Hs & ->); cbn in *.
  - injection Hi as ->. by apply IHp.
  - apply IHps. by exists i, q, q'.
Qed.

Lemma pool_acc {A} (st : pool A) : Acc (fun st' st => pool_step st st') st.
Proof.
  assert (forall ps (st : pool A), Acc list_smaller ps -> map fst st.1 = ps -> Acc (fun st' st => pool_step st st') st)
    as H; [|by eapply H; [apply list_smaller_acc|]].
  intros ps st0 Hacc. revert st0. induction Hacc as [ps _ IH]. intros st0 <-. constructor. intros st' Hs.
  destruct Hs as [ts s i p t ev p' s' Hi Hs]. eapply IH; [|done]. exists i, p, p'. split; [|split].
  - cbn. by rewrite list_lookup_fmap, Hi.
  - by exists s, ev, s'.
  - apply (list_fmap_insert fst).
Qed.

(** Some reply of the provider. *)
Definition evm_answer (c : evm_cmd) : evm_reply c :=
  match c return evm_reply c with
  | SuggestGasPrice | EstimateGas _ | PendingNonceAt _ | Signer _ _ | SendTransactionWithRet _ => (0, None)
  end.

Lemma inside_steps {A} a (p : prog CommitI A) n g : inside a p -> exists ev p' s', thread_step p (n, g) ev p' s'.
Proof.
  destruct p as [x|v|[c|[a'|a'|a'|a'|a' res]] k]; cbn; try done; intros _;
    [exists [Ev c (evm_answer c)]|exists []..]; eexists _, _; by constructor.
Qed.

Lemma concurrent_sends_progress fuel e calls st :
  rtc pool_step (send_pool fuel e calls) st ->
  Forall (fun x => ended x.1 = true) st.1 \/ exists st', pool_step st st'.
Proof.
  intros Hr. destruct (pool_inv_reachable _ _ _ _ (sends_outside fuel e calls) Hr) as (order & owner & m & Hinv).
  destruct st as [ts [n g]]. destruct Hinv as (Hlen & _ & Hser & Hwait & Hown). cbn [fst snd] in *.
  destruct owner as [i|].
  { destruct Hown as (_ & _ & p0 & p & t & _ & Ht & _ & Hin). right.
    destruct (inside_steps _ p n g Hin) as (ev & p' & s' & Hs). eexists. by econstructor. }
  destruct Hown as [_ Hg].
  destruct (decide (Forall (fun x => ended x.1 = true) ts)) as [|Hne]; [by left|right].
  apply not_Forall_Exists, Exists_exists in Hne as ([p t] & [i Ht]%list_elem_of_lookup & Hp); [|apply _].
  assert (i ∉ order) as Ho by (intros Hin; by apply Hp, (order_ended _ _ _ _ _ _ _ _ Hser Hin Ht)).
  destruct (lookup_lt_is_Some_2 (sends fuel e calls) i) as [p0 Hp0].
  { rewrite <- Hlen. by eapply lookup_lt_Some. }
  destruct (Hwait i Ho ltac:(done) p0 p t Hp0 Ht) as [Hout _].
  destruct p as [x|v|[c|[a'|a'|a'|a'|a' res]] k]; cbn in Hp, Hout; try done.
  - eexists. eapply pool_step_intro; [exact Ht|]. apply (ts_ask c k (evm_answer c)).
  - destruct Hout as [-> _]. eexists. eapply pool_step_intro; [exact Ht|]. by apply ts_lock.
Qed.

(** C15: concurrent transactions end: no execution of goroutines that call [SendTx] goes on
    for ever (given the fuel of the sending loop), and none stops before all of them have
    ended, so that none waits for the guard for ever. *)
Theorem concurrent_sends_end fuel e calls :
  Acc (fun st' st => pool_step st st') (send_pool fuel e calls) /\
  forall st, rtc pool_step (send_pool fuel e calls) st ->
    Forall (fun x => ended x.1 = true) st.1 \/ exists st', pool_step st st'.
Proof. split; [apply pool_acc|]. intros st. apply concurrent_sends_progress. Qed.
End sends.

(** ** An example: two sends whose steps alternate *)
Module Example.

(** The step of a goroutine against a node that accepts everything; [None] if it cannot. *)
Definition step_of {A} (p : prog CommitI A) (s : ncache * gset Z)
  : option (list (event EvmI) * prog CommitI A * (ncache * gset Z)) :=
  match p with
  | Ret _ | Panic _ => None
  | Call c k =>
      match c return (reply CommitI c -> prog CommitI A) -> _ with
      | inl c => fun k =>
          let r := match c return evm_reply c with
                   | SuggestGasPrice => (1, None)
                   | EstimateGas _ => (21000, None)
                   | c => evm_answer c
                   end in Some ([Ev c r], k r, s)
      | inr c =>
          match c return (cache_reply c -> prog CommitI A) -> _ with
          | GuardLock a => fun k => if decide (a ∈ s.2) then None else Some ([], k tt, (s.1, {[ a ]} ∪ s.2))
          | GuardUnlock a => fun k => Some ([], k tt, (s.1, s.2 ∖ {[ a ]}))
          | CacheGet a => fun k => Some ([], k (NonceCache.Get s.1 a).1, ((NonceCache.Get s.1 a).2, s.2))
          | CacheIncr a => fun k => Some ([], k (NonceCache.Incr s.1 a).1, ((NonceCache.Incr s.1 a).2, s.2))
          | CacheSync a res => fun k => Some ([], k tt, (NonceCache.Sync s.1 a res, s.2))
          end
      end k
  end.

Lemma step_of_sound {A} (p p' : prog CommitI A) s ev s' :
  step_of p s = Some (ev, p', s') -> thread_step p s ev p' s'.
Proof.
  destruct p as [x|v|[c|[a|a|a|a|a res]] k], s as [n g]; cbn; try done; try case_decide; intros [= <- <- <-];
    by constructor.
Qed.

(** Goroutines scheduled in a given order; one that cannot make a step is passed over. *)
Fixpoint run_pool {A} (schedule : list nat) (st : pool A) : pool A :=
  match schedule with
  | [] => st
  | i :: schedule =>
      match st.1 !! i with
      | Some (p, t) =>
          match step_of p st.2 with
          | Some (ev, p', s') => run_pool schedule (<[i := (p', t ++ ev)]> st.1, s')
          | None => run_pool schedule st
          end
      | None => run_pool schedule st
      end
  end.

Lemma run_pool_steps {A} schedule (st : pool A) : rtc pool_step st (run_pool schedule st).
Proof.
  revert st. induction schedule as [|i schedule IH]; intros [ts s]; cbn; [done|].
  destruct (ts !! i) as [[p t]|] eqn:Hi; [|apply IH].
  destruct (step_of p s) as [[[ev p'] s']|] eqn:Hs; [|apply IH].
  eapply rtc_l; [|apply IH]. by eapply pool_step_intro; [|apply step_of_sound].
Qed.

Definition calls : list (Address * bytes) := [(0xb1, []); (0xb2, [])].
Definition committer : ethCommitter := MkEthCommitter defaultOptions 0xaa (FFin 1 0) 500 {[ 0xaa := 7 ]}.
Definition schedule : list nat := concat (replicate 20 [0%nat; 1%nat]).
Definition final : pool (option (Hash * error)) := run_pool schedule (send_pool 5 committer calls).

(** The first takes nonce 7, the second nonce 8. *)
Example nonces_in_turn :
  map (fun x => map tx_nonce (submitted x.2)) final.1 = [[7]; [8]] /\ final.2.1 !! 0xaa = Some 9.
Proof. by vm_compute. Qed.

Lemma concurrent_sends_serial_witness :
  exists order, order ≡ₚ seq 0 2 /\ serial (served 5 committer calls final.1) {[ 0xaa := 7 ]} order final.2.1.
Proof.
  apply (concurrent_sends_serial 5 committer calls final.1 final.2.1 final.2.2).
  - rewrite <- !surjective_pairing. apply run_pool_steps.
  - apply (bool_decide_eq_true_1 _). by vm_compute.
Defined.
End Example.
