(* ===== verification/GoSort.v ===== *)
(** * GoSort: [sort.Slice] and [sort.Sort]

    The standard library does not say which order elements that compare equal
    end up in.  [sort_Slice] is its insertion sort (the one it uses for up to
    twelve elements); [sort_Slice_unique] shows that for an order that compares
    no two elements of the slice equal every correct sort gives this result. *)
From S2P Require Import Prelude.

Section sort.
Context {A : Type} (less : A -> A -> bool).

Fixpoint insert_sorted (x : A) (l : list A) : list A :=
  match l with
  | [] => [x]
  | y :: l' => if less x y then x :: l else y :: insert_sorted x l'
  end.

Definition sort_Slice (l : list A) : list A := foldl (fun acc x => insert_sorted x acc) [] l.

(** No element is less than one before it. *)
Definition go_sorted (l : list A) : Prop :=
  forall i j x y, l !! i = Some x -> l !! j = Some y -> (i < j)%nat -> less y x = false.

Lemma insert_sorted_perm x l : insert_sorted x l ≡ₚ x :: l.
Proof.
  induction l as [|y l IH]; simpl; [done|]. destruct (less x y); [done|].
  rewrite IH. apply Permutation_swap.
Qed.

Lemma sort_Slice_perm l : sort_Slice l ≡ₚ l.
Proof.
  induction l as [|x l IH] using rev_ind; [done|].
  unfold sort_Slice in *. rewrite foldl_app. simpl. rewrite insert_sorted_perm, IH.
  apply Permutation_cons_append.
Qed.

Lemma length_sort_Slice l : length (sort_Slice l) = length l.
Proof. apply Permutation_length, sort_Slice_perm. Qed.

Lemma elem_of_sort_Slice x l : x ∈ sort_Slice l <-> x ∈ l.
Proof. by rewrite (sort_Slice_perm l). Qed.

Lemma go_sorted_cons x l :
  go_sorted (x :: l) <-> (forall y, y ∈ l -> less y x = false) /\ go_sorted l.
Proof.
  split.
  - intros H. split.
    + intros y [i Hi]%list_elem_of_lookup. apply (H 0%nat (S i) x y); [done|done|lia].
    + intros i j a b Ha Hb Hij. apply (H (S i) (S j) a b); [done|done|lia].
  - intros [H1 H2] [|i] [|j] a b Ha Hb Hij; simpl in *; try lia.
    + injection Ha as <-. apply H1. by eapply list_elem_of_lookup_2.
    + apply (H2 i j); [done|done|lia].
Qed.

(** A strict weak order, as [sort] requires. *)
Record weak_order : Prop := {
  wo_irrefl : forall x, less x x = false;
  wo_trans : forall x y z, less x y = true -> less y z = true -> less x z = true;
  wo_incomp : forall x y z, less x y = false -> less y z = false -> less x z = false
}.

Context (Hwo : weak_order).

Lemma wo_asym x y : less x y = true -> less y x = false.
Proof.
  intros H. destruct (less y x) eqn:E; [|done].
  pose proof (wo_trans Hwo x y x H E). by rewrite (wo_irrefl Hwo) in *.
Qed.

Lemma insert_sorted_sorted x l : go_sorted l -> go_sorted (insert_sorted x l).
Proof.
  induction l as [|y l IH]; simpl; intros Hl.
  - apply go_sorted_cons. split; [by intros ? ?%elem_of_nil|by intros i].
  - apply go_sorted_cons in Hl as [Hy Hl]. destruct (less x y) eqn:E.
    + apply go_sorted_cons. split; [|by apply go_sorted_cons].
      intros z [->|Hz]%elem_of_cons; [by apply wo_asym|].
      apply (wo_incomp Hwo z y x); [by apply Hy|by apply wo_asym].
    + apply go_sorted_cons. split; [|by apply IH].
      intros z. rewrite (insert_sorted_perm x l). intros [->|Hz]%elem_of_cons; [done|by apply Hy].
Qed.

Lemma sort_Slice_sorted l : go_sorted (sort_Slice l).
Proof.
  induction l as [|x l IH] using rev_ind; [by intros i|].
  unfold sort_Slice in *. rewrite foldl_app. by apply insert_sorted_sorted.
Qed.

(** The first element is not greater than any other. *)
Lemma sort_Slice_head x l l' : sort_Slice l = x :: l' -> x ∈ l /\ forall y, y ∈ l -> less y x = false.
Proof.
  intros H. pose proof (sort_Slice_sorted l) as Hs. pose proof (sort_Slice_perm l) as Hp.
  rewrite H in Hs, Hp. apply go_sorted_cons in Hs as [Hx _]. split.
  - rewrite <- Hp. left.
  - intros y. rewrite <- Hp. intros [->|Hy]%elem_of_cons; [apply (wo_irrefl Hwo)|by apply Hx].
Qed.

(** With no two equal elements, the sorted permutation is unique. *)
Lemma sorted_perm_unique l l' :
  l ≡ₚ l' -> go_sorted l -> go_sorted l' ->
  (forall x y, x ∈ l -> y ∈ l -> less x y = false -> less y x = false -> x = y) ->
  l = l'.
Proof.
  revert l'. induction l as [|x l IH]; intros l' Hp Hs Hs' Htot.
  - by apply Permutation_nil_l in Hp.
  - destruct l' as [|x' l']; [by apply Permutation_nil_r in Hp|].
    apply go_sorted_cons in Hs as [Hx Hs], Hs' as [Hx' Hs'].
    assert (x = x') as <-.
    { assert (x ∈ x' :: l') as H1 by (rewrite <- Hp; left).
      assert (x' ∈ x :: l) as H2 by (rewrite Hp; left).
      apply elem_of_cons in H1 as [->|H1]; [done|].
      apply elem_of_cons in H2 as [->|H2]; [done|].
      apply Htot; [left|by right|by apply Hx'|by apply Hx]. }
    apply Permutation_cons_inv in Hp. f_equal. apply IH; try done.
    intros a b Ha Hb. apply Htot; by right.
Qed.

Lemma sort_Slice_unique l l' :
  l ≡ₚ l' -> go_sorted l' ->
  (forall x y, x ∈ l -> y ∈ l -> less x y = false -> less y x = false -> x = y) ->
  sort_Slice l = l'.
Proof.
  intros Hp Hs Htot. apply sorted_perm_unique; [|apply sort_Slice_sorted|done|].
  - by rewrite sort_Slice_perm.
  - intros x y. rewrite !elem_of_sort_Slice. apply Htot.
Qed.

End sort.
