(* ===== verification/Interfaces.v ===== *)
(** * Interfaces: what the orchestrator's loops call

    The methods of [cosmos.Network] (QueryClient, BroadcastClient and the
    tendermint client), of [ethereum.Network], of [PriceFeed], and the clock.
    The loops are programs over [OrchI]; [EthPeggy.v], [Broadcast.v] and [Query.v]
    implement the methods. *)
From S2P Require Import Prelude Effects GoFloat Types.

Inductive orch_cmd : Type :=
  (* cosmos/peggy QueryClient *)
  | PeggyParams
  | LastClaimEventByAddr (validatorAccountAddress : AccAddress)
  | GetValidatorAddress (addr : Address)
  | CurrentValset
  | ValsetAt (nonce : Z)
  | OldestUnsignedValsets (valAccountAddr : AccAddress)
  | LatestValsets
  | AllValsetConfirms (nonce : Z)
  | OldestUnsignedTransactionBatch (valAccountAddr : AccAddress)
  | LatestTransactionBatches
  | UnbatchedTokensWithFees
  | TransactionBatchSignatures (nonce : Z) (tokenContract : Address)
  (* cosmos/peggy BroadcastClient *)
  | UpdatePeggyOrchestratorAddresses (ethFrom : Address) (orchAddr : AccAddress)
  | SendValsetConfirm (ethFrom : Address) (peggyID : Hash) (valset : Valset)
  | SendBatchConfirm (ethFrom : Address) (peggyID : Hash) (batch : OutgoingTxBatch)
  | SendRequestBatch (denom : string)
  | SendToEth (destination : Address) (amount fee : Coin)
  | SendOldDepositClaim (ev : PeggySendToCosmosEvent)
  | SendDepositClaim (ev : PeggySendToInjectiveEvent)
  | SendWithdrawalClaim (ev : PeggyTransactionBatchExecutedEvent)
  | SendValsetClaim (ev : PeggyValsetUpdatedEvent)
  | SendERC20DeployedClaim (ev : PeggyERC20DeployedEvent)
  (* tendermint Client: the time of a block *)
  | GetBlock (height : Z)
  (* ethereum Network; the header's number *)
  | GetHeaderByNumber
  | GetPeggyID
  | GetSendToCosmosEvents (startBlock endBlock : Z)
  | GetSendToInjectiveEvents (startBlock endBlock : Z)
  | GetPeggyERC20DeployedEvents (startBlock endBlock : Z)
  | GetValsetUpdatedEvents (startBlock endBlock : Z)
  | GetTransactionBatchExecutedEvents (startBlock endBlock : Z)
  | GetValsetNonce
  | SendEthValsetUpdate (oldValset newValset : Valset) (confirms : list MsgValsetConfirm)
  | GetTxBatchNonce (erc20ContractAddress : Address)
  | SendTransactionBatch (currentValset : Valset) (batch : OutgoingTxBatch)
      (confirms : list MsgConfirmBatch)
  | TokenDecimals (tokenContract : Address)
  (* PriceFeed *)
  | QueryUSDPrice (address : Address)
  (* time *)
  | TimeNow
  | TimeSleep (d : Z)
  (* the select of [loops.RunLoop]: true when the timer fires, false when the
     context is done; and the timer *)
  | SelectTimer
  | TimerReset (d : Z).

Definition orch_reply (c : orch_cmd) : Type :=
  match c with
  | PeggyParams => option Params * error
  | LastClaimEventByAddr _ => option LastClaimEvent * error
  | GetValidatorAddress _ => option AccAddress * error
  | CurrentValset | ValsetAt _ => option Valset * error
  | OldestUnsignedValsets _ | LatestValsets => list Valset * error
  | AllValsetConfirms _ => list MsgValsetConfirm * error
  | OldestUnsignedTransactionBatch _ => option OutgoingTxBatch * error
  | LatestTransactionBatches => list OutgoingTxBatch * error
  | UnbatchedTokensWithFees => list BatchFees * error
  | TransactionBatchSignatures _ _ => list MsgConfirmBatch * error
  | UpdatePeggyOrchestratorAddresses _ _ | SendValsetConfirm _ _ _ | SendBatchConfirm _ _ _
  | SendRequestBatch _ | SendToEth _ _ _ | SendOldDepositClaim _ | SendDepositClaim _
  | SendWithdrawalClaim _ | SendValsetClaim _ | SendERC20DeployedClaim _ => error
  | GetBlock _ => option Z * error
  | GetHeaderByNumber => option Z * error
  | GetPeggyID => Hash * error
  | GetSendToCosmosEvents _ _ => list PeggySendToCosmosEvent * error
  | GetSendToInjectiveEvents _ _ => list PeggySendToInjectiveEvent * error
  | GetPeggyERC20DeployedEvents _ _ => list PeggyERC20DeployedEvent * error
  | GetValsetUpdatedEvents _ _ => list PeggyValsetUpdatedEvent * error
  | GetTransactionBatchExecutedEvents _ _ => list PeggyTransactionBatchExecutedEvent * error
  | GetValsetNonce | GetTxBatchNonce _ => option Z * error
  | SendEthValsetUpdate _ _ _ | SendTransactionBatch _ _ _ => option Hash * error
  | TokenDecimals _ => Z * error
  | QueryUSDPrice _ => gofloat * error
  | TimeNow => Z
  | TimeSleep _ => unit
  | SelectTimer => bool
  | TimerReset _ => unit
  end.

Definition OrchI : Iface := MkIface orch_cmd orch_reply.
Definition ocall (c : orch_cmd) : prog OrchI (orch_reply c) := @call OrchI c.
Abbreviation OEv := (@Ev OrchI).

(** Some reply to each command, to complete the concrete environments of the
    examples. *)
Definition inhabitant (c : orch_cmd) : orch_reply c :=
  match c return orch_reply c with
  | PeggyParams => (None, None)
  | LastClaimEventByAddr _ => (None, None)
  | GetValidatorAddress _ => (None, None)
  | CurrentValset | ValsetAt _ => (None, None)
  | OldestUnsignedValsets _ | LatestValsets => ([], None)
  | AllValsetConfirms _ => ([], None)
  | OldestUnsignedTransactionBatch _ => (None, None)
  | LatestTransactionBatches => ([], None)
  | UnbatchedTokensWithFees => ([], None)
  | TransactionBatchSignatures _ _ => ([], None)
  | UpdatePeggyOrchestratorAddresses _ _ | SendValsetConfirm _ _ _ | SendBatchConfirm _ _ _
  | SendRequestBatch _ | SendToEth _ _ _ | SendOldDepositClaim _ | SendDepositClaim _
  | SendWithdrawalClaim _ | SendValsetClaim _ | SendERC20DeployedClaim _ => None
  | GetBlock _ => (None, None)
  | GetHeaderByNumber => (None, None)
  | GetPeggyID => (0, None)
  | GetSendToCosmosEvents _ _ => ([], None)
  | GetSendToInjectiveEvents _ _ => ([], None)
  | GetPeggyERC20DeployedEvents _ _ => ([], None)
  | GetValsetUpdatedEvents _ _ => ([], None)
  | GetTransactionBatchExecutedEvents _ _ => ([], None)
  | GetValsetNonce | GetTxBatchNonce _ => (None, None)
  | SendEthValsetUpdate _ _ _ | SendTransactionBatch _ _ _ => (None, None)
  | TokenDecimals _ => (0, None)
  | QueryUSDPrice _ => (FFin 0 0, None)
  | TimeNow => 0
  | TimeSleep _ => tt
  | SelectTimer => false
  | TimerReset _ => tt
  end.

(** [time.Duration] in nanoseconds. *)
Definition Second : Z := 1000000000.
Definition Millisecond : Z := 1000000.
Definition Minute : Z := 60 * Second.

Definition defaultLoopDur : Z := 60 * Second.

(** [Config] *)
Record Config : Type := MkConfig {
  CosmosAddr : AccAddress;
  EthereumAddr : Address;
  MinBatchFeeUSD : gofloat;
  ERC20ContractMapping : gmap Z string;
  RelayValsetOffsetDur : Z;
  RelayBatchOffsetDur : Z;
  RelayValsets : bool;
  RelayBatches : bool;
  RelayerMode : bool
}.

(** [Orchestrator]: its services are the commands of [OrchI]. *)
Record Orchestrator : Type := MkOrchestrator { cfg : Config; maxAttempts : nat }.

(** [NewOrchestrator] *)
Definition NewOrchestrator (cfg : Config) : Orchestrator * error := (MkOrchestrator cfg 10, None).

(** [retry] *)
Definition retry `{!RetryLib OrchI} {St} (s : Orchestrator) (fn : St -> prog OrchI (St * error))
    (st : St) : prog OrchI (St * error) :=
  retry_Do (maxAttempts s) fn st.

(** Step through a program, splitting on what it matches. *)
Ltac issues_step :=
  match goal with
  | |- issues _ (Ret _) => apply issues_ret
  | |- issues _ (mret _) => apply issues_ret
  | |- issues _ (Panic _) => apply issues_panic
  | |- issues _ (Call _ _) => apply issues_Call; [|intros ?]
  | |- issues _ (call _) => apply issues_Call; [|intros ?]
  | |- issues _ (ocall _) => apply issues_Call; [|intros ?]
  | |- issues _ (deref _) => apply issues_deref
  | |- issues _ (_ ≫= _) => apply issues_bind; [|intros ?]
  | |- issues _ (prog_bind _ _) => apply issues_bind; [|intros ?]
  | |- issues _ (let '(_, _) := ?x in _) => destruct x
  | |- issues _ (match ?x with _ => _ end) => destruct x
  | |- issues _ (if ?x then _ else _) => destruct x
  end.
Ltac issues_end :=
  lazymatch goal with
  | IH : forall _, issues _ _ |- issues _ _ => apply IH
  | IH : issues _ _ |- issues _ _ => exact IH
  | |- issues _ _ => idtac
  | |- _ => try done
  end.
Ltac solve_issues := repeat issues_step; issues_end.
