(* ===== verification/Oracle.v ===== *)
(** * Oracle: Ethereum events are claimed on Injective (orchestrator/oracle.go)

    [observeEthEvents] is the body of the oracle's loop; its state between
    iterations is [lastObservedEthHeight].  ([lastResyncWithInjective] is never
    read.)  The closures passed to [retry] take and return the variables they
    assign. *)
From S2P Require Import Prelude Effects GoFloat Types External GoSort Interfaces.

Definition ethBlockConfirmationDelay : Z := 12.
Definition defaultBlocksToSearch : Z := 2000.

(** [event] and its five implementations *)
Inductive event : Type :=
  | oldDeposit (e : PeggySendToCosmosEvent)
  | deposit (e : PeggySendToInjectiveEvent)
  | valsetUpdate (e : PeggyValsetUpdatedEvent)
  | withdrawal (e : PeggyTransactionBatchExecutedEvent)
  | erc20Deployment (e : PeggyERC20DeployedEvent).

Definition Nonce (ev : event) : Z :=
  match ev with
  | oldDeposit e => big_Uint64 (stc_EventNonce e)
  | deposit e => big_Uint64 (sti_EventNonce e)
  | valsetUpdate e => big_Uint64 (vue_EventNonce e)
  | withdrawal e => big_Uint64 (tbe_EventNonce e)
  | erc20Deployment e => big_Uint64 (erc_EventNonce e)
  end.

(** [filterEvents] *)
Fixpoint filterEvents (events : list event) (nonce : Z) : list event :=
  match events with
  | [] => []
  | e :: events' =>
      if nonce <? Nonce e then e :: filterEvents events' nonce else filterEvents events' nonce
  end.

Definition nonce_less (x y : event) : bool := Nonce x <? Nonce y.

Section oracle.
Context {GE : Geth} {RL : RetryLib OrchI}.

(** [scanEthEventsFn]: the captured variable [events] is assigned. *)
Definition scanEthEventsFn (startBlock endBlock : Z) (_ : list event)
  : prog OrchI (list event * error) :=
  '(oldDepositEvents, err) ← ocall (GetSendToCosmosEvents startBlock endBlock);
  match err with Some _ => mret ([], err) | None =>
  '(depositEvents, err) ← ocall (GetSendToInjectiveEvents startBlock endBlock);
  match err with Some _ => mret ([], err) | None =>
  '(withdrawalEvents, err) ← ocall (GetTransactionBatchExecutedEvents startBlock endBlock);
  match err with Some _ => mret ([], err) | None =>
  '(erc20DeploymentEvents, err) ← ocall (GetPeggyERC20DeployedEvents startBlock endBlock);
  match err with Some _ => mret ([], err) | None =>
  '(valsetUpdateEvents, err) ← ocall (GetValsetUpdatedEvents startBlock endBlock);
  match err with Some _ => mret ([], err) | None =>
  mret (map oldDeposit oldDepositEvents ++ map deposit depositEvents ++
        map withdrawal withdrawalEvents ++ map valsetUpdate valsetUpdateEvents ++
        map erc20Deployment erc20DeploymentEvents, None)
  end end end end end.

(** [getEthEvents] *)
Definition getEthEvents (l : Orchestrator) (startBlock endBlock : Z)
  : prog OrchI (list event * error) :=
  '(events, err) ← retry l (scanEthEventsFn startBlock endBlock) [];
  match err with
  | Some _ => mret ([], err)
  | None => mret (events, None)
  end.

(** [getLatestEthHeight] *)
Definition getLatestEthHeight (l : Orchestrator) : prog OrchI (Z * error) :=
  '(latestHeight, err) ← retry l (fun latestHeight =>
    '(h, err) ← ocall GetHeaderByNumber;
    match err with
    | Some _ => mret (latestHeight, Wrap err "failed to get latest ethereum header")
    | None => h ← deref h; mret (big_Uint64 h, None)
    end) 0;
  match err with
  | Some _ => mret (0, err)
  | None => mret (latestHeight, None)
  end.

(** [getLastClaimEvent] *)
Definition getLastClaimEvent (l : Orchestrator) : prog OrchI (option LastClaimEvent * error) :=
  '(claim, err) ← retry l (fun _ => ocall (LastClaimEventByAddr (CosmosAddr (cfg l)))) None;
  match err with
  | Some _ => mret (None, err)
  | None => mret (claim, None)
  end.

(** [sendEthEventClaim] *)
Definition sendEthEventClaim (ev : event) : prog OrchI error :=
  match ev with
  | oldDeposit e => ocall (SendOldDepositClaim e)
  | deposit e => ocall (SendDepositClaim e)
  | valsetUpdate e => ocall (SendValsetClaim e)
  | withdrawal e => ocall (SendWithdrawalClaim e)
  | erc20Deployment e => ocall (SendERC20DeployedClaim e)
  end.

(** The loop of [sendEventsFn] over the events that are still new. *)
Definition sendClaims (events : list event) : prog OrchI error :=
  res ← prog_for events tt (fun event _ =>
    err ← sendEthEventClaim event;
    match err with
    | Some e => mret (inr e)
    | None => _ ← ocall (TimeSleep (1100 * Millisecond)); mret (inl tt)
    end);
  mret (match res with inl _ => None | inr e => Some e end).

(** [sendNewEventClaims] *)
Definition sendEventsFn (l : Orchestrator) (events : list event) (_ : unit)
  : prog OrchI (unit * error) :=
  '(lastClaim, err) ← ocall (LastClaimEventByAddr (CosmosAddr (cfg l)));
  match err with
  | Some _ => mret (tt, err)
  | None =>
      lastClaim ← deref lastClaim;
      let newEvents := filterEvents events (EthereumEventNonce lastClaim) in
      match newEvents with
      | [] => mret (tt, None)
      | _ => err ← sendClaims newEvents; mret (tt, err)
      end
  end.

Definition sendNewEventClaims (l : Orchestrator) (events : list event) : prog OrchI error :=
  '(_, err) ← retry l (sendEventsFn l events) tt;
  mret err.

(** Whether the validator is in the active set. *)
Definition isBonded (l : Orchestrator) (vs : Valset) : bool :=
  foldl (fun bonded v => if String.eqb (Address_Hex (EthereumAddr (cfg l))) (EthereumAddress v)
                         then true else bonded) false (vs_Members vs).

(** [observeEthEvents]: returns the new [lastObservedEthHeight] and the error. *)
Definition observeEthEvents (l : Orchestrator) (lastObservedEthHeight : Z)
  : prog OrchI (Z * error) :=
  '(vs, err) ← ocall CurrentValset;
  match err with
  | Some _ => mret (lastObservedEthHeight, err)
  | None =>
      vs ← deref vs;
      if negb (isBonded l vs) then mret (lastObservedEthHeight, None)
      else
        '(latestHeight, err) ← getLatestEthHeight l;
        match err with
        | Some _ => mret (lastObservedEthHeight, err)
        | None =>
            if latestHeight <=? ethBlockConfirmationDelay
            then mret (lastObservedEthHeight, None)
            else
              let latestHeight := u64 (latestHeight - ethBlockConfirmationDelay) in
              if latestHeight <=? lastObservedEthHeight
              then mret (lastObservedEthHeight, None)
              else
                let latestHeight :=
                  if u64 (lastObservedEthHeight + defaultBlocksToSearch) <? latestHeight
                  then u64 (lastObservedEthHeight + defaultBlocksToSearch) else latestHeight in
                '(events, err) ← getEthEvents l lastObservedEthHeight latestHeight;
                match err with
                | Some _ => mret (lastObservedEthHeight, err)
                | None =>
                    '(lastClaim, err) ← getLastClaimEvent l;
                    match err with
                    | Some _ => mret (lastObservedEthHeight, err)
                    | None =>
                        lastClaim ← deref lastClaim;
                        let newEvents :=
                          sort_Slice nonce_less
                            (filterEvents events (EthereumEventNonce lastClaim)) in
                        match newEvents with
                        | [] => mret (latestHeight, None)
                        | first :: _ =>
                            if negb (u64 (EthereumEventNonce lastClaim + 1) =? Nonce first)
                            then mret (EthereumEventHeight lastClaim, None)
                            else
                              err ← sendNewEventClaims l newEvents;
                              match err with
                              | Some _ => mret (lastObservedEthHeight, err)
                              | None => mret (latestHeight, None)
                              end
                        end
                    end
                end
        end
  end.

End oracle.
