(* ===== verification/OracleFacts.v ===== *)
(** * OracleFacts: what the oracle claims and when it moves on *)
From S2P Require Import Prelude Effects GoFloat Types External Model GoSort Interfaces Oracle.

(** ** Observations on traces *)

(** The claims of a trace with their results. *)
Definition claim_of (ev : Effects.event OrchI) : option (event * error) :=
  match ev with
  | existT (SendOldDepositClaim e) r => Some (oldDeposit e, r)
  | existT (SendDepositClaim e) r => Some (deposit e, r)
  | existT (SendValsetClaim e) r => Some (valsetUpdate e, r)
  | existT (SendWithdrawalClaim e) r => Some (withdrawal e, r)
  | existT (SendERC20DeployedClaim e) r => Some (erc20Deployment e, r)
  | _ => None
  end.

Definition claims (tr : list (Effects.event OrchI)) : list (event * error) := omap claim_of tr.

(** The block ranges that a trace asks events for. *)
Definition range_of (ev : Effects.event OrchI) : option (Z * Z) :=
  match ev with
  | existT (GetSendToCosmosEvents s e) _ | existT (GetSendToInjectiveEvents s e) _
  | existT (GetPeggyERC20DeployedEvents s e) _ | existT (GetValsetUpdatedEvents s e) _
  | existT (GetTransactionBatchExecutedEvents s e) _ => Some (s, e)
  | _ => None
  end.

Definition ranges (tr : list (Effects.event OrchI)) : list (Z * Z) := omap range_of tr.

(** The answers to [LastClaimEventByAddr]. *)
Definition lastClaim_of (ev : Effects.event OrchI) : option LastClaimEvent :=
  match ev with
  | existT (LastClaimEventByAddr _) r => if r.2 is None then r.1 else None
  | _ => None
  end.

Definition lastClaims (tr : list (Effects.event OrchI)) : list LastClaimEvent := omap lastClaim_of tr.

(** The block of an event. *)
Definition event_block (e : event) : Z :=
  match e with
  | oldDeposit e => stc_BlockNumber e
  | deposit e => sti_BlockNumber e
  | valsetUpdate e => vue_BlockNumber e
  | withdrawal e => tbe_BlockNumber e
  | erc20Deployment e => erc_BlockNumber e
  end.

(** The node answers the filters completely: an answer without error contains
    every event of the contract's log in the block range asked for. *)
Definition complete_reply (log : list event) (ev : Effects.event OrchI) : Prop :=
  match ev with
  | existT (GetSendToCosmosEvents s e) r =>
      r.2 = None -> forall x, oldDeposit x ∈ log -> s <= stc_BlockNumber x <= e -> x ∈ r.1
  | existT (GetSendToInjectiveEvents s e) r =>
      r.2 = None -> forall x, deposit x ∈ log -> s <= sti_BlockNumber x <= e -> x ∈ r.1
  | existT (GetValsetUpdatedEvents s e) r =>
      r.2 = None -> forall x, valsetUpdate x ∈ log -> s <= vue_BlockNumber x <= e -> x ∈ r.1
  | existT (GetTransactionBatchExecutedEvents s e) r =>
      r.2 = None -> forall x, withdrawal x ∈ log -> s <= tbe_BlockNumber x <= e -> x ∈ r.1
  | existT (GetPeggyERC20DeployedEvents s e) r =>
      r.2 = None -> forall x, erc20Deployment x ∈ log -> s <= erc_BlockNumber x <= e -> x ∈ r.1
  | _ => True
  end.

(** An event is dealt with: claimed without error, or already behind the
    validator's last claim. *)
Definition covered (tr : list (Effects.event OrchI)) (e : event) : Prop :=
  (e, None) ∈ claims tr \/ exists c, c ∈ lastClaims tr /\ Nonce e <= EthereumEventNonce c.

(** Every claim is newer than the last claim queried before it. *)
Definition fresh (tr : list (Effects.event OrchI)) : Prop :=
  forall tr1 ev tr2 e r, tr = tr1 ++ ev :: tr2 -> claim_of ev = Some (e, r) ->
    exists c, last (lastClaims tr1) = Some c /\ EthereumEventNonce c < Nonce e.

Lemma claims_app tr tr' : claims (tr ++ tr') = claims tr ++ claims tr'.
Proof. apply omap_app. Qed.
Lemma ranges_app tr tr' : ranges (tr ++ tr') = ranges tr ++ ranges tr'.
Proof. apply omap_app. Qed.
Lemma lastClaims_app tr tr' : lastClaims (tr ++ tr') = lastClaims tr ++ lastClaims tr'.
Proof. apply omap_app. Qed.

Lemma covered_app_r tr tr' e : covered tr' e -> covered (tr ++ tr') e.
Proof.
  unfold covered. rewrite claims_app, lastClaims_app.
  intros [H|(c & H & Hle)]; [left|right; exists c]; rewrite elem_of_app; auto.
Qed.

Lemma covered_app_l tr tr' e : covered tr e -> covered (tr ++ tr') e.
Proof.
  unfold covered. rewrite claims_app, lastClaims_app.
  intros [H|(c & H & Hle)]; [left|right; exists c]; rewrite elem_of_app; auto.
Qed.

Lemma fresh_quiet tr : claims tr = [] -> fresh tr.
Proof.
  intros H tr1 ev tr2 e r -> Hev. rewrite claims_app in H. apply app_eq_nil in H as [_ H].
  unfold claims in H. cbn in H. by rewrite Hev in H.
Qed.

Lemma fresh_app tr tr' : fresh tr -> fresh tr' -> fresh (tr ++ tr').
Proof.
  intros H H' tr1 ev tr2 e r Heq Hev.
  apply app_eq_inv in Heq as [(k & -> & Heq)|(k & -> & ->)].
  - destruct k as [|ev' k]; simpl in Heq.
    + destruct (H' [] ev tr2 e r) as (c & Hc & _); [done|done|done].
    + injection Heq as <- ->. by apply (H tr1 ev k e r).
  - destruct (H' k ev tr2 e r) as (c & Hc & Hlt); [done|done|].
    exists c. rewrite lastClaims_app, last_app, Hc. done.
Qed.

(** ** [filterEvents] *)
Lemma elem_of_filterEvents e events n : e ∈ filterEvents events n <-> e ∈ events /\ n < Nonce e.
Proof.
  induction events as [|x events IH]; simpl; [set_solver|].
  destruct (Z.ltb_spec n (Nonce x)); rewrite ?elem_of_cons, IH.
  - split; [intros [->|[? ?]]; auto|intros [[->|?] ?]; auto].
  - split; [intros [? ?]; auto|intros [[->|?] ?]; [lia|auto]].
Qed.

Lemma nonce_weak_order : weak_order nonce_less.
Proof. split; unfold nonce_less; intros; rewrite ?Z.ltb_lt, ?Z.ltb_ge, ?Z.ltb_irrefl in *; try lia; done. Qed.

Section facts.
Context {GE : Geth} {RL : RetryLib OrchI}.

(** A program that neither claims nor filters. *)
Definition silent {A} (p : prog OrchI A) : Prop := wp p (fun tr _ => claims tr = [] /\ ranges tr = []).

(** ** The parts of [observeEthEvents] *)

Lemma wp_getLatestEthHeight l :
  wp (getLatestEthHeight l) (fun tr o =>
    (claims tr = [] /\ ranges tr = []) /\
    forall h, o = Done (h, None) ->
      exists n, OEv GetHeaderByNumber (Some n, None) ∈ tr /\ h = big_Uint64 n).
Proof.
  unfold getLatestEthHeight, retry. apply wp_bind.
  eapply (wp_retry _ _ _ (fun tr _ => claims tr = [] /\ ranges tr = [])); [done|..].
  - intros tr s e H. cbn. rewrite app_nil_r. split; [done|]. by intros h [=].
  - intros tr s [Hc Hr]. intros [[n|] [er|]]; cbn; rewrite ?claims_app, ?ranges_app, ?Hc, ?Hr,
      ?app_nil_r, ?claims_app, ?ranges_app, ?Hc, ?Hr; try done.
    split; [done|]. intros h [= <-]. exists n. split; [|done]. apply elem_of_app. right. left.
Qed.

Lemma wp_getLastClaimEvent l :
  wp (getLastClaimEvent l) (fun tr o =>
    (claims tr = [] /\ ranges tr = []) /\
    forall c, o = Done (Some c, None) -> c ∈ lastClaims tr).
Proof.
  unfold getLastClaimEvent, retry. apply wp_bind.
  eapply (wp_retry _ _ _ (fun tr _ => claims tr = [] /\ ranges tr = [])); [done|..].
  - intros tr s e H. cbn. rewrite app_nil_r. split; [done|]. by intros h [=].
  - intros tr s [Hc Hr]. intros [c [er|]]; cbn; rewrite ?app_nil_r, ?claims_app, ?ranges_app, ?Hc, ?Hr;
      (split; [done|]); try done.
    intros c' [= ->]. rewrite lastClaims_app. apply elem_of_app. right. cbn. left.
Qed.


Lemma wp_getEthEvents l s e :
  wp (getEthEvents l s e) (fun tr o =>
    (claims tr = [] /\ Forall (fun q => q = (s, e)) (ranges tr)) /\
    forall evs, o = Done (evs, None) ->
      exists a b c d v,
        evs = map oldDeposit a ++ map deposit b ++ map withdrawal c ++ map valsetUpdate d ++
              map erc20Deployment v /\
        OEv (GetSendToCosmosEvents s e) (a, None) ∈ tr /\
        OEv (GetSendToInjectiveEvents s e) (b, None) ∈ tr /\
        OEv (GetTransactionBatchExecutedEvents s e) (c, None) ∈ tr /\
        OEv (GetValsetUpdatedEvents s e) (d, None) ∈ tr /\
        OEv (GetPeggyERC20DeployedEvents s e) (v, None) ∈ tr).
Proof.
  unfold getEthEvents, retry. apply wp_bind.
  eapply (wp_retry _ _ _ (fun tr _ => claims tr = [] /\ Forall (fun q => q = (s, e)) (ranges tr)));
    [by split|..].
  - intros tr evs er H. cbn. rewrite app_nil_r. split; [done|]. by intros h [=].
  - intros tr evs [Hc Hr]. unfold scanEthEventsFn.
    intros [a [er|]]; cbn; [|intros [b [er|]]; cbn; [|intros [c [er|]]; cbn; [|
      intros [v [er|]]; cbn; [|intros [d [er|]]; cbn]]]];
      rewrite ?app_nil_r, claims_app, ranges_app, Hc, Forall_app; cbn;
      first [split; [split; [done|split; [done|by repeat constructor]]|]
            |split; [done|split; [done|by repeat constructor]]].
    intros evs' [= <-]. exists a, b, c, d, v. split; [done|]. set_solver.
Qed.

(** With complete answers, the scan returns every event of the range. *)
Lemma scan_complete log tr s e a b c d v :
  Forall (complete_reply log) tr ->
  OEv (GetSendToCosmosEvents s e) (a, None) ∈ tr ->
  OEv (GetSendToInjectiveEvents s e) (b, None) ∈ tr ->
  OEv (GetTransactionBatchExecutedEvents s e) (c, None) ∈ tr ->
  OEv (GetValsetUpdatedEvents s e) (d, None) ∈ tr ->
  OEv (GetPeggyERC20DeployedEvents s e) (v, None) ∈ tr ->
  forall x, x ∈ log -> s <= event_block x <= e ->
  x ∈ map oldDeposit a ++ map deposit b ++ map withdrawal c ++ map valsetUpdate d ++
      map erc20Deployment v.
Proof.
  rewrite Forall_forall. intros Hall Ha Hb Hc Hd Hv x Hx Hblock.
  rewrite !elem_of_app, !list_elem_of_fmap.
  destruct x as [x|x|x|x|x]; simpl in Hblock.
  - left. exists x. split; [done|]. by apply (Hall _ Ha).
  - right; left. exists x. split; [done|]. by apply (Hall _ Hb).
  - do 3 right; left. exists x. split; [done|]. by apply (Hall _ Hd).
  - do 2 right; left. exists x. split; [done|]. by apply (Hall _ Hc).
  - do 4 right. exists x. split; [done|]. by apply (Hall _ Hv).
Qed.

(** ** Sending the claims *)

Lemma wp_sendEthEventClaim ev Q :
  (forall r x, claim_of x = Some (ev, r) -> range_of x = None -> lastClaim_of x = None ->
     Q [x] (Done r)) ->
  wp (sendEthEventClaim ev) Q.
Proof. intros H. destruct ev; intros r; by apply H. Qed.

Lemma wp_sendClaims events :
  wp (sendClaims events) (fun tr o =>
    (lastClaims tr = [] /\ ranges tr = []) /\
    (forall e r, (e, r) ∈ claims tr -> e ∈ events) /\
    (o = Done None -> forall e, e ∈ events -> (e, None) ∈ claims tr)).
Proof.
  unfold sendClaims. apply wp_bind.
  apply (wp_for _ _ _ (fun done tr _ =>
    (lastClaims tr = [] /\ ranges tr = []) /\
    (forall e r, (e, r) ∈ claims tr -> e ∈ events) /\
    (forall e, e ∈ done -> (e, None) ∈ claims tr))).
  - split; [done|]. split; [by intros ? ? ?%elem_of_nil|by intros ? ?%elem_of_nil].
  - intros dn x rest tr _ Heq ([Hl Hr] & Hin & Hd). apply wp_bind, wp_sendEthEventClaim.
    intros r ev Hev Hrg Hlc.
    assert (forall e' r', (e', r') ∈ claims (tr ++ [ev]) -> e' ∈ events) as Hin'.
    { intros e' r'. rewrite claims_app, elem_of_app. intros [H|H]; [by eapply Hin|].
      unfold claims in H. cbn in H. rewrite Hev in H. apply list_elem_of_singleton in H as [= -> ->].
      rewrite Heq. set_solver. }
    assert (lastClaims (tr ++ [ev]) = [] /\ ranges (tr ++ [ev]) = []) as Hq.
    { rewrite lastClaims_app, ranges_app, Hl, Hr. unfold lastClaims, ranges. cbn.
      by rewrite Hlc, Hrg. }
    destruct r as [er|]; cbn.
    + rewrite !app_nil_r. done.
    + intros []. rewrite (cons_middle ev tr), (app_assoc tr), claims_app, lastClaims_app, ranges_app.
      destruct Hq as [-> ->]. cbn. rewrite !app_nil_r. split; [done|]. split; [done|].
      intros e'. rewrite claims_app. intros [H|H]%elem_of_app; apply elem_of_app;
        [left; auto|right]. apply list_elem_of_singleton in H as ->.
      unfold claims. cbn. rewrite Hev. left.
  - intros tr _ (Hq & Hin & Hd). cbn. rewrite !app_nil_r. split; [done|]. split; [done|].
    intros _. exact Hd.
Qed.

Lemma fresh_claims c l tr1 tr2 :
  lastClaims tr2 = [] ->
  (forall e r, (e, r) ∈ claims tr2 -> EthereumEventNonce c < Nonce e) ->
  fresh tr1 ->
  fresh (tr1 ++ OEv (LastClaimEventByAddr l) (Some c, None) :: tr2).
Proof.
  intros Hl Hin H1. intros t1 ev t2 e r Heq Hev.
  apply app_eq_inv in Heq as [(k & -> & Heq)|(k & -> & Heq)].
  - destruct k as [|x k]; simpl in Heq.
    + by apply cons_inv in Heq as [-> _].
    + apply cons_inv in Heq as [<- ->]. by apply (H1 t1 ev k e r).
  - destruct k as [|x k]; simpl in Heq; [by apply cons_inv in Heq as [<- _]|].
    apply cons_inv in Heq as [<- ->]. exists c.
    rewrite lastClaims_app in Hl. apply app_eq_nil in Hl as [Hl _].
    rewrite lastClaims_app. cbn. fold (lastClaims k). rewrite Hl, last_snoc. split; [done|].
    apply (Hin e r). rewrite claims_app, elem_of_app. right. unfold claims. cbn. rewrite Hev. left.
Qed.

(** An attempt after [tr]: the last claim is [c], and [tr2] claims events that are newer. *)
Lemma claims_attempt l events c tr tr2 :
  ranges tr = [] -> fresh tr -> (forall e r, (e, r) ∈ claims tr -> e ∈ events) ->
  lastClaims tr2 = [] -> ranges tr2 = [] ->
  (forall e r, (e, r) ∈ claims tr2 -> e ∈ filterEvents events (EthereumEventNonce c)) ->
  let tr' := tr ++ OEv (LastClaimEventByAddr l) (Some c, None) :: tr2 in
  ranges tr' = [] /\ fresh tr' /\ (forall e r, (e, r) ∈ claims tr' -> e ∈ events) /\
  ((forall e, e ∈ filterEvents events (EthereumEventNonce c) -> (e, None) ∈ claims tr2) ->
   forall e, e ∈ events -> covered tr' e).
Proof.
  intros Hr Hf Hin Hl2 Hr2 Hin2 tr'. unfold tr'. split; [by rewrite ranges_app, Hr|]. split; [|split].
  - apply fresh_claims; [done| |done]. by intros e r [_ Hlt]%Hin2%elem_of_filterEvents.
  - intros e r. rewrite claims_app, elem_of_app. intros [H|H]; [by eapply Hin|].
    apply Hin2, elem_of_filterEvents in H. tauto.
  - intros Hd e He. destruct (Z.le_gt_cases (Nonce e) (EthereumEventNonce c)) as [|Hgt].
    + right. exists c. split; [|done]. rewrite lastClaims_app, elem_of_app. right. left.
    + left. rewrite claims_app, elem_of_app. right. by apply Hd, elem_of_filterEvents.
Qed.

Lemma wp_sendNewEventClaims l events :
  wp (sendNewEventClaims l events) (fun tr o =>
    ranges tr = [] /\ fresh tr /\ (forall e r, (e, r) ∈ claims tr -> e ∈ events) /\
    (o = Done None -> forall e, e ∈ events -> covered tr e)).
Proof.
  unfold sendNewEventClaims, retry. apply wp_bind.
  eapply (wp_retry _ _ _ (fun tr _ =>
    ranges tr = [] /\ fresh tr /\ (forall e r, (e, r) ∈ claims tr -> e ∈ events))).
  - split; [done|]. split; [by apply fresh_quiet|by intros ? ? ?%elem_of_nil].
  - intros tr [] e (Hr & Hf & Hin). cbn. rewrite app_nil_r. repeat split; try done.
  - intros tr [] (Hr & Hf & Hin).
    intros [[c|] [er|]]; cbn;
      try (rewrite claims_app, ranges_app, Hr; cbn; rewrite app_nil_r; split; [done|]; split;
           [apply fresh_app; [done|by apply fresh_quiet]|done]).
    pose proof (fun tr2 => claims_attempt (CosmosAddr (cfg l)) events c tr tr2 Hr Hf Hin) as Hatt.
    destruct (filterEvents events (EthereumEventNonce c)) as [|e0 es] eqn:E; cbn.
    + rewrite app_nil_r.
      destruct (Hatt [] eq_refl eq_refl) as (? & ? & ? & Hd); [by intros ? ? ?%elem_of_nil|].
      split; [done|]. split; [done|]. split; [done|]. intros _. apply Hd. by intros ? ?%elem_of_nil.
    + apply wp_bind. eapply wp_mono; [apply (wp_sendClaims (e0 :: es))|].
      intros tr2 o ([Hl2 Hr2] & Hin2 & Hd).
      destruct (Hatt tr2 Hl2 Hr2 Hin2) as (? & ? & ? & Hcov).
      destruct o as [[er|]|m]; cbn; rewrite ?app_nil_r; [done| |done].
      split; [done|]. split; [done|]. split; [done|]. intros _. by apply Hcov, Hd.
Qed.


(** ** The whole iteration *)

(** A block range: from the last observed height, over at least one and at most
    2000 new blocks, all of them at least 12 blocks behind a head the node reported. *)
Definition range_ok (h : Z) (tr : list (Effects.event OrchI)) (q : Z * Z) : Prop :=
  q.1 = h /\ h < q.2 <= h + defaultBlocksToSearch /\
  exists n, OEv GetHeaderByNumber (Some n, None) ∈ tr /\
    q.2 <= big_Uint64 n - ethBlockConfirmationDelay.

(** How an iteration moves the last observed height. *)
Definition moves (h : Z) (tr : list (Effects.event OrchI)) (h' : Z) (e : error) : Prop :=
  h' = h \/
  (e = None /\ claims tr = [] /\ exists c, c ∈ lastClaims tr /\ h' = EthereumEventHeight c) \/
  (e = None /\ (h, h') ∈ ranges tr /\
   forall log, Forall (complete_reply log) tr ->
     forall x, x ∈ log -> h <= event_block x <= h' -> covered tr x).

Definition observe_post (h : Z) (tr : list (Effects.event OrchI)) (o : outcome (Z * error)) : Prop :=
  Forall (range_ok h tr) (ranges tr) /\ fresh tr /\
  forall h' e, o = Done (h', e) -> moves h tr h' e.

(** The search range computed from a header. *)
Definition search_end (h head : Z) : Z :=
  let latest := u64 (head - ethBlockConfirmationDelay) in
  if u64 (h + defaultBlocksToSearch) <? latest then u64 (h + defaultBlocksToSearch) else latest.

Lemma search_end_ok h head :
  0 <= h < 2 ^ 64 - 2000 -> is_u64 head -> ethBlockConfirmationDelay < head ->
  h < u64 (head - ethBlockConfirmationDelay) ->
  h < search_end h head <= h + defaultBlocksToSearch /\
  search_end h head <= head - ethBlockConfirmationDelay.
Proof.
  unfold search_end, ethBlockConfirmationDelay, defaultBlocksToSearch, is_u64.
  intros Hh Hhead Hlt. rewrite (u64_small (head - 12)), (u64_small (h + 2000))
    by (unfold is_u64; lia).
  destruct (Z.ltb_spec (h + 2000) (head - 12)); lia.
Qed.

Lemma silent_post h tr o :
  claims tr = [] -> ranges tr = [] ->
  (forall h' e, o = Done (h', e) -> h' = h) -> observe_post h tr o.
Proof.
  intros Hc Hr Ho. split; [rewrite Hr; constructor|]. split; [by apply fresh_quiet|].
  intros h' e ->. left. by eapply Ho.
Qed.

Lemma elem_of_middle {A} (x y : A) l k : y ∈ l -> y ∈ x :: l ++ k.
Proof. set_solver. Qed.

(** The part of an iteration after the events and the last claim are known. *)
Definition claim_new (l : Orchestrator) (h hi : Z) (events : list event) (lastClaim : LastClaimEvent)
  : prog OrchI (Z * error) :=
  let newEvents := sort_Slice nonce_less (filterEvents events (EthereumEventNonce lastClaim)) in
  match newEvents with
  | [] => mret (hi, None)
  | first :: _ =>
      if negb (u64 (EthereumEventNonce lastClaim + 1) =? Nonce first)
      then mret (EthereumEventHeight lastClaim, None)
      else
        err ← sendNewEventClaims l newEvents;
        match err with
        | Some _ => mret (h, err)
        | None => mret (hi, None)
        end
  end.

(** Before it, nothing was claimed, the range was asked for, and once the new events are
    dealt with every event of the range is. *)
Lemma wp_claim_new l h hi events cl tr :
  claims tr = [] -> (h, hi) ∈ ranges tr -> cl ∈ lastClaims tr ->
  Forall (range_ok h tr) (ranges tr) ->
  (forall log tr3, Forall (complete_reply log) (tr ++ tr3) ->
     (forall e, e ∈ filterEvents events (EthereumEventNonce cl) -> covered tr3 e) ->
     forall x, x ∈ log -> h <= event_block x <= hi -> covered (tr ++ tr3) x) ->
  wp (claim_new l h hi events cl) (fun tr3 o => observe_post h (tr ++ tr3) o).
Proof.
  intros Hc Hin Hcl Hr Hcov. unfold claim_new.
  assert (Hranges : forall tr3, ranges tr3 = [] -> Forall (range_ok h (tr ++ tr3)) (ranges (tr ++ tr3))).
  { intros tr3 Hr3. rewrite ranges_app, Hr3, app_nil_r. eapply Forall_impl; [exact Hr|].
    intros q (? & ? & n & ? & ?). split; [done|]. split; [done|]. exists n. set_solver. }
  assert (Hf : fresh tr) by (by apply fresh_quiet).
  destruct (sort_Slice nonce_less _) as [|first rest] eqn:Es; cbn.
  { split; [by apply Hranges|]. rewrite app_nil_r. split; [done|].
    intros h' e [= <- <-]. right; right. split; [done|]. split; [done|].
    intros log Hall x Hx Hblk. specialize (Hcov log []). rewrite app_nil_r in Hcov.
    apply Hcov; [done| |done|done]. intros e He.
    apply (elem_of_sort_Slice nonce_less) in He. rewrite Es in He. by apply elem_of_nil in He. }
  destruct (negb _); cbn.
  { split; [by apply Hranges|]. rewrite app_nil_r. split; [done|].
    intros h' e [= <- <-]. right; left. split; [done|]. split; [done|]. by exists cl. }
  apply wp_bind. rewrite <- Es. eapply wp_mono; [apply wp_sendNewEventClaims|].
  intros tr3 o3 (Hr3 & Hf3 & _ & Hcov3).
  destruct o3 as [[er|]|m]; cbn; rewrite ?app_nil_r;
    (split; [by apply Hranges|]; split; [by apply fresh_app|]); [| |done].
  - intros h' e [= <- <-]. by left.
  - intros h' e [= <- <-]. right; right. split; [done|]. split; [rewrite ranges_app; set_solver|].
    intros log Hall x Hx Hblk. apply (Hcov log); [done| |done|done].
    intros e He. apply Hcov3; [done|]. by apply elem_of_sort_Slice.
Qed.

Lemma wp_scan_and_claim l h hi tr0 n :
  claims tr0 = [] -> ranges tr0 = [] ->
  h < hi <= h + defaultBlocksToSearch ->
  OEv GetHeaderByNumber (Some n, None) ∈ tr0 -> hi <= big_Uint64 n - ethBlockConfirmationDelay ->
  wp ('(events, err) ← getEthEvents l h hi;
      match err with
      | Some _ => mret (h, err)
      | None =>
          '(lastClaim, err) ← getLastClaimEvent l;
          match err with
          | Some _ => mret (h, err)
          | None => lastClaim ← deref lastClaim; claim_new l h hi events lastClaim
          end
      end) (fun tr o => observe_post h (tr0 ++ tr) o).
Proof.
  intros Hc0 Hr0 Hhi Hn Hhead. apply wp_bind.
  eapply wp_mono; [apply wp_getEthEvents|]. intros tr1 o1 [[Hc1 Hr1] Hev].
  assert (Hpost : forall tr2 o, claims tr2 = [] -> ranges tr2 = [] ->
    (forall h' e, o = Done (h', e) -> h' = h) -> observe_post h (tr0 ++ tr1 ++ tr2) o).
  { intros tr2 o Hc2 Hr2 Ho. split.
    - rewrite !ranges_app, Hr0, Hr2, app_nil_r. cbn. eapply Forall_impl; [exact Hr1|].
      intros q ->. split; [done|]. split; [done|]. exists n. split; [set_solver|done].
    - split; [apply fresh_quiet; by rewrite !claims_app, Hc0, Hc1, Hc2|].
      intros h' e ->. left. by eapply Ho. }
  destruct o1 as [[evs [er|]]|m].
  - specialize (Hpost [] (Done (h, Some er))). by apply Hpost; [| |intros h' e [= <- _]].
  - destruct (Hev evs eq_refl) as (a & b & c & d & v & Hevs & Ha & Hb & Hc & Hd & Hv).
    apply wp_bind. eapply wp_mono; [apply wp_getLastClaimEvent|].
    intros tr2 o2 [[Hc2 Hr2] Hcl].
    destruct o2 as [[[cl|] [er|]]|m]; cbn; rewrite ?app_nil_r;
      try (by apply (Hpost tr2); [| |intros h' e [= <- _]]).
    specialize (Hcl cl eq_refl).
    eapply wp_mono; [apply (wp_claim_new l h hi evs cl (tr0 ++ tr1 ++ tr2))|].
    + by rewrite !claims_app, Hc0, Hc1, Hc2.
    + rewrite !ranges_app, !elem_of_app. right; left. unfold ranges.
      apply list_elem_of_omap. eexists. split; [exact Ha|done].
    + rewrite !lastClaims_app, !elem_of_app. auto.
    + by apply (Hpost tr2 (Crashed nil_dereference)).
    + intros log tr3 Hall Hnew x Hx Hblk. rewrite <- !app_assoc in Hall |- *.
      assert (x ∈ evs) as Hin.
      { rewrite Hevs. apply (scan_complete log tr1 h hi); try done.
        apply Forall_app in Hall as [_ Hall]. by apply Forall_app in Hall as [Hall _]. }
      do 2 apply covered_app_r. destruct (Z.le_gt_cases (Nonce x) (EthereumEventNonce cl)).
      * apply covered_app_l. right. by exists cl.
      * apply covered_app_r, Hnew, elem_of_filterEvents. done.
    + intros tr3 o H. cbv beta in H. by rewrite <- !app_assoc in H.
  - specialize (Hpost [] (Crashed m)). rewrite app_nil_r in Hpost. by apply Hpost.
Qed.

Lemma wp_observeEthEvents l h :
  0 <= h < 2 ^ 64 - 2000 -> wp (observeEthEvents l h) (observe_post h).
Proof.
  intros Hh. unfold observeEthEvents. intros [vs [er|]]; cbn.
  { apply silent_post; try done. by intros h' e [= <- <-]. }
  destruct vs as [vs|]; cbn; [|by apply silent_post].
  destruct (isBonded l vs); cbn.
  2:{ apply silent_post; try done. by intros h' e [= <- <-]. }
  apply wp_bind. eapply wp_mono; [apply wp_getLatestEthHeight|].
  intros tr o [[Hc Hr] Hhead].
  destruct o as [[head [er|]]|m]; cbn.
  - apply silent_post; rewrite ?app_nil_r; try done. by intros h' e [= <- <-].
  - destruct (Hhead head eq_refl) as (n & Hn & ->).
    destruct (Z.leb_spec (big_Uint64 n) ethBlockConfirmationDelay) as [|Hgt]; cbn.
    { apply silent_post; rewrite ?app_nil_r; try done. by intros h' e [= <- <-]. }
    destruct (Z.leb_spec (u64 (big_Uint64 n - ethBlockConfirmationDelay)) h) as [|Hnew]; cbn.
    { apply silent_post; rewrite ?app_nil_r; try done. by intros h' e [= <- <-]. }
    destruct (search_end_ok h (big_Uint64 n)) as [H1 H2]; [done|apply big_Uint64_range|done|done|].
    eapply wp_mono.
    + apply (wp_scan_and_claim l h (search_end h (big_Uint64 n))
               (OEv CurrentValset (Some vs, None) :: tr) n); try done. by right.
    + done.
  - apply silent_post; try done.
Qed.


(** An iteration of the oracle that moves the last observed height either
    restarts from the height of the validator's last claim, having claimed nothing,
    or advances to the end of the range it searched; in that case, if the node
    answered the filters completely, every bridge event in the range has been
    claimed without error or is behind the validator's last claim. *)
Lemma oracle_no_skip l h :
  0 <= h < 2 ^ 64 - 2000 ->
  wp (observeEthEvents l h) (fun tr o => forall h' e, o = Done (h', e) -> moves h tr h' e).
Proof.
  intros Hh. eapply wp_mono; [by apply wp_observeEthEvents|]. intros tr o (_ & _ & H). exact H.
Qed.

(** C24: every block range that an iteration searches starts at the last observed
    height, spans at most 2000 blocks and ends at least 12 blocks behind a chain
    head that the node reported. *)
Theorem oracle_range l h :
  0 <= h < 2 ^ 64 - 2000 ->
  wp (observeEthEvents l h) (fun tr _ => Forall (range_ok h tr) (ranges tr)).
Proof.
  intros Hh. eapply wp_mono; [by apply wp_observeEthEvents|]. intros tr o (H & _). exact H.
Qed.

Lemma isBonded_spec l vs :
  isBonded l vs = true <->
  exists m, m ∈ vs_Members vs /\ EthereumAddress m = Address_Hex (EthereumAddr (cfg l)).
Proof.
  unfold isBonded. induction (vs_Members vs) as [|m ms IH] using rev_ind.
  - split; [done|]. by intros (m & ?%elem_of_nil & _).
  - rewrite foldl_app. cbn. destruct (String.eqb_spec (Address_Hex (EthereumAddr (cfg l))) (EthereumAddress m)).
    + split; [|done]. intros _. exists m. set_solver.
    + rewrite IH. split; intros (m' & Hin & He).
      * exists m'. set_solver.
      * apply elem_of_app in Hin as [Hin|Hin]; [by exists m'|].
        apply list_elem_of_singleton in Hin as ->. congruence.
Qed.

(** The first call of an iteration is [CurrentValset], and a validator that is
    not in the set it returns claims nothing and keeps its position: the iteration
    ends there, without error. *)
Lemma oracle_unbonded l h :
  wp (observeEthEvents l h) (fun tr o =>
    match tr with
    | existT CurrentValset r :: tr' =>
        forall vs, r = (Some vs, None) ->
          (forall m, m ∈ vs_Members vs -> EthereumAddress m <> Address_Hex (EthereumAddr (cfg l))) ->
          tr' = [] /\ o = Done (h, None)
    | _ => False
    end).
Proof.
  unfold observeEthEvents. intros [vs [er|]]; cbn; [done|].
  destruct vs as [vs|]; cbn; [|done].
  destruct (isBonded l vs) eqn:Eb; cbn; [|by intros vs' [= <-]].
  apply wp_runs. intros tr o _ vs' [= <-] Hm.
  apply isBonded_spec in Eb as (m & Hin & He). by destruct (Hm m Hin).
Qed.

(** A successful scan returns exactly the answers of one attempt, each of the
    five filters queried over the same range: a retry does not keep or repeat the
    events of a failed attempt. *)
Lemma getEthEvents_exact l s e :
  wp (getEthEvents l s e) (fun tr o =>
    forall evs, o = Done (evs, None) ->
      exists a b c d v,
        evs = map oldDeposit a ++ map deposit b ++ map withdrawal c ++ map valsetUpdate d ++
              map erc20Deployment v /\
        OEv (GetSendToCosmosEvents s e) (a, None) ∈ tr /\
        OEv (GetSendToInjectiveEvents s e) (b, None) ∈ tr /\
        OEv (GetTransactionBatchExecutedEvents s e) (c, None) ∈ tr /\
        OEv (GetValsetUpdatedEvents s e) (d, None) ∈ tr /\
        OEv (GetPeggyERC20DeployedEvents s e) (v, None) ∈ tr).
Proof. eapply wp_mono; [apply wp_getEthEvents|]. intros tr o [_ H]. exact H. Qed.

End facts.

(** ** A concrete orchestrator *)
Module Example.
#[local] Instance retry_lib : RetryLib OrchI := retry_loop_lib OrchI.

Definition orch : Orchestrator :=
  MkOrchestrator (MkConfig "inj1a" 0xaa (FFin 1 0) ∅ 0 0 true true false) 10.

Lemma oracle_no_skip_witness :
  wp (observeEthEvents orch 100) (fun tr o => forall h' e, o = Done (h', e) -> moves 100 tr h' e).
Proof. apply (oracle_no_skip orch 100). lia. Defined.

Lemma oracle_range_witness :
  wp (observeEthEvents orch 100) (fun tr _ => Forall (range_ok 100 tr) (ranges tr)).
Proof. apply (oracle_range orch 100). lia. Defined.

(** A node with two new events, nonces 5 and 7, after the last claim 4: both are
    claimed, although 6 was never seen; only the first nonce is compared. *)
Definition ev (n : Z) : PeggySendToCosmosEvent := MkSendToCosmosEvent 1 2 3 4 n 150.

Definition gap_node : handler OrchI unit := fun c _ =>
  (match c return orch_reply c with
   | CurrentValset => (Some (MkValset 1 [MkBridgeValidator 1 (Address_Hex 0xaa)] 1 None ""), None)
   | GetHeaderByNumber => (Some 300, None)
   | LastClaimEventByAddr _ => (Some (MkLastClaimEvent 4 90), None)
   | GetSendToCosmosEvents _ _ => ([ev 7; ev 5], None)
   | GetSendToInjectiveEvents _ _ => ([], None)
   | GetTransactionBatchExecutedEvents _ _ => ([], None)
   | GetPeggyERC20DeployedEvents _ _ => ([], None)
   | GetValsetUpdatedEvents _ _ => ([], None)
   | SendOldDepositClaim _ => None
   | c => inhabitant c
   end, tt).

Lemma oracle_inner_gap :
  let r := exec gap_node (observeEthEvents orch 100) tt in
  r.1.1 = Done (288, None) /\
  claims r.1.2 = [(oldDeposit (ev 5), None); (oldDeposit (ev 7), None)].
Proof. by vm_compute. Qed.

End Example.
