(* ===== verification/Loops.v ===== *)
(** * Loops: package orchestrator/loops

    [RunLoop] (const_time_loop.go) as a program that runs a body with state [St];
    [ParanoidGroup] (paranoid_group.go) as a step relation over the state that its
    goroutines share: the wait group, the error channel and the waiter. *)
From S2P Require Import Prelude Effects GoFloat Types Interfaces.

(** [ErrGracefulStop] *)
Definition ErrGracefulStop : err := ErrNew "stop".

Section runloop.
Context {St : Type} (interval : Z) (fn : St -> prog OrchI (St * error)).

(** The [for] loop; [None] when it is still running after [fuel] iterations. *)
Fixpoint loop (fuel : nat) (st : St) : prog OrchI (option error) :=
  match fuel with
  | O => mret None
  | S fuel' =>
      fired ← ocall SelectTimer;
      if negb (fired : bool) then mret (Some None)
      else
        start ← ocall TimeNow;
        '(st, fnErr) ← fn st;
        match fnErr with
        | Some e => if decide (e = ErrGracefulStop) then mret (Some None) else mret (Some (Some e))
        | None =>
            now ← ocall TimeNow;
            let elapsed := now - start in
            _ ← (if interval <=? elapsed then ocall (TimerReset interval)
                 else ocall (TimerReset (interval - elapsed)));
            loop fuel' st
        end
  end.

(** [panicRecover], deferred: a panic in the body becomes the returned error. *)
Definition panicRecover (r : panicv) : option error :=
  match r with
  | PanicError e => Some (Some e)
  | PanicValue msg => Some (Some (ErrNew ("loop panic: " ++ msg)))
  end.

(** [RunLoop] *)
Definition RunLoop (fuel : nat) (st : St) : prog OrchI (option error) :=
  prog_recover panicRecover (loop fuel st).


(** The delays that a trace sets the timer to. *)
Definition reset_of (ev : event OrchI) : option Z :=
  match ev with existT (TimerReset d) _ => Some d | _ => None end.

Definition resets (tr : list (event OrchI)) : list Z := omap reset_of tr.

Lemma resets_app tr tr' : resets (tr ++ tr') = resets tr ++ resets tr'.
Proof. apply omap_app. Qed.

Lemma resets_turn tr now d r tr' :
  omap reset_of (tr ++ OEv TimeNow now :: OEv (TimerReset d) r :: tr') = resets tr ++ d :: resets tr'.
Proof. by rewrite omap_app. Qed.

(** [RunLoop] never panics, whatever its body does. *)
Lemma RunLoop_no_panic fuel st : wp (RunLoop fuel st) (fun _ o => exists r, o = Done r).
Proof.
  apply wp_recover, wp_runs. intros tr [a|m] _; by eexists.
Qed.

(** As long as the body returns nil, sets no timer itself and the clock does
    not go backwards, [RunLoop] goes on until the context is done and returns nil;
    every delay it sets is positive and at most the interval. *)
Lemma RunLoop_delays fuel st :
  0 < interval ->
  (forall st, wp (fn st) (fun tr o => resets tr = [] /\ exists st', o = Done (st', None))) ->
  wp (RunLoop fuel st) (fun tr o =>
    (forall t1 now1 t2 now2 t3, tr = t1 ++ OEv TimeNow now1 :: t2 ++ OEv TimeNow now2 :: t3 ->
       now1 <= now2) ->
    (o = Done None \/ o = Done (Some None)) /\ Forall (fun d => 0 < d <= interval) (resets tr)).
Proof.
  intros Hint Hfn. apply wp_recover. revert st. induction fuel as [|fuel IH]; intros st.
  { intros _. split; [by left|constructor]. }
  cbn [loop]. intros fired. destruct fired; cbn; [|intros _; split; [by right|constructor]].
  intros start_. apply wp_bind. eapply wp_mono; [apply Hfn|].
  intros tr o (Hnr & st' & ->). cbn. intros now. apply wp_bind.
  assert (forall d, 0 < d <= interval \/ now < start_ ->
    wp (ocall (TimerReset d)) (fun tr' o' => o' = Done tt /\ exists r, tr' = [OEv (TimerReset d) r] /\
      (0 < d <= interval \/ now < start_))) as Hreset.
  { intros d Hd []. split; [done|]. by exists tt. }
  eapply wp_mono.
  { instantiate (1 := fun tr' o' => o' = Done tt /\ exists d r, tr' = [OEv (TimerReset d) r] /\
      (0 < d <= interval \/ now < start_)).
    destruct (Z.leb_spec interval (now - start_)); intros []; (split; [done|]); eexists _, tt;
      (split; [done|]); lia. }
  intros tr2 o2 (-> & d & r & -> & Hd). cbn. eapply wp_mono; [apply IH|].
  intros tr3 o3 H3.
  assert ((forall t1 now1 t2 now2 t3,
      OEv SelectTimer true :: OEv TimeNow start_ :: tr ++ OEv TimeNow now :: OEv (TimerReset d) r :: tr3
        = t1 ++ OEv TimeNow now1 :: t2 ++ OEv TimeNow now2 :: t3 -> now1 <= now2) ->
    0 < d <= interval /\ (forall t1 now1 t2 now2 t3,
       tr3 = t1 ++ OEv TimeNow now1 :: t2 ++ OEv TimeNow now2 :: t3 -> now1 <= now2)) as Hmono.
  { intros Hall. split.
    - destruct Hd as [|Hlt]; [done|].
      specialize (Hall [OEv SelectTimer true] start_ tr now (OEv (TimerReset d) r :: tr3) eq_refl). lia.
    - intros t1 n1 t2 n2 t3 ->.
      apply (Hall ((OEv SelectTimer true :: OEv TimeNow start_ :: tr ++
                    [OEv TimeNow now; OEv (TimerReset d) r]) ++ t1) n1 t2 n2 t3).
      cbn. rewrite <- !app_assoc. done. }
  destruct o3 as [a|m]; cbn; intros Hall; apply Hmono in Hall as [Hd' Hall];
    destruct (H3 Hall) as [Ho Hf]; (split; [done|]);
    rewrite resets_turn, Hnr; by constructor.
Qed.

End runloop.

Lemma RunLoop_delays_witness :
  wp (RunLoop 60 (fun st : unit => mret (st, None)) 5 tt) (fun tr o =>
    (forall t1 now1 t2 now2 t3, tr = t1 ++ OEv TimeNow now1 :: t2 ++ OEv TimeNow now2 :: t3 ->
       now1 <= now2) ->
    (o = Done None \/ o = Done (Some None)) /\ Forall (fun d => 0 < d <= 60) (resets tr)).
Proof.
  apply (RunLoop_delays 60 (fun st : unit => mret (st, None)) 5 tt); [lia|].
  intros st. split; [done|by exists st].
Defined.

(** ** ParanoidGroup *)
Module ParanoidGroup.

(** What the goroutines and the waiter share.  [running]: the tasks that have not
    sent or finished yet, with the error each will return; [sending]: finished with
    an error, blocked until the channel has room; [errCh]: the channel, of
    capacity 10; [errs]: what [Wait] has collected; [result]: what it returned. *)
Record group : Type := MkGroup {
  running : list error;
  errCh : list err;
  closed : bool;
  errs : list err;
  result : option (list err)
}.

Definition capacity : nat := 10.

(** [Go] for each of the tasks, then [Wait]. *)
Definition start (tasks : list error) : group := MkGroup tasks [] false [] None.

Inductive step : group -> group -> Prop :=
  (* a task returns nil: wg.Done *)
  | task_ok l1 l2 ch cl es res :
      step (MkGroup (l1 ++ None :: l2) ch cl es res) (MkGroup (l1 ++ l2) ch cl es res)
  (* a task returns an error: send on the channel, then wg.Done *)
  | task_err l1 l2 e ch cl es res :
      (length ch < capacity)%nat ->
      step (MkGroup (l1 ++ Some e :: l2) ch cl es res) (MkGroup (l1 ++ l2) (ch ++ [e]) cl es res)
  (* wg.Wait() returns: the channel is closed *)
  | close_ch ch es res :
      step (MkGroup [] ch false es res) (MkGroup [] ch true es res)
  (* Wait receives an error *)
  | wait_recv l e ch cl es :
      step (MkGroup l (e :: ch) cl es None) (MkGroup l ch cl (es ++ [e]) None)
  (* Wait finds the channel closed and empty: it returns nil *)
  | wait_closed l es :
      step (MkGroup l [] true es None) (MkGroup l [] true es (Some []))
  (* Wait finds nothing to receive and has collected errors: it returns them *)
  | wait_default l es :
      es <> [] ->
      step (MkGroup l [] false es None) (MkGroup l [] false es (Some es)).

Definition reachable (tasks : list error) (g : group) : Prop := rtc step (start tasks) g.

(** Every error in flight was returned by a task, and each at most once. *)
Definition task_errs (tasks : list error) : list err := omap (fun e => e) tasks.

Definition inv (tasks : list error) (g : group) : Prop :=
  errs g ++ errCh g ++ task_errs (running g) ≡ₚ task_errs tasks /\
  (length (errCh g) <= capacity)%nat /\
  (closed g = true -> running g = []) /\
  (forall es, result g = Some es -> es = [] /\ running g = [] \/ es = errs g /\ es <> []).

Lemma inv_reachable tasks g : reachable tasks g -> inv tasks g.
Proof.
  unfold reachable. intros Hr.
  assert (inv tasks (start tasks)) as H0.
  { split; [done|]. split; [simpl; unfold capacity; lia|]. by split. }
  revert H0. generalize (start tasks) Hr. clear Hr. intros g0 Hr.
  induction Hr as [g|g1 g2 g3 Hs _ IH]; [done|]. intros Hinv. apply IH. clear IH.
  destruct Hinv as (Hp & Hlen & Hcl & Hres).
  destruct Hs; unfold inv in *; cbn [errs errCh running closed result] in *.
  - split.
    { rewrite <- Hp. unfold task_errs. rewrite !omap_app. done. }
    split; [done|]. split; [intros Hc; apply Hcl in Hc; by destruct l1|].
    intros es' H'. destruct (Hres _ H') as [[_ Hnil]|?]; [by destruct l1|by right].
  - split.
    { rewrite <- Hp. unfold task_errs. rewrite !omap_app. cbn. rewrite <- !app_assoc. cbn.
      do 2 f_equiv. by rewrite Permutation_middle. }
    split; [rewrite length_app; cbn; lia|].
    split; [intros Hc; apply Hcl in Hc; by destruct l1|].
    intros es' H'. destruct (Hres _ H') as [[_ Hnil]|?]; [by destruct l1|by right].
  - split; [done|]. split; [done|]. split; [done|]. intros es' H'. by apply Hres.
  - split; [rewrite <- Hp, <- app_assoc; done|]. split; [cbn in *; lia|]. split; [done|]. done.
  - split; [done|]. split; [done|]. split; [done|]. intros es' [= <-]. left. split; [done|auto].
  - split; [done|]. split; [done|]. split; [done|]. intros es' [= <-]. by right.
Qed.

(** C29: whatever the interleaving, the errors that [Wait] returns are errors that
    tasks returned, each at most once, and [Wait] returns nil only when every task
    has finished. *)
Theorem wait_sound tasks g es :
  reachable tasks g -> result g = Some es ->
  es ⊆+ task_errs tasks /\ (es = [] -> running g = []).
Proof.
  intros Hr He. apply inv_reachable in Hr as (Hp & _ & _ & Hres).
  destruct (Hres es He) as [[-> Hrun]|[-> Hne]].
  - split; [apply submseteq_nil_l|done].
  - split; [|done]. rewrite <- Hp. apply submseteq_inserts_r. done.
Qed.

(** C30: [Wait] can lose an error: when the channel is closed before the waiter
    looks again, it receives the error, sees the closed channel and returns nil,
    although its doc says that it returns an error if one or more tasks failed. *)
Theorem wait_loses_error e :
  exists g, reachable [Some e] g /\ result g = Some [] /\ task_errs [Some e] = [e].
Proof.
  exists (MkGroup [] [] true [e] (Some [])). split; [|done].
  eapply rtc_l; [apply (task_err [] []); simpl; unfold capacity; lia|].
  eapply rtc_l; [apply close_ch|].
  eapply rtc_l; [apply wait_recv|].
  eapply rtc_l; [apply wait_closed|]. apply rtc_refl.
Qed.

(** A bound on the steps left. *)
Definition measure (g : group) : nat :=
  3 * length (running g) + 2 * length (errCh g) + (if closed g then 0 else 1) +
  (if result g is None then 1 else 0).

Lemma step_measure g g' : step g g' -> (measure g' < measure g)%nat.
Proof.
  destruct 1; unfold measure; cbn [running errCh closed result length];
    rewrite ?length_app; cbn [length];
    try destruct res; try destruct cl; lia.
Qed.

Lemma progress g : result g = None -> exists g', step g g'.
Proof.
  destruct g as [l ch cl es res]. simpl. intros ->.
  destruct ch as [|e ch]; [|eexists; apply wait_recv].
  destruct l as [|[e|] l].
  - destruct cl; [eexists; apply wait_closed|eexists; apply close_ch].
  - eexists. apply (task_err [] l e []). simpl. unfold capacity. lia.
  - eexists. apply (task_ok [] l).
Qed.

(** [Wait] always returns once the tasks do: every execution has at most
    3n+2 steps for n tasks, and one that cannot go on has returned a result. *)
Lemma wait_returns tasks n g :
  nsteps step n (start tasks) g ->
  (n <= 3 * length tasks + 2)%nat /\ ((forall g', ~ step g g') -> is_Some (result g)).
Proof.
  intros Hn. split.
  - assert (forall n g g', nsteps step n g g' -> (n + measure g' <= measure g)%nat) as Hm.
    { clear. induction 1 as [g|n g1 g2 g3 Hs _ IH]; [lia|]. apply step_measure in Hs. lia. }
    apply Hm in Hn. unfold measure, start in Hn. cbn in Hn. lia.
  - intros Hstuck. destruct (result g) eqn:E; [by eexists|].
    destruct (progress g E) as [g' Hg']. by destruct (Hstuck g').
Qed.

Lemma wait_sound_witness :
  reachable [None] (MkGroup [] [] true [] (Some [])) /\ [] ⊆+ task_errs [None].
Proof.
  assert (reachable [None] (MkGroup [] [] true [] (Some []))) as Hr.
  { eapply rtc_l; [apply (task_ok [] [])|]. eapply rtc_l; [apply close_ch|].
    eapply rtc_l; [apply wait_closed|]. apply rtc_refl. }
  split; [exact Hr|]. apply (wait_sound [None] _ [] Hr eq_refl).
Defined.

Lemma wait_returns_witness : (1 <= 3 * length [@None err] + 2)%nat.
Proof.
  assert (nsteps step 1 (start [None]) (MkGroup [] [] false [] None)) as Hn.
  { apply nsteps_once, (task_ok [] []). }
  apply (wait_returns [None] 1 _ Hn).
Defined.

End ParanoidGroup.
