(* ===== verification/Signer.v ===== *)
(** * Signer: confirming validator sets and batches (orchestrator/signer.go) *)
From S2P Require Import Prelude Effects GoFloat Types External Interfaces.

(** [signer] *)
Record signer : Type := MkSigner { sg_orchestrator : Orchestrator; peggyID : Hash }.

Section signer.
Context {RL : RetryLib OrchI}.

Definition sg_cfg (l : signer) : Config := cfg (sg_orchestrator l).

(** The two query closures discard the error of the query and return nil. *)
Definition getValsets (l : signer) (_ : list Valset) : prog OrchI (list Valset * error) :=
  '(valsets, _) ← ocall (OldestUnsignedValsets (CosmosAddr (sg_cfg l)));
  mret (valsets, None).

Definition getBatchFn (l : signer) (_ : option OutgoingTxBatch)
  : prog OrchI (option OutgoingTxBatch * error) :=
  '(batch, _) ← ocall (OldestUnsignedTransactionBatch (CosmosAddr (sg_cfg l)));
  mret (batch, None).

Definition confirmValset (l : signer) (vs : Valset) (_ : unit) : prog OrchI (unit * error) :=
  err ← ocall (SendValsetConfirm (EthereumAddr (sg_cfg l)) (peggyID l) vs);
  mret (tt, err).

Definition confirmBatch (l : signer) (b : OutgoingTxBatch) (_ : unit) : prog OrchI (unit * error) :=
  err ← ocall (SendBatchConfirm (EthereumAddr (sg_cfg l)) (peggyID l) b);
  mret (tt, err).

(** [signValidatorSets] *)
Definition signValidatorSets (l : signer) : prog OrchI error :=
  '(valsets, err) ← retry (sg_orchestrator l) (getValsets l) [];
  match err with
  | Some _ => mret err
  | None =>
      if (length valsets =? 0)%nat then mret None
      else
        res ← prog_for valsets tt (fun vs _ =>
          '(_, err) ← retry (sg_orchestrator l) (confirmValset l vs) tt;
          match err with
          | Some e => mret (inr e)
          | None => mret (inl tt)
          end);
        mret (match res with inr e => Some e | inl _ => None end)
  end.

(** [signNewBatch] *)
Definition signNewBatch (l : signer) : prog OrchI error :=
  '(oldestUnsignedBatch, err) ← retry (sg_orchestrator l) (getBatchFn l) None;
  match err with
  | Some _ => mret err
  | None =>
      match oldestUnsignedBatch with
      | None => mret None
      | Some batch =>
          '(_, err) ← retry (sg_orchestrator l) (confirmBatch l batch) tt;
          match err with
          | Some _ => mret err
          | None => mret None
          end
      end
  end.

(** [sign] *)
Definition sign (l : signer) : prog OrchI error :=
  err ← signValidatorSets l;
  match err with
  | Some _ => mret err
  | None =>
      err ← signNewBatch l;
      match err with
      | Some _ => mret err
      | None => mret None
      end
  end.

(** ** What is confirmed *)

(** The validator sets confirmed without error, in order. *)
Definition confirmed_of (ev : event OrchI) : option Valset :=
  match ev with
  | existT (SendValsetConfirm _ _ vs) r => if r is None then Some vs else None
  | _ => None
  end.

Definition confirmed (tr : list (event OrchI)) : list Valset := omap confirmed_of tr.

(** Every confirmation is sent with the orchestrator's address and the bridge's
    identifier, and is for one of [vss]. *)
Definition confirms_only (l : signer) (vss : list Valset) (ev : event OrchI) : Prop :=
  match ev with
  | existT (SendValsetConfirm eth id vs) _ =>
      eth = EthereumAddr (sg_cfg l) /\ id = peggyID l /\ vs ∈ vss
  | _ => False
  end.

Lemma confirmed_app tr tr' : confirmed (tr ++ tr') = confirmed tr ++ confirmed tr'.
Proof. apply omap_app. Qed.

Lemma wp_confirmValset l vs vss :
  vs ∈ vss ->
  wp ('(_, err) ← retry (sg_orchestrator l) (confirmValset l vs) tt;
      match err with
      | Some e => mret (inr e)
      | None => mret (inl tt)
      end) (fun tr o =>
    Forall (confirms_only l vss) tr /\
    ((exists e, o = Done (@inr unit err e) /\ confirmed tr = []) \/
     (o = Done (inl tt) /\ confirmed tr = [vs]))).
Proof.
  intros Hin. unfold retry. apply wp_bind.
  eapply (wp_retry _ _ _ (fun tr _ => Forall (confirms_only l vss) tr /\ confirmed tr = [])).
  - by split; [constructor|].
  - intros tr [] e [Hf Hc]. cbn. rewrite app_nil_r. split; [done|]. left. by exists e.
  - intros tr [] [Hf Hc]. intros [e|]; cbn.
    + rewrite confirmed_app, Hc. split; [|done]. apply Forall_app. split; [done|].
      constructor; [|constructor]. done.
    + rewrite app_nil_r, confirmed_app, Hc. split; [|by right]. apply Forall_app. split; [done|].
      constructor; [|constructor]. done.
Qed.

(** What [signValidatorSets] did, after a first query that answered [vss]. *)
Lemma wp_signValidatorSets l :
  wp (signValidatorSets l) (fun tr o =>
    (tr = [] /\ exists e, o = Done (Some e)) \/
    exists vss err tr', tr = OEv (OldestUnsignedValsets (CosmosAddr (sg_cfg l))) (vss, err) :: tr' /\
      Forall (confirms_only l vss) tr' /\
      match o with
      | Done None => confirmed tr' = vss
      | Done (Some _) => exists rest, vss = confirmed tr' ++ rest
      | Crashed _ => False
      end).
Proof.
  unfold signValidatorSets, retry. apply wp_bind.
  eapply (wp_retry _ _ _ (fun tr _ => tr = [])); [done|..].
  { intros tr vss e ->. cbn. left. by split; [|exists e]. }
  intros tr vss0 ->. intros [vss e]. cbn.
  destruct (Nat.eqb_spec (length vss) 0) as [Hl|_].
  { apply nil_length_inv in Hl as ->. cbn. right. exists [], e, []. done. }
  apply wp_bind. eapply wp_mono.
  - apply (wp_for _ _ _ (fun dn tr _ => Forall (confirms_only l vss) tr /\ confirmed tr = dn)
             (fun tr o => Forall (confirms_only l vss) tr /\
                (exists r, o = Done r) /\ exists rest, vss = confirmed tr ++ rest /\
                (o = Done (inl tt) -> rest = []))).
    + by split; [constructor|].
    + intros dn vs rest tr [] Heq [Hf Hc]. eapply wp_mono.
      { apply (wp_confirmValset l vs vss). rewrite Heq. set_solver. }
      intros tr' o [Hf' [(er & -> & Hc')|[-> Hc']]].
      * split; [by apply Forall_app|]. split; [by eexists|]. exists (vs :: rest).
        by rewrite confirmed_app, Hc, Hc', app_nil_r.
      * split; [by apply Forall_app|]. by rewrite confirmed_app, Hc, Hc'.
    + intros tr [] [Hf Hc]. split; [done|]. split; [by eexists|]. exists []. by rewrite Hc, app_nil_r.
  - intros tr o (Hf & [r ->] & rest & Heq & Hrest). cbn. rewrite app_nil_r. right.
    exists vss, e, tr. split; [done|]. split; [done|]. destruct r as [[]|er]; cbn.
    + rewrite (Hrest eq_refl), app_nil_r in Heq. done.
    + by exists rest.
Qed.

(** C31: unless the context is done before, [signValidatorSets] asks the chain once for the
    validator sets that this validator has not confirmed.  When it then returns nil, it has
    confirmed, once each and in the order of the answer, exactly the sets of the answer; when it
    returns an error, the sets confirmed are the first ones; it does not panic.  All confirmations
    carry the orchestrator's Ethereum address and the bridge's id.  Without a query it returns an
    error; and while the context is not done and attempts are allowed, it does query. *)
Theorem signValidatorSets_confirms {RA : RetryAttempts OrchI} l :
  wp (signValidatorSets l) (fun tr o =>
    (maxAttempts (sg_orchestrator l) <> 0%nat -> tr <> []) /\
    ((tr = [] /\ exists e, o = Done (Some e)) \/
     exists vss err tr', tr = OEv (OldestUnsignedValsets (CosmosAddr (sg_cfg l))) (vss, err) :: tr' /\
       Forall (confirms_only l vss) tr' /\
       match o with
       | Done None => confirmed tr' = vss
       | Done (Some _) => exists rest, vss = confirmed tr' ++ rest
       | Crashed _ => False
       end)).
Proof.
  apply wp_conj; [|apply wp_signValidatorSets].
  destruct (decide (maxAttempts (sg_orchestrator l) = 0%nat)) as [Hn|Hn]; [by apply wp_runs|].
  eapply wp_mono; [|intros tr o H _; exact H]. unfold signValidatorSets, retry. apply wp_bind.
  eapply wp_mono; [apply wp_retry_nonempty; [exact Hn|by intros [vss e]]|].
  intros tr [[vss err]|m] Htr; [|exact Htr]. apply wp_runs. intros tr' o _. by destruct tr.
Qed.

(** [signNewBatch] asks for the oldest unsigned batch once, without retrying,
    and an error of that query is lost: without a batch in the answer it returns nil
    as if there were nothing to sign.  Otherwise it sends confirmations of exactly
    that batch, and returns nil only if one was accepted. *)
Lemma signNewBatch_spec l :
  wp (signNewBatch l) (fun tr o =>
    (tr = [] /\ exists e, o = Done (Some e)) \/
    exists batch err tr',
      tr = OEv (OldestUnsignedTransactionBatch (CosmosAddr (sg_cfg l))) (batch, err) :: tr' /\
      match batch with
      | None => tr' = [] /\ o = Done None
      | Some b =>
          Forall (fun ev => exists r, ev = OEv (SendBatchConfirm (EthereumAddr (sg_cfg l)) (peggyID l) b) r) tr' /\
          (o = Done None ->
           OEv (SendBatchConfirm (EthereumAddr (sg_cfg l)) (peggyID l) b) None ∈ tr')
      end).
Proof.
  unfold signNewBatch, retry. apply wp_bind.
  eapply (wp_retry _ _ _ (fun tr _ => tr = [])); [done|..].
  { intros tr b e ->. cbn. left. by split; [|exists e]. }
  intros tr b0 ->. intros [batch e]. cbn.
  destruct batch as [b|]; cbn; [|right; by exists None, e, []].
  apply wp_bind. eapply (wp_retry _ _ _ (fun tr _ =>
    Forall (fun ev => exists r, ev = OEv (SendBatchConfirm (EthereumAddr (sg_cfg l)) (peggyID l) b) r) tr)).
  - constructor.
  - intros tr [] er Hf. cbn. rewrite app_nil_r. right. exists (Some b), e, tr. by split.
  - intros tr [] Hf. intros [er|]; cbn.
    + apply Forall_app. split; [done|]. constructor; [by eexists|constructor].
    + rewrite app_nil_r. right. eexists (Some b), e, _. split; [done|]. split.
      * apply Forall_app. split; [done|]. constructor; [by eexists|constructor].
      * intros _. apply elem_of_app. right. left.
Qed.

End signer.

(** ** An example: a signer with one set to confirm *)
Module Example.
#[local] Instance retry_lib : RetryLib OrchI := retry_loop_lib OrchI.
#[local] Instance retry_lib_attempts : RetryAttempts OrchI := retry_loop_attempts OrchI.

Definition sg : signer :=
  MkSigner (MkOrchestrator (MkConfig "inj1a" 0xaa (FFin 1 0) ∅ 0 0 true true false) 10) 42.
Definition vs : Valset := MkValset 7 [] 100 None "".

Definition node : handler OrchI unit := fun c w =>
  (match c return orch_reply c with
   | OldestUnsignedValsets _ => ([vs], None)
   | SendValsetConfirm _ _ _ => None
   | c => inhabitant c
   end, w).

(** The sets that the chain listed. *)
Definition listed (tr : list (event OrchI)) : list (list Valset) :=
  omap (fun ev : event OrchI => match ev with existT (OldestUnsignedValsets _) r => Some r.1 | _ => None end) tr.

Lemma signValidatorSets_confirms_witness :
  let r := exec node (signValidatorSets sg) tt in r.1.1 = Done None /\ confirmed r.1.2 = [vs].
Proof.
  pose proof (proj1 (wp_runs _ _) (signValidatorSets_confirms sg) _ _ (exec_runs node (signValidatorSets sg) tt)) as [_ H].
  destruct H as [[H _]|(vss & err & tr' & Htr & _ & H)]; [done|]. split; [by vm_compute|].
  rewrite Htr. change (confirmed tr' = vss) in H. change (confirmed tr' = [vs]). rewrite H.
  apply (f_equal listed) in Htr. cbn [listed omap list_omap fst] in Htr.
  by assert (Hvs : [vs] = vss) by (by injection Htr).
Defined.
End Example.
