(* ===== verification/BatchCreator.v ===== *)
(** * BatchCreator: requesting batches of withdrawals (orchestrator/batch_creator.go) *)
From Stdlib Require Import QArith Qpower.
From S2P Require Import Prelude Effects GoFloat Types External Model Interfaces.
#[local] Open Scope Z_scope.

(** [PeggyDenomString] of the chain's SDK, which is not part of the repository. *)
Class PeggyTypes : Type := { PeggyDenomString : Address -> string }.

Definition errPanicFloat : panicv := PanicValue "Cannot create a Decimal from float".

Section batch_creator.
Context {GE : Geth} {SH : Shopspring} {RL : RetryLib OrchI} {PT : PeggyTypes}.

(** [getUnbatchedTokenFees] *)
Definition getUnbatchedTokenFees (l : Orchestrator) : prog OrchI (list BatchFees * error) :=
  '(fees, err) ← retry l (fun _ => ocall UnbatchedTokensWithFees) [];
  match err with
  | Some _ => mret ([], err)
  | None => mret (fees, None)
  end.

(** [getTokenDenom] *)
Definition getTokenDenom (l : Orchestrator) (tokenAddr : Address) : string :=
  match ERC20ContractMapping (cfg l) !! tokenAddr with
  | Some cosmosDenom => cosmosDenom
  | None => PeggyDenomString tokenAddr
  end.

(** [decimal.NewFromFloat] panics on NaN and infinities. *)
Definition newFromFloat {I} (f : gofloat) : prog I decimal :=
  match NewFromFloat f with
  | Some d => mret d
  | None => Panic errPanicFloat
  end.

(** [checkMinBatchFee] *)
Definition checkMinBatchFee (l : Orchestrator) (fee : BatchFees) (tokenAddress : Address)
    (tokenDecimals : Z) : prog OrchI bool :=
  if float_is_zero (MinBatchFeeUSD (cfg l)) then mret true
  else
    '(tokenPriceUSDFloat, err) ← ocall (QueryUSDPrice tokenAddress);
    match err with
    | Some _ => mret false
    | None =>
        minFeeUSD ← newFromFloat (MinBatchFeeUSD (cfg l));
        tokenPriceUSD ← newFromFloat tokenPriceUSDFloat;
        totalFees ← deref (bf_TotalFees fee);
        let totalFeeUSD := dec_Mul (NewFromBigInt totalFees (- tokenDecimals)) tokenPriceUSD in
        if dec_LessThan totalFeeUSD minFeeUSD then mret false else mret true
    end.

(** [requestTokenBatch]: the result of the request is ignored. *)
Definition requestTokenBatch (l : Orchestrator) (fee : BatchFees) : prog OrchI unit :=
  let tokenAddress := HexToAddress (bf_Token fee) in
  let tokenDenom := getTokenDenom l tokenAddress in
  '(tokenDecimals, err) ← ocall (TokenDecimals tokenAddress);
  match err with
  | Some _ => mret tt
  | None =>
      ok ← checkMinBatchFee l fee tokenAddress tokenDecimals;
      if negb (ok : bool) then mret tt
      else _ ← ocall (SendRequestBatch tokenDenom); mret tt
  end.

(** [requestTokenBatches] *)
Definition requestTokenBatches (l : Orchestrator) : prog OrchI error :=
  '(fees, err) ← getUnbatchedTokenFees l;
  match err with
  | Some _ => mret None
  | None =>
      if (length fees =? 0)%nat then mret None
      else
        _ ← prog_for fees tt (fun fee _ => _ ← requestTokenBatch l fee; mret (@inl unit unit tt));
        mret None
  end.

(** ** What is requested *)

(** The fee in USD reaches the configured minimum at the price [m * 2^e]:
    total * 10^-decimals * price >= minimum. *)
Definition worth_batching (l : Orchestrator) (fee : BatchFees) (decimals : Z) (price : gofloat) : Prop :=
  exists total p q, bf_TotalFees fee = Some total /\ NewFromFloat price = Some p /\
    NewFromFloat (MinBatchFeeUSD (cfg l)) = Some q /\
    (dec_Q q <= inject_Z total * 10 ^ (- decimals) * dec_Q p)%Q.

(** The answers of a trace about decimals and prices, and its requests. *)
Definition decimals_of (ev : event OrchI) : option (Address * Z * error) :=
  match ev with existT (TokenDecimals t) r => Some (t, r.1, r.2) | _ => None end.
Definition price_of (ev : event OrchI) : option (Address * gofloat * error) :=
  match ev with existT (QueryUSDPrice t) r => Some (t, r.1, r.2) | _ => None end.
Definition requests_of (ev : event OrchI) : option string :=
  match ev with existT (SendRequestBatch d) _ => Some d | _ => None end.

Definition requests (tr : list (event OrchI)) : list string := omap requests_of tr.

#[local] Arguments requests : simpl never.

Lemma requests_cons ev tr :
  requests (ev :: tr) = match requests_of ev with Some d => d :: requests tr | None => requests tr end.
Proof. done. Qed.

Lemma requests_app tr tr' : requests (tr ++ tr') = requests tr ++ requests tr'.
Proof. apply omap_app. Qed.

(** What a request needs: the decimals of the token and, with a minimum fee
    configured, a price at which the fees reach it. *)
Definition batch_due (l : Orchestrator) (fee : BatchFees) (tr : list (event OrchI)) : Prop :=
  let token := HexToAddress (bf_Token fee) in
  exists d, omap decimals_of tr = [(token, d, None)] /\
    (float_is_zero (MinBatchFeeUSD (cfg l)) = true \/
     exists price, omap price_of tr = [(token, price, None)] /\ worth_batching l fee d price).

Lemma not_less_than (a b : decimal) : dec_LessThan a b = false <-> (dec_Q b <= dec_Q a)%Q.
Proof. rewrite dec_LessThan_Q. apply Qltb_false. Qed.

Lemma wp_checkMinBatchFee l fee token d :
  wp (checkMinBatchFee l fee token d) (fun tr o =>
    requests tr = [] /\ omap decimals_of tr = [] /\
    if float_is_zero (MinBatchFeeUSD (cfg l)) then o = Done true
    else exists price err, omap price_of tr = [(token, price, err)] /\
           forall b, o = Done b -> (b = true <-> err = None /\ worth_batching l fee d price)).
Proof.
  unfold checkMinBatchFee. destruct (float_is_zero _) eqn:E; [done|].
  intros [price [er|]]; cbn.
  { split; [done|]. split; [done|]. eexists _, _. split; [done|]. intros b [= <-].
    split; [done|]. by intros []. }
  unfold newFromFloat. destruct (NewFromFloat (MinBatchFeeUSD (cfg l))) as [q|] eqn:Eq; cbn.
  2:{ split; [done|]. split; [done|]. by eexists _, _. }
  destruct (NewFromFloat price) as [p|] eqn:Ep; cbn.
  2:{ split; [done|]. split; [done|]. by eexists _, _. }
  destruct (bf_TotalFees fee) as [total|] eqn:Et; cbn.
  2:{ split; [done|]. split; [done|]. by eexists _, _. }
  assert (dec_LessThan (dec_Mul (NewFromBigInt total (- d)) p) q = false <->
          worth_batching l fee d price) as Hw.
  { rewrite not_less_than, dec_Mul_Q, NewFromBigInt_Q. unfold worth_batching. split.
    - intros H. by exists total, p, q.
    - intros (total' & p' & q' & Ht & Hp & Hq & H). rewrite Et in Ht. rewrite Ep in Hp.
      rewrite Eq in Hq. injection Ht as <-. injection Hp as <-. by injection Hq as <-. }
  destruct (dec_LessThan _ q); cbn; (split; [done|]); (split; [done|]);
    eexists _, _; (split; [done|]); intros b [= <-]; rewrite <- Hw; intuition done.
Qed.

(** C32: for one token, a batch is requested, once and under the token's denom, if
    and only if its decimals are known and either no minimum fee is configured or
    the price is known and total fees times price reach the minimum. *)
Theorem requestTokenBatch_iff l fee :
  wp (requestTokenBatch l fee) (fun tr o =>
    o = Done tt ->
    (requests tr = [] \/ requests tr = [getTokenDenom l (HexToAddress (bf_Token fee))]) /\
    (requests tr <> [] <-> batch_due l fee tr)).
Proof.
  unfold requestTokenBatch. intros [d [er|]]; cbn.
  { intros _. split; [by left|]. split; [done|]. intros (d' & Hd & _). cbn in Hd. done. }
  apply wp_bind. eapply wp_mono; [apply wp_checkMinBatchFee|].
  intros tr o (Hr & Hd & Hz). destruct o as [b|m]; [|done].
  assert (forall tr2, omap decimals_of tr2 = [] -> omap price_of tr2 = [] ->
    (batch_due l fee (OEv (TokenDecimals (HexToAddress (bf_Token fee))) (d, None) :: tr ++ tr2) <->
     b = true)) as Hdue.
  { intros tr2 Hd2 Hp2. unfold batch_due. cbn. rewrite !omap_app, Hd, Hd2, Hp2, app_nil_r. cbn.
    destruct (float_is_zero _).
    - injection Hz as ->. split; [done|]. intros _. exists d. auto.
    - destruct Hz as (price & err & Hp & Hb). rewrite Hp, (Hb b eq_refl). split.
      + intros (d' & [= <-] & [?|(price' & [= <- ->] & Hw)]); [done|]. by split.
      + intros [-> Hw]. exists d. split; [done|]. right. by exists price. }
  destruct b; cbn.
  - intros r _. rewrite requests_cons, requests_app, Hr. cbn. split; [by right|]. rewrite Hdue by done. done.
  - intros _. rewrite requests_cons, app_nil_r, Hr. cbn. split; [by left|].
    specialize (Hdue [] eq_refl eq_refl). rewrite app_nil_r in Hdue. rewrite Hdue. done.
Qed.

(** The loop body never returns an error, so the batch creator never stops its
    loop: a failing fee query or request is only logged. *)
Lemma requestTokenBatches_no_error l :
  wp (requestTokenBatches l) (fun _ o => forall e, o = Done e -> e = None).
Proof.
  unfold requestTokenBatches. apply wp_bind, wp_runs. intros tr [[fees [er|]]|m] _; cbn; [|
    destruct (_ =? _)%nat; cbn|done].
  - by intros e [= <-].
  - by intros e [= <-].
  - apply wp_bind, wp_runs. intros tr' [r|m] _; cbn; [by intros e [= <-]|done].
Qed.

End batch_creator.
