(* ===== verification/Relayer.v ===== *)
(** * Relayer: updating the bridge contract (orchestrator/relayer.go)

    The loops' goroutines are modelled in [Orchestrator.v]; here are the searches,
    the decisions and the two relaying tasks.  [time.Since] is the difference of two
    clock readings in nanoseconds (it saturates only after 292 years). *)
From S2P Require Import Prelude Effects GoFloat Types External GoSort Interfaces.

Definition defaultRelayerLoopDur : Z := 5 * Minute.
Definition findValsetBlocksToSearch : Z := 2000.

Definition ErrNotFound : err := ErrNew "not found".

(** ** Sorting validators *)

(** [util.EthAddrLessThan]: bytewise comparison. *)
Fixpoint EthAddrLessThan (e o : string) : bool :=
  match e, o with
  | _, EmptyString => false
  | EmptyString, String _ _ => true
  | String a e', String b o' =>
      let x := nat_of_ascii a in let y := nat_of_ascii b in
      if (x <? y)%nat then true else if (y <? x)%nat then false else EthAddrLessThan e' o'
  end.

(** The comparison of [BridgeValidators.Sort]. *)
Definition validator_less (a b : BridgeValidator) : bool :=
  if Power a =? Power b then EthAddrLessThan (EthereumAddress a) (EthereumAddress b)
  else Power b <? Power a.

Definition BridgeValidators_Sort (b : list BridgeValidator) : list BridgeValidator :=
  sort_Slice validator_less b.

(** [HasDuplicates] *)
Definition HasDuplicates (b : list BridgeValidator) : bool :=
  let m : gset string := foldl (fun m v => {[EthereumAddress v]} ∪ m) ∅ b in
  negb (size m =? length b)%nat.

(** [GetPowers] *)
Definition GetPowers (b : list BridgeValidator) : list Z := map Power b.

(** [PeggyValsetUpdatedEvents] under [sort.Reverse] *)
Definition valset_event_less (a b : PeggyValsetUpdatedEvent) : bool :=
  vue_NewValsetNonce a <? vue_NewValsetNonce b.
Definition reverse_less (a b : PeggyValsetUpdatedEvent) : bool := valset_event_less b a.

(** ** [checkIfValsetsDiffer]

    It only logs, but it sorts the members of both sets in place: the result is what
    it logs and the reordered Ethereum set. *)
Inductive valset_check : Type :=
  | Bootstrapping
  | NoCosmosValset
  | WrongNonce
  | DifferentLength
  | Compared (differences : nat).

Fixpoint count_differences (cosmos eth : list BridgeValidator) : nat :=
  match cosmos, eth with
  | c :: cosmos', e :: eth' =>
      ((if String.eqb (EthereumAddress e) (EthereumAddress c) then 0 else 1) +
       (if (Power e =? Power c)%Z then 0 else 1) + count_differences cosmos' eth')%nat
  | _, _ => 0%nat
  end.

Definition with_members (v : Valset) (ms : list BridgeValidator) : Valset :=
  MkValset (vs_Nonce v) ms (vs_Height v) (vs_RewardAmount v) (vs_RewardToken v).

Definition checkIfValsetsDiffer (cosmosValset : option Valset) (ethereumValset : Valset)
  : valset_check * Valset :=
  match cosmosValset with
  | None => if vs_Nonce ethereumValset =? 0 then (Bootstrapping, ethereumValset)
            else (NoCosmosValset, ethereumValset)
  | Some cosmosValset =>
      if negb (vs_Nonce cosmosValset =? vs_Nonce ethereumValset) then (WrongNonce, ethereumValset)
      else if negb (length (vs_Members cosmosValset) =? length (vs_Members ethereumValset))%nat
      then (DifferentLength, ethereumValset)
      else
        let cosmosMembers := BridgeValidators_Sort (vs_Members cosmosValset) in
        let ethMembers := BridgeValidators_Sort (vs_Members ethereumValset) in
        (Compared (count_differences cosmosMembers ethMembers),
         with_members ethereumValset ethMembers)
  end.

Section relayer.
Context {GE : Geth} {RL : RetryLib OrchI}.

(** ** [findLatestValsetOnEth] *)

(** The members of the event: [Validators[idx]] panics when it is missing. *)
Fixpoint event_members (powers : list Z) (validators : list Address)
  : option (list BridgeValidator) :=
  match powers with
  | [] => Some []
  | p :: powers' =>
      match validators with
      | [] => None
      | v :: validators' =>
          ms ← event_members powers' validators';
          Some (MkBridgeValidator (big_Uint64 p) (Address_Hex v) :: ms)
      end
  end.

Definition index_out_of_range : panicv := PanicError (ErrNew "runtime error: index out of range").

(** The body of the loop once events were found. *)
Definition valset_of_event (cosmosValset : option Valset) (event : PeggyValsetUpdatedEvent)
  : prog OrchI Valset :=
  match event_members (vue_Powers event) (vue_Validators event) with
  | None => Panic index_out_of_range
  | Some members =>
      let valset := MkValset (big_Uint64 (vue_NewValsetNonce event)) members 0
                      (Some (vue_RewardAmount event)) (Address_Hex (vue_RewardToken event)) in
      mret (checkIfValsetsDiffer cosmosValset valset).2
  end.

(** The search loop, from [currentBlock] down; [None] when [fuel] runs out. *)
Fixpoint searchValset (fuel : nat) (cosmosValset : option Valset) (currentBlock : Z)
  : prog OrchI (option (option Valset * error)) :=
  match fuel with
  | O => mret None
  | S fuel' =>
      if negb (0 <? currentBlock) then mret (Some (None, Some ErrNotFound))
      else
        let startSearchBlock :=
          if currentBlock <=? findValsetBlocksToSearch then 0
          else u64 (currentBlock - findValsetBlocksToSearch) in
        '(valsetUpdatedEvents, err) ← ocall (GetValsetUpdatedEvents startSearchBlock currentBlock);
        match err with
        | Some _ =>
            mret (Some (None, Wrap err "failed to filter past ValsetUpdated events from Ethereum"))
        | None =>
            match sort_Slice reverse_less valsetUpdatedEvents with
            | [] => searchValset fuel' cosmosValset startSearchBlock
            | event :: _ =>
                valset ← valset_of_event cosmosValset event;
                mret (Some (Some valset, None))
            end
        end
  end.

(** One iteration for each 2000 blocks, and one to find block 0. *)
Definition search_fuel (currentBlock : Z) : nat :=
  (Z.to_nat (currentBlock / findValsetBlocksToSearch) + 2)%nat.

Definition findLatestValsetOnEth : prog OrchI (option (option Valset * error)) :=
  '(latestHeader, err) ← ocall GetHeaderByNumber;
  match err with
  | Some _ => mret (Some (None, Wrap err "failed to get latest ethereum header"))
  | None =>
      '(latestEthereumValsetNonce, err) ← ocall GetValsetNonce;
      match err with
      | Some _ => mret (Some (None, Wrap err "failed to get latest valset nonce on Ethereum"))
      | None =>
          nonce ← deref latestEthereumValsetNonce;
          '(cosmosValset, err) ← ocall (ValsetAt (big_Uint64 nonce));
          match err with
          | Some _ => mret (Some (None, Wrap err "failed to get Injective valset"))
          | None =>
              header ← deref latestHeader;
              let currentBlock := big_Uint64 header in
              searchValset (search_fuel currentBlock) cosmosValset currentBlock
          end
      end
  end.

(** [getLatestEthValset]; the search does not run out of fuel
    ([findLatestValsetOnEth_terminates] below), so that case is never taken. *)
Definition out_of_fuel : panicv := PanicValue "out of fuel".

Definition getLatestEthValset (l : Orchestrator) : prog OrchI (option Valset * error) :=
  '(latestEthValset, err) ← retry l (fun latestEthValset =>
    res ← findLatestValsetOnEth;
    match res with
    | None => Panic out_of_fuel
    | Some (vs, err) =>
        match err with
        | Some _ => mret (latestEthValset, err)
        | None => mret (vs, None)
        end
    end) None;
  match err with
  | Some _ => mret (None, err)
  | None => mret (latestEthValset, None)
  end.

(** ** Relaying a validator set *)

(** The loop of [relayValset]: the first set with confirmations. *)
Fixpoint findConfirmedValset (sets : list Valset)
  : prog OrchI (option (Valset * list MsgValsetConfirm) * error) :=
  match sets with
  | [] => mret (None, None)
  | set :: sets' =>
      '(sigs, err) ← ocall (AllValsetConfirms (vs_Nonce set));
      match err with
      | Some _ => mret (None, Wrap err "failed to get validator set confirmations")
      | None =>
          if (length sigs =? 0)%nat then findConfirmedValset sets'
          else mret (Some (set, sigs), None)
      end
  end.

(** [shouldRelayValset] *)
Definition shouldRelayValset (l : Orchestrator) (vs : Valset) : prog OrchI bool :=
  '(latestEthereumValsetNonce, err) ← ocall GetValsetNonce;
  match err with
  | Some _ => mret false
  | None =>
      n ← deref latestEthereumValsetNonce;
      if vs_Nonce vs <=? big_Uint64 n then mret false
      else
        '(block, err) ← ocall (GetBlock (i64 (vs_Height vs)));
        match err with
        | Some _ => mret false
        | None =>
            blockTime ← deref block;
            now ← ocall TimeNow;
            if now - blockTime <=? RelayValsetOffsetDur (cfg l) then mret false else mret true
        end
  end.

(** [relayValset] *)
Definition relayValset (l : Orchestrator) (latestEthValset : Valset) : prog OrchI error :=
  '(latestInjectiveValsets, err) ← ocall LatestValsets;
  match err with
  | Some _ => mret (Wrap err "failed to get latest validator set from Injective")
  | None =>
      '(found, err) ← findConfirmedValset latestInjectiveValsets;
      match err with
      | Some _ => mret err
      | None =>
          match found with
          | None => mret None
          | Some (latestConfirmedValset, confirmations) =>
              should ← shouldRelayValset l latestConfirmedValset;
              if negb (should : bool) then mret None
              else
                '(txHash, err) ←
                  ocall (SendEthValsetUpdate latestEthValset latestConfirmedValset confirmations);
                match err with
                | Some _ => mret err
                | None => _ ← deref txHash; mret None
                end
          end
      end
  end.

(** ** Relaying a batch *)

(** The loop of [relayTokenBatch]: batches that have timed out at the current head
    are skipped; the last one with confirmations is kept. *)
Fixpoint findConfirmedBatch (batches : list OutgoingTxBatch) (head : option Z)
    (found : option (OutgoingTxBatch * list MsgConfirmBatch))
  : prog OrchI (option (OutgoingTxBatch * list MsgConfirmBatch) * error) :=
  match batches with
  | [] => mret (found, None)
  | batch :: batches' =>
      h ← deref head;
      if BatchTimeout batch <=? big_Uint64 h then findConfirmedBatch batches' head found
      else
        '(sigs, err) ←
          ocall (TransactionBatchSignatures (BatchNonce batch) (HexToAddress (TokenContract batch)));
        match err with
        | Some _ => mret (None, err)
        | None =>
            if (length sigs =? 0)%nat then findConfirmedBatch batches' head found
            else findConfirmedBatch batches' head (Some (batch, sigs))
        end
  end.

(** [shouldRelayBatch] *)
Definition shouldRelayBatch (l : Orchestrator) (batch : OutgoingTxBatch) : prog OrchI bool :=
  '(latestEthBatch, err) ← ocall (GetTxBatchNonce (HexToAddress (TokenContract batch)));
  match err with
  | Some _ => mret false
  | None =>
      n ← deref latestEthBatch;
      if BatchNonce batch <=? big_Uint64 n then mret false
      else
        '(blockTime, err) ← ocall (GetBlock (i64 (Block batch)));
        match err with
        | Some _ => mret false
        | None =>
            blockTime ← deref blockTime;
            now ← ocall TimeNow;
            if now - blockTime <=? RelayBatchOffsetDur (cfg l) then mret false else mret true
        end
  end.

(** [relayTokenBatch] *)
Definition relayTokenBatch (l : Orchestrator) (latestEthValset : Valset) : prog OrchI error :=
  '(batches, err) ← ocall LatestTransactionBatches;
  match err with
  | Some _ => mret err
  | None =>
      '(latestEthHeight, err) ← ocall GetHeaderByNumber;
      match err with
      | Some _ => mret err
      | None =>
          '(found, err) ← findConfirmedBatch batches latestEthHeight None;
          match err with
          | Some _ => mret err
          | None =>
              match found with
              | None => mret None
              | Some (oldestConfirmedBatch, confirmations) =>
                  should ← shouldRelayBatch l oldestConfirmedBatch;
                  if negb (should : bool) then mret None
                  else
                    '(txHash, err) ←
                      ocall (SendTransactionBatch latestEthValset oldestConfirmedBatch confirmations);
                    match err with
                    | Some _ => mret None
                    | None => _ ← deref txHash; mret None
                    end
              end
          end
      end
  end.

End relayer.
