(* ===== verification/RelayerFacts.v ===== *)
(** * RelayerFacts: what the relayer finds and what it sends *)
From S2P Require Import Prelude Effects GoFloat Types External Model GoSort Interfaces Relayer.

(** ** The order of validators *)
Lemma EthAddrLessThan_irrefl a : EthAddrLessThan a a = false.
Proof. induction a as [|c a IH]; simpl; [done|]. by rewrite Nat.ltb_irrefl. Qed.

Lemma ascii_nat_inj a b : nat_of_ascii a = nat_of_ascii b -> a = b.
Proof.
  intros H. rewrite <- (ascii_nat_embedding a), <- (ascii_nat_embedding b). by rewrite H.
Qed.

Lemma EthAddrLessThan_total a b :
  EthAddrLessThan a b = false -> EthAddrLessThan b a = false -> a = b.
Proof.
  revert b. induction a as [|c a IH]; intros [|d b]; simpl; try done.
  destruct (Nat.ltb_spec (nat_of_ascii c) (nat_of_ascii d)); [done|].
  destruct (Nat.ltb_spec (nat_of_ascii d) (nat_of_ascii c)); [done|].
  intros H1 H2. rewrite (ascii_nat_inj c d) by lia. by rewrite (IH b).
Qed.

Lemma EthAddrLessThan_trans a b c :
  EthAddrLessThan a b = true -> EthAddrLessThan b c = true -> EthAddrLessThan a c = true.
Proof.
  revert b c. induction a as [|x a IH]; intros [|y b] [|z c]; simpl; try done.
  destruct (Nat.ltb_spec (nat_of_ascii x) (nat_of_ascii y));
    destruct (Nat.ltb_spec (nat_of_ascii y) (nat_of_ascii z));
    destruct (Nat.ltb_spec (nat_of_ascii y) (nat_of_ascii x));
    destruct (Nat.ltb_spec (nat_of_ascii z) (nat_of_ascii y));
    destruct (Nat.ltb_spec (nat_of_ascii x) (nat_of_ascii z));
    destruct (Nat.ltb_spec (nat_of_ascii z) (nat_of_ascii x)); try done; try lia.
  apply IH.
Qed.

(** A strict order in which incomparable elements are equal is a weak order. *)
Lemma strict_total_weak {A} (less : A -> A -> bool) :
  (forall x, less x x = false) ->
  (forall x y z, less x y = true -> less y z = true -> less x z = true) ->
  (forall x y, less x y = false -> less y x = false -> x = y) -> weak_order less.
Proof.
  intros Hi Ht Htot. split; [done|done|]. intros x y z Hxy Hyz.
  destruct (less x z) eqn:E; [|done]. destruct (less y x) eqn:E1.
  - by rewrite (Ht y x z E1 E) in Hyz.
  - by rewrite (Htot x y Hxy E1), Hyz in E.
Qed.

Lemma validator_less_total a b :
  validator_less a b = false -> validator_less b a = false -> a = b.
Proof.
  unfold validator_less. destruct a as [p x], b as [q y]. simpl. rewrite (Z.eqb_sym q p).
  destruct (Z.eqb_spec p q) as [->|Hne].
  - intros H1 H2. by rewrite (EthAddrLessThan_total _ _ H1 H2).
  - rewrite !Z.ltb_ge. lia.
Qed.

Lemma validator_weak_order : weak_order validator_less.
Proof.
  apply strict_total_weak; [| |apply validator_less_total]; unfold validator_less.
  - intros x. by rewrite Z.eqb_refl, EthAddrLessThan_irrefl.
  - intros [p x] [q y] [r z]; simpl.
    destruct (Z.eqb_spec p q), (Z.eqb_spec q r), (Z.eqb_spec p r); subst;
      rewrite ?Z.ltb_lt; try done; try lia; eauto using EthAddrLessThan_trans.
Qed.

(** [BridgeValidators.Sort] is canonical: the result is a permutation of the
    validators in order of decreasing power, ties by address, and does not depend on
    the order they came in nor on the stability of the sort. *)
Lemma BridgeValidators_Sort_canonical l l' :
  l ≡ₚ l' ->
  BridgeValidators_Sort l ≡ₚ l /\ go_sorted validator_less (BridgeValidators_Sort l) /\
  BridgeValidators_Sort l = BridgeValidators_Sort l' /\
  (go_sorted validator_less l' -> BridgeValidators_Sort l = l').
Proof.
  intros Hp. split; [apply sort_Slice_perm|]. split; [apply sort_Slice_sorted, validator_weak_order|].
  split.
  - apply (sort_Slice_unique _ validator_weak_order).
    + rewrite Hp. symmetry. apply sort_Slice_perm.
    + apply sort_Slice_sorted, validator_weak_order.
    + intros x y _ _. apply validator_less_total.
  - intros Hs. apply (sort_Slice_unique _ validator_weak_order); [done|done|].
    intros x y _ _. apply validator_less_total.
Qed.

Lemma count_differences_eq l l' :
  length l = length l' -> count_differences l l' = 0%nat <-> l = l'.
Proof.
  revert l'. induction l as [|[p a] l IH]; intros [|[q b] l']; simpl; try done.
  intros [= Hl]. specialize (IH l' Hl).
  destruct (String.eqb_spec b a) as [->|Ha], (Z.eqb_spec q p) as [->|Hq].
  - simpl. rewrite IH. split; [by intros ->|by intros [= ->]].
  - split; [lia|by intros [=]].
  - split; [lia|by intros [=]].
  - split; [lia|by intros [=]].
Qed.

Lemma checkIfValsetsDiffer_members cosmos eth :
  let v := (checkIfValsetsDiffer cosmos eth).2 in
  vs_Members v ≡ₚ vs_Members eth /\ v = with_members eth (vs_Members v).
Proof.
  destruct cosmos as [c|]; unfold checkIfValsetsDiffer; [|by destruct (_ =? _), eth].
  destruct (negb _); [by destruct eth|]. destruct (negb _); [by destruct eth|].
  simpl. split; [apply sort_Slice_perm|done].
Qed.

(** [checkIfValsetsDiffer] reports two sets as equal exactly when they have one
    nonce and the same members up to order; whatever it reports, the Ethereum set
    keeps its nonce and reward and at most has its members reordered. *)
Lemma checkIfValsetsDiffer_iff cosmos eth :
  ((checkIfValsetsDiffer (Some cosmos) eth).1 = Compared 0 <->
   vs_Nonce cosmos = vs_Nonce eth /\ vs_Members cosmos ≡ₚ vs_Members eth) /\
  forall cosmos', let v := (checkIfValsetsDiffer cosmos' eth).2 in
    vs_Members v ≡ₚ vs_Members eth /\ v = with_members eth (vs_Members v).
Proof.
  split.
  - unfold checkIfValsetsDiffer. destruct (Z.eqb_spec (vs_Nonce cosmos) (vs_Nonce eth)) as [Hn|Hn];
      simpl; [|split; [done|by intros []]].
    destruct (Nat.eqb_spec (length (vs_Members cosmos)) (length (vs_Members eth))) as [Hl|Hl]; simpl.
    2:{ split; [done|]. intros [_ Hp]. by apply Permutation_length in Hp. }
    assert (length (BridgeValidators_Sort (vs_Members cosmos)) =
            length (BridgeValidators_Sort (vs_Members eth))) as Hls
      by (unfold BridgeValidators_Sort; by rewrite !length_sort_Slice).
    transitivity (count_differences (BridgeValidators_Sort (vs_Members cosmos))
                    (BridgeValidators_Sort (vs_Members eth)) = 0%nat).
    { split; [by intros [=]|by intros ->]. }
    rewrite count_differences_eq by done. split.
    + intros Heq. split; [done|]. rewrite <- (sort_Slice_perm validator_less (vs_Members cosmos)).
      unfold BridgeValidators_Sort in Heq. rewrite Heq. apply sort_Slice_perm.
    + intros [_ Hp]. apply (sort_Slice_unique _ validator_weak_order).
      * rewrite Hp. symmetry. apply sort_Slice_perm.
      * apply sort_Slice_sorted, validator_weak_order.
      * intros x y _ _. apply validator_less_total.
  - intros cosmos'. apply checkIfValsetsDiffer_members.
Qed.

(** Members that are in the order of [Sort] stay in place. *)
Lemma checkIfValsetsDiffer_sorted cosmos eth :
  go_sorted validator_less (vs_Members eth) ->
  vs_Members (checkIfValsetsDiffer cosmos eth).2 = vs_Members eth.
Proof.
  intros Hs. destruct cosmos as [c|]; unfold checkIfValsetsDiffer; [|by destruct (_ =? _)].
  destruct (negb _); [done|]. destruct (negb _); [done|]. cbn.
  by apply (proj2 (proj2 (proj2 (BridgeValidators_Sort_canonical (vs_Members eth) (vs_Members eth) (reflexivity _))))).
Qed.

Lemma reverse_weak_order : weak_order reverse_less.
Proof.
  split; unfold reverse_less, valset_event_less; intros; rewrite ?Z.ltb_lt, ?Z.ltb_ge, ?Z.ltb_irrefl in *;
    try lia; done.
Qed.

Section facts.
Context {GE : Geth} {RL : RetryLib OrchI}.

(** ** The search *)

(** The node answers the filter completely. *)
Definition complete_valsets (log : list PeggyValsetUpdatedEvent) (ev : event OrchI) : Prop :=
  match ev with
  | existT (GetValsetUpdatedEvents s e) r =>
      r.2 = None -> forall x, x ∈ log -> s <= vue_BlockNumber x <= e -> x ∈ r.1
  | _ => True
  end.

(** The validator set of an event, up to the order of the members; in their order when that
    is the one of [BridgeValidators.Sort]. *)
Definition is_valset_of (v : Valset) (ev : PeggyValsetUpdatedEvent) : Prop :=
  vs_Nonce v = big_Uint64 (vue_NewValsetNonce ev) /\
  vs_RewardAmount v = Some (vue_RewardAmount ev) /\
  vs_RewardToken v = Address_Hex (vue_RewardToken ev) /\
  exists ms, event_members (vue_Powers ev) (vue_Validators ev) = Some ms /\ vs_Members v ≡ₚ ms /\
    (go_sorted validator_less ms -> vs_Members v = ms).

(** What the search from block [cur] returns. *)
Definition search_post (cur : Z) (tr : list (event OrchI))
    (o : outcome (option (option Valset * error))) : Prop :=
  forall log, Forall (complete_valsets log) tr ->
    match o with
    | Done (Some (Some v, None)) =>
        exists s ev, is_valset_of v ev /\ s < cur /\
          (exists e evs, OEv (GetValsetUpdatedEvents s e) (evs, None) ∈ tr /\ ev ∈ evs) /\
          forall x, x ∈ log -> s <= vue_BlockNumber x <= cur ->
            vue_NewValsetNonce x <= vue_NewValsetNonce ev
    | Done (Some (None, Some (ErrNew _))) =>
        0 < cur -> forall x, x ∈ log -> ~ 0 <= vue_BlockNumber x <= cur
    | Done (Some (None, Some (ErrWrap _ _))) => True
    | Done _ => False
    | Crashed m => m = index_out_of_range /\
        exists s e evs ev, OEv (GetValsetUpdatedEvents s e) (evs, None) ∈ tr /\ ev ∈ evs /\
          event_members (vue_Powers ev) (vue_Validators ev) = None
    end.

Lemma wp_valset_of_event cosmos ev :
  wp (valset_of_event cosmos ev) (fun tr o =>
    tr = [] /\ match o with
               | Done v => is_valset_of v ev
               | Crashed m => m = index_out_of_range /\
                   event_members (vue_Powers ev) (vue_Validators ev) = None
               end).
Proof.
  unfold valset_of_event. destruct (event_members _ _) as [ms|] eqn:E; cbn; [|done].
  split; [done|]. unfold is_valset_of.
  match goal with |- context [checkIfValsetsDiffer cosmos ?v] => set (eth := v) end.
  destruct (checkIfValsetsDiffer_members cosmos eth) as [Hp Hv].
  pose proof (checkIfValsetsDiffer_sorted cosmos eth) as Hs.
  rewrite Hv. cbn. repeat split; try done. exists ms. repeat split; done.
Qed.

(** The fuel is enough to search on from block [cur] down to block 0. *)
Definition enough_fuel (cur : Z) (fuel : nat) : Prop :=
  cur = 0 /\ (1 <= fuel)%nat \/ cur / findValsetBlocksToSearch + 2 <= Z.of_nat fuel.

Lemma enough_fuel_pos cur fuel : 0 <= cur -> enough_fuel cur fuel -> (1 <= fuel)%nat.
Proof.
  intros Hcur [[_ Hf]|Hf]; [done|]. pose proof (Z.div_pos cur findValsetBlocksToSearch Hcur).
  unfold findValsetBlocksToSearch in *. lia.
Qed.

(** The next window ends lower, and one unit less of fuel is enough for it. *)
Lemma next_window cur fuel :
  0 < cur < 2 ^ 64 -> enough_fuel cur (S fuel) ->
  let s := if cur <=? findValsetBlocksToSearch then 0 else u64 (cur - findValsetBlocksToSearch) in
  0 <= s < cur /\ enough_fuel s fuel.
Proof.
  intros Hcur Hfuel s. unfold s, enough_fuel in *. clear s.
  destruct (Z.leb_spec cur findValsetBlocksToSearch) as [Hle|Hgt].
  - split; [lia|]. left. split; [done|]. destruct Hfuel as [[-> _]|Hf]; [lia|].
    pose proof (Z.div_pos cur findValsetBlocksToSearch). unfold findValsetBlocksToSearch in *. lia.
  - rewrite u64_small by (unfold is_u64, findValsetBlocksToSearch in *; lia).
    split; [unfold findValsetBlocksToSearch in *; lia|]. right.
    destruct Hfuel as [[-> _]|Hf']; [unfold findValsetBlocksToSearch in *; lia|].
    replace (cur - findValsetBlocksToSearch) with (cur + (-1) * findValsetBlocksToSearch)
      by (unfold findValsetBlocksToSearch; lia).
    rewrite Z.div_add by done. lia.
Qed.

Lemma wp_searchValset fuel cosmos cur :
  0 <= cur < 2 ^ 64 ->
  enough_fuel cur fuel ->
  wp (searchValset fuel cosmos cur) (search_post cur).
Proof.
  revert cur. induction fuel as [|fuel IH]; intros cur Hcur Hfuel.
  { apply enough_fuel_pos in Hfuel; lia. }
  cbn [searchValset]. destruct (Z.ltb_spec 0 cur) as [Hpos|Hz]; cbn [negb].
  2:{ intros log _. cbn. lia. }
  destruct (next_window cur fuel ltac:(lia) Hfuel) as [Hs Hf].
  set (s := if cur <=? findValsetBlocksToSearch then 0 else u64 (cur - findValsetBlocksToSearch)) in *.
  clearbody s. intros [evs [er|]]; cbn.
  { intros log _. done. }
  destruct (sort_Slice reverse_less evs) as [|ev rest] eqn:Es.
  - eapply wp_mono; [apply (IH s); [lia|done]|].
    intros tr o H log Hall. apply Forall_cons in Hall as [Hc Hall]. specialize (H log Hall).
    assert (evs = []) as ->.
    { apply Permutation_nil_r. rewrite <- (sort_Slice_perm reverse_less evs). by rewrite Es. }
    assert (forall x, x ∈ log -> ~ s <= vue_BlockNumber x <= cur) as Hno.
    { intros x Hx Hb. specialize (Hc eq_refl x Hx Hb). by apply elem_of_nil in Hc. }
    destruct o as [[[[v|] [[e|e m]|]]|]|m]; try done.
    + destruct H as (s' & ev & Hv & Hlt & (e & evs & Hin & He) & Hmax). exists s', ev.
      split; [done|]. split; [lia|]. split; [exists e, evs; split; [by right|done]|].
      intros x Hx Hb. destruct (Z.le_gt_cases (vue_BlockNumber x) s); [apply Hmax; [done|lia]|].
      exfalso. apply (Hno x Hx). lia.
    + intros _ x Hx Hb. destruct (Z.le_gt_cases s (vue_BlockNumber x)); [apply (Hno x Hx); lia|].
      destruct (Z.eq_dec s 0) as [->|]; [lia|]. apply (H ltac:(lia) x Hx). lia.
    + destruct H as (-> & s' & e & evs & ev & Hin & H). split; [done|]. exists s', e, evs, ev.
      split; [by right|done].
  - apply wp_bind. eapply wp_mono; [apply wp_valset_of_event|].
    intros tr o [-> Ho]. destruct o as [v|m]; cbn.
    + apply sort_Slice_head in Es as [Hin Hmax]; [|apply reverse_weak_order].
      intros log Hall. apply Forall_cons in Hall as [Hc _]. exists s, ev. split; [done|].
      split; [lia|]. split; [exists cur, evs; split; [left|done]|].
      intros x Hx Hb. specialize (Hc eq_refl x Hx Hb). apply Hmax in Hc.
      unfold reverse_less, valset_event_less in Hc. apply Z.ltb_ge in Hc. lia.
    + destruct Ho as [-> Hev]. intros log _. split; [done|]. exists s, cur, evs, ev.
      split; [left|]. split; [by apply sort_Slice_head in Es as [Hin _]; [|apply reverse_weak_order]|done].
Qed.

Lemma search_fuel_enough cur :
  0 <= cur -> cur / findValsetBlocksToSearch + 2 <= Z.of_nat (search_fuel cur).
Proof.
  intros H. unfold search_fuel. pose proof (Z.div_pos cur findValsetBlocksToSearch H).
  unfold findValsetBlocksToSearch in *. lia.
Qed.

(** [findLatestValsetOnEth] always returns (the windows reach block 0), and a
    validator set that it returns is, up to the order of its members, that of an
    update event with the highest nonce in its search window; if the node answered
    the filters completely, no update between that window and the chain head was
    missed, and "not found" means that the log has no update up to the head. *)
Lemma findLatestValsetOnEth_latest :
  wp findLatestValsetOnEth (fun tr o =>
    o <> Done None /\
    ((exists head, OEv GetHeaderByNumber (Some head, None) ∈ tr /\
        search_post (big_Uint64 head) tr o) \/
     (exists e m, o = Done (Some (None, Some (ErrWrap e m)))) \/
     o = Crashed nil_dereference)).
Proof.
  unfold findLatestValsetOnEth.
  intros [head [er|]]; cbn; [split; [done|]; right; left; by eexists _, _|].
  intros [n [er|]]; cbn; [split; [done|]; right; left; by eexists _, _|].
  destruct n as [n|]; cbn; [|split; [done|]; by right; right].
  intros [vs [er|]]; cbn; [split; [done|]; right; left; by eexists _, _|].
  destruct head as [head|]; cbn; [|split; [done|]; by right; right].
  pose proof (big_Uint64_range head) as Hr.
  eapply wp_mono.
  - apply (wp_searchValset _ vs (big_Uint64 head) Hr). right. apply search_fuel_enough. apply Hr.
  - intros tr o H. split.
    + intros ->. apply (H []). apply Forall_forall. intros [c r] _. destruct c; try done.
      intros _ x Hx. by apply elem_of_nil in Hx.
    + left. exists head. split; [left|]. intros log Hall.
      do 3 (apply Forall_cons in Hall as [_ Hall]). specialize (H log Hall).
      destruct o as [[[[v|] [[e|e m]|]]|]|m]; try done.
      * destruct H as (s & ev & Hv & Hlt & (e & evs & Hin & He) & Hmax). exists s, ev.
        split; [done|]. split; [done|]. split; [|done]. exists e, evs. split; [|done].
        by do 3 right.
      * destruct H as (-> & s & e & evs & ev & Hin & H). split; [done|]. exists s, e, evs, ev.
        split; [by do 3 right|done].
Qed.

(** ** Relaying *)

(** The block time and the clock readings of a trace show that [offset] has passed. *)
Definition offset_elapsed (tr : list (event OrchI)) (height offset : Z) : Prop :=
  exists t now, OEv (GetBlock (i64 height)) (Some t, None) ∈ tr /\ OEv TimeNow now ∈ tr /\
    offset < now - t.

(** The transactions that a trace asks the Ethereum network to send. *)
Definition valset_send_of (ev : event OrchI) : option (Valset * Valset * list MsgValsetConfirm) :=
  match ev with existT (SendEthValsetUpdate old new confs) _ => Some (old, new, confs) | _ => None end.
Definition valset_sends (tr : list (event OrchI)) := omap valset_send_of tr.

Definition batch_send_of (ev : event OrchI) : option (Valset * OutgoingTxBatch * list MsgConfirmBatch) :=
  match ev with existT (SendTransactionBatch vs b confs) _ => Some (vs, b, confs) | _ => None end.
Definition batch_sends (tr : list (event OrchI)) := omap batch_send_of tr.

#[local] Arguments shouldRelayValset : simpl never.
#[local] Arguments shouldRelayBatch : simpl never.
#[local] Arguments valset_sends : simpl never.
#[local] Arguments batch_sends : simpl never.

Lemma valset_sends_app tr tr' : valset_sends (tr ++ tr') = valset_sends tr ++ valset_sends tr'.
Proof. apply omap_app. Qed.
Lemma valset_sends_cons ev tr : valset_sends (ev :: tr) = valset_sends [ev] ++ valset_sends tr.
Proof. apply (omap_app _ [ev]). Qed.
Lemma batch_sends_app tr tr' : batch_sends (tr ++ tr') = batch_sends tr ++ batch_sends tr'.
Proof. apply omap_app. Qed.
Lemma batch_sends_cons ev tr : batch_sends (ev :: tr) = batch_sends [ev] ++ batch_sends tr.
Proof. apply (omap_app _ [ev]). Qed.

Lemma batch_sends_skip ev tr : batch_send_of ev = None -> batch_sends (ev :: tr) = batch_sends tr.
Proof. intros H. unfold batch_sends. cbn. by rewrite H. Qed.

Lemma wp_findConfirmedValset sets :
  wp (findConfirmedValset sets) (fun tr o =>
    valset_sends tr = [] /\
    forall vs confs, o = Done (Some (vs, confs), None) ->
      vs ∈ sets /\ confs <> [] /\ OEv (AllValsetConfirms (vs_Nonce vs)) (confs, None) ∈ tr).
Proof.
  induction sets as [|set sets IH]; cbn [findConfirmedValset]; [done|].
  intros [sigs [er|]]; cbn; [done|].
  destruct (Nat.eqb_spec (length sigs) 0) as [|Hne].
  - eapply wp_mono; [apply IH|]. intros tr o [Hs H]. split; [by rewrite valset_sends_cons, Hs|].
    intros vs confs Ho. destruct (H vs confs Ho) as (H1 & H2 & H3).
    split; [by right|]. split; [done|by right].
  - cbn. split; [done|]. intros vs confs [= <- <-]. split; [left|]. split; [by intros ->|left].
Qed.

Lemma wp_shouldRelayValset l vs :
  wp (shouldRelayValset l vs) (fun tr o =>
    valset_sends tr = [] /\
    (o = Done true ->
       (exists n, OEv GetValsetNonce (Some n, None) ∈ tr /\ big_Uint64 n < vs_Nonce vs) /\
       offset_elapsed tr (vs_Height vs) (RelayValsetOffsetDur (cfg l)))).
Proof.
  unfold shouldRelayValset. intros [n [er|]]; cbn; [done|]. destruct n as [n|]; cbn; [|done].
  destruct (Z.leb_spec (vs_Nonce vs) (big_Uint64 n)) as [|Hlt]; cbn; [done|].
  intros [t [er|]]; cbn; [done|]. destruct t as [t|]; cbn; [|done]. intros now.
  destruct (Z.leb_spec (now - t) (RelayValsetOffsetDur (cfg l))) as [|Hoff]; cbn; [done|].
  split; [done|]. intros _. split.
  - exists n. split; [left|done].
  - exists t, now. split; [right; left|]. split; [right; right; left|done].
Qed.

(** C19: [relayValset] sends at most one validator set update, from the set it was
    given; the new set is one of the chain's latest sets, has confirmations (the ones
    it passes on), is newer than the contract's, and the relaying offset since its
    block has passed. *)
Theorem relayValset_safe l ethValset :
  wp (relayValset l ethValset) (fun tr _ =>
    valset_sends tr = [] \/
    exists new confs sets, valset_sends tr = [(ethValset, new, confs)] /\
      OEv LatestValsets (sets, None) ∈ tr /\ new ∈ sets /\ confs <> [] /\
      OEv (AllValsetConfirms (vs_Nonce new)) (confs, None) ∈ tr /\
      (exists n, OEv GetValsetNonce (Some n, None) ∈ tr /\ big_Uint64 n < vs_Nonce new) /\
      offset_elapsed tr (vs_Height new) (RelayValsetOffsetDur (cfg l))).
Proof.
  unfold relayValset. intros [sets [er|]]; cbn; [by left|].
  apply wp_bind. eapply wp_mono; [apply wp_findConfirmedValset|]. intros tr1 o1 [Hs1 Hf].
  destruct o1 as [[[[vs confs]|] [er|]]|m]; cbn;
    rewrite ?app_nil_r; try (left; by rewrite valset_sends_cons, Hs1).
  destruct (Hf vs confs eq_refl) as (Hin & Hne & Hconf). clear Hf.
  apply wp_bind. eapply wp_mono; [apply wp_shouldRelayValset|]. intros tr2 o2 [Hs2 Hsh].
  destruct o2 as [[]|m]; cbn;
    rewrite ?app_nil_r; try (left; by rewrite valset_sends_cons, valset_sends_app, Hs1, Hs2).
  destruct (Hsh eq_refl) as [(n & Hn & Hlt) (t & now & Ht & Hnow & Hoff)]. clear Hsh.
  intros [h [er|]]; cbn; [|destruct h; cbn]; right; exists vs, confs, sets;
    (split; [by rewrite valset_sends_cons, !valset_sends_app, Hs1, Hs2|]);
    (split; [left|]); (split; [done|]); (split; [done|]); (split; [set_solver|]);
    (split; [exists n; split; [set_solver|done]|]); exists t, now; set_solver.
Qed.

Lemma wp_findConfirmedBatch batches head found :
  wp (findConfirmedBatch batches head found) (fun tr o =>
    batch_sends tr = [] /\
    forall b confs, o = Done (Some (b, confs), None) ->
      found = Some (b, confs) \/
      b ∈ batches /\ confs <> [] /\
      (exists h, head = Some h /\ big_Uint64 h < BatchTimeout b) /\
      OEv (TransactionBatchSignatures (BatchNonce b) (HexToAddress (TokenContract b))) (confs, None) ∈ tr).
Proof.
  revert found. induction batches as [|b0 batches IH]; intros found; cbn [findConfirmedBatch].
  { split; [done|]. intros b confs [= ->]. by left. }
  destruct head as [h|]; cbn; [|done].
  destruct (Z.leb_spec (BatchTimeout b0) (big_Uint64 h)) as [|Hlt].
  - eapply wp_mono; [apply IH|]. intros tr o [Hs Hres]. split; [done|]. intros b confs Ho.
    destruct (Hres b confs Ho) as [|(Hin & Hrest)]; [by left|right].
    split; [by right|done].
  - intros [sigs [er|]]; cbn; [done|].
    assert (forall found', (found' = found \/ sigs <> [] /\ found' = Some (b0, sigs)) ->
      wp (findConfirmedBatch batches (Some h) found') (fun tr o =>
        batch_sends (OEv (TransactionBatchSignatures (BatchNonce b0) (HexToAddress (TokenContract b0)))
                       (sigs, None) :: tr) = [] /\
        forall b confs, o = Done (Some (b, confs), None) ->
          found = Some (b, confs) \/
          b ∈ b0 :: batches /\ confs <> [] /\
          (exists h', Some h = Some h' /\ big_Uint64 h' < BatchTimeout b) /\
          OEv (TransactionBatchSignatures (BatchNonce b) (HexToAddress (TokenContract b))) (confs, None) ∈
            OEv (TransactionBatchSignatures (BatchNonce b0) (HexToAddress (TokenContract b0))) (sigs, None) :: tr))
      as Hnext.
    { intros found' Hf. eapply wp_mono; [apply IH|]. intros tr o [Hs H].
      split; [by rewrite batch_sends_cons, Hs|]. intros b confs Ho.
      destruct (H b confs Ho) as [Heq|(H1 & H2 & H3 & H4)].
      - destruct Hf as [->|[Hne ->]]; [by left|]. injection Heq as <- <-. right.
        split; [left|]. split; [done|]. split; [by exists h|left].
      - right. split; [by right|]. split; [done|]. split; [done|by right]. }
    destruct (Nat.eqb_spec (length sigs) 0) as [|Hne]; apply Hnext; [by left|].
    right. split; [by intros ->|done].
Qed.

Lemma wp_shouldRelayBatch l b :
  wp (shouldRelayBatch l b) (fun tr o =>
    batch_sends tr = [] /\
    (o = Done true ->
       (exists n, OEv (GetTxBatchNonce (HexToAddress (TokenContract b))) (Some n, None) ∈ tr /\
          big_Uint64 n < BatchNonce b) /\
       offset_elapsed tr (Block b) (RelayBatchOffsetDur (cfg l)))).
Proof.
  unfold shouldRelayBatch. intros [n [er|]]; cbn; [done|]. destruct n as [n|]; cbn; [|done].
  destruct (Z.leb_spec (BatchNonce b) (big_Uint64 n)) as [|Hlt]; cbn; [done|].
  intros [t [er|]]; cbn; [done|]. destruct t as [t|]; cbn; [|done]. intros now.
  destruct (Z.leb_spec (now - t) (RelayBatchOffsetDur (cfg l))) as [|Hoff]; cbn; [done|].
  split; [done|]. intros _. split.
  - exists n. split; [left|done].
  - exists t, now. split; [right; left|]. split; [right; right; left|done].
Qed.

(** C20: [relayTokenBatch] sends at most one batch, with the validator set it was
    given; the batch is one of the chain's latest, has confirmations (the ones it
    passes on), has not timed out at the reported head, is newer than the contract's
    last batch of the token, and the relaying offset since its block has passed. *)
Theorem relayTokenBatch_safe l ethValset :
  wp (relayTokenBatch l ethValset) (fun tr _ =>
    batch_sends tr = [] \/
    exists b confs batches, batch_sends tr = [(ethValset, b, confs)] /\
      OEv LatestTransactionBatches (batches, None) ∈ tr /\ b ∈ batches /\ confs <> [] /\
      OEv (TransactionBatchSignatures (BatchNonce b) (HexToAddress (TokenContract b))) (confs, None) ∈ tr /\
      (exists h, OEv GetHeaderByNumber (Some h, None) ∈ tr /\ big_Uint64 h < BatchTimeout b) /\
      (exists n, OEv (GetTxBatchNonce (HexToAddress (TokenContract b))) (Some n, None) ∈ tr /\
         big_Uint64 n < BatchNonce b) /\
      offset_elapsed tr (Block b) (RelayBatchOffsetDur (cfg l))).
Proof.
  unfold relayTokenBatch. intros [batches [er|]]; cbn; [by left|].
  intros [head [er|]]; cbn; [by left|].
  apply wp_bind. eapply wp_mono; [apply wp_findConfirmedBatch|]. intros tr1 o1 [Hs1 Hf].
  destruct o1 as [[[[b confs]|] [er|]]|m]; cbn; rewrite ?app_nil_r;
    try (left; by rewrite 2!batch_sends_skip, Hs1 by done).
  destruct (Hf b confs eq_refl) as [|(Hin & Hne & (h & -> & Hlt) & Hconf)]; [done|]. clear Hf.
  apply wp_bind. eapply wp_mono; [apply wp_shouldRelayBatch|]. intros tr2 o2 [Hs2 Hsh].
  destruct o2 as [[]|m]; cbn; rewrite ?app_nil_r;
    try (left; by rewrite 2!batch_sends_skip, batch_sends_app, Hs1, Hs2 by done).
  destruct (Hsh eq_refl) as [(n & Hn & Hltn) (t & now & Ht & Hnow & Hoff)]. clear Hsh.
  intros [hash [er|]]; cbn; [|destruct hash; cbn]; right; exists b, confs, batches;
    (split; [by rewrite 2!batch_sends_skip, !batch_sends_app, Hs1, Hs2 by done|]);
    (split; [left|]); (split; [done|]); (split; [done|]); (split; [set_solver|]);
    (split; [exists h; split; [right; left|done]|]);
    (split; [exists n; split; [set_solver|done]|]); exists t, now; set_solver.
Qed.

End facts.

Lemma BridgeValidators_Sort_canonical_witness :
  BridgeValidators_Sort [MkBridgeValidator 1 "b"; MkBridgeValidator 2 "a"; MkBridgeValidator 1 "a"] =
  [MkBridgeValidator 2 "a"; MkBridgeValidator 1 "a"; MkBridgeValidator 1 "b"].
Proof.
  assert ([MkBridgeValidator 1 "b"; MkBridgeValidator 2 "a"; MkBridgeValidator 1 "a"] ≡ₚ
          [MkBridgeValidator 2 "a"; MkBridgeValidator 1 "a"; MkBridgeValidator 1 "b"]) as Hp
    by (apply (Permutation_cons_app [MkBridgeValidator 2 "a"; MkBridgeValidator 1 "a"] []); done).
  destruct (BridgeValidators_Sort_canonical _ _ Hp) as (_ & _ & _ & H). apply H. clear H Hp.
  intros [|[|[|i]]] [|[|[|j]]] x y Hx Hy Hij; simpl in *; try lia; try done;
    injection Hx as <-; injection Hy as <-; done.
Defined.
