(* ===== verification/Query.v ===== *)
(** * Query: the chain queries (orchestrator/cosmos/peggy/query.go)

    [queryClient] calls the generated gRPC client of the chain's peggy module, which
    is not part of the repository: its methods are the commands of [GrpcI], whose
    reply is the response (nil or a message, of which the one field used is kept)
    and an error.  [queries] implements the query commands of [OrchI]. *)
From S2P Require Import Prelude Effects GoFloat Types External Model Interfaces.

Inductive grpc_cmd : Type :=
  | ValsetRequest (nonce : Z)
  | RpcCurrentValset
  | LastPendingValsetRequestByAddr (address : string)
  | LastValsetRequests
  | ValsetConfirmsByNonce (nonce : Z)
  | LastPendingBatchRequestByAddr (address : string)
  | OutgoingTxBatches
  | RpcBatchFees
  | BatchConfirms (nonce : Z) (contractAddress : string)
  | LastEventByAddr (address : string)
  | RpcParams
  | GetDelegateKeyByEth (ethAddress : string).

(** The field of the response that the client returns. *)
Definition grpc_field (c : grpc_cmd) : Type :=
  match c with
  | ValsetRequest _ | RpcCurrentValset => option Valset
  | LastPendingValsetRequestByAddr _ | LastValsetRequests => list Valset
  | ValsetConfirmsByNonce _ => list MsgValsetConfirm
  | LastPendingBatchRequestByAddr _ => option OutgoingTxBatch
  | OutgoingTxBatches => list OutgoingTxBatch
  | RpcBatchFees => list BatchFees
  | BatchConfirms _ _ => list MsgConfirmBatch
  | LastEventByAddr _ => option LastClaimEvent
  | RpcParams => Params
  | GetDelegateKeyByEth _ => string
  end.

Definition GrpcI : Iface := MkIface grpc_cmd (fun c => (option (grpc_field c) * error)%type).
Definition gcall (c : grpc_cmd) : prog GrpcI (option (grpc_field c) * error) := @call GrpcI c.

(** [AccAddressFromBech32] of the Cosmos SDK. *)
Class Bech32 : Type := { AccAddressFromBech32 : string -> AccAddress * error }.

Definition ErrNotFound : err := ErrNew "not found".

Section query.
Context {GE : Geth} {BE : Bech32}.

(** [ValsetAt] *)
Definition ValsetAt (nonce : Z) : prog GrpcI (option Valset * error) :=
  '(resp, err) ← gcall (ValsetRequest nonce);
  match err with
  | Some _ => mret (None, Wrap err "failed to query ValsetRequest from client")
  | None => match resp with None => mret (None, Some ErrNotFound) | Some v => mret (v, None) end
  end.

(** [CurrentValset] *)
Definition CurrentValset : prog GrpcI (option Valset * error) :=
  '(resp, err) ← gcall RpcCurrentValset;
  match err with
  | Some _ => mret (None, Wrap err "failed to query CurrentValset from client")
  | None => match resp with None => mret (None, Some ErrNotFound) | Some v => mret (v, None) end
  end.

(** [OldestUnsignedValsets] *)
Definition OldestUnsignedValsets (valAccountAddress : AccAddress) : prog GrpcI (list Valset * error) :=
  '(resp, err) ← gcall (LastPendingValsetRequestByAddr valAccountAddress);
  match err with
  | Some _ => mret ([], Wrap err "failed to query LastPendingValsetRequestByAddr from client")
  | None => match resp with None => mret ([], Some ErrNotFound) | Some v => mret (v, None) end
  end.

(** [LatestValsets] *)
Definition LatestValsets : prog GrpcI (list Valset * error) :=
  '(resp, err) ← gcall LastValsetRequests;
  match err with
  | Some _ => mret ([], Wrap err "failed to query LastValsetRequests from daemon")
  | None => match resp with None => mret ([], Some ErrNotFound) | Some v => mret (v, None) end
  end.

(** [AllValsetConfirms] *)
Definition AllValsetConfirms (nonce : Z) : prog GrpcI (list MsgValsetConfirm * error) :=
  '(resp, err) ← gcall (ValsetConfirmsByNonce nonce);
  match err with
  | Some _ => mret ([], Wrap err "failed to query ValsetConfirmsByNonce from daemon")
  | None => match resp with None => mret ([], Some ErrNotFound) | Some v => mret (v, None) end
  end.

(** [OldestUnsignedTransactionBatch] *)
Definition OldestUnsignedTransactionBatch (valAccountAddress : AccAddress)
  : prog GrpcI (option OutgoingTxBatch * error) :=
  '(resp, err) ← gcall (LastPendingBatchRequestByAddr valAccountAddress);
  match err with
  | Some _ => mret (None, Wrap err "failed to query LastPendingBatchRequestByAddr from daemon")
  | None => match resp with None => mret (None, Some ErrNotFound) | Some v => mret (v, None) end
  end.

(** [LatestTransactionBatches] *)
Definition LatestTransactionBatches : prog GrpcI (list OutgoingTxBatch * error) :=
  '(resp, err) ← gcall OutgoingTxBatches;
  match err with
  | Some _ => mret ([], Wrap err "failed to query OutgoingTxBatches from daemon")
  | None => match resp with None => mret ([], Some ErrNotFound) | Some v => mret (v, None) end
  end.

(** [UnbatchedTokensWithFees] *)
Definition UnbatchedTokensWithFees : prog GrpcI (list BatchFees * error) :=
  '(resp, err) ← gcall RpcBatchFees;
  match err with
  | Some _ => mret ([], Wrap err "failed to query BatchFees from daemon")
  | None => match resp with None => mret ([], Some ErrNotFound) | Some v => mret (v, None) end
  end.

(** [TransactionBatchSignatures]: [tokenContract.String()] is its hex form. *)
Definition TransactionBatchSignatures (nonce : Z) (tokenContract : Address)
  : prog GrpcI (list MsgConfirmBatch * error) :=
  '(resp, err) ← gcall (BatchConfirms nonce (Address_Hex tokenContract));
  match err with
  | Some _ => mret ([], Wrap err "failed to query BatchConfirms from daemon")
  | None => match resp with None => mret ([], Some ErrNotFound) | Some v => mret (v, None) end
  end.

(** [LastClaimEventByAddr] *)
Definition LastClaimEventByAddr (validatorAccountAddress : AccAddress)
  : prog GrpcI (option LastClaimEvent * error) :=
  '(resp, err) ← gcall (LastEventByAddr validatorAccountAddress);
  match err with
  | Some _ => mret (None, Wrap err "failed to query LastEventByAddr from daemon")
  | None => match resp with None => mret (None, Some ErrNotFound) | Some v => mret (v, None) end
  end.

(** [PeggyParams] *)
Definition PeggyParams : prog GrpcI (option Params * error) :=
  '(resp, err) ← gcall RpcParams;
  match err with
  | Some _ => mret (None, Wrap err "failed to query PeggyParams from daemon")
  | None => match resp with None => mret (None, Some ErrNotFound) | Some v => mret (Some v, None) end
  end.

(** [GetValidatorAddress] *)
Definition GetValidatorAddress (addr : Address) : prog GrpcI (option AccAddress * error) :=
  '(resp, err) ← gcall (GetDelegateKeyByEth (Address_Hex addr));
  match err with
  | Some _ => mret (None, Wrap err "failed to query GetDelegateKeyByEth from client")
  | None =>
      match resp with
      | None => mret (None, Some ErrNotFound)
      | Some validatorAddress =>
          let '(valAddr, err) := AccAddressFromBech32 validatorAddress in
          match err with
          | Some _ => mret (None, Wrap err ("failed to decode validator address: " ++ validatorAddress))
          | None => mret (Some valAddr, None)
          end
      end
  end.

(** ** The contract of the queries *)

(** A query makes the one call [c]; it returns an error exactly when the call does
    or the response is nil, and otherwise [ok] of the field. *)
Definition query_spec {A} (c : grpc_cmd) (ok : grpc_field c -> A * error)
    (p : prog GrpcI (A * error)) : Prop :=
  wp p (fun tr o => exists resp err, tr = [@Ev GrpcI c (resp, err)] /\
    match err, resp with
    | Some e, _ => exists a msg, o = Done (a, Some (ErrWrap e msg))
    | None, None => exists a, o = Done (a, Some ErrNotFound)
    | None, Some v => o = Done (ok v)
    end).

Ltac solve_query :=
  intros [resp [e|]]; cbn; [|destruct resp; cbn];
  eexists _, _; (split; [reflexivity|]); cbn; try reflexivity; eexists; try eexists; reflexivity.

(** Each of the chain queries makes one call with the right request, passes on
    the field of the response unchanged, and reports an error (wrapped, or "not
    found") exactly when the call fails or the response is nil; none of them panics. *)
Lemma queries_correct nonce addr token :
  query_spec (ValsetRequest nonce) (fun v => (v, None)) (ValsetAt nonce) /\
  query_spec RpcCurrentValset (fun v => (v, None)) CurrentValset /\
  query_spec (LastPendingValsetRequestByAddr addr) (fun v => (v, None)) (OldestUnsignedValsets addr) /\
  query_spec LastValsetRequests (fun v => (v, None)) LatestValsets /\
  query_spec (ValsetConfirmsByNonce nonce) (fun v => (v, None)) (AllValsetConfirms nonce) /\
  query_spec (LastPendingBatchRequestByAddr addr) (fun v => (v, None))
    (OldestUnsignedTransactionBatch addr) /\
  query_spec OutgoingTxBatches (fun v => (v, None)) LatestTransactionBatches /\
  query_spec RpcBatchFees (fun v => (v, None)) UnbatchedTokensWithFees /\
  query_spec (BatchConfirms nonce (Address_Hex token)) (fun v => (v, None))
    (TransactionBatchSignatures nonce token) /\
  query_spec (LastEventByAddr addr) (fun v => (v, None)) (LastClaimEventByAddr addr) /\
  query_spec RpcParams (fun v => (Some v, None)) PeggyParams.
Proof. repeat split; unfold query_spec; solve_query. Qed.

(** [GetValidatorAddress] returns an address exactly when the call succeeds
    and the validator address of the response decodes. *)
Lemma GetValidatorAddress_correct addr :
  query_spec (GetDelegateKeyByEth (Address_Hex addr))
    (fun s => match AccAddressFromBech32 s with
              | (a, None) => (Some a, None)
              | (_, Some e) => (None, Some (ErrWrap e ("failed to decode validator address: " ++ s)))
              end) (GetValidatorAddress addr).
Proof.
  unfold query_spec, GetValidatorAddress. intros [resp [e|]]; cbn.
  { eexists _, _. split; [reflexivity|]. cbn. by eexists _, _. }
  destruct resp as [s|]; cbn.
  - destruct (AccAddressFromBech32 s) as [a [e|]] eqn:E; cbn; eexists _, _;
      (split; [reflexivity|]); cbn; by rewrite E.
  - eexists _, _. split; [reflexivity|]. cbn. by eexists.
Qed.

End query.
