(* ===== verification/Broadcast.v ===== *)
(** * Broadcast: messages sent to the chain (orchestrator/cosmos/peggy/broadcast.go)

    [broadcastClient] over the chain client of the SDK, the Ethereum signing function
    and its mutex.  Deferred calls run before a panic leaves the function: the sleep,
    then the unlock. *)
From S2P Require Import Prelude Effects GoFloat Types External Model PeggySol Confirmations.
From S2P Require Import Checkpoint Interfaces GoSort Oracle OracleFacts.

(** [AccAddress(bytes).String()] of the Cosmos SDK. *)
Class Cosmos : Type := { AccAddress_String : bytes -> AccAddress }.

(** The messages of [peggytypes] that the client builds. *)
Inductive Msg : Type :=
  | MsgSetOrchestratorAddresses (Sender Orchestrator : AccAddress) (EthAddress : string)
  | MsgValsetConfirm_ (m : MsgValsetConfirm)
  | MsgConfirmBatch_ (m : MsgConfirmBatch)
  | MsgSendToEth (Sender : AccAddress) (EthDest : string) (Amount BridgeFee : Coin)
  | MsgRequestBatch (Orchestrator : AccAddress) (Denom : string)
  | MsgDepositClaim (EventNonce BlockHeight : Z) (TokenContract : string) (Amount : option Z)
      (EthereumSender : string) (CosmosReceiver Orchestrator : AccAddress) (Data : string)
  | MsgWithdrawClaim (EventNonce BlockHeight BatchNonce : Z) (TokenContract : string)
      (Orchestrator : AccAddress)
  | MsgValsetUpdatedClaim (EventNonce ValsetNonce BlockHeight : Z) (RewardAmount : option Z)
      (RewardToken : string) (Members : list BridgeValidator) (Orchestrator : AccAddress)
  | MsgERC20DeployedClaim (EventNonce BlockHeight : Z) (CosmosDenom TokenContract Name Symbol : string)
      (Decimals : Z) (Orchestrator : AccAddress).

(** [resp.TxResponse] *)
Record TxResponse : Type := MkTxResponse { Code : Z; RawLog : string }.

Inductive chain_cmd : Type :=
  | FromAddress
  | BroadcastMsg (m : Msg)
  | QueueBroadcastMsg (m : Msg)
  | EthSign (from : Address) (data : bytes)
  | Lock
  | Unlock
  | Sleep (d : Z).

Definition chain_reply (c : chain_cmd) : Type :=
  match c with
  | FromAddress => AccAddress
  | BroadcastMsg _ => option TxResponse * error
  | QueueBroadcastMsg _ => error
  | EthSign _ _ => bytes * error
  | Lock | Unlock | Sleep _ => unit
  end.

Definition ChainI : Iface := MkIface chain_cmd chain_reply.
Definition ccall (c : chain_cmd) : prog ChainI (chain_reply c) := @call ChainI c.

Definition broadcastMsgSleepDuration : Z := 1200 * Millisecond.

Section broadcast.
Context {GE : Geth} {CO : Cosmos}.

(** The end of every method: lock, broadcast, and the deferred sleep and unlock. *)
Definition broadcast (name : string) (msg : Msg) : prog ChainI error :=
  _ ← ccall Lock;
  '(resp, err) ← ccall (BroadcastMsg msg);
  _ ← ccall (Sleep broadcastMsgSleepDuration);
  _ ← ccall Unlock;
  match err with
  | Some _ => mret (Wrap err ("failed to broadcast " ++ name))
  | None =>
      resp ← deref resp;
      if negb (Code resp =? 0)
      then mret (Some (ErrNew ("failed to broadcast " ++ name ++ ": " ++ RawLog resp)))
      else mret None
  end.

(** [UpdatePeggyOrchestratorAddresses] *)
Definition UpdatePeggyOrchestratorAddresses (ethFrom : Address) (orchAddr : AccAddress)
  : prog ChainI error :=
  from ← ccall FromAddress;
  broadcast "MsgSetOrchestratorAddresses" (MsgSetOrchestratorAddresses from orchAddr (Address_Hex ethFrom)).

Definition errSign : err := ErrNew "failed to sign validator address".

Definition encode_panic : panicv := PanicValue "Invalid reward amount passed in valset GetCheckpoint!".

(** [SendValsetConfirm] *)
Definition SendValsetConfirm (ethFrom : Address) (peggyID : Hash) (valset : Valset)
  : prog ChainI error :=
  match EncodeValsetConfirm peggyID valset with
  | None => Panic encode_panic
  | Some confirmHash =>
      '(signature, err) ← ccall (EthSign ethFrom (abi_word confirmHash));
      match err with
      | Some _ => mret (Some errSign)
      | None =>
          from ← ccall FromAddress;
          broadcast "MsgValsetConfirm"
            (MsgValsetConfirm_ (MkMsgValsetConfirm from (Address_Hex ethFrom) (vs_Nonce valset)
                                  (Bytes2Hex signature)))
      end
  end.

(** [SendBatchConfirm] *)
Definition SendBatchConfirm (ethFrom : Address) (peggyID : Hash) (batch : OutgoingTxBatch)
  : prog ChainI error :=
  match EncodeTxBatchConfirm peggyID batch with
  | None => Panic nil_dereference
  | Some confirmHash =>
      '(signature, err) ← ccall (EthSign ethFrom (abi_word confirmHash));
      match err with
      | Some _ => mret (Some errSign)
      | None =>
          from ← ccall FromAddress;
          broadcast "MsgConfirmBatch"
            (MsgConfirmBatch_ (MkMsgConfirmBatch from (BatchNonce batch) (Bytes2Hex signature)
                                 (Address_Hex ethFrom) (TokenContract batch)))
      end
  end.

(** [SendToEth]: queued instead of broadcast. *)
Definition SendToEth (destination : Address) (amount fee : Coin) : prog ChainI error :=
  from ← ccall FromAddress;
  _ ← ccall Lock;
  err ← ccall (QueueBroadcastMsg (MsgSendToEth from (Address_Hex destination) amount fee));
  _ ← ccall (Sleep broadcastMsgSleepDuration);
  _ ← ccall Unlock;
  mret (Wrap err "broadcasting MsgSendToEth failed").

(** [SendRequestBatch] *)
Definition SendRequestBatch (denom : string) : prog ChainI error :=
  from ← ccall FromAddress;
  broadcast "MsgRequestBatch" (MsgRequestBatch from denom).

(** [AccAddress(destination[12:32]).String()] *)
Definition receiver (destination : Hash) : AccAddress := AccAddress_String (drop 12 (abi_word destination)).

(** [SendOldDepositClaim] *)
Definition SendOldDepositClaim (deposit : PeggySendToCosmosEvent) : prog ChainI error :=
  from ← ccall FromAddress;
  broadcast "MsgDepositClaim"
    (MsgDepositClaim (big_Uint64 (stc_EventNonce deposit)) (stc_BlockNumber deposit)
       (Address_Hex (stc_TokenContract deposit)) (Some (stc_Amount deposit))
       (Address_Hex (stc_Sender deposit)) (receiver (stc_Destination deposit)) from "").

(** [SendDepositClaim] *)
Definition SendDepositClaim (deposit : PeggySendToInjectiveEvent) : prog ChainI error :=
  from ← ccall FromAddress;
  broadcast "MsgDepositClaim"
    (MsgDepositClaim (big_Uint64 (sti_EventNonce deposit)) (sti_BlockNumber deposit)
       (Address_Hex (sti_TokenContract deposit)) (Some (sti_Amount deposit))
       (Address_Hex (sti_Sender deposit)) (receiver (sti_Destination deposit)) from
       (sti_Data deposit)).

(** [SendWithdrawalClaim] *)
Definition SendWithdrawalClaim (withdrawal : PeggyTransactionBatchExecutedEvent) : prog ChainI error :=
  from ← ccall FromAddress;
  broadcast "MsgWithdrawClaim"
    (MsgWithdrawClaim (big_Uint64 (tbe_EventNonce withdrawal)) (tbe_BlockNumber withdrawal)
       (big_Uint64 (tbe_BatchNonce withdrawal)) (Address_Hex (tbe_Token withdrawal)) from).

(** The members of a valset event: [Powers[i]] panics when it is missing. *)
Fixpoint claim_members (validators : list Address) (powers : list Z) : option (list BridgeValidator) :=
  match validators with
  | [] => Some []
  | val :: validators' =>
      match powers with
      | [] => None
      | p :: powers' =>
          ms ← claim_members validators' powers';
          Some (MkBridgeValidator (big_Uint64 p) (Address_Hex val) :: ms)
      end
  end.

(** [SendValsetClaim] *)
Definition SendValsetClaim (vs : PeggyValsetUpdatedEvent) : prog ChainI error :=
  match claim_members (vue_Validators vs) (vue_Powers vs) with
  | None => Panic (PanicError (ErrNew "runtime error: index out of range"))
  | Some members =>
      from ← ccall FromAddress;
      broadcast "MsgValsetUpdatedClaim"
        (MsgValsetUpdatedClaim (big_Uint64 (vue_EventNonce vs)) (big_Uint64 (vue_NewValsetNonce vs))
           (vue_BlockNumber vs) (Some (vue_RewardAmount vs)) (Address_Hex (vue_RewardToken vs))
           members from)
  end.

(** [SendERC20DeployedClaim] *)
Definition SendERC20DeployedClaim (erc20 : PeggyERC20DeployedEvent) : prog ChainI error :=
  from ← ccall FromAddress;
  broadcast "MsgERC20DeployedClaim"
    (MsgERC20DeployedClaim (big_Uint64 (erc_EventNonce erc20)) (erc_BlockNumber erc20)
       (erc_CosmosDenom erc20) (Address_Hex (erc_TokenContract erc20)) (erc_Name erc20)
       (erc_Symbol erc20) (erc_Decimals erc20) from).

(** The claim that [oracle.sendEthEventClaim] sends for an event. *)
Definition send_claim (ev : Oracle.event) : prog ChainI error :=
  match ev with
  | oldDeposit e => SendOldDepositClaim e
  | deposit e => SendDepositClaim e
  | valsetUpdate e => SendValsetClaim e
  | withdrawal e => SendWithdrawalClaim e
  | erc20Deployment e => SendERC20DeployedClaim e
  end.

(** ** Properties *)

(** The messages broadcast in a trace. *)
Definition broadcasts (tr : list (Effects.event ChainI)) : list Msg :=
  omap (fun ev : Effects.event ChainI => match ev with
                 | existT (BroadcastMsg m) _ => Some m
                 | _ => None
                 end) tr.

(** The critical section of a broadcast: one message between lock and unlock, and the
    sleep before the unlock. *)
Definition one_broadcast (m : Msg) (tr : list (Effects.event ChainI)) (o : outcome error) : Prop :=
  exists resp err,
    tr = [@Ev ChainI Lock tt; @Ev ChainI (BroadcastMsg m) (resp, err);
          @Ev ChainI (Sleep broadcastMsgSleepDuration) tt; @Ev ChainI Unlock tt] /\
    (o = Done None <-> err = None /\ exists r, resp = Some r /\ Code r = 0) /\
    ((exists v, o = Crashed v) <-> err = None /\ resp = None).

Lemma wp_broadcast name m : wp (broadcast name m) (one_broadcast m).
Proof.
  intros [] [resp err] [] []. cbn. destruct err as [e|]; cbn.
  - exists resp, (Some e). split; [done|]. split; split; try done; [by intros []|by intros []|by intros []].
  - destruct resp as [r|]; cbn.
    + destruct (Z.eqb_spec (Code r) 0) as [H|H]; cbn; exists (Some r), None; (split; [done|]);
        split; split; try done; try (by intros []); try (by intros [_ [=]]).
      * intros _. split; [done|]. by exists r.
      * intros [_ (r' & [= <-] & Hc)]. done.
    + exists None, None. split; [done|]. split; split; try done; try (by intros []).
      * intros [_ (r & [=] & _)].
      * intros _. by eexists.
Qed.

#[local] Arguments broadcast : simpl never.

(** What a claim message, sent by [from], says of its event. *)
Definition claim_says (from : AccAddress) (ev : Oracle.event) (m : Msg) : Prop :=
  match ev, m with
  | oldDeposit e, MsgDepositClaim n h token amount sender to orch data =>
      n = Nonce ev /\ h = event_block ev /\ token = Address_Hex (stc_TokenContract e) /\
      amount = Some (stc_Amount e) /\ sender = Address_Hex (stc_Sender e) /\
      to = receiver (stc_Destination e) /\ orch = from /\ data = EmptyString
  | deposit e, MsgDepositClaim n h token amount sender to orch data =>
      n = Nonce ev /\ h = event_block ev /\ token = Address_Hex (sti_TokenContract e) /\
      amount = Some (sti_Amount e) /\ sender = Address_Hex (sti_Sender e) /\
      to = receiver (sti_Destination e) /\ orch = from /\ data = sti_Data e
  | withdrawal e, MsgWithdrawClaim n h batch token orch =>
      n = Nonce ev /\ h = event_block ev /\ batch = big_Uint64 (tbe_BatchNonce e) /\
      token = Address_Hex (tbe_Token e) /\ orch = from
  | valsetUpdate e, MsgValsetUpdatedClaim n set h amount token members orch =>
      n = Nonce ev /\ h = event_block ev /\ set = big_Uint64 (vue_NewValsetNonce e) /\
      amount = Some (vue_RewardAmount e) /\ token = Address_Hex (vue_RewardToken e) /\
      map EthereumAddress members = map Address_Hex (vue_Validators e) /\
      map Power members = map big_Uint64 (take (length (vue_Validators e)) (vue_Powers e)) /\ orch = from
  | erc20Deployment e, MsgERC20DeployedClaim n h denom token name symbol decimals orch =>
      n = Nonce ev /\ h = event_block ev /\ denom = erc_CosmosDenom e /\
      token = Address_Hex (erc_TokenContract e) /\ name = erc_Name e /\ symbol = erc_Symbol e /\
      decimals = erc_Decimals e /\ orch = from
  | _, _ => False
  end.

(** A validator set event with a power for every validator; the other kinds always qualify. *)
Definition claimable (ev : Oracle.event) : Prop :=
  match ev with
  | valsetUpdate e => (length (vue_Validators e) <= length (vue_Powers e))%nat
  | _ => True
  end.

Lemma claim_members_spec validators powers :
  match claim_members validators powers with
  | Some ms => (length validators <= length powers)%nat /\
      map EthereumAddress ms = map Address_Hex validators /\
      map Power ms = map big_Uint64 (take (length validators) powers)
  | None => (length powers < length validators)%nat
  end.
Proof.
  revert powers. induction validators as [|val validators IH]; intros powers; cbn; [split; [lia|done]|].
  destruct powers as [|p powers]; cbn; [lia|]. specialize (IH powers).
  destruct (claim_members validators powers) as [ms|]; cbn; [|lia].
  destruct IH as (Hl & He & Hp). rewrite He, Hp. split; [lia|done].
Qed.

Definition index_out_of_range : panicv := PanicError (ErrNew "runtime error: index out of range").

(** C28: the claim of an event is one message that says what the event says (its nonce, block,
    token, amount, parties, members), in the name of the client's account, broadcast under the
    mutex with the sleep before the unlock; it reports success exactly when the broadcast was
    accepted with code 0 (and panics when it returns neither a response nor an error).  The
    exception is the event of a validator set that has fewer powers than validators: its claim
    panics before anything is sent. *)
Theorem send_claim_correct ev :
  wp (send_claim ev) (fun tr o =>
    (claimable ev -> exists from m tr', tr = @Ev ChainI FromAddress from :: tr' /\
       claim_says from ev m /\ one_broadcast m tr' o) /\
    (~ claimable ev -> tr = [] /\ o = Crashed index_out_of_range)).
Proof.
  destruct ev as [e|e|e|e|e]; unfold send_claim, SendOldDepositClaim, SendDepositClaim,
    SendValsetClaim, SendWithdrawalClaim, SendERC20DeployedClaim;
    try (intros from; eapply wp_mono; [apply wp_broadcast|];
         intros tr o H; split; [|by intros []]; intros _; eexists from, _, tr; split; [done|];
         split; [|exact H]; by repeat split).
  pose proof (claim_members_spec (vue_Validators e) (vue_Powers e)) as Hm.
  destruct (claim_members _ _) as [ms|]; cbn -[broadcast]; [|split; [lia|done]].
  destruct Hm as (Hl & Ha & Hp). intros from; eapply wp_mono; [apply wp_broadcast|].
  intros tr o H; split; [|lia]. intros _. eexists from, _, tr; split; [done|]; split; [|exact H]. by repeat split.
Qed.

(** What an orchestrator confirms is what the contract checks: the signature
    that [SendValsetConfirm] broadcasts, decoded, is the signature of the signing
    function over the checkpoint that [Peggy.sol] computes for the set. *)
Lemma SendValsetConfirm_signs_checkpoint ethFrom peggyID vs a :
  small (vs_Nonce vs) -> Forall (fun m => small (Power m)) (vs_Members vs) ->
  valset_args_of vs = Some a ->
  wp (SendValsetConfirm ethFrom peggyID vs) (fun tr o =>
    forall m, m ∈ broadcasts tr ->
      exists from sig, m = MsgValsetConfirm_ (MkMsgValsetConfirm from (Address_Hex ethFrom)
                                               (vs_Nonce vs) (Bytes2Hex sig)) /\
        @Ev ChainI (EthSign ethFrom (abi_word (makeCheckpoint a peggyID))) (sig, None) ∈ tr /\
        FromHex (Bytes2Hex sig) = sig).
Proof.
  intros Hn Hp Ha. unfold SendValsetConfirm.
  rewrite (EncodeValsetConfirm_checkpoint _ _ _ Hn Hp Ha).
  intros [sig [e|]]; cbn; [by intros m ?%elem_of_nil|]. intros from.
  eapply wp_mono; [apply wp_broadcast|]. intros tr o (resp & err & -> & _) m Hm.
  cbn in Hm. apply list_elem_of_singleton in Hm as ->. exists from, sig. split; [done|].
  split; [left|apply FromHex_Bytes2Hex].
Qed.

(** The same for batches and [SendBatchConfirm]. *)
Lemma SendBatchConfirm_signs_hash ethFrom peggyID b amounts dests fees :
  small (BatchNonce b) -> small (BatchTimeout b) ->
  batch_values b = Some (amounts, dests, fees) ->
  wp (SendBatchConfirm ethFrom peggyID b) (fun tr o =>
    forall m, m ∈ broadcasts tr ->
      exists from sig, m = MsgConfirmBatch_ (MkMsgConfirmBatch from (BatchNonce b) (Bytes2Hex sig)
                                              (Address_Hex ethFrom) (TokenContract b)) /\
        @Ev ChainI (EthSign ethFrom (abi_word (batchHash peggyID amounts dests fees (BatchNonce b)
                                                 (HexToAddress (TokenContract b)) (BatchTimeout b))))
          (sig, None) ∈ tr /\
        FromHex (Bytes2Hex sig) = sig).
Proof.
  intros Hn Ht Hb. unfold SendBatchConfirm.
  rewrite (EncodeTxBatchConfirm_hash _ _ _ _ _ Hn Ht Hb).
  intros [sig [e|]]; cbn; [by intros m ?%elem_of_nil|]. intros from.
  eapply wp_mono; [apply wp_broadcast|]. intros tr o (resp & err & -> & _) m Hm.
  cbn in Hm. apply list_elem_of_singleton in Hm as ->. exists from, sig. split; [done|].
  split; [left|apply FromHex_Bytes2Hex].
Qed.

End broadcast.

Module Example.
#[local] Instance cosmos : Cosmos := {| AccAddress_String b := hex_of_bytes b |}.

Definition addrA : string := "0x00000000000000000000000000000000000000aa".
Definition valset : Valset := MkValset 7 [MkBridgeValidator 3000000000 addrA] 100 (Some 5) addrA.
Definition batch : OutgoingTxBatch :=
  MkOutgoingTxBatch 3 900
    [MkOutgoingTransferTx addrA (Some (MkERC20Token addrA (Some 50)))
       (Some (MkERC20Token addrA (Some 2)))] addrA 0.

Lemma SendValsetConfirm_signs_checkpoint_witness :
  wp (SendValsetConfirm 0xaa 42 valset) (fun tr o =>
    forall m, m ∈ broadcasts tr ->
      exists from sig, m = MsgValsetConfirm_ (MkMsgValsetConfirm from (Address_Hex 0xaa)
                                               (vs_Nonce valset) (Bytes2Hex sig)) /\
        @Ev ChainI (EthSign 0xaa (abi_word (makeCheckpoint
          (MkValsetArgs [HexToAddress addrA] [3000000000] 7 5 (HexToAddress addrA)) 42))) (sig, None) ∈ tr /\
        FromHex (Bytes2Hex sig) = sig).
Proof.
  apply (SendValsetConfirm_signs_checkpoint 0xaa 42 valset
    (MkValsetArgs [HexToAddress addrA] [3000000000] 7 5 (HexToAddress addrA))).
  - by vm_compute.
  - constructor; [by vm_compute|constructor].
  - by vm_compute.
Defined.

Lemma SendBatchConfirm_signs_hash_witness :
  wp (SendBatchConfirm 0xaa 42 batch) (fun tr o =>
    forall m, m ∈ broadcasts tr ->
      exists from sig, m = MsgConfirmBatch_ (MkMsgConfirmBatch from (BatchNonce batch) (Bytes2Hex sig)
                                              (Address_Hex 0xaa) (TokenContract batch)) /\
        @Ev ChainI (EthSign 0xaa (abi_word (batchHash 42 [50] [HexToAddress addrA] [2] (BatchNonce batch)
                                                 (HexToAddress (TokenContract batch)) (BatchTimeout batch))))
          (sig, None) ∈ tr /\
        FromHex (Bytes2Hex sig) = sig).
Proof.
  apply (SendBatchConfirm_signs_hash 0xaa 42 batch [50] [HexToAddress addrA] [2]); by vm_compute.
Defined.

End Example.
