(* ===== verification/Orchestrator.v ===== *)
(** * Orchestrator: the modes and the relayer's goroutines (orchestrator/orchestrator.go)

    The start-up sequences return the loops that [pg.Go] starts.  [relay_runs] is the
    body of the relayer's loop: its two tasks run concurrently, so the calls of a run
    are an interleaving of the calls of the tasks. *)
From S2P Require Import Prelude Effects GoFloat Types External Model GoSort Interfaces Loops.
From S2P Require Import Relayer RelayerFacts.

(** ** Start-up *)

(** The loops, with their arguments. *)
Inductive Task : Type :=
  | RunOracle (lastObservedBlock : Z)
  | RunSigner (peggyID : Hash)
  | RunBatchCreator
  | RunRelayer.

(** What a start-up does: start the loops, or end the process ([Fatalln]). *)
Inductive startup : Type :=
  | Start (tasks : list Task)
  | Fatal (msg : string).

Section orchestrator.
Context {GE : Geth} {RL : RetryLib OrchI}.

(** [getLastClaimBlockHeight] *)
Definition getLastClaimBlockHeight (s : Orchestrator) : prog OrchI (Z * error) :=
  '(claim, err) ← ocall (LastClaimEventByAddr (CosmosAddr (cfg s)));
  match err with
  | Some _ => mret (0, err)
  | None => claim ← deref claim; mret (EthereumEventHeight claim, None)
  end.

(** [startValidatorMode] *)
Definition startValidatorMode (s : Orchestrator) : prog OrchI startup :=
  '(lastObservedEthBlock, _) ← getLastClaimBlockHeight s;
  start ←
    (if lastObservedEthBlock =? 0 then
       '(peggyParams, err) ← ocall PeggyParams;
       match err with
       | Some _ => mret (inr "unable to query peggy module params, is injectived running?"%string)
       | None => p ← deref peggyParams; mret (inl (BridgeContractStartHeight p))
       end
     else mret (inl lastObservedEthBlock));
  match start with
  | inr msg => mret (Fatal msg)
  | inl lastObservedEthBlock =>
      '(peggyContractID, err) ← ocall GetPeggyID;
      match err with
      | Some _ => mret (Fatal "unable to query peggy ID from contract")
      | None =>
          mret (Start [RunOracle lastObservedEthBlock; RunSigner peggyContractID;
                       RunBatchCreator; RunRelayer])
      end
  end.

(** [startRelayerMode] *)
Definition startRelayerMode (s : Orchestrator) : prog OrchI startup :=
  mret (Start [RunBatchCreator; RunRelayer]).

(** [Run] *)
Definition Run (s : Orchestrator) : prog OrchI startup :=
  if RelayerMode (cfg s) then startRelayerMode s else startValidatorMode s.

(** In relayer mode only the batch creator and the relayer start, and nothing
    is queried.  In validator mode, whenever the four loops start, the oracle starts
    at the height of the validator's last claim if that was answered and is not zero,
    and at the bridge's start height otherwise; the signer gets the contract's id. *)
Lemma Run_starts s :
  wp (Run s) (fun tr o => forall tasks, o = Done (Start tasks) ->
    if RelayerMode (cfg s) then tr = [] /\ tasks = [RunBatchCreator; RunRelayer]
    else exists h id, tasks = [RunOracle h; RunSigner id; RunBatchCreator; RunRelayer] /\
      OEv GetPeggyID (id, None) ∈ tr /\
      ((exists c, OEv (LastClaimEventByAddr (CosmosAddr (cfg s))) (Some c, None) ∈ tr /\
          EthereumEventHeight c <> 0 /\ h = EthereumEventHeight c) \/
       (exists p, OEv PeggyParams (Some p, None) ∈ tr /\ h = BridgeContractStartHeight p))).
Proof.
  unfold Run. destruct (RelayerMode (cfg s)); [by intros tasks [= <-]|].
  unfold startValidatorMode, getLastClaimBlockHeight.
  intros [c [er|]]; cbn.
  - intros [p [er'|]]; cbn; [done|]. destruct p as [p|]; cbn; [|done]. intros [id [er'|]]; cbn; [done|].
    intros tasks [= <-]. exists (BridgeContractStartHeight p), id. split; [done|].
    split; [set_solver|]. right. exists p. set_solver.
  - destruct c as [c|]; cbn; [|done]. destruct (Z.eqb_spec (EthereumEventHeight c) 0) as [H0|H0]; cbn.
    + intros [p [er'|]]; cbn; [done|]. destruct p as [p|]; cbn; [|done].
      intros [id [er'|]]; cbn; [done|].
      intros tasks [= <-]. exists (BridgeContractStartHeight p), id. split; [done|].
      split; [set_solver|]. right. exists p. set_solver.
    + intros [id [er'|]]; cbn; [done|].
      intros tasks [= <-]. exists (EthereumEventHeight c), id. split; [done|].
      split; [set_solver|]. left. exists c. set_solver.
Qed.

(** ** The relayer's loop *)

(** Interleavings of the traces of concurrent tasks. *)
Inductive interleaving {A} : list (list A) -> list A -> Prop :=
  | interleave_done ts : Forall (fun t => t = []) ts -> interleaving ts []
  | interleave_step a x t b tr :
      interleaving (a ++ t :: b) tr -> interleaving (a ++ (x :: t) :: b) (x :: tr).

Lemma interleaving_elem {A} (ts : list (list A)) tr x :
  interleaving ts tr -> x ∈ tr -> exists t, t ∈ ts /\ x ∈ t.
Proof.
  induction 1 as [ts Hf|a y t b tr _ IH]; intros Hin; [by apply elem_of_nil in Hin|].
  apply elem_of_cons in Hin as [->|Hin].
  - exists (y :: t). split; [set_solver|left].
  - destruct (IH Hin) as (t' & Ht' & Hx). apply elem_of_app in Ht' as [Ht'|[->|Ht']%elem_of_cons].
    + exists t'. set_solver.
    + exists (y :: t). set_solver.
    + exists t'. set_solver.
Qed.

(** The two tasks that [relay] starts. *)
Definition relayValsetTask (l : Orchestrator) (ethValset : Valset) : prog OrchI error :=
  '(_, err) ← retry l (fun _ => e ← relayValset l ethValset; mret (tt, e)) tt;
  mret err.

Definition relayBatchTask (l : Orchestrator) (ethValset : Valset) : prog OrchI error :=
  '(_, err) ← retry l (fun _ => e ← relayTokenBatch l ethValset; mret (tt, e)) tt;
  mret err.

Definition relay_tasks (l : Orchestrator) (ethValset : Valset) : list (prog OrchI error) :=
  (if RelayValsets (cfg l) then [relayValsetTask l ethValset] else []) ++
  (if RelayBatches (cfg l) then [relayBatchTask l ethValset] else []).

(** [relay], in the runs where no goroutine panics (a panic there ends the process):
    [errs] is what [pg.Wait] returned, nil when there is no group. *)
Inductive relay_runs (l : Orchestrator) : list (event OrchI) -> option Valset -> list err -> Prop :=
  | relay_no_valset tr v e :
      runs (getLatestEthValset l) tr (Done (v, Some e)) -> relay_runs l tr None [e]
  | relay_no_task tr v :
      runs (getLatestEthValset l) tr (Done (Some v, None)) ->
      relay_tasks l v = [] -> relay_runs l tr (Some v) []
  | relay_tasks_done tr0 v ts es t g errs :
      runs (getLatestEthValset l) tr0 (Done (Some v, None)) ->
      relay_tasks l v <> [] ->
      Forall2 (fun p te => runs p te.1 (Done te.2)) (relay_tasks l v) (zip ts es) ->
      length ts = length es ->
      interleaving ts t ->
      ParanoidGroup.reachable es g -> ParanoidGroup.result g = Some errs ->
      relay_runs l (tr0 ++ t) (Some v) errs.

(** ** What a run of the relayer may call *)

(** The queries of the relayer. *)
Definition relayer_query (c : cmd OrchI) : Prop :=
  match c with
  | GetValsetUpdatedEvents _ _ | GetHeaderByNumber | GetValsetNonce | GetTxBatchNonce _ | ValsetAt _
  | LatestValsets | AllValsetConfirms _ | LatestTransactionBatches | TransactionBatchSignatures _ _
  | GetBlock _ | TimeNow => True
  | _ => False
  end.

Definition may_relay_valset (v : Valset) (c : cmd OrchI) : Prop :=
  relayer_query c \/ exists new confs, c = SendEthValsetUpdate v new confs.
Definition may_relay_batch (v : Valset) (c : cmd OrchI) : Prop :=
  relayer_query c \/ exists batch confs, c = SendTransactionBatch v batch confs.

Lemma searchValset_queries fuel v cur : issues relayer_query (searchValset fuel v cur).
Proof.
  revert cur. induction fuel as [|fuel IH]; intros cur; cbn [searchValset]; unfold valset_of_event;
    solve_issues.
Qed.

Lemma getLatestEthValset_queries l : issues relayer_query (getLatestEthValset l).
Proof.
  unfold getLatestEthValset, retry. apply issues_bind; [|intros [? []]; apply issues_ret].
  apply issues_retry. intros s. unfold findLatestValsetOnEth.
  solve_issues; apply searchValset_queries.
Qed.

Lemma findConfirmedValset_queries sets : issues relayer_query (findConfirmedValset sets).
Proof. induction sets; cbn [findConfirmedValset]; solve_issues. Qed.

Lemma findConfirmedBatch_queries bs h f : issues relayer_query (findConfirmedBatch bs h f).
Proof. revert f. induction bs; intros f; cbn [findConfirmedBatch]; solve_issues. Qed.

Lemma relayValsetTask_issues l v : issues (may_relay_valset v) (relayValsetTask l v).
Proof.
  unfold relayValsetTask, retry. apply issues_bind; [|intros []; apply issues_ret].
  apply issues_retry. intros _. unfold relayValset, shouldRelayValset.
  assert (forall A (p : prog OrchI A), issues relayer_query p -> issues (may_relay_valset v) p) as Hq
    by (intros; eapply issues_mono; [by left|done]).
  solve_issues; try (by left).
  - apply Hq, findConfirmedValset_queries.
  - right. by eexists _, _.
Qed.

Lemma relayBatchTask_issues l v : issues (may_relay_batch v) (relayBatchTask l v).
Proof.
  unfold relayBatchTask, retry. apply issues_bind; [|intros []; apply issues_ret].
  apply issues_retry. intros _. unfold relayTokenBatch, shouldRelayBatch.
  assert (forall A (p : prog OrchI A), issues relayer_query p -> issues (may_relay_batch v) p) as Hq
    by (intros; eapply issues_mono; [by left|done]).
  solve_issues; try (by left).
  - apply Hq, findConfirmedBatch_queries.
  - right. by eexists _, _.
Qed.

(** The calls that the configuration allows, with the validator set found. *)
Definition relay_allowed (l : Orchestrator) (v : option Valset) (c : cmd OrchI) : Prop :=
  relayer_query c \/
  (exists old new confs, c = SendEthValsetUpdate old new confs /\ v = Some old /\ RelayValsets (cfg l) = true) \/
  (exists old b confs, c = SendTransactionBatch old b confs /\ v = Some old /\ RelayBatches (cfg l) = true).

Lemma relay_tasks_issue l v p :
  p ∈ relay_tasks l v -> issues (relay_allowed l (Some v)) p.
Proof.
  unfold relay_tasks. intros Hin. apply elem_of_app in Hin as [Hin|Hin].
  - destruct (RelayValsets (cfg l)) eqn:E; [|by apply elem_of_nil in Hin].
    apply list_elem_of_singleton in Hin as ->. eapply issues_mono; [|apply relayValsetTask_issues].
    intros c [Hq|(new & confs & ->)]; [by left|]. right. left. by eexists _, _, _.
  - destruct (RelayBatches (cfg l)) eqn:E; [|by apply elem_of_nil in Hin].
    apply list_elem_of_singleton in Hin as ->. eapply issues_mono; [|apply relayBatchTask_issues].
    intros c [Hq|(new & confs & ->)]; [by left|]. right. right. by eexists _, _, _.
Qed.

Lemma relay_runs_allowed l tr v errs :
  relay_runs l tr v errs -> Forall (fun ev => relay_allowed l v (projT1 ev)) tr.
Proof.
  assert (forall v tr o, runs (getLatestEthValset l) tr o ->
    Forall (fun ev => relay_allowed l v (projT1 ev)) tr) as Hfind.
  { intros v0 tr0 o Hr. eapply issues_runs; [|exact Hr].
    eapply issues_mono; [|apply getLatestEthValset_queries]. by left. }
  destruct 1 as [tr v e Hr|tr v Hr Ht|tr0 v ts es t g errs Hr Ht Hall Hlen Hint Hg Hres]; [eauto..|].
  apply Forall_app. split; [eauto|]. apply Forall_forall. intros ev Hev.
  destruct (interleaving_elem ts t ev Hint Hev) as (t' & Ht' & Hev').
  apply list_elem_of_lookup in Ht' as [i Hi].
  assert (exists e, es !! i = Some e) as [e He].
  { apply lookup_lt_is_Some_2. rewrite <- Hlen. by eapply lookup_lt_Some. }
  eapply Forall2_lookup_r in Hall as (p & Hp & Hrun); [|apply lookup_zip_Some; by split].
  assert (issues (relay_allowed l (Some v)) p) as Hp'
    by (apply relay_tasks_issue; by eapply list_elem_of_lookup_2).
  pose proof (issues_runs _ _ _ _ Hp' Hrun) as Hf. by apply (proj1 (Forall_forall _ _) Hf).
Qed.

(** C18: whatever the interleaving of its goroutines, a run of the relayer sends a
    validator set update only if it is configured to relay validator sets, a batch
    only if it is configured to relay batches, both against the validator set that
    it found on Ethereum; its other calls only read. *)
Theorem relay_respects_config l tr v errs :
  relay_runs l tr v errs -> Forall (fun ev => relay_allowed l v (projT1 ev)) tr.
Proof. apply relay_runs_allowed. Qed.

End orchestrator.

(** A run of a relayer that relays batches only. *)
Module Example.

#[local] Instance retry_lib : RetryLib OrchI := retry_loop_lib OrchI.

Definition orch : Orchestrator :=
  MkOrchestrator (MkConfig "inj1a" 0xaa (FFin 1 0) ∅ 0 0 false true false) 10.

Definition batch : OutgoingTxBatch := MkOutgoingTxBatch 3 200 [] "0x01" 1.

Definition env : handler OrchI unit := fun c _ =>
  (match c return orch_reply c with
   | GetHeaderByNumber => (Some 100, None)
   | GetValsetNonce => (Some 1, None)
   | GetValsetUpdatedEvents _ _ => ([MkValsetUpdatedEvent 1 5 0 0 [7] [2 ^ 32] 50], None)
   | LatestTransactionBatches => ([batch], None)
   | TransactionBatchSignatures _ _ => ([MkMsgConfirmBatch "inj1a" 3 "00" "0x07" "0x01"], None)
   | GetTxBatchNonce _ => (Some 2, None)
   | GetBlock _ => (Some 10, None)
   | TimeNow => 20
   | SendTransactionBatch _ _ _ => (Some 9, None)
   | c => inhabitant c
   end, tt).

Definition trace_of {A} (p : prog OrchI A) : list (event OrchI) := (exec env p tt).1.2.

Lemma runs_env {A} (p : prog OrchI A) o : (exec env p tt).1.1 = o -> runs p (trace_of p) o.
Proof. intros <-. apply exec_runs. Qed.

Lemma interleaving_one {A} (t : list A) : interleaving [t] t.
Proof.
  induction t as [|x t IH].
  - apply interleave_done. by constructor.
  - by apply (interleave_step [] x t []).
Qed.

Definition found : Valset := MkValset 1 [MkBridgeValidator (2 ^ 32) (Address_Hex 7)] 0 (Some 0) (Address_Hex 0).

Lemma relay_respects_config_witness :
  let tr := trace_of (getLatestEthValset orch) ++ trace_of (relayBatchTask orch found) in
  relay_runs orch tr (Some found) [] /\
  Forall (fun ev => relay_allowed orch (Some found) (projT1 ev)) tr.
Proof.
  intros tr.
  assert (relay_runs orch tr (Some found) []) as Hr.
  { apply (relay_tasks_done orch _ found [trace_of (relayBatchTask orch found)] [None] _
             (ParanoidGroup.MkGroup [] [] true [] (Some []))).
    - apply runs_env. by vm_compute.
    - done.
    - constructor; [|constructor]. apply runs_env. by vm_compute.
    - done.
    - apply interleaving_one.
    - eapply rtc_l; [apply (ParanoidGroup.task_ok [] [])|]. eapply rtc_l; [apply ParanoidGroup.close_ch|].
      eapply rtc_l; [apply ParanoidGroup.wait_closed|]. apply rtc_refl.
    - done. }
  split; [exact Hr|]. apply (relay_respects_config orch tr (Some found) []). exact Hr.
Defined.

Lemma batch_sent :
  batch_sends (trace_of (relayBatchTask orch found)) =
    [(found, batch, [MkMsgConfirmBatch "inj1a" 3 "00" "0x07" "0x01"])].
Proof. by vm_compute. Qed.

End Example.
