(* ===== verification/Tasks.v ===== *)
(** * Tasks: the loops that the orchestrator starts (runSigner, runBatchCreator, runRelayer)

    [runOracle] is in [OracleLoop.v].  The relayer's iterations run goroutines, so its loop
    is a relation over the traces of [relay_runs]. *)
From S2P Require Import Prelude Effects GoFloat Types External Interfaces Loops Signer BatchCreator.
From S2P Require Import Relayer Orchestrator.

Section tasks.
Context {GE : Geth} {SH : Shopspring} {PT : PeggyTypes} {RL : RetryLib OrchI}.

(** A loop body without state of its own. *)
Definition stateless (p : prog OrchI error) (_ : unit) : prog OrchI (unit * error) :=
  err ← p; mret (tt, err).

Definition runSigner (fuel : nat) (s : Orchestrator) (id : Hash) : prog OrchI (option error) :=
  RunLoop defaultLoopDur (stateless (sign (MkSigner s id))) fuel tt.

Definition runBatchCreator (fuel : nat) (s : Orchestrator) : prog OrchI (option error) :=
  RunLoop defaultLoopDur (stateless (requestTokenBatches s)) fuel tt.

(** [runRelayer] up to some moment: the trace, and the result once it has returned.  A run
    of [relay] fails with the errors of its group. *)
Inductive relayer_loop (s : Orchestrator) : list (event OrchI) -> option (list err) -> Prop :=
  | rl_running : relayer_loop s [] None
  | rl_stopped : relayer_loop s [OEv SelectTimer false] (Some [])
  | rl_failed t0 tr v e errs :
      relay_runs s tr v (e :: errs) ->
      relayer_loop s (OEv SelectTimer true :: OEv TimeNow t0 :: tr) (Some (e :: errs))
  | rl_again t0 tr v t1 tr' res :
      relay_runs s tr v [] -> relayer_loop s tr' res ->
      let d := if defaultRelayerLoopDur <=? t1 - t0 then defaultRelayerLoopDur
               else defaultRelayerLoopDur - (t1 - t0) in
      relayer_loop s (OEv SelectTimer true :: OEv TimeNow t0 :: tr ++
                      OEv TimeNow t1 :: OEv (TimerReset d) tt :: tr') res.

Inductive runRelayer (s : Orchestrator) : list (event OrchI) -> option (list err) -> Prop :=
  | rr_no_relay : negb (RelayValsets (cfg s)) && negb (RelayBatches (cfg s)) = true ->
      runRelayer s [] (Some [])
  | rr_loop tr res : negb (RelayValsets (cfg s)) && negb (RelayBatches (cfg s)) = false ->
      relayer_loop s tr res -> runRelayer s tr res.

(** The batch creator never stops its loop with an error: a run that returns was stopped
    or panicked. *)
Lemma runBatchCreator_goes_on fuel s :
  wp (loop defaultLoopDur (stateless (requestTokenBatches s)) fuel tt) (fun _ o =>
    forall res, o = Done res -> res = None \/ res = Some None).
Proof.
  induction fuel as [|fuel IH]; cbn [loop]; [by intros res [= <-]; left|].
  intros fired. destruct fired; cbn; [|by intros res [= <-]; right]. intros t0.
  apply wp_bind, wp_bind. eapply wp_mono; [apply requestTokenBatches_no_error|].
  intros tr [e|m] He; cbn; [|done]. rewrite (He e eq_refl). cbn. intros t1. apply wp_bind.
  apply wp_runs. intros tr' [[]|m] _; cbn; [|done]. eapply wp_mono; [apply IH|]. done.
Qed.

Definition timer_cmd (c : orch_cmd) : Prop :=
  match c with SelectTimer | TimeNow | TimerReset _ => True | _ => False end.

(** Over all its iterations the relayer sends only what it is configured to relay, against
    the validator set that the iteration found; with nothing to relay it makes no call. *)
Lemma runRelayer_respects_config s tr res :
  runRelayer s tr res ->
  Forall (fun ev => timer_cmd (projT1 ev) \/ exists v, relay_allowed s v (projT1 ev)) tr /\
  (RelayValsets (cfg s) = false -> RelayBatches (cfg s) = false -> tr = [] /\ res = Some []).
Proof.
  assert (forall tr v errs, relay_runs s tr v errs ->
    Forall (fun ev => timer_cmd (projT1 ev) \/ exists v, relay_allowed s v (projT1 ev)) tr) as Hrelay.
  { intros tr0 v errs Hr. eapply Forall_impl; [by eapply relay_runs_allowed|]. cbn. eauto. }
  destruct 1 as [Hno|tr res Hyes Hl]; [by split|]. split.
  - clear Hyes. induction Hl as [| |t0 tr v e errs Hr|t0 tr v t1 tr' res Hr _ IH d].
    + constructor.
    + repeat constructor.
    + constructor; [by left|]. constructor; [by left|eauto].
    + constructor; [by left|]. constructor; [by left|]. apply Forall_app. split; [eauto|].
      constructor; [by left|]. by constructor; [left|].
  - intros Hv Hb. by rewrite Hv, Hb in Hyes.
Qed.
End tasks.
