(* ===== verification/OracleLoop.v ===== *)
(** * OracleLoop: the oracle over all its iterations (runOracle)

    [runOracle] repeats [observeEthEvents] with the last observed height as its
    state.  The theorem lifts the guarantee of one iteration to every execution of
    the loop: when the oracle asks for the events from some block on, every earlier
    event of the bridge has been dealt with. *)
From S2P Require Import Prelude Effects GoFloat Types External Model GoSort Interfaces Oracle.
From S2P Require Import OracleFacts Loops.

Section oracle_loop.
Context {GE : Geth} {RL : RetryLib OrchI}.

(** [runOracle] *)
Definition runOracle (fuel : nat) (s : Orchestrator) (lastObservedBlock : Z)
  : prog OrchI (option error) :=
  RunLoop defaultLoopDur (observeEthEvents s) fuel lastObservedBlock.

(** Heights at which the block arithmetic does not wrap. *)
Definition sane_height (h : Z) : Prop := 0 <= h < 2 ^ 64 - 2000.

(** ** The environment

    [log] holds the bridge events of the Ethereum chain. *)
Context (log : list event).

(** Events are numbered in the order of their blocks. *)
Definition log_ordered : Prop :=
  forall x y, x ∈ log -> y ∈ log -> event_block x < event_block y -> Nonce x < Nonce y.

(** A last claim is that of an event of the chain, at its block. *)
Definition real_claim (ev : Effects.event OrchI) : Prop :=
  forall c, lastClaim_of ev = Some c ->
    sane_height (EthereumEventHeight c) /\
    exists y, y ∈ log /\ Nonce y = EthereumEventNonce c /\ event_block y = EthereumEventHeight c.

(** The chain head is a block number far from the end of its type. *)
Definition real_head (ev : Effects.event OrchI) : Prop :=
  match ev with
  | existT GetHeaderByNumber (Some n, None) => sane_height (big_Uint64 n)
  | _ => True
  end.

Definition honest (ev : Effects.event OrchI) : Prop :=
  complete_reply log ev /\ real_claim ev /\ real_head ev.

(** ** The invariant *)

(** Every event from [h0] on and before [h] is dealt with. *)
Definition covered_before (h0 h : Z) (tr : list (Effects.event OrchI)) : Prop :=
  forall x, x ∈ log -> h0 <= event_block x < h -> covered tr x.

(** Every range that [tr] asks for, after [tr0], starts where everything before is
    dealt with. *)
Definition starts_covered (h0 : Z) (tr0 tr : list (Effects.event OrchI)) : Prop :=
  forall tr1 ev tr2 s e, tr = tr1 ++ ev :: tr2 -> range_of ev = Some (s, e) ->
    covered_before h0 s (tr0 ++ tr1).

Lemma covered_before_app h0 h tr tr' : covered_before h0 h tr -> covered_before h0 h (tr ++ tr').
Proof. intros H x Hx Hb. by apply covered_app_l, H. Qed.

Lemma covered_insert tr p tr' q e : covered (tr ++ tr') e -> covered (tr ++ p ++ tr' ++ q) e.
Proof.
  unfold covered. rewrite !claims_app, !lastClaims_app.
  intros [H|(c & H & Hle)]; [left|right; exists c]; rewrite !elem_of_app in *; tauto.
Qed.

Lemma starts_covered_app h0 tr0 a b :
  starts_covered h0 tr0 a -> starts_covered h0 (tr0 ++ a) b -> starts_covered h0 tr0 (a ++ b).
Proof.
  intros Ha Hb tr1 ev tr2 s e Heq Hr.
  apply app_eq_inv in Heq as [(k & -> & Heq)|(k & -> & ->)].
  - destruct k as [|ev' k]; simpl in Heq.
    + specialize (Hb [] ev tr2 s e (eq_sym Heq) Hr). by rewrite !app_nil_r in Hb.
    + injection Heq as <- ->. by apply (Ha tr1 ev k s e).
  - rewrite app_assoc. by apply (Hb k ev tr2 s e).
Qed.

(** An iteration from [h] only asks for ranges that start at [h]. *)
Lemma starts_covered_body h0 h tr0 tr :
  covered_before h0 h tr0 -> Forall (range_ok h tr) (ranges tr) -> starts_covered h0 tr0 tr.
Proof.
  intros Hc Hf tr1 ev tr2 s e -> Hr. apply covered_before_app.
  assert ((s, e) ∈ ranges (tr1 ++ ev :: tr2)) as Hin.
  { rewrite ranges_app. apply elem_of_app. right. unfold ranges. cbn. rewrite Hr. left. }
  by destruct (proj1 (Forall_forall _ _) Hf _ Hin) as [[= ->] _].
Qed.

Lemma starts_covered_quiet h0 tr0 tr : ranges tr = [] -> starts_covered h0 tr0 tr.
Proof.
  intros H tr1 ev tr2 s e -> Hr. rewrite ranges_app in H. apply app_eq_nil in H as [_ H].
  unfold ranges in H. cbn in H. by rewrite Hr in H.
Qed.

Lemma lastClaims_honest tr c :
  Forall honest tr -> c ∈ lastClaims tr -> exists ev, honest ev /\ lastClaim_of ev = Some c.
Proof.
  intros Hf Hc. unfold lastClaims in Hc. apply list_elem_of_omap in Hc as (ev & Hin & Hev).
  exists ev. split; [|done]. by apply (proj1 (Forall_forall _ _) Hf).
Qed.

(** An iteration keeps the invariant, and the height stays sane. *)
Lemma moves_covered h0 h tr0 tr h' e :
  log_ordered -> sane_height h -> Forall honest tr ->
  Forall (range_ok h tr) (ranges tr) -> moves h tr h' e -> covered_before h0 h tr0 ->
  sane_height h' /\ covered_before h0 h' (tr0 ++ tr).
Proof.
  intros Hord Hh Hf Hr Hm Hc. destruct Hm as [->|[(_ & _ & c & Hin & ->)|(_ & Hin & Hcov)]].
  - split; [done|]. by apply covered_before_app.
  - destruct (lastClaims_honest tr c Hf Hin) as (ev & (_ & Hreal & _) & Hev).
    destruct (Hreal c Hev) as (Hs & y & Hy & Hn & Hb). split; [done|].
    intros x Hx Hbx. apply covered_app_r. right. exists c. split; [done|].
    assert (Nonce x < Nonce y) by (apply Hord; [done|done|lia]). lia.
  - destruct (proj1 (Forall_forall _ _) Hr _ Hin) as (_ & Hlo & n & Hn & Hhi). cbn in Hlo, Hhi.
    assert (sane_height (big_Uint64 n)) as Hs
      by (by destruct (proj1 (Forall_forall _ _) Hf _ Hn) as (_ & _ & H)).
    split; [unfold sane_height, ethBlockConfirmationDelay in *; lia|].
    intros x Hx Hbx. destruct (Z.le_gt_cases h (event_block x)).
    + apply covered_app_r. apply (Hcov log); [|done|lia].
      eapply Forall_impl; [exact Hf|]. by intros ev [H' _].
    + apply covered_app_l, Hc; [done|lia].
Qed.

Lemma starts_covered_turn h0 tr0 pre a rest :
  ranges pre = [] -> starts_covered h0 (tr0 ++ pre) a -> starts_covered h0 (tr0 ++ pre ++ a) rest ->
  starts_covered h0 tr0 (pre ++ a ++ rest).
Proof.
  intros Hp Ha Hr. apply starts_covered_app; [by apply starts_covered_quiet|].
  apply starts_covered_app; [done|]. by rewrite <- app_assoc.
Qed.

Lemma wp_oracle_loop l h0 fuel h tr0 :
  log_ordered ->
  wp (loop defaultLoopDur (observeEthEvents l) fuel h) (fun tr _ =>
    sane_height h -> covered_before h0 h tr0 -> Forall honest tr -> starts_covered h0 tr0 tr).
Proof.
  intros Hord. revert h tr0. induction fuel as [|fuel IH]; intros h tr0.
  { intros _ _ _. by apply starts_covered_quiet. }
  destruct (decide (0 <= h < 2 ^ 64 - 2000)) as [Hh|Hh].
  2:{ apply wp_runs. intros tr o _ Hs. by destruct Hh. }
  cbn [loop]. intros fired. destruct fired; cbn -[observeEthEvents];
    [|intros _ _ _; by apply starts_covered_quiet].
  intros t0. apply wp_bind. eapply wp_mono; [by apply wp_observeEthEvents|].
  intros tr o (Hr & _ & Hm). set (pre := [OEv SelectTimer true; OEv TimeNow t0]).
  assert (forall rest, (Forall honest tr -> Forall honest rest ->
              covered_before h0 h tr0 -> starts_covered h0 (tr0 ++ pre ++ tr) rest) ->
            covered_before h0 h tr0 -> Forall honest (pre ++ tr ++ rest) ->
            starts_covered h0 tr0 (pre ++ tr ++ rest)) as Hend.
  { intros rest Hrest Hc Hf. apply Forall_app in Hf as [_ [Hf1 Hf2]%Forall_app].
    apply starts_covered_turn; [done| |auto].
    eapply starts_covered_body; [by apply covered_before_app|exact Hr]. }
  assert (forall o' : outcome (option error), sane_height h -> covered_before h0 h tr0 ->
            Forall honest (pre ++ tr ++ []) -> starts_covered h0 tr0 (pre ++ tr ++ [])) as Hstop.
  { intros _ _. apply Hend. intros _ _ _. by apply starts_covered_quiet. }
  destruct o as [[h' [e|]]|m]; cbn -[observeEthEvents].
  - destruct (decide (e = ErrGracefulStop)); cbn; exact (Hstop (Done None)).
  - intros now. apply wp_bind.
    eapply wp_mono.
    { instantiate (1 := fun tr' o' => o' = Done tt /\ ranges tr' = []).
      by destruct (defaultLoopDur <=? _); intros []. }
    intros tr2 o2 [-> Hq]. cbn -[observeEthEvents].
    eapply wp_mono; [apply (IH h' (tr0 ++ pre ++ tr ++ OEv TimeNow now :: tr2))|].
    intros tr3 o3 H3 _. apply (Hend (OEv TimeNow now :: tr2 ++ tr3)).
    intros Hf1 Hf2 Hc. change (OEv TimeNow now :: tr2 ++ tr3) with ((OEv TimeNow now :: tr2) ++ tr3) in *.
    apply Forall_app in Hf2 as [_ Hf2].
    apply starts_covered_app; [by apply starts_covered_quiet|].
    destruct (moves_covered h0 h tr0 tr h' None Hord Hh Hf1 Hr (Hm h' None eq_refl) Hc) as [Hh' Hc'].
    rewrite <- !app_assoc. apply H3; [done| |done].
    intros x Hx Hb. by apply covered_insert, Hc'.
  - rewrite app_nil_r in Hstop. exact (Hstop (Crashed m)).
Qed.

(** C9: over all its iterations, however many they are and however they fail or
    restart, the oracle skips no event of the bridge: whenever it asks for the events
    from block [s] on, every event from its first block on and before [s] has already
    been claimed without error or is behind the validator's last claim (given that
    Ethereum numbers events in block order, filters are answered completely and the
    chain's last claims are claims of such events). *)
Theorem runOracle_no_skip fuel l h0 :
  log_ordered -> sane_height h0 ->
  wp (runOracle fuel l h0) (fun tr _ => Forall honest tr -> starts_covered h0 [] tr).
Proof.
  intros Hord Hh. apply wp_recover. eapply wp_mono; [by apply (wp_oracle_loop l h0 fuel h0 [])|].
  assert (covered_before h0 h0 []) as Hc by (intros x _ Hb; lia).
  intros tr [a|m] H; auto.
Qed.

End oracle_loop.

(** Two turns of the oracle: it claims the only event of the chain. *)
Module Example.
#[local] Instance retry_lib : RetryLib OrchI := retry_loop_lib OrchI.

Definition ev : PeggySendToCosmosEvent := MkSendToCosmosEvent 1 2 3 4 5 150.
Definition first : PeggySendToCosmosEvent := MkSendToCosmosEvent 1 2 3 4 4 100.
Definition log : list event := [oldDeposit first; oldDeposit ev].
Definition orch : Orchestrator := OracleFacts.Example.orch.

Lemma ordered : log_ordered log.
Proof.
  intros x y Hx Hy. unfold log in *. rewrite !elem_of_cons, elem_of_nil in *.
  by destruct Hx as [->|[->|[]]], Hy as [->|[->|[]]]; vm_compute.
Qed.

(** The node: the state counts the claims sent and the turns of the loop. *)
Definition node : handler OrchI (nat * nat) := fun c w =>
  match c return orch_reply c * (nat * nat) with
  | SelectTimer => ((w.2 <? 2)%nat, (w.1, S w.2))
  | CurrentValset => ((Some (MkValset 1 [MkBridgeValidator 1 (Address_Hex 0xaa)] 1 None ""), None), w)
  | GetHeaderByNumber => ((Some (if (w.2 <? 2)%nat then 300 else 400), None), w)
  | LastClaimEventByAddr _ =>
      ((Some (if (0 <? w.1)%nat then MkLastClaimEvent 5 150 else MkLastClaimEvent 4 100), None), w)
  | GetSendToCosmosEvents s e =>
      ((filter (fun x => s <= stc_BlockNumber x <= e) [first; ev], None), w)
  | SendOldDepositClaim _ => (None, (S w.1, w.2))
  | c => (inhabitant c, w)
  end.

Definition run := exec node (runOracle 3 orch 100) (0%nat, 0%nat).

Lemma node_honest c w : honest log (Effects.Ev (I:=OrchI) c (node c w).1).
Proof.
  split; [|split].
  - destruct c; cbn; try done; intros _ x Hx; unfold log in Hx;
      rewrite !elem_of_cons, elem_of_nil in Hx; destruct Hx as [Hx|[Hx|[]]]; try done;
      injection Hx as ->; intros Hb; cbn in Hb; repeat case_decide; first [lia|left|right; left].
  - intros cl. destruct c; cbn; try done. destruct w.1; intros [= <-];
      (split; [unfold sane_height; cbn; lia|]).
    + exists (oldDeposit first). split; [left|by vm_compute].
    + exists (oldDeposit ev). split; [right; left|by vm_compute].
  - destruct c; cbn -[Nat.ltb sane_height big_Uint64]; try done.
    destruct (w.2 <? 2)%nat; unfold sane_height; rewrite big_Uint64_small by (unfold is_u64; lia); lia.
Qed.

(** The trace of the run is honest, and the event is claimed once. *)
Lemma runOracle_no_skip_witness :
  claims run.1.2 = [(oldDeposit ev, None)] /\ Forall (honest log) run.1.2 /\
  wp (runOracle 3 orch 100) (fun tr _ => Forall (honest log) tr -> starts_covered log 100 [] tr).
Proof.
  split; [by vm_compute|]. split.
  { unfold run. exact (exec_Forall node (honest log) (runOracle 3 orch 100) (0%nat, 0%nat) node_honest). }
  apply (runOracle_no_skip log 3 orch 100); [apply ordered|].
  unfold sane_height. lia.
Defined.

End Example.
