(* ===== verification/OracleOnce.v ===== *)
(** * OracleOnce: the oracle claims no event twice

    An event may be claimed again when Injective refused its claim, or when Injective's last
    claim does not count a claim that it accepted.  While the last claims count every accepted
    claim, and no two events of the answers have one nonce, the claims that Injective accepts
    have increasing nonces, over all attempts and all iterations. *)
From S2P Require Import Prelude Effects GoFloat Types External Model GoSort Interfaces Oracle.
From S2P Require Import OracleFacts Loops OracleLoop.

(** ** Observations on traces *)

(** The events whose claims were accepted, in order. *)
Definition accepted_of (ev : Effects.event OrchI) : option event :=
  match claim_of ev with Some (e, None) => Some e | _ => None end.

Definition accepted (tr : list (Effects.event OrchI)) : list event := omap accepted_of tr.

(** The events that an answer of a filter lists. *)
Definition listed (ev : Effects.event OrchI) : list event :=
  match ev with
  | existT (GetSendToCosmosEvents _ _) (es, None) => map oldDeposit es
  | existT (GetSendToInjectiveEvents _ _) (es, None) => map deposit es
  | existT (GetValsetUpdatedEvents _ _) (es, None) => map valsetUpdate es
  | existT (GetTransactionBatchExecutedEvents _ _) (es, None) => map withdrawal es
  | existT (GetPeggyERC20DeployedEvents _ _) (es, None) => map erc20Deployment es
  | _ => []
  end.

(** An answer lists events of the log, each at most once. *)
Definition lists_once (log : list event) (ev : Effects.event OrchI) : Prop :=
  NoDup (listed ev) /\ forall x, x ∈ listed ev -> x ∈ log.

(** A last claim is not behind a claim accepted before. *)
Definition counts_accepted (tr : list (Effects.event OrchI)) : Prop :=
  forall tr1 ev tr2 c, tr = tr1 ++ ev :: tr2 -> lastClaim_of ev = Some c ->
    forall e, e ∈ accepted tr1 -> Nonce e <= EthereumEventNonce c.

(** Every claim is above [lo], the nonce of the last claim asked for or of the claim made since;
    before the first question nothing is claimed. *)
Fixpoint from_last (lo : option Z) (tr : list (Effects.event OrchI)) : Prop :=
  match tr with
  | [] => True
  | ev :: tr =>
      match claim_of ev, lastClaim_of ev with
      | Some (e, _), _ => (exists n, lo = Some n /\ n < Nonce e) /\ from_last (Some (Nonce e)) tr
      | None, Some c => from_last (Some (EthereumEventNonce c)) tr
      | None, None => from_last lo tr
      end
  end.

Lemma from_last_None lo tr : from_last None tr -> from_last lo tr.
Proof.
  revert lo. induction tr as [|ev tr IH]; intros lo; cbn; [done|].
  destruct (claim_of ev) as [[e r]|]; [by intros [(n & [=] & _) _]|]. destruct (lastClaim_of ev); [done|apply IH].
Qed.

Lemma from_last_app lo tr tr' : from_last lo tr -> from_last None tr' -> from_last lo (tr ++ tr').
Proof.
  intros H H'. revert lo H. induction tr as [|ev tr IH]; intros lo; cbn; [by intros _; apply from_last_None|].
  destruct (claim_of ev) as [[e r]|]; [by intros [? ?%IH]|]. destruct (lastClaim_of ev); apply IH.
Qed.

Lemma from_last_quiet lo tr : claims tr = [] -> from_last lo tr.
Proof.
  revert lo. induction tr as [|ev tr IH]; intros lo; cbn; [done|]. unfold claims. cbn.
  destruct (claim_of ev); [done|]. intros H. destruct (lastClaim_of ev); by apply IH.
Qed.

(** What is known of the claims accepted in [tr]. *)
Definition at_most (tr : list (Effects.event OrchI)) (lo : option Z) : Prop :=
  match lo with
  | Some n => forall e, e ∈ accepted tr -> Nonce e <= n
  | None => accepted tr = []
  end.

Lemma accepted_snoc tr ev :
  accepted (tr ++ [ev]) = accepted tr ++ match accepted_of ev with Some e => [e] | None => [] end.
Proof. unfold accepted. rewrite omap_app. cbn. by destruct (accepted_of ev). Qed.

Lemma accepted_increasing lo pre tr :
  counts_accepted (pre ++ tr) -> at_most pre lo -> from_last lo tr ->
  StronglySorted Z.lt (map Nonce (accepted pre)) -> StronglySorted Z.lt (map Nonce (accepted (pre ++ tr))).
Proof.
  revert lo pre. induction tr as [|ev tr IH]; intros lo pre; [by rewrite app_nil_r|].
  rewrite cons_middle, app_assoc. intros Hc Hlo. pose proof (accepted_snoc pre ev) as Ha. unfold accepted_of in Ha.
  cbn [from_last]. destruct (claim_of ev) as [[e r]|] eqn:He.
  - intros [(n & -> & Hn) Htr] Hs. cbn in Hlo. apply (IH (Some (Nonce e))); [done| |done|].
    + intros e'. rewrite Ha. intros [He'%Hlo|He']%elem_of_app; [lia|].
      destruct r; [by apply elem_of_nil in He'|by apply list_elem_of_singleton in He' as ->].
    + rewrite Ha, map_app. apply StronglySorted_app_2; [|done|by destruct r; repeat constructor].
      intros x y (e' & -> & He'%Hlo)%list_elem_of_fmap Hy. destruct r; [by apply elem_of_nil in Hy|].
      apply list_elem_of_singleton in Hy as ->. lia.
  - rewrite app_nil_r in Ha. intros Htr Hs. destruct (lastClaim_of ev) as [c|] eqn:Hl.
    + apply (IH (Some (EthereumEventNonce c))); [done| |done|by rewrite Ha].
      intros e'. rewrite Ha. by apply (Hc pre ev tr c); [rewrite <- app_assoc|].
    + apply (IH lo); [done| |done|by rewrite Ha]. destruct lo; cbn; by rewrite Ha.
Qed.

(** ** The order of the events that are sent *)

Lemma sorted_nonces l : go_sorted nonce_less l -> NoDup (map Nonce l) -> StronglySorted Z.lt (map Nonce l).
Proof.
  induction l as [|x l IH]; cbn; [constructor|]. intros [Hx Hl]%go_sorted_cons [Hnx Hnd]%NoDup_cons.
  constructor; [by apply IH|]. apply Forall_forall. intros n (y & -> & Hy)%list_elem_of_fmap.
  specialize (Hx y Hy). unfold nonce_less in Hx. apply Z.ltb_ge in Hx.
  assert (Nonce x <> Nonce y); [|lia]. intros He. apply Hnx. rewrite He. by apply list_elem_of_fmap_2.
Qed.

Lemma filterEvents_NoDup events n : NoDup (map Nonce events) -> NoDup (map Nonce (filterEvents events n)).
Proof.
  induction events as [|e events IH]; cbn; [constructor|]. intros [He Hnd]%NoDup_cons.
  destruct (n <? Nonce e); [|by apply IH]. cbn. apply NoDup_cons. split; [|by apply IH].
  intros (y & Hy & Hin)%list_elem_of_fmap. apply He. rewrite Hy.
  apply list_elem_of_fmap_2. by apply elem_of_filterEvents in Hin as [? _].
Qed.

Lemma filterEvents_sorted events n :
  StronglySorted Z.lt (map Nonce events) -> StronglySorted Z.lt (map Nonce (filterEvents events n)).
Proof.
  induction events as [|e events IH]; cbn; [done|]. intros [Hs He]%StronglySorted_inv.
  destruct (n <? Nonce e); [|by apply IH]. cbn. constructor; [by apply IH|].
  apply Forall_forall. intros x (y & -> & [Hy _]%elem_of_filterEvents)%list_elem_of_fmap.
  apply (proj1 (Forall_forall _ _) He). by apply list_elem_of_fmap_2.
Qed.

Lemma new_events_sorted events n :
  NoDup (map Nonce events) ->
  StronglySorted Z.lt (map Nonce (sort_Slice nonce_less (filterEvents events n))).
Proof.
  intros Hnd. apply sorted_nonces; [apply sort_Slice_sorted, nonce_weak_order|].
  rewrite (sort_Slice_perm nonce_less). by apply filterEvents_NoDup.
Qed.

(** ** The programs *)

#[global] Instance fresh_concatenable : Concatenable fresh.
Proof. split; [by apply fresh_quiet|apply fresh_app]. Qed.

#[global] Instance from_last_concatenable : Concatenable (from_last None).
Proof. split; [done|]. intros tr tr'. apply from_last_app. Qed.

(** What a trace keeps while the answers list events of the log once. *)
Definition ordered (log : list event) (tr : list (Effects.event OrchI)) : Prop :=
  fresh tr /\ (Forall (lists_once log) tr -> from_last None tr).

#[global] Instance ordered_concatenable log : Concatenable (ordered log).
Proof.
  split; [by split; [apply fresh_quiet|]|]. intros tr tr' [Hf H] [Hf' H']. split; [by apply fresh_app|].
  intros [Hl Hl']%Forall_app. apply from_last_app; auto.
Qed.

Lemma ordered_quiet log tr : claims tr = [] -> ordered log tr.
Proof. intros Hc. split; [by apply fresh_quiet|]. intros _. by apply from_last_quiet. Qed.

Section once.
Context {GE : Geth} {RL : RetryLib OrchI}.

(** The claims of a round are the first of the events, in their order. *)
Lemma wp_sendClaims_order events :
  wp (sendClaims events) (fun tr _ => forall lo, StronglySorted Z.lt (map Nonce events) ->
    (forall e, e ∈ events -> lo < Nonce e) -> from_last (Some lo) tr).
Proof.
  unfold sendClaims. apply wp_bind. apply wp_runs.
  cut (wp (prog_for events tt (fun event _ =>
    err ← sendEthEventClaim event;
    match err with
    | Some e => mret (inr e)
    | None => _ ← ocall (TimeSleep (1100 * Millisecond)); mret (inl tt)
    end)) (fun tr (_ : outcome (unit + err)) => forall lo, StronglySorted Z.lt (map Nonce events) ->
    (forall e, e ∈ events -> lo < Nonce e) -> from_last (Some lo) tr)).
  { intros H tr o Hr. pose proof (proj1 (wp_runs _ _) H _ _ Hr) as Hp. destruct o as [[[]|e]|m]; cbn; rewrite ?app_nil_r; exact Hp. }
  induction events as [|e events IH]; [by intros lo _ _|]. cbn [prog_for]. apply wp_bind.
  apply wp_bind, wp_sendEthEventClaim. intros r ev Hev _ _.
  assert (forall rest lo, lo < Nonce e -> from_last (Some (Nonce e)) rest -> from_last (Some lo) (ev :: rest)) as Hcons.
  { intros rest lo Hlo Hrest. cbn [from_last]. rewrite Hev. split; [by exists lo|done]. }
  destruct r as [er|]; cbn -[from_last].
  - intros lo _ Hlo. apply Hcons; [apply Hlo; left|done].
  - intros []. cbn -[from_last]. eapply wp_mono; [apply IH|]. intros tr o Htr lo [Hs He]%StronglySorted_inv Hlo.
    apply Hcons; [apply Hlo; left|]. cbn. apply Htr; [done|]. intros e' He'.
    apply (proj1 (Forall_forall _ _) He). by apply list_elem_of_fmap_2.
Qed.

Lemma sendEventsFn_ordered l events s :
  StronglySorted Z.lt (map Nonce events) -> keeps (from_last None) (sendEventsFn l events s).
Proof.
  intros Hs. unfold sendEventsFn. intros [[c|] [er|]]; try done. cbn.
  pose proof (filterEvents_sorted events (EthereumEventNonce c) Hs) as Hf.
  assert (forall e, e ∈ filterEvents events (EthereumEventNonce c) -> EthereumEventNonce c < Nonce e) as Hlo
    by (intros e He; by apply elem_of_filterEvents in He as [_ ?]).
  destruct (filterEvents events (EthereumEventNonce c)) as [|e0 es]; [done|].
  apply wp_bind. eapply wp_mono; [apply (wp_sendClaims_order (e0 :: es))|].
  intros tr [err|m] H; cbn; rewrite ?app_nil_r; by apply H.
Qed.

Lemma sendNewEventClaims_ordered l events :
  wp (sendNewEventClaims l events) (fun tr _ => fresh tr /\
    (StronglySorted Z.lt (map Nonce events) -> from_last None tr)).
Proof.
  apply wp_conj; [eapply wp_mono; [apply wp_sendNewEventClaims|by intros tr o (_ & ? & _)]|].
  destruct (decide (StronglySorted Z.lt (map Nonce events))) as [Hs|Hs].
  - eapply wp_mono; [|intros tr o H _; exact H].
    unfold sendNewEventClaims, retry. apply (keeps_bind (from_last None)).
    + apply (keeps_retry (from_last None)). intros s. by apply sendEventsFn_ordered.
    + intros [? err]. apply (keeps_ret (from_last None)).
  - apply wp_runs. by intros tr o _ H.
Qed.

Lemma claim_new_ordered l h hi events cl :
  wp (claim_new l h hi events cl) (fun tr _ => fresh tr /\ (NoDup (map Nonce events) -> from_last None tr)).
Proof.
  unfold claim_new. pose proof (new_events_sorted events (EthereumEventNonce cl)) as Hs.
  destruct (sort_Slice _ _) as [|first rest]; [by split; [apply fresh_quiet|]|].
  destruct (negb _); [by split; [apply fresh_quiet|]|].
  apply wp_bind. eapply wp_mono; [apply sendNewEventClaims_ordered|].
  intros tr [[er|]|m] [Hf Ho]; cbn; rewrite ?app_nil_r; (split; [exact Hf|]); intros Hnd; by apply Ho, Hs.
Qed.

(** Answers that list events of the log once list events with different nonces. *)
Lemma scan_nonces log tr s e a b c d v :
  NoDup (map Nonce log) -> Forall (lists_once log) tr ->
  OEv (GetSendToCosmosEvents s e) (a, None) ∈ tr ->
  OEv (GetSendToInjectiveEvents s e) (b, None) ∈ tr ->
  OEv (GetTransactionBatchExecutedEvents s e) (c, None) ∈ tr ->
  OEv (GetValsetUpdatedEvents s e) (d, None) ∈ tr ->
  OEv (GetPeggyERC20DeployedEvents s e) (v, None) ∈ tr ->
  NoDup (map Nonce (map oldDeposit a ++ map deposit b ++ map withdrawal c ++ map valsetUpdate d ++
      map erc20Deployment v)).
Proof.
  intros Hlog. rewrite Forall_forall. intros Hall Ha Hb Hc Hd Hv.
  apply Hall in Ha as [Na La], Hb as [Nb Lb], Hc as [Nc Lc], Hd as [Nd Ld], Hv as [Nv Lv]. cbn in *.
  apply NoDup_fmap_2_strong.
  - assert (forall l : list event, NoDup (map Nonce l) -> forall x y, x ∈ l -> y ∈ l -> Nonce x = Nonce y -> x = y) as H.
    { clear. induction l as [|z l IH]; cbn; [by intros _ x y ?%elem_of_nil|].
      intros [Hz Hnd]%NoDup_cons x y [->|Hx]%elem_of_cons [->|Hy]%elem_of_cons He; try done; [| |by apply IH];
        exfalso; apply Hz; [rewrite He|rewrite <- He]; by apply list_elem_of_fmap_2. }
    intros x y Hx Hy. apply (H log Hlog); rewrite !elem_of_app in *; naive_solver.
  - rewrite !NoDup_app. set_solver.
Qed.

Lemma observeEthEvents_ordered log l h :
  NoDup (map Nonce log) -> keeps (ordered log) (observeEthEvents l h).
Proof.
  intros Hlog. unfold observeEthEvents. apply (keeps_Call _); [intros r; by apply ordered_quiet|].
  intros [vs [er|]]; [apply (keeps_ret _)|]. destruct vs as [vs|]; [|apply (keeps_panic _)]. cbn [deref mbind prog_mbind prog_bind].
  destruct (negb _); [apply (keeps_ret _)|]. apply (keeps_bind _).
  { eapply wp_mono; [apply wp_getLatestEthHeight|]. intros tr o [[Hc _] _]. by apply ordered_quiet. }
  intros [head [er|]]; [apply (keeps_ret _)|]. destruct (_ <=? _); [apply (keeps_ret _)|].
  destruct (_ <=? _); [apply (keeps_ret _)|].
  fold (search_end h head). set (hi := search_end h head).
  apply wp_bind. eapply wp_mono; [apply wp_getEthEvents|]. intros tr1 o1 [[Hc1 _] Hev].
  destruct o1 as [[evs [er|]]|m]; [cbn; rewrite app_nil_r; by apply ordered_quiet| |by apply ordered_quiet].
  destruct (Hev evs eq_refl) as (a & b & c & d & v & Hevs & Ha & Hb & Hc & Hd & Hv).
  apply wp_bind. eapply wp_mono; [apply wp_getLastClaimEvent|]. intros tr2 o2 [[Hc2 _] _].
  assert (ordered log (tr1 ++ tr2)) as H12 by (apply ordered_quiet; by rewrite claims_app, Hc1, Hc2).
  destruct o2 as [[[cl|] [er|]]|m]; cbn [deref mbind prog_mbind prog_bind]; try (cbn; by rewrite ?app_nil_r).
  eapply wp_mono; [apply (claim_new_ordered l h hi evs cl)|]. intros tr3 o3 [Hf3 H3].
  change (ordered log (tr1 ++ (tr2 ++ tr3))). rewrite app_assoc. destruct H12 as [Hf12 H12]. split; [by apply fresh_app|].
  intros [Hl12 _]%Forall_app. apply from_last_app; [by apply H12|]. apply H3. rewrite Hevs.
  apply Forall_app in Hl12 as [Hl1 _]. by eapply scan_nonces.
Qed.

Lemma loop_ordered log l fuel h :
  NoDup (map Nonce log) -> keeps (ordered log) (loop defaultLoopDur (observeEthEvents l) fuel h).
Proof.
  intros Hlog. revert h. induction fuel as [|fuel IH]; intros h; cbn [loop]; [apply (keeps_ret _)|].
  apply (keeps_Call _); [intros r; by apply ordered_quiet|]. intros fired.
  destruct (negb fired); [apply (keeps_ret _)|]. apply (keeps_Call _); [intros r; by apply ordered_quiet|].
  intros start. apply (keeps_bind _); [by apply observeEthEvents_ordered|]. intros [h' [e|]].
  { destruct (decide _); apply (keeps_ret _). }
  apply (keeps_Call _); [intros r; by apply ordered_quiet|]. intros now.
  apply (keeps_bind _); [|intros _; apply IH].
  destruct (_ <=? _); (apply (keeps_Call _); [intros r; by apply ordered_quiet|intros r; apply (keeps_ret _)]).
Qed.

(** C23: the oracle does not claim an accepted event again.  Every claim that it sends, in any
    iteration and any attempt, is newer than the validator's last claim as last asked for before
    it.  And while the events of the chain have different nonces, the answers of the filters list
    them at most once each, and the last claims that Injective reports count the claims that it
    has accepted, the accepted claims have strictly increasing nonces over all iterations. *)
Theorem oracle_claims_once log fuel l h :
  NoDup (map Nonce log) ->
  wp (runOracle fuel l h) (fun tr _ => fresh tr /\
    (Forall (lists_once log) tr -> counts_accepted tr -> StronglySorted Z.lt (map Nonce (accepted tr)))).
Proof.
  intros Hlog. eapply wp_mono; [apply (keeps_recover (ordered log)); by apply loop_ordered|].
  intros tr o [Hf Ho]. split; [exact Hf|]. intros Hl Hc.
  by apply (accepted_increasing None [] tr); [| |apply Ho|constructor].
Qed.
End once.

(** ** An example: the two turns of [OracleLoop.Example] *)
Module Example.
#[local] Existing Instance OracleLoop.Example.retry_lib.
Import OracleLoop.Example.

Lemma node_lists_once c w : lists_once log (Effects.Ev (I:=OrchI) c (node c w).1).
Proof.
  assert (forall s e, NoDup (filter (fun x => s <= stc_BlockNumber x <= e) [first; ev]) /\
    forall x, x ∈ map oldDeposit (filter (fun x => s <= stc_BlockNumber x <= e) [first; ev]) -> x ∈ log) as H.
  { intros s e. split; [apply NoDup_filter, NoDup_cons; split; [by intros [=]%list_elem_of_singleton|apply NoDup_singleton]|].
    intros x (y & -> & [_ Hy]%list_elem_of_filter)%list_elem_of_fmap.
    unfold log. apply (list_elem_of_fmap_2 oldDeposit) in Hy. exact Hy. }
  destruct c; try (split; [constructor|by intros x ?%elem_of_nil]).
  destruct (H startBlock endBlock) as [Hnd Hin]. split; [|exact Hin]. cbn.
  apply NoDup_fmap_2; [|exact Hnd]. by intros x y [= ->].
Qed.

(** [counts_accepted], checked along the trace. *)
Fixpoint counts (seen : list event) (tr : list (Effects.event OrchI)) : bool :=
  match tr with
  | [] => true
  | ev :: tr =>
      match lastClaim_of ev with
      | Some c => forallb (fun e => Nonce e <=? EthereumEventNonce c) seen
      | None => true
      end && counts (seen ++ omap accepted_of [ev]) tr
  end.

Lemma counts_counts tr : counts [] tr = true -> counts_accepted tr.
Proof.
  intros Hc tr1 ev tr2 c -> Hl. change (accepted tr1) with ([] ++ accepted tr1).
  revert Hc. generalize (@nil event). induction tr1 as [|x tr1 IH]; intros seen; cbn.
  - rewrite Hl. intros [H _]%andb_true_iff e He. rewrite app_nil_r in He.
    pose proof (proj1 (forallb_forall _ _) H e (proj1 (list_elem_of_In _ _) He)) as Hle. by apply Z.leb_le.
  - intros [_ Hrest]%andb_true_iff. specialize (IH _ Hrest). unfold accepted in *. cbn in *.
    destruct (accepted_of x); [by rewrite <- app_assoc in IH|by rewrite app_nil_r in IH].
Qed.

Lemma oracle_claims_once_witness :
  accepted run.1.2 = [oldDeposit ev] /\ fresh run.1.2 /\ StronglySorted Z.lt (map Nonce (accepted run.1.2)).
Proof.
  split; [by vm_compute|].
  assert (NoDup (map Nonce log)) as Hlog by (apply (bool_decide_eq_true_1 _); by vm_compute).
  destruct (proj1 (wp_runs _ _) (oracle_claims_once log 3 orch 100 Hlog) _ _ (exec_runs node (runOracle 3 orch 100) (0%nat, 0%nat)))
    as [Hf Hs].
  split; [exact Hf|]. apply Hs.
  - exact (exec_Forall node (lists_once log) (runOracle 3 orch 100) (0%nat, 0%nat) node_lists_once).
  - apply counts_counts. by vm_compute.
Defined.
End Example.
