(* ===== verification/OracleLive.v ===== *)
(** * OracleLive: the oracle claims every event (liveness of runOracle)

    When the nodes answer and accept the claims that are next in order, each iteration of
    the oracle claims all the events of its range, once and in order, and enough iterations
    reach every event that has its confirmations.  With the contract's own events as the
    log this holds of everything that the bridge contract emits. *)
From S2P Require Import Prelude Effects GoFloat Types External Model PeggySol PeggyState PeggyStateFacts.
From S2P Require Import GoSort Interfaces Oracle OracleFacts Loops Orchestrator OracleLoop.

(** ** A log of consecutive events *)
Definition numbered_from (n : Z) (es : list event) : Prop :=
  forall i x, es !! i = Some x -> Nonce x = n + 1 + Z.of_nat i.

Definition block_le (x y : event) : Prop := event_block x <= event_block y.

Record ordered_log (log : list event) : Prop := {
  ol_nonces : numbered_from 0 log;
  ol_blocks : StronglySorted block_le log
}.

(** The events after nonce [n] up to nonce [n']. *)
Definition segment (log : list event) (n n' : Z) : list event :=
  take (Z.to_nat (n' - n)) (drop (Z.to_nat n) log).

(** Those that an oracle with last claim [n] has to claim to get to block [hi]. *)
Definition pending (log : list event) (n hi : Z) : list event :=
  base.filter (fun e => n < Nonce e /\ event_block e <= hi) log.

Lemma numbered_cons n x es : numbered_from n (x :: es) <-> Nonce x = n + 1 /\ numbered_from (n + 1) es.
Proof.
  split.
  - intros H. split; [rewrite (H 0%nat x eq_refl); lia|]. intros i y Hy. rewrite (H (S i) y Hy). lia.
  - intros [Hx H] [|i] y Hy; [injection Hy as <-; lia|]. rewrite (H i y Hy). lia.
Qed.

Lemma numbered_drop n es k : numbered_from n es -> numbered_from (n + Z.of_nat k) (drop k es).
Proof. intros H i x. rewrite lookup_drop. intros Hx. rewrite (H _ _ Hx). lia. Qed.

Lemma numbered_take n es k : numbered_from n es -> numbered_from n (take k es).
Proof. intros H i x Hx. apply H. by apply lookup_take_Some in Hx as [Hx _]. Qed.

Lemma numbered_bounds n es x : numbered_from n es -> x ∈ es -> n < Nonce x <= n + Z.of_nat (length es).
Proof. intros H [i Hi]%list_elem_of_lookup. rewrite (H _ _ Hi). apply lookup_lt_Some in Hi. lia. Qed.

(** Numbered events are sorted, without two that compare equal. *)
Lemma numbered_sorted n es : numbered_from n es -> go_sorted nonce_less es.
Proof.
  intros H i j x y Hx Hy Hij. unfold nonce_less. apply Z.ltb_ge. rewrite (H _ _ Hx), (H _ _ Hy). lia.
Qed.

Lemma numbered_inj n es x y :
  numbered_from n es -> x ∈ es -> y ∈ es -> nonce_less x y = false -> nonce_less y x = false -> x = y.
Proof.
  unfold nonce_less. intros H [i Hi]%list_elem_of_lookup [j Hj]%list_elem_of_lookup Hxy%Z.ltb_ge Hyx%Z.ltb_ge.
  rewrite (H _ _ Hi), (H _ _ Hj) in *. assert (i = j) as -> by lia. congruence.
Qed.

Lemma filter_all {A} (P : A -> Prop) `{!forall x, Decision (P x)} l : Forall P l -> base.filter P l = l.
Proof. induction 1 as [|x l Hx _ IH]; [done|]. by rewrite filter_cons_True, IH. Qed.

Lemma filter_none {A} (P : A -> Prop) `{!forall x, Decision (P x)} l :
  Forall (fun x => ~ P x) l -> base.filter P l = [].
Proof. induction 1 as [|x l Hx _ IH]; [done|]. by rewrite filter_cons_False. Qed.

Lemma filter_ext_Forall {A} (P Q : A -> Prop) `{!forall x, Decision (P x), !forall x, Decision (Q x)} l :
  Forall (fun x => P x <-> Q x) l -> base.filter P l = base.filter Q l.
Proof.
  induction 1 as [|x l Hx _ IH]; [done|]. destruct (decide (P x)) as [HP|HP].
  - rewrite !filter_cons_True by tauto. by rewrite IH.
  - rewrite !filter_cons_False by tauto. by rewrite IH.
Qed.

Lemma filter_nonce a n es :
  numbered_from a es -> a <= n -> base.filter (fun e => n < Nonce e) es = drop (Z.to_nat (n - a)) es.
Proof.
  revert a. induction es as [|x es IH]; intros a; [by rewrite drop_nil|].
  intros [Hx H]%numbered_cons Ha. destruct (decide (n = a)) as [->|Hne].
  - rewrite Z.sub_diag. apply filter_all, Forall_forall. intros y [->|Hy]%elem_of_cons; [lia|].
    pose proof (numbered_bounds _ _ _ H Hy). lia.
  - rewrite filter_cons_False by lia. rewrite (IH (a + 1)) by (done || lia).
    replace (Z.to_nat (n - a)) with (S (Z.to_nat (n - (a + 1)))) by lia. done.
Qed.

Lemma filter_block es hi :
  StronglySorted block_le es ->
  base.filter (fun e => event_block e <= hi) es
    = take (length (base.filter (fun e => event_block e <= hi) es)) es.
Proof.
  induction 1 as [|x es Hs IH Hx]; [done|]. destruct (decide (event_block x <= hi)) as [Hle|Hgt].
  - rewrite filter_cons_True by done. cbn. by rewrite <- IH.
  - rewrite filter_cons_False by done.
    assert (base.filter (fun e => event_block e <= hi) es = []) as ->; [|done].
    apply filter_none. eapply Forall_impl; [exact Hx|]. unfold block_le. intros y Hy. lia.
Qed.

Lemma sorted_drop k es : StronglySorted block_le es -> StronglySorted block_le (drop k es).
Proof. revert k. induction es as [|x es IH]; intros [|k] H; cbn; try done. apply IH. by inversion H. Qed.

(** The pending events are a segment of the log, and nothing else is left up to the block. *)
Lemma pending_segment log n hi :
  ordered_log log -> 0 <= n ->
  exists n', n <= n' /\ pending log n hi = segment log n n' /\
    Z.of_nat (length (pending log n hi)) = n' - n /\ numbered_from n (pending log n hi) /\
    forall e, e ∈ log -> event_block e <= hi -> Nonce e <= n'.
Proof.
  intros [Hn Hb] H0.
  assert (pending log n hi = base.filter (fun e => event_block e <= hi) (drop (Z.to_nat n) log)) as Hp.
  { rewrite <- (Z.sub_0_r n) at 2. rewrite <- (filter_nonce 0 n log) by done.
    unfold pending. rewrite list_filter_filter. apply list_filter_iff. tauto. }
  pose proof (filter_block _ hi (sorted_drop (Z.to_nat n) _ Hb)) as Ht. rewrite <- Hp in Ht. clear Hp.
  assert (numbered_from n (pending log n hi)) as Hnum.
  { rewrite Ht. apply numbered_take. replace n with (0 + Z.of_nat (Z.to_nat n)) at 1 by lia.
    by apply numbered_drop. }
  exists (n + Z.of_nat (length (pending log n hi))). split; [lia|]. split; [|split; [lia|split; [done|]]].
  - unfold segment. rewrite Ht at 1. f_equal. lia.
  - intros e He Hle. destruct (Z.le_gt_cases (Nonce e) n) as [|Hgt]; [lia|].
    assert (e ∈ pending log n hi) as Hin by (by apply list_elem_of_filter).
    pose proof (numbered_bounds _ _ _ Hnum Hin). lia.
Qed.

Lemma segment_nil log n : segment log n n = [].
Proof. unfold segment. by rewrite Z.sub_diag. Qed.

Lemma segment_app log n n1 n2 :
  0 <= n <= n1 -> n1 <= n2 -> segment log n n1 ++ segment log n1 n2 = segment log n n2.
Proof.
  intros H1 H2. unfold segment. rewrite <- (take_drop (Z.to_nat (n1 - n)) (take (Z.to_nat (n2 - n)) _)).
  rewrite take_take, skipn_firstn_comm, drop_drop. do 2 f_equal; [lia|lia|f_equal; lia].
Qed.

(** ** What a filter query returns *)
Definition blocks_of (log : list event) (s e : Z) : list event :=
  base.filter (fun x => s <= event_block x <= e) log.

Definition oldDeposits (es : list event) := omap (fun x => if x is oldDeposit e then Some e else None) es.
Definition deposits (es : list event) := omap (fun x => if x is deposit e then Some e else None) es.
Definition withdrawals (es : list event) := omap (fun x => if x is withdrawal e then Some e else None) es.
Definition valsetUpdates (es : list event) := omap (fun x => if x is valsetUpdate e then Some e else None) es.
Definition deployments (es : list event) := omap (fun x => if x is erc20Deployment e then Some e else None) es.

(** The five answers together are the events that were asked for. *)
Lemma events_by_type es :
  map oldDeposit (oldDeposits es) ++ map deposit (deposits es) ++ map withdrawal (withdrawals es) ++
  map valsetUpdate (valsetUpdates es) ++ map erc20Deployment (deployments es) ≡ₚ es.
Proof.
  induction es as [|[e|e|e|e|e] es IH]; [done|eapply Permutation_trans; [|by apply perm_skip, IH]; cbn..].
  - done.
  - by rewrite <- Permutation_middle.
  - by rewrite !app_assoc, <- Permutation_middle, <- !app_assoc.
  - by rewrite !app_assoc, <- Permutation_middle, <- !app_assoc.
  - by rewrite !app_assoc, <- Permutation_middle, <- !app_assoc.
Qed.

Lemma filterEvents_filter events n : filterEvents events n = base.filter (fun e => n < Nonce e) events.
Proof.
  induction events as [|e events IH]; [done|]. cbn [filterEvents].
  destruct (Z.ltb_spec n (Nonce e)); [rewrite filter_cons_True by done|rewrite filter_cons_False by lia];
    by rewrite IH.
Qed.

(** Every event before block [h] is at or behind nonce [n]. *)
Definition dealt_before (log : list event) (h n : Z) : Prop :=
  forall e, e ∈ log -> event_block e < h -> Nonce e <= n.

(** The new events of an iteration, whatever order the scan returns them in. *)
Lemma new_events_pending log n s hi events :
  ordered_log log -> 0 <= n -> dealt_before log s n -> events ≡ₚ blocks_of log s hi ->
  sort_Slice nonce_less (filterEvents events n) = pending log n hi.
Proof.
  intros Ho H0 Hd Hp. destruct (pending_segment log n hi Ho H0) as (n' & _ & _ & _ & Hnum & _).
  rewrite filterEvents_filter.
  assert (base.filter (fun e => n < Nonce e) events ≡ₚ pending log n hi) as Hperm.
  { rewrite Hp. unfold blocks_of, pending. rewrite list_filter_filter.
    erewrite filter_ext_Forall; [done|]. apply Forall_forall. intros e He. specialize (Hd e He). lia. }
  apply sort_Slice_unique.
  - exact nonce_weak_order.
  - exact Hperm.
  - by eapply numbered_sorted.
  - intros x y. rewrite Hperm. by eapply numbered_inj.
Qed.

(** ** Nodes that answer *)

(** The claims among the commands. *)
Definition is_claim (c : orch_cmd) : bool :=
  match c with
  | SendOldDepositClaim _ | SendDepositClaim _ | SendValsetClaim _ | SendWithdrawalClaim _
  | SendERC20DeployedClaim _ => true
  | _ => false
  end.

Section live.
Context {GE : Geth} {RL : RetryLib OrchI} {RA : RetryAttempts OrchI}.
Context (l : Orchestrator) (log : list event).
Context {W : Type} (node : handler OrchI W) (last : W -> LastClaimEvent) (head : W -> Z).

Definition nonce (w : W) : Z := EthereumEventNonce (last w).

(** The two chains in state [w]: [last w] is the validator's last claim on Injective and
    [head w] the number of the latest Ethereum block. *)
Record answering : Prop := {
  ans_quiet c w : is_claim c = false -> last (node c w).2 = last w /\ head w <= head (node c w).2;
  ans_valset w : exists vs, (node CurrentValset w).1 = (Some vs, None) /\ isBonded l vs = true;
  ans_head w : (node GetHeaderByNumber w).1 = (Some (head w), None) /\ sane_height (head w);
  ans_last w : (node (LastClaimEventByAddr (CosmosAddr (cfg l))) w).1 = (Some (last w), None) /\
    0 <= nonce w < 2 ^ 64 - 1;
  ans_oldDeposits s e w : e <= head w ->
    (node (GetSendToCosmosEvents s e) w).1 = (oldDeposits (blocks_of log s e), None);
  ans_deposits s e w : e <= head w ->
    (node (GetSendToInjectiveEvents s e) w).1 = (deposits (blocks_of log s e), None);
  ans_withdrawals s e w : e <= head w ->
    (node (GetTransactionBatchExecutedEvents s e) w).1 = (withdrawals (blocks_of log s e), None);
  ans_valsetUpdates s e w : e <= head w ->
    (node (GetValsetUpdatedEvents s e) w).1 = (valsetUpdates (blocks_of log s e), None);
  ans_deployments s e w : e <= head w ->
    (node (GetPeggyERC20DeployedEvents s e) w).1 = (deployments (blocks_of log s e), None);
  (* Injective accepts the claim of the event that is next *)
  ans_claim x w : x ∈ log -> Nonce x = nonce w + 1 ->
    wph node (sendEthEventClaim x) w (fun o _ w' =>
      o = Done None /\ nonce w' = Nonce x /\ head w <= head w');
  ans_timer w : (node SelectTimer w).1 = true
}.

Context (Hans : answering) (Hlog : ordered_log log) (Hatt : maxAttempts l <> 0%nat).

(** A step that claims nothing. *)
Definition same (w w' : W) : Prop := last w' = last w /\ head w <= head w'.

Lemma same_refl w : same w w.
Proof using Type. split; [done|apply Z.le_refl]. Qed.

Lemma same_trans w w1 w2 : same w w1 -> same w1 w2 -> same w w2.
Proof using Type. intros [H1 H2] [H3 H4]. split; [by rewrite H3|by eapply Z.le_trans]. Qed.

Lemma same_call c w : is_claim c = false -> same w (node c w).2.
Proof. intros Hc. destruct (ans_quiet Hans c w Hc). by split. Qed.

(** A call that is no claim, with its answer. *)
Lemma wph_ask {A} c (f : orch_reply c -> prog OrchI A) w r Q :
  is_claim c = false -> (node c w).1 = r ->
  (forall w', same w w' -> wph node (f r) w' (fun o tr w2 => Q o (OEv c r :: tr) w2)) ->
  wph node (ocall c ≫= f) w Q.
Proof.
  intros Hc <- H. apply (wph_bind_call (I := OrchI)), H. by apply same_call.
Qed.

Lemma wph_retry {St} (fn : St -> prog OrchI (St * error)) s w Q :
  wph node (fn s) w (fun o tr w' => (exists s', o = Done (s', None)) /\ Q o tr w') ->
  wph node (retry l fn s) w Q.
Proof. intros H. unfold retry. destruct (maxAttempts l); [by destruct Hatt|]. by apply wph_retry_first. Qed.

Lemma wph_ret {A} (a : A) w Q : Q (Done a) [] w -> wph node (Ret a) w Q.
Proof. done. Qed.

Lemma wph_getLatestEthHeight w Q :
  (forall tr w', claims tr = [] -> same w w' -> Q (Done (head w, None)) tr w') ->
  wph node (getLatestEthHeight l) w Q.
Proof.
  intros HQ. destruct (ans_head Hans w) as [Hh Hs]. apply wph_bind, wph_retry.
  eapply wph_ask; [done|exact Hh|]. intros w' Hw. cbn.
  assert (big_Uint64 (head w) = head w) as ->
    by (apply big_Uint64_small; unfold sane_height, is_u64 in *; lia).
  split; [by eexists|]. by apply HQ.
Qed.

Lemma wph_getLastClaimEvent w Q :
  (forall tr w', claims tr = [] -> same w w' -> Q (Done (Some (last w), None)) tr w') ->
  wph node (getLastClaimEvent l) w Q.
Proof.
  intros HQ. apply wph_bind, wph_retry.
  apply (wph_call (I := OrchI) node (LastClaimEventByAddr (CosmosAddr (cfg l)))).
  destruct (ans_last Hans w) as [-> _]. split; [by eexists|].
  cbn. apply HQ; [done|]. by apply (same_call (LastClaimEventByAddr _)).
Qed.

(** The scan finds the events of the range, in some order. *)
Lemma wph_getEthEvents s e w Q :
  e <= head w ->
  (forall evs tr w', evs ≡ₚ blocks_of log s e -> claims tr = [] -> same w w' -> Q (Done (evs, None)) tr w') ->
  wph node (getEthEvents l s e) w Q.
Proof.
  intros He HQ. apply wph_bind, wph_retry. unfold scanEthEventsFn.
  eapply wph_ask; [done|by apply (ans_oldDeposits Hans)|]. intros w1 H1.
  eapply wph_ask; [done|apply (ans_deposits Hans); destruct H1; lia|]. intros w2 H2.
  pose proof (same_trans _ _ _ H1 H2) as H12.
  eapply wph_ask; [done|apply (ans_withdrawals Hans); destruct H12; lia|]. intros w3 H3.
  pose proof (same_trans _ _ _ H12 H3) as H13.
  eapply wph_ask; [done|apply (ans_deployments Hans); destruct H13; lia|]. intros w4 H4.
  pose proof (same_trans _ _ _ H13 H4) as H14.
  eapply wph_ask; [done|apply (ans_valsetUpdates Hans); destruct H14; lia|]. intros w5 H5.
  split; [by eexists|]. cbn. apply HQ; [apply events_by_type|done|by eapply same_trans].
Qed.

(** The claims in order are all accepted. *)
Lemma wph_sendEthEventClaim x w Q :
  x ∈ log -> Nonce x = nonce w + 1 ->
  (forall ev w', claim_of ev = Some (x, None) -> nonce w' = Nonce x -> head w <= head w' -> Q (Done None) [ev] w') ->
  wph node (sendEthEventClaim x) w Q.
Proof.
  intros Hx Hn HQ. pose proof (ans_claim Hans x w Hx Hn) as Hc. unfold wph, sendEthEventClaim in *.
  destruct x; cbn in *; destruct (node _ w) as [r w']; destruct Hc as ([= ->] & ? & ?); by apply HQ.
Qed.

Lemma wph_claimLoop es w Q :
  Forall (fun x => x ∈ log) es -> numbered_from (nonce w) es ->
  (forall tr w', claims tr = map (fun x => (x, None)) es -> nonce w' = nonce w + Z.of_nat (length es) ->
     head w <= head w' -> Q (Done (inl tt)) tr w') ->
  wph node (prog_for es tt (fun event _ =>
    err ← sendEthEventClaim event;
    match err with
    | Some e => mret (inr e)
    | None => _ ← ocall (TimeSleep (1100 * Millisecond)); mret (inl tt)
    end)) w Q.
Proof.
  intros Hin. revert w Q. induction Hin as [|x es Hx _ IH]; intros w Q Hnum HQ; cbn [prog_for].
  { apply (HQ [] w); [done| |]; cbn; lia. }
  apply numbered_cons in Hnum as [Hn Hnum]. apply wph_bind, wph_bind, wph_sendEthEventClaim; [done..|].
  intros ev w1 Hev Hn1 Hh1.
  apply (wph_ask (TimeSleep (1100 * Millisecond)) _ _ tt); [done|by destruct (node _ w1).1|].
  intros w2 [Hl2 Hh2]. apply wph_ret.
  assert (nonce w2 = nonce w + 1) as Hn2 by (unfold nonce in *; rewrite Hl2; lia).
  apply IH; [by rewrite Hn2|]. intros tr w3 Htr Hn3 Hh3.
  apply HQ; [|cbn; lia|lia]. unfold claims in *. cbn. by rewrite Hev, Htr.
Qed.

Lemma wph_sendNewEventClaims es w Q :
  Forall (fun x => x ∈ log) es -> numbered_from (nonce w) es ->
  (forall tr w', claims tr = map (fun x => (x, None)) es -> nonce w' = nonce w + Z.of_nat (length es) ->
     head w <= head w' -> Q (Done None) tr w') ->
  wph node (sendNewEventClaims l es) w Q.
Proof.
  intros Hin Hnum HQ. apply wph_bind, wph_retry. unfold sendEventsFn.
  eapply wph_ask; [done|by apply (ans_last Hans)|]. intros w1 [Hl1 Hh1]. cbn.
  assert (filterEvents es (EthereumEventNonce (last w)) = es) as ->.
  { rewrite filterEvents_filter. apply filter_all, Forall_forall. intros x Hx.
    pose proof (numbered_bounds _ _ _ Hnum Hx). unfold nonce in *. lia. }
  assert (nonce w1 = nonce w) as Hn1 by (unfold nonce; by rewrite Hl1).
  destruct es as [|x es].
  { apply wph_ret. split; [by eexists|]. apply HQ; [done| |lia]. cbn. lia. }
  apply wph_bind, wph_bind, wph_claimLoop; [done|by rewrite Hn1|].
  intros tr w2 Htr Hn2 Hh2. cbn. split; [by eexists|]. apply HQ; [|by rewrite Hn2, Hn1|lia].
  unfold claims in *. cbn. by rewrite !app_nil_r.
Qed.

(** ** One iteration *)

(** From height [h] in state [w] the oracle gets to [h'] and [w']: it claims exactly the events
    from the validator's last claim to the new one, and nothing before [h'] is left. *)
Definition advances (h : Z) (w : W) (h' : Z) (tr : list (Effects.event OrchI)) (w' : W) : Prop :=
  h <= h' /\ sane_height h' /\ head w <= head w' /\ nonce w <= nonce w' /\
  claims tr = map (fun x => (x, None)) (segment log (nonce w) (nonce w')) /\
  dealt_before log h' (nonce w').

Lemma advances_same h w tr w' :
  sane_height h -> dealt_before log h (nonce w) -> claims tr = [] -> same w w' -> advances h w h tr w'.
Proof.
  intros Hh Hd Hc [Hl Hw]. unfold advances, nonce. rewrite Hl, segment_nil. repeat split; try done; try lia; apply Hh.
Qed.

Lemma pending_in n hi : Forall (fun x => x ∈ log) (pending log n hi).
Proof. apply Forall_forall. by intros x [_ Hx]%list_elem_of_filter. Qed.

(** The first pending event is the next one. *)
Lemma pending_first n hi x es :
  0 <= n < 2 ^ 64 - 1 -> numbered_from n (pending log n hi) -> pending log n hi = x :: es ->
  negb (u64 (n + 1) =? Nonce x) = false.
Proof.
  intros Hn Hnum Hp. rewrite Hp in Hnum. apply numbered_cons in Hnum as [-> _].
  rewrite u64_small by (unfold is_u64; lia). by rewrite Z.eqb_refl.
Qed.

Lemma wph_claim_new h hi w evs :
  0 <= nonce w < 2 ^ 64 - 1 -> h <= hi -> sane_height hi -> dealt_before log h (nonce w) ->
  evs ≡ₚ blocks_of log h hi ->
  wph node (claim_new l h hi evs (last w)) w (fun o tr w' => o = Done (hi, None) /\ advances h w hi tr w').
Proof.
  intros Hn Hhi Hs Hd Hevs. unfold claim_new. change (EthereumEventNonce (last w)) with (nonce w).
  rewrite (new_events_pending log (nonce w) h hi evs Hlog (proj1 Hn) Hd Hevs).
  destruct (pending_segment log (nonce w) hi Hlog (proj1 Hn)) as (n' & Hle & Hseg & Hlen & Hnum & Hall).
  assert (forall tr w', claims tr = map (fun x => (x, None)) (pending log (nonce w) hi) ->
            nonce w' = nonce w + Z.of_nat (length (pending log (nonce w) hi)) -> head w <= head w' ->
            advances h w hi tr w') as Hadv.
  { intros tr w' Htr Hn' Hh'. assert (nonce w' = n') as Hn'' by lia. unfold advances. rewrite Hn'', <- Hseg.
    split; [done|]. split; [done|]. split; [done|]. split; [done|]. split; [done|].
    intros e He Hb. apply Hall; [done|lia]. }
  destruct (pending log (nonce w) hi) as [|x es] eqn:Hp.
  { apply wph_ret. split; [done|]. apply Hadv; [done| |lia]. cbn. lia. }
  rewrite <- Hp in Hnum. rewrite (pending_first _ _ _ _ Hn Hnum Hp), <- Hp. apply wph_bind.
  apply wph_sendNewEventClaims; [apply pending_in|done|]. intros tr w' Htr Hn' Hh'. apply wph_ret.
  split; [done|]. rewrite app_nil_r. apply Hadv; [by rewrite Htr, Hp|by rewrite Hn', Hp|done].
Qed.

(** One iteration: no error, and it gets 2000 blocks further or up to the confirmed head. *)
Lemma wph_observeEthEvents h w :
  sane_height h -> dealt_before log h (nonce w) ->
  wph node (observeEthEvents l h) w (fun o tr w' => exists h',
    o = Done (h', None) /\ advances h w h' tr w' /\
    Z.min (h + defaultBlocksToSearch) (head w - ethBlockConfirmationDelay) <= h').
Proof.
  intros Hh Hd. unfold observeEthEvents. destruct (ans_valset Hans w) as (vs & Hvs & Hb).
  eapply wph_ask; [done|exact Hvs|]. intros w1 H1. cbn [deref mbind prog_mbind prog_bind]. rewrite Hb. cbn [negb].
  apply wph_bind, wph_getLatestEthHeight. intros tr2 w2 Htr2 H2. pose proof (same_trans _ _ _ H1 H2) as H12.
  destruct (ans_head Hans w1) as [_ Hsane].
  assert (Z.min (h + defaultBlocksToSearch) (head w - ethBlockConfirmationDelay) <= h ->
    forall tr w', claims tr = [] -> same w w' -> exists h' : Z,
      Done (A := Z * error) (h, None) = Done (h', None) /\ advances h w h' tr w' /\
      Z.min (h + defaultBlocksToSearch) (head w - ethBlockConfirmationDelay) <= h') as Hstay.
  { intros Hle tr w' Htr Hw. exists h. split; [done|]. split; [|done]. by apply advances_same. }
  assert (head w <= head w1) as Hw1 by apply H1.
  unfold ethBlockConfirmationDelay, defaultBlocksToSearch, sane_height in *.
  destruct (Z.leb_spec (head w1) 12) as [Hlow|Hhigh].
  { apply wph_ret, Hstay; [lia| |done]. unfold claims in *. cbn. by rewrite app_nil_r. }
  rewrite (u64_small (head w1 - 12)), (u64_small (h + 2000)) by (unfold is_u64; lia).
  destruct (Z.leb_spec (head w1 - 12) h) as [Hdone|Hmore].
  { apply wph_ret, Hstay; [lia| |done]. unfold claims in *. cbn. by rewrite app_nil_r. }
  set (hi := if h + 2000 <? head w1 - 12 then h + 2000 else head w1 - 12).
  assert (hi = Z.min (h + 2000) (head w1 - 12)) as Hhi by (unfold hi; destruct (Z.ltb_spec (h + 2000) (head w1 - 12)); lia).
  apply wph_bind, wph_getEthEvents; [destruct H2; lia|]. intros evs tr3 w3 Hevs Htr3 H3.
  pose proof (same_trans _ _ _ H12 H3) as H13.
  apply wph_bind, wph_getLastClaimEvent. intros tr4 w4 Htr4 H4.
  pose proof (same_trans _ _ _ H13 H4) as H14. destruct (ans_last Hans w3) as [_ Hrange].
  cbn [deref mbind prog_mbind prog_bind]. rewrite <- (proj1 H4).
  assert (nonce w4 = nonce w) as Hn4 by (unfold nonce; by rewrite (proj1 H14)).
  assert (nonce w3 = nonce w) as Hn3 by (unfold nonce; by rewrite (proj1 H13)).
  eapply wph_mono; [apply (wph_claim_new h hi w4 evs)|].
  - by rewrite Hn4, <- Hn3.
  - lia.
  - unfold sane_height. lia.
  - by rewrite Hn4.
  - done.
  - intros o tr w' [-> (Ha1 & Ha2 & Ha3 & Ha4 & Ha5 & Ha6)]. exists hi. split; [done|]. rewrite Hn4 in *.
    destruct H14 as [_ Hh4]. split; [|lia]. split; [lia|]. split; [done|]. split; [lia|]. split; [done|].
    split; [|done]. rewrite <- Ha5. unfold claims in *. cbn. by rewrite !omap_app, Htr2, Htr3, Htr4.
Qed.

(** ** The loop *)
Lemma advances_trans h w h1 tr1 w1 h2 tr2 w2 tr :
  0 <= nonce w -> advances h w h1 tr1 w1 -> advances h1 w1 h2 tr2 w2 -> claims tr = claims tr1 ++ claims tr2 ->
  advances h w h2 tr w2.
Proof.
  intros H0 (A1 & A2 & A3 & A4 & A5 & A6) (B1 & B2 & B3 & B4 & B5 & B6) Htr. unfold advances.
  rewrite Htr, A5, B5, <- map_app, segment_app by lia. repeat split; try done; try lia; apply B2.
Qed.

Lemma wph_reset d w Q :
  (forall w', same w w' -> Q (Done tt) [OEv (TimerReset d) tt] w') -> wph node (ocall (TimerReset d)) w Q.
Proof.
  intros HQ. apply (wph_call (I := OrchI)). specialize (HQ (node (TimerReset d) w).2).
  destruct (node (TimerReset d) w).1. apply HQ. by apply (same_call (TimerReset d)).
Qed.

Lemma wph_loop fuel h w :
  sane_height h -> dealt_before log h (nonce w) ->
  wph node (loop defaultLoopDur (observeEthEvents l) fuel h) w (fun o tr w' => exists h',
    o = Done None /\ advances h w h' tr w' /\
    Z.min (h + defaultBlocksToSearch * Z.of_nat fuel) (head w - ethBlockConfirmationDelay) <= h').
Proof.
  revert h w. induction fuel as [|fuel IH]; intros h w Hh Hd; cbn [loop].
  { apply wph_ret. exists h. split; [done|]. split; [apply advances_same; try done; apply same_refl|]. lia. }
  destruct (ans_last Hans w) as [_ H0].
  eapply wph_ask; [done|apply (ans_timer Hans)|]. intros w1 H1. cbn [negb].
  eapply wph_ask; [done|done|]. intros w2 H2. pose proof (same_trans _ _ _ H1 H2) as H12.
  assert (nonce w2 = nonce w) as Hn2 by (unfold nonce; by rewrite (proj1 H12)).
  apply wph_bind. eapply wph_mono; [apply wph_observeEthEvents; [done|by rewrite Hn2]|].
  intros o tr w3 (h1 & -> & Hadv & Hle).
  eapply wph_ask; [done|done|]. intros w4 H4. apply wph_bind.
  apply (wph_mono node _ w4 (fun o tr' w' => o = Done tt /\ claims tr' = [] /\ same w4 w')).
  { destruct (_ <=? _); apply wph_reset; by intros w' Hw'. }
  intros o tr5 w5 (-> & Htr5 & H5). pose proof (same_trans _ _ _ H4 H5) as [Hl35 Hh35].
  assert (nonce w5 = nonce w3) as Hn5 by (unfold nonce; by rewrite Hl35).
  pose proof Hadv as (A1 & A2 & A3 & A4 & A5 & A6).
  eapply wph_mono; [apply IH; [done|by rewrite Hn5]|].
  intros o tr6 w6 (h2 & -> & Hadv2 & Hle2). exists h2. split; [done|]. destruct H12 as [_ Hh12]. split.
  - assert (advances h w h1 tr w5) as Hadv1.
    { unfold advances. rewrite Hn5, <- Hn2. repeat split; try done; try lia; apply A2. }
    eapply (advances_trans h w h1 tr w5 h2 tr6 w6); [lia|done|done|].
    unfold claims in *. cbn. rewrite omap_app. cbn. by rewrite omap_app, Htr5.
  - unfold defaultBlocksToSearch, ethBlockConfirmationDelay in *. lia.
Qed.
End live.

(** ** The events of the bridge contract *)

(** A contract event in a block, as the generated binding hands it to the oracle. *)
Definition oracle_event (ev : ContractEvent) (block : Z) : event :=
  match ev with
  | EvValsetUpdated newNonce n rewardAmount rewardToken validators powers =>
      valsetUpdate (MkValsetUpdatedEvent newNonce n rewardAmount rewardToken validators powers block)
  | EvBatchExecuted batchNonce token n => withdrawal (MkBatchExecutedEvent batchNonce token n block)
  | EvSendToInjective token sender destination amount n data =>
      deposit (MkSendToInjectiveEvent token sender destination amount n data block)
  | EvERC20Deployed denom token name symbol decimals n =>
      erc20Deployment (MkERC20DeployedEvent denom token name symbol decimals n block)
  end.

Definition oracle_log (log : list ContractEvent) (blocks : list Z) : list event :=
  zip_with oracle_event log blocks.

Lemma oracle_event_nonce ev b : Nonce (oracle_event ev b) = big_Uint64 (event_nonce ev).
Proof. by destruct ev. Qed.

Lemma oracle_event_block ev b : event_block (oracle_event ev b) = b.
Proof. by destruct ev. Qed.

Lemma oracle_log_blocks log blocks :
  StronglySorted Z.le blocks -> StronglySorted block_le (oracle_log log blocks).
Proof.
  intros Hb. revert log. induction Hb as [|b blocks _ IH Hall]; intros [|ev log]; try constructor; [apply IH|].
  apply Forall_forall. intros x Hx%elem_of_zip_with. destruct Hx as (ev' & b' & -> & _ & Hb').
  unfold block_le. rewrite !oracle_event_block. by apply (proj1 (Forall_forall _ _) Hall).
Qed.

(** The numbering of the contract is the one that the oracle relies on. *)
Lemma oracle_log_ordered {GE : Geth} {EV : Evm} p log blocks :
  reachable p log -> state_lastEventNonce (core p) < 2 ^ 64 -> StronglySorted Z.le blocks ->
  ordered_log (oracle_log log blocks).
Proof.
  intros Hr Hs Hb. split; [|by apply oracle_log_blocks].
  intros i x Hx. unfold oracle_log in Hx.
  apply lookup_zip_with_Some in Hx as (ev & b & -> & Hev & _). rewrite oracle_event_nonce.
  assert (map event_nonce log !! i = Some (event_nonce ev)) as Hi by (rewrite list_lookup_fmap; by rewrite Hev).
  rewrite (reachable_numbered p log Hr) in Hi. apply lookup_seqZ in Hi as [Hi1 Hi2].
  rewrite big_Uint64_small; [lia|]. unfold is_u64. lia.
Qed.

(** ** From the start of the orchestrator *)

(** The last claim on Injective is that of an event of the log, at its block, or there is none
    and every event is at or after the start height of the bridge; [GetPeggyID] answers. *)
Record starting (l : Orchestrator) (log : list event) {W} (node : handler OrchI W)
    (last : W -> LastClaimEvent) (w : W) : Prop := {
  st_last : (exists y, y ∈ log /\ Nonce y = nonce last w /\ event_block y = EthereumEventHeight (last w)) \/
    last w = MkLastClaimEvent 0 0;
  st_sane : sane_height (EthereumEventHeight (last w));
  st_params w : exists p, (node PeggyParams w).1 = (Some p, None) /\ sane_height (BridgeContractStartHeight p) /\
    forall x, x ∈ log -> BridgeContractStartHeight p <= event_block x;
  st_peggyID w : exists id, (node GetPeggyID w).1 = (id, None)
}.

Section start.
Context {GE : Geth} {RL : RetryLib OrchI} {RA : RetryAttempts OrchI}.
Context (l : Orchestrator) (log : list event) {W : Type} (node : handler OrchI W).
Context (last : W -> LastClaimEvent) (head : W -> Z).
Context (Hans : answering l log node last head) (Hlog : ordered_log log).

(** The start height leaves out no event that is not claimed. *)
Lemma sorted_blocks es i j x y :
  StronglySorted block_le es -> es !! i = Some x -> es !! j = Some y -> (i < j)%nat -> block_le x y.
Proof.
  intros Hs. revert i j. induction Hs as [|z es _ IH Hz]; intros [|i] [|j] Hx Hy Hij; try done; cbn in *; try lia.
  - injection Hx as ->. by eapply Forall_lookup_1.
  - apply (IH i j); [done|done|lia].
Qed.

Lemma start_dealt w :
  starting l log node last w -> EthereumEventHeight (last w) <> 0 ->
  dealt_before log (EthereumEventHeight (last w)) (nonce last w).
Proof.
  intros [[(y & Hy & Hny & Hby)|Hl] _ _ _] H0 x Hx Hb; [|by rewrite Hl in H0].
  destruct Hlog as [Hn Hs]. rewrite <- Hny. apply Z.nlt_ge. intros Hlt.
  apply list_elem_of_lookup in Hx as [i Hi]. apply list_elem_of_lookup in Hy as [j Hj].
  rewrite (Hn _ _ Hi), (Hn _ _ Hj) in Hlt.
  pose proof (sorted_blocks _ _ _ _ _ Hs Hj Hi ltac:(lia)) as Hle. unfold block_le in Hle. lia.
Qed.

(** The loop from a height before which everything is dealt with. *)
Lemma wph_runOracle fuel h w :
  maxAttempts l <> 0%nat -> sane_height h -> dealt_before log h (nonce last w) ->
  wph node (runOracle fuel l h) w (fun o tr w' =>
    o = Done None /\
    claims tr = map (fun x => (x, None)) (segment log (nonce last w) (nonce last w')) /\
    forall x, x ∈ log -> event_block x < h + 2000 * Z.of_nat fuel -> event_block x + 12 < head w ->
      Nonce x <= nonce last w').
Proof.
  intros Hatt Hh Hd. apply wph_recover.
  eapply wph_mono; [by apply (wph_loop l log node last head Hans Hlog Hatt)|].
  intros o tr w' (h' & -> & (_ & _ & _ & _ & Hc & Hd') & Hle). split; [done|]. split; [done|].
  intros x Hx H1 H2. apply Hd'; [done|]. unfold defaultBlocksToSearch, ethBlockConfirmationDelay in *. lia.
Qed.

(** Validator mode starts the oracle at such a height. *)
Lemma wph_startValidatorMode w :
  starting l log node last w ->
  wph node (startValidatorMode l) w (fun o _ w' => exists h id,
    o = Done (Start [RunOracle h; RunSigner id; RunBatchCreator; RunRelayer]) /\
    sane_height h /\ dealt_before log h (nonce last w) /\ same last head w w').
Proof.
  intros Hst. pose proof (ans_last _ _ _ _ _ Hans w) as [Hlast Hrange].
  assert (forall h w1, same last head w w1 -> sane_height h -> dealt_before log h (nonce last w) ->
    wph node ('(peggyContractID, err) ← ocall GetPeggyID;
      match err with
      | Some _ => mret (Fatal "unable to query peggy ID from contract")
      | None => mret (Start [RunOracle h; RunSigner peggyContractID; RunBatchCreator; RunRelayer])
      end) w1 (fun o _ w' => exists h id,
        o = Done (Start [RunOracle h; RunSigner id; RunBatchCreator; RunRelayer]) /\
        sane_height h /\ dealt_before log h (nonce last w) /\ same last head w w')) as Hend.
  { intros h w1 H1 Hh Hd. destruct (st_peggyID _ _ _ _ _ Hst w1) as [id Hid].
    eapply (wph_ask l log node last head Hans GetPeggyID); [done|exact Hid|]. intros w2 H2. apply wph_ret.
    exists h, id. split; [done|]. split; [done|]. split; [done|]. by eapply same_trans. }
  unfold startValidatorMode, getLastClaimBlockHeight.
  apply wph_bind. eapply (wph_ask l log node last head Hans (LastClaimEventByAddr _)); [done|exact Hlast|].
  intros w1 H1. apply wph_ret. apply wph_bind.
  destruct (Z.eqb_spec (EthereumEventHeight (last w)) 0) as [H0|H0].
  - destruct (st_params _ _ _ _ _ Hst w1) as (p & Hp & Hps & Hpb).
    eapply (wph_ask l log node last head Hans PeggyParams); [done|exact Hp|]. intros w2 H2. apply wph_ret.
    apply Hend; [by eapply same_trans|done|]. intros x Hx Hb. specialize (Hpb x Hx). lia.
  - apply wph_ret. apply Hend; [done|apply (st_sane _ _ _ _ _ Hst)|by apply start_dealt].
Qed.
End start.

(** A validator's orchestrator claims every event of the bridge, once and in order.
    For every log that the contract can have emitted, in blocks of increasing numbers: while
    the nodes answer, Injective's last claim is that of an event of the log (or there is none)
    and Injective accepts the claims that are next, the start-up starts the oracle at some
    block [h]; then [n] iterations end without error, their claims are exactly the events from
    the validator's last claim to its new one, and that one covers every event before block
    [h + 2000 n] that has 12 confirmations. *)
Lemma validator_mode_claims_all {GE : Geth} {EV : Evm} {RL : RetryLib OrchI} {RA : RetryAttempts OrchI}
    p clog blocks l {W} (node : handler OrchI W) last head fuel w :
  reachable p clog -> state_lastEventNonce (core p) < 2 ^ 64 -> StronglySorted Z.le blocks ->
  let log := oracle_log clog blocks in
  answering l log node last head -> starting l log node last w ->
  maxAttempts l <> 0%nat -> RelayerMode (cfg l) = false ->
  wph node (Run l) w (fun o _ w1 => exists h id,
    o = Done (Start [RunOracle h; RunSigner id; RunBatchCreator; RunRelayer]) /\
    wph node (runOracle fuel l h) w1 (fun o tr w' =>
      o = Done None /\
      claims tr = map (fun x => (x, None)) (segment log (nonce last w) (nonce last w')) /\
      forall x, x ∈ log -> event_block x < h + 2000 * Z.of_nat fuel -> event_block x + 12 < head w ->
        Nonce x <= nonce last w')).
Proof.
  intros Hr Hs Hb log Hans Hst Hatt Hmode. unfold Run. rewrite Hmode.
  pose proof (oracle_log_ordered _ _ _ Hr Hs Hb) as Hlog.
  eapply wph_mono; [by apply (wph_startValidatorMode l log node last head Hans Hlog)|].
  intros o tr w1 (h & id & -> & Hh & Hd & [Hl Hw]). exists h, id. split; [done|].
  assert (nonce last w1 = nonce last w) as Hn by (unfold nonce; by rewrite Hl).
  eapply wph_mono; [apply (wph_runOracle l log node last head Hans Hlog fuel h w1 Hatt Hh); by rewrite Hn|].
  intros o tr' w' (-> & Hc & Hcov). rewrite <- Hn. split; [done|]. split; [done|].
  intros x Hx H1 H2. apply Hcov; [done|done|lia].
Qed.

(** ** An example: the events of [PeggyStateFacts.Example] in three blocks *)
Module Example.
#[local] Existing Instance PeggyStateFacts.Example.evm.
#[local] Instance retry_lib : RetryLib OrchI := retry_loop_lib OrchI.
#[local] Instance retry_lib_attempts : RetryAttempts OrchI := retry_loop_attempts OrchI.

Definition orch : Orchestrator := OracleFacts.Example.orch.
Definition blocks : list Z := [100; 150; 150; 3000].
Definition log : list event := oracle_log PeggyStateFacts.Example.later_log blocks.

(** The state is the number of claims accepted. *)
Definition last (w : nat) : LastClaimEvent := MkLastClaimEvent (Z.of_nat (w `min` 4)) 0.
Definition head (w : nat) : Z := 6000.

Definition accept (x : event) (w : nat) : error * nat :=
  if Nonce x =? EthereumEventNonce (last w) + 1 then (None, S w) else (Some (ErrNew "not the next event"), w).

Definition node : handler OrchI nat := fun c w =>
  match c return orch_reply c * nat with
  | SelectTimer => (true, w)
  | CurrentValset => ((Some (MkValset 1 [MkBridgeValidator 1 (Address_Hex 0xaa)] 1 None ""), None), w)
  | GetHeaderByNumber => ((Some (head w), None), w)
  | LastClaimEventByAddr _ => ((Some (last w), None), w)
  | PeggyParams => ((Some (MkParams "" 90 ""), None), w)
  | GetSendToCosmosEvents s e => ((oldDeposits (blocks_of log s e), None), w)
  | GetSendToInjectiveEvents s e => ((deposits (blocks_of log s e), None), w)
  | GetTransactionBatchExecutedEvents s e => ((withdrawals (blocks_of log s e), None), w)
  | GetValsetUpdatedEvents s e => ((valsetUpdates (blocks_of log s e), None), w)
  | GetPeggyERC20DeployedEvents s e => ((deployments (blocks_of log s e), None), w)
  | SendOldDepositClaim x => accept (oldDeposit x) w
  | SendDepositClaim x => accept (deposit x) w
  | SendValsetClaim x => accept (valsetUpdate x) w
  | SendWithdrawalClaim x => accept (withdrawal x) w
  | SendERC20DeployedClaim x => accept (erc20Deployment x) w
  | c => (inhabitant c, w)
  end.

Lemma node_answering : answering orch log node last head.
Proof.
  split; try done.
  - intros c w Hc. split; [by destruct c|unfold head; lia].
  - intros w. eexists. split; [done|]. by vm_compute.
  - intros w. split; [done|]. unfold nonce, last. cbn [EthereumEventNonce]. lia.
  - intros x w Hx Hn.
    assert (ordered_log log) as [Hnum _].
    { apply (oracle_log_ordered PeggyStateFacts.Example.later); [|done|by repeat constructor; try done].
      apply history_reachable, PeggyStateFacts.Example.later_history. }
    pose proof (numbered_bounds _ _ _ Hnum Hx) as [_ Hmax]. change (length log) with 4%nat in Hmax.
    assert (wph node (sendEthEventClaim x) w (fun o _ w' => o = Done None /\ w' = S w)) as H.
    { unfold nonce in Hn. apply Z.eqb_eq in Hn. unfold wph. destruct x; cbn; unfold accept; by rewrite Hn. }
    eapply wph_mono; [exact H|]. intros o tr w' [-> ->]. split; [done|]. unfold nonce, last, head in *.
    cbn [EthereumEventNonce] in *. lia.
Qed.

Lemma validator_mode_claims_all_witness :
  wph node (Run orch) 0%nat (fun o _ w1 => exists h id,
    o = Done (Start [RunOracle h; RunSigner id; RunBatchCreator; RunRelayer]) /\
    wph node (runOracle 3 orch h) w1 (fun o tr w' =>
      o = Done None /\
      claims tr = map (fun x => (x, None)) (segment log 0 (nonce last w')) /\
      forall x, x ∈ log -> event_block x < h + 2000 * 3 -> event_block x + 12 < 6000 -> Nonce x <= nonce last w')).
Proof.
  apply (validator_mode_claims_all PeggyStateFacts.Example.later PeggyStateFacts.Example.later_log blocks orch node
           last head 3 0%nat).
  - apply history_reachable, PeggyStateFacts.Example.later_history.
  - done.
  - by repeat constructor.
  - apply node_answering.
  - split; [by right|done| |by eexists].
    intros w. exists (MkParams "" 90 ""). split; [done|]. split; [done|].
    intros x Hx. apply elem_of_zip_with in Hx as (ev & b & -> & _ & Hb). rewrite oracle_event_block. cbn.
    unfold blocks in Hb. rewrite !elem_of_cons, elem_of_nil in Hb. lia.
  - done.
  - done.
Defined.

(** All four events are claimed in the second iteration. *)
Example two_iterations_claim_all :
  claims (exec node (runOracle 2 orch 90) 0%nat).1.2 = map (fun x => (x, None)) log.
Proof. by vm_compute. Qed.
End Example.
