(* ===== verification/RelayerContract.v ===== *)
(** * RelayerContract: the relayer finds the validator set that the contract has

    The contract keeps only the checkpoint of its validator set, so that the relayer has to
    find the set in the events.  With calls that never pass two different sets of one
    checkpoint, the [ValsetUpdatedEvent] with the highest nonce is the current set; the
    search of the relayer returns it as it is when its members are in the order of
    [BridgeValidators.Sort], and in another order, which the contract refuses, when not. *)
From S2P Require Import Prelude Effects GoFloat Types External Model PeggySol PeggyState PeggyStateFacts.
From S2P Require Import Confirmations Checkpoint GoSort Interfaces Oracle OracleFacts Relayer RelayerFacts OracleLive.

(** ** The validator sets of a contract *)
Section contract.
Context {GE : Geth} {EV : Evm}.

Definition sets_of (k : contract_call) : list ValsetArgs :=
  match k with
  | Initialize _ _ validators powers => [MkValsetArgs validators powers 0 0 0]
  | UpdateValset new cur _ _ _ => [new; cur]
  | _ => []
  end.

(** A contract since its initialization, without calls back, with the sets that were passed
    to the calls that it accepted. *)
Inductive history_with : list ValsetArgs -> Peggy -> list ContractEvent -> Prop :=
  | hw_init m t id th validators powers p ops evs :
      transact m t (Initialize id th validators powers) blank = Some (p, ops, evs) ->
      history_with (sets_of (Initialize id th validators powers)) p evs
  | hw_call sets m t k p log p' ops evs :
      history_with sets p log -> transact m t k p = Some (p', ops, evs) ->
      history_with (sets_of k ++ sets) p' (log ++ evs).

Lemma history_with_history sets p log : history_with sets p log -> history p log.
Proof. induction 1; [by eapply history_init|by eapply history_call]. Qed.

Lemma history_with_initialized sets p log : history_with sets p log -> initialized p = true.
Proof.
  induction 1 as [m b id th vals pows p ops evs H|sets m b k p log p' ops evs _ IH H];
    [|by destruct (transact_valset _ _ _ _ _ _ _ H IH)].
  apply transact_Some in H as (p1 & fr & Hb & _ & Ha).
  cbn in Hb. apply bind_Some in Hb as (u & _ & Hb). injection Hb as <- <- <-. cbn in Ha. by injection Ha as <- <-.
Qed.

(** No two of the sets have the same checkpoint: Keccak has no collision on them. *)
Definition no_collision (id : Hash) (sets : list ValsetArgs) : Prop :=
  forall a b, a ∈ sets -> b ∈ sets -> makeCheckpoint a id = makeCheckpoint b id -> a = b.

(** The validator set events of a log, with the sets and event nonces that they carry. *)
Definition valset_events (log : list ContractEvent) : list ContractEvent :=
  base.filter (fun ev => is_valset_event ev = true) log.

(** The current set is one of those passed, its event is the last, and the nonces of the sets
    in the log increase up to it. *)
Definition current_set (sets : list ValsetArgs) (p : Peggy) (log : list ContractEvent) (a : ValsetArgs) : Prop :=
  initialized p = true /\ a ∈ sets /\
  state_lastValsetCheckpoint (core p) = makeCheckpoint a (state_peggyId (core p)) /\
  exists n evs, valset_events log = evs ++ [valset_event a n] /\
    Forall (fun ev => exists a' n', ev = valset_event a' n' /\ a' ∈ sets /\ va_ValsetNonce a' < va_ValsetNonce a) evs.

Lemma no_collision_app id l k : no_collision id (l ++ k) -> no_collision id k.
Proof. intros H a b Ha Hb. apply H; apply elem_of_app; by right. Qed.

Lemma history_current sets p log :
  history_with sets p log -> no_collision (state_peggyId (core p)) sets -> exists a, current_set sets p log a.
Proof.
  induction 1 as [m b id th vals pows p ops evs H|sets m b k p log p' ops evs Hh IH H]; intros Hnc.
  - apply transact_Some in H as (p1 & fr & Hb & _ & Ha).
    cbn in Hb. apply bind_Some in Hb as (u & _ & Hb). injection Hb as <- <- <-.
    cbn in Ha. injection Ha as <- <-. exists (MkValsetArgs vals pows 0 0 0). split; [done|].
    split; [by left|]. split; [done|]. by exists 1, [].
  - pose proof (history_with_initialized _ _ _ Hh) as Hi.
    destruct (transact_valset _ _ _ _ _ _ _ H Hi)
      as (Hi' & Hid & [(new & cur & v & r & s & n & -> & -> & Hlt & Hcur & Hc & Hn)|(Hl & Hc & Hn)]).
    + rewrite Hid in Hnc. destruct IH as (a & _ & Ha & Hca & n' & evs & Hevs & Hall); [by eapply no_collision_app|].
      assert (cur = a) as ->.
      { apply Hnc; [right; left|by do 2 right|congruence]. }
      exists new. split; [done|]. split; [left|]. split; [congruence|].
      exists n, (valset_events log). unfold valset_events. rewrite filter_app. split; [done|].
      fold (valset_events log). rewrite Hevs. apply Forall_app. split.
      * eapply Forall_impl; [exact Hall|]. intros ev (a' & m' & -> & Ha' & Hlt'). exists a', m'.
        split; [done|]. split; [by do 2 right|lia].
      * constructor; [|constructor]. exists a, n'. split; [done|]. split; [by do 2 right|done].
    + rewrite Hid in Hnc. destruct IH as (a & _ & Ha & Hca & n' & evs' & Hevs & Hall); [by eapply no_collision_app|].
      exists a. split; [done|]. split; [apply elem_of_app; by right|]. split; [congruence|].
      exists n', evs'. unfold valset_events. rewrite filter_app. rewrite Hl, app_nil_r. split; [done|].
      eapply Forall_impl; [exact Hall|]. intros ev (a' & m' & -> & Ha' & Hlt'). exists a', m'.
      split; [done|]. split; [apply elem_of_app; by right|done].
Qed.
End contract.

(** ** What the relayer reads of it *)

(** The event of a set, with its event nonce and its block. *)
Definition update_event (a : ValsetArgs) (n block : Z) : PeggyValsetUpdatedEvent :=
  MkValsetUpdatedEvent (va_ValsetNonce a) n (va_RewardAmount a) (va_RewardToken a)
    (va_Validators a) (va_Powers a) block.

Definition valset_log (log : list ContractEvent) (blocks : list Z) : list PeggyValsetUpdatedEvent :=
  valsetUpdates (oracle_log log blocks).

Lemma valset_log_nil log blocks : valset_events log = [] -> valset_log log blocks = [].
Proof.
  revert blocks. induction log as [|ev log IH]; intros [|b blocks]; try done.
  unfold valset_events. destruct ev; cbn; try done; apply IH.
Qed.

Lemma valset_log_last log blocks evs a n :
  length blocks = length log -> StronglySorted Z.le blocks -> valset_events log = evs ++ [valset_event a n] ->
  exists l b, valset_log log blocks = l ++ [update_event a n b] /\ b ∈ blocks /\
    Forall (fun x => vue_BlockNumber x <= b /\
              exists a' n', valset_event a' n' ∈ evs /\ x = update_event a' n' (vue_BlockNumber x)) l.
Proof.
  intros Hlen Hs. revert log evs Hlen. induction Hs as [|b0 blocks _ IH Hb0]; intros [|ev log] evs Hlen Hevs;
    try done; [by destruct evs|]. injection Hlen as Hlen.
  destruct (is_valset_event ev) eqn:E.
  - destruct ev as [nn en ra rt vs ps| | |]; try done. set (a0 := MkValsetArgs vs ps nn ra rt).
    change (EvValsetUpdated nn en ra rt vs ps :: valset_events log = evs ++ [valset_event a n]) in Hevs.
    change (valset_log (EvValsetUpdated nn en ra rt vs ps :: log) (b0 :: blocks))
      with (update_event a0 en b0 :: valset_log log blocks).
    destruct evs as [|e0 evs]; injection Hevs as He Hevs.
    + exists [], b0. rewrite valset_log_nil by done. split; [|split; [left|done]].
      destruct a as [? ? ? ? ?]. cbn in *. by simplify_eq.
    + destruct (IH log evs Hlen Hevs) as (l & b & -> & Hb & Hl).
      exists (update_event a0 en b0 :: l), b. split; [done|]. split; [by right|]. constructor.
      * split; [by apply (proj1 (Forall_forall _ _) Hb0)|]. exists a0, en. split; [|done]. rewrite <- He. left.
      * eapply Forall_impl; [exact Hl|]. intros x (Hx & a' & n' & Ha' & Heq). split; [done|].
        exists a', n'. split; [by right|done].
  - assert (valset_events (ev :: log) = valset_events log) as Hsame by (by destruct ev).
    rewrite Hsame in Hevs. destruct (IH log evs Hlen Hevs) as (l & b & Hl & Hb & Hall).
    exists l, b. split; [by destruct ev|]. split; [by right|done].
Qed.

Section relayer.
Context {GE : Geth}.

(** A set that the relayer can represent. *)
Record fits (a : ValsetArgs) : Prop := {
  ft_length : length (va_Validators a) = length (va_Powers a);
  ft_validators : Forall is_addr (va_Validators a);
  ft_powers : Forall is_u64 (va_Powers a);
  ft_nonce : is_u64 (va_ValsetNonce a);
  ft_token : is_addr (va_RewardToken a)
}.

(** Its members are in the order of [BridgeValidators.Sort]. *)
Definition canonical (a : ValsetArgs) : Prop :=
  forall ms, event_members (va_Powers a) (va_Validators a) = Some ms -> go_sorted validator_less ms.

Lemma event_members_args powers validators ms :
  length validators = length powers -> Forall is_addr validators -> Forall is_u64 powers ->
  event_members powers validators = Some ms ->
  map (fun m => HexToAddress (EthereumAddress m)) ms = validators /\ map Power ms = powers.
Proof.
  intros Hl Hv Hp. revert validators ms Hl Hv. induction Hp as [|p powers Hp _ IH]; intros [|v validators] ms Hl Hv;
    try done; cbn; [by intros [= <-]|].
  apply Forall_cons in Hv as [Hv Hvs]. intros (ms' & Hms & [= <-])%bind_Some.
  destruct (IH validators ms' ltac:(by injection Hl) Hvs Hms) as [<- <-]. cbn.
  by rewrite (HexToAddress_Hex v Hv), (big_Uint64_small p Hp).
Qed.

(** The arguments that the relayer makes of the set of an event are those of the event. *)
Lemma valset_args_of_event v a n b :
  fits a -> canonical a -> is_valset_of v (update_event a n b) -> valset_args_of v = Some a.
Proof.
  intros [Hl Hv Hp Hn Ht] Hcan (Hnonce & Hr & Htok & ms & Hms & _ & Hsorted). cbn in *.
  specialize (Hsorted (Hcan ms Hms)). destruct (event_members_args _ _ _ Hl Hv Hp Hms) as [Hvs Hps].
  unfold valset_args_of, valset_args, validatorsAndPowers. rewrite Hr, Hnonce, Htok, Hsorted. cbn.
  rewrite Hvs, Hps, (HexToAddress_Hex _ Ht), (big_Uint64_small _ Hn). by destruct a.
Qed.
End relayer.

(** ** The composition *)
Section composition.
Context {GE : Geth} {EV : Evm} {RL : RetryLib OrchI}.

(** What the relayer is told of the chain: the filter answers with the events of the log in
    the range, neither more nor less, and no event is in a block after the head. *)
Definition tells (log : list PeggyValsetUpdatedEvent) (blocks : list Z) (ev : Effects.event OrchI) : Prop :=
  match ev with
  | existT (GetValsetUpdatedEvents s e) r =>
      r.2 = None -> forall x, x ∈ r.1 <-> x ∈ log /\ s <= vue_BlockNumber x <= e
  | existT GetHeaderByNumber (Some n, None) => forall b, b ∈ blocks -> 0 < b <= big_Uint64 n
  | _ => True
  end.

Lemma tells_complete log blocks tr : Forall (tells log blocks) tr -> Forall (complete_valsets log) tr.
Proof.
  intros Ht. eapply Forall_impl; [exact Ht|]. intros [c r] H. destruct c; try done.
  intros Hr x Hx Hb. by apply (H Hr).
Qed.

Lemma tells_update log blocks tr s e evs ev :
  Forall (tells log blocks) tr -> OEv (GetValsetUpdatedEvents s e) (evs, None) ∈ tr -> ev ∈ evs ->
  ev ∈ log /\ s <= vue_BlockNumber ev.
Proof.
  intros Ht Hin Hev. pose proof (proj1 (Forall_forall _ _) Ht _ Hin eq_refl ev) as H. cbn in H. naive_solver lia.
Qed.

(** All that the relayer can find and the contract can have: sets that fit, in order, and
    without a collision of checkpoints. *)
Record well_behaved (id : Hash) (sets : list ValsetArgs) : Prop := {
  wl_fits : Forall fits sets;
  wl_canonical : Forall canonical sets;
  wl_no_collision : no_collision id sets
}.

(** The last event of the log has the highest nonce and is in the last block; the members of
    every event are complete. *)
Lemma latest_update sets p clog blocks :
  history_with sets p clog -> well_behaved (state_peggyId (core p)) sets ->
  length blocks = length clog -> StronglySorted Z.le blocks ->
  exists a n b, a ∈ sets /\ fits a /\ canonical a /\ b ∈ blocks /\
    state_lastValsetCheckpoint (core p) = makeCheckpoint a (state_peggyId (core p)) /\
    update_event a n b ∈ valset_log clog blocks /\
    forall x, x ∈ valset_log clog blocks ->
      vue_BlockNumber x <= b /\ length (vue_Validators x) = length (vue_Powers x) /\
      (va_ValsetNonce a <= vue_NewValsetNonce x -> x = update_event a n b).
Proof.
  intros Hh [Hf Hc Hn] Hlen Hs. rewrite Forall_forall in Hf, Hc.
  destruct (history_current _ _ _ Hh Hn) as (a & _ & Ha & Hca & n & evs & Hevs & Hall).
  destruct (valset_log_last _ _ _ _ _ Hlen Hs Hevs) as (l & b & Hl & Hb & Hle).
  exists a, n, b. split; [done|]. split; [by apply Hf|]. split; [by apply Hc|].
  split; [done|]. split; [done|]. rewrite Hl. split; [apply elem_of_app; right; left|].
  intros x [Hx|Hx%list_elem_of_singleton]%elem_of_app; [|subst x; by split; [|split; [apply (Hf a Ha)|]]].
  destruct (proj1 (Forall_forall _ _) Hle x Hx) as (Hxb & a' & n' & Hin & Heq). split; [done|].
  destruct (proj1 (Forall_forall _ _) Hall _ Hin) as (a'' & n'' & He & Ha'' & Hlt). rewrite Heq.
  assert (a'' = a') as -> by (destruct a', a''; injection He; intros; cbn in *; congruence).
  split; [by apply Hf|]. cbn. lia.
Qed.

Lemma event_members_total powers validators :
  length validators = length powers -> event_members powers validators <> None.
Proof.
  revert validators. induction powers as [|q powers IH]; intros [|v validators]; try done.
  intros [= Hl]. cbn. by destruct (event_members powers validators) eqn:E; [|destruct (IH validators Hl)].
Qed.

(** The relayer finds the validator set that the contract has.  After any calls without
    re-entrancy, none of which passes two sets with one checkpoint, and while the node reports
    the contract's events truthfully, [findLatestValsetOnEth] ends, does not report "not found"
    and does not index out of range; the set that it returns makes the contract's arguments
    with the very checkpoint that the contract has.  The sets have to be in the order of
    [BridgeValidators.Sort]. *)
Lemma relayer_finds_current_set sets p clog blocks :
  history_with sets p clog -> well_behaved (state_peggyId (core p)) sets ->
  length blocks = length clog -> StronglySorted Z.le blocks ->
  wp findLatestValsetOnEth (fun tr o => Forall (tells (valset_log clog blocks) blocks) tr ->
    (exists v a, o = Done (Some (Some v, None)) /\ a ∈ sets /\ valset_args_of v = Some a /\
       makeCheckpoint a (state_peggyId (core p)) = state_lastValsetCheckpoint (core p)) \/
    (exists e m, o = Done (Some (None, Some (ErrWrap e m)))) \/
    o = Crashed nil_dereference).
Proof.
  intros Hh Hw Hlen Hs.
  destruct (latest_update _ _ _ _ Hh Hw Hlen Hs) as (a & n & b & Ha & Hf & Hcan & Hb & Hc & Hin & Hmax).
  eapply wp_mono; [apply findLatestValsetOnEth_latest|].
  intros tr o [_ [(head & Hhead & Hpost)|[H|H]]] Ht; [|by right; left|by right; right].
  pose proof (proj1 (Forall_forall _ _) Ht _ Hhead b Hb) as Hbh. cbn in Hbh.
  specialize (Hpost _ (tells_complete _ _ _ Ht)).
  destruct o as [[[[v|] [[e|e m]|]]|]|c]; try done.
  - left. destruct Hpost as (s & ev & Hv & _ & (e & evs & Hask & Hev) & Hnonce).
    destruct (tells_update _ _ _ _ _ _ _ Ht Hask Hev) as [Hlog Hse]. destruct (Hmax ev Hlog) as (Hevb & _ & Heq).
    rewrite Heq in Hv by (apply (Hnonce _ Hin); cbn; lia).
    exists v, a. split; [done|]. split; [done|]. split; [by eapply valset_args_of_event|done].
  - exfalso. apply (Hpost ltac:(lia) _ Hin). cbn. lia.
  - by right; left; eexists _, _.
  - exfalso. destruct Hpost as (_ & s & e & evs & ev & Hask & Hev & Hnone).
    destruct (tells_update _ _ _ _ _ _ _ Ht Hask Hev) as [Hlog _]. destruct (Hmax ev Hlog) as (_ & Hl & _).
    by apply event_members_total in Hnone.
Qed.
End composition.

(** ** Examples *)
Module Example.
#[local] Existing Instance PeggyStateFacts.Example.evm.
#[local] Instance retry_lib : RetryLib OrchI := retry_loop_lib OrchI.
Import PeggyStateFacts.Example.

(** A node that tells the truth of a log, with the head at block 6000; the contract's last
    nonce is that of the set [vs] of Injective. *)
Definition node (log : list PeggyValsetUpdatedEvent) (vs : Valset) : handler OrchI () := fun c w =>
  match c return orch_reply c * () with
  | GetHeaderByNumber => ((Some 6000, None), w)
  | GetValsetNonce => ((Some (vs_Nonce vs), None), w)
  | ValsetAt _ => ((Some vs, None), w)
  | GetValsetUpdatedEvents s e =>
      ((base.filter (fun x => s <= vue_BlockNumber x <= e) log, None), w)
  | c => (inhabitant c, w)
  end.

Lemma node_tells log blocks vs :
  (forall b, b ∈ blocks -> 0 < b <= 6000) -> Forall (tells log blocks) (exec (node log vs) findLatestValsetOnEth ()).1.2.
Proof.
  intros Hb. apply exec_Forall. intros c w. destruct c; try done. cbn. intros _ x. rewrite list_elem_of_filter. tauto.
Qed.

(** The contract of [PeggyStateFacts.Example]. *)
Definition later_sets : list ValsetArgs := [args 4 0 0; args 0 0 0; args 0 0 0].

Lemma later_history_with : history_with later_sets later later_log.
Proof.
  assert (history_with [args 0 0 0] started [first_event]) as H0
    by (by eapply (hw_init m nothing 42 5 [0xaa] [10])).
  eapply (hw_call _ m nothing batch) in H0; [|by vm_compute].
  eapply (hw_call _ m nothing deposit) in H0; [|by vm_compute].
  eapply (hw_call _ m nothing (update (args 4 0 0) (args 0 0 0))) in H0; [exact H0|by vm_compute].
Qed.

Lemma later_well_behaved : well_behaved 42 later_sets.
Proof.
  split.
  - repeat constructor; cbn; unfold is_addr, is_u64; lia.
  - assert (forall x y z, canonical (args x y z)) as H.
    { intros x y z ms [= <-] [|i] [|j] ? ? ? ?; done || lia. }
    by repeat constructor.
  - assert (makeCheckpoint (args 4 0 0) 42 <> makeCheckpoint (args 0 0 0) 42) as Hne by (by vm_compute).
    unfold later_sets. set (x := args 4 0 0) in *. set (y := args 0 0 0) in *. clearbody x y.
    intros a b. rewrite !elem_of_cons, !elem_of_nil.
    intros [->|[->|[->|[]]]] [->|[->|[->|[]]]] Heq;
      first [reflexivity|exfalso; apply Hne; congruence].
Qed.

(** It is found in the second window of the search. *)
Example current_set_found :
  let run := exec (node (valset_log later_log [100; 150; 150; 3000]) (MkValset 4 [] 0 None "")) findLatestValsetOnEth () in
  match run.1.1 with
  | Done (Some (Some v, None)) => vs_Nonce v = 4 /\ length run.1.2 = 5%nat
  | _ => False
  end.
Proof. by vm_compute. Qed.

(** A contract whose first set is not in the order of powers. *)
Definition unordered : ValsetArgs := MkValsetArgs [0xaa; 0xbb] [10; 20] 0 0 0.
Definition unordered_event : ContractEvent := EvValsetUpdated 0 1 0 0 [0xaa; 0xbb] [10; 20].
Definition unordered_state : Peggy :=
  MkPeggy (MkContract (makeCheckpoint unordered 42) ∅ 0 1 42 5 ∅ false) 1 1000 true false.
Definition injective_set : Valset :=
  MkValset 0 [MkBridgeValidator 10 (Address_Hex 0xaa); MkBridgeValidator 20 (Address_Hex 0xbb)] 0 (Some 0) (Address_Hex 0).

Definition reordered : Valset :=
  MkValset 0 [MkBridgeValidator 20 (Address_Hex 0xbb); MkBridgeValidator 10 (Address_Hex 0xaa)] 0 (Some 0) (Address_Hex 0).

(** C14: the order of the members matters.  [checkIfValsetsDiffer], which is to report
    differences only, sorts the members of the set that was found when Injective has a set with
    its nonce and length.  There is a contract and a truthful node with which
    [findLatestValsetOnEth] succeeds, although Injective has the very set of the contract in
    the very order, and what it returns has another checkpoint than the contract's: every
    update and batch that the relayer sends with it is refused. *)
Theorem relayer_reorders_set :
  exists p log, history_with [unordered] p log /\
    wph (node (valset_log log [100]) injective_set) findLatestValsetOnEth () (fun o tr _ =>
      Forall (tells (valset_log log [100]) [100]) tr /\
      valset_args_of injective_set = Some unordered /\
      state_lastValsetCheckpoint (core p) = makeCheckpoint unordered (state_peggyId (core p)) /\
      exists v a, o = Done (Some (Some v, None)) /\ valset_args_of v = Some a /\
        makeCheckpoint a (state_peggyId (core p)) <> state_lastValsetCheckpoint (core p)).
Proof.
  exists unordered_state, [unordered_event]. split; [by eapply (hw_init m nothing 42 5 [0xaa; 0xbb] [10; 20])|].
  unfold wph. pose proof (node_tells (valset_log [unordered_event] [100]) [100] injective_set) as Ht.
  destruct (exec _ _ ()) as [[o tr] w] eqn:E.
  split; [apply Ht; intros b ->%list_elem_of_singleton; lia|]. split; [by vm_compute|]. split; [reflexivity|].
  exists reordered, (MkValsetArgs [0xbb; 0xaa] [20; 10] 0 0 0).
  split; [|split; [by vm_compute|by vm_compute]].
  change o with ((o, tr, w).1.1). rewrite <- E. by vm_compute.
Qed.
End Example.
