(* ===== verification/EthNetwork.v ===== *)
(** * EthNetwork: the Ethereum side of the orchestrator (orchestrator/ethereum/network.go)

    [network] implements the methods of [ethereum.Network] by the contract client of
    [EthPeggy.v], the generated event filterer and the provider.  [net_impl] gives the
    implementation of each method; the methods that other services implement are
    passed on.  The theorems discharge what the oracle assumes of the network. *)
From stdpp Require Import pretty.
From S2P Require Import Prelude Effects GoFloat Types External Model PeggySol Confirmations.
From S2P Require Import Checkpoint.
From S2P Require EthPeggy.
From S2P Require Import GoSort Interfaces Oracle OracleFacts.

(** ** Interface: the generated filterer, the provider, the contract client *)
Inductive ev_kind : Type :=
  | SendToCosmosEvent
  | SendToInjectiveEvent
  | ERC20DeployedEvent
  | ValsetUpdatedEvent
  | TransactionBatchExecutedEvent.

Definition ev_type (k : ev_kind) : Type :=
  match k with
  | SendToCosmosEvent => PeggySendToCosmosEvent
  | SendToInjectiveEvent => PeggySendToInjectiveEvent
  | ERC20DeployedEvent => PeggyERC20DeployedEvent
  | ValsetUpdatedEvent => PeggyValsetUpdatedEvent
  | TransactionBatchExecutedEvent => PeggyTransactionBatchExecutedEvent
  end.

(** An iterator: the events for which [Next] returns true, and what [Error] says
    afterwards. *)
Record iterator (E : Type) : Type := MkIterator { it_Events : list E; it_Error : error }.
Arguments MkIterator {E} _ _.
Arguments it_Events {E} _.
Arguments it_Error {E} _.

Inductive net_cmd : Type :=
  | NewPeggyFilterer (address : Address)
  | FilterEvents (k : ev_kind) (address : Address) (start end_ : Z)
  | CallContract (to : Address) (data : bytes)
  | HeaderByNumber
  | ReadPending
  | Contract (c : EthPeggy.peggy_cmd)
  | Rest (c : orch_cmd).

Definition net_reply (c : net_cmd) : Type :=
  match c with
  | NewPeggyFilterer _ => error
  | FilterEvents k _ _ _ => option (iterator (ev_type k)) * error
  | CallContract _ _ => bytes * error
  | HeaderByNumber => option Z * error
  | ReadPending => EthPeggy.PendingTxInputList
  | Contract c => EthPeggy.peggy_reply c
  | Rest c => orch_reply c
  end.

Definition NetI : Iface := MkIface net_cmd net_reply.
Definition ncall (c : net_cmd) : prog NetI (net_reply c) := @call NetI c.

(** [network]: [PeggyContract] is embedded; its list of pending transactions is also
    written by the subscription, so it is read anew at every send. *)
Record network : Type := MkNetwork { PeggyContract : EthPeggy.peggyContract; FromAddr : Address }.

(** [isUnknownBlockErr] *)
Definition isUnknownBlockErr (e : err) : bool :=
  strings_Contains (err_Error e) "unknown block" ||
  strings_Contains (err_Error e) "One of the blocks specified in filter".

Definition errNoIterator : err := ErrNew "no iterator returned".

(** [errors.Wrapf(err, "failed to scan past <name> events from Ethereum (%d - %d)", ...)] *)
Definition scan_message (name : string) (startBlock endBlock : Z) : string :=
  "failed to scan past " ++ name ++ " events from Ethereum (" ++ pretty startBlock ++ " - " ++
  pretty endBlock ++ ")".

Section network.
Context {GE : Geth} {SH : Shopspring}.

(** The common text of the five event getters, for the filter [k]. *)
Definition filterEventsOf (k : ev_kind) (name : string) (n : network) (startBlock endBlock : Z)
  : prog NetI (list (ev_type k) * error) :=
  err ← ncall (NewPeggyFilterer (EthPeggy.Address_ (PeggyContract n)));
  match err with
  | Some _ => mret ([], Wrap err "failed to init Peggy events filterer")
  | None =>
      '(iter, err) ← ncall (FilterEvents k (EthPeggy.Address_ (PeggyContract n)) startBlock endBlock);
      match err with
      | Some e =>
          if negb (isUnknownBlockErr e)
          then mret ([], Wrap err (scan_message name startBlock endBlock))
          else match iter with
               | None => mret ([], Some errNoIterator)
               | Some it => mret (it_Events it, None)
               end
      | None => it ← deref iter; mret (it_Events it, None)
      end
  end.

Definition GetSendToCosmosEvents (n : network) (startBlock endBlock : Z)
  : prog NetI (list PeggySendToCosmosEvent * error) :=
  filterEventsOf SendToCosmosEvent "SendToCosmos" n startBlock endBlock.

Definition GetSendToInjectiveEvents (n : network) (startBlock endBlock : Z)
  : prog NetI (list PeggySendToInjectiveEvent * error) :=
  filterEventsOf SendToInjectiveEvent "SendToInjectiveEvent" n startBlock endBlock.

Definition GetPeggyERC20DeployedEvents (n : network) (startBlock endBlock : Z)
  : prog NetI (list PeggyERC20DeployedEvent * error) :=
  filterEventsOf ERC20DeployedEvent "ERC20DeployedEvent" n startBlock endBlock.

Definition GetValsetUpdatedEvents (n : network) (startBlock endBlock : Z)
  : prog NetI (list PeggyValsetUpdatedEvent * error) :=
  filterEventsOf ValsetUpdatedEvent "ValsetUpdatedEvent" n startBlock endBlock.

Definition GetTransactionBatchExecutedEvents (n : network) (startBlock endBlock : Z)
  : prog NetI (list PeggyTransactionBatchExecutedEvent * error) :=
  filterEventsOf TransactionBatchExecutedEvent "TransactionBatchExecuted" n startBlock endBlock.

(** [Hex2Bytes("313ce567")] *)
Definition decimals_selector : bytes := [Byte.x31; Byte.x3c; Byte.xe5; Byte.x67].

(** [TokenDecimals] *)
Definition TokenDecimals (tokenContract : Address) : prog NetI (Z * error) :=
  '(res, err) ← ncall (CallContract tokenContract decimals_selector);
  match err with
  | Some _ => mret (0, err)
  | None =>
      if (length res =? 0)%nat
      then mret (0, Some (ErrNew ("no decimals found for token contract " ++ Address_Hex tokenContract)))
      else mret (u8 (big_Uint64 (be_Z res)), None)
  end.

(** [GetHeaderByNumber] for the latest header: its number. *)
Definition GetHeaderByNumber : prog NetI (option Z * error) := ncall HeaderByNumber.

(** The calls of the contract client. *)
Definition lift {A} (p : prog EthPeggy.PeggyI A) : prog NetI A :=
  interp (I := EthPeggy.PeggyI) (fun c => ncall (Contract c)) p.

Definition GetPeggyID (n : network) : prog NetI (Hash * error) :=
  lift (EthPeggy.GetPeggyID (FromAddr n)).

Definition GetValsetNonce (n : network) : prog NetI (option Z * error) :=
  lift (EthPeggy.GetValsetNonce (FromAddr n)).

Definition GetTxBatchNonce (n : network) (erc20ContractAddress : Address)
  : prog NetI (option Z * error) :=
  lift (EthPeggy.GetTxBatchNonce erc20ContractAddress (FromAddr n)).

(** The embedded contract, with the pending transactions of this moment. *)
Definition with_pending (s : EthPeggy.peggyContract) (l : EthPeggy.PendingTxInputList)
  : EthPeggy.peggyContract :=
  EthPeggy.MkPeggyContract (EthPeggy.ethProvider s) (EthPeggy.peggyAddress s) l
    (EthPeggy.pendingTxWaitDuration s).

Definition SendEthValsetUpdate (n : network) (oldValset newValset : Valset)
    (confirms : list MsgValsetConfirm) : prog NetI (option Hash * error) :=
  l ← ncall ReadPending;
  lift (EthPeggy.SendEthValsetUpdate (with_pending (PeggyContract n) l) oldValset newValset confirms).

Definition SendTransactionBatch (n : network) (currentValset : Valset) (batch : OutgoingTxBatch)
    (confirms : list MsgConfirmBatch) : prog NetI (option Hash * error) :=
  l ← ncall ReadPending;
  lift (EthPeggy.SendTransactionBatch (with_pending (PeggyContract n) l) currentValset batch confirms).

(** The implementation of the interface of the loops by the network. *)
Definition net_impl (n : network) (c : cmd OrchI) : prog NetI (reply OrchI c) :=
  match c return prog NetI (orch_reply c) with
  | Interfaces.GetHeaderByNumber => GetHeaderByNumber
  | Interfaces.GetPeggyID => GetPeggyID n
  | Interfaces.GetSendToCosmosEvents s e => GetSendToCosmosEvents n s e
  | Interfaces.GetSendToInjectiveEvents s e => GetSendToInjectiveEvents n s e
  | Interfaces.GetPeggyERC20DeployedEvents s e => GetPeggyERC20DeployedEvents n s e
  | Interfaces.GetValsetUpdatedEvents s e => GetValsetUpdatedEvents n s e
  | Interfaces.GetTransactionBatchExecutedEvents s e => GetTransactionBatchExecutedEvents n s e
  | Interfaces.GetValsetNonce => GetValsetNonce n
  | Interfaces.SendEthValsetUpdate old new confs => SendEthValsetUpdate n old new confs
  | Interfaces.GetTxBatchNonce a => GetTxBatchNonce n a
  | Interfaces.SendTransactionBatch vs b confs => SendTransactionBatch n vs b confs
  | Interfaces.TokenDecimals a => TokenDecimals a
  | c => ncall (Rest c)
  end.

(** ** The filters *)

(** The events of the chain's log of a kind, and their block. *)
Definition as_event (k : ev_kind) : ev_type k -> event :=
  match k with
  | SendToCosmosEvent => oldDeposit
  | SendToInjectiveEvent => deposit
  | ERC20DeployedEvent => erc20Deployment
  | ValsetUpdatedEvent => valsetUpdate
  | TransactionBatchExecutedEvent => withdrawal
  end.

(** An iterator over a block range holds the events of the contract's log there. *)
Definition complete_filter (log : list event) (contract : Address) (ev : Effects.event NetI) : Prop :=
  match ev with
  | existT (FilterEvents k a s e) r =>
      a = contract -> forall it, r.1 = Some it -> forall x, as_event k x ∈ log ->
        s <= event_block (as_event k x) <= e -> x ∈ it_Events it
  | _ => True
  end.

Lemma wp_filterEventsOf k name n s e :
  wp (filterEventsOf k name n s e) (fun tr o => forall r, o = Done r ->
    (exists er, r = ([], Some er)) \/
    exists it er, r = (it_Events it, None) /\
      @Ev NetI (FilterEvents k (EthPeggy.Address_ (PeggyContract n)) s e) (Some it, er) ∈ tr).
Proof.
  unfold filterEventsOf. intros [er|]; cbn; [intros r [= <-]; left; by eexists|].
  intros [it [er|]]; cbn.
  - destruct (isUnknownBlockErr er); cbn; [|intros r [= <-]; left; by eexists].
    destruct it as [it|]; cbn; intros r [= <-]; [|left; by eexists].
    right. exists it, (Some er). split; [done|right; left].
  - destruct it as [it|]; cbn; [|done]. intros r [= <-]. right. exists it, None.
    split; [done|right; left].
Qed.

(** The event getters of the network keep the promise on which the oracle relies: when
    the filters of the contract hold every event of the block range, an answer without
    error holds every event of the range that was asked. *)
Lemma net_impl_complete n c :
  wp (net_impl n c) (fun tr o => forall r log, o = Done r ->
    Forall (complete_filter log (EthPeggy.Address_ (PeggyContract n))) tr ->
    complete_reply log (OEv c r)).
Proof.
  assert (forall k name s e, wp (filterEventsOf k name n s e) (fun tr o => forall r log, o = Done r ->
    Forall (complete_filter log (EthPeggy.Address_ (PeggyContract n))) tr ->
    r.2 = None -> forall x, as_event k x ∈ log -> s <= event_block (as_event k x) <= e -> x ∈ r.1))
    as Hget.
  { intros k name s e. eapply wp_mono; [apply wp_filterEventsOf|].
    intros tr o H r log -> Hf Hn x Hx Hb.
    destruct (H r eq_refl) as [[er ->]|(it & er & -> & Hin)]; [done|].
    by apply (proj1 (Forall_forall _ _) Hf _ Hin eq_refl it eq_refl). }
  destruct c; try (by apply wp_runs; intros); cbn [net_impl complete_reply].
  - eapply wp_mono; [apply (Hget SendToCosmosEvent)|]. intros tr o H r log. exact (H r log).
  - eapply wp_mono; [apply (Hget SendToInjectiveEvent)|]. intros tr o H r log. exact (H r log).
  - eapply wp_mono; [apply (Hget ERC20DeployedEvent)|]. intros tr o H r log. exact (H r log).
  - eapply wp_mono; [apply (Hget ValsetUpdatedEvent)|]. intros tr o H r log. exact (H r log).
  - eapply wp_mono; [apply (Hget TransactionBatchExecutedEvent)|]. intros tr o H r log. exact (H r log).
Qed.

(** ** The oracle over the network *)

(** The calls of a trace to the other services. *)
Definition rest_of (tr : list (Effects.event NetI)) : list (Effects.event OrchI) :=
  omap (fun ev : Effects.event NetI =>
          match ev with existT (Rest c) r => Some (OEv c r) | _ => None end) tr.

Definition ethereum_call (c : cmd NetI) : Prop := match c with Rest _ => False | _ => True end.

Lemma rest_of_ethereum tr :
  Forall (fun ev : Effects.event NetI => ethereum_call (projT1 ev)) tr -> rest_of tr = [].
Proof. induction 1 as [|[c r] tr Hc _ IH]; [done|]. by destruct c. Qed.

Lemma lift_ethereum {A} (p : prog EthPeggy.PeggyI A) : issues ethereum_call (lift p).
Proof.
  unfold lift. induction p as [a|m|c k IH]; cbn [interp]; [constructor..|].
  apply issues_bind; [by apply issues_Call; [|intros; apply issues_ret]|exact IH].
Qed.

Lemma filterEventsOf_ethereum k name n s e : issues ethereum_call (filterEventsOf k name n s e).
Proof.
  apply wp_runs. unfold filterEventsOf.
  apply wp_runs. intros [er|]; cbn; [by repeat constructor|].
  intros [it [er|]]; cbn; [destruct (isUnknownBlockErr er); cbn; [|by repeat constructor]|];
    destruct it; by repeat constructor.
Qed.

(** The methods that the network implements itself; the others it passes on. *)
Definition eth_method (c : orch_cmd) : bool :=
  match c with
  | Interfaces.GetHeaderByNumber | Interfaces.GetPeggyID | Interfaces.GetSendToCosmosEvents _ _
  | Interfaces.GetSendToInjectiveEvents _ _ | Interfaces.GetPeggyERC20DeployedEvents _ _
  | Interfaces.GetValsetUpdatedEvents _ _ | Interfaces.GetTransactionBatchExecutedEvents _ _
  | Interfaces.GetValsetNonce | Interfaces.SendEthValsetUpdate _ _ _ | Interfaces.GetTxBatchNonce _
  | Interfaces.SendTransactionBatch _ _ _ | Interfaces.TokenDecimals _ => true
  | _ => false
  end.

Lemma net_impl_passes n c : eth_method c = false -> net_impl n c = ncall (Rest c).
Proof. by destruct c. Qed.

Lemma net_impl_ethereum n c : eth_method c = true -> issues ethereum_call (net_impl n c).
Proof.
  destruct c; try done; intros _; cbn [net_impl].
  - by apply issues_Call; [|intros; apply issues_ret].
  - apply lift_ethereum.
  - apply (filterEventsOf_ethereum SendToCosmosEvent).
  - apply (filterEventsOf_ethereum SendToInjectiveEvent).
  - apply (filterEventsOf_ethereum ERC20DeployedEvent).
  - apply (filterEventsOf_ethereum ValsetUpdatedEvent).
  - apply (filterEventsOf_ethereum TransactionBatchExecutedEvent).
  - apply lift_ethereum.
  - apply issues_Call; [done|]. intros. apply lift_ethereum.
  - apply lift_ethereum.
  - apply issues_Call; [done|]. intros. apply lift_ethereum.
  - intros [res [er|]]; cbn; [by repeat constructor|].
    destruct (length res =? 0)%nat; by repeat constructor.
Qed.

(** A method makes its own call to the other services, or none. *)
Lemma net_impl_rest n c :
  wp (net_impl n c) (fun t o => forall r, o = Done r ->
    claims (rest_of t) = claims [OEv c r] /\ lastClaims (rest_of t) = lastClaims [OEv c r]).
Proof.
  destruct (eth_method c) eqn:E.
  - eapply wp_mono; [by apply net_impl_ethereum|]. intros t o Ht%rest_of_ethereum r _. rewrite Ht. by destruct c.
  - rewrite (net_impl_passes n c E). by intros r r' [= <-].
Qed.

Lemma implements_rest n tr tr' :
  implements (net_impl n) tr tr' ->
  claims (rest_of tr') = claims tr /\ lastClaims (rest_of tr') = lastClaims tr.
Proof.
  induction 1 as [|c r tr tr1 tr2 Hr _ [IH1 IH2]]; [done|].
  destruct (proj1 (wp_runs _ _) (net_impl_rest n c) _ _ Hr r eq_refl) as [H1 H2].
  unfold rest_of in *. rewrite omap_app, claims_app, lastClaims_app, H1, H2, IH1, IH2.
  split; [by rewrite <- (claims_app [_])|by rewrite <- (lastClaims_app [_])].
Qed.

(** The oracle over the network (its methods replaced by their code) skips
    nothing either: when an iteration returns and the filters of the contract held
    every event of their ranges, it has kept its position, or restarted at the
    validator's last claim, or every event of the chain from the old to the new
    position is claimed without error or behind the last claim. *)
Lemma oracle_over_network n l h `{!RetryLib OrchI} :
  0 <= h < 2 ^ 64 - 2000 ->
  wp (interp (net_impl n) (observeEthEvents l h)) (fun tr o => forall h' e log,
    o = Done (h', e) ->
    Forall (complete_filter log (EthPeggy.Address_ (PeggyContract n))) tr ->
    h' = h \/
    (exists c, c ∈ lastClaims (rest_of tr) /\ h' = EthereumEventHeight c) \/
    forall x, x ∈ log -> h <= event_block x <= h' -> covered (rest_of tr) x).
Proof.
  intros Hh. eapply wp_mono; [apply wp_interp|]. intros tr' o H h' e log Ho Hf.
  destruct (H (h', e) Ho) as (tr & Hrun & Himp).
  destruct (implements_rest n tr tr' Himp) as [Hc Hl].
  destruct (proj1 (wp_runs _ _) (wp_observeEthEvents l h Hh) _ _ Hrun) as (_ & _ & Hm).
  destruct (Hm h' e eq_refl) as [->|[(_ & _ & c & Hin & ->)|(_ & _ & Hcov)]].
  - by left.
  - right. left. exists c. by rewrite Hl.
  - right. right. intros x Hx Hb. unfold covered. rewrite Hc, Hl. apply (Hcov log); [|done|done].
    eapply (implements_Forall (net_impl n)); [|exact Himp|exact Hf].
    intros c. eapply wp_mono; [apply net_impl_complete|]. intros t o' H' r Hr Hf'. by apply H'.
Qed.

End network.

(** An iterator that fails half-way: the getter reports no error. *)
Module Example.

Definition net : network := MkNetwork (EthPeggy.MkPeggyContract None 0xcc [] 0) 0xaa.

Definition failing_node : handler NetI unit := fun c _ =>
  (match c return net_reply c with
   | NewPeggyFilterer _ => None
   | FilterEvents SendToCosmosEvent _ _ _ =>
       (Some (MkIterator [] (Some (ErrNew "abi: cannot unmarshal"))), None)
   | FilterEvents _ _ _ _ => (None, None)
   | CallContract _ _ => ([], None)
   | HeaderByNumber => (None, None)
   | ReadPending => []
   | Contract c =>
       match c return EthPeggy.peggy_reply c with
       | EthPeggy.SendTx _ _ => (0, None)
       | EthPeggy.Now => 0
       | EthPeggy.LastBatchNonce _ _ => (0, None)
       | EthPeggy.StateLastValsetNonce _ => (0, None)
       | EthPeggy.StatePeggyId _ => (0, None)
       | EthPeggy.ERC20Symbol _ _ => (""%string, None)
       | EthPeggy.ERC20Allowance _ _ _ _ => (0, None)
       end
   | Rest c => inhabitant c
   end, tt).

Lemma iterator_error_ignored :
  (exec failing_node (GetSendToCosmosEvents net 1 9) tt).1.1 = Done ([], None).
Proof. by vm_compute. Qed.

#[local] Instance retry_lib : RetryLib OrchI := retry_loop_lib OrchI.

Lemma oracle_over_network_witness :
  wp (interp (net_impl net) (observeEthEvents OracleFacts.Example.orch 100)) (fun tr o =>
    forall h' e log, o = Done (h', e) ->
    Forall (complete_filter log (EthPeggy.Address_ (PeggyContract net))) tr ->
    h' = 100 \/
    (exists c, c ∈ lastClaims (rest_of tr) /\ h' = EthereumEventHeight c) \/
    forall x, x ∈ log -> 100 <= event_block x <= h' -> covered (rest_of tr) x).
Proof. apply (oracle_over_network net OracleFacts.Example.orch 100). lia. Defined.

End Example.
