(* ===== verification/Binding.v ===== *)
(** * Binding: the generated binding of the bridge contract (solidity/wrappers/Peggy.sol/wrapper.go)

    The part of the binding that the program uses: the filters of the five events with their
    iterators, and the three state readers.  The generated code of the five iterators differs
    in the type of the event only, so that [Next], [Error] and [Close] are written once, for
    a kind of event; the text of the filters and readers is given for each.

    Below the binding is go-ethereum's [bind.BoundContract]: [FilterLogs] asks the node for
    logs and hands them out over a channel, [UnpackLog] decodes one, [Call] calls a method.
    With a node that answers with the logs that the events of the contract leave, the network
    of [EthNetwork.v] over this binding gives the oracle and the relayer the very events. *)
From Stdlib Require Import Init.Byte.
From S2P Require Import Prelude Effects GoFloat Types External AbiDecode Model PeggySol PeggyState PeggyStateFacts.
From S2P Require Import GoSort Interfaces Oracle OracleFacts OracleLive Relayer RelayerFacts RelayerContract EthNetwork.
From S2P Require EthPeggy Confirmations.

(** ** Logs *)

(** [types.Log]: the fields that the binding and the program read. *)
Record Log : Type := MkLog { Topics : list Hash; Data : bytes; BlockNumber : Z }.

Definition event_name (k : ev_kind) : string :=
  match k with
  | SendToCosmosEvent => "SendToCosmosEvent"
  | SendToInjectiveEvent => "SendToInjectiveEvent"
  | ERC20DeployedEvent => "ERC20DeployedEvent"
  | ValsetUpdatedEvent => "ValsetUpdatedEvent"
  | TransactionBatchExecutedEvent => "TransactionBatchExecutedEvent"
  end.

(** The first topic of a log: the hash of the signature of the event. *)
Definition event_ID (k : ev_kind) : Hash :=
  match k with
  | SendToCosmosEvent => 0xd7767894d73c589daeca9643f445f03d7be61aad2950c117e7cbff4176fca7e4
  | SendToInjectiveEvent => 0x21db205faf35053e62272e44562f34122e27a986e21a1030f6bfc21d96eaad09
  | ERC20DeployedEvent => 0x82fe3a4fa49c6382d0c085746698ddbbafe6c2bf61285b19410644b5b26287c7
  | ValsetUpdatedEvent => 0x76d08978c024a4bf8cbb30c67fd78fcaa1827cbc533e4e175f36d07e64ccf96a
  | TransactionBatchExecutedEvent => 0x02c7e81975f8edb86e2a0c038b7b86a49c744236abf0f6177ff5afc6986ab708
  end.

Definition VString (s : string) : abi_val := VBytes (list_byte_of_string s).

(** The arguments of an event: the indexed ones, which become topics, and the others, which
    are the data of the log. *)
Definition event_args (k : ev_kind) : ev_type k -> list (abi_elem * Z) * list abi_val :=
  match k with
  | SendToCosmosEvent => fun e =>
      ([(TAddress, stc_TokenContract e); (TAddress, stc_Sender e); (TBytes32, stc_Destination e)],
       [VElem TUint256 (stc_Amount e); VElem TUint256 (stc_EventNonce e)])
  | SendToInjectiveEvent => fun e =>
      ([(TAddress, sti_TokenContract e); (TAddress, sti_Sender e); (TBytes32, sti_Destination e)],
       [VElem TUint256 (sti_Amount e); VElem TUint256 (sti_EventNonce e); VString (sti_Data e)])
  | ERC20DeployedEvent => fun e =>
      ([(TAddress, erc_TokenContract e)],
       [VString (erc_CosmosDenom e); VString (erc_Name e); VString (erc_Symbol e);
        VElem TUint8 (erc_Decimals e); VElem TUint256 (erc_EventNonce e)])
  | ValsetUpdatedEvent => fun e =>
      ([(TUint256, vue_NewValsetNonce e)],
       [VElem TUint256 (vue_EventNonce e); VElem TUint256 (vue_RewardAmount e);
        VElem TAddress (vue_RewardToken e); VArray TAddress (vue_Validators e); VArray TUint256 (vue_Powers e)])
  | TransactionBatchExecutedEvent => fun e =>
      ([(TUint256, tbe_BatchNonce e); (TAddress, tbe_Token e)], [VElem TUint256 (tbe_EventNonce e)])
  end.

(** The event with the block of the log: [it.Event.Raw = log]. *)
Definition with_Raw (k : ev_kind) (log : Log) : ev_type k -> ev_type k :=
  let b := BlockNumber log in
  match k with
  | SendToCosmosEvent => fun e =>
      MkSendToCosmosEvent (stc_TokenContract e) (stc_Sender e) (stc_Destination e) (stc_Amount e) (stc_EventNonce e) b
  | SendToInjectiveEvent => fun e =>
      MkSendToInjectiveEvent (sti_TokenContract e) (sti_Sender e) (sti_Destination e) (sti_Amount e)
        (sti_EventNonce e) (sti_Data e) b
  | ERC20DeployedEvent => fun e =>
      MkERC20DeployedEvent (erc_CosmosDenom e) (erc_TokenContract e) (erc_Name e) (erc_Symbol e)
        (erc_Decimals e) (erc_EventNonce e) b
  | ValsetUpdatedEvent => fun e =>
      MkValsetUpdatedEvent (vue_NewValsetNonce e) (vue_EventNonce e) (vue_RewardAmount e) (vue_RewardToken e)
        (vue_Validators e) (vue_Powers e) b
  | TransactionBatchExecutedEvent => fun e =>
      MkBatchExecutedEvent (tbe_BatchNonce e) (tbe_Token e) (tbe_EventNonce e) b
  end.

(** The log that an event leaves on the chain. *)
Definition log_of (k : ev_kind) (e : ev_type k) : Log :=
  MkLog (event_ID k :: map snd (event_args k e).1) (abi_encode (event_args k e).2)
    (event_block (as_event k e)).

(** The arguments are of their types, and their encoding has a length. *)
Definition ev_ok (k : ev_kind) (e : ev_type k) : Prop :=
  forallb (fun p => elem_ok p.1 p.2) (event_args k e).1 = true /\
  forallb val_ok (event_args k e).2 = true /\
  Z.of_nat (length (abi_encode (event_args k e).2)) < 2 ^ 256.

(** [UnpackLog] of go-ethereum, into an event without its [Raw] field. *)
Class LogDecoder : Type := {
  UnpackLog (k : ev_kind) : Log -> ev_type k + err;
  UnpackLog_ok k e : ev_ok k e -> UnpackLog k (log_of k e) = inl (with_Raw k (MkLog [] [] 0) e)
}.

(** ** Interface: [bind.BoundContract] over the node *)

(** [bind.FilterOpts] *)
Record FilterOpts : Type := MkFilterOpts { opt_Start : Z; opt_End : option Z }.

(** The log channel and the subscription: the logs that are delivered while it lasts, what
    its [Err] channel gives in the end (nil when it was closed), and the logs that can be
    received after that. *)
Record subscription : Type := MkSubscription { sub_logs : list Log; sub_Err : error; sub_late : list Log }.

Inductive bind_cmd : Type :=
  | abi_JSON
  | FilterLogs (address : Address) (opts : FilterOpts) (name : string) (query : list (list abi_val))
  | ContractCall (address from : Address) (method : string) (params : list abi_val)
  | Lower (c : net_cmd).

Definition bind_reply (c : bind_cmd) : Type :=
  match c with
  | abi_JSON => error
  | FilterLogs _ _ _ _ => subscription * error
  | ContractCall _ _ _ _ => list abi_val * error
  | Lower c => net_reply c
  end.

Definition BindI : Iface := MkIface bind_cmd bind_reply.
Definition bcall (c : bind_cmd) : prog BindI (bind_reply c) := @call BindI c.

(** ** Iterators *)
Section iterator.
Context {LD : LogDecoder} {k : ev_kind}.

(** An iterator; [Event] is [None] before the first event and when a log could not be
    unpacked. *)
Record Iterator : Type := MkIter { Event : option (ev_type k); logs : subscription; done : bool; fail : error }.

(** A log was received, and [rest] is left of the subscription. *)
Definition received (it : Iterator) (log : Log) (rest : subscription) : bool * Iterator :=
  match UnpackLog k log with
  | inr err => (false, MkIter None rest (done it) (Some err))
  | inl e => (true, MkIter (Some (with_Raw k log e)) rest (done it) (fail it))
  end.

(** The completed iterator: deliver whatever is available. *)
Definition Next_done (it : Iterator) : bool * Iterator :=
  match sub_late (logs it) with
  | log :: late => received it log (MkSubscription (sub_logs (logs it)) (sub_Err (logs it)) late)
  | [] => (false, it)
  end.

(** [Next]: the iterator that completes calls it once more. *)
Definition Next (it : Iterator) : bool * Iterator :=
  match fail it with
  | Some _ => (false, it)
  | None =>
      if done it then Next_done it
      else match sub_logs (logs it) with
           | log :: ls => received it log (MkSubscription ls (sub_Err (logs it)) (sub_late (logs it)))
           | [] =>
               let it := MkIter (Event it) (logs it) true (sub_Err (logs it)) in
               match fail it with Some _ => (false, it) | None => Next_done it end
           end
  end.

Definition Error (it : Iterator) : error := fail it.

(** [Close]: after [Unsubscribe] nothing is delivered. *)
Definition Close (it : Iterator) : error * Iterator :=
  (None, MkIter (Event it) (MkSubscription [] None []) (done it) (fail it)).

(** The loop of the event getters: the events for which [Next] returned true. *)
Fixpoint collect (fuel : nat) (it : Iterator) : option (list (ev_type k) * Iterator) :=
  match fuel with
  | O => None
  | S fuel =>
      match Next it with
      | (false, it) => Some ([], it)
      | (true, it) => '(es, it') ← collect fuel it; Some (option_list (Event it) ++ es, it')
      end
  end.

(** Every log is received once. *)
Definition collect_fuel (it : Iterator) : nat := S (length (sub_logs (logs it)) + length (sub_late (logs it))).

Definition new_iterator (sub : subscription) : Iterator := MkIter None sub false None.

(** What the loop gets: the events of the logs up to the first one that cannot be unpacked. *)
Fixpoint unpacked (ls : list Log) : list (ev_type k) * error :=
  match ls with
  | [] => ([], None)
  | log :: ls =>
      match UnpackLog k log with
      | inr err => ([], Some err)
      | inl e => let '(es, err) := unpacked ls in (with_Raw k log e :: es, err)
      end
  end.

Definition delivered (sub : subscription) : list (ev_type k) * error :=
  let '(es, err) := unpacked (sub_logs sub) in
  match err with
  | Some _ => (es, err)
  | None =>
      match sub_Err sub with
      | Some _ => (es, sub_Err sub)
      | None => let '(late, err) := unpacked (sub_late sub) in (es ++ late, err)
      end
  end.
End iterator.
Arguments Iterator k : clear implicits.

Section collect.
Context {LD : LogDecoder} {k : ev_kind}.

Lemma collect_failed fuel (it : Iterator k) e :
  (1 <= fuel)%nat -> fail it = Some e -> collect fuel it = Some ([], it).
Proof. destruct fuel; [lia|]. intros _ Hf. cbn. unfold Next. by rewrite Hf. Qed.

Lemma collect_late fuel ev ls er late :
  (length late < fuel)%nat ->
  exists it, collect fuel (MkIter ev (MkSubscription ls er late) true None) = Some ((unpacked (k := k) late).1, it) /\
    fail it = (unpacked (k := k) late).2.
Proof.
  revert fuel ev. induction late as [|log late IH]; intros [|fuel] ev Hf; cbn in *; try lia; [by eexists|].
  unfold Next_done, received. cbn. destruct (UnpackLog k log) as [e|err]; cbn; [|by eexists].
  destruct (IH fuel (Some (with_Raw k log e)) ltac:(lia)) as (it & -> & Hit). cbn.
  destruct (unpacked late) as [es err]. by eexists.
Qed.

(** The loop ends, with the events up to the first failure; [Error] then tells the failure. *)
Lemma collect_spec fuel ev sub :
  (length (sub_logs sub) + length (sub_late sub) < fuel)%nat ->
  exists it, collect fuel (MkIter ev sub false None) = Some ((delivered (k := k) sub).1, it) /\
    Error it = (delivered (k := k) sub).2.
Proof.
  destruct sub as [ls er late]. revert fuel ev.
  induction ls as [|log ls IH]; intros [|fuel] ev Hf; cbn in *; try lia.
  - unfold Next, delivered. cbn. destruct er as [er|]; cbn; [by eexists|].
    destruct (collect_late (S fuel) ev [] None late ltac:(lia)) as (it & Hc & Hit).
    cbn in Hc. unfold Next in Hc. cbn in Hc. rewrite Hc. exists it. unfold Error. rewrite Hit.
    by destruct (unpacked late) as [es err].
  - unfold Next, delivered, received. cbn. destruct (UnpackLog k log) as [e|err]; cbn; [|by eexists].
    destruct (IH fuel (Some (with_Raw k log e)) ltac:(lia)) as (it & -> & Hit). cbn. exists it. rewrite Hit.
    unfold delivered. cbn. destruct (unpacked ls) as [es err]. destruct err, er; cbn; try done.
    by destruct (unpacked late).
Qed.

(** The logs of events are unpacked to the events. *)
Lemma unpacked_log_of es : Forall (ev_ok k) es -> unpacked (map (log_of k) es) = (es, None).
Proof.
  induction 1 as [|e es He _ IH]; [done|]. cbn. rewrite (UnpackLog_ok k e He), IH.
  by destruct k, e.
Qed.
End collect.

(** ** The binding *)

(** [bindPeggy]: the bound contract is its address. *)
Definition bindPeggy (address : Address) : prog BindI (option Address * error) :=
  err ← bcall abi_JSON;
  match err with
  | Some _ => mret (None, err)
  | None => mret (Some address, None)
  end.

(** [NewPeggyFilterer] *)
Definition NewPeggyFilterer (address : Address) : prog BindI (option Address * error) :=
  '(contract, err) ← bindPeggy address;
  match err with
  | Some _ => mret (None, err)
  | None => mret (contract, None)
  end.

(** [NewPeggy] *)
Definition NewPeggy (address : Address) : prog BindI (option Address * error) :=
  '(contract, err) ← bindPeggy address;
  match err with
  | Some _ => mret (None, err)
  | None => mret (contract, None)
  end.

(** The end of every filter: the iterator over the logs, or none. *)
Definition iterate_logs (k : ev_kind) (contract : Address) (opts : FilterOpts) (query : list (list abi_val))
  : prog BindI (option (Iterator k) * error) :=
  '(sub, err) ← bcall (FilterLogs contract opts (event_name k) query);
  match err with
  | Some _ => mret (None, err)
  | None => mret (Some (new_iterator sub), None)
  end.

Definition FilterSendToCosmosEvent (contract : Address) (opts : FilterOpts)
    (_tokenContract _sender : list Address) (_destination : list Hash) :=
  let _tokenContractRule := map (VElem TAddress) _tokenContract in
  let _senderRule := map (VElem TAddress) _sender in
  let _destinationRule := map (VElem TBytes32) _destination in
  iterate_logs SendToCosmosEvent contract opts [_tokenContractRule; _senderRule; _destinationRule].

Definition FilterSendToInjectiveEvent (contract : Address) (opts : FilterOpts)
    (_tokenContract _sender : list Address) (_destination : list Hash) :=
  let _tokenContractRule := map (VElem TAddress) _tokenContract in
  let _senderRule := map (VElem TAddress) _sender in
  let _destinationRule := map (VElem TBytes32) _destination in
  iterate_logs SendToInjectiveEvent contract opts [_tokenContractRule; _senderRule; _destinationRule].

Definition FilterERC20DeployedEvent (contract : Address) (opts : FilterOpts) (_tokenContract : list Address) :=
  let _tokenContractRule := map (VElem TAddress) _tokenContract in
  iterate_logs ERC20DeployedEvent contract opts [_tokenContractRule].

Definition FilterValsetUpdatedEvent (contract : Address) (opts : FilterOpts) (_newValsetNonce : list Z) :=
  let _newValsetNonceRule := map (VElem TUint256) _newValsetNonce in
  iterate_logs ValsetUpdatedEvent contract opts [_newValsetNonceRule].

Definition FilterTransactionBatchExecutedEvent (contract : Address) (opts : FilterOpts)
    (_batchNonce : list Z) (_token : list Address) :=
  let _batchNonceRule := map (VElem TUint256) _batchNonce in
  let _tokenRule := map (VElem TAddress) _token in
  iterate_logs TransactionBatchExecutedEvent contract opts [_batchNonceRule; _tokenRule].

(** [*abi.ConvertType(out[0], new( *big.Int)).( **big.Int)] and the same for [[32]byte]: the first
    output, which has to be there and of the type. *)
Definition out_of_type : panicv := PanicValue "abi: cannot unmarshal in to go type".

Definition out0 (t : abi_elem) (out : list abi_val) : prog BindI Z :=
  match out with
  | [] => Panic (PanicError (ErrNew "runtime error: index out of range"))
  | VElem t' z :: _ => if bool_decide (t = t') then mret z else Panic out_of_type
  | _ :: _ => Panic out_of_type
  end.

(** The state readers; a nil [*big.Int] is [None]. *)
Definition LastBatchNonce (contract from : Address) (_erc20Address : Address) : prog BindI (option Z * error) :=
  '(out, err) ← bcall (ContractCall contract from "lastBatchNonce" [VElem TAddress _erc20Address]);
  match err with
  | Some _ => mret (None, err)
  | None => z ← out0 TUint256 out; mret (Some z, None)
  end.

Definition StateLastValsetNonce (contract from : Address) : prog BindI (option Z * error) :=
  '(out, err) ← bcall (ContractCall contract from "state_lastValsetNonce" []);
  match err with
  | Some _ => mret (None, err)
  | None => z ← out0 TUint256 out; mret (Some z, None)
  end.

Definition StatePeggyId (contract from : Address) : prog BindI (Hash * error) :=
  '(out, err) ← bcall (ContractCall contract from "state_peggyId" []);
  match err with
  | Some _ => mret (0, err)
  | None => z ← out0 TBytes32 out; mret (z, None)
  end.

(** The allowance of a token, through the binding of its contract. *)
Definition Allowance (contract from : Address) (owner spender : Address) : prog BindI (option Z * error) :=
  '(out, err) ← bcall (ContractCall contract from "allowance" [VElem TAddress owner; VElem TAddress spender]);
  match err with
  | Some _ => mret (None, err)
  | None => z ← out0 TUint256 out; mret (Some z, None)
  end.

(** ** The network over the binding *)
Section binding.
Context {LD : LogDecoder}.

(** The filter that the event getter of a kind calls, without rules. *)
Definition filter_of (k : ev_kind) (contract : Address) (opts : FilterOpts)
  : prog BindI (option (Iterator k) * error) :=
  match k with
  | SendToCosmosEvent => FilterSendToCosmosEvent contract opts [] [] []
  | SendToInjectiveEvent => FilterSendToInjectiveEvent contract opts [] [] []
  | ERC20DeployedEvent => FilterERC20DeployedEvent contract opts []
  | ValsetUpdatedEvent => FilterValsetUpdatedEvent contract opts []
  | TransactionBatchExecutedEvent => FilterTransactionBatchExecutedEvent contract opts [] []
  end.

(** What the event getter makes of the iterator; [collect] does not run out of fuel. *)
Definition iterated {k} (it : Iterator k) : iterator (ev_type k) :=
  match collect (collect_fuel it) it with
  | Some (es, it) => MkIterator es (Error it)
  | None => MkIterator [] (Error it)
  end.

(** A reader's answer to the contract client, which reads the value only without an error. *)
Definition read (p : prog BindI (option Z * error)) : prog BindI (Z * error) :=
  res ← p; mret (default 0 res.1, res.2).

Definition filterer_error (address : Address) : prog BindI error :=
  res ← NewPeggyFilterer address; mret res.2.

Definition filter_events (k : ev_kind) (contract : Address) (startBlock endBlock : Z)
  : prog BindI (option (iterator (ev_type k)) * error) :=
  '(it, err) ← filter_of k contract (MkFilterOpts startBlock (Some endBlock));
  mret (option_map iterated it, err).

(** The implementation of what the network calls; [contract] is the bridge contract. *)
Definition bind_impl (contract : Address) (c : cmd NetI) : prog BindI (reply NetI c) :=
  match c return prog BindI (net_reply c) with
  | EthNetwork.NewPeggyFilterer a => filterer_error a
  | FilterEvents k a s e => filter_events k a s e
  | Contract (EthPeggy.LastBatchNonce from erc20) => read (LastBatchNonce contract from erc20)
  | Contract (EthPeggy.StateLastValsetNonce from) => read (StateLastValsetNonce contract from)
  | Contract (EthPeggy.StatePeggyId from) => StatePeggyId contract from
  | Contract (EthPeggy.ERC20Allowance from erc20 owner spender) => read (Allowance erc20 from owner spender)
  | c => bcall (Lower c)
  end.
End binding.

(** ** What the getters answer *)

(** The filters of the getters have no rules: one empty rule for each indexed argument. *)
Definition no_rules (k : ev_kind) : list (list abi_val) :=
  match k with
  | SendToCosmosEvent | SendToInjectiveEvent => [[]; []; []]
  | ERC20DeployedEvent | ValsetUpdatedEvent => [[]]
  | TransactionBatchExecutedEvent => [[]; []]
  end.

Section getters.
Context {LD : LogDecoder}.

Lemma iterated_delivered k sub :
  iterated (new_iterator (k := k) sub) = MkIterator (delivered (k := k) sub).1 (delivered (k := k) sub).2.
Proof.
  unfold iterated. destruct (collect_spec (k := k) (collect_fuel (new_iterator (k := k) sub)) None sub) as (it & Hc & Hit);
    [unfold collect_fuel; cbn; lia|].
  unfold new_iterator in *. by rewrite Hc, Hit.
Qed.

Lemma wp_filter_events k a s e :
  wp (filter_events k a s e) (fun tr o => exists sub err,
    tr = [@Ev BindI (FilterLogs a (MkFilterOpts s (Some e)) (event_name k) (no_rules k)) (sub, err)] /\
    o = Done (match err with
              | Some _ => (None, err)
              | None => (Some (MkIterator (delivered (k := k) sub).1 (delivered (k := k) sub).2), None)
              end)).
Proof.
  unfold filter_events. destruct k; intros [sub [er|]]; cbn -[iterated]; eexists _, _; (split; [reflexivity|]);
    cbn -[iterated]; rewrite ?iterated_delivered; done.
Qed.

(** The calls of an event getter over the binding, with its answer. *)
Lemma wp_event_getter {GE : Geth} contract k name n s e :
  wp (interp (bind_impl contract) (filterEventsOf k name n s e)) (fun tr o =>
    (exists er, tr = [@Ev BindI abi_JSON (Some er)] /\
       o = Done ([], Wrap (Some er) "failed to init Peggy events filterer")) \/
    exists sub err,
      tr = [@Ev BindI abi_JSON None;
            @Ev BindI (FilterLogs (EthPeggy.Address_ (PeggyContract n)) (MkFilterOpts s (Some e)) (event_name k)
                         (no_rules k)) (sub, err)] /\
      o = Done (match err with
                | Some er => ([], if isUnknownBlockErr er then Some errNoIterator
                                  else Wrap err (scan_message name s e))
                | None => ((delivered (k := k) sub).1, None)
                end)).
Proof.
  unfold filterEventsOf. intros [er|]; cbn -[filter_events]; [left; by exists er|].
  apply wp_bind. eapply wp_mono; [apply wp_filter_events|].
  intros tr o (sub & err & -> & ->). cbn. destruct err as [er|]; cbn.
  - destruct (isUnknownBlockErr er) eqn:E; cbn; right; exists sub, (Some er); by rewrite E.
  - right. by exists sub, None.
Qed.

(** C17: every answer of an event getter over the binding.  A contract that cannot be bound and
    a refused query are errors, also for a block that the node does not know, since the filter
    then has no iterator.  Once the query is accepted, the getter reports no error: its events
    are those before the first log that cannot be unpacked, and all that were delivered when the
    subscription failed. *)
Theorem event_getter_spec {GE : Geth} k name n s e :
  let contract := EthPeggy.Address_ (PeggyContract n) in
  wp (interp (bind_impl contract) (filterEventsOf k name n s e)) (fun tr o =>
    (exists er, o = Done ([], Wrap (Some er) "failed to init Peggy events filterer")) \/
    exists sub err,
      @Ev BindI (FilterLogs contract (MkFilterOpts s (Some e)) (event_name k) (no_rules k)) (sub, err) ∈ tr /\
      o = Done (match err with
                | Some er => ([], if isUnknownBlockErr er then Some errNoIterator
                                  else Wrap err (scan_message name s e))
                | None => ((delivered (k := k) sub).1, None)
                end)).
Proof.
  intros contract. eapply wp_mono; [apply wp_event_getter|].
  intros tr o [(er & _ & ->)|(sub & err & -> & ->)]; [left; by exists er|right; exists sub, err].
  split; [right; left|done].
Qed.
End getters.

(** ** A node that has the logs of the contract *)

Definition kind_events (k : ev_kind) : list event -> list (ev_type k) :=
  match k with
  | SendToCosmosEvent => oldDeposits
  | SendToInjectiveEvent => deposits
  | ERC20DeployedEvent => deployments
  | ValsetUpdatedEvent => valsetUpdates
  | TransactionBatchExecutedEvent => withdrawals
  end.

Lemma elem_of_kind_events k es x : x ∈ kind_events k es <-> as_event k x ∈ es.
Proof.
  destruct k; cbn; unfold oldDeposits, deposits, deployments, valsetUpdates, withdrawals;
    rewrite list_elem_of_omap; split; try (intros ([] & Hin & Heq); simplify_eq; exact Hin);
    intros H; eexists; by split.
Qed.

Section composition.
Context {LD : LogDecoder} {GE : Geth} {SH : Shopspring}.

(** A query without rules that the node accepts delivers the logs of the events of the range,
    in their order and to the end. *)
Definition honest_logs (log : list event) (contract : Address) (ev : Effects.event BindI) : Prop :=
  match ev with
  | existT (FilterLogs a opts name q) r => forall k e,
      a = contract -> name = event_name k -> q = no_rules k -> opt_End opts = Some e -> r.2 = None ->
      r.1 = MkSubscription (map (log_of k) (kind_events k (blocks_of log (opt_Start opts) e))) None []
  | _ => True
  end.

(** Every event can be encoded. *)
Definition encodable (log : list event) : Prop := forall k x, as_event k x ∈ log -> ev_ok k x.

Lemma delivered_events k log s e :
  encodable log ->
  delivered (k := k) (MkSubscription (map (log_of k) (kind_events k (blocks_of log s e))) None []) =
  (kind_events k (blocks_of log s e), None).
Proof.
  intros He. unfold delivered. cbn. rewrite unpacked_log_of; [by rewrite app_nil_r|].
  apply Forall_forall. intros x [_ Hx]%elem_of_kind_events%list_elem_of_filter. by apply He.
Qed.

(** The iterator then has exactly those events. *)
Definition exact_filter (log : list event) (contract : Address) (ev : Effects.event NetI) : Prop :=
  match ev with
  | existT (FilterEvents k a s e) r =>
      a = contract -> forall it, r.1 = Some it -> it_Events it = kind_events k (blocks_of log s e)
  | _ => True
  end.

Lemma exact_complete log contract ev : exact_filter log contract ev -> complete_filter log contract ev.
Proof.
  destruct ev as [c r]. destruct c; try done. cbn. intros H Ha it Hit x Hx Hb. rewrite (H Ha it Hit).
  apply elem_of_kind_events. unfold blocks_of. by apply list_elem_of_filter.
Qed.

Lemma bind_impl_exact log contract c :
  encodable log ->
  wp (bind_impl contract c) (fun tr o => forall r, o = Done r ->
    Forall (honest_logs log contract) tr -> exact_filter log contract (Ev c r)).
Proof.
  intros He. destruct c as [| | | | |c|]; try (apply wp_runs; intros; done).
  eapply wp_mono; [apply wp_filter_events|]. intros tr o (sub & err & -> & ->) r [= <-] Hh.
  apply Forall_cons in Hh as [Hh _]. cbn in Hh |- *. intros -> it Hit. destruct err as [er|]; [done|].
  injection Hit as <-. cbn. by rewrite (Hh k end_ eq_refl eq_refl eq_refl eq_refl eq_refl), delivered_events.
Qed.

(** ** The oracle over the network over the binding *)

(** The calls of a trace to the other services. *)
Definition rest_below (tr : list (Effects.event BindI)) : list (Effects.event OrchI) :=
  omap (fun ev : Effects.event BindI =>
          match ev with existT (Lower (Rest c)) r => Some (OEv c r) | _ => None end) tr.

(** A call to a contract or to the node. *)
Definition below_call (c : cmd BindI) : Prop := match c with Lower (Rest _) => False | _ => True end.

Lemma rest_below_none tr :
  Forall (fun ev : Effects.event BindI => below_call (projT1 ev)) tr -> rest_below tr = [].
Proof. induction 1 as [|[c r] tr Hc _ IH]; [done|]. destruct c as [| | |c]; try done. by destruct c. Qed.

Lemma out0_issues t out : issues below_call (out0 t out).
Proof. destruct out as [|[e z|e zs|b|vs] out]; try constructor. cbn. by destruct (bool_decide _); constructor. Qed.

Lemma read_issues (p : prog BindI (option Z * error)) : issues below_call p -> issues below_call (read p).
Proof. intros Hp. apply (issues_bind _ _ p); [exact Hp|intros; apply issues_ret]. Qed.

(** The binding calls the other services itself in no command but theirs. *)
Lemma bind_impl_below contract c :
  match c with Rest _ => False | _ => True end -> issues below_call (bind_impl contract c).
Proof.
  destruct c as [a|k a s e| | | |c|c]; try done; intros _; cbn [bind_impl]; try (by intros r; repeat constructor).
  - by intros [er|]; repeat constructor.
  - eapply wp_mono; [apply wp_filter_events|]. intros tr o (sub & err & -> & _). by repeat constructor.
  - destruct c; try (by intros r; repeat constructor); try apply read_issues;
      (apply issues_Call; [done|]); intros [out [er|]]; try apply issues_ret;
      (apply issues_bind; [apply out0_issues|intros; apply issues_ret]).
Qed.

Lemma bind_impl_rest contract c :
  wp (bind_impl contract c) (fun tr o => forall r, o = Done r -> rest_below tr = rest_of [Ev c r]).
Proof.
  destruct c; try (by intros r r' [= <-]);
    (eapply wp_mono; [by apply bind_impl_below|]); by intros tr o Htr%rest_below_none r _.
Qed.

Lemma implements_rest_below contract tr tr' :
  implements (bind_impl contract) tr tr' -> rest_below tr' = rest_of tr.
Proof.
  induction 1 as [|c r tr tr1 tr2 Hr _ IH]; [done|].
  pose proof (proj1 (wp_runs _ _) (bind_impl_rest contract c) _ _ Hr r eq_refl) as H1.
  unfold rest_below, rest_of in *. rewrite omap_app, H1, IH. by rewrite <- (omap_app _ [_]).
Qed.

(** C16: the oracle over the network and the binding (their methods replaced by their code)
    skips nothing.  [log] is any list of events that the contract can encode; while the node
    delivers their logs for the queries that it accepts, an iteration that returns has kept its
    position, or restarted at the validator's last claim, or every event from the old to the new
    position is claimed without error or behind the last claim (for positions at which the block
    arithmetic does not wrap). *)
Theorem oracle_over_binding n l h log `{!RetryLib OrchI} :
  0 <= h < 2 ^ 64 - 2000 -> encodable log ->
  let contract := EthPeggy.Address_ (PeggyContract n) in
  wp (interp (bind_impl contract) (interp (net_impl n) (observeEthEvents l h))) (fun tr o => forall h' e,
    o = Done (h', e) -> Forall (honest_logs log contract) tr ->
    h' = h \/
    (exists c, c ∈ lastClaims (rest_below tr) /\ h' = EthereumEventHeight c) \/
    forall x, x ∈ log -> h <= event_block x <= h' -> covered (rest_below tr) x).
Proof.
  intros Hh He contract. eapply wp_mono; [apply wp_interp|]. intros tr' o H h' e Ho Hl.
  destruct (H (h', e) Ho) as (tr & Hrun & Himp). rewrite (implements_rest_below _ _ _ Himp).
  eapply (proj1 (wp_runs _ _) (oracle_over_network n l h Hh)); [exact Hrun|done|].
  eapply (implements_Forall (bind_impl contract)); [|exact Himp|exact Hl].
  intros c. eapply wp_mono; [by apply bind_impl_exact|]. intros t o' H' r Hr Hf.
  by apply (exact_complete log), H'.
Qed.

(** ** The relayer over the network over the binding *)

(** No event is in a block after the head. *)
Definition honest_head (blocks : list Z) (n : option Z * error) : Prop :=
  match n with (Some n, None) => forall b, b ∈ blocks -> 0 < b <= big_Uint64 n | _ => True end.

Definition net_head (blocks : list Z) (ev : Effects.event NetI) : Prop :=
  match ev with existT HeaderByNumber n => honest_head blocks n | _ => True end.

Definition bind_head (blocks : list Z) (ev : Effects.event BindI) : Prop :=
  match ev with existT (Lower HeaderByNumber) n => honest_head blocks n | _ => True end.

Lemma bind_impl_head blocks contract c :
  wp (bind_impl contract c) (fun tr o => forall r, o = Done r ->
    Forall (bind_head blocks) tr -> net_head blocks (Ev c r)).
Proof. destruct c; try (apply wp_runs; intros; done). by intros r r' [= <-] [Hh _]%Forall_cons. Qed.

Lemma net_impl_tells n log blocks c :
  let contract := EthPeggy.Address_ (PeggyContract n) in
  wp (net_impl n c) (fun tr o => forall r, o = Done r ->
    Forall (fun ev => exact_filter log contract ev /\ net_head blocks ev) tr ->
    tells (valsetUpdates log) blocks (Ev c r)).
Proof.
  intros contract. destruct c; try (apply wp_runs; intros; done).
  - intros [h er] r [= <-] [[_ Hh] _]%Forall_cons. exact Hh.
  - eapply wp_mono; [apply (wp_filterEventsOf ValsetUpdatedEvent)|]. intros tr o H r -> Hf Hn x.
    destruct (H r eq_refl) as [[er ->]|(it & er & -> & Hin)]; [done|].
    pose proof (proj1 (proj1 (Forall_forall _ _) Hf _ Hin) eq_refl it eq_refl) as Hex. cbn in Hex |- *.
    rewrite Hex, (elem_of_kind_events ValsetUpdatedEvent), (elem_of_kind_events ValsetUpdatedEvent log x).
    unfold blocks_of. rewrite list_elem_of_filter. cbn. tauto.
Qed.

(** C4: the relayer finds the validator set that the contract has.  The contract was initialized
    and called in any order, without calls back by token contracts; no two of the sets passed
    have one checkpoint; each has as many powers as validators, powers and nonce below 2^64 and
    its members in the order of [BridgeValidators.Sort]; the events fit their types.  The node delivers the contract's logs
    for the queries that it accepts, and no header that it reports is behind a block with an event
    of the contract (with a head that lags, the newest set can be missed).  When
    [findLatestValsetOnEth], over the network and the binding, returns a set, the contract's
    arguments made of it have the very checkpoint that the contract has; else it returns the
    failure of a call, and never reports "not found". *)
Theorem relayer_over_binding {EV : Evm} `{!RetryLib OrchI} n sets p clog blocks :
  history_with sets p clog -> well_behaved (state_peggyId (core p)) sets ->
  length blocks = length clog -> StronglySorted Z.le blocks -> encodable (oracle_log clog blocks) ->
  let contract := EthPeggy.Address_ (PeggyContract n) in
  wp (interp (bind_impl contract) (interp (net_impl n) findLatestValsetOnEth)) (fun tr o => forall r,
    o = Done r -> Forall (fun ev => honest_logs (oracle_log clog blocks) contract ev /\ bind_head blocks ev) tr ->
    (exists v a, r = Some (Some v, None) /\ Checkpoint.valset_args_of v = Some a /\
       makeCheckpoint a (state_peggyId (core p)) = state_lastValsetCheckpoint (core p)) \/
    exists e m, r = Some (None, Some (ErrWrap e m))).
Proof.
  intros Hh Hw Hlen Hs He contract. set (log := oracle_log clog blocks) in *.
  eapply wp_mono; [apply wp_interp|]. intros tr2 o H r Hr H2. destruct (H r Hr) as (tr1 & Hrun & Himp).
  assert (Forall (fun ev => exact_filter log contract ev /\ net_head blocks ev) tr1) as H1.
  { eapply (implements_Forall (bind_impl contract)); [|exact Himp|exact H2].
    intros c. apply (wp_mono _ _ _ (wp_conj _ _ _ (bind_impl_exact log contract c He) (bind_impl_head blocks contract c))).
    intros t o' [Hc Hb] r' Hr' Hf. apply Forall_and in Hf as [Hf Hf']. split; [by apply Hc|by apply Hb]. }
  destruct (proj1 (wp_runs _ _) (wp_interp (net_impl n) findLatestValsetOnEth) _ _ Hrun r eq_refl) as (tr & Hr0 & Himp').
  assert (Forall (tells (valset_log clog blocks) blocks) tr) as Ht.
  { eapply (implements_Forall (net_impl n)); [|exact Himp'|exact H1].
    intros c. eapply wp_mono; [apply (net_impl_tells n log blocks)|]. intros t o' Hc r' Hr' Hf. by apply Hc. }
  destruct (proj1 (wp_runs _ _) (relayer_finds_current_set sets p clog blocks Hh Hw Hlen Hs) _ _ Hr0 Ht)
    as [(v & a & [= ->] & _ & Hv)|[(e & m & [= ->])|?]]; [left; by exists v, a|right; by exists e, m|done].
Qed.
End composition.

(** ** An executable decoder *)

Definition event_types (k : ev_kind) : list abi_type :=
  match k with
  | SendToCosmosEvent => [TElem TUint256; TElem TUint256]
  | SendToInjectiveEvent => [TElem TUint256; TElem TUint256; TBytes]
  | ERC20DeployedEvent => [TBytes; TBytes; TBytes; TElem TUint8; TElem TUint256]
  | ValsetUpdatedEvent =>
      [TElem TUint256; TElem TUint256; TElem TAddress; TArray TAddress; TArray TUint256]
  | TransactionBatchExecutedEvent => [TElem TUint256]
  end.

(** The event of the topics after the first and the decoded data. *)
Definition event_of (k : ev_kind) (topics : list Hash) (data : list abi_val) : option (ev_type k) :=
  match k with
  | SendToCosmosEvent =>
      match topics, data with
      | [token; sender; dest], [VElem _ amount; VElem _ n] =>
          Some (MkSendToCosmosEvent token sender dest amount n 0)
      | _, _ => None
      end
  | SendToInjectiveEvent =>
      match topics, data with
      | [token; sender; dest], [VElem _ amount; VElem _ n; VBytes d] =>
          Some (MkSendToInjectiveEvent token sender dest amount n (string_of_list_byte d) 0)
      | _, _ => None
      end
  | ERC20DeployedEvent =>
      match topics, data with
      | [token], [VBytes denom; VBytes name; VBytes symbol; VElem _ decimals; VElem _ n] =>
          Some (MkERC20DeployedEvent (string_of_list_byte denom) token (string_of_list_byte name)
                  (string_of_list_byte symbol) decimals n 0)
      | _, _ => None
      end
  | ValsetUpdatedEvent =>
      match topics, data with
      | [nonce], [VElem _ n; VElem _ amount; VElem _ token; VArray _ validators; VArray _ powers] =>
          Some (MkValsetUpdatedEvent nonce n amount token validators powers 0)
      | _, _ => None
      end
  | TransactionBatchExecutedEvent =>
      match topics, data with
      | [nonce; token], [VElem _ n] => Some (MkBatchExecutedEvent nonce token n 0)
      | _, _ => None
      end
  end.

Definition model_UnpackLog (k : ev_kind) (log : Log) : ev_type k + err :=
  match Topics log with
  | [] => inr (ErrNew "no event signature")
  | id :: topics =>
      if negb (id =? event_ID k) then inr (ErrNew "event signature mismatch")
      else match abi_decode (event_types k) (Data log) ≫= event_of k topics with
           | Some e => inl e
           | None => inr (ErrNew "abi: cannot unmarshal")
           end
  end.

Lemma event_args_types k e : have_types (event_args k e).2 (event_types k) = true.
Proof. by destruct k. Qed.

Lemma event_of_args k e :
  event_of k (map snd (event_args k e).1) (event_args k e).2 = Some (with_Raw k (MkLog [] [] 0) e).
Proof. destruct k; cbn; by rewrite ?string_of_list_byte_of_string. Qed.

#[global, refine] Instance model_decoder : LogDecoder := {| UnpackLog := model_UnpackLog |}.
Proof.
  intros k e (_ & Hok & Hlen). unfold model_UnpackLog, log_of. cbn [Topics Data]. rewrite Z.eqb_refl. cbn [negb].
  pose proof (abi_decode_encode (event_types k) (event_args k e).2 [] (event_args_types k e) Hok) as Hdec.
  rewrite app_nil_r in Hdec. rewrite (Hdec Hlen). cbn [mbind option_bind]. by rewrite event_of_args.
Defined.

(** ** Examples *)
Module Example.
#[local] Existing Instance PeggyStateFacts.Example.evm.
#[local] Instance retry_lib : RetryLib OrchI := retry_loop_lib OrchI.

Definition net : network := EthNetwork.Example.net.
Definition log : list event := OracleLive.Example.log.

Definition ev_okb (k : ev_kind) (e : ev_type k) : bool :=
  forallb (fun p => elem_ok p.1 p.2) (event_args k e).1 && forallb val_ok (event_args k e).2 &&
  (Z.of_nat (length (abi_encode (event_args k e).2)) <? 2 ^ 256).

Lemma log_encodable : encodable log.
Proof.
  intros k x Hx. apply elem_of_kind_events in Hx.
  assert (Forall (ev_ok k) (kind_events k log)) as H; [|by apply (proj1 (Forall_forall _ _) H)].
  assert (forall e, ev_okb k e = true -> ev_ok k e) as Hb.
  { intros e. unfold ev_okb. rewrite !andb_true_iff, Z.ltb_lt. by intros [[H1 H2] H3]. }
  assert (forallb (ev_okb k) (kind_events k log) = true) as Hall by (destruct k; by vm_compute).
  apply Forall_forall. intros e He. apply Hb. apply (proj1 (forallb_forall _ _) Hall). by apply list_elem_of_In.
Qed.

Lemma oracle_over_binding_witness :
  wp (interp (bind_impl 0xcc) (interp (net_impl net) (observeEthEvents OracleFacts.Example.orch 100))) (fun tr o =>
    forall h' e, o = Done (h', e) -> Forall (honest_logs log 0xcc) tr ->
    h' = 100 \/
    (exists c, c ∈ lastClaims (rest_below tr) /\ h' = EthereumEventHeight c) \/
    forall x, x ∈ log -> 100 <= event_block x <= h' -> covered (rest_below tr) x).
Proof. apply (oracle_over_binding net OracleFacts.Example.orch 100 log); [lia|apply log_encodable]. Defined.

Lemma relayer_over_binding_witness :
  wp (interp (bind_impl 0xcc) (interp (net_impl net) findLatestValsetOnEth)) (fun tr o => forall r,
    o = Done r -> Forall (fun ev => honest_logs log 0xcc ev /\ bind_head OracleLive.Example.blocks ev) tr ->
    (exists v a, r = Some (Some v, None) /\ Checkpoint.valset_args_of v = Some a /\
       makeCheckpoint a 42 = state_lastValsetCheckpoint (core PeggyStateFacts.Example.later)) \/
    exists e m, r = Some (None, Some (ErrWrap e m))).
Proof.
  apply (relayer_over_binding net RelayerContract.Example.later_sets PeggyStateFacts.Example.later
           PeggyStateFacts.Example.later_log OracleLive.Example.blocks).
  - apply RelayerContract.Example.later_history_with.
  - apply RelayerContract.Example.later_well_behaved.
  - done.
  - by repeat constructor.
  - apply log_encodable.
Defined.

(** The logs of the events of blocks 100 to 150 are decoded to those events. *)
Example logs_decoded :
  delivered (k := TransactionBatchExecutedEvent)
    (MkSubscription (map (log_of TransactionBatchExecutedEvent)
       (kind_events TransactionBatchExecutedEvent (blocks_of log 100 150))) None []) =
  ([MkBatchExecutedEvent 3 0xee 2 150], None).
Proof. by vm_compute. Qed.

(** A log that is cut off hides the ones behind it. *)
Example cut_log_hides :
  let e := MkBatchExecutedEvent 3 0xee 2 150 in
  let l := log_of TransactionBatchExecutedEvent e in
  delivered (k := TransactionBatchExecutedEvent) (MkSubscription [l; MkLog (Topics l) [] 150; l] None []) =
  ([e], Some (ErrNew "abi: cannot unmarshal")).
Proof. by vm_compute. Qed.
End Example.
