(* ===== verification/BridgeLive.v ===== *)
(** * BridgeLive: from the logs of the contract to the claims on Injective

    [validator_mode_claims_all] of [OracleLive.v] is about a network that answers with events.
    Here the network is the code of [EthNetwork.v] over the binding of [Binding.v], so that what
    is assumed is below them: a node that serves logs, contract reads and heads, and Injective. *)
From S2P Require Import Prelude Effects GoFloat Types External AbiDecode Model PeggySol PeggyState PeggyStateFacts.
From S2P Require Import GoSort Interfaces Oracle OracleFacts Loops Relayer Orchestrator OracleLoop OracleLive.
From S2P Require Import EthNetwork Binding.
From S2P Require EthPeggy.

(** ** The loops' interface over the node *)
Section stack.
Context {LD : LogDecoder} {GE : Geth} {SH : Shopspring}.

(** The network over the binding. *)
Definition eth_impl (n : network) (c : cmd OrchI) : prog BindI (reply OrchI c) :=
  interp (bind_impl (EthPeggy.Address_ (PeggyContract n))) (net_impl n c).

Lemma eth_impl_passes n c : eth_method c = false -> eth_impl n c = bcall (Lower (Rest c)).
Proof. intros H. unfold eth_impl. by rewrite (net_impl_passes n c H). Qed.

Lemma lift_below a {A} (p : prog EthPeggy.PeggyI A) : issues below_call (interp (bind_impl a) (lift p)).
Proof.
  unfold lift. induction p as [x|m|c k IH]; cbn [interp]; [constructor..|].
  apply (issues_bind below_call _ (bind_impl a (Contract c))); [by apply bind_impl_below|exact IH].
Qed.

Lemma getter_below a k name n s e : issues below_call (interp (bind_impl a) (filterEventsOf k name n s e)).
Proof.
  eapply wp_mono; [apply wp_event_getter|].
  intros tr o [(er & -> & _)|(sub & err & -> & _)]; by repeat constructor.
Qed.

(** The methods of the network do not touch the other services. *)
Lemma eth_impl_below n c : eth_method c = true -> issues below_call (eth_impl n c).
Proof.
  destruct c; try done; intros _; unfold eth_impl; cbn [net_impl]; try apply lift_below.
  - by intros r; repeat constructor.
  - apply (getter_below _ SendToCosmosEvent).
  - apply (getter_below _ SendToInjectiveEvent).
  - apply (getter_below _ ERC20DeployedEvent).
  - apply (getter_below _ ValsetUpdatedEvent).
  - apply (getter_below _ TransactionBatchExecutedEvent).
  - apply issues_Call; [done|]. intros r. apply lift_below.
  - apply issues_Call; [done|]. intros r. apply lift_below.
  - apply issues_Call; [done|]. intros [res [er|]]; cbn; [constructor|].
    destruct (length res =? 0)%nat; constructor.
Qed.

(** The claims of the program and those that reach Injective are the same. *)
Lemma eth_impl_claims n c :
  wp (eth_impl n c) (fun tr o => forall r, o = Done r -> claims (rest_below tr) = claims [OEv c r]).
Proof.
  destruct (eth_method c) eqn:E.
  - eapply wp_mono; [by apply eth_impl_below|]. intros tr o Htr%rest_below_none r _. rewrite Htr. by destruct c.
  - rewrite (eth_impl_passes n c E). by intros r r' [= <-].
Qed.

Lemma implements_claims n tr tr' : implements (eth_impl n) tr tr' -> claims (rest_below tr') = claims tr.
Proof.
  induction 1 as [|c r tr tr1 tr2 Hr _ IH]; [done|].
  pose proof (proj1 (wp_runs _ _) (eth_impl_claims n c) _ _ Hr r eq_refl) as H1.
  unfold rest_below in *. rewrite omap_app, claims_app, H1, IH. by rewrite <- (claims_app [_]).
Qed.

(** ** The calls of the oracle *)

(** The methods whose code returns, whatever the node answers, and [GetPeggyID]. *)
Definition oracle_call (c : cmd OrchI) : Prop :=
  match c with
  | Interfaces.GetValsetNonce | Interfaces.SendEthValsetUpdate _ _ _ | Interfaces.GetTxBatchNonce _
  | Interfaces.SendTransactionBatch _ _ _ => False
  | _ => True
  end.

Context {RL : RetryLib OrchI}.

Lemma Run_calls l : issues oracle_call (Run l).
Proof. unfold Run, startRelayerMode, startValidatorMode, getLastClaimBlockHeight. solve_issues. Qed.

Lemma observeEthEvents_calls l h : issues oracle_call (observeEthEvents l h).
Proof.
  assert (forall es, issues oracle_call (sendNewEventClaims l es)) as Hsend.
  { intros es. unfold sendNewEventClaims, retry. apply issues_bind; [|intros []; apply issues_ret].
    apply issues_retry. intros s. unfold sendEventsFn, sendClaims.
    repeat issues_step; try done. apply issues_for. intros x s'.
    destruct x; cbn [sendEthEventClaim]; solve_issues. }
  unfold observeEthEvents, getLatestEthHeight, getEthEvents, getLastClaimEvent, retry, scanEthEventsFn.
  repeat issues_step; try done; try apply Hsend; apply issues_retry; intros; solve_issues.
Qed.

Lemma runOracle_calls fuel l h : issues oracle_call (runOracle fuel l h).
Proof.
  unfold runOracle, RunLoop. apply issues_recover. revert h.
  induction fuel as [|fuel IH]; intros h; cbn [loop]; [apply issues_ret|].
  repeat issues_step; try done; try apply observeEthEvents_calls; apply IH.
Qed.
End stack.

(** ** A node that answers *)

(** The claims among the commands. *)
Definition bind_claim (c : bind_cmd) : bool := match c with Lower (Rest c) => is_claim c | _ => false end.

Section live.
Context {LD : LogDecoder} {GE : Geth} {SH : Shopspring} {RL : RetryLib OrchI} {RA : RetryAttempts OrchI}.
Context (n : network) (l : Orchestrator) (log : list event) {W : Type} (node : handler BindI W).
Context (last : W -> LastClaimEvent) (head : W -> Z).

(** As [answering], below the binding: the ABI is parsed, the filters deliver the logs of the
    range, the contract has an id.  Injective's part is the same. *)
Record bind_answering : Prop := {
  ba_quiet c w : bind_claim c = false -> last (node c w).2 = last w /\ head w <= head (node c w).2;
  ba_abi w : (node abi_JSON w).1 = None;
  ba_logs k s e w : e <= head w ->
    (node (FilterLogs (EthPeggy.Address_ (PeggyContract n)) (MkFilterOpts s (Some e)) (event_name k) (no_rules k)) w).1 =
    (MkSubscription (map (log_of k) (kind_events k (blocks_of log s e))) None [], None);
  ba_peggyID w : exists id,
    (node (ContractCall (EthPeggy.Address_ (PeggyContract n)) (FromAddr n) "state_peggyId" []) w).1 =
    ([VElem TBytes32 id], None);
  ba_head w : (node (Lower HeaderByNumber) w).1 = (Some (head w), None) /\ sane_height (head w);
  ba_valset w : exists vs, (node (Lower (Rest CurrentValset)) w).1 = (Some vs, None) /\ isBonded l vs = true;
  ba_last w : (node (Lower (Rest (LastClaimEventByAddr (CosmosAddr (cfg l))))) w).1 = (Some (last w), None) /\
    0 <= nonce last w < 2 ^ 64 - 1;
  ba_claim x w : x ∈ log -> Nonce x = nonce last w + 1 ->
    wph node (interp (eth_impl n) (sendEthEventClaim x)) w (fun o _ w' =>
      o = Done None /\ nonce last w' = Nonce x /\ head w <= head w');
  ba_timer w : (node (Lower (Rest SelectTimer)) w).1 = true
}.

(** Where the oracle starts, as [starting]. *)
Record bind_starting (w : W) : Prop := {
  bs_last : (exists y, y ∈ log /\ Nonce y = nonce last w /\ event_block y = EthereumEventHeight (last w)) \/
    last w = MkLastClaimEvent 0 0;
  bs_sane : sane_height (EthereumEventHeight (last w));
  bs_params w : exists p, (node (Lower (Rest PeggyParams)) w).1 = (Some p, None) /\
    sane_height (BridgeContractStartHeight p) /\ forall x, x ∈ log -> BridgeContractStartHeight p <= event_block x
}.

Context (Hans : bind_answering) (Henc : encodable log).

#[local] Abbreviation net := (via (eth_impl n) node inhabitant).

Lemma via_rest c w : eth_method c = false -> net c w = node (Lower (Rest c)) w.
Proof using Type.
  intros H. unfold via. rewrite (eth_impl_passes n c H). cbn. by destruct (node (Lower (Rest c)) w).
Qed.

(** A trace without claims keeps the last claim. *)
Lemma conforms_quiet tr w w' :
  conforms node w tr w' -> Forall (fun ev : Effects.event BindI => bind_claim (projT1 ev) = false) tr ->
  last w' = last w /\ head w <= head w'.
Proof using Hans.
  revert w. induction tr as [|[c r] tr IH]; cbn; intros w; [intros -> _; split; [done|lia]|].
  intros [_ Hc] [Hq Htr]%Forall_cons. destruct (ba_quiet Hans c w Hq) as [H1 H2].
  destruct (IH _ Hc Htr) as [H3 H4]. split; [exact (eq_trans H3 H1)|exact (Z.le_trans _ _ _ H2 H4)].
Qed.

Lemma below_quiet tr :
  Forall (fun ev : Effects.event BindI => below_call (projT1 ev)) tr ->
  Forall (fun ev : Effects.event BindI => bind_claim (projT1 ev) = false) tr.
Proof using Type.
  intros H. eapply Forall_impl; [exact H|]. intros [c r]. cbn. destruct c as [| | |c]; try done. by destruct c.
Qed.

Lemma via_quiet c w : is_claim c = false -> last (net c w).2 = last w /\ head w <= head (net c w).2.
Proof using Hans.
  intros Hc. destruct (eth_method c) eqn:E.
  - pose proof (exec_conforms node (eth_impl n c) w) as Hconf.
    pose proof (issues_runs _ _ _ _ (eth_impl_below n c E) (exec_runs node (eth_impl n c) w)) as Hb.
    unfold via. destruct (exec node (eth_impl n c) w) as [[[r|m] tr] w'];
      apply (conforms_quiet tr); done || by apply below_quiet.
  - rewrite (via_rest c w E). exact (ba_quiet Hans (Lower (Rest c)) w Hc).
Qed.

(** The getters answer with the events of the range. *)
Lemma exec_getter k name s e w :
  let p := interp (bind_impl (EthPeggy.Address_ (PeggyContract n))) (filterEventsOf k name n s e) in
  exists r, (exec node p w).1.1 = Done r /\ (e <= head w -> r = (kind_events k (blocks_of log s e), None)).
Proof using Hans Henc.
  intros p. pose proof (exec_conforms node p w) as Hconf.
  pose proof (proj1 (wp_runs _ _) (wp_event_getter (EthPeggy.Address_ (PeggyContract n)) k name n s e) _ _
                (exec_runs node p w)) as Hr.
  destruct (exec node p w) as [[o tr] w']. cbn in Hr, Hconf |- *.
  destruct Hr as [(er & -> & ->)|(sub & err & -> & ->)]; cbn in Hconf.
  - destruct Hconf as [Hconf _]. by pose proof (eq_trans Hconf (ba_abi Hans w)).
  - eexists. split; [reflexivity|]. intros He. destruct Hconf as (_ & Hlogs & _).
    pose proof (ba_quiet Hans abi_JSON w eq_refl) as [_ Hh].
    pose proof (eq_trans Hlogs (ba_logs Hans k s e _ (Z.le_trans _ _ _ He Hh))) as [= -> ->].
    by rewrite delivered_events.
Qed.

Lemma getter_Done k name s e w :
  exists r, (exec node (interp (bind_impl (EthPeggy.Address_ (PeggyContract n))) (filterEventsOf k name n s e)) w).1.1 = Done r.
Proof using Hans Henc. destruct (exec_getter k name s e w) as (r & Hr & _). by exists r. Qed.

(** What the oracle calls, the network answers. *)
Lemma oracle_call_Done c w : oracle_call c -> exists r, (exec node (eth_impl n c) w).1.1 = Done r.
Proof using Hans Henc.
  intros Hc. destruct (eth_method c) eqn:E.
  - destruct c; try done; unfold eth_impl; cbn [net_impl].
    + cbn. destruct (node _ w). by eexists.
    + destruct (ba_peggyID Hans w) as [id Hid]. cbn. destruct (node _ w) as [r w']. cbn in Hid. subst r. by eexists.
    + apply (getter_Done SendToCosmosEvent).
    + apply (getter_Done SendToInjectiveEvent).
    + apply (getter_Done ERC20DeployedEvent).
    + apply (getter_Done ValsetUpdatedEvent).
    + apply (getter_Done TransactionBatchExecutedEvent).
    + cbn. destruct (node _ w) as [[res [er|]] w']; cbn; [by eexists|]. destruct (length res =? 0)%nat; by eexists.
  - rewrite (eth_impl_passes n c E). cbn. destruct (node _ w). by eexists.
Qed.

Lemma via_exec c w r : (exec node (eth_impl n c) w).1.1 = Done r -> (net c w).1 = r.
Proof using Type. unfold via. destruct (exec node (eth_impl n c) w) as [[o tr] w']. by intros [= ->]. Qed.

(** So the node and the code of the network are a network that answers. *)
Lemma via_answering : answering l log net last head.
Proof using Hans Henc.
  split.
  - intros c w. apply via_quiet.
  - intros w. rewrite via_rest by done. apply (ba_valset Hans).
  - intros w. destruct (ba_head Hans w) as [Hh Hs]. split; [|done]. unfold via. cbn.
    destruct (node (Lower HeaderByNumber) w). exact Hh.
  - intros w. rewrite via_rest by done. apply (ba_last Hans).
  - intros s e w He. destruct (exec_getter SendToCosmosEvent "SendToCosmos" s e w) as (r & Hr & Hk).
    exact (eq_trans (via_exec (Interfaces.GetSendToCosmosEvents s e) w r Hr) (Hk He)).
  - intros s e w He. destruct (exec_getter SendToInjectiveEvent "SendToInjectiveEvent" s e w) as (r & Hr & Hk).
    exact (eq_trans (via_exec (Interfaces.GetSendToInjectiveEvents s e) w r Hr) (Hk He)).
  - intros s e w He. destruct (exec_getter TransactionBatchExecutedEvent "TransactionBatchExecuted" s e w) as (r & Hr & Hk).
    exact (eq_trans (via_exec (Interfaces.GetTransactionBatchExecutedEvents s e) w r Hr) (Hk He)).
  - intros s e w He. destruct (exec_getter ValsetUpdatedEvent "ValsetUpdatedEvent" s e w) as (r & Hr & Hk).
    exact (eq_trans (via_exec (Interfaces.GetValsetUpdatedEvents s e) w r Hr) (Hk He)).
  - intros s e w He. destruct (exec_getter ERC20DeployedEvent "ERC20DeployedEvent" s e w) as (r & Hr & Hk).
    exact (eq_trans (via_exec (Interfaces.GetPeggyERC20DeployedEvents s e) w r Hr) (Hk He)).
  - intros x w Hx Hn. pose proof (ba_claim Hans x w Hx Hn) as Hc.
    destruct x; unfold wph in *; cbn in *; unfold via; cbn; by destruct (node (Lower (Rest _)) w).
  - intros w. rewrite via_rest by done. apply (ba_timer Hans).
Qed.

Lemma via_starting w : bind_starting w -> starting l log net last w.
Proof using Hans.
  intros [Hl Hs Hp]. split; [done|done| |].
  - intros w'. rewrite via_rest by done. apply Hp.
  - intros w'. destruct (ba_peggyID Hans w') as [id Hid]. exists id. apply via_exec. cbn.
    destruct (node _ w') as [r w2]. cbn in Hid. by subst r.
Qed.
End live.

(** C3: a validator's orchestrator claims every event of the bridge, from the logs of the
    contract on.  For every log that the contract can have emitted, in blocks of increasing
    numbers: while the node parses the ABI, serves the contract's logs, id and head, Injective's
    last claim is that of an event of the log (or there is none) and Injective accepts the claims
    that are next, the start-up, over the code of the network and of the binding, starts the
    oracle at some block [h]; then [fuel] iterations end without error, the claims that reach
    Injective are exactly the events from the validator's last claim to its new one, once and in
    order, and that one covers every event before block [h + 2000 fuel] that has 12 confirmations. *)
Theorem bridge_events_claimed {LD : LogDecoder} {GE : Geth} {SH : Shopspring} {EV : Evm} {RL : RetryLib OrchI}
    {RA : RetryAttempts OrchI} p clog blocks n l {W} (node : handler BindI W) last head fuel w :
  reachable p clog -> state_lastEventNonce (core p) < 2 ^ 64 -> StronglySorted Z.le blocks ->
  let log := oracle_log clog blocks in
  encodable log -> bind_answering n l log node last head -> bind_starting log node last w ->
  maxAttempts l <> 0%nat -> RelayerMode (cfg l) = false ->
  wph node (interp (eth_impl n) (Run l)) w (fun o _ w1 => exists h id,
    o = Done (Start [RunOracle h; RunSigner id; RunBatchCreator; RunRelayer]) /\
    wph node (interp (eth_impl n) (runOracle fuel l h)) w1 (fun o tr w' =>
      o = Done None /\
      claims (rest_below tr) = map (fun x => (x, None)) (segment log (nonce last w) (nonce last w')) /\
      forall x, x ∈ log -> event_block x < h + 2000 * Z.of_nat fuel -> event_block x + 12 < head w ->
        Nonce x <= nonce last w')).
Proof.
  intros Hr Hs Hb log Henc Hans Hst Hatt Hmode.
  pose proof (oracle_log_ordered _ _ _ Hr Hs Hb) as Hlog.
  pose proof (via_answering n l log node last head Hans Henc) as Hnet.
  pose proof (oracle_call_Done n l log node last head Hans Henc) as Hdone.
  apply (wph_interp (eth_impl n) node (inhabitant : answers OrchI) oracle_call); [intros c; apply Hdone|apply Run_calls|].
  unfold Run. rewrite Hmode.
  eapply wph_mono; [by apply (wph_startValidatorMode l log _ last head Hnet Hlog), (via_starting n l log node last head)|].
  intros o tr w1 (h & id & -> & Hh & Hd & [Hl Hw]) tr' _. exists h, id. split; [done|].
  assert (nonce last w1 = nonce last w) as Hn by (unfold nonce; by rewrite Hl).
  apply (wph_interp (eth_impl n) node (inhabitant : answers OrchI) oracle_call); [intros c; apply Hdone|apply runOracle_calls|].
  eapply wph_mono; [apply (wph_runOracle l log _ last head Hnet Hlog fuel h w1 Hatt Hh); by rewrite Hn|].
  intros o tr1 w' (-> & Hc & Hcov) tr2 Himp. rewrite (implements_claims n _ _ Himp), <- Hn. split; [done|].
  split; [done|]. intros x Hx H1 H2. apply Hcov; [done|done|lia].
Qed.

(** ** An example: the logs of [OracleLive.Example] *)
Module Example.
#[local] Existing Instance PeggyStateFacts.Example.evm.
#[local] Instance retry_lib : RetryLib OrchI := retry_loop_lib OrchI.
#[local] Instance retry_lib_attempts : RetryAttempts OrchI := retry_loop_attempts OrchI.
Import OracleLive.Example.

(** The logs of the kind of event with a name. *)
Definition logs_named (name : string) (es : list event) : list Log :=
  concat (map (fun k => if String.eqb name (event_name k) then map (log_of k) (kind_events k es) else [])
    [SendToCosmosEvent; SendToInjectiveEvent; ERC20DeployedEvent; ValsetUpdatedEvent; TransactionBatchExecutedEvent]).

Definition bridge_node : handler BindI nat := fun c w =>
  match c return bind_reply c * nat with
  | abi_JSON => (None, w)
  | FilterLogs _ opts name _ =>
      ((MkSubscription (logs_named name (blocks_of log (opt_Start opts) (default 0 (opt_End opts)))) None [], None), w)
  | ContractCall _ _ _ _ => (([VElem TBytes32 42], None), w)
  | Lower HeaderByNumber => ((Some (head w), None), w)
  | Lower (Rest c) => node c w
  | Lower c => ((EthNetwork.Example.failing_node c tt).1, w)
  end.

Lemma bridge_node_answering : bind_answering EthNetwork.Example.net orch log bridge_node last head.
Proof.
  destruct node_answering as [Hquiet Hvalset _ Hlast _ _ _ _ _ Hclaim Htimer].
  split; try done.
  - intros c w Hc. destruct c as [| | |c]; try (split; [done|unfold head; lia]).
    destruct c; try (split; [done|unfold head; lia]). exact (Hquiet c w Hc).
  - intros k s e w _. cbn. unfold logs_named. by destruct k; cbn; rewrite ?app_nil_r.
  - intros w. by eexists.
  - intros x w Hx Hn. pose proof (Hclaim x w Hx Hn) as H. destruct x; unfold wph in *; cbn in *; by destruct (accept _ _).
Qed.

Lemma bridge_events_claimed_witness :
  wph bridge_node (interp (eth_impl EthNetwork.Example.net) (Run orch)) 0%nat (fun o _ w1 => exists h id,
    o = Done (Start [RunOracle h; RunSigner id; RunBatchCreator; RunRelayer]) /\
    wph bridge_node (interp (eth_impl EthNetwork.Example.net) (runOracle 3 orch h)) w1 (fun o tr w' =>
      o = Done None /\
      claims (rest_below tr) = map (fun x => (x, None)) (segment log 0 (nonce last w')) /\
      forall x, x ∈ log -> event_block x < h + 2000 * 3 -> event_block x + 12 < 6000 -> Nonce x <= nonce last w')).
Proof.
  apply (bridge_events_claimed PeggyStateFacts.Example.later PeggyStateFacts.Example.later_log blocks
           EthNetwork.Example.net orch bridge_node last head 3 0%nat).
  - apply history_reachable, PeggyStateFacts.Example.later_history.
  - done.
  - by repeat constructor.
  - apply Binding.Example.log_encodable.
  - apply bridge_node_answering.
  - split; [by right|done|]. intros w. exists (MkParams "" 90 ""). split; [done|]. split; [done|].
    intros x Hx. apply elem_of_zip_with in Hx as (ev & b & -> & _ & Hb). rewrite oracle_event_block. cbn.
    unfold blocks in Hb. rewrite !elem_of_cons, elem_of_nil in Hb. lia.
  - done.
  - done.
Defined.

(** All four events are claimed in the second iteration, from their logs. *)
Example logs_claimed :
  claims (rest_below (exec bridge_node (interp (eth_impl EthNetwork.Example.net) (runOracle 2 orch 90)) 0%nat).1.2) =
  map (fun x => (x, None)) log.
Proof. by vm_compute. Qed.
End Example.
