(* ===== verification/PeggyUtil.v ===== *)
(** * PeggyUtil: addresses and bridge coins (orchestrator/ethereum/util/peggy.go)

    Validation of Ethereum addresses and of the denominations of bridged tokens, and
    the conversions between ERC20 amounts and coins of the chain. *)
From stdpp Require Import pretty.
From S2P Require Import Prelude GoStrings GoFloat Types External Model.

Definition PeggyDenomPrefix : string := "inj".
Definition PeggyDenomSeperator : string := "/".
Definition ETHContractAddressLen : nat := 42.
Definition PeggyDenomLen : nat :=
  (String.length PeggyDenomPrefix + String.length PeggyDenomSeperator + ETHContractAddressLen)%nat.

(** ** Addresses *)

(** The class [0-9a-fA-F]. *)
Definition is_hex_digit (c : ascii) : bool :=
  let n := nat_of_ascii c in
  ((48 <=? n) && (n <=? 57) || (97 <=? n) && (n <=? 102) || (65 <=? n) && (n <=? 70))%nat.

Fixpoint all_hex (s : string) : bool :=
  match s with
  | EmptyString => true
  | String c s' => is_hex_digit c && all_hex s'
  end.

(** [hexRx]: [^0x[0-9a-fA-F]{40}$] *)
Definition hexRx (a : string) : bool :=
  match a with
  | String "0" (String "x" a') => (String.length a' =? 40)%nat && all_hex a'
  | _ => false
  end.

(** [ValidateEthAddress] *)
Definition ValidateEthAddress (a : string) : error :=
  if (String.length a =? 0)%nat then Some (ErrNew "empty address provided")
  else if negb (hexRx a)
  then Some (ErrNew ("address(" ++ a ++ ") doesn't match Hex-encoding regex"))
  else if negb (String.length a =? ETHContractAddressLen)%nat
  then Some (ErrNew ("address(" ++ a ++ ") of the wrong length exp(42) actual(" ++
                     pretty (String.length a) ++ ")"))
  else None.

(** ** The SDK's coins *)

(** Denominations: [[a-zA-Z][a-zA-Z0-9/:._-]{2,127}]. *)
Definition denom_char (c : ascii) : bool :=
  let n := nat_of_ascii c in
  ((48 <=? n) && (n <=? 58) || (97 <=? n) && (n <=? 122) || (65 <=? n) && (n <=? 90) ||
   (45 <=? n) && (n <=? 47) || (n =? 95))%nat.

Definition denom_start (c : ascii) : bool :=
  let n := nat_of_ascii c in ((97 <=? n) && (n <=? 122) || (65 <=? n) && (n <=? 90))%nat.

Fixpoint denom_chars (s : string) : bool :=
  match s with
  | EmptyString => true
  | String c s' => denom_char c && denom_chars s'
  end.

Definition valid_denom (d : string) : bool :=
  match d with
  | EmptyString => false
  | String c d' => denom_start c && denom_chars d' &&
                   (2 <=? String.length d')%nat && (String.length d' <=? 127)%nat
  end.

(** [NewIntFromBigInt] and [NewCoin] panic ([None]) outside the stated cases. *)
Class Sdk : Type := {
  NewIntFromBigInt : option Z -> option (option Z);
  NewCoin : string -> option Z -> option Coin;
  Coin_String : Coin -> string;
  NewIntFromBigInt_ok z : Z.abs z < 2 ^ 256 -> NewIntFromBigInt (Some z) = Some (Some z);
  NewCoin_ok d a : valid_denom d = true -> 0 <= a -> NewCoin d (Some a) = Some (MkCoin d (Some a))
}.

(** [Address.Hex] is documented to give the 42-character hex form. *)
Class GethHex {GE : Geth} : Prop := {
  Address_Hex_format a : is_addr a -> hexRx (Address_Hex a) = true
}.

(** ** Tokens *)

(** [ERC20Token] of this package: [Amount] is a pointer. *)
Record ERC20Token : Type := MkToken { Amount : option Z; Contract : Address }.

Section util.
Context {GE : Geth} {SD : Sdk}.

(** [NewERC20Token], of a [uint64] amount *)
Definition NewERC20Token (amount : Z) (contract : string) : ERC20Token :=
  MkToken (Some (u64 amount)) (HexToAddress contract).

(** [PeggyCoin] *)
Definition PeggyCoin (e : ERC20Token) : option Coin :=
  amount ← NewIntFromBigInt (Amount e);
  NewCoin (PeggyDenomPrefix ++ "/" ++ Address_Hex (Contract e)) amount.

(** [Add]: [None] is a panic. *)
Definition Add (e o : ERC20Token) : option ERC20Token :=
  if negb (Contract e =? Contract o) then None
  else x ← Amount e; y ← Amount o; Some (MkToken (Some (x + y)) (Contract e)).

(** [ValidatePeggyCoin] *)
Definition ValidatePeggyCoin (v : Coin) : string * error :=
  match strings_Split "/"%char (coin_Denom v) with
  | [] | [_] =>
      (EmptyString, Some (ErrNew ("denom(" ++ coin_Denom v ++
                                  ") not valid, fewer seperators(/) than expected")))
  | denomPrefix :: contract :: more =>
      let err := ValidateEthAddress contract in
      if negb (length more =? 0)%nat
      then (EmptyString, Some (ErrNew ("denom(" ++ coin_Denom v ++
                                       ") not valid, more seperators(/) than expected")))
      else if negb (String.eqb denomPrefix PeggyDenomPrefix)
      then (EmptyString, Some (ErrNew ("denom prefix(" ++ denomPrefix ++
                                       ") not equal to expected(inj)")))
      else match err with
           | Some e => (EmptyString, Some (ErrNew ("error(" ++ err_Error e ++
                                                   ") validating ethereum contract address")))
           | None =>
               if negb (String.length (coin_Denom v) =? PeggyDenomLen)%nat
               then (EmptyString, Some (ErrNew ("len(denom)(" ++ pretty (String.length (coin_Denom v)) ++
                                                ") not equal to PeggyDenomLen(46)")))
               else (contract, None)
           end
  end.

(** [ERC20FromPeggyCoin] *)
Definition ERC20FromPeggyCoin (v : Coin) : option ERC20Token * error :=
  let '(contract, err) := ValidatePeggyCoin v in
  match err with
  | Some e => (None, Some (ErrNew (Coin_String v ++ " isn't a valid peggy coin: " ++ err_Error e)))
  | None => (Some (MkToken (coin_Amount v) (HexToAddress contract)), None)
  end.

(** ** Properties *)

Lemma hexRx_inv a :
  hexRx a = true -> exists a', a = ("0x" ++ a')%string /\ String.length a' = 40%nat /\ all_hex a' = true.
Proof.
  unfold hexRx. intros H. destruct a as [|c a]; [done|].
  destruct (Ascii.eqb_spec c "0"%char) as [->|Hne].
  2:{ exfalso. revert Hne H. by destruct c as [[] [] [] [] [] [] [] []]. }
  destruct a as [|c a]; [done|]. destruct (Ascii.eqb_spec c "x"%char) as [->|Hne].
  2:{ exfalso. revert Hne H. by destruct c as [[] [] [] [] [] [] [] []]. }
  apply andb_true_iff in H as [Hl Hh]. exists a. split; [done|]. split; [by apply Nat.eqb_eq|done].
Qed.

Lemma ValidateEthAddress_None a : ValidateEthAddress a = None <-> hexRx a = true.
Proof.
  unfold ValidateEthAddress. split.
  - destruct (_ =? 0)%nat; [done|]. by destruct (hexRx a).
  - intros H. rewrite H. destruct (hexRx_inv a H) as (a' & -> & Hl & _).
    assert (String.length ("0x" ++ a') = 42%nat) as -> by exact (f_equal (Nat.add 2) Hl). done.
Qed.

Lemma hex_no_slash s : all_hex s = true -> no_char "/"%char s = true.
Proof.
  induction s as [|c s IH]; [done|]. cbn. intros [Hc Hs]%andb_true_iff. rewrite IH by done.
  destruct (Ascii.eqb_spec c "/"%char) as [->|]; done.
Qed.

Lemma ValidatePeggyCoin_accepts v c :
  ValidatePeggyCoin v = (c, None) <-> coin_Denom v = ("inj/" ++ c)%string /\ hexRx c = true.
Proof.
  unfold ValidatePeggyCoin. split.
  - destruct (strings_Split "/"%char (coin_Denom v)) as [|p [|d [|]]] eqn:E; try done. cbn [length Nat.eqb negb].
    apply split_two in E. destruct (String.eqb_spec p PeggyDenomPrefix) as [->|]; cbn [negb]; [|done].
    destruct (ValidateEthAddress d) eqn:Ev; [done|]. apply ValidateEthAddress_None in Ev.
    destruct (negb _); [done|]. intros [= <-]. by rewrite E.
  - intros [Hd Hh]. rewrite Hd. destruct (hexRx_inv c Hh) as (c' & -> & Hl & Hall).
    change ("inj/" ++ "0x" ++ c')%string with ("inj" ++ String "/" ("0x" ++ c'))%string.
    rewrite (split_app "/"%char "inj" ("0x" ++ c')) by done.
    rewrite (split_no_char "/"%char ("0x" ++ c')) by (by apply (hex_no_slash c')).
    cbn [length Nat.eqb negb]. rewrite String.eqb_refl. cbn [negb].
    rewrite (proj2 (ValidateEthAddress_None _) Hh).
    assert (String.length ("inj" ++ String "/" ("0x" ++ c')) = 46%nat) as ->
      by exact (f_equal (Nat.add 6) Hl).
    done.
Qed.

(** A coin is accepted exactly when its denomination is the prefix, one slash
    and a 42-character hex address, and that address is what is returned; a rejected
    coin returns no contract. *)
Lemma ValidatePeggyCoin_iff v c :
  (ValidatePeggyCoin v = (c, None) <-> coin_Denom v = ("inj/" ++ c)%string /\ hexRx c = true) /\
  (forall e, ValidatePeggyCoin v = (c, Some e) -> c = EmptyString).
Proof.
  split; [apply ValidatePeggyCoin_accepts|]. unfold ValidatePeggyCoin.
  intros e. destruct (strings_Split _ _) as [|p [|d l]]; [by intros [= <- _]..|].
  destruct (negb _); [by intros [= <- _]|]. destruct (negb _); [by intros [= <- _]|].
  destruct (ValidateEthAddress d); [by intros [= <- _]|]. destruct (negb _); [by intros [= <- _]|].
  done.
Qed.

Lemma denom_chars_hex s : all_hex s = true -> denom_chars s = true.
Proof.
  induction s as [|c s IH]; [done|]. cbn [all_hex denom_chars]. intros [Hc Hs]%andb_true_iff.
  rewrite IH by done. unfold is_hex_digit, denom_char in *.
  rewrite andb_true_r, !orb_true_iff, !andb_true_iff, !Nat.leb_le, Nat.eqb_eq.
  rewrite !orb_true_iff, !andb_true_iff, !Nat.leb_le in Hc. lia.
Qed.

(** The coin of a token. *)
Lemma PeggyCoin_denom {GH : GethHex} e a :
  Amount e = Some a -> 0 <= a < 2 ^ 256 -> is_addr (Contract e) ->
  PeggyCoin e = Some (MkCoin ("inj/" ++ Address_Hex (Contract e)) (Some a)).
Proof.
  intros Ha Hr Hc. unfold PeggyCoin. rewrite Ha, NewIntFromBigInt_ok by lia. cbn.
  pose proof (Address_Hex_format (Contract e) Hc) as Hf.
  destruct (hexRx_inv _ Hf) as (h & -> & Hl & Hh).
  change (PeggyDenomPrefix ++ "/" ++ "0x" ++ h)%string with ("inj/0x" ++ h)%string.
  change ("inj/" ++ "0x" ++ h)%string with ("inj/0x" ++ h)%string.
  apply NewCoin_ok; [|lia].
  change (denom_chars ("nj/0x" ++ h) && (2 <=? 5 + String.length h)%nat &&
          (5 + String.length h <=? 127)%nat = true).
  rewrite Hl. change (denom_chars h && true && true = true). by rewrite denom_chars_hex.
Qed.

Lemma PeggyCoin_back {GH : GethHex} e a :
  Amount e = Some a -> 0 <= a < 2 ^ 256 -> is_addr (Contract e) ->
  exists v, PeggyCoin e = Some v /\ ERC20FromPeggyCoin v = (Some e, None).
Proof.
  intros Ha Hr Hc. eexists. split; [exact (PeggyCoin_denom e a Ha Hr Hc)|]. unfold ERC20FromPeggyCoin.
  assert (ValidatePeggyCoin (MkCoin ("inj/" ++ Address_Hex (Contract e)) (Some a)) =
          (Address_Hex (Contract e), None)) as ->.
  { apply ValidatePeggyCoin_accepts. split; [done|]. by apply Address_Hex_format. }
  rewrite HexToAddress_Hex by done. cbn. rewrite <- Ha. by destruct e.
Qed.

(** C33: converting a token to its coin and back loses nothing, for every amount of
    256 bits; in particular for every token that [NewERC20Token] builds, of whatever contract
    string and 64-bit amount. *)
Theorem PeggyCoin_roundtrip {GH : GethHex} :
  (forall e a, Amount e = Some a -> 0 <= a < 2 ^ 256 -> is_addr (Contract e) ->
    exists v, PeggyCoin e = Some v /\ ERC20FromPeggyCoin v = (Some e, None)) /\
  (forall amount contract, is_u64 amount ->
    let t := NewERC20Token amount contract in Amount t = Some amount /\
    exists v, PeggyCoin t = Some v /\ ERC20FromPeggyCoin v = (Some t, None)).
Proof.
  split; [apply PeggyCoin_back|]. intros amount contract Ha t.
  assert (Amount t = Some amount) as Ht by (cbn; by rewrite u64_small).
  split; [done|]. apply (PeggyCoin_back t amount); [done|unfold is_u64 in Ha; lia|apply HexToAddress_range].
Qed.

(** Addition is defined exactly for tokens of one contract, and adds the amounts. *)
Lemma Add_spec e o r :
  Add e o = Some r <-> exists x y, Amount e = Some x /\ Amount o = Some y /\
    Contract e = Contract o /\ r = MkToken (Some (x + y)) (Contract e).
Proof.
  unfold Add. destruct (Z.eqb_spec (Contract e) (Contract o)) as [Hc|Hc]; cbn.
  - destruct (Amount e) as [x|], (Amount o) as [y|]; cbn; split; try done;
      try (by intros (x' & y' & [=] & _)); try (by intros (x' & y' & _ & [=] & _)).
    + intros [= <-]. by exists x, y.
    + intros (x' & y' & [= <-] & [= <-] & _ & ->). done.
  - split; [done|]. intros (x & y & _ & _ & He & _). by destruct Hc.
Qed.

End util.

(** ** Concrete instances *)
Module Example.

Lemma model_hex_all bs : all_hex (hex_of_bytes bs) = true.
Proof.
  induction bs as [|b bs IH]; [done|]. cbn [hex_of_bytes all_hex]. rewrite IH. by destruct b.
Qed.

Lemma model_hex_length bs : String.length (hex_of_bytes bs) = (2 * length bs)%nat.
Proof. induction bs as [|b bs IH]; [done|]. cbn [hex_of_bytes String.length length]. rewrite IH. lia. Qed.

#[local] Instance model_hex : GethHex (GE := model_geth).
Proof.
  constructor. intros a Ha.
  change (((String.length (hex_of_bytes (Z_be 20 a)) =? 40)%nat && all_hex (hex_of_bytes (Z_be 20 a)) = true)).
  by rewrite model_hex_all, model_hex_length, length_Z_be.
Qed.

#[local, refine] Instance model_sdk : Sdk := {|
  NewIntFromBigInt i :=
    match i with
    | None => Some None
    | Some z => if Z.abs z <? 2 ^ 256 then Some (Some z) else None
    end;
  NewCoin d a :=
    match a with
    | Some a => if valid_denom d && (0 <=? a) then Some (MkCoin d (Some a)) else None
    | None => None
    end;
  Coin_String c := coin_Denom c
|}.
Proof.
  - intros z Hz. by rewrite (proj2 (Z.ltb_lt _ _) Hz).
  - intros d a Hd Ha. by rewrite Hd, (proj2 (Z.leb_le _ _) Ha).
Defined.

Lemma PeggyCoin_roundtrip_witness :
  (exists v, PeggyCoin (MkToken (Some 12) 0xab) = Some v /\
    ERC20FromPeggyCoin v = (Some (MkToken (Some 12) 0xab), None)) /\
  let t := NewERC20Token 7 "0xAB" in Amount t = Some 7 /\
  exists v, PeggyCoin t = Some v /\ ERC20FromPeggyCoin v = (Some t, None).
Proof.
  destruct PeggyCoin_roundtrip as [H1 H2]. split.
  - apply (H1 (MkToken (Some 12) 0xab) 12); [done|lia|unfold is_addr; cbn; lia].
  - apply H2. unfold is_u64. lia.
Defined.

End Example.
