(* ===== verification/PriceFeed.v ===== *)
(** * PriceFeed: token prices from Coingecko (orchestrator/pricefeed/coingecko.go)

    The feed is a client of an HTTP service that answers JSON.  The interface is the
    HTTP client; [json.Unmarshal] is an operation on the body. *)
From Stdlib Require Import QArith Qpower.
From S2P Require Import Prelude GoStrings Effects GoFloat Types External Model Interfaces BatchCreator.
#[local] Open Scope Z_scope.

(** ** JSON values as [encoding/json] decodes them into an [interface{}] *)
#[warnings="-register-all"]
Inductive json : Type :=
  | JNull
  | JBool (b : bool)
  | JNumber (f : gofloat)
  | JString (s : string)
  | JArray (l : list json)
  | JObject (fields : list (string * json)).

(** Reading a map: the last value of a repeated key; a missing key is nil. *)
Definition json_get (fields : list (string * json)) (key : string) : json :=
  foldl (fun v f => if String.eqb f.1 key then f.2 else v) JNull fields.

(** [json.Unmarshal] into an [interface{}]. *)
Class Json : Type := { json_Unmarshal : bytes -> json * error }.

(** URLs: [net/url] and the request constructor of [net/http]. *)
Class NetURL : Type := {
  URL : Type;
  url_Parse : string -> URL * error;
  ParseRequestURI : string -> URL * error;
  url_Path : URL -> string;
  url_set_Path : URL -> string -> URL;
  url_set_Query : URL -> list (string * string) -> URL;
  url_String : URL -> string;
  NewRequest : string -> error
}.

(** ** Interface: the HTTP client *)
Inductive http_cmd : Type :=
  | HttpDo (reqURL : string)
  | ReadAll (limit : Z)
  | BodyClose.

Definition http_reply (c : http_cmd) : Type :=
  match c with
  | HttpDo _ => error
  | ReadAll _ => bytes * error
  | BodyClose => unit
  end.

Definition HttpI : Iface := MkIface http_cmd http_reply.
Definition hcall (c : http_cmd) : prog HttpI (http_reply c) := @call HttpI c.

(** ** The feed *)
Definition maxRespBytes : Z := 10 * 1024 * 1024.
Definition zeroPrice : gofloat := FFin 0 0.

(** [Config] of this package. *)
Record PriceConfig : Type := MkPriceConfig { BaseURL : string }.

(** [CoingeckoPriceFeed] *)
Record CoingeckoPriceFeed : Type := MkPriceFeed { config : PriceConfig; interval : Z }.

(** [checkCoingeckoConfig] *)
Definition checkCoingeckoConfig (cfg : option PriceConfig) : PriceConfig :=
  let cfg := default (MkPriceConfig "") cfg in
  if (String.length (BaseURL cfg) =? 0)%nat
  then MkPriceConfig "https://api.coingecko.com/api/v3" else cfg.

(** [NewCoingeckoPriceFeed] *)
Definition NewCoingeckoPriceFeed (interval : Z) (endpointConfig : option PriceConfig)
  : CoingeckoPriceFeed :=
  MkPriceFeed (checkCoingeckoConfig endpointConfig) interval.

Definition errCast : panicv :=
  PanicError (ErrNew "interface conversion: interface {} is not float64").

Section price_feed.
Context {GE : Geth} {JS : Json} {NU : NetURL}.

(** [strings.ToLower(erc20Contract.String())] *)
Definition token_key (erc20Contract : Address) : string := strings_ToLower (Address_Hex erc20Contract).

(** [urlJoin]: panics on a URL that does not parse. *)
Definition urlJoin (baseURL : string) (segments : list string) : prog HttpI string :=
  let '(u, err) := url_Parse baseURL in
  match err with
  | Some e => Panic (PanicError e)
  | None => mret (url_String (url_set_Path u (path_Join (url_Path u :: segments))))
  end.

(** The request of [QueryUSDPrice]: [Fatalln] ends the process. *)
Definition price_request (cp : CoingeckoPriceFeed) (erc20Contract : Address) : prog HttpI string :=
  base ← urlJoin (BaseURL (config cp)) ["simple"; "token_price"; "ethereum"]%string;
  let '(u, err) := ParseRequestURI base in
  match err with
  | Some _ => Panic (PanicValue "failed to parse URL")
  | None =>
      let u := url_set_Query u
        [("contract_addresses", token_key erc20Contract); ("vs_currencies", "usd")]%string in
      let reqURL := url_String u in
      match NewRequest reqURL with
      | Some _ => Panic (PanicValue "failed to create HTTP request")
      | None => mret reqURL
      end
  end.

(** [QueryUSDPrice] *)
Definition QueryUSDPrice (cp : CoingeckoPriceFeed) (erc20Contract : Address)
  : prog HttpI (gofloat * error) :=
  reqURL ← price_request cp erc20Contract;
  err ← hcall (HttpDo reqURL);
  match err with
  | Some _ => mret (zeroPrice, Wrap err ("failed to fetch price from " ++ reqURL)%string)
  | None =>
      '(respBody, err) ← hcall (ReadAll maxRespBytes);
      match err with
      | Some _ => _ ← hcall BodyClose; mret (zeroPrice, Wrap err ("failed to read response body from " ++ reqURL)%string)
      | None =>
          _ ← hcall BodyClose;
          let '(f, err) := json_Unmarshal respBody in
          match err with
          | Some _ => mret (zeroPrice, err)
          | None =>
              match f with
              | JObject m =>
                  match json_get m (token_key erc20Contract) with
                  | JNull => mret (zeroPrice, Some (ErrNew "failed to get contract address"))
                  | JObject n =>
                      match json_get n "usd" with
                      | JNumber tokenPriceInUSD => mret (tokenPriceInUSD, None)
                      | _ => Panic errCast
                      end
                  | _ => mret (zeroPrice,
                               Some (ErrNew "failed to cast value type: map[string]interface{}"))
                  end
              | _ => mret (zeroPrice,
                           Some (ErrNew "failed to cast response type: map[string]interface{}"))
              end
          end
      end
  end.

(** [CheckFeeThreshold] *)
Definition CheckFeeThreshold {SH : Shopspring} (cp : CoingeckoPriceFeed) (erc20Contract : Address)
    (totalFee : Z) (minFeeInUSD : gofloat) : prog HttpI bool :=
  '(tokenPriceInUSD, err) ← QueryUSDPrice cp erc20Contract;
  match err with
  | Some _ => mret false
  | None =>
      tokenPriceInUSDDec ← newFromFloat tokenPriceInUSD;
      let totalFeeInUSDDec := dec_Mul (NewFromBigInt totalFee (-18)) tokenPriceInUSDDec in
      minFeeInUSDDec ← newFromFloat minFeeInUSD;
      if dec_GreaterThan totalFeeInUSDDec minFeeInUSDDec then mret true else mret false
  end.

(** ** What a query returns *)

(** The entry of a token in an answer, and its price. *)
Definition token_entry (f : json) (token : string) : option (list (string * json)) :=
  match f with
  | JObject m => match json_get m token with JObject n => Some n | _ => None end
  | _ => None
  end.

Definition entry_price (n : list (string * json)) : option gofloat :=
  match json_get n "usd" with JNumber p => Some p | _ => None end.

(** The bodies read under the size limit, and the answer that a trace decoded. *)
Definition body_of (ev : event HttpI) : option (bytes * error) :=
  match ev with existT (ReadAll n) r => if n =? maxRespBytes then Some r else None | _ => None end.

Definition decoded (tr : list (event HttpI)) (f : json) : Prop :=
  exists body, omap body_of tr = [(body, None)] /\ json_Unmarshal body = (f, None).

(** The trace answered with an entry for the token, of this price if it has one. *)
Definition answered (tr : list (event HttpI)) (token : string) (price : option gofloat) : Prop :=
  exists f n, decoded tr f /\ token_entry f token = Some n /\ entry_price n = price.

Lemma decoded_read reqURL body r tail f :
  omap body_of tail = [] ->
  decoded (@Ev HttpI (HttpDo reqURL) r :: @Ev HttpI (ReadAll maxRespBytes) (body, None) :: tail) f <->
  json_Unmarshal body = (f, None).
Proof.
  intros Ht. unfold decoded. cbn. rewrite Ht. split.
  - by intros (b & [= <-] & Hj).
  - intros Hj. by exists body.
Qed.

Lemma answered_read reqURL body r tail f token price :
  omap body_of tail = [] -> json_Unmarshal body = (f, None) ->
  answered (@Ev HttpI (HttpDo reqURL) r :: @Ev HttpI (ReadAll maxRespBytes) (body, None) :: tail) token price <->
  exists n, token_entry f token = Some n /\ entry_price n = price.
Proof.
  intros Ht Hj. unfold answered. split.
  - intros (f' & n & Hd & He & Hp). apply decoded_read in Hd; [|done]. rewrite Hj in Hd.
    injection Hd as <-. by exists n.
  - intros (n & He & Hp). exists f, n. split; [by apply decoded_read|done].
Qed.

(** What an outcome tells of the trace; [req] are the URLs that may be requested. *)
Definition price_outcome (req : string -> Prop) (tr : list (event HttpI)) (token : string)
    (o : outcome (gofloat * error)) : Prop :=
  (forall p, o = Done (p, None) <-> answered tr token (Some p)) /\
  (forall p e, o = Done (p, Some e) -> p = zeroPrice) /\
  ((exists v, o = Crashed v) <-> (forall reqURL, ~ req reqURL) \/ answered tr token None) /\
  (forall reqURL, req reqURL <-> exists r tr', tr = @Ev HttpI (HttpDo reqURL) r :: tr').

(** The base URL is good for the request [reqURL] of a token's price: it parses, and so do the
    path and the request made of it. *)
Definition requests (baseURL token reqURL : string) : Prop :=
  exists u u', url_Parse baseURL = (u, None) /\
    ParseRequestURI (url_String (url_set_Path u
      (path_Join [url_Path u; "simple"; "token_price"; "ethereum"]%string))) = (u', None) /\
    reqURL = url_String (url_set_Query u' [("contract_addresses", token); ("vs_currencies", "usd")]%string) /\
    NewRequest reqURL = None.

Lemma price_outcome_dead req token v : (forall reqURL, ~ req reqURL) -> price_outcome req [] token (Crashed v).
Proof.
  intros Hno. split_and!; [|done| |].
  - intros p. split; [done|]. intros (f & n & (b & Hb & _) & _). done.
  - split; [by left|by eexists].
  - intros reqURL. split; [by intros ?%Hno|]. by intros (r & tr' & ?).
Qed.

(** The only URL that may be requested is the one of the first call. *)
Definition only_request (req : string -> Prop) (ev : event HttpI) : Prop :=
  exists url r, ev = @Ev HttpI (HttpDo url) r /\ forall reqURL, req reqURL <-> reqURL = url.

Lemma only_request_head req ev tr reqURL :
  only_request req ev -> req reqURL <-> exists r tr', ev :: tr = @Ev HttpI (HttpDo reqURL) r :: tr'.
Proof.
  intros (url & r & -> & Hreq). rewrite Hreq. split; [intros ->; by exists r, tr|].
  intros (r' & tr' & [= Heq _ _]). done.
Qed.

Lemma only_request_some req ev : only_request req ev -> ~ forall reqURL, ~ req reqURL.
Proof. intros (url & r & _ & Hreq) Hno. by apply (Hno url), Hreq. Qed.

Lemma price_outcome_error req ev tr token e :
  only_request req ev -> (forall price, ~ answered (ev :: tr) token price) ->
  price_outcome req (ev :: tr) token (Done (zeroPrice, Some e)).
Proof.
  intros Hreq Hno. split_and!.
  - intros p. split; [done|]. by intros ?%Hno.
  - by intros p e' [= <- _].
  - split; [by intros [v ?]|]. by intros [?%(only_request_some _ _ Hreq)|?%Hno].
  - intros reqURL. by apply only_request_head.
Qed.

Lemma price_outcome_entry req ev tr token q :
  only_request req ev -> (forall price, answered (ev :: tr) token price <-> q = price) ->
  price_outcome req (ev :: tr) token
    (match q with Some p => Done (p, None) | None => Crashed errCast end).
Proof.
  intros Hreq Ha. unfold price_outcome. setoid_rewrite Ha.
  destruct q as [p|]; (split_and!; [| | |intros reqURL; by apply only_request_head]); try done.
  - intros p'. split; congruence.
  - split; [by intros [v ?]|by intros [?%(only_request_some _ _ Hreq)|?]].
  - split; [by right|by eexists].
Qed.

Lemma unread_not_answered tr token price :
  (forall body, omap body_of tr <> [(body, None)]) -> ~ answered tr token price.
Proof. intros H (f & n & (b & Hb & _) & _). by apply H in Hb. Qed.

Lemma wp_price_request cp a Q :
  let req := requests (BaseURL (config cp)) (token_key a) in
  (forall v, (forall reqURL, ~ req reqURL) -> Q [] (Crashed v)) ->
  (forall url, (forall reqURL, req reqURL <-> reqURL = url) -> Q [] (Done url)) ->
  wp (price_request cp a) Q.
Proof.
  intros req Hc Hd. unfold price_request, urlJoin.
  destruct (url_Parse _) as [u [e|]] eqn:Hu.
  { apply Hc. intros reqURL (u1 & u2 & H1 & _). by rewrite Hu in H1. }
  cbn. destruct (ParseRequestURI _) as [u' [e|]] eqn:Hu'.
  { apply Hc. intros reqURL (u1 & u2 & H1 & H2 & _). rewrite Hu in H1. injection H1 as <-. by rewrite Hu' in H2. }
  assert (forall reqURL, req reqURL -> reqURL = url_String (url_set_Query u'
    [("contract_addresses", token_key a); ("vs_currencies", "usd")]%string) /\ NewRequest reqURL = None) as Hreq.
  { intros reqURL (u1 & u2 & H1 & H2 & H3 & H4). rewrite Hu in H1. injection H1 as <-. rewrite Hu' in H2.
    by injection H2 as <-. }
  destruct (NewRequest _) as [e|] eqn:Hn.
  - apply Hc. intros reqURL [-> Hr]%Hreq. by rewrite Hn in Hr.
  - apply Hd. intros reqURL. split; [by intros [-> _]%Hreq|]. intros ->. by exists u, u'.
Qed.

Lemma wp_QueryUSDPrice cp a :
  wp (QueryUSDPrice cp a) (fun tr o =>
    price_outcome (requests (BaseURL (config cp)) (token_key a)) tr (token_key a) o).
Proof.
  set (req := requests _ _).
  unfold QueryUSDPrice. apply wp_bind. eapply wp_mono; [|intros tr o Hpre; exact Hpre].
  apply (wp_price_request cp a (fun tr o => _)); [intros v Hno; by apply price_outcome_dead|].
  intros reqURL Honly. cbn. intros r.
  assert (only_request req (@Ev HttpI (HttpDo reqURL) r)) as Hreq by (by exists reqURL, r).
  destruct r as [e|].
  { apply price_outcome_error; [done|]. intros price. by apply unread_not_answered. }
  intros [body [e|]].
  { intros []. apply price_outcome_error; [done|]. intros price. by apply unread_not_answered. }
  intros []. destruct (json_Unmarshal body) as [f [e|]] eqn:Hj.
  { apply price_outcome_error; [done|]. intros price (f' & n & Hd & _).
    apply decoded_read in Hd; [|done]. by rewrite Hj in Hd. }
  pose proof (fun p => answered_read reqURL body None [@Ev HttpI BodyClose tt] f (token_key a) p
    eq_refl Hj) as Ha.
  destruct f as [| | | | |m]; try (apply price_outcome_error; [done|]; intros p (n & Hn & _)%Ha; done).
  destruct (json_get m (token_key a)) as [| | | | |n] eqn:Hm;
    try (apply price_outcome_error; [done|]; intros p (n & Hn & _)%Ha; simpl in Hn; by rewrite Hm in Hn).
  assert (Hn : forall price,
    (exists n', token_entry (JObject m) (token_key a) = Some n' /\ entry_price n' = price) <->
    entry_price n = price).
  { intros price. simpl. rewrite Hm. split; [by intros (? & [= <-] & ?)|eauto]. }
  setoid_rewrite Hn in Ha. apply (price_outcome_entry _ _ _ _ _ Hreq) in Ha. revert Ha. unfold entry_price. cbn.
  by destruct (json_get n "usd").
Qed.

(** C40: a price is returned exactly when the answer, read within the size limit,
    decodes to an object whose entry for the token (in lower case) is an object with
    a number under usd, and it is that number; every error comes with price zero.  The query
    dies exactly when the base URL is refused (it, the path or the request made of it does not
    parse) or when the entry of the token is an object without such a number; and the first call
    is the request of the URL made of the base URL, unless that is refused. *)
Theorem QueryUSDPrice_spec cp a :
  let req := requests (BaseURL (config cp)) (token_key a) in
  wp (QueryUSDPrice cp a) (fun tr o =>
    (forall p, o = Done (p, None) <-> answered tr (token_key a) (Some p)) /\
    (forall p e, o = Done (p, Some e) -> p = zeroPrice) /\
    ((exists v, o = Crashed v) <-> (forall reqURL, ~ req reqURL) \/ answered tr (token_key a) None) /\
    (forall reqURL, req reqURL <-> exists r tr', tr = @Ev HttpI (HttpDo reqURL) r :: tr')).
Proof. apply wp_QueryUSDPrice. Qed.

(** The fees pass the threshold exactly when a price was answered and the fees,
    at 18 decimals, are worth strictly more than the minimum (the batch creator's own
    check also accepts an equal value). *)
Lemma CheckFeeThreshold_iff {SH : Shopspring} cp a totalFee minFee :
  wp (CheckFeeThreshold cp a totalFee minFee) (fun tr o =>
    o = Done true <->
    exists p d q, answered tr (token_key a) (Some p) /\
      NewFromFloat p = Some d /\ NewFromFloat minFee = Some q /\
      (dec_Q q < inject_Z totalFee * 10 ^ (-18) * dec_Q d)%Q).
Proof.
  unfold CheckFeeThreshold. apply wp_bind. eapply wp_mono; [apply wp_QueryUSDPrice|].
  intros tr o (Hp & _ & _). unfold newFromFloat.
  assert (Hdone : forall p, o = Done (p, None) -> forall p' : gofloat, answered tr (token_key a) (Some p') -> p' = p).
  { intros p Ho p' Ha%Hp. rewrite Ho in Ha. by injection Ha. }
  destruct o as [[p [e|]]|v].
  - cbn. rewrite app_nil_r. split; [done|]. by intros (p' & d & q & [=]%Hp & _).
  - assert (Ha : answered tr (token_key a) (Some p)) by (by apply Hp).
    specialize (Hdone p eq_refl).
    destruct (NewFromFloat p) as [d|] eqn:Hd; cbn.
    + destruct (NewFromFloat minFee) as [q|] eqn:Hq; cbn.
      * assert (Hw : (exists p' d' q', answered tr (token_key a) (Some p') /\
            NewFromFloat p' = Some d' /\ Some q = Some q' /\
            (dec_Q q' < inject_Z totalFee * 10 ^ (-18) * dec_Q d')%Q) <->
            dec_GreaterThan (dec_Mul (NewFromBigInt totalFee (-18)) d) q = true).
        { rewrite dec_GreaterThan_Q, Qltb_true, dec_Mul_Q, NewFromBigInt_Q. split; [|by eauto 8].
          intros (p' & d' & q' & <-%Hdone & Hd' & [= <-] & Hlt). by simplify_eq. }
        rewrite <- (app_nil_r tr) in Hw. 
        destruct (dec_GreaterThan _ _); cbn; rewrite Hw; split; congruence.
      * rewrite app_nil_r. split; [done|]. intros (p' & d' & q' & _ & _ & [=] & _).
    + rewrite app_nil_r. split; [done|]. intros (p' & d' & q' & <-%Hdone & Hd' & _). by rewrite Hd in Hd'.
  - split; [done|]. by intros (p' & d & q & [=]%Hp & _).
Qed.
End price_feed.
