(* ===== verification/Keystore.v ===== *)
(** * Keystore: Ethereum keys on disk (orchestrator/ethereum/keystore/)

    [keycache.go] (Module [KeyCache]: paths and decrypted keys by account) and
    [keystore.go] (the index of wallet files).  The file system is the interface
    [FsI]; key decryption, addresses and signatures are go-ethereum's.  The mutex
    that [PrivateKey] holds per account is implicit in the sequential state. *)
From Stdlib Require Import Init.Byte.
From S2P Require Import Prelude GoStrings Effects GoFloat Types External Model GoSort.

(** ** go-ethereum's accounts, keystore, bind and crypto packages *)
Definition SignerFn (Tx : Type) : Type := Address -> Tx -> Tx + err.
Definition PersonalSignFn : Type := Address -> bytes -> bytes + err.

Record TransactOpts (Tx : Type) : Type := MkTransactOpts {
  From_ : Address;
  Signer : SignerFn Tx
}.
Arguments MkTransactOpts {Tx} _ _.
Arguments From_ {Tx} _.
Arguments Signer {Tx} _.

(** [WalletSpec] *)
Record WalletSpec : Type := MkWalletSpec {
  ws_Address : string;
  ws_ID : string;
  ws_Version : Z;
  ws_Path : string
}.

Class GethKeys : Type := {
  ecdsa_PrivateKey : Type;
  EthTx : Type;
  PubkeyToAddress : ecdsa_PrivateKey -> Address;
  HexToECDSA : string -> ecdsa_PrivateKey + err;
  DecryptKey : bytes -> string -> ecdsa_PrivateKey + err;
  TextHash : bytes -> bytes;
  crypto_Sign : bytes -> ecdsa_PrivateKey -> bytes + err;
  IsHexAddress : string -> bool;
  NewKeyedTransactorWithChainID : ecdsa_PrivateKey -> Z -> TransactOpts EthTx + err;
  NewKeyedTransactor_ok key chainID opts :
    NewKeyedTransactorWithChainID key chainID = inl opts ->
    From_ opts = PubkeyToAddress key /\
    forall from tx, from <> PubkeyToAddress key -> exists e, Signer opts from tx = inr e;
  (* the standard library: SHA-1, and JSON into a pointer to a WalletSpec *)
  sha1 : bytes -> bytes;
  wallet_Unmarshal : bytes -> option WalletSpec * error;
  wallet_Unmarshal_null : wallet_Unmarshal (list_byte_of_string "null") = (None, None)
}.

#[global] Program Instance byte_countable : Countable Byte.byte :=
  inj_countable Byte.to_N Byte.of_N _.
Next Obligation. apply Byte.of_to_N. Qed.

(** ** Interface: the file system

    Of a [FileInfo] the program only uses [IsDir]. *)
Inductive fs_cmd : Type :=
  | Lstat (path : string)
  | OsStat (path : string)
  | ReadDirNames (path : string)
  | ReadFile (path : string).

Definition fs_reply (c : fs_cmd) : Type :=
  match c with
  | Lstat _ | OsStat _ => bool * error
  | ReadDirNames _ => list string * error
  | ReadFile _ => bytes * error
  end.

Definition FsI : Iface := MkIface fs_cmd fs_reply.
Definition fscall (c : fs_cmd) : prog FsI (fs_reply c) := @call FsI c.

(** ** [filepath.Walk] of the standard library

    [fn] gets the captured variables, the path, whether it is a directory, and the
    error of reading it.  [fuel] bounds the depth of the tree. *)
Definition SkipDir : err := ErrNew "skip this directory".
Definition WalkFunc (St : Type) : Type := St -> string -> bool -> error -> prog FsI (St * error).
Definition walk_too_deep : panicv := PanicValue "filepath.Walk: depth".

Fixpoint walk {St} (fuel : nat) (path : string) (isDir : bool) (fn : WalkFunc St) (s : St)
  : prog FsI (St * error) :=
  if negb isDir then fn s path isDir None
  else
    '(names, err) ← fscall (ReadDirNames path);
    '(s, err1) ← fn s path isDir err;
    match err, err1 with
    | None, None =>
        match fuel with
        | O => Panic walk_too_deep
        | S fuel =>
            res ← prog_for names s (fun name s =>
              let filename := path_Join [path; name] in
              '(isDir, err) ← fscall (Lstat filename);
              match err with
              | Some _ =>
                  '(s, err) ← fn s filename isDir err;
                  mret (match err with
                        | Some e => if decide (e = SkipDir) then inl s else inr (s, Some e)
                        | None => inl s
                        end)
              | None =>
                  '(s, err) ← walk fuel filename isDir fn s;
                  mret (match err with
                        | Some e => if isDir && bool_decide (e = SkipDir) then inl s else inr (s, Some e)
                        | None => inl s
                        end)
              end);
            mret (match res with inl s => (s, None) | inr r => r end)
        end
    | _, _ => mret (s, err1)
    end.

Definition not_SkipDir (err : error) : error :=
  match err with Some e => if decide (e = SkipDir) then None else Some e | None => None end.

Definition Walk {St} (fuel : nat) (root : string) (fn : WalkFunc St) (s : St) : prog FsI (St * error) :=
  '(isDir, err) ← fscall (Lstat root);
  '(s, err) ← match err with
              | Some _ => fn s root isDir err
              | None => walk fuel root isDir fn s
              end;
  mret (s, not_SkipDir err).

(** ** keycache.go *)
Module KeyCache.
Section keycache.
Context {GE : Geth} {GK : GethKeys}.

Record keyCache : Type := MkKeyCache {
  paths : gmap Address string;
  keys : gmap bytes ecdsa_PrivateKey
}.

Definition NewKeyCache : keyCache := MkKeyCache ∅ ∅.

Definition hashSep : bytes := list_byte_of_string "-".

Definition hashAccountPass (account : Address) (password : string) : bytes :=
  sha1 (Z_be 20 account ++ hashSep ++ list_byte_of_string password).

Definition SetPath (k : keyCache) (account : Address) (path : string) : bool * keyCache :=
  match paths k !! account with
  | Some _ => (true, MkKeyCache (<[account := path]> (paths k)) (keys k))
  | None => (false, MkKeyCache (<[account := path]> (paths k)) (keys k))
  end.

Definition UnsetPath (k : keyCache) (account : Address) : keyCache :=
  MkKeyCache (delete account (paths k)) (keys k).

Definition UnsetKey (k : keyCache) (account : Address) (password : string) : keyCache :=
  MkKeyCache (paths k) (delete (hashAccountPass account password) (keys k)).

Definition SetPrivateKey (k : keyCache) (account : Address) (pk : ecdsa_PrivateKey) : keyCache :=
  MkKeyCache (paths k) (<[hashAccountPass account "" := pk]> (keys k)).

(** The file that a stored path names. *)
Definition key_file (path : string) : string :=
  if strings_HasPrefix path "keystore://" then strings_TrimPrefix path "keystore://" else path.

Definition PrivateKey (k : keyCache) (account : Address) (password : string)
  : prog FsI ((ecdsa_PrivateKey + err) * keyCache) :=
  let h := hashAccountPass account password in
  match keys k !! h with
  | Some v => mret (inl v, k)
  | None =>
      match paths k !! account with
      | None => mret (inr (ErrNew ("no keystore path set for account " ++ Address_Hex account)), k)
      | Some path =>
          '(keyJSON, err) ← fscall (ReadFile (key_file path));
          match err with
          | Some e => mret (inr (ErrWrap e "failed to load a file from keystore"), k)
          | None =>
              match DecryptKey keyJSON password with
              | inr e => mret (inr (ErrWrap e "key decryption failed"), k)
              | inl pk => mret (inl pk, MkKeyCache (paths k) (<[h := pk]> (keys k)))
              end
          end
      end
  end.

Definition SignerFn_ (k : keyCache) (chainID : Z) (account : Address) (password : string)
  : prog FsI ((SignerFn EthTx + err) * keyCache) :=
  '(key, k) ← PrivateKey k account password;
  match key with
  | inr e => mret (inr e, k)
  | inl key =>
      match NewKeyedTransactorWithChainID key chainID with
      | inr e => mret (inr (ErrWrap e "failed to init NewKeyedTransactorWithChainID"), k)
      | inl txOpts => mret (inl (Signer txOpts), k)
      end
  end.

(** The signing function of [PersonalSignFn] and [PrivateKeyPersonalSignFn]. *)
Definition personal_sign (key : ecdsa_PrivateKey) : PersonalSignFn := fun from data =>
  if negb (from =? PubkeyToAddress key) then inr (ErrNew "from address mismatch")
  else crypto_Sign (TextHash data) key.

Definition PersonalSignFn_ (k : keyCache) (account : Address) (password : string)
  : prog FsI ((PersonalSignFn + err) * keyCache) :=
  '(key, k) ← PrivateKey k account password;
  match key with
  | inr e => mret (inr e, k)
  | inl key =>
      if negb (PubkeyToAddress key =? account) then mret (inr (ErrNew "account key address mismatch"), k)
      else mret (inl (personal_sign key), k)
  end.
End keycache.
End KeyCache.
Import KeyCache.

(** ** keystore.go *)
Section keystore.
Context {GE : Geth} {GK : GethKeys}.

Record keyStore : Type := MkKeyStore { cache : keyCache; ks_paths : gset string }.

Definition AddressFromHex (spec : WalletSpec) : Address := HexToAddress (ws_Address spec).

(** The depth of the walk: the callback skips every directory below the root. *)
Definition wallet_depth : nat := 1.

Definition wallet_visit {St} (keystorePath : string) (fn : St -> WalletSpec -> prog FsI (St * error))
  : WalkFunc St := fun s path isDir err =>
  match err with
  | Some _ => mret (s, err)
  | None =>
      if String.eqb path keystorePath then mret (s, None)
      else if isDir then mret (s, Some SkipDir)
      else
        '(data, err) ← fscall (ReadFile path);
        match err with
        | Some _ => mret (s, err)
        | None =>
            let '(spec, err) := wallet_Unmarshal data in
            match err with
            | Some _ => mret (s, err)
            | None =>
                spec ← deref spec;
                if (String.length (ws_Address spec) =? 0)%nat
                then mret (s, Some (ErrNew ("failed to load address from " ++ path)))
                else if negb (IsHexAddress (ws_Address spec))
                then mret (s, Some (ErrNew ("wrong (not hex) address from " ++ path)))
                else fn s (MkWalletSpec (ws_Address spec) (ws_ID spec) (ws_Version spec) path)
            end
        end
  end.

Definition forEachWallet {St} (keystorePath : string) (fn : St -> WalletSpec -> prog FsI (St * error))
    (s : St) : prog FsI (St * error) :=
  Walk wallet_depth keystorePath (wallet_visit keystorePath fn) s.

(** The keys of the map, in sorted order. *)
Definition Paths (ks : keyStore) : list string := sort_Slice String.ltb (elements (ks_paths ks)).

(** A loop over directories whose errors are only logged. *)
Definition each_directory {St} (dirs : list string) (fn : St -> WalletSpec -> prog FsI (St * error))
    (s : St) : prog FsI St :=
  res ← prog_for dirs s (fun keystorePath s =>
    '(s, _) ← forEachWallet keystorePath fn s; mret (@inl St Empty_set s));
  mret (match res with inl s => s | inr e => Empty_set_rect (fun _ => St) e end).

Definition Accounts (ks : keyStore) : prog FsI (list Address) :=
  each_directory (Paths ks) (fun accounts spec => mret (accounts ++ [AddressFromHex spec], None)) [].

Definition reloadPathsCache (ks : keyStore) : prog FsI keyStore :=
  c ← each_directory (Paths ks)
        (fun c spec => mret ((SetPath c (AddressFromHex spec) (ws_Path spec)).2, None)) (cache ks);
  mret (MkKeyStore c (ks_paths ks)).

Definition New (paths : list string) : prog FsI (keyStore * error) :=
  ks ← reloadPathsCache (MkKeyStore NewKeyCache (list_to_set paths));
  mret (ks, None).

Definition AddPath (ks : keyStore) (keystorePath : string) : prog FsI (error * keyStore) :=
  '(isDir, err) ← fscall (OsStat keystorePath);
  match err with
  | Some _ => mret (err, ks)
  | None =>
      if negb isDir then mret (Some (ErrNew (keystorePath ++ " is not a directory")), ks)
      else
        ks ← reloadPathsCache (MkKeyStore (cache ks) ({[keystorePath]} ∪ ks_paths ks));
        mret (None, ks)
  end.

Definition RemovePath (ks : keyStore) (keystorePath : string) : keyStore :=
  MkKeyStore (cache ks) (ks_paths ks ∖ {[keystorePath]}).

(** The methods that forward to the cache, which the store shares. *)
Definition with_cache {A} (ks : keyStore) (p : prog FsI (A * keyCache)) : prog FsI (A * keyStore) :=
  '(a, c) ← p; mret (a, MkKeyStore c (ks_paths ks)).

Definition ks_PrivateKey (ks : keyStore) account password :=
  with_cache ks (PrivateKey (cache ks) account password).
Definition ks_SignerFn (ks : keyStore) chainID account password :=
  with_cache ks (SignerFn_ (cache ks) chainID account password).
Definition ks_PersonalSignFn (ks : keyStore) account password :=
  with_cache ks (PersonalSignFn_ (cache ks) account password).
Definition ks_UnsetKey (ks : keyStore) account password : keyStore :=
  MkKeyStore (UnsetKey (cache ks) account password) (ks_paths ks).

Definition PrivateKeyPersonalSignFn (privKey : ecdsa_PrivateKey) : PersonalSignFn + err :=
  inl (personal_sign privKey).

End keystore.
