(* ===== verification/KeystoreFacts.v ===== *)
(** * KeystoreFacts: which keys a keystore gives out, and for which accounts *)
From Stdlib Require Import Init.Byte.
From stdpp Require Import pretty.
From S2P Require Import Prelude GoStrings Effects GoFloat Types External Model GoSort Keystore.
Import KeyCache.

Section facts.
Context {GE : Geth} {GK : GethKeys}.

(** ** The wallets of a directory *)

(** A file system that does not change during the operation. *)
Definition fs : Type := answers FsI.

Definition f_lstat (F : fs) (path : string) : bool * error := F (Lstat path).
Definition f_names (F : fs) (path : string) : list string * error := F (ReadDirNames path).
Definition f_read (F : fs) (path : string) : bytes * error := F (ReadFile path).

Inductive entry : Type :=
  | Found (spec : WalletSpec)
  | Skipped
  | Failed (e : err)
  | Died.

Definition wallet_file (F : fs) (path : string) : entry :=
  match f_read F path with
  | (_, Some e) => Failed e
  | (data, None) =>
      match wallet_Unmarshal data with
      | (_, Some e) => Failed e
      | (None, None) => Died
      | (Some spec, None) =>
          if (String.length (ws_Address spec) =? 0)%nat
          then Failed (ErrNew ("failed to load address from " ++ path))
          else if negb (IsHexAddress (ws_Address spec))
          then Failed (ErrNew ("wrong (not hex) address from " ++ path))
          else Found (MkWalletSpec (ws_Address spec) (ws_ID spec) (ws_Version spec) path)
      end
  end.

Lemma wallet_file_read F path : wallet_file F path <> Skipped.
Proof.
  unfold wallet_file. destruct (f_read F path) as [data [e|]]; [done|].
  destruct (wallet_Unmarshal data) as [[spec|] [e|]]; try done. case_match; [done|]. by case_match.
Qed.

Definition skip_or_fail (e : err) : entry := if decide (e = SkipDir) then Skipped else Failed e.

Definition dir_entry (F : fs) (root name : string) : entry :=
  let path := path_Join [root; name] in
  match f_lstat F path with
  | (_, Some e) => skip_or_fail e
  | (true, None) => match f_names F path with (_, Some e) => skip_or_fail e | _ => Skipped end
  | (false, None) => wallet_file F path
  end.

(** The wallets up to the first entry that fails, and how the scan ends (None: it dies). *)
Fixpoint scan (F : fs) (root : string) (names : list string) : list WalletSpec * option error :=
  match names with
  | [] => ([], Some None)
  | name :: names =>
      match dir_entry F root name with
      | Found spec => let '(l, o) := scan F root names in (spec :: l, o)
      | Skipped => scan F root names
      | Failed e => ([], Some (Some e))
      | Died => ([], None)
      end
  end.

Definition wallets (F : fs) (root : string) : list WalletSpec * option error :=
  match f_lstat F root with
  | (_, Some e) => ([], Some (Some e))
  | (false, None) => ([], Some None)
  | (true, None) =>
      match f_names F root with
      | (_, Some e) => ([], Some (Some e))
      | (names, None) => scan F root names
      end
  end.

(** No directory lists itself. *)
Definition proper_names (F : fs) : Prop :=
  forall root name, name ∈ (f_names F root).1 -> path_Join [root; name] <> root.

Definition pure_visit {St} (g : St -> WalletSpec -> St) : St -> WalletSpec -> prog FsI (St * error) :=
  fun s spec => mret (g s spec, None).

(** The visit of an entry below the root. *)
Definition visit_outcome {St} (g : St -> WalletSpec -> St) (s : St) (en : entry)
  : outcome (St * error) :=
  match en with
  | Found spec => Done (g s spec, None)
  | Skipped => Done (s, Some SkipDir)
  | Failed e => Done (s, Some e)
  | Died => Crashed nil_dereference
  end.

Lemma eval_visit_file {St} (g : St -> WalletSpec -> St) F root path s :
  path <> root ->
  eval F (wallet_visit root (pure_visit g) s path false None) = visit_outcome g s (wallet_file F path).
Proof.
  intros Hne. unfold wallet_visit. rewrite (proj2 (String.eqb_neq _ _) Hne). cbn.
  unfold wallet_file, f_read. destruct (F (ReadFile path)) as [data [e|]]; [done|].
  destruct (wallet_Unmarshal data) as [[spec|] [e|]]; try done. cbn.
  case_match; [done|]. by case_match.
Qed.

(** What the loop of the walk does with an entry. *)
Definition entry_step {St} (g : St -> WalletSpec -> St) (s : St) (en : entry)
  : outcome (St + (St * error)) :=
  match en with
  | Found spec => Done (inl (g s spec))
  | Skipped => Done (inl s)
  | Failed e => Done (inr (s, Some e))
  | Died => Crashed nil_dereference
  end.

Lemma eval_children {St} (g : St -> WalletSpec -> St) F root names s body :
  (forall name s, name ∈ names -> eval F (body name s) = entry_step g s (dir_entry F root name)) ->
  eval F (prog_for names s body) =
  match scan F root names with
  | (l, Some None) => Done (inl (foldl g s l))
  | (l, Some (Some e)) => Done (inr (foldl g s l, Some e))
  | (l, None) => Crashed nil_dereference
  end.
Proof.
  revert s. induction names as [|name names IH]; intros s Hbody; [done|].
  cbn [prog_for scan]. rewrite eval_bind, Hbody by left.
  destruct (dir_entry F root name) as [spec| |e|]; cbn; [|by apply IH; intros; apply Hbody; right|done..].
  rewrite IH by (intros; apply Hbody; by right).
  by destruct (scan F root names) as [l [[e|]|]].
Qed.

Definition walk_result {St} (g : St -> WalletSpec -> St) (s : St) (ws : list WalletSpec * option error)
  : outcome (St * error) :=
  match ws with
  | (l, Some e) => Done (foldl g s l, e)
  | (_, None) => Crashed nil_dereference
  end.

Lemma eval_forEachWallet {St} (g : St -> WalletSpec -> St) F root s :
  proper_names F ->
  eval F (forEachWallet root (pure_visit g) s) =
  match walk_result g s (wallets F root) with
  | Done (s, e) => Done (s, not_SkipDir e)
  | Crashed v => Crashed v
  end.
Proof.
  intros Hp. unfold forEachWallet, Walk. rewrite eval_bind. cbn [eval fscall call].
  unfold wallets, f_lstat. destruct (F (Lstat root)) as [isDir [e|]]; [by destruct isDir|].
  rewrite eval_bind. destruct isDir; cbn [walk negb wallet_depth].
  2: { unfold wallet_visit. by rewrite String.eqb_refl. }
  rewrite eval_bind. cbn [eval fscall call]. unfold f_names.
  destruct (F (ReadDirNames root)) as [names [e|]] eqn:Hn; [done|].
  rewrite eval_bind. unfold wallet_visit at 1. rewrite String.eqb_refl. cbn [eval mret prog_ret].
  rewrite eval_bind, (eval_children g F root).
  - by destruct (scan F root names) as [l [[e|]|]].
  - intros name s' Hin. unfold dir_entry, f_lstat, f_names, skip_or_fail.
    assert (Hne : path_Join [root; name] <> root).
    { apply (Hp root). unfold f_names. by rewrite Hn. }
    set (path := path_Join [root; name]) in *.
    rewrite eval_bind. cbn [eval fscall call]. destruct (F (Lstat path)) as [[] [e|]].
    + cbn. by case_decide.
    + rewrite eval_bind. cbn [negb]. rewrite eval_bind. cbn [eval fscall call].
      destruct (F (ReadDirNames path)) as [sub [e|]]; cbn.
      * by case_bool_decide; case_decide.
      * rewrite (proj2 (String.eqb_neq _ _) Hne). done.
    + cbn. by case_decide.
    + rewrite eval_bind. cbn [negb]. rewrite eval_visit_file by done.
      pose proof (wallet_file_read F path). by destruct (wallet_file F path).
Qed.

(** ** Several directories *)
Fixpoint all_wallets (F : fs) (dirs : list string) : option (list WalletSpec) :=
  match dirs with
  | [] => Some []
  | d :: ds =>
      match wallets F d with
      | (l, Some _) => (l ++.) <$> all_wallets F ds
      | (_, None) => None
      end
  end.

Lemma eval_each_directory {St} (g : St -> WalletSpec -> St) F dirs s :
  proper_names F ->
  eval F (each_directory dirs (pure_visit g) s) =
  match all_wallets F dirs with
  | Some l => Done (foldl g s l)
  | None => Crashed nil_dereference
  end.
Proof.
  intros Hp. unfold each_directory. rewrite eval_bind.
  revert s. induction dirs as [|d ds IH]; intros s; [done|].
  cbn [prog_for all_wallets]. rewrite eval_bind, eval_bind, eval_forEachWallet by done.
  destruct (wallets F d) as [l [e|]]; [|done]. cbn. specialize (IH (foldl g s l)).
  destruct (all_wallets F ds) as [l'|]; cbn in *; [by rewrite foldl_app|].
  exact IH.
Qed.

(** The account of a found wallet, and the file that it was found in. *)
Definition is_wallet_of (F : fs) (a : Address) (path : string) : Prop :=
  exists data spec, f_read F path = (data, None) /\
    wallet_Unmarshal data = (Some spec, None) /\ AddressFromHex spec = a.

Lemma wallet_file_Found F path spec :
  wallet_file F path = Found spec ->
  ws_Path spec = path /\ is_wallet_of F (AddressFromHex spec) path.
Proof.
  unfold wallet_file. destruct (f_read F path) as [data [e|]] eqn:Hr; [done|].
  destruct (wallet_Unmarshal data) as [[sp|] [e|]] eqn:Hj; try done.
  case_match; [done|]. case_match; [done|]. intros [= <-]. split; [done|]. by exists data, sp.
Qed.

Lemma dir_entry_Found F root name spec :
  dir_entry F root name = Found spec -> is_wallet_of F (AddressFromHex spec) (ws_Path spec).
Proof.
  unfold dir_entry, skip_or_fail. destruct (f_lstat F _) as [[] [e|]]; try by case_decide.
  - destruct (f_names F _) as [l [e|]]; [by case_decide|done].
  - by intros [-> ?]%wallet_file_Found.
Qed.

Lemma all_wallets_are F dirs l :
  all_wallets F dirs = Some l ->
  Forall (fun spec => is_wallet_of F (AddressFromHex spec) (ws_Path spec)) l.
Proof.
  assert (Hscan : forall root names,
    Forall (fun spec => is_wallet_of F (AddressFromHex spec) (ws_Path spec)) (scan F root names).1).
  { intros root names. induction names as [|n names IH]; cbn [scan]; [constructor|].
    destruct (dir_entry F root n) as [spec| |e|] eqn:Hd; [|done|constructor..].
    destruct (scan F root names) as [l' o]. constructor; [|done]. by eapply dir_entry_Found. }
  assert (Hw : forall d,
    Forall (fun spec => is_wallet_of F (AddressFromHex spec) (ws_Path spec)) (wallets F d).1).
  { intros d. unfold wallets. destruct (f_lstat F d) as [[] [e|]]; [constructor| |constructor..].
    destruct (f_names F d) as [names [e|]]; [constructor|apply Hscan]. }
  revert l. induction dirs as [|d ds IH]; cbn [all_wallets]; intros l; [intros [= <-]; constructor|].
  specialize (Hw d). destruct (wallets F d) as [l0 [e|]]; [|done].
  intros (l' & Hl' & ->)%fmap_Some. apply Forall_app. auto.
Qed.

(** ** The index of a store *)
Lemma foldl_accounts (l : list WalletSpec) acc :
  foldl (fun accounts spec => accounts ++ [AddressFromHex spec]) acc l = acc ++ map AddressFromHex l.
Proof.
  revert acc. induction l as [|x l IH]; intros acc; cbn; [by rewrite app_nil_r|].
  by rewrite IH, <- app_assoc.
Qed.

Definition SetPath_of (c : keyCache) (spec : WalletSpec) : keyCache :=
  (SetPath c (AddressFromHex spec) (ws_Path spec)).2.

Lemma foldl_SetPath (l : list WalletSpec) c m :
  paths c = ws_Path <$> m ->
  paths (foldl SetPath_of c l) =
  ws_Path <$> foldl (fun m spec => <[AddressFromHex spec := spec]> m) m l.
Proof.
  revert c m. induction l as [|x l IH]; intros c m Hc; [done|]. cbn. apply IH.
  unfold SetPath_of, SetPath. rewrite fmap_insert, <- Hc. by case_match.
Qed.

Lemma eval_Accounts F ks :
  proper_names F ->
  eval F (Accounts ks) =
  match all_wallets F (Paths ks) with
  | Some l => Done (map AddressFromHex l)
  | None => Crashed nil_dereference
  end.
Proof.
  intros Hp. unfold Accounts.
  etransitivity;
    [by apply (eval_each_directory (fun accounts spec => accounts ++ [AddressFromHex spec]))|].
  destruct (all_wallets F (Paths ks)); [|done]. by rewrite foldl_accounts.
Qed.

Lemma eval_reload F ks :
  proper_names F ->
  eval F (reloadPathsCache ks) =
  match all_wallets F (Paths ks) with
  | Some l => Done (MkKeyStore (foldl SetPath_of (cache ks) l) (ks_paths ks))
  | None => Crashed nil_dereference
  end.
Proof.
  intros Hp. unfold reloadPathsCache. rewrite eval_bind.
  assert (He := eval_each_directory SetPath_of F (Paths ks) (cache ks) Hp
    : eval F (each_directory (Paths ks) (fun c spec =>
        mret ((SetPath c (AddressFromHex spec) (ws_Path spec)).2, None)) (cache ks)) = _).
  rewrite He.
  by destruct (all_wallets F (Paths ks)).
Qed.

(** C38: over a file system that does not change, a new store has a path for exactly the
    accounts that it lists, and the file there holds a wallet of the account. *)
Theorem New_indexes F dirs ks :
  proper_names F ->
  eval F (New dirs) = Done (ks, None) ->
  exists accounts, eval F (Accounts ks) = Done accounts /\
    forall a, (a ∈ accounts <-> is_Some (paths (cache ks) !! a)) /\
      forall path, paths (cache ks) !! a = Some path -> is_wallet_of F a path.
Proof.
  intros Hp. unfold New. rewrite eval_bind, eval_reload by done.
  destruct (all_wallets F _) as [l|] eqn:Hl; [|done]. cbn. intros [= <-].
  exists (map AddressFromHex l). split.
  { rewrite eval_Accounts by done. unfold Paths in *. cbn in *. by rewrite Hl. }
  intros a. cbn [cache]. rewrite (foldl_SetPath l NewKeyCache ∅) by done.
  rewrite lookup_fmap, lookup_fill, lookup_empty.
  assert (Hs : forall spec, last (base.filter (fun v => AddressFromHex v = a) l) = Some spec ->
    AddressFromHex spec = a /\ spec ∈ l) by exact (last_filter_Some (fun v => AddressFromHex v = a) l).
  split.
  - rewrite list_elem_of_fmap. split.
    + intros (spec & -> & Hin). destruct (last _) as [sp|] eqn:Hlast; [by eexists|].
      apply last_None in Hlast. exfalso.
      assert (Hf : spec ∈ base.filter (fun v => AddressFromHex v = AddressFromHex spec) l)
        by (by apply list_elem_of_filter).
      rewrite Hlast in Hf. by apply elem_of_nil in Hf.
    + intros [path Hpath]. destruct (last _) as [spec|]; [|done].
      destruct (Hs spec eq_refl) as [<- Hin]. by exists spec.
  - intros path Hpath.
    destruct (last _) as [spec|] eqn:Hlast; [|done]. destruct (Hs spec eq_refl) as [<- Hin].
    injection Hpath as <-. apply all_wallets_are in Hl. rewrite Forall_forall in Hl. by apply Hl.
Qed.

(** An entry that the scan passes. *)
Definition passed (F : fs) (root name : string) : Prop :=
  match dir_entry F root name with Found _ | Skipped => True | _ => False end.

Lemma scan_dies F root pre name post :
  Forall (passed F root) pre -> dir_entry F root name = Died ->
  (scan F root (pre ++ name :: post)).2 = None.
Proof.
  intros Hpre Hd. induction Hpre as [|x pre Hx _ IH]; cbn; [by rewrite Hd|].
  unfold passed in Hx. destruct (dir_entry F root x); try done.
  by destruct (scan F root (pre ++ name :: post)).
Qed.

(** A file that holds the JSON value null in a keystore directory, after entries
    that are wallets or directories, makes the creation of the store panic (the pointer
    that [json.Unmarshal] leaves nil is dereferenced). *)
Lemma New_dies_on_null F root pre name post :
  proper_names F ->
  f_lstat F root = (true, None) -> f_names F root = (pre ++ name :: post, None) ->
  Forall (passed F root) pre ->
  f_lstat F (path_Join [root; name]) = (false, None) ->
  f_read F (path_Join [root; name]) = (list_byte_of_string "null", None) ->
  eval F (New [root]) = Crashed nil_dereference.
Proof.
  intros Hp Hroot Hnames Hpre Hfile Hread. unfold New. rewrite eval_bind, eval_reload by done.
  assert (Hd : dir_entry F root name = Died).
  { unfold dir_entry, wallet_file. by rewrite Hfile, Hread, wallet_Unmarshal_null. }
  assert (Hw : (wallets F root).2 = None).
  { unfold wallets. rewrite Hroot, Hnames. by apply scan_dies. }
  assert (Paths (MkKeyStore NewKeyCache (list_to_set [root])) = [root]) as ->.
  { unfold Paths. cbn [ks_paths list_to_set].
    by rewrite right_id_L, elements_singleton by apply _. }
  cbn [all_wallets]. destruct (wallets F root) as [l [e|]]; [done|]. done.
Qed.

(** ** The key cache *)

(** A key is read from disk only when it is not cached: then the file of the account's
    path is read once, the key is what it decrypts to under the given password, and it is
    cached; without a path, with an unreadable file or a wrong password nothing changes. *)
Lemma PrivateKey_spec k account password :
  wp (PrivateKey k account password) (fun tr o =>
    match keys k !! hashAccountPass account password, paths k !! account with
    | Some key, _ => tr = [] /\ o = Done (inl key, k)
    | None, None => tr = [] /\ exists e, o = Done (inr e, k)
    | None, Some path => exists data rerr,
        tr = [@Ev FsI (ReadFile (key_file path)) (data, rerr)] /\
        match rerr, DecryptKey data password with
        | None, inl key => exists k', o = Done (inl key, k') /\ paths k' = paths k /\
            keys k' = <[hashAccountPass account password := key]> (keys k)
        | _, _ => exists e, o = Done (inr e, k)
        end
    end).
Proof.
  unfold PrivateKey. destruct (keys k !! _) as [key|]; [done|].
  destruct (paths k !! account) as [path|]; [|cbn; eauto].
  intros [data [e|]]; cbn; [by exists data, (Some e); eauto|].
  destruct (DecryptKey data password) as [key|e] eqn:Hd; cbn; exists data, None; rewrite Hd; eauto.
Qed.

(** What is hashed for an account and a password. *)
Definition account_pass (a : Address) (p : string) : bytes :=
  Z_be 20 a ++ list_byte_of_string "-" ++ list_byte_of_string p.

Lemma account_pass_inj a a' p p' :
  is_addr a -> is_addr a' -> account_pass a p = account_pass a' p' -> a = a' /\ p = p'.
Proof.
  intros Ha Ha' Heq. apply app_inj_1 in Heq as [Hb Hp]; [|by rewrite !length_Z_be].
  apply app_inv_head in Hp. apply (f_equal string_of_list_byte) in Hp.
  rewrite !string_of_list_byte_of_string in Hp. apply (f_equal be_Z) in Hb.
  rewrite !be_Z_Z_be in Hb. unfold is_addr in *. change (256 ^ Z.of_nat 20) with (2 ^ 160) in Hb.
  by rewrite !Z.mod_small in Hb by lia.
Qed.

(** Two different inputs with one hash. *)
Definition collision (x y : bytes) : Prop := x <> y /\ sha1 x = sha1 y.

(** Where a key for an account and a password comes from: the caller of [SetPrivateKey], which
    stands for the empty password, or a file that the password decrypts. *)
Definition key_origin (given : Address -> ecdsa_PrivateKey -> Prop) (a : Address) (p : string)
    (key : ecdsa_PrivateKey) : Prop :=
  (p = ""%string /\ given a key) \/ exists data, DecryptKey data p = inl key.

(** The operations of a cache, in any order. *)
Inductive cache_step (given : Address -> ecdsa_PrivateKey -> Prop) : keyCache -> keyCache -> Prop :=
  | step_SetPath k a path : cache_step given k (SetPath k a path).2
  | step_UnsetPath k a : cache_step given k (UnsetPath k a)
  | step_UnsetKey k a p : cache_step given k (UnsetKey k a p)
  | step_SetPrivateKey k a key : is_addr a -> given a key -> cache_step given k (SetPrivateKey k a key)
  | step_PrivateKey k a p tr r k' :
      is_addr a -> runs (PrivateKey k a p) tr (Done (r, k')) -> cache_step given k k'.

Definition cached_for (given : Address -> ecdsa_PrivateKey -> Prop) (h : bytes) (key : ecdsa_PrivateKey) : Prop :=
  exists a p, is_addr a /\ h = sha1 (account_pass a p) /\ key_origin given a p key.

Definition keys_known (given : Address -> ecdsa_PrivateKey -> Prop) (k : keyCache) : Prop :=
  map_Forall (cached_for given) (keys k).

Lemma PrivateKey_known given k a p :
  is_addr a -> keys_known given k ->
  wp (PrivateKey k a p) (fun _ o => exists r k', o = Done (r, k') /\ keys_known given k' /\
    forall key, r = inl key -> cached_for given (sha1 (account_pass a p)) key).
Proof.
  intros Ha Hk. unfold PrivateKey. change (hashAccountPass a p) with (sha1 (account_pass a p)).
  destruct (keys k !! _) as [key|] eqn:Hkey.
  { eexists _, _. split; [done|]. split; [done|]. intros key' [= <-]. by apply Hk in Hkey. }
  destruct (paths k !! a) as [path|]; [|cbn; by eexists _, _].
  intros [data [e|]]; cbn; [by eexists _, _|].
  destruct (DecryptKey data p) as [key|e] eqn:Hd; cbn; [|by eexists _, _].
  assert (cached_for given (sha1 (account_pass a p)) key) as Ho
    by (exists a, p; split; [done|]; split; [done|]; right; by exists data).
  eexists _, _. split; [done|]. split; [by apply map_Forall_insert_2|]. by intros key' [= <-].
Qed.

Lemma cache_step_known given k k' : cache_step given k k' -> keys_known given k -> keys_known given k'.
Proof.
  intros Hs Hk. destruct Hs as [k a path|k a|k a p|k a key Ha Hg|k a p tr r k' Ha Hr].
  - unfold SetPath. by case_match.
  - done.
  - by apply map_Forall_delete.
  - apply map_Forall_insert_2; [|done]. exists a, ""%string. split; [done|]. split; [done|]. by left.
  - eapply (proj1 (wp_runs _ _) (PrivateKey_known given k a p Ha Hk)) in Hr.
    by destruct Hr as (r' & k2 & [= <- <-] & ? & _).
Qed.

(** C39: whatever operations the cache has gone through, a key that it gives out for an account
    and a password was handed to it for that account, when the password is empty, or decrypted
    with that very password.  No other password opens a cached key, unless SHA-1 has a collision
    between the account with the given password and the account and password that the key was
    cached with. *)
Theorem cached_key_origin given k a p :
  is_addr a -> rtc (cache_step given) NewKeyCache k ->
  wp (PrivateKey k a p) (fun _ o => forall key k', o = Done (inl key, k') ->
    key_origin given a p key \/
    exists a' p', key_origin given a' p' key /\ collision (account_pass a' p') (account_pass a p)).
Proof.
  intros Ha Hr. assert (Hk : keys_known given k).
  { assert (H0 : keys_known given NewKeyCache) by apply map_Forall_empty.
    induction Hr as [|? ? ? Hs _ IH]; [done|]. by apply IH, (cache_step_known _ _ _ Hs). }
  eapply wp_mono; [by apply PrivateKey_known|].
  intros tr o (r & k2 & -> & _ & Ho) key k' [= -> ->]. destruct (Ho key eq_refl) as (a' & p' & Ha' & Hh & Hkey).
  destruct (decide (account_pass a' p' = account_pass a p)) as [He|Hne].
  - left. by apply account_pass_inj in He as [-> ->].
  - right. by exists a', p'.
Qed.

(** ** Signing *)

(** A key that was given out is cached. *)
Lemma wp_PrivateKey_cached k a p :
  wp (PrivateKey k a p) (fun _ o => forall key k', o = Done (inl key, k') ->
    keys k' !! hashAccountPass a p = Some key).
Proof.
  unfold PrivateKey. destruct (keys k !! _) as [key|] eqn:Hkey; [by intros key' k' [= <- <-]|].
  destruct (paths k !! a) as [path|]; [|done]. intros [data [e|]]; cbn; [done|].
  destruct (DecryptKey data p) as [key|e]; cbn; [|done]. intros key' k' [= <- <-]. apply lookup_insert_eq.
Qed.

Lemma wp_SignerFn k chainID a p :
  wp (SignerFn_ k chainID a p) (fun _ o => forall f k', o = Done (inl f, k') ->
    exists key opts, keys k' !! hashAccountPass a p = Some key /\
      NewKeyedTransactorWithChainID key chainID = inl opts /\ f = Signer opts).
Proof.
  unfold SignerFn_. apply wp_bind. eapply wp_mono; [apply wp_PrivateKey_cached|].
  intros tr [[[key|e] k1]|v] Hk; [|done..].
  destruct (NewKeyedTransactorWithChainID key chainID) as [opts|e] eqn:Ho; cbn; [|done].
  intros f k' [= <- <-]. exists key, opts. eauto.
Qed.

Lemma PersonalSignFn_cached k a p key :
  keys k !! hashAccountPass a p = Some key ->
  PersonalSignFn_ k a p =
  Ret (if negb (PubkeyToAddress key =? a) then (inr (ErrNew "account key address mismatch"), k)
       else (inl (personal_sign key), k)).
Proof. intros Hk. unfold PersonalSignFn_, PrivateKey. rewrite Hk. cbn. by case_match. Qed.

(** A message-signing function obtained for an account is one of a key whose address
    is the account: it signs the Ethereum text hash for that account and refuses to sign
    for any other. *)
Lemma PersonalSignFn_owner k account password :
  wp (PersonalSignFn_ k account password) (fun _ o => forall f k', o = Done (inl f, k') ->
    exists key, PubkeyToAddress key = account /\
      forall from data, f from data =
        if from =? account then crypto_Sign (TextHash data) key
        else inr (ErrNew "from address mismatch")).
Proof.
  unfold PersonalSignFn_. apply wp_bind, wp_runs. intros tr [[[key|e] k1]|v] _; [|done..].
  destruct (Z.eqb_spec (PubkeyToAddress key) account) as [<-|]; cbn; [|done].
  intros f k' [= <- <-]. exists key. split; [done|]. intros from data. unfold personal_sign.
  by destruct (from =? PubkeyToAddress key).
Qed.

End facts.

(** ** An example *)
Module Example.
#[local] Open Scope string_scope.

(** Keys are integers, a key file holds an address or null, any password opens it. *)
#[refine] Definition model_keys : GethKeys := {|
  ecdsa_PrivateKey := Z;
  EthTx := Z;
  PubkeyToAddress key := (key mod 2 ^ 160)%Z;
  HexToECDSA s := if (String.length s =? 0)%nat then inr (ErrNew "invalid length") else inl (be_Z (list_byte_of_string s));
  DecryptKey data _ := inl (be_Z data);
  TextHash data := abi_word (Keccak256Hash (Byte.x19 :: list_byte_of_string "Ethereum Signed Message:" ++
    Byte.x0a :: list_byte_of_string (pretty (length data)) ++ data)%list);
  crypto_Sign hash key := inl (Z_be 32 key ++ Z_be 32 0 ++ [Byte.x00])%list;
  IsHexAddress s := strings_HasPrefix s "0x";
  NewKeyedTransactorWithChainID key chainID := inl (MkTransactOpts (key mod 2 ^ 160)%Z (fun from tx =>
    if (from =? key mod 2 ^ 160)%Z then inl (tx + key)%Z else inr (ErrNew "not authorized to sign this account")));
  sha1 b := Z_be 20 (model_keccak b);
  wallet_Unmarshal data :=
    if decide (data = list_byte_of_string "null") then (None, None)
    else (Some (MkWalletSpec (string_of_list_byte data) "" 3 ""), None)
|}.
Proof.
  - intros key chainID opts [= <-]. split; [done|]. intros from tx Hne. cbn.
    rewrite (proj2 (Z.eqb_neq _ _) Hne). by eexists.
  - done.
Defined.
#[local] Existing Instance model_keys.

(** A file system with one keystore directory, of one file. *)
Definition one_file (contents : string) : fs := fun c =>
  match c with
  | Lstat p => (String.eqb p "ks", None)
  | OsStat p => (String.eqb p "ks", None)
  | ReadDirNames p => (if String.eqb p "ks" then ["k.json"] else [], None)
  | ReadFile p => (list_byte_of_string contents, None)
  end.

Lemma one_file_proper s : proper_names (one_file s).
Proof.
  intros root name. unfold f_names. cbn. destruct (String.eqb_spec root "ks") as [->|]; cbn.
  - by intros ->%list_elem_of_singleton.
  - by intros ?%elem_of_nil.
Qed.

Definition indexed : keyStore :=
  MkKeyStore (MkKeyCache {[ 0xab := "ks/k.json" ]} ∅) {[ "ks" ]}.

Lemma New_indexes_witness :
  eval (one_file "0xab") (New ["ks"]) = Done (indexed, None) /\
  exists accounts, eval (one_file "0xab") (Accounts indexed) = Done accounts.
Proof.
  assert (H : eval (one_file "0xab") (New ["ks"]) = Done (indexed, None)) by reflexivity.
  split; [exact H|]. destruct (New_indexes _ _ _ (one_file_proper _) H) as (accounts & Ha & _).
  by exists accounts.
Defined.

Lemma New_dies_on_null_witness :
  eval (one_file "null") (New ["ks"]) = Crashed nil_dereference.
Proof.
  apply (New_dies_on_null _ "ks" [] "k.json" []); [apply one_file_proper|done..].
Defined.

(** The key that was set for an account is given out under the empty password only. *)
Lemma cached_key_origin_witness :
  let k := SetPrivateKey NewKeyCache 5 5 in
  (exists tr, runs (PrivateKey k 5 "") tr (Done (inl 5, k))) /\
  (key_origin (fun a key => key = 5) 5 "" 5 \/
   exists a' p', key_origin (fun a key => key = 5) a' p' 5 /\ collision (account_pass a' p') (account_pass 5 "")).
Proof.
  intros k. assert (Hrun : runs (PrivateKey k 5 "") [] (Done (inl 5, k))).
  { unfold PrivateKey, k, SetPrivateKey. cbn [keys]. rewrite lookup_insert_eq. constructor. }
  split; [by exists []|].
  assert (is_addr 5) as Ha by (unfold is_addr; lia).
  assert (Hk : rtc (cache_step (fun a key => key = 5)) NewKeyCache k)
    by (apply rtc_once, step_SetPrivateKey; done).
  exact (proj1 (wp_runs _ _) (cached_key_origin (fun a key => key = 5) k 5 "" Ha Hk) _ _ Hrun 5 k eq_refl).
Defined.

End Example.
