(* ===== verification/Keys.v ===== *)
(** * Keys: the Ethereum signer of the process (cmd/peggo/keys.go)

    [initEthereumAccountsManager] chooses between a Ledger, a private key and a
    keystore directory.  It uses the file system ([FsI]) through [Keystore.v], and the
    terminal and the Ledger devices through [DevI].  A signing function may use the
    devices, so it is a program. *)
From Stdlib Require Import Init.Byte.
From S2P Require Import Prelude GoStrings Effects GoFloat Types External Model GoSort Keystore.
Import KeyCache.

Section keys.
Context {GE : Geth} {GK : GethKeys}.

(** ** Interface: the terminal and the Ledger hub; a wallet is its handle *)
Inductive dev_cmd : Type :=
  | ReadPassword
  | NewLedgerHub
  | Wallets
  | WalletOpen (w : Z)
  | WalletContains (w : Z) (acc : Address)
  | WalletClose (w : Z)
  | WalletSignTx (w : Z) (acc : Address) (tx : EthTx) (chainID : Z)
  | WalletSignText (w : Z) (acc : Address) (data : bytes).

Definition dev_reply (c : dev_cmd) : Type :=
  match c with
  | ReadPassword => bytes * error
  | NewLedgerHub | WalletOpen _ | WalletClose _ => error
  | Wallets => list Z
  | WalletContains _ _ => bool
  | WalletSignTx _ _ _ _ => EthTx + err
  | WalletSignText _ _ _ => bytes + err
  end.

Definition DevI : Iface := MkIface dev_cmd dev_reply.
Definition dcall (c : dev_cmd) : prog DevI (dev_reply c) := @call DevI c.

Definition KeyI : Iface := SumI FsI DevI.
Definition kfs {A} (p : prog FsI A) : prog KeyI A := liftl p.
Definition kdev (c : dev_cmd) : prog KeyI (dev_reply c) := @call KeyI (inr c).

(** ** Signing with a Ledger *)

(** The loop over the wallets that both signing closures have. *)
Definition with_wallet {A} (from : Address) (sign : Z -> prog DevI (A + err)) : prog DevI (A + err) :=
  wallets ← dcall Wallets;
  res ← prog_for wallets tt (fun w _ =>
    err ← dcall (WalletOpen w);
    match err with
    | Some e => mret (inr (inr (ErrWrap e "failed to connect to wallet on Ledger device")))
    | None =>
        c ← dcall (WalletContains w from);
        if negb (c : bool) then
          err ← dcall (WalletClose w);
          match err with
          | Some e => mret (inr (inr (ErrWrap e "failed to disconnect the wallet on Ledger device")))
          | None => mret (inl tt)
          end
        else
          r ← sign w;
          _ ← dcall (WalletClose w);
          mret (inr r)
    end);
  mret (match res with
        | inr r => r
        | inl _ => inr (ErrNew ("account " ++ Address_Hex from ++ " not found on Ledger"))
        end).

Definition ledger_signerFn (ethChainID : Z) (from : Address) (tx : EthTx) : prog DevI (EthTx + err) :=
  with_wallet from (fun w => dcall (WalletSignTx w from tx ethChainID)).

Definition ledger_personalSignFn (from : Address) (data : bytes) : prog DevI (bytes + err) :=
  with_wallet from (fun w => dcall (WalletSignText w from data)).

(** ** The accounts manager *)
Definition emptyEthAddress : Address := 0.

(** The four results: a nil function is None. *)
Record accounts_manager : Type := MkManager {
  am_address : Address;
  am_signer : option (Address -> EthTx -> prog DevI (EthTx + err));
  am_personal : option (Address -> bytes -> prog DevI (bytes + err));
  am_err : error
}.

(** [return emptyEthAddress, nil, nil, err] *)
Definition no_manager (e : error) : accounts_manager := MkManager emptyEthAddress None None e.

Definition ethPassFromStdin : prog KeyI (string * error) :=
  '(bytePassword, err) ← kdev ReadPassword;
  match err with
  | Some _ => mret (""%string, Wrap err "failed to read password from stdin")
  | None => mret (strings_TrimSpace (string_of_list_byte bytePassword), None)
  end.

(** [case *ethUseLedger] *)
Definition ledger_manager (ethChainID : Z) (ethKeyFrom : option string) : prog KeyI accounts_manager :=
  match ethKeyFrom with
  | None => mret (no_manager (Some (ErrNew "cannot use Ledger without from address specified")))
  | Some from =>
      let err : error := None in
      let ethKeyFromAddress := HexToAddress from in
      if ethKeyFromAddress =? 0
      then mret (no_manager (Wrap err "failed to parse Ethereum from address"))
      else
        err ← kdev NewLedgerHub;
        match err with
        | Some _ => mret (no_manager (Wrap err "failed to connect with Ethereum app on Ledger device"))
        | None => mret (MkManager ethKeyFromAddress (Some (ledger_signerFn ethChainID))
                          (Some ledger_personalSignFn) None)
        end
  end.

(** [case len( *ethPrivKey) > 0] *)
Definition privkey_manager (ethChainID : Z) (ethKeyFrom : option string) (privKey : string)
  : prog KeyI accounts_manager :=
  match HexToECDSA privKey with
  | inr e => mret (no_manager (Some (ErrWrap e "failed to hex-decode Ethereum ECDSA Private Key")))
  | inl ethPk =>
      let err : error := None in
      let ethAddressFromPk := PubkeyToAddress ethPk in
      from ← deref ethKeyFrom;
      let addr := HexToAddress from in
      if negb (String.length from =? 0)%nat && (addr =? 0)
      then mret (no_manager (Wrap err "failed to parse Ethereum from address"))
      else if negb (String.length from =? 0)%nat && negb (addr =? ethAddressFromPk)
      then mret (no_manager (Wrap err
        "Ethereum from address does not match address from ECDSA Private Key"))
      else
        match NewKeyedTransactorWithChainID ethPk ethChainID with
        | inr _ => mret (no_manager (Some (ErrNew "failed to init NewKeyedTransactorWithChainID")))
        | inl txOpts =>
            match PrivateKeyPersonalSignFn ethPk with
            | inr _ => mret (no_manager (Some (ErrNew "failed to init PrivateKeyPersonalSignFn")))
            | inl personalSignFn =>
                mret (MkManager (From_ txOpts)
                        (Some (fun from tx => mret (Signer txOpts from tx)))
                        (Some (fun from data => mret (personalSignFn from data))) None)
            end
        end
  end.

(** [case len( *ethKeystoreDir) > 0] *)
Definition keystore_manager (ethChainID : Z) (ethKeystoreDir : string) (ethKeyFrom ethPassphrase : option string)
  : prog KeyI accounts_manager :=
  match ethKeyFrom with
  | None => mret (no_manager (Some (ErrNew "cannot use Ethereum keystore without from address specified")))
  | Some from =>
      let err : error := None in
      let ethKeyFromAddress := HexToAddress from in
      if ethKeyFromAddress =? 0
      then mret (no_manager (Wrap err "failed to parse Ethereum from address"))
      else
        '(isDir, err) ← kfs (fscall (OsStat ethKeystoreDir));
        if bool_decide (is_Some err) || negb isDir
        then mret (no_manager (Some (ErrNew "failed to locate keystore dir")))
        else
          '(ks, err) ← kfs (New [ethKeystoreDir]);
          match err with
          | Some _ => mret (no_manager (Wrap err "failed to load keystore"))
          | None =>
              ethPassphrase ← deref ethPassphrase;
              '(pass, err) ← if negb (String.length ethPassphrase =? 0)%nat
                             then mret (ethPassphrase, None) else ethPassFromStdin;
              match err with
              | Some _ => mret (no_manager err)
              | None =>
                  '(signerFn, ks) ← kfs (ks_SignerFn ks ethChainID ethKeyFromAddress pass);
                  match signerFn with
                  | inr e => mret (no_manager (Some (ErrWrap e ("failed to load key for " ++ Address_Hex ethKeyFromAddress))))
                  | inl signerFn =>
                      '(personalSignFn, ks) ← kfs (ks_PersonalSignFn ks ethKeyFromAddress pass);
                      match personalSignFn with
                      | inr e => mret (no_manager (Some (ErrWrap e ("failed to load key for " ++ Address_Hex ethKeyFromAddress))))
                      | inl personalSignFn =>
                          mret (MkManager ethKeyFromAddress
                                  (Some (fun from tx => mret (signerFn from tx)))
                                  (Some (fun from data => mret (personalSignFn from data))) None)
                      end
                  end
              end
          end
  end.

(** [initEthereumAccountsManager]: every argument but the chain id is a pointer. *)
Definition initEthereumAccountsManager (ethChainID : Z)
    (ethKeystoreDir ethKeyFrom ethPassphrase ethPrivKey : option string) (ethUseLedger : option bool)
  : prog KeyI accounts_manager :=
  useLedger ← deref ethUseLedger;
  if useLedger : bool then ledger_manager ethChainID ethKeyFrom
  else
    privKey ← deref ethPrivKey;
    if negb (String.length privKey =? 0)%nat then privkey_manager ethChainID ethKeyFrom privKey
    else
      dir ← deref ethKeystoreDir;
      if negb (String.length dir =? 0)%nat
      then keystore_manager ethChainID dir ethKeyFrom ethPassphrase
      else mret (no_manager (Some (ErrNew "insufficient ethereum key details provided"))).

End keys.
