(* ===== verification/KeysFacts.v ===== *)
(** * KeysFacts: what the accounts manager returns, and whose signatures it makes *)
From Stdlib Require Import Init.Byte.
From S2P Require Import Prelude GoStrings Effects GoFloat Types External Model GoSort Keystore.
From S2P Require Import KeystoreFacts Keys.
Import KeyCache.

Section facts.
Context {GE : Geth} {GK : GethKeys}.

(** ** Silent failures *)

(** The from address is the reason for a failure in the chosen mode. *)
Definition from_rejected (dir from priv : string) (ledger : bool) : Prop :=
  if ledger then HexToAddress from = 0
  else if negb (String.length priv =? 0)%nat then
    from <> ""%string /\
    exists key, HexToECDSA priv = inl key /\
      (HexToAddress from = 0 \/ HexToAddress from <> PubkeyToAddress key)
  else dir <> ""%string /\ HexToAddress from = 0.

(** The shape of a result: both functions and no error, or no address and an error,
    which is missing exactly when [silent]. *)
Definition result_shape (silent : Prop) (r : accounts_manager) : Prop :=
  match am_signer r, am_personal r with
  | Some _, Some _ => am_err r = None /\ ~ silent
  | None, None => am_address r = emptyEthAddress /\ (am_err r = None <-> silent)
  | _, _ => False
  end.

Lemma shape_error silent e : ~ silent -> result_shape silent (no_manager (Some e)).
Proof. intros H. split; [done|]. by split. Qed.

Lemma shape_silent silent : silent -> result_shape silent (no_manager None).
Proof. done. Qed.

Lemma length_nonempty (s : string) : negb (String.length s =? 0)%nat = true <-> s <> ""%string.
Proof. by destruct s. Qed.

Definition shaped {I} (silent : Prop) (p : prog I accounts_manager) : Prop :=
  wp p (fun _ o => forall r, o = Done r -> result_shape silent r).

Lemma shaped_ret {I} silent r : result_shape silent r -> shaped (I:=I) silent (mret r).
Proof. by intros H r' [= <-]. Qed.

Lemma shaped_bind {I A} silent (p : prog I A) (f : A -> prog I accounts_manager) :
  (forall a, shaped silent (f a)) -> shaped silent (p ≫= f).
Proof.
  intros Hf. apply wp_bind, wp_runs. intros tr [a|v] _; [|done]. apply Hf.
Qed.

Lemma ledger_manager_shaped chain from :
  shaped (HexToAddress from = 0) (ledger_manager chain (Some from)).
Proof.
  unfold ledger_manager. destruct (Z.eqb_spec (HexToAddress from) 0) as [H0|H0].
  - by apply shaped_ret, shape_silent.
  - apply shaped_bind. intros [e|]; apply shaped_ret; [by apply shape_error|done].
Qed.

Lemma privkey_manager_shaped chain from priv :
  shaped (from <> ""%string /\ exists key, HexToECDSA priv = inl key /\
            (HexToAddress from = 0 \/ HexToAddress from <> PubkeyToAddress key))
    (privkey_manager chain (Some from) priv).
Proof.
  unfold privkey_manager. destruct (HexToECDSA priv) as [key|e].
  2: { apply shaped_ret, shape_error. by intros (_ & key & [=] & _). }
  cbn [deref]. change (Ret from ≫= ?f) with (f from). cbv beta.
  destruct (negb (String.length from =? 0)%nat) eqn:Hf; cbn [andb].
  - apply length_nonempty in Hf. destruct (Z.eqb_spec (HexToAddress from) 0) as [H0|H0].
    { apply shaped_ret, shape_silent. eauto. }
    destruct (Z.eqb_spec (HexToAddress from) (PubkeyToAddress key)) as [Hk|Hk]; cbn [negb].
    2: { apply shaped_ret, shape_silent. eauto. }
    assert (Hno : ~ (from <> ""%string /\ exists k, inl key = inl (B:=err) k /\
      (HexToAddress from = 0 \/ HexToAddress from <> PubkeyToAddress k)))
      by (intros (_ & k & [= <-] & [?|?]); done).
    destruct (NewKeyedTransactorWithChainID key chain); apply shaped_ret; [done|by apply shape_error].
  - assert (Hno : ~ (from <> ""%string /\ exists k, inl key = inl (B:=err) k /\
      (HexToAddress from = 0 \/ HexToAddress from <> PubkeyToAddress k)))
      by (intros [Hne%length_nonempty _]; congruence).
    destruct (NewKeyedTransactorWithChainID key chain); apply shaped_ret; [done|by apply shape_error].
Qed.

Lemma keystore_manager_shaped chain dir from pass :
  shaped (HexToAddress from = 0) (keystore_manager chain dir (Some from) pass).
Proof.
  unfold keystore_manager. destruct (Z.eqb_spec (HexToAddress from) 0) as [H0|H0].
  { by apply shaped_ret, shape_silent. }
  assert (He : forall e, shaped (I:=KeyI) (HexToAddress from = 0) (mret (no_manager (Some e))))
    by (intros e; by apply shaped_ret, shape_error).
  apply shaped_bind. intros [isDir e]. case_match; [apply He|].
  apply shaped_bind. intros [ks [e'|]]; [apply He|].
  apply shaped_bind. intros p. apply shaped_bind. intros [pw [e'|]]; [apply He|].
  apply shaped_bind. intros [[f|e'] ks']; [|apply He].
  apply shaped_bind. intros [[g|e'] ks2]; [|apply He]. by apply shaped_ret.
Qed.

Lemma init_shaped chain dir from pass priv ledger :
  shaped (from_rejected dir from priv ledger)
    (initEthereumAccountsManager chain (Some dir) (Some from) (Some pass) (Some priv) (Some ledger)).
Proof.
  unfold initEthereumAccountsManager, from_rejected. cbn [deref].
  repeat (change (Ret ?x ≫= ?f) with (f x); cbv beta). destruct ledger; [apply ledger_manager_shaped|].
  destruct (negb (String.length priv =? 0)%nat); [apply privkey_manager_shaped|].
  destruct (negb (String.length dir =? 0)%nat) eqn:Hd.
  - apply length_nonempty in Hd. eapply wp_mono; [apply keystore_manager_shaped|].
    intros tr o H r Hr. specialize (H r Hr). unfold result_shape in *.
    destruct (am_signer r), (am_personal r); tauto.
  - apply shaped_ret, shape_error. intros [Hne%length_nonempty _]. congruence.
Qed.

(** The set-up returns either both signing functions and no error, or neither with
    the zero address; but in the second case the error is nil, so that the caller goes on
    with nil functions, exactly when the from address was at fault: it parses to the zero
    address, or is not the address of the given private key. *)
Lemma init_silent_iff chain dir from pass priv ledger :
  wp (initEthereumAccountsManager chain (Some dir) (Some from) (Some pass) (Some priv) (Some ledger))
    (fun _ o => forall r, o = Done r ->
      match am_signer r, am_personal r with
      | Some _, Some _ => am_err r = None /\ ~ from_rejected dir from priv ledger
      | None, None => am_address r = 0 /\
          (am_err r = None <-> from_rejected dir from priv ledger)
      | _, _ => False
      end).
Proof. exact (init_shaped chain dir from pass priv ledger). Qed.

(** ** Whose signatures *)

(** Both functions are of one key, whose address is the reported one. *)
Definition owned (chain : Z) (r : accounts_manager) : Prop :=
  forall personalSignFn, am_personal r = Some personalSignFn ->
  exists signerFn key opts, am_signer r = Some signerFn /\ PubkeyToAddress key = am_address r /\
    NewKeyedTransactorWithChainID key chain = inl opts /\
    (forall from tx, signerFn from tx = mret (Signer opts from tx)) /\
    (forall from data, personalSignFn from data = mret (personal_sign key from data)).

Definition owns {I} (chain : Z) (p : prog I accounts_manager) : Prop :=
  wp p (fun _ o => forall r, o = Done r -> owned chain r).

Lemma owns_error {I} chain e : owns (I:=I) chain (mret (no_manager e)).
Proof. by intros r [= <-]. Qed.

Lemma owns_bind {I A} chain (p : prog I A) (f : A -> prog I accounts_manager) :
  (forall a, owns chain (f a)) -> owns chain (p ≫= f).
Proof. intros Hf. apply wp_bind, wp_runs. intros tr [a|v] _; [|done]. apply Hf. Qed.

Lemma privkey_manager_owns chain from priv : owns chain (privkey_manager chain from priv).
Proof.
  unfold privkey_manager. destruct (HexToECDSA priv) as [key|e]; [|apply owns_error].
  apply owns_bind. intros f. case_match; [apply owns_error|]. case_match; [apply owns_error|].
  destruct (NewKeyedTransactorWithChainID key chain) as [opts|e] eqn:Ho; [|apply owns_error].
  intros r [= <-] g [= <-]. eexists _, key, opts. split; [done|].
  destruct (NewKeyedTransactor_ok key chain opts Ho) as [-> _]. done.
Qed.

Lemma keystore_manager_owns chain dir from pass : owns chain (keystore_manager chain dir from pass).
Proof.
  unfold keystore_manager. destruct from as [from|]; [|apply owns_error].
  case_match; [apply owns_error|]. apply owns_bind. intros [isDir e].
  case_match; [apply owns_error|]. apply owns_bind. intros [ks [e'|]]; [apply owns_error|].
  apply owns_bind. intros p. apply owns_bind. intros [pw [e'|]]; [apply owns_error|].
  unfold kfs, ks_SignerFn, ks_PersonalSignFn, with_cache.
  apply wp_bind, wp_liftl, wp_bind. eapply wp_mono; [apply wp_SignerFn|].
  intros tr [[[f|e'] k1]|v] Hf; [|by intros r [= <-]|done]. cbn [wp mret prog_ret].
  destruct (Hf f k1 eq_refl) as (key & opts & Hkey & Ho & ->).
  cbn [ks_paths cache]. rewrite (PersonalSignFn_cached k1 _ _ key Hkey).
  destruct (Z.eqb_spec (PubkeyToAddress key) (HexToAddress from)) as [Ha|]; cbn; [|by intros r [= <-]].
  intros r [= <-] g [= <-]. eexists _, key, opts. split; [done|]. done.
Qed.

Lemma init_owns chain dir from pass priv :
  owns chain (initEthereumAccountsManager chain dir from pass priv (Some false)).
Proof.
  unfold initEthereumAccountsManager. cbn [deref]. change (Ret false ≫= ?f) with (f false).
  cbv beta iota. apply owns_bind. intros pk. case_match; [apply privkey_manager_owns|].
  apply owns_bind. intros d. case_match; [apply keystore_manager_owns|apply owns_error].
Qed.

(** C36: without a Ledger, the two signing functions are of one key whose address is the
    address that is reported: transactions and messages of any other account are refused. *)
Theorem init_signs_for_address chain dir from pass priv :
  wp (initEthereumAccountsManager chain dir from pass priv (Some false))
    (fun _ o => forall r signerFn personalSignFn, o = Done r ->
      am_signer r = Some signerFn -> am_personal r = Some personalSignFn ->
      exists key, PubkeyToAddress key = am_address r /\
        (forall data, personalSignFn (am_address r) data = mret (crypto_Sign (TextHash data) key)) /\
        forall other, other <> am_address r ->
          (forall tx, exists e, signerFn other tx = mret (inr e)) /\
          (forall data, exists e, personalSignFn other data = mret (inr e))).
Proof.
  eapply wp_mono; [apply init_owns|]. intros tr o Hr r s g -> Hs Hg.
  destruct (Hr r eq_refl g Hg) as (s' & key & opts & Hs' & Ha & Ho & Hsig & Hper).
  assert (s' = s) as -> by congruence. exists key. split; [done|].
  unfold personal_sign in Hper. rewrite <- Ha. split.
  - intros data. by rewrite Hper, Z.eqb_refl.
  - intros other Hne. split.
    + intros tx. destruct (NewKeyedTransactor_ok key chain opts Ho) as [_ Hrej].
      destruct (Hrej other tx Hne) as [e He]. exists e. by rewrite Hsig, He.
    + intros data. rewrite Hper, (proj2 (Z.eqb_neq _ _) Hne). by eexists.
Qed.

(** ** Ledger *)

(** The calls for a wallet that does not hold the account. *)
Definition passed_over (from : Address) (w : Z) : list (event DevI) :=
  [@Ev DevI (WalletOpen w) None; @Ev DevI (WalletContains w from) false; @Ev DevI (WalletClose w) None].

(** A signature was made by the first wallet that holds the account, opened before and
    closed after; every wallet before it was opened, did not hold it, and was closed. *)
Definition signed_by_ledger {A} (from : Address) (signed : Z -> A -> event DevI) (tr : list (event DevI)) (a : A)
  : Prop :=
  exists pre w post cerr, tr =
    @Ev DevI Wallets (pre ++ w :: post) ::
    (concat (map (passed_over from) pre) ++
     [@Ev DevI (WalletOpen w) None; @Ev DevI (WalletContains w from) true;
      signed w a; @Ev DevI (WalletClose w) cerr])%list.

Lemma wp_with_wallet {A} from (sign : Z -> prog DevI (A + err)) (signed : Z -> A -> event DevI) :
  (forall w, wp (sign w) (fun tr o => forall a, o = Done (inl a) -> tr = [signed w a])) ->
  wp (with_wallet from sign) (fun tr o => forall a, o = Done (inl a) -> signed_by_ledger from signed tr a).
Proof.
  intros Hsign. unfold with_wallet. intros ws. apply wp_bind.
  apply (wp_for ws tt _ (fun pre tr _ => tr = concat (map (passed_over from) pre))).
  - done.
  - intros pre w post tr [] -> ->. intros [e|]; [done|]. intros [].
    + cbn. apply wp_bind. eapply wp_mono; [apply Hsign|]. intros tr [[a|e]|v] Ha.
      * intros cerr a' [= <-]. rewrite (Ha a eq_refl), app_nil_r. by exists pre, w, post, cerr.
      * done.
      * done.
    + intros [e|]; [done|]. cbn. by rewrite map_app, concat_app.
  - done.
Qed.

(** A transaction signed with the Ledger was signed for the given chain by the first
    wallet that holds the sender, between opening and closing it; the wallets before it
    were closed again. *)
Lemma ledger_signerFn_spec chain from tx :
  wp (ledger_signerFn chain from tx) (fun tr o => forall tx', o = Done (inl tx') ->
    signed_by_ledger from (fun w tx' => @Ev DevI (WalletSignTx w from tx chain) (inl tx')) tr tx').
Proof. apply wp_with_wallet. by intros w r a [= ->]. Qed.

End facts.
