(* ===== verification/Sending.v ===== *)
(** * Sending: the contract client over the committer

    [peggyContract] embeds an [EVMCommitter]: its [SendTx] is that of
    [ethereum/committer/eth_committer.go], which keeps the nonce cache between calls.
    The remaining calls of the client go to the contract's binding. *)
From S2P Require Import Prelude Effects GoFloat Types External Model Confirmations EthPeggy Bridge.
From S2P Require Committer.

Section sending.
Context {GE : Geth} {SH : Shopspring}.

Definition SendI : Iface := SumI Committer.EvmI PeggyI.

(** The sending loop has not ended within the fuel. *)
Definition still_sending : panicv := PanicValue "SendTx: still sending".

(** A call of the binding leaves the committer as it is. *)
Definition binding (c : peggy_cmd) (e : Committer.ethCommitter)
  : prog SendI (peggy_reply c * Committer.ethCommitter) :=
  prog_bind (fun r : peggy_reply c => Ret (r, e)) (@call SendI (inr c)).

Definition committer_impl (fuel : nat) (c : cmd PeggyI) (e : Committer.ethCommitter)
  : prog SendI (reply PeggyI c * Committer.ethCommitter) :=
  match c return prog SendI (peggy_reply c * Committer.ethCommitter) with
  | SendTx recipient txData =>
      '(res, e) ← liftl (J:=PeggyI) (Committer.SendTx fuel e recipient txData);
      match res with
      | Some r => mret (r, e)
      | None => Panic still_sending
      end
  | c => binding c e
  end.

Definition with_committer {A} (fuel : nat) (p : prog PeggyI A) (e : Committer.ethCommitter)
  : prog SendI (A * Committer.ethCommitter) :=
  interp_st (committer_impl fuel) p e.

(** The transactions handed to the node. *)
Definition submitted (tr : list (event SendI)) : list Committer.Transaction :=
  omap (fun ev : event SendI => match ev with
    | existT (inl (Committer.SendTransactionWithRet tx)) _ => Some tx
    | _ => None
    end) tr.

(** The transaction is a call of [P], at a gas price of at most [max]. *)
Definition good_tx (P : Address -> bytes -> Prop) (max : Z) (tx : Committer.Transaction) : Prop :=
  P (Committer.tx_to tx) (Committer.tx_data tx) /\ Committer.tx_gasPrice tx <= max.

Definition good_event (P : Address -> bytes -> Prop) (max : Z) (ev : event SendI) : Prop :=
  match ev with
  | existT (inl (Committer.SendTransactionWithRet tx)) _ => good_tx P max tx
  | _ => True
  end.

Lemma good_events_submitted P max tr :
  Forall (good_event P max) tr -> Forall (good_tx P max) (submitted tr).
Proof.
  induction 1 as [|[c r] tr Hev _ IH]; [constructor|]. unfold submitted. cbn [omap list_omap].
  destruct c as [[]|]; try exact IH. by constructor.
Qed.

Lemma submitted_good_events P max (tr : list (event Committer.EvmI)) :
  Forall (good_tx P max) (Committer.submitted tr) ->
  Forall (good_event P max) (map (left_event PeggyI) tr).
Proof.
  induction tr as [|[c r] tr IH]; [constructor|]. unfold Committer.submitted. cbn [omap list_omap map].
  destruct c; try (intros H; constructor; [done|by apply IH]).
  intros H. apply Forall_cons in H as [H H']. constructor; [exact H|by apply IH].
Qed.

(** The commands of the client that send only calls of [P]. *)
Definition sends_only (P : Address -> bytes -> Prop) (c : cmd PeggyI) : Prop :=
  match c with SendTx to data => P to data | _ => True end.

Lemma issues_sends {A} (p : prog PeggyI A) P :
  wp p (fun tr _ => forall to data, (to, data) ∈ sends tr -> P to data) -> issues (sends_only P) p.
Proof.
  intros H. eapply wp_mono; [exact H|]. intros tr o. clear. induction tr as [|[c r] tr IH]; [constructor|].
  intros H. constructor.
  - destruct c; try exact I. apply H. left.
  - apply IH. intros to data Hin. apply H. destruct c; try exact Hin. by right.
Qed.

Lemma wp_committer_impl fuel P max c e :
  sends_only P c -> Committer.ethMaxGasPrice e = max ->
  wp (committer_impl fuel c e) (fun tr o => Forall (good_event P max) tr /\
    forall r e', o = Done (r, e') -> Committer.ethMaxGasPrice e' = max).
Proof.
  intros Hc <-.
  destruct c; try (intros r; split; [by repeat constructor|by intros r' e' [= _ <-]]).
  apply wp_bind, wp_liftl. eapply wp_mono; [apply Committer.SendTx_spec|].
  intros tr [[res e']|m] [Hsub Hmax]; cbn in Hc.
  - assert (Htr : Forall (good_event P (Committer.ethMaxGasPrice e)) (map (left_event PeggyI) tr)).
    { apply submitted_good_events. eapply Forall_impl; [exact Hsub|]. by intros tx (<- & <- & ? & _). }
    destruct res as [r|]; cbn; rewrite app_nil_r; (split; [exact Htr|]); [|done].
    intros r' e'' [= _ <-]. by eapply Hmax.
  - split; [|done]. apply submitted_good_events. eapply Forall_impl; [exact Hsub|].
    by intros tx (<- & <- & ? & _).
Qed.

Definition some_answers : answers PeggyI := fun c =>
  match c return peggy_reply c with
  | SendTx _ _ => (0, None)
  | Now => 0
  | LastBatchNonce _ _ | StateLastValsetNonce _ | StatePeggyId _ => (0, None)
  | ERC20Symbol _ _ => (""%string, None)
  | ERC20Allowance _ _ _ _ => (0, None)
  end.

(** What a client method asks the committer to send is what the node gets, and at no more
    than the maximal gas price. *)
Lemma wp_with_committer {A} fuel (p : prog PeggyI A) e P :
  wp p (fun tr _ => forall to data, (to, data) ∈ sends tr -> P to data) ->
  wp (with_committer fuel p e) (fun tr _ => forall tx, tx ∈ submitted tr ->
    P (Committer.tx_to tx) (Committer.tx_data tx) /\ Committer.tx_gasPrice tx <= Committer.ethMaxGasPrice e).
Proof.
  intros Hp. eapply wp_mono.
  - apply (issues_interp_st (committer_impl fuel) some_answers (sends_only P)
             (good_event P (Committer.ethMaxGasPrice e))
             (fun e' => Committer.ethMaxGasPrice e' = Committer.ethMaxGasPrice e)).
    + intros c s. apply wp_committer_impl.
    + by apply issues_sends.
    + done.
  - intros tr o Htr%good_events_submitted tx Hin. by apply (proj1 (Forall_forall _ _) Htr).
Qed.

End sending.
