(* ===== verification/Signing.v ===== *)
(** * Signing: from the operator's key to the bridge contract

    Puts the parts together that a confirmation goes through: the key set-up
    ([Keys.v]) gives the signing function that [NewBroadcastClient] stores, the
    broadcasts ([Broadcast.v]) sign with it, the relayer parses and repacks the
    signatures ([EthPeggy.v]) and the contract recovers the signers ([PeggySol.v]). *)
From Stdlib Require Import Init.Byte.
From stdpp Require Import pretty.
From S2P Require Import Prelude GoStrings Effects GoFloat Types External Model PeggySol Confirmations.
From S2P Require Import Checkpoint EthPeggy Bridge BridgeFacts Interfaces Broadcast Keystore.
From S2P Require Import KeystoreFacts Keys KeysFacts.
From S2P Require Import Sending AbiDecode PeggyState Dispatch.
From S2P Require Committer.

(** What go-ethereum and the EVM document of signatures: [TextHash] of 32 bytes hashes the
    same envelope as the contract; [Sign] gives 32 bytes R, 32 bytes S and V, which is 0 or
    1, from which the precompile (with V + 27) recovers the address of the key. *)
Class EthSignatures {GE : Geth} {GK : GethKeys} {EV : Evm} : Prop := {
  PubkeyToAddress_range key : is_addr (PubkeyToAddress key);
  TextHash_word h : be_Z (TextHash (abi_word h)) = signed_message_digest h;
  crypto_Sign_recovers digest key sig :
    crypto_Sign digest key = inl sig ->
    exists R S V, sig = (R ++ S ++ [V])%list /\ length R = 32%nat /\ length S = 32%nat /\
      (V = x00 \/ V = x01) /\
      ecrecover (be_Z digest) (byte_Z V + 27) (be_Z R) (be_Z S) = PubkeyToAddress key
}.

Section signing.
Context {GE : Geth} {GK : GethKeys} {EV : Evm} {CO : Cosmos}.

(** ** The broadcast client over the signing function *)
Definition SignI : Iface := SumI DevI ChainI.

(** [ethSignFn]: calling a nil function panics. *)
Definition ethSign (keys : accounts_manager) (from : Address) (data : bytes) : prog SignI (bytes * error) :=
  ethSignFn ← deref (am_personal keys);
  r ← liftl (ethSignFn from data);
  mret (match r with inl sig => (sig, None) | inr e => ([], Some e) end).

Definition client_impl (keys : accounts_manager) (c : cmd ChainI) : prog SignI (reply ChainI c) :=
  match c with
  | EthSign from data => ethSign keys from data
  | c => @call SignI (inr c)
  end.

(** A method of the broadcast client that [NewBroadcastClient] made with these keys. *)
Definition with_keys {A} (keys : accounts_manager) (p : prog ChainI A) : prog SignI A :=
  interp (client_impl keys) p.

(** The messages handed to the chain. *)
Definition sent (tr : list (Effects.event SignI)) : list Msg :=
  omap (fun ev : Effects.event SignI =>
    match ev with existT (inr (BroadcastMsg m)) _ => Some m | _ => None end) tr.

(** The message is one that an orchestrator process broadcasts with [send], for the address
    of the keys that it was set up with (no Ledger: the orchestrator refuses one). *)
Definition sent_by_orchestrator (send : Address -> prog ChainI error) (msg : Msg) : Prop :=
  exists chain dir from pass priv tr0 keys,
    runs (initEthereumAccountsManager chain dir from pass priv (Some false)) tr0 (Done keys) /\
    exists tr o, runs (with_keys keys (send (am_address keys))) tr o /\ msg ∈ sent tr.

(** The signature, as the relayer parses it, passes the contract's check. *)
Definition verifies (signer : string) (h : Hash) (sig : string) : Prop :=
  exists v r s, sigToVRS sig = Some (v, r, s) /\ verifySig (HexToAddress signer) h v r s = true.

Lemma wp_broadcast_with_keys keys name msg :
  wp (with_keys keys (broadcast name msg)) (fun tr _ => sent tr = [msg]).
Proof. intros [] [[resp|] [e|]] [] []; cbn; try done. by case_match. Qed.

Context {ES : EthSignatures}.

(** ** Signatures verify *)
Lemma signature_verifies key h sig :
  crypto_Sign (TextHash (abi_word h)) key = inl sig ->
  verifies (Address_Hex (PubkeyToAddress key)) h (Bytes2Hex sig).
Proof.
  intros (R & S & V & -> & HR & HS & HV & Hrec)%crypto_Sign_recovers.
  exists (byte_Z V + 27), (be_Z R), (be_Z S). rewrite TextHash_word in Hrec.
  rewrite HexToAddress_Hex by apply PubkeyToAddress_range. split.
  - unfold sigToVRS. rewrite FromHex_Bytes2Hex.
    rewrite app_assoc, lookup_app_r by (rewrite length_app; lia).
    rewrite length_app, HR, HS. cbn [lookup list_lookup Nat.sub Nat.add].
    rewrite <- app_assoc, take_app_length', drop_app_length', take_app_length' by done.
    rewrite !BytesToHash_32 by done. by destruct HV as [-> | ->].
  - unfold verifySig. by rewrite Hrec, Z.eqb_refl.
Qed.

(** The two confirmations have one shape: sign a hash with the own address, and broadcast
    the message made of the signature. *)
Lemma wp_sign_and_send chain keys h name (mk : AccAddress -> bytes -> Msg) :
  owned chain keys ->
  wp (with_keys keys
        ('(signature, err) ← ccall (EthSign (am_address keys) (abi_word h));
         match err with
         | Some _ => mret (Some errSign)
         | None => from ← ccall FromAddress; broadcast name (mk from signature)
         end))
    (fun tr _ => forall msg, msg ∈ sent tr -> exists from sig, msg = mk from sig /\
       verifies (Address_Hex (am_address keys)) h (Bytes2Hex sig)).
Proof.
  intros Hown. unfold with_keys. cbn [ccall call mbind prog_mbind prog_bind interp client_impl].
  apply wp_bind. unfold ethSign. destruct (am_personal keys) as [f|] eqn:Hf; [|by intros msg ?%elem_of_nil].
  destruct (Hown f Hf) as (_ & key & _ & _ & Hkey & _ & _ & Hsig).
  cbn [deref mbind prog_mbind prog_bind].
  rewrite Hsig. unfold KeyCache.personal_sign. rewrite Hkey, Z.eqb_refl. cbn [negb].
  destruct (crypto_Sign _ key) as [sig|e] eqn:Hs; cbn -[abi_word broadcast]; [|by intros msg ?%elem_of_nil].
  intros from. eapply wp_mono; [apply wp_broadcast_with_keys|]. intros tr o Htr msg Hin.
  change (msg ∈ sent tr) in Hin. rewrite Htr in Hin.
  apply list_elem_of_singleton in Hin as ->. exists from, sig. split; [done|].
  rewrite <- Hkey. by apply signature_verifies.
Qed.

Lemma SendValsetConfirm_verifies chain keys id vs a :
  owned chain keys -> small (vs_Nonce vs) -> Forall (fun m => small (Power m)) (vs_Members vs) ->
  valset_args_of vs = Some a ->
  wp (with_keys keys (SendValsetConfirm (am_address keys) id vs)) (fun tr _ =>
    forall msg, msg ∈ sent tr -> exists c, msg = MsgValsetConfirm_ c /\ mvc_Nonce c = vs_Nonce vs /\
      verifies (mvc_EthAddress c) (makeCheckpoint a id) (mvc_Signature c)).
Proof.
  intros Hown Hn Hp Ha. unfold SendValsetConfirm. rewrite (EncodeValsetConfirm_checkpoint _ _ _ Hn Hp Ha).
  eapply wp_mono; [by apply (wp_sign_and_send chain keys (makeCheckpoint a id) _ (fun from signature =>
    MsgValsetConfirm_ (MkMsgValsetConfirm from (Address_Hex (am_address keys)) (vs_Nonce vs)
      (Bytes2Hex signature))))|].
  intros tr o H msg Hin. destruct (H msg Hin) as (from & sig & -> & Hv). by eexists.
Qed.

Lemma SendBatchConfirm_verifies chain keys id b amounts dests fees :
  owned chain keys -> small (BatchNonce b) -> small (BatchTimeout b) ->
  batch_values b = Some (amounts, dests, fees) ->
  wp (with_keys keys (SendBatchConfirm (am_address keys) id b)) (fun tr _ =>
    forall msg, msg ∈ sent tr -> exists c, msg = MsgConfirmBatch_ c /\ mcb_Nonce c = BatchNonce b /\
      verifies (mcb_EthSigner c)
        (batchHash id amounts dests fees (BatchNonce b) (HexToAddress (TokenContract b)) (BatchTimeout b))
        (mcb_Signature c)).
Proof.
  intros Hown Hn Ht Hb. unfold SendBatchConfirm. rewrite (EncodeTxBatchConfirm_hash _ _ _ _ _ Hn Ht Hb).
  eapply wp_mono; [by apply (wp_sign_and_send chain keys (batchHash id amounts dests fees (BatchNonce b)
    (HexToAddress (TokenContract b)) (BatchTimeout b)) _ (fun from signature =>
    MsgConfirmBatch_ (MkMsgConfirmBatch from (BatchNonce b) (Bytes2Hex signature)
      (Address_Hex (am_address keys)) (TokenContract b))))|].
  intros tr o H msg Hin. destruct (H msg Hin) as (from & sig & -> & Hv). by eexists.
Qed.

(** ** What the orchestrators sent is what the contract accepts *)

Lemma sent_by_valset_sender id vs a c :
  small (vs_Nonce vs) -> Forall (fun m => small (Power m)) (vs_Members vs) -> valset_args_of vs = Some a ->
  sent_by_orchestrator (fun from => SendValsetConfirm from id vs) (MsgValsetConfirm_ c) ->
  verifies (mvc_EthAddress c) (makeCheckpoint a id) (mvc_Signature c).
Proof.
  intros Hn Hp Ha (chain & dir & from & pass & priv & tr0 & keys & Hkeys & tr & o & Hrun & Hin).
  pose proof (proj1 (wp_runs _ _) (init_owns chain dir from pass priv) _ _ Hkeys keys eq_refl) as Hown.
  destruct (proj1 (wp_runs _ _) (SendValsetConfirm_verifies chain keys id vs a Hown Hn Hp Ha) _ _ Hrun _ Hin)
    as (c' & [= <-] & _ & Hv). exact Hv.
Qed.

Lemma sent_by_batch_sender id b amounts dests fees c :
  small (BatchNonce b) -> small (BatchTimeout b) -> batch_values b = Some (amounts, dests, fees) ->
  sent_by_orchestrator (fun from => SendBatchConfirm from id b) (MsgConfirmBatch_ c) ->
  verifies (mcb_EthSigner c)
    (batchHash id amounts dests fees (BatchNonce b) (HexToAddress (TokenContract b)) (BatchTimeout b))
    (mcb_Signature c).
Proof.
  intros Hn Ht Hb (chain & dir & from & pass & priv & tr0 & keys & Hkeys & tr & o & Hrun & Hin).
  pose proof (proj1 (wp_runs _ _) (init_owns chain dir from pass priv) _ _ Hkeys keys eq_refl) as Hown.
  destruct (proj1 (wp_runs _ _) (SendBatchConfirm_verifies chain keys id b _ _ _ Hown Hn Ht Hb) _ _ Hrun _ Hin)
    as (c' & [= <-] & _ & Hv). exact Hv.
Qed.

(** The confirmations that the check counts are among those of the list. *)
Lemma verified_confirms_good {C} (addr sig : C -> string) confirms ms h :
  Forall (fun c => verifies (addr c) h (sig c)) confirms ->
  good_confirms (fun a => sig <$> last (base.filter (fun c => addr c = a) confirms)) ms h.
Proof.
  intros Hall m s v r s' _ Hc Hvrs.
  destruct (last _) as [c|] eqn:E; [|done]. injection Hc as <-.
  apply last_filter_Some in E as [<- Hin]. rewrite Forall_forall in Hall.
  destruct (Hall c Hin) as (v' & r' & s'' & Hvrs' & Hver). congruence.
Qed.

(** From keys to contract, for validator sets.  If every confirmation that the chain
    collected for a new validator set was broadcast by an orchestrator, with whatever key
    and by whatever means of key set-up, then every transaction that a relayer's committer
    submits for it goes to the contract, at no more than the maximal gas price, and the
    contract, which decodes its data, executes it and emits the event of the new set, unless the
    reward token refuses the payment. *)
Lemma orchestrators_valset_accepted {SH : Shopspring} {SE : Selectors} fuel e s old new confirms newA curA m t p :
  wf_members (vs_Members old) -> wf_members (vs_Members new) ->
  small (vs_Nonce old) -> small (vs_Nonce new) ->
  vs_Nonce new < vs_Nonce old + MAX_NONCE_JUMP_LIMIT ->
  valset_args_of old = Some curA -> valset_args_of new = Some newA ->
  is_u256 (va_RewardAmount curA) -> is_u256 (va_RewardAmount newA) ->
  ready (core p) curA ->
  Forall (fun c => sent_by_orchestrator (fun from => SendValsetConfirm from (state_peggyId (core p)) new)
                     (MsgValsetConfirm_ c)) confirms ->
  state_powerThreshold (core p) < sum_powers (va_Powers newA) ->
  wp (with_committer fuel (EthPeggy.SendEthValsetUpdate s old new confirms) e) (fun tr _ =>
    forall tx, tx ∈ submitted tr ->
      (Committer.tx_to tx = peggyAddress s /\
       (let ops := reward_ops (msg_sender m) newA in
        exists p', execute m t (Committer.tx_data tx) p =
          if tokenOk t ops
          then Some (p', ops, [valset_event newA (state_lastEventNonce (core p) + 1)]) else None)) /\
      Committer.tx_gasPrice tx <= Committer.ethMaxGasPrice e).
Proof.
  intros Hwo Hwn Hno Hnn Hlim Hcur Hnew Hrc Hrn Hready Hall Hth.
  apply (wp_with_committer fuel _ e (fun to data => to = peggyAddress s /\
    let ops := reward_ops (msg_sender m) newA in exists p', execute m t data p =
      if tokenOk t ops
      then Some (p', ops, [valset_event newA (state_lastEventNonce (core p) + 1)]) else None)).
  eapply wp_mono.
  - apply (SendEthValsetUpdate_accepted s old new confirms newA curA (core p) (msg_sender m)
             (makeCheckpoint newA (state_peggyId (core p)))); try done.
    + apply EncodeValsetConfirm_checkpoint; [done|apply Hwn|done].
    + apply verified_confirms_good. eapply Forall_impl; [exact Hall|]. intros c.
      apply sent_by_valset_sender; [done|apply Hwn|done].
  - intros tr o H to data Hin. destruct (H to data Hin) as (-> & v & r & s' & c' & -> & Hs & Hup).
    split; [done|]. eexists. eapply execute_updateValset; [| |exact Hs|exact Hup];
      [by apply (wf_args_of_valset new)|by apply (wf_args_of_valset old)].
Qed.

(** From keys to contract, for batches: if every confirmation collected for a batch was
    broadcast by an orchestrator, then every transaction that a relayer's committer
    submits for it goes to the contract, at no more than the maximal gas price, and the
    contract executes its data until the batch times out, unless the token refuses the payments. *)
Lemma orchestrators_batch_accepted {SH : Shopspring} {SE : Selectors} fuel e s vs batch confirms cur m t p
    amounts dests fees :
  wf_members (vs_Members vs) -> small (vs_Nonce vs) ->
  small (BatchNonce batch) -> small (BatchTimeout batch) -> Z.of_nat (length (Transactions batch)) < 2 ^ 64 ->
  valset_args_of vs = Some cur -> batch_values batch = Some (amounts, dests, fees) ->
  is_u256 (va_RewardAmount cur) -> Forall is_u256 amounts -> Forall is_u256 fees -> sum_powers fees < 2 ^ 256 ->
  ready (core p) cur -> entered p = false ->
  Forall (fun c => sent_by_orchestrator (fun from => SendBatchConfirm from (state_peggyId (core p)) batch)
                     (MsgConfirmBatch_ c)) confirms ->
  0 <= lastBatchNonce (core p) (HexToAddress (TokenContract batch)) < BatchNonce batch ->
  BatchNonce batch < lastBatchNonce (core p) (HexToAddress (TokenContract batch)) + MAX_NONCE_JUMP_LIMIT ->
  block_number m < BatchTimeout batch ->
  wp (with_committer fuel (EthPeggy.SendTransactionBatch s vs batch confirms) e) (fun tr _ =>
    forall tx, tx ∈ submitted tr ->
      (Committer.tx_to tx = peggyAddress s /\
       (let token := HexToAddress (TokenContract batch) in
        let ops := batch_ops (core p) (msg_sender m) token amounts dests fees in
        exists p', execute m t (Committer.tx_data tx) p =
          if tokenOk t ops
          then Some (p', ops, [EvBatchExecuted (BatchNonce batch) token (state_lastEventNonce (core p) + 1)])
          else None)) /\
      Committer.tx_gasPrice tx <= Committer.ethMaxGasPrice e).
Proof.
  intros Hw Hnv Hn Ht Hl Hcur Hb Hrw Ham Hfe Hsum Hready Hent Hall Hlo Hhi Hbn.
  set (token := HexToAddress (TokenContract batch)) in *.
  apply (wp_with_committer fuel _ e (fun to data => to = peggyAddress s /\
    let ops := batch_ops (core p) (msg_sender m) token amounts dests fees in exists p', execute m t data p =
      if tokenOk t ops
      then Some (p', ops, [EvBatchExecuted (BatchNonce batch) token (state_lastEventNonce (core p) + 1)])
      else None)).
  eapply wp_mono.
  - apply (SendTransactionBatch_accepted s vs batch confirms cur (core p) (msg_sender m)
             (block_number m) (batchHash (state_peggyId (core p)) amounts dests fees (BatchNonce batch)
                (HexToAddress (TokenContract batch)) (BatchTimeout batch)) amounts dests fees); try done.
    + by apply EncodeTxBatchConfirm_hash.
    + apply verified_confirms_good. eapply Forall_impl; [exact Hall|]. intros c. by apply sent_by_batch_sender.
    + eapply Forall_impl; [exact Hfe|]. unfold is_u256. cbn. lia.
  - intros tr o H to data Hin. destruct (H to data Hin) as (-> & v & r & s' & c' & -> & Hs & Hup).
    split; [done|]. eexists. eapply execute_submitBatch; [|exact Hs| |exact Hent|exact Hup];
      [by apply (wf_args_of_valset vs)|by eapply wf_batch_of_values].
Qed.

End signing.

(** ** An example: validator A holds most of the power and signs with its private key *)
Module Example.
#[local] Existing Instance KeystoreFacts.Example.model_keys.
#[local] Existing Instance BridgeFacts.Example.evm.
#[local] Existing Instance Broadcast.Example.cosmos.
Import BridgeFacts.Example.

Lemma Z_mod_mod_mul x : (x mod (2 ^ 160 * 2 ^ 96)) mod 2 ^ 160 = x mod 2 ^ 160.
Proof.
  rewrite Z.rem_mul_r by lia. rewrite (Z.mul_comm (2 ^ 160)), Z.mod_add by lia. by rewrite Z.mod_mod by lia.
Qed.

#[local] Instance model_signatures : EthSignatures.
Proof.
  split.
  - intros key. unfold is_addr. cbn. apply Z.mod_pos_bound. lia.
  - intros h. cbn [TextHash KeystoreFacts.Example.model_keys]. rewrite length_abi_word.
    change (pretty 32%nat) with "32"%string. unfold signed_message_digest.
    rewrite be_Z_abi_word by apply Keccak256Hash_range. reflexivity.
  - intros digest key sig [= <-]. exists (Z_be 32 key), (Z_be 32 0), x00.
    rewrite !length_Z_be. repeat split; [by left|].
    cbn [ecrecover evm PubkeyToAddress KeystoreFacts.Example.model_keys]. rewrite be_Z_Z_be.
    change (256 ^ Z.of_nat 32) with (2 ^ 160 * 2 ^ 96). by rewrite Z_mod_mod_mul.
Qed.

(** The chain accepts every message; the account is the sender of the confirmations. *)
Definition node : handler SignI unit := fun c w =>
  (match c return reply SignI c with
   | inl c => match c return dev_reply c with
              | ReadPassword => ([], None)
              | NewLedgerHub | WalletOpen _ | WalletClose _ => None
              | Wallets => []
              | WalletContains _ _ => false
              | WalletSignTx _ _ _ _ | WalletSignText _ _ _ => inr (ErrNew "no wallet")
              end
   | inr c => match c return chain_reply c with
              | FromAddress => "inj1a"%string
              | BroadcastMsg _ => (Some (MkTxResponse 0 ""), None)
              | QueueBroadcastMsg _ => None
              | EthSign _ _ => ([], None)
              | Lock | Unlock | Sleep _ => tt
              end
   end, w).

(** The private key of the example: its address is A's. *)
Definition privKey : string := String (ascii_of_nat 0xaa) "".

Definition signature : string := hex_of_bytes (Z_be 32 0xaa ++ Z_be 32 0 ++ [x00]).
Definition valset_confirms : list MsgValsetConfirm := [MkMsgValsetConfirm "inj1a" addrA 8 signature].
Definition batch_confirms : list MsgConfirmBatch := [MkMsgConfirmBatch "inj1a" 3 signature addrA addrB].

Lemma sent_by_A (send : Address -> prog ChainI error) msg :
  (forall keys, am_address keys = 0xaa -> am_personal keys = Some (fun from data => mret (KeyCache.personal_sign 0xaa from data)) ->
    msg ∈ sent (exec node (with_keys keys (send (am_address keys))) tt).1.2) ->
  sent_by_orchestrator send msg.
Proof.
  intros H. exists 1, None, (Some ""%string), None, (Some privKey), [].
  eexists. split; [apply runs_ret|]. eexists _, _. split; [apply (exec_runs node)|].
  apply H; reflexivity.
Qed.

Lemma valset_confirms_sent : Forall (fun m => sent_by_orchestrator
  (fun from => SendValsetConfirm from 42 new) (MsgValsetConfirm_ m)) valset_confirms.
Proof.
  constructor; [|constructor]. apply sent_by_A. intros [? s p ?] Ha Hp. simpl in Ha, Hp.
  subst. apply list_elem_of_singleton. by vm_compute.
Qed.

Lemma batch_confirms_sent : Forall (fun m => sent_by_orchestrator
  (fun from => SendBatchConfirm from 42 batch) (MsgConfirmBatch_ m)) batch_confirms.
Proof.
  constructor; [|constructor]. apply sent_by_A. intros [? s p ?] Ha Hp. simpl in Ha, Hp.
  subst. apply list_elem_of_singleton. by vm_compute.
Qed.

#[local] Instance model_selectors : Selectors.
Proof. unfold Selectors. apply (bool_decide_eq_true_1 _). by vm_compute. Qed.

Definition bridge : Peggy := MkPeggy BridgeFacts.Example.chain 1 0 true false.
Definition tx_msg : msg := MkMsg 1 0xcc 500 1000 0xdd.
Definition good_tokens : tokens := MkTokens (fun _ => true) (MkReceived 0 0).

Lemma valset_calldata_typed_witness :
  wp (EthPeggy.SendEthValsetUpdate client old new valset_confirms) (fun tr _ =>
    forall to data, (to, data) ∈ sends tr ->
      exists v r s', dispatch data = Some (UpdateValset (args 8 10 0xbb) (args 7 0 0) v r s') /\
        wf_sigs v r s').
Proof.
  apply (valset_calldata_typed client old new valset_confirms (args 8 10 0xbb) (args 7 0 0));
    try exact wf; done || by vm_compute.
Defined.

(** Such a transaction is submitted: A alone has the power that the check asks for. *)
Definition eth_node : handler SendI unit := fun c w =>
  (match c return reply SendI c with
   | inl c => match c return Committer.evm_reply c with
              | Committer.SuggestGasPrice => (1, None)
              | Committer.EstimateGas _ => (21000, None)
              | Committer.PendingNonceAt _ | Committer.Signer _ _
              | Committer.SendTransactionWithRet _ => (0, None)
              end
   | inr c => some_answers c
   end, w).

Definition submissions : list Committer.Transaction :=
  submitted (exec eth_node (with_committer 5
    (EthPeggy.SendEthValsetUpdate client old new valset_confirms) Committer.Example.committer) tt).1.2.

Example valset_is_submitted :
  match submissions with
  | [tx] => match execute tx_msg good_tokens (Committer.tx_data tx) bridge with
            | Some (p', _, _) => state_lastValsetNonce (core p') = 8
            | None => False
            end
  | _ => False
  end.
Proof. by vm_compute. Qed.
End Example.
