(* ===== verification/RelayAccepted.v ===== *)
(** * RelayAccepted: what the relayer sends, the contract accepts

    A run of the relayer finds the validator set in the contract's events ([RelayerContract.v])
    and relays with it ([Orchestrator.v]); the transactions of its committer carry the
    confirmations of orchestrators ([Signing.v]).  Put together: while the contract is as the
    search saw it, it executes every update and every batch that the run sends, unless a token
    contract refuses a payment. *)
From S2P Require Import Prelude Effects GoFloat Types External Model PeggySol PeggyState PeggyStateFacts.
From S2P Require Import Confirmations Checkpoint EthPeggy Bridge BridgeFacts Interfaces Broadcast Keystore KeystoreFacts.
From S2P Require Import Keys KeysFacts Sending AbiDecode Dispatch Signing.
From S2P Require Import GoSort Relayer RelayerFacts Loops Orchestrator RelayerContract.
From S2P Require Committer.

(** ** The sets of the contract *)

(** A set whose numbers the relayer can convert. *)
Record relayable (a : ValsetArgs) : Prop := {
  rl_powers : Forall small (va_Powers a);
  rl_count : Z.of_nat (length (va_Powers a)) < 2 ^ 64;
  rl_nonce : small (va_ValsetNonce a);
  rl_reward : is_u256 (va_RewardAmount a)
}.

(** The contract takes transactions: it is not paused, has event nonces left, and its threshold
    is not above the one that the relayer checks. *)
Record open (c : Contract) : Prop := {
  op_unpaused : paused c = false;
  op_event : state_lastEventNonce c + 1 < 2 ^ 256;
  op_threshold : 10 ^ 8 * state_powerThreshold c <= 65999992 * totalPeggyPower
}.

Section accepted.
Context {GE : Geth} {GK : GethKeys} {EV : Evm} {CO : Cosmos} {ES : EthSignatures} {SH : Shopspring} {SE : Selectors}.
Context {RL : RetryLib OrchI}.

Lemma relayable_valset v a :
  relayable a -> valset_args_of v = Some a -> wf_members (vs_Members v) /\ small (vs_Nonce v).
Proof.
  intros [Hp Hc Hn _]. unfold valset_args_of, valset_args, validatorsAndPowers.
  destruct (vs_RewardAmount v) as [rw|]; cbn; [|done]. intros [= <-]. cbn in *.
  rewrite !length_map in Hc. rewrite !Forall_map in Hp. by split; [split|].
Qed.

Lemma open_ready c a :
  open c -> makeCheckpoint a (state_peggyId c) = state_lastValsetCheckpoint c -> ready c a.
Proof. intros [Hp He Ht] Hc. by split. Qed.

(** ** The validator set of a run *)
Context (sets : list ValsetArgs) (p : Peggy) (clog : list ContractEvent) (blocks : list Z).

(** The contract's history, with everything that the search relies on. *)
Record found_on : Prop := {
  fo_history : history_with sets p clog;
  fo_sets : well_behaved (state_peggyId (core p)) sets;
  fo_relayable : Forall relayable sets;
  fo_length : length blocks = length clog;
  fo_blocks : StronglySorted Z.le blocks
}.

Context (Hfo : found_on).

(** The arguments made of a found set are those of the contract's current set. *)
Definition current (v : Valset) : Prop :=
  exists a, relayable a /\ valset_args_of v = Some a /\
    makeCheckpoint a (state_peggyId (core p)) = state_lastValsetCheckpoint (core p).

Lemma wp_getLatestEthValset l :
  wp (getLatestEthValset l) (fun tr o => Forall (tells (valset_log clog blocks) blocks) tr ->
    forall v, o = Done (Some v, None) -> current v).
Proof using Hfo.
  set (Q := fun tr (o : outcome (option Valset * error)) => match o with
    | Done (s, None) => Forall (tells (valset_log clog blocks) blocks) tr -> forall v, s = Some v -> current v
    | _ => True
    end).
  unfold getLatestEthValset, retry. apply wp_bind. eapply (wp_mono _ Q); [apply (wp_retry _ _ _ (fun _ _ => True) Q)|].
  - done.
  - done.
  - intros tr0 s _. apply wp_bind.
    eapply wp_mono; [by apply (relayer_finds_current_set sets p clog blocks); apply Hfo|].
    intros tr o H. destruct o as [[[vs [er|]]|]|m]; cbn; rewrite ?app_nil_r; try done.
    intros Hall v ->. apply Forall_app in Hall as [_ Hall].
    destruct (H Hall) as [(v' & a & [= <-] & Ha & Hva & Hc)|[(e & m & [=])|[=]]].
    exists a. split; [|done]. apply (proj1 (Forall_forall _ _) (fo_relayable Hfo) a Ha).
  - intros tr [[s [er|]]|m] H; cbn; rewrite ?app_nil_r; try done. intros Ht v [= ->]. by apply H.
Qed.

(** Whatever a run relays, it relays with the contract's set. *)
Lemma relayed_with_current l tr v errs :
  relay_runs l tr v errs -> Forall (tells (valset_log clog blocks) blocks) tr ->
  (forall old new confs, (old, new, confs) ∈ valset_sends tr -> current old) /\
  (forall old batch confs, (old, batch, confs) ∈ batch_sends tr -> current old).
Proof using Hfo.
  intros Hr Ht. pose proof (relay_runs_allowed l tr v errs Hr) as Hall.
  assert (forall old, v = Some old -> current old) as Hcur.
  { intros old ->. inversion Hr as [|tr' v' Hg _ Htr Hv|tr0 v' ts es t g errs' Hg _ _ _ _ _ _ Htr Hv]; subst.
    - by apply (proj1 (wp_runs _ _) (wp_getLatestEthValset l) _ _ Hg Ht).
    - apply Forall_app in Ht as [Ht _]. by apply (proj1 (wp_runs _ _) (wp_getLatestEthValset l) _ _ Hg Ht). }
  split; intros old x confs Hin; apply list_elem_of_omap in Hin as ([c r] & Hev & Heq);
    destruct c; try done; injection Heq as <- <- <-; apply Hcur;
    pose proof (proj1 (Forall_forall _ _) Hall _ Hev) as [Hq|[(o & nw & cf & Hc & Hv & _)|(o & b & cf & Hc & Hv & _)]];
    cbn in *; try done; by injection Hc as -> _ _.
Qed.
End accepted.

(** ** The theorems *)
Section theorems.
Context {GE : Geth} {GK : GethKeys} {EV : Evm} {CO : Cosmos} {ES : EthSignatures} {SH : Shopspring} {SE : Selectors}.
Context {RL : RetryLib OrchI}.
Context (sets : list ValsetArgs) (p : Peggy) (clog : list ContractEvent) (blocks : list Z).

(** C1: from the contract's events back to the contract, for validator sets.  Of the contract's
    history it is assumed that no token contract called back, that no two of the sets passed have
    one checkpoint, and that each has as many powers as validators, its members in the order of
    [BridgeValidators.Sort], powers and nonce below 2^63 and a reward of 256 bits; of the node,
    that during the run of the relayer it reports exactly the contract's events of the blocks
    asked for and no head behind them.  Take any update that the run sends, for a new set with
    powers and nonce below 2^63, a reward of 256 bits, a nonce less than [MAX_NONCE_JUMP_LIMIT]
    above the found one, and more power than the threshold, with confirmations that orchestrators broadcast.  Every
    transaction that the committer submits for it goes to the contract, at no more than the
    maximal gas price.  And the contract, if it is still as the search saw it, not paused, with
    event nonces left and a threshold of at most 65.999992%, executes its data without calls back
    exactly when the reward token accepts the payment of the reward: then it emits the event of
    the new set, else it reverts. *)
Theorem relayed_update_accepted l tr v errs old new confs newA fuel e s m t :
  found_on sets p clog blocks -> relay_runs l tr v errs ->
  Forall (tells (valset_log clog blocks) blocks) tr -> (old, new, confs) ∈ valset_sends tr ->
  open (core p) -> wf_members (vs_Members new) -> small (vs_Nonce new) ->
  vs_Nonce new < vs_Nonce old + MAX_NONCE_JUMP_LIMIT ->
  valset_args_of new = Some newA -> is_u256 (va_RewardAmount newA) ->
  Forall (fun c => sent_by_orchestrator (fun from => SendValsetConfirm from (state_peggyId (core p)) new)
                     (MsgValsetConfirm_ c)) confs ->
  state_powerThreshold (core p) < sum_powers (va_Powers newA) ->
  wp (with_committer fuel (EthPeggy.SendEthValsetUpdate s old new confs) e) (fun tr _ =>
    forall tx, tx ∈ submitted tr ->
      (Committer.tx_to tx = peggyAddress s /\
       (let ops := reward_ops (msg_sender m) newA in
        exists p', execute m t (Committer.tx_data tx) p =
          if tokenOk t ops
          then Some (p', ops, [valset_event newA (state_lastEventNonce (core p) + 1)]) else None)) /\
      Committer.tx_gasPrice tx <= Committer.ethMaxGasPrice e).
Proof using SE ES.
  intros Hfo Hr Ht Hin Ho Hwn Hnn Hlim Hnew Hrn Hall Hth.
  destruct (proj1 (relayed_with_current _ _ _ _ Hfo l tr v errs Hr Ht) _ _ _ Hin) as (a & Ha & Hold & Hc).
  destruct (relayable_valset old a Ha Hold) as [Hwo Hno].
  apply (orchestrators_valset_accepted fuel e s old new confs newA a m t p); try done; [apply Ha|by apply open_ready].
Qed.

(** C2: the same for batches, with the same assumptions on history, node and contract.  Take any
    batch that a run sends, with nonce and timeout below 2^63, fewer than 2^64 transfers, amounts,
    fees and the sum of the fees of at most 256 bits, and confirmations that orchestrators broadcast.  Every transaction
    that the committer submits for it goes to the contract, at no more than the maximal gas price.
    And the contract, if it is still as the search saw it and not in a guarded call, with a last
    nonce of the token below the batch's by less than [MAX_NONCE_JUMP_LIMIT], executes its data
    before the block of the timeout, without calls back, exactly when the token accepts the
    payments: then it emits the event of the batch, else it reverts. *)
Theorem relayed_batches_accepted l tr v errs vs batch confs fuel e s m t amounts dests fees :
  found_on sets p clog blocks -> relay_runs l tr v errs ->
  Forall (tells (valset_log clog blocks) blocks) tr -> (vs, batch, confs) ∈ batch_sends tr ->
  open (core p) -> entered p = false ->
  small (BatchNonce batch) -> small (BatchTimeout batch) -> Z.of_nat (length (Transactions batch)) < 2 ^ 64 ->
  batch_values batch = Some (amounts, dests, fees) ->
  Forall is_u256 amounts -> Forall is_u256 fees -> sum_powers fees < 2 ^ 256 ->
  Forall (fun c => sent_by_orchestrator (fun from => SendBatchConfirm from (state_peggyId (core p)) batch)
                     (MsgConfirmBatch_ c)) confs ->
  0 <= lastBatchNonce (core p) (HexToAddress (TokenContract batch)) < BatchNonce batch ->
  BatchNonce batch < lastBatchNonce (core p) (HexToAddress (TokenContract batch)) + MAX_NONCE_JUMP_LIMIT ->
  block_number m < BatchTimeout batch ->
  wp (with_committer fuel (EthPeggy.SendTransactionBatch s vs batch confs) e) (fun tr _ =>
    forall tx, tx ∈ submitted tr ->
      (Committer.tx_to tx = peggyAddress s /\
       (let token := HexToAddress (TokenContract batch) in
        let ops := batch_ops (core p) (msg_sender m) token amounts dests fees in
        exists p', execute m t (Committer.tx_data tx) p =
          if tokenOk t ops
          then Some (p', ops, [EvBatchExecuted (BatchNonce batch) token (state_lastEventNonce (core p) + 1)])
          else None)) /\
      Committer.tx_gasPrice tx <= Committer.ethMaxGasPrice e).
Proof using SE ES.
  intros Hfo Hr Ht Hin Ho Hent Hn Hto Hl Hb Ham Hfe Hsum Hall Hlo Hhi Hbn.
  destruct (proj2 (relayed_with_current _ _ _ _ Hfo l tr v errs Hr Ht) _ _ _ Hin) as (a & Ha & Hold & Hc).
  destruct (relayable_valset vs a Ha Hold) as [Hwo Hno].
  apply (orchestrators_batch_accepted fuel e s vs batch confs a m t p amounts dests fees); try done;
    [apply Ha|by apply open_ready].
Qed.
End theorems.

(** ** An example: a contract with its first validator set, and one run of the relayer *)
Module Example.
#[local] Existing Instance KeystoreFacts.Example.model_keys.
#[local] Existing Instance BridgeFacts.Example.evm.
#[local] Existing Instance Broadcast.Example.cosmos.
#[local] Existing Instance Signing.Example.model_signatures.
#[local] Existing Instance Signing.Example.model_selectors.
#[local] Instance retry_lib : RetryLib OrchI := retry_loop_lib OrchI.
Import BridgeFacts.Example Signing.Example.

(** The contract after [initialize]. *)
Definition first : ValsetArgs := args 0 0 0.
Definition first_state : Peggy :=
  MkPeggy (MkContract (makeCheckpoint first 42) ∅ 0 1 42 2834678000 ∅ false) 1 1000 true false.
Definition first_log : list ContractEvent := [valset_event first 1].
Definition updates : list PeggyValsetUpdatedEvent := valset_log first_log [100].

Lemma first_found_on : found_on [first] first_state first_log [100].
Proof.
  split; [| | |done|by repeat constructor].
  - by eapply (hw_init tx_msg good_tokens 42 2834678000 [0xaa; 0xbb] [3000000000; 1294967295]).
  - split.
    + repeat constructor; cbn; unfold is_addr, is_u64; lia.
    + constructor; [|constructor]. intros ms [= <-].
      intros [|[|i]] [|[|j]] x y Hx Hy Hij; cbn in *; try lia; simplify_eq; by vm_compute.
    + intros x y ->%list_elem_of_singleton ->%list_elem_of_singleton _. done.
  - by repeat constructor.
Qed.

Lemma first_open : open (core first_state).
Proof. by split; vm_compute. Qed.

(** A relayer that relays both; Injective has a new set and a batch, with A's confirmations. *)
Definition orch : Orchestrator := MkOrchestrator (MkConfig "inj1a" 0xaa (FFin 1 0) ∅ 0 0 true true false) 10.

Definition env : handler OrchI unit := fun c _ =>
  (match c return orch_reply c with
   | GetHeaderByNumber => (Some 300, None)
   | GetValsetNonce => (Some 0, None)
   | GetValsetUpdatedEvents s e => (base.filter (fun x => s <= vue_BlockNumber x <= e) updates, None)
   | LatestValsets => ([new], None)
   | AllValsetConfirms _ => (valset_confirms, None)
   | LatestTransactionBatches => ([batch], None)
   | TransactionBatchSignatures _ _ => (batch_confirms, None)
   | GetTxBatchNonce _ => (Some 2, None)
   | GetBlock _ => (Some 10, None)
   | TimeNow => 20
   | SendEthValsetUpdate _ _ _ | SendTransactionBatch _ _ _ => (Some 9, None)
   | c => inhabitant c
   end, tt).

Definition trace_of {A} (q : prog OrchI A) : list (event OrchI) := (exec env q tt).1.2.

(** The set as the search returns it. *)
Definition found : Valset := MkValset 0 members 0 (Some 0) (Address_Hex 0).

Definition relay_trace : list (event OrchI) :=
  trace_of (getLatestEthValset orch) ++
  (trace_of (relayValsetTask orch found) ++ trace_of (relayBatchTask orch found)).

Lemma interleaving_two {A} (t1 t2 : list A) : interleaving [t1; t2] (t1 ++ t2).
Proof.
  induction t1 as [|x t1 IH]; [|by apply (interleave_step [] x t1 [t2])].
  induction t2 as [|x t2 IH]; [apply interleave_done; by repeat constructor|].
  by apply (interleave_step [[]] x t2 []).
Qed.

Lemma env_runs {A} (q : prog OrchI A) o : (exec env q tt).1.1 = o -> runs q (trace_of q) o.
Proof. intros <-. apply exec_runs. Qed.

Lemma relay_run : relay_runs orch relay_trace (Some found) [].
Proof.
  apply (relay_tasks_done orch _ found [trace_of (relayValsetTask orch found); trace_of (relayBatchTask orch found)]
           [None; None] _ (ParanoidGroup.MkGroup [] [] true [] (Some []))).
  - apply env_runs. by vm_compute.
  - done.
  - repeat constructor; apply env_runs; by vm_compute.
  - done.
  - apply interleaving_two.
  - eapply rtc_l; [apply (ParanoidGroup.task_ok [] [None])|]. eapply rtc_l; [apply (ParanoidGroup.task_ok [] [])|].
    eapply rtc_l; [apply ParanoidGroup.close_ch|]. eapply rtc_l; [apply ParanoidGroup.wait_closed|]. apply rtc_refl.
  - done.
Qed.

Lemma env_tells : Forall (tells updates [100]) relay_trace.
Proof.
  assert (forall A (q : prog OrchI A), Forall (tells updates [100]) (trace_of q)) as H.
  { intros A q. apply exec_Forall. intros c w. destruct c; try done.
    - intros b ->%list_elem_of_singleton. done.
    - intros _ x. split; [by intros [Hb Hx]%list_elem_of_filter|intros [Hx Hb]; by apply list_elem_of_filter]. }
  unfold relay_trace. by rewrite !Forall_app.
Qed.

Lemma update_relayed : (found, new, valset_confirms) ∈ valset_sends relay_trace.
Proof. assert (valset_sends relay_trace = [(found, new, valset_confirms)]) as -> by (by vm_compute). left. Qed.

Lemma batch_relayed : (found, batch, batch_confirms) ∈ batch_sends relay_trace.
Proof. assert (batch_sends relay_trace = [(found, batch, batch_confirms)]) as -> by (by vm_compute). left. Qed.

Lemma relayed_update_accepted_witness :
  wp (with_committer 5 (EthPeggy.SendEthValsetUpdate client found new valset_confirms) Committer.Example.committer)
    (fun tr _ => forall tx, tx ∈ submitted tr ->
      (Committer.tx_to tx = peggyAddress client /\
       exists p', execute tx_msg good_tokens (Committer.tx_data tx) first_state
         = Some (p', [SafeTransfer 0xbb 1 10], [valset_event (args 8 10 0xbb) 2])) /\
      Committer.tx_gasPrice tx <= Committer.ethMaxGasPrice Committer.Example.committer).
Proof.
  apply (relayed_update_accepted [first] first_state first_log [100] orch relay_trace (Some found) []
           found new valset_confirms (args 8 10 0xbb) 5 Committer.Example.committer client tx_msg good_tokens).
  - exact first_found_on.
  - exact relay_run.
  - exact env_tells.
  - exact update_relayed.
  - exact first_open.
  - exact wf.
  - done.
  - done.
  - by vm_compute.
  - done.
  - exact valset_confirms_sent.
  - by vm_compute.
Defined.

Lemma relayed_batches_accepted_witness :
  wp (with_committer 5 (EthPeggy.SendTransactionBatch client found batch batch_confirms) Committer.Example.committer)
    (fun tr _ => forall tx, tx ∈ submitted tr ->
      (Committer.tx_to tx = peggyAddress client /\
       exists p', execute tx_msg good_tokens (Committer.tx_data tx) first_state
         = Some (p', [SafeTransfer 0xbb 0xaa 50; SafeTransfer 0xbb 1 2], [EvBatchExecuted 3 0xbb 2])) /\
      Committer.tx_gasPrice tx <= Committer.ethMaxGasPrice Committer.Example.committer).
Proof.
  assert (batch_ops (core first_state) 1 (HexToAddress (TokenContract batch)) [50] [0xaa] [2] =
    [SafeTransfer 0xbb 0xaa 50; SafeTransfer 0xbb 1 2]) as <- by (by vm_compute).
  assert (HexToAddress (TokenContract batch) = 0xbb) as <- by (by vm_compute).
  apply (relayed_batches_accepted [first] first_state first_log [100] orch relay_trace (Some found) []
           found batch batch_confirms 5 Committer.Example.committer client tx_msg good_tokens [50] [0xaa] [2]).
  - exact first_found_on.
  - exact relay_run.
  - exact env_tells.
  - exact batch_relayed.
  - exact first_open.
  - done.
  - done.
  - done.
  - done.
  - by vm_compute.
  - by repeat constructor.
  - by repeat constructor.
  - by vm_compute.
  - exact batch_confirms_sent.
  - by vm_compute.
  - by vm_compute.
  - done.
Defined.
End Example.
