(* ===== verification/Keyring.v ===== *)
(** * Keyring: the orchestrator's key on the Injective side (orchestrator/cosmos/keyring.go)

    The keyring library, the key codec and the random source are the interface [KrI];
    a keyring is its handle.  [passReader], which feeds the passphrase to the library
    as often as it asks for it, is modelled with its buffer. *)
From Stdlib Require Import Init.Byte.
From S2P Require Import Prelude GoStrings Effects GoFloat Types External Model.

(** ** The pass reader *)
Module PassReader.

(** [passReader] over a [bytes.Buffer]. *)
Record passReader : Type := MkPassReader { pass : string; buf : bytes }.

Definition newPassReader (p : string) : passReader := MkPassReader p [].

(** [bytes.Buffer.Read] into a slice of length [n]: the bytes, whether io.EOF, the rest. *)
Definition buf_Read (b : bytes) (n : nat) : bytes * bool * bytes :=
  match b with
  | [] => ([], negb (n =? 0)%nat, [])
  | _ => (take n b, false, drop n b)
  end.

Definition pass_line (p : string) : bytes := (list_byte_of_string p ++ [x0a])%list.

Definition Read (r : passReader) (n : nat) : bytes * bool * passReader :=
  let '(p, eof, b) := buf_Read (buf r) n in
  if eof || (length p =? 0)%nat then
    let '(p, eof, b) := buf_Read (b ++ pass_line (pass r)) n in
    (p, eof, MkPassReader (pass r) b)
  else (p, eof, MkPassReader (pass r) b).

(** Reads of the given sizes: what each returns. *)
Fixpoint reads (r : passReader) (ns : list nat) : list (bytes * bool) * passReader :=
  match ns with
  | [] => ([], r)
  | n :: ns =>
      let '(p, eof, r) := Read r n in
      let '(ps, r) := reads r ns in ((p, eof) :: ps, r)
  end.

Definition lines (p : string) (k : nat) : bytes := concat (repeat (pass_line p) k).

Lemma lines_add p j k : (lines p j ++ lines p k)%list = lines p (j + k).
Proof. unfold lines. by rewrite <- concat_app, <- repeat_app. Qed.

Lemma buf_Read_spec b n :
  exists p b', buf_Read b n = (p, (length b =? 0)%nat && negb (n =? 0)%nat, b') /\
    b = (p ++ b')%list /\ (b <> [] -> length p = Nat.min n (length b)).
Proof.
  destruct b as [|x b]; [by eexists [], []|]. eexists _, _. split; [done|].
  split; [by rewrite take_drop|]. intros _. by rewrite length_take.
Qed.

Lemma Read_spec r n :
  exists p b' k, Read r n = (p, false, MkPassReader (pass r) b') /\
    (buf r ++ lines (pass r) k)%list = (p ++ b')%list /\ (n <> O -> p <> []).
Proof.
  unfold Read. destruct (buf_Read_spec (buf r) n) as (p & b & -> & Hb & Hlen).
  destruct ((length (buf r) =? 0)%nat && negb (n =? 0)%nat || (length p =? 0)%nat) eqn:Hc.
  - assert (Hne : (b ++ pass_line (pass r))%list <> [])
      by (unfold pass_line; intros H; apply app_eq_nil in H as [_ H]; by apply app_eq_nil in H as [_ H]).
    destruct (buf_Read_spec (b ++ pass_line (pass r)) n) as (p2 & b2 & -> & Hb2 & Hlen2).
    specialize (Hlen2 Hne).
    assert (Hp : p = []).
    { apply orb_true_iff in Hc as [[Hl%Nat.eqb_eq _]%andb_true_iff|Hl%Nat.eqb_eq].
      - apply length_zero_iff_nil in Hl. rewrite Hl in Hb. symmetry in Hb. by apply app_eq_nil in Hb as [-> _].
      - by apply length_zero_iff_nil in Hl. }
    subst p. cbn [app] in Hb. subst b. exists p2, b2, 1%nat.
    rewrite (proj2 (Nat.eqb_neq _ 0%nat)) by (by destruct (buf r ++ _)%list). split; [done|]. split.
    + unfold lines. cbn [repeat concat]. by rewrite app_nil_r.
    + intros Hn ->. cbn [length] in Hlen2. destruct (buf r ++ _)%list; cbn in Hlen2; [done|lia].
  - apply orb_false_iff in Hc as [-> Hl%Nat.eqb_neq]. exists p, b, 0%nat. split; [done|].
    unfold lines. cbn [repeat concat]. rewrite app_nil_r. split; [done|]. intros _ ->. done.
Qed.

Lemma reads_pass r ns : pass (reads r ns).2 = pass r.
Proof.
  revert r. induction ns as [|n ns IH]; intros r; [done|]. cbn [reads].
  destruct (Read_spec r n) as (p & b & k & -> & _). specialize (IH (MkPassReader (pass r) b)).
  by destruct (reads _ ns) as [ps r'].
Qed.

Lemma reads_stream r ns :
  exists k, (buf r ++ lines (pass r) k)%list = (concat (map fst (reads r ns).1) ++ buf (reads r ns).2)%list /\
    Forall2 (fun n q => q.2 = false /\ (n <> O -> q.1 <> [])) ns (reads r ns).1.
Proof.
  revert r. induction ns as [|n ns IH]; intros r.
  { exists 0%nat. cbn. by rewrite app_nil_r. }
  cbn [reads]. destruct (Read_spec r n) as (p & b & k & -> & Hb & Hne).
  destruct (IH (MkPassReader (pass r) b)) as (k' & Hk & Hf). destruct (reads _ ns) as [ps r'].
  exists (k + k')%nat. cbn [map concat fst snd buf pass] in *. split; [|by constructor].
  by rewrite <- lines_add, app_assoc, Hb, <- !app_assoc, Hk.
Qed.

(** However the passphrase reader is read, what it has returned is a prefix of the
    passphrase lines repeated, it never reports the end of the input, and a read of a
    positive size returns at least one byte. *)
Lemma passReader_stream p ns :
  exists k rest, lines p k = (concat (map fst (reads (newPassReader p) ns).1) ++ rest)%list /\
    Forall2 (fun n q => q.2 = false /\ (n <> O -> q.1 <> [])) ns (reads (newPassReader p) ns).1.
Proof. destruct (reads_stream (newPassReader p) ns) as (k & Hk & Hf). exists k, (buf (reads (newPassReader p) ns).2). exact (conj Hk Hf). Qed.

End PassReader.
Import PassReader.

(** ** The keyring *)
Definition DefaultKeyName : string := "validator".

(** [KeyringConfig] *)
Record KeyringConfig : Type := MkKeyringConfig {
  KeyringDir : string;
  KeyringAppName : string;
  KeyringBackend : string;
  KeyFrom : string;
  KeyPassphrase : string;
  PrivateKey : string;
  UseLedger : bool
}.

Definition withPrivateKey (cfg : KeyringConfig) : bool := negb (String.length (PrivateKey cfg) =? 0)%nat.

(** [keyring.Record]: its name, its type and the address that [GetAddress] computes. *)
Inductive KeyType : Type := TypeLocal | TypeLedger | TypeOffline | TypeMulti.

#[global] Instance KeyType_eq_dec : EqDecision KeyType.
Proof. solve_decision. Defined.

Record keyRecord : Type := MkKeyRecord {
  kr_Name : string;
  kr_Type : KeyType;
  kr_Address : bytes + err
}.

(** The SDK's addresses and key armor. [None] is the panic on a key of a wrong length. *)
Class CosmosKeys : Type := {
  PubKey_Address : bytes -> option bytes;
  bech32_decode : string -> bytes + err;
  bech32_encode : bytes -> string;
  EncryptArmorPrivKey : bytes -> string -> string;
  KeyType_String : KeyType -> string
}.

Inductive kr_cmd : Type :=
  | FilepathAbs (dir : string)
  | RandRead (size : nat)
  | NewInMemory
  | KeyringNew (appName backend dir : string) (reader : option passReader)
  | ImportPrivKey (kr : Z) (name armor phrase : string)
  | KrKey (kr : Z) (name : string)
  | KrKeyByAddress (kr : Z) (addr : bytes).

Definition kr_reply (c : kr_cmd) : Type :=
  match c with
  | FilepathAbs _ => string * error
  | RandRead _ => bytes * error
  | NewInMemory => Z
  | KeyringNew _ _ _ _ => Z + err
  | ImportPrivKey _ _ _ _ => error
  | KrKey _ _ | KrKeyByAddress _ _ => keyRecord + err
  end.

Definition KrI : Iface := MkIface kr_cmd kr_reply.
Definition krcall (c : kr_cmd) : prog KrI (kr_reply c) := @call KrI c.

(** [Keyring]: the embedded keyring and the address. *)
Record Keyring_ : Type := MkKeyring { kr_handle : Z; Addr : bytes }.

Section keyring.
Context {CK : CosmosKeys}.

Definition randPhrase (size : nat) : prog KrI string :=
  '(buf, err) ← krcall (RandRead size);
  match err with
  | Some _ => Panic (PanicValue "rand failed")
  | None => mret (string_of_list_byte buf)
  end.

(** The name under which the key is stored, or the mismatch error. *)
Definition memory_key_name (cfg : KeyringConfig) (cosmosAddr : bytes) : string + err :=
  if negb (String.length (KeyFrom cfg) =? 0)%nat then
    match bech32_decode (KeyFrom cfg) with
    | inr _ => inl (KeyFrom cfg)
    | inl from =>
        if negb (bool_decide (from = cosmosAddr))
        then inr (ErrNew ("expected account address " ++ bech32_encode from ++ " but got "
                            ++ bech32_encode cosmosAddr ++ " from the private key"))
        else inl DefaultKeyName
    end
  else inl DefaultKeyName.

Definition newInMemoryKeyring (cfg : KeyringConfig) : prog KrI (Keyring_ + err) :=
  if UseLedger cfg then mret (inr (ErrNew "cannot use both private key and Ledger"))
  else
    let pk := PrivateKey cfg in
    let pk := if strings_HasPrefix pk "0x" then strings_TrimPrefix pk "0x" else pk in
    match hex_DecodeString pk with
    | inr e => mret (inr (ErrWrap e "invalid private key"))
    | inl pkRaw =>
        cosmosAddr ← deref (PubKey_Address pkRaw);
        match memory_key_name cfg cosmosAddr with
        | inr e => mret (inr e)
        | inl keyName =>
            tmpPhrase ← randPhrase 64;
            let armored := EncryptArmorPrivKey pkRaw tmpPhrase in
            kr ← krcall NewInMemory;
            err ← krcall (ImportPrivKey kr keyName armored tmpPhrase);
            match err with
            | Some e => mret (inr (ErrWrap e "failed to import private key"))
            | None => mret (inl (MkKeyring kr cosmosAddr))
            end
        end
    end.

Definition record_keyring (kr : Z) (r : keyRecord) : Keyring_ + err :=
  match kr_Address r with
  | inr e => inr (ErrWrap e "failed to get address from key record")
  | inl addr => inl (MkKeyring kr addr)
  end.

(** The switch over the type of the record. *)
Definition accept_record (cfg : KeyringConfig) (kr : Z) (keyRecord : keyRecord) : Keyring_ + err :=
  match kr_Type keyRecord with
  | TypeLocal => record_keyring kr keyRecord
  | TypeLedger =>
      if negb (UseLedger cfg)
      then inr (ErrNew ("key " ++ kr_Name keyRecord ++ " is a Ledger reference, enable Ledger option"))
      else record_keyring kr keyRecord
  | t => inr (ErrNew ("unsupported key type: " ++ KeyType_String t))
  end.

Definition newKeyringFromDir (cfg : KeyringConfig) : prog KrI (Keyring_ + err) :=
  if (String.length (KeyFrom cfg) =? 0)%nat then mret (inr (ErrNew "insufficient cosmos details provided"))
  else
    '(keyringDir, err) ← if negb (filepath_IsAbs (KeyringDir cfg))
                         then krcall (FilepathAbs (KeyringDir cfg)) else mret (KeyringDir cfg, None);
    match err with
    | Some e => mret (inr (ErrWrap e "failed to get absolute path of keyring dir"))
    | None =>
        let reader := if negb (String.length (KeyPassphrase cfg) =? 0)%nat
                      then Some (newPassReader (KeyPassphrase cfg)) else None in
        kr ← krcall (KeyringNew (KeyringAppName cfg) (KeyringBackend cfg) keyringDir reader);
        match kr with
        | inr e => mret (inr (ErrWrap e "failed to initialize cosmos keyring"))
        | inl kr =>
            r ← match bech32_decode (KeyFrom cfg) with
                | inr _ => krcall (KrKey kr (KeyFrom cfg))
                | inl cosmosAddr => krcall (KrKeyByAddress kr cosmosAddr)
                end;
            mret match r with
            | inr e => inr e
            | inl keyRecord => accept_record cfg kr keyRecord
            end
        end
    end.

Definition NewKeyring (cfg : KeyringConfig) : prog KrI (Keyring_ + err) :=
  if withPrivateKey cfg then newInMemoryKeyring cfg else newKeyringFromDir cfg.

(** ** Which key the orchestrator gets *)

(** The address of a hex private key, with or without 0x. *)
Definition privkey_address (pk : string) : option bytes :=
  match hex_DecodeString (if strings_HasPrefix pk "0x" then strings_TrimPrefix pk "0x" else pk) with
  | inl raw => PubKey_Address raw
  | inr _ => None
  end.

(** The record that a trace looked up. *)
Definition looked_up (kr : Z) (from : string) (r : keyRecord) (tr : list (event KrI)) : Prop :=
  match bech32_decode from with
  | inl a => @Ev KrI (KrKeyByAddress kr a) (inl r) ∈ tr
  | inr _ => @Ev KrI (KrKey kr from) (inl r) ∈ tr
  end.

Lemma accept_record_inl cfg kr r k :
  accept_record cfg kr r = inl k ->
  kr_handle k = kr /\ kr_Address r = inl (Addr k) /\
  (kr_Type r = TypeLocal \/ kr_Type r = TypeLedger /\ UseLedger cfg = true).
Proof.
  unfold accept_record, record_keyring. destruct (kr_Type r), (UseLedger cfg), (kr_Address r);
    try done; intros [= <-]; auto.
Qed.

(** The key ring that is set up holds the configured key.  With a private key it is
    that key's address, equal to the from address when one is given, and no Ledger is
    enabled; otherwise it is the address of the record found under the from name or
    address, which is a local key, or a Ledger reference when Ledger is enabled. *)
Lemma NewKeyring_key cfg :
  wp (NewKeyring cfg) (fun tr o => forall k, o = Done (inl k) ->
    if withPrivateKey cfg then
      UseLedger cfg = false /\ privkey_address (PrivateKey cfg) = Some (Addr k) /\
      (KeyFrom cfg <> ""%string -> forall from, bech32_decode (KeyFrom cfg) = inl from -> Addr k = from)
    else exists r, looked_up (kr_handle k) (KeyFrom cfg) r tr /\ kr_Address r = inl (Addr k) /\
      (kr_Type r = TypeLocal \/ kr_Type r = TypeLedger /\ UseLedger cfg = true)).
Proof.
  unfold NewKeyring. destruct (withPrivateKey cfg).
  - unfold newInMemoryKeyring, privkey_address. destruct (UseLedger cfg); [done|].
    destruct (hex_DecodeString _) as [raw|e]; [|done].
    destruct (PubKey_Address raw) as [addr|]; [|done]. cbn.
    destruct (memory_key_name cfg addr) as [name|e] eqn:Hname; [|done].
    intros [buf [e|]]; [done|]. intros kr [e|]; [done|]. intros k [= <-]. split; [done|]. split; [done|].
    intros Hf from Hfrom. unfold memory_key_name in Hname.
    destruct (KeyFrom cfg) as [|c s]; [done|]. cbn [String.length Nat.eqb negb] in Hname.
    rewrite Hfrom in Hname. by case_bool_decide.
  - unfold newKeyringFromDir, looked_up. case_match; [done|]. apply wp_bind, wp_runs.
    intros tr0 [[dir [e|]]|v] _; [done| |done]. intros [kr|e]; [|done].
    destruct (bech32_decode (KeyFrom cfg)) as [a|e]; intros [r|e']; try done; cbn;
      intros k [= (-> & Ha & Ht)%accept_record_inl]; exists r;
      (split; [apply elem_of_app; right; right; left|done]).
Qed.

End keyring.
