(* ===== verification/CosmosNet.v ===== *)
(** * CosmosNet: the connection to the Injective chain

    [orchestrator/cosmos/network.go]: end points, set-up, waiting for the connection,
    and the query for a registered orchestrator. *)
From S2P Require Import Prelude GoStrings Effects GoFloat Types External Model Interfaces.

(** ** End points *)

(** [clientcommon.Network] of the SDK, and its predefined networks. *)
Record Network : Type := MkNetwork {
  net_Name : string;
  net_ChainId : string;
  net_FeeDenom : string;
  net_TmEndpoint : string;
  net_ChainGrpcEndpoint : string;
  net_ExplorerGrpcEndpoint : string;
  net_LcdEndpoint : string
}.

Class ClientCommon : Type := { LoadNetwork : string -> string -> Network }.

(** [NetworkConfig] *)
Record NetworkConfig : Type := MkNetworkConfig {
  ChainID : string;
  ValidatorAddress : string;
  CosmosGRPC : string;
  TendermintRPC : string;
  GasPrice : string
}.

(** ** Interface: the chain client of the SDK and the clock *)
Inductive ConnState : Type := Idle | Connecting | Ready | TransientFailure | Shutdown.

Inductive cn_cmd : Type :=
  | NewClientContext (chainId validatorAddress : string)
  | CometHTTP (endpoint : string)
  | NewChainClient (net : Network) (gasPrices : string)
  | NewRPCClient (endpoint : string)
  | CtxDone (timeout : Z)
  | GetState
  | CnSleep (d : Z).

Definition cn_reply (c : cn_cmd) : Type :=
  match c with
  | NewClientContext _ _ | CometHTTP _ | NewChainClient _ _ | NewRPCClient _ => error
  | CtxDone _ => bool
  | GetState => ConnState
  | CnSleep _ => unit
  end.

Definition CnI : Iface := MkIface cn_cmd cn_reply.
Definition cncall (c : cn_cmd) : prog CnI (cn_reply c) := @call CnI c.

Section network.
Context {CC : ClientCommon}.

Definition customEndpoints (cfg : NetworkConfig) : Network :=
  let c := LoadNetwork "devnet" "" in
  MkNetwork "custom" (ChainID cfg) "inj" (TendermintRPC cfg) (CosmosGRPC cfg) "" "".

Definition errNoProvider (cfg : NetworkConfig) : panicv :=
  PanicError (ErrNew ("no provider for chain id " ++ ChainID cfg)).

Definition loadBalancedEndpoints {I} (cfg : NetworkConfig) : prog I Network :=
  networkName ←
    if String.eqb (ChainID cfg) "injective-1" then mret "mainnet"%string
    else if String.eqb (ChainID cfg) "injective-777" then mret "devnet"%string
    else if String.eqb (ChainID cfg) "injective-888" then mret "testnet"%string
    else Panic (errNoProvider cfg);
  mret (LoadNetwork networkName "lb").

Definition loadClientConfig {I} (cfg : NetworkConfig) : prog I Network :=
  if negb (String.eqb (CosmosGRPC cfg) "") && negb (String.eqb (TendermintRPC cfg) "")
  then mret (customEndpoints cfg)
  else loadBalancedEndpoints cfg.

(** [awaitConnection]: [fuel] bounds the turns of the loop; [Fatalln] ends the process. *)
Definition wait_timed_out : panicv := PanicValue "GRPC service wait timed out".
Definition out_of_turns : panicv := PanicValue "awaitConnection: turns".

Fixpoint awaitConnection (fuel : nat) (timeout : Z) : prog CnI unit :=
  match fuel with
  | O => Panic out_of_turns
  | S fuel =>
      done ← cncall (CtxDone timeout);
      if done : bool then Panic wait_timed_out
      else
        state ← cncall GetState;
        match state with
        | Ready => mret tt
        | _ => _ ← cncall (CnSleep (5 * Second)); awaitConnection fuel timeout
        end
  end.

(** The turns that one minute allows. *)
Definition await_turns : nat := 13.

(** [NewNetwork]: the end points that the three clients use, or an error. *)
Definition NewNetwork (cfg : NetworkConfig) : prog CnI (Network + err) :=
  clientCfg ← loadClientConfig cfg;
  err ← cncall (NewClientContext (net_ChainId clientCfg) (ValidatorAddress cfg));
  match err with
  | Some e => mret (inr e)
  | None =>
      err ← cncall (CometHTTP (net_TmEndpoint clientCfg));
      match err with
      | Some e => mret (inr e)
      | None =>
          err ← cncall (NewChainClient clientCfg (GasPrice cfg));
          match err with
          | Some e => mret (inr e)
          | None =>
              _ ← cncall (CnSleep (1 * Second));
              _ ← awaitConnection await_turns (1 * Minute);
              err ← cncall (NewRPCClient (net_TmEndpoint clientCfg));
              match err with
              | Some _ => Panic (PanicValue "failed to init rpcClient")
              | None => mret (inl clientCfg)
              end
          end
      end
  end.

(** ** Waiting ends *)

(** What a trace has slept since it began. *)
Definition slept (tr : list (event CnI)) : Z :=
  foldr (fun ev acc => match ev with existT (CnSleep d) _ => d + acc | _ => acc end) 0 tr.

(** The context is done once the time-out has passed. *)
Definition honest_clock (tr : list (event CnI)) : Prop :=
  forall pre timeout b post, tr = pre ++ @Ev CnI (CtxDone timeout) b :: post ->
    timeout <= slept pre -> b = true.

Lemma slept_app tr tr' : slept (tr ++ tr') = slept tr + slept tr'.
Proof.
  induction tr as [|[c r] tr IH]; [done|]. cbn [slept foldr app] in *. unfold slept in *.
  cbn [foldr app]. destruct c; lia.
Qed.

Lemma wp_awaitConnection fuel timeout pre :
  timeout <= slept pre + 5 * Second * (Z.of_nat fuel - 1) -> (0 < fuel)%nat ->
  wp (awaitConnection fuel timeout) (fun tr o => honest_clock (pre ++ tr) ->
    (o = Done tt /\ last tr = Some (@Ev CnI GetState Ready)) \/
    (o = Crashed wait_timed_out /\ last tr = Some (@Ev CnI (CtxDone timeout) true))).
Proof.
  unfold Second in *. revert pre. induction fuel as [|fuel IH]; intros pre Hle Hf; [lia|].
  cbn [awaitConnection]. intros []; cbn; [by right|]. intros state.
  assert (Hgo : wp (awaitConnection fuel timeout)
    (fun tr o => honest_clock (pre ++ [@Ev CnI (CtxDone timeout) false; @Ev CnI GetState state;
       @Ev CnI (CnSleep (5 * Second)) tt] ++ tr) ->
     (o = Done tt /\ last tr = Some (@Ev CnI GetState Ready)) \/
     (o = Crashed wait_timed_out /\ last tr = Some (@Ev CnI (CtxDone timeout) true)))).
  { destruct fuel as [|fuel].
    - cbn. intros H. specialize (H pre timeout false _ eq_refl). assert (timeout <= slept pre) by lia.
      by specialize (H ltac:(done)).
    - eapply wp_mono; [apply (IH (pre ++ [@Ev CnI (CtxDone timeout) false; @Ev CnI GetState state;
        @Ev CnI (CnSleep (5 * Second)) tt])); [|lia]|].
      + rewrite slept_app. unfold slept at 2, Ev, Second. cbn [foldr]. lia.
      + intros tr o H Hh. apply H. by rewrite <- app_assoc. }
  destruct state; cbn; try (intros []; eapply wp_mono; [exact Hgo|]; intros tr o H Hh;
    specialize (H Hh); by destruct tr; [destruct H as [[_ ?]|[_ ?]]|]).
  by left.
Qed.

(** If the context is done once its minute has passed, waiting for the connection
    ends within the thirteen turns of the loop: the last state was ready, or the
    process ends because the context was done. *)
Lemma awaitConnection_ends :
  wp (awaitConnection await_turns (1 * Minute)) (fun tr o => honest_clock tr ->
    (o = Done tt /\ last tr = Some (@Ev CnI GetState Ready)) \/
    (o = Crashed wait_timed_out /\ last tr = Some (@Ev CnI (CtxDone (1 * Minute)) true))).
Proof. apply (wp_awaitConnection await_turns (1 * Minute) []); [done|unfold await_turns; lia]. Qed.

(** The end points are the configured ones when both are given, otherwise those of
    the load balancer of the network with that chain id; for any other chain id the
    set-up panics before it calls anything. *)
Lemma loadClientConfig_spec cfg :
  wp (I:=CnI) (loadClientConfig cfg) (fun tr o => tr = [] /\
    if negb (String.eqb (CosmosGRPC cfg) "") && negb (String.eqb (TendermintRPC cfg) "") then
      exists n, o = Done n /\ net_ChainId n = ChainID cfg /\ net_TmEndpoint n = TendermintRPC cfg /\
        net_ChainGrpcEndpoint n = CosmosGRPC cfg
    else (exists name, (ChainID cfg, name) ∈ [("injective-1", "mainnet"); ("injective-777", "devnet");
            ("injective-888", "testnet")]%string /\ o = Done (LoadNetwork name "lb")) \/
         (ChainID cfg ∉ ["injective-1"; "injective-777"; "injective-888"]%string /\
          o = Crashed (errNoProvider cfg))).
Proof.
  unfold loadClientConfig. destruct (negb _ && negb _).
  { split; [done|]. eexists. split; [done|]. done. }
  unfold loadBalancedEndpoints.
  destruct (String.eqb_spec (ChainID cfg) "injective-1") as [->|H1].
  { split; [done|]. left. eexists. split; [by left|done]. }
  destruct (String.eqb_spec (ChainID cfg) "injective-777") as [->|H2].
  { split; [done|]. left. eexists. split; [by right; left|done]. }
  destruct (String.eqb_spec (ChainID cfg) "injective-888") as [->|H3].
  { split; [done|]. left. eexists. split; [by right; right; left|done]. }
  split; [done|]. right. split; [|done]. set_solver.
Qed.

(** [HasRegisteredOrchestrator]: any failure of the query counts as not registered. *)
Definition HasRegisteredOrchestrator (ethAddr : Address) : prog OrchI (option AccAddress * bool) :=
  '(validator, err) ← ocall (GetValidatorAddress ethAddr);
  match err with
  | Some _ => mret (None, false)
  | None => mret (validator, true)
  end.

End network.
