(* ===== verification/Tendermint.v ===== *)
(** * Tendermint: blocks and transactions of the chain (orchestrator/cosmos/tendermint/client.go)

    [tmClient] over the RPC client of CometBFT.  Of the results the model keeps what the
    client reads; the rest is opaque. *)
From S2P Require Import Prelude GoStrings Effects GoFloat Types External Model.

(** The results of the RPC client. *)
Class CometTypes : Type := {
  ResultTx : Type;
  ResultValidators : Type;
  TmTx : Type;
  Tx_Hash : TmTx -> bytes
}.

Section tendermint.
Context {CT : CometTypes}.

(** [ResultBlock]: its transactions (a nil inner block is None). *)
Record ResultBlock : Type := MkResultBlock { rb_Txs : option (list TmTx) }.

Inductive tm_cmd : Type :=
  | Block (height : Z)
  | Status
  | TxByHash (hash : bytes)
  | Validators (height : Z).

Definition tm_reply (c : tm_cmd) : Type :=
  match c with
  | Block _ => option ResultBlock * error
  | Status => option Z * error
  | TxByHash _ => ResultTx + err
  | Validators _ => option ResultValidators * error
  end.

Definition TmI : Iface := MkIface tm_cmd tm_reply.
Definition tmcall (c : tm_cmd) : prog TmI (tm_reply c) := @call TmI c.

(** [GetBlock] *)
Definition GetBlock (height : Z) : prog TmI (option ResultBlock * error) := tmcall (Block height).

(** [GetLatestBlockHeight] *)
Definition GetLatestBlockHeight : prog TmI (Z * error) :=
  '(status, err) ← tmcall Status;
  match err with
  | Some _ => mret (-1, err)
  | None => height ← deref status; mret (height, None)
  end.

(** The loop of [GetTxs]. *)
Definition GetTxs_body (tmTx : TmTx) (txs : list ResultTx) : prog TmI (list ResultTx + err) :=
  tx ← tmcall (TxByHash (Tx_Hash tmTx));
  match tx with
  | inr e => if strings_HasSuffix (err_Error e) "not found" then mret (inl txs) else mret (inr e)
  | inl tx => mret (inl (txs ++ [tx]))
  end.

(** [GetTxs] *)
Definition GetTxs (block : option ResultBlock) : prog TmI (list ResultTx * error) :=
  block ← deref block;
  blockTxs ← deref (rb_Txs block);
  res ← prog_for blockTxs [] GetTxs_body;
  mret match res with
       | inl txs => (txs, None)
       | inr e => ([], Some e)
       end.

(** [GetValidatorSet] *)
Definition GetValidatorSet (height : Z) : prog TmI (option ResultValidators * error) :=
  tmcall (Validators height).

(** ** What [GetTxs] returns *)

(** The query for a transaction and its answer. *)
Definition tx_event (tx : TmTx) (r : ResultTx + err) : event TmI := @Ev TmI (TxByHash (Tx_Hash tx)) r.

Definition absent (r : ResultTx + err) : bool :=
  match r with inr e => strings_HasSuffix (err_Error e) "not found" | inl _ => false end.

(** The answers that the loop passes, and the transactions it keeps of them. *)
Definition passes (r : ResultTx + err) : Prop := absent r = true \/ exists tx, r = inl tx.
Definition kept (rs : list (ResultTx + err)) : list ResultTx :=
  omap (fun r : ResultTx + err => match r with inl tx => Some tx | inr _ => None end) rs.

Lemma wp_GetTxs_loop (txs : list TmTx) :
  wp (prog_for txs [] GetTxs_body) (fun tr o =>
    exists pre rs, tr = zip_with tx_event pre rs /\ length rs = length pre /\
      match o with
      | Done (inl l) => pre = txs /\ Forall passes rs /\ l = kept rs
      | Done (inr e) => exists rs', rs = rs' ++ [inr e] /\ Forall passes rs' /\ absent (inr e) = false /\
          exists post, txs = pre ++ post
      | Crashed _ => False
      end).
Proof.
  apply (wp_for txs [] GetTxs_body (fun pre tr l => exists rs,
    tr = zip_with tx_event pre rs /\ length rs = length pre /\ Forall passes rs /\ l = kept rs)).
  - by exists [].
  - intros pre tx post tr l -> (rs & -> & Hlen & Hp & ->) r.
    assert (Htr : zip_with tx_event pre rs ++ [tx_event tx r] = zip_with tx_event (pre ++ [tx]) (rs ++ [r]))
      by (by rewrite zip_with_app by done).
    assert (Hl : length (rs ++ [r]) = length (pre ++ [tx])) by (rewrite !length_app; cbn; lia).
    assert (Hk : kept (rs ++ [r]) = kept rs ++ kept [r]) by apply omap_app.
    destruct r as [tx'|e]; cbn.
    + exists (rs ++ [inl tx']). split; [exact Htr|]. split; [done|].
      split; [|symmetry; exact Hk]. apply Forall_app. split; [done|]. constructor; [by right; eexists|done].
    + destruct (strings_HasSuffix (err_Error e) "not found") eqn:Hs; cbn.
      * exists (rs ++ [inr e]). split; [exact Htr|]. split; [done|].
        split; [|etransitivity; [|symmetry; exact Hk]; symmetry; apply app_nil_r]. apply Forall_app. split; [done|]. constructor; [by left|done].
      * exists (pre ++ [tx]), (rs ++ [inr e]). split; [exact Htr|]. split; [done|].
        exists rs. split; [done|]. split; [done|]. split; [done|]. exists post. by rewrite <- app_assoc.
  - intros tr l (rs & -> & Hlen & Hp & ->). exists txs, rs. done.
Qed.

(** [GetTxs] asks for the transactions of the block in order; it returns, in that
    order, every one that is answered, leaving out those that are reported as not
    found; at the first other error it stops and returns that error and no
    transactions. *)
Lemma GetTxs_spec txs :
  wp (GetTxs (Some (MkResultBlock (Some txs)))) (fun tr o =>
    exists pre rs, tr = zip_with tx_event pre rs /\ length rs = length pre /\
      ((o = Done (kept rs, None) /\ pre = txs /\ Forall passes rs) \/
       (exists e rs', o = Done ([], Some e) /\ rs = rs' ++ [inr e] /\ Forall passes rs' /\
          absent (inr e) = false /\ exists post, txs = pre ++ post))).
Proof.
  cbn [GetTxs deref]. apply (wp_bind (prog_for txs [] GetTxs_body)).
  eapply wp_mono; [apply wp_GetTxs_loop|].
  intros tr [[l|e]|v] (pre & rs & -> & Hlen & H); [| |done]; cbn; rewrite app_nil_r; exists pre, rs;
    (split; [done|]); (split; [done|]).
  - destruct H as (-> & Hp & ->). by left.
  - destruct H as (rs' & -> & Hp & Ha & Hpost). right. by exists e, rs'.
Qed.

End tendermint.
