(* ===== verification/Provider.v ===== *)
(** * Provider: the EVM provider and bound contracts

    [orchestrator/ethereum/provider/provider.go] (sending with the returned hash,
    [TransactFn]) and [orchestrator/ethereum/util/contract.go] ([BoundContract]).  The
    node's RPC is the interface [RpcI]; transactions, RLP and ABI packing are
    go-ethereum's. *)
From S2P Require Import Prelude Effects GoFloat Types External Model.

(** [ethereum.CallMsg] *)
Record CallMsg : Type := MkCallMsg {
  msg_From : Address;
  msg_To : option Address;
  msg_GasPrice : Z;
  msg_Value : Z;
  msg_Data : bytes
}.

(** The content of an unsigned legacy transaction; [To] is nil for a creation. *)
Record RawTx : Type := MkRawTx {
  rt_Nonce : Z;
  rt_To : option Address;
  rt_Value : Z;
  rt_GasLimit : Z;
  rt_GasPrice : Z;
  rt_Data : bytes
}.

Class GethTx : Type := {
  SignedTx : Type;
  rlp_EncodeToBytes : SignedTx -> bytes + err;
  hexutil_Encode : bytes -> string
}.

Section provider.
Context {GT : GethTx}.

(** [bind.TransactOpts]; a nil [Signer], [Nonce], [GasPrice] or [Value] is None. *)
Record TransactOpts : Type := MkTransactOpts {
  From_ : Address;
  Nonce : option Z;
  Signer : option (Address -> RawTx -> SignedTx + err);
  Value : option Z;
  GasPrice : option Z;
  GasLimit : Z
}.

Inductive rpc_cmd : Type :=
  | CallContext (method param : string)
  | PendingNonceAt (account : Address)
  | SuggestGasPrice
  | PendingCodeAt (account : Address)
  | EstimateGas (msg : CallMsg).

Definition rpc_reply (c : rpc_cmd) : Type :=
  match c with
  | CallContext _ _ => Hash * error
  | PendingNonceAt _ | SuggestGasPrice | EstimateGas _ => Z * error
  | PendingCodeAt _ => bytes * error
  end.

Definition RpcI : Iface := MkIface rpc_cmd rpc_reply.
Definition rcall (c : rpc_cmd) : prog RpcI (rpc_reply c) := @call RpcI c.

(** [SendTransactionWithRet] *)
Definition SendTransactionWithRet (tx : SignedTx) : prog RpcI (Hash * error) :=
  match rlp_EncodeToBytes tx with
  | inr e => mret (0, Some e)
  | inl data =>
      '(txHash, err) ← rcall (CallContext "eth_sendRawTransaction" (hexutil_Encode data));
      match err with
      | Some _ => mret (0, err)
      | None => mret (txHash, None)
      end
  end.

Definition ErrNoCode : err := ErrNew "no contract code at given address".
Definition errNoSigner : err := ErrNew "no signer to authorize the transaction with".
Definition failed_to (what : string) (e : err) : error := Some (ErrNew ("failed to " ++ what ++ ": " ++ err_Error e)).

Definition pick_nonce (opts : TransactOpts) : prog RpcI (Z * error) :=
  match Nonce opts with
  | None =>
      '(nonce, err) ← rcall (PendingNonceAt (From_ opts));
      mret match err with Some e => (0, failed_to "retrieve account nonce" e) | None => (nonce, None) end
  | Some n => mret (big_Uint64 n, None)
  end.

Definition pick_gasPrice (opts : TransactOpts) : prog RpcI (Z * error) :=
  match GasPrice opts with
  | None =>
      '(gasPrice, err) ← rcall SuggestGasPrice;
      mret match err with Some e => (0, failed_to "suggest gas price" e) | None => (gasPrice, None) end
  | Some p => mret (p, None)
  end.

Definition pick_gasLimit (contractAddress : Address) (opts : TransactOpts) (contract : option Address)
    (gasPrice value : Z) (input : bytes) : prog RpcI (Z * error) :=
  if negb (GasLimit opts =? 0) then mret (GasLimit opts, None)
  else
    err ← match contract with
          | Some _ =>
              '(code, err) ← rcall (PendingCodeAt contractAddress);
              mret match err with
                   | Some _ => err
                   | None => if (length code =? 0)%nat then Some ErrNoCode else None
                   end
          | None => mret None
          end;
    match err with
    | Some _ => mret (0, err)
    | None =>
        '(gasLimit, err) ← rcall (EstimateGas (MkCallMsg (From_ opts) contract gasPrice value input));
        mret match err with
             | Some e => (0, failed_to "estimate gas needed" e)
             | None => (gasLimit, None)
             end
    end.

(** [TransactFn]: the closure; its result is the signed transaction, an error, and what
    it stores in [txHashOut] (None: nothing). *)
Definition TransactFn (contractAddress : Address) (opts : TransactOpts) (contract : option Address)
    (input : bytes) : prog RpcI (option SignedTx * error * option Hash) :=
  let value := default 0 (Value opts) in
  '(nonce, err) ← pick_nonce opts;
  match err with
  | Some _ => mret (None, err, None)
  | None =>
      '(gasPrice, err) ← pick_gasPrice opts;
      match err with
      | Some _ => mret (None, err, None)
      | None =>
          '(gasLimit, err) ← pick_gasLimit contractAddress opts contract gasPrice value input;
          match err with
          | Some _ => mret (None, err, None)
          | None =>
              let to := match contract with None => None | Some _ => Some contractAddress end in
              let rawTx := MkRawTx nonce to value gasLimit gasPrice input in
              match Signer opts with
              | None => mret (None, Some errNoSigner, None)
              | Some signer =>
                  match signer (From_ opts) rawTx with
                  | inr e => mret (None, Some e, None)
                  | inl signedTx =>
                      '(txHash, err) ← SendTransactionWithRet signedTx;
                      match err with
                      | Some _ => mret (None, err, None)
                      | None => mret (Some signedTx, None, Some txHash)
                      end
                  end
              end
          end
      end
  end.

(** ** BoundContract *)

(** What a contract does with a transaction: the transact function set on it, or the
    one of the embedded [bind.BoundContract]. *)
Definition TransactFunc : Type :=
  TransactOpts -> option Address -> bytes -> prog RpcI (option SignedTx * error * option Hash).

Record BoundContract : Type := MkBoundContract {
  bind_Transact : TransactOpts -> string -> list abi_val -> prog RpcI (option SignedTx * error * option Hash);
  bind_Transfer : TransactOpts -> prog RpcI (option SignedTx * error * option Hash);
  transactFn : option TransactFunc;
  client : Z;
  address : Address;
  abi : ABI
}.

Section bound.
Context {GE : Geth}.

(** [bind.NewBoundContract]: the two methods for an address, an ABI and a client. *)
Context (new_Transact : Address -> ABI -> Z -> TransactOpts -> string -> list abi_val ->
                        prog RpcI (option SignedTx * error * option Hash)).
Context (new_Transfer : Address -> ABI -> Z -> TransactOpts -> prog RpcI (option SignedTx * error * option Hash)).

(** [contract.go]'s [Contract], its ABI as [abi.JSON] parses it. *)
Record Contract : Type := MkContract { c_Address : Address; c_ABI : ABI + err }.

Definition BindContract (client : Z) (contract : option Contract) : BoundContract + err :=
  match contract with
  | None => inr (ErrNew "contract must not be nil")
  | Some c =>
      match c_ABI c with
      | inr e => inr (ErrNew ("failed to parse contract ABI: " ++ err_Error e))
      | inl parsedABI =>
          inl (MkBoundContract (new_Transact (c_Address c) parsedABI client)
                 (new_Transfer (c_Address c) parsedABI client) None client (c_Address c) parsedABI)
      end
  end.

Definition SetTransact (c : BoundContract) (fn : TransactFunc) : BoundContract :=
  MkBoundContract (bind_Transact c) (bind_Transfer c) (Some fn) (client c) (address c) (abi c).

Definition SetClient (c : BoundContract) (cl : Z) : BoundContract :=
  MkBoundContract (new_Transact (address c) (abi c) cl) (new_Transfer (address c) (abi c) cl)
    (transactFn c) cl (address c) (abi c).

Definition SetAddress (c : BoundContract) (a : Address) : BoundContract :=
  MkBoundContract (new_Transact a (abi c) (client c)) (new_Transfer a (abi c) (client c))
    (transactFn c) (client c) a (abi c).

Definition Transact (c : BoundContract) (opts : TransactOpts) (method : string) (params : list abi_val)
  : prog RpcI (option SignedTx * error * option Hash) :=
  match transactFn c with
  | None => bind_Transact c opts method params
  | Some fn =>
      let '(input, err) := abi_Pack (abi c) method params in
      match err with
      | Some _ => mret (None, err, None)
      | None => fn opts (Some (address c)) input
      end
  end.

Definition Transfer (c : BoundContract) (opts : TransactOpts)
  : prog RpcI (option SignedTx * error * option Hash) :=
  match transactFn c with
  | None => bind_Transfer c opts
  | Some fn => fn opts (Some (address c)) []
  end.
End bound.

(** ** What a transaction is made of *)

(** The raw transactions that a trace sent. *)
Definition sent_of (ev : event RpcI) : option string :=
  match ev with
  | existT (CallContext method param) _ =>
      if String.eqb method "eth_sendRawTransaction" then Some param else None
  | _ => None
  end.
Definition sent (tr : list (event RpcI)) : list string := omap sent_of tr.

(** The fields of the transaction: the caller's, or what the node suggests. *)
Definition nonce_from (opts : TransactOpts) (tr : list (event RpcI)) (nonce : Z) : Prop :=
  match Nonce opts with
  | Some n => nonce = big_Uint64 n
  | None => @Ev RpcI (PendingNonceAt (From_ opts)) (nonce, None) ∈ tr
  end.

Definition price_from (opts : TransactOpts) (tr : list (event RpcI)) (gasPrice : Z) : Prop :=
  match GasPrice opts with
  | Some p => gasPrice = p
  | None => @Ev RpcI SuggestGasPrice (gasPrice, None) ∈ tr
  end.

Definition limit_from (contractAddress : Address) (opts : TransactOpts) (contract : option Address)
    (input : bytes) (tr : list (event RpcI)) (gasPrice gasLimit : Z) : Prop :=
  if GasLimit opts =? 0 then
    @Ev RpcI (EstimateGas (MkCallMsg (From_ opts) contract gasPrice (default 0 (Value opts)) input))
      (gasLimit, None) ∈ tr /\
    (contract <> None -> exists code, code <> [] /\
       @Ev RpcI (PendingCodeAt contractAddress) (code, None) ∈ tr)
  else gasLimit = GasLimit opts.

Lemma wp_pick_nonce opts :
  wp (pick_nonce opts) (fun tr o => sent tr = [] /\ exists n e, o = Done (n, e) /\
    (e = None -> nonce_from opts tr n)).
Proof.
  unfold pick_nonce, nonce_from. destruct (Nonce opts) as [n|]; [by split; [|eexists _, _]|].
  intros [n [e|]]; cbn; (split; [done|]); eexists _, _; (split; [done|]); [done|]. intros _. by left.
Qed.

Lemma wp_pick_gasPrice opts :
  wp (pick_gasPrice opts) (fun tr o => sent tr = [] /\ exists p e, o = Done (p, e) /\
    (e = None -> price_from opts tr p)).
Proof.
  unfold pick_gasPrice, price_from. destruct (GasPrice opts) as [p|]; [by split; [|eexists _, _]|].
  intros [p [e|]]; cbn; (split; [done|]); eexists _, _; (split; [done|]); [done|]. intros _. by left.
Qed.

Lemma wp_pick_gasLimit ca opts contract gasPrice input :
  wp (pick_gasLimit ca opts contract gasPrice (default 0 (Value opts)) input) (fun tr o =>
    sent tr = [] /\ exists l e, o = Done (l, e) /\
      (e = None -> limit_from ca opts contract input tr gasPrice l)).
Proof.
  unfold pick_gasLimit, limit_from. destruct (GasLimit opts =? 0); cbn [negb]; [|by split; [|eexists _, _]].
  destruct contract as [c|].
  - intros [code [e|]]; cbn; [by split; [|eexists _, _]|].
    destruct code as [|b code]; cbn; [by split; [|eexists _, _]|].
    intros [l [e|]]; cbn; (split; [done|]); eexists _, _; (split; [done|]); [done|].
    intros _. split; [by right; left|]. intros _. exists (b :: code). split; [done|]. by left.
  - intros [l [e|]]; cbn; (split; [done|]); eexists _, _; (split; [done|]); [done|].
    intros _. split; [by left|]. by intros [].
Qed.

(** A fact about a part of a trace holds of the whole. *)
Lemma nonce_from_mono opts tr tr' n : tr ⊆ tr' -> nonce_from opts tr n -> nonce_from opts tr' n.
Proof. unfold nonce_from. destruct (Nonce opts); [done|]. intros Hs. apply Hs. Qed.

Lemma price_from_mono opts tr tr' p : tr ⊆ tr' -> price_from opts tr p -> price_from opts tr' p.
Proof. unfold price_from. destruct (GasPrice opts); [done|]. intros Hs. apply Hs. Qed.

Lemma limit_from_mono ca opts contract input tr tr' p l :
  tr ⊆ tr' -> limit_from ca opts contract input tr p l -> limit_from ca opts contract input tr' p l.
Proof.
  unfold limit_from. destruct (GasLimit opts =? 0); [|done]. intros Hs [H1 H2].
  split; [by apply Hs|]. intros Hc. destruct (H2 Hc) as (code & Hne & Hin). exists code. auto.
Qed.

(** The provider's transact function sends at most one raw transaction, and returns a
    transaction with its hash exactly when the node took it.  What it sends is what the
    caller's signer made, for the caller's address, of a transaction to the contract (or
    a creation) with the given input and value (zero when nil), the given nonce, gas
    price and gas limit, or, where those are not given, the pending nonce, the suggested
    price and the estimated gas, the latter only if the contract has code. *)
Lemma TransactFn_sends ca opts contract input :
  wp (TransactFn ca opts contract input) (fun tr o =>
    (length (sent tr) <= 1)%nat /\
    match o with
    | Done (Some signedTx, None, Some txHash) =>
        exists nonce gasPrice gasLimit signer data,
          nonce_from opts tr nonce /\ price_from opts tr gasPrice /\
          limit_from ca opts contract input tr gasPrice gasLimit /\
          Signer opts = Some signer /\
          signer (From_ opts) (MkRawTx nonce ((fun _ => ca) <$> contract) (default 0 (Value opts)) gasLimit gasPrice input)
            = inl signedTx /\
          rlp_EncodeToBytes signedTx = inl data /\
          sent tr = [hexutil_Encode data] /\
          last tr = Some (@Ev RpcI (CallContext "eth_sendRawTransaction" (hexutil_Encode data)) (txHash, None))
    | Done (None, Some _, None) => True
    | _ => False
    end).
Proof.
  unfold TransactFn. apply wp_bind. eapply wp_mono; [apply wp_pick_nonce|].
  intros tr1 o1 (Hs1 & nonce & e1 & -> & Hn). destruct e1 as [e|]; cbn.
  { rewrite app_nil_r, Hs1. cbn. auto with lia. }
  specialize (Hn eq_refl). apply wp_bind. eapply wp_mono; [apply wp_pick_gasPrice|].
  intros tr2 o2 (Hs2 & price & e2 & -> & Hp). 
  assert (Hs : forall t, sent (tr1 ++ tr2 ++ t) = sent t).
  { intros t. unfold sent in *. by rewrite !omap_app, Hs1, Hs2. }
  destruct e2 as [e|]; cbn.
  { rewrite Hs. cbn. auto with lia. }
  specialize (Hp eq_refl). apply wp_bind. eapply wp_mono; [apply wp_pick_gasLimit|].
  intros tr3 o3 (Hs3 & limit & e3 & -> & Hl).
  assert (Hs' : forall t, sent (tr1 ++ tr2 ++ tr3 ++ t) = sent t).
  { intros t. rewrite Hs. unfold sent in *. by rewrite omap_app, Hs3. }
  destruct e3 as [e|]; cbn.
  { rewrite Hs'. cbn. auto with lia. }
  specialize (Hl eq_refl).
  destruct (Signer opts) as [signer|]; cbn; [|rewrite Hs'; cbn; auto with lia].
  destruct (signer _ _) as [stx|e] eqn:Hsig; cbn; [|rewrite Hs'; cbn; auto with lia].
  unfold SendTransactionWithRet. destruct (rlp_EncodeToBytes stx) as [data|e] eqn:Hrlp; cbn;
    [|rewrite Hs'; cbn; auto with lia].
  intros [h [e|]]; cbn; rewrite Hs'; cbn; (split; [lia|]); [done|].
  exists nonce, price, limit, signer, data.
  split; [by eapply nonce_from_mono; [|exact Hn]; set_solver|].
  split; [by eapply price_from_mono; [|exact Hp]; set_solver|].
  split; [by eapply limit_from_mono; [|exact Hl]; set_solver|].
  split; [done|]. split; [by destruct contract|]. split; [done|]. split; [done|].
  by rewrite !last_app.
Qed.

End provider.
