(* ===== verification/Options.v ===== *)
(** * Options: the options of the commands and their values (cmd/peggo/options.go, util.go)

    An option is declared with its names, its environment variable and its default; mow.cli
    documents that its value is that of the environment variable if it is set and parses.
    A group of options is a record over a functor: of declarations ([opt]) or of values.
    The help texts are left out. *)
From Stdlib Require Import Init.Byte.
From S2P Require Import Prelude GoStrings Effects GoFloat Types External Model.

(** ** Declarations *)
Record opt (A : Type) : Type := MkOpt { o_Name : string; o_EnvVar : string; o_Value : A }.
Arguments MkOpt {A} _ _ _.
Arguments o_Name {A} _.
Arguments o_EnvVar {A} _.
Arguments o_Value {A} _.

Definition value (A : Type) : Type := A.

(** [float64(1.3)] and [float64(23.3)]: the nearest doubles. *)
Definition float_1_3 : gofloat := FFin 5854679515581645 (-52).
Definition float_23_3 : gofloat := FFin 6558366957358285 (-48).

Section groups.
Context (F : Type -> Type).

Record GlobalOptions : Type := MkGlobal { envName : F string; appLogLevel : F string; svcWaitTimeout : F string }.

Record CosmosOptions : Type := MkCosmos {
  cosmosChainID : F string;
  cosmosGRPC : F string;
  tendermintRPC : F string;
  cosmosGasPrices : F string
}.

Record CosmosKeyOptions : Type := MkCosmosKey {
  cosmosKeyringBackend : F string;
  cosmosKeyringDir : F string;
  cosmosKeyringAppName : F string;
  cosmosKeyFrom : F string;
  cosmosKeyPassphrase : F string;
  cosmosPrivKey : F string;
  cosmosUseLedger : F bool
}.

Record EthereumKeyOptions : Type := MkEthereumKey {
  ethKeystoreDir : F string;
  ethKeyFrom : F string;
  ethPassphrase : F string;
  ethPrivKey : F string;
  ethUseLedger : F bool
}.

Record StatsdOptions : Type := MkStatsd {
  statsdAgent : F string;
  statsdPrefix : F string;
  statsdAddr : F string;
  statsdStuckDur : F string;
  statsdMocking : F string;
  statsdDisabled : F string
}.

Record EthereumOptions : Type := MkEthereum {
  ethChainID : F Z;
  ethNodeRPC : F string;
  ethNodeAlchemyWS : F string;
  ethGasPriceAdjustment : F gofloat;
  ethMaxGasPrice : F string
}.

Record RelayerOptions : Type := MkRelayer {
  relayValsets : F bool;
  relayValsetOffsetDur : F string;
  relayBatches : F bool;
  relayBatchOffsetDur : F string;
  pendingTxWaitDuration : F string
}.

(** [Config], its fields grouped as the source comments group them. *)
Record Config : Type := MkConfig {
  cosmos : CosmosOptions;
  cosmosKey : CosmosKeyOptions;
  eth : EthereumOptions;
  ethKey : EthereumKeyOptions;
  relayer : RelayerOptions;
  minBatchFeeUSD : F gofloat;
  coingeckoApi : F string
}.
End groups.

Arguments MkGlobal {F} _ _ _.
Arguments MkCosmos {F} _ _ _ _.
Arguments MkCosmosKey {F} _ _ _ _ _ _ _.
Arguments MkEthereumKey {F} _ _ _ _ _.
Arguments MkStatsd {F} _ _ _ _ _ _.
Arguments MkEthereum {F} _ _ _ _ _.
Arguments MkRelayer {F} _ _ _ _ _.
Arguments MkConfig {F} _ _ _ _ _ _ _.
#[local] Open Scope string_scope.

Definition initGlobalOptions : GlobalOptions opt := MkGlobal
  (MkOpt "e env" "PEGGO_ENV" "local")
  (MkOpt "l log-level" "PEGGO_LOG_LEVEL" "info")
  (MkOpt "svc-wait-timeout" "PEGGO_SERVICE_WAIT_TIMEOUT" "1m").

Definition initInteractiveOptions : opt bool := MkOpt "y yes" "PEGGO_ALWAYS_AUTO_CONFIRM" false.

Definition initCosmosOptions : CosmosOptions opt := MkCosmos
  (MkOpt "cosmos-chain-id" "PEGGO_COSMOS_CHAIN_ID" "888")
  (MkOpt "cosmos-grpc" "PEGGO_COSMOS_GRPC" "")
  (MkOpt "tendermint-rpc" "PEGGO_TENDERMINT_RPC" "")
  (MkOpt "cosmos-gas-prices" "PEGGO_COSMOS_GAS_PRICES" "").

Definition initCosmosKeyOptions : CosmosKeyOptions opt := MkCosmosKey
  (MkOpt "cosmos-keyring" "PEGGO_COSMOS_KEYRING" "file")
  (MkOpt "cosmos-keyring-dir" "PEGGO_COSMOS_KEYRING_DIR" "")
  (MkOpt "cosmos-keyring-app" "PEGGO_COSMOS_KEYRING_APP" "peggo")
  (MkOpt "cosmos-from" "PEGGO_COSMOS_FROM" "")
  (MkOpt "cosmos-from-passphrase" "PEGGO_COSMOS_FROM_PASSPHRASE" "peggo")
  (MkOpt "cosmos-pk" "PEGGO_COSMOS_PK" "")
  (MkOpt "cosmos-use-ledger" "PEGGO_COSMOS_USE_LEDGER" false).

Definition initEthereumKeyOptions : EthereumKeyOptions opt := MkEthereumKey
  (MkOpt "eth-keystore-dir" "PEGGO_ETH_KEYSTORE_DIR" "")
  (MkOpt "eth-from" "PEGGO_ETH_FROM" "")
  (MkOpt "eth-passphrase" "PEGGO_ETH_PASSPHRASE" "")
  (MkOpt "eth-pk" "PEGGO_ETH_PK" "")
  (MkOpt "eth-use-ledger" "PEGGO_ETH_USE_LEDGER" false).

Definition initStatsdOptions : StatsdOptions opt := MkStatsd
  (MkOpt "statsd-agent" "PEGGO_STATSD_AGENT" "telegraf")
  (MkOpt "statsd-prefix" "PEGGO_STATSD_PREFIX" "peggo")
  (MkOpt "statsd-addr" "PEGGO_STATSD_ADDR" "localhost:8125")
  (MkOpt "statsd-stuck-func" "PEGGO_STATSD_STUCK_DUR" "5m")
  (MkOpt "statsd-mocking" "PEGGO_STATSD_MOCKING" "false")
  (MkOpt "statsd-disabled" "PEGGO_STATSD_DISABLED" "true").

(** [initConfig] *)
Definition initConfig : Config opt := MkConfig
  (MkCosmos
    (MkOpt "cosmos-chain-id" "PEGGO_COSMOS_CHAIN_ID" "888")
    (MkOpt "cosmos-grpc" "PEGGO_COSMOS_GRPC" "")
    (MkOpt "tendermint-rpc" "PEGGO_TENDERMINT_RPC" "")
    (MkOpt "cosmos-gas-prices" "PEGGO_COSMOS_GAS_PRICES" ""))
  (MkCosmosKey
    (MkOpt "cosmos-keyring" "PEGGO_COSMOS_KEYRING" "file")
    (MkOpt "cosmos-keyring-dir" "PEGGO_COSMOS_KEYRING_DIR" "")
    (MkOpt "cosmos-keyring-app" "PEGGO_COSMOS_KEYRING_APP" "peggo")
    (MkOpt "cosmos-from" "PEGGO_COSMOS_FROM" "")
    (MkOpt "cosmos-from-passphrase" "PEGGO_COSMOS_FROM_PASSPHRASE" "peggo")
    (MkOpt "cosmos-pk" "PEGGO_COSMOS_PK" "")
    (MkOpt "cosmos-use-ledger" "PEGGO_COSMOS_USE_LEDGER" false))
  (MkEthereum
    (MkOpt "eth-chain-id" "PEGGO_ETH_CHAIN_ID" 42%Z)
    (MkOpt "eth-node-http" "PEGGO_ETH_RPC" "http://localhost:1317")
    (MkOpt "eth-node-alchemy-ws" "PEGGO_ETH_ALCHEMY_WS" "")
    (MkOpt "eth_gas_price_adjustment" "PEGGO_ETH_GAS_PRICE_ADJUSTMENT" float_1_3)
    (MkOpt "eth-max-gas-price" "PEGGO_ETH_MAX_GAS_PRICE" "500gwei"))
  (MkEthereumKey
    (MkOpt "eth-keystore-dir" "PEGGO_ETH_KEYSTORE_DIR" "")
    (MkOpt "eth-from" "PEGGO_ETH_FROM" "")
    (MkOpt "eth-passphrase" "PEGGO_ETH_PASSPHRASE" "")
    (MkOpt "eth-pk" "PEGGO_ETH_PK" "")
    (MkOpt "eth-use-ledger" "PEGGO_ETH_USE_LEDGER" false))
  (MkRelayer
    (MkOpt "relay_valsets" "PEGGO_RELAY_VALSETS" false)
    (MkOpt "relay_valset_offset_dur" "PEGGO_RELAY_VALSET_OFFSET_DUR" "5m")
    (MkOpt "relay_batches" "PEGGO_RELAY_BATCHES" false)
    (MkOpt "relay_batch_offset_dur" "PEGGO_RELAY_BATCH_OFFSET_DUR" "5m")
    (MkOpt "relay_pending_tx_wait_duration" "PEGGO_RELAY_PENDING_TX_WAIT_DURATION" "20m"))
  (MkOpt "min_batch_fee_usd" "PEGGO_MIN_BATCH_FEE_USD" float_23_3)
  (MkOpt "coingecko_api" "PEGGO_COINGECKO_API" "https://api.coingecko.com/api/v3").

(** ** Values *)

(** The environment of the process. *)
Abbreviation environ := (gmap string string).

(** [strconv]'s parsers of numbers. *)
Class StrConv : Type := {
  ParseInt : string -> option Z;
  ParseFloat : string -> option gofloat
}.

(** [strconv.ParseBool] *)
Definition ParseBool (s : string) : option bool :=
  if bool_decide (s ∈ ["1"; "t"; "T"; "TRUE"; "true"; "True"]) then Some true
  else if bool_decide (s ∈ ["0"; "f"; "F"; "FALSE"; "false"; "False"]) then Some false
  else None.

Section values.
Context {SC : StrConv} (env : environ).

(** The value of an option: an unset, empty or unparsable variable leaves the default. *)
Definition opt_value {A} (parse : string -> option A) (o : opt A) : A :=
  match env !! o_EnvVar o with
  | Some v => if String.eqb v "" then o_Value o else default (o_Value o) (parse v)
  | None => o_Value o
  end.

Definition string_value : opt string -> string := opt_value Some.
Definition bool_value : opt bool -> bool := opt_value ParseBool.
Definition int_value : opt Z -> Z := opt_value ParseInt.
Definition float_value : opt gofloat -> gofloat := opt_value ParseFloat.

Definition cosmos_values (g : CosmosOptions opt) : CosmosOptions value :=
  let 'MkCosmos a b c d := g in
  MkCosmos (string_value a) (string_value b) (string_value c) (string_value d).

Definition cosmosKey_values (g : CosmosKeyOptions opt) : CosmosKeyOptions value :=
  let 'MkCosmosKey a b c d e f l := g in
  MkCosmosKey (string_value a) (string_value b) (string_value c) (string_value d) (string_value e)
    (string_value f) (bool_value l).

Definition ethKey_values (g : EthereumKeyOptions opt) : EthereumKeyOptions value :=
  let 'MkEthereumKey a b c d l := g in
  MkEthereumKey (string_value a) (string_value b) (string_value c) (string_value d) (bool_value l).

Definition eth_values (g : EthereumOptions opt) : EthereumOptions value :=
  let 'MkEthereum a b c d e := g in
  MkEthereum (int_value a) (string_value b) (string_value c) (float_value d) (string_value e).

Definition relayer_values (g : RelayerOptions opt) : RelayerOptions value :=
  let 'MkRelayer a b c d e := g in
  MkRelayer (bool_value a) (string_value b) (bool_value c) (string_value d) (string_value e).

Definition config_values (g : Config opt) : Config value :=
  let 'MkConfig a b c d e f h := g in
  MkConfig (cosmos_values a) (cosmosKey_values b) (eth_values c) (ethKey_values d) (relayer_values e)
    (float_value f) (string_value h).
End values.

(** ** util.go *)

(** The setting that a line of the file makes: exactly one equals sign. *)
Definition quote : ascii := ascii_of_nat 34.

Definition parse_line (line : string) : option (string * string) :=
  match strings_Split "=" line with
  | [name; v] => Some (name, strings_Trim quote v)
  | _ => None
  end.

(** [os.Setenv] refuses an empty name, and a name or value with a zero byte. *)
Definition setenv (env : environ) (nv : string * string) : environ :=
  if String.eqb nv.1 "" || negb (no_char (ascii_of_nat 0) nv.1) || negb (no_char (ascii_of_nat 0) nv.2)
  then env else <[nv.1 := nv.2]> env.

(** [readEnv], given the contents of the file. *)
Definition readEnv (envdata : string) (env : environ) : environ :=
  foldl (fun env line => match parse_line line with Some nv => setenv env nv | None => env end)
    env (scan_lines envdata).

(** [logLevel] *)
Inductive LogLevel : Type := FatalLevel | ErrorLevel | WarnLevel | InfoLevel | DebugLevel.

Definition logLevel (s : string) : LogLevel :=
  if String.eqb s "1" || String.eqb s "error" then ErrorLevel
  else if String.eqb s "2" || String.eqb s "warn" then WarnLevel
  else if String.eqb s "3" || String.eqb s "info" then InfoLevel
  else if String.eqb s "4" || String.eqb s "debug" then DebugLevel
  else FatalLevel.

(** [toBool] *)
Definition toBool (s : string) : bool :=
  bool_decide (strings_ToLower s ∈ ["true"; "1"; "t"; "yes"]).

(** [time.ParseDuration] and [duration]. *)
Class GoTime : Type := { ParseDuration : string -> Z + err }.

Definition duration {GT : GoTime} (s : string) (defaults : Z) : Z :=
  match ParseDuration s with inl d => d | inr _ => defaults end.

(** [checkStatsdPrefix] *)
Definition checkStatsdPrefix (s : string) : string :=
  if negb (strings_HasSuffix s ".") then s ++ "." else s.

(** [hexToBytes] *)
Definition hexToBytes (str : string) : bytes + err :=
  hex_DecodeString (if strings_HasPrefix str "0x" then strings_TrimPrefix str "0x" else str).

(** [parseERC20ContractMapping]: None is [Fatalln]. *)
Definition parse_mapping_item {GE : Geth} (res : option (gmap Address string)) (item : string)
  : option (gmap Address string) :=
  res ← res;
  let parts := strings_Split ":" item in
  let addr := HexToAddress (default "" (parts !! 0%nat)) in
  match parts with
  | [a; denom] => if String.eqb a "" || (addr =? 0)%Z then None else Some (<[addr := denom]> res)
  | _ => None
  end.

Definition parseERC20ContractMapping {GE : Geth} (items : list string) : option (gmap Address string) :=
  foldl parse_mapping_item (Some ∅) items.

(** ** What the environment file sets *)

(** The settings of a file, in order. *)
Definition settings (envdata : string) : list (string * string) :=
  base.filter (fun nv => nv.1 <> "" /\ no_char (ascii_of_nat 0) nv.1 = true /\ no_char (ascii_of_nat 0) nv.2 = true)
    (omap parse_line (scan_lines envdata)).

Lemma setenv_spec env nv :
  setenv env nv =
  if decide (nv.1 <> "" /\ no_char (ascii_of_nat 0) nv.1 = true /\ no_char (ascii_of_nat 0) nv.2 = true)
  then <[nv.1 := nv.2]> env else env.
Proof.
  unfold setenv. destruct (String.eqb_spec nv.1 "") as [H|H]; cbn [orb].
  { case_decide as Hd; [by destruct Hd|done]. }
  destruct (no_char _ nv.1), (no_char _ nv.2); cbn [negb orb]; case_decide as Hd; naive_solver.
Qed.

Lemma readEnv_settings envdata env :
  readEnv envdata env = foldl (fun env nv => <[nv.1 := nv.2]> env) env (settings envdata).
Proof.
  unfold readEnv, settings. revert env. induction (scan_lines envdata) as [|l ls IH]; intros env; [done|].
  cbn [foldl omap list_omap]. rewrite IH. destruct (parse_line l) as [nv|]; [|done].
  rewrite filter_cons, setenv_spec. by case_decide.
Qed.

(** After the environment file is read a variable has the value of the last line that
    sets it, and is otherwise as before.  A line sets a variable only if it has exactly one
    equals sign, with the quotes around its value taken off: a value that itself contains
    an equals sign is never set. *)
Lemma readEnv_lookup envdata env name :
  readEnv envdata env !! name =
    match last (base.filter (fun nv : string * string => nv.1 = name) (settings envdata)) with
    | Some nv => Some nv.2
    | None => env !! name
    end /\
  forall nv, nv ∈ settings envdata ->
    exists line v, line ∈ scan_lines envdata /\ line = nv.1 ++ String "=" v /\
      no_char "=" nv.1 = true /\ no_char "=" v = true /\ nv.2 = strings_Trim quote v.
Proof.
  split.
  - rewrite readEnv_settings. revert env. induction (settings envdata) as [|nv l IH] using rev_ind; [done|].
    intros env. rewrite foldl_app, filter_app, filter_cons, filter_nil. cbn [foldl].
    case_decide as Hn.
    + rewrite last_snoc, Hn. apply lookup_insert_eq.
    + rewrite app_nil_r, lookup_insert_ne by done. apply IH.
  - intros [n v] (Hok & Hin)%list_elem_of_filter.
    apply list_elem_of_omap in Hin as (line & Hline & Hp). unfold parse_line in Hp.
    destruct (strings_Split "=" line) as [|a [|b [|c r]]] eqn:Hs; try done. injection Hp as -> <-.
    apply split_two_iff in Hs as (-> & Ha & Hb). eauto 10.
Qed.
