(* ===== verification/Startup.v ===== *)
(** * Startup: the commands of the executable (cmd/peggo/)

    [orchestratorCmd] (orchestrator.go), [registerEthKeyCmd] (tx.go), [stdinConfirm],
    [orShutdown] (util.go), [initMetrics] (metrics.go) and [ethereum.NewNetwork]
    (orchestrator/ethereum/network.go).  The interface [StartI] joins the interfaces of
    the parts that are set up: each part's program is lifted into it. *)
From Stdlib Require Import Init.Byte.
From S2P Require Import Prelude GoStrings Effects GoFloat Types External Model GoSort.
From S2P Require EthPeggy Committer CosmosNet Keyring Keystore Keys Options PriceFeed.
From S2P Require Import Interfaces Loops Orchestrator.
Import Options.

Section startup.
Context {GE : Geth} {GK : Keystore.GethKeys} {CK : Keyring.CosmosKeys} {CC : CosmosNet.ClientCommon}.
Context {SH : Shopspring} {GT : GoTime}.

(** ** Interface *)
Inductive start_cmd : Type :=
  | SKr (c : Keyring.kr_cmd)
  | SKey (c : cmd Keys.KeyI)
  | SCn (c : CosmosNet.cn_cmd)
  | SOrch (c : orch_cmd)
  | SEvm (c : Committer.evm_cmd)
  | RpcDial (url : string)
  | BindPeggy (address : Address)
  | GoSubscribeToPendingTxs (alchemyWebsocketURL : string)
  | Scanln
  | MetricsDisable
  | MetricsInit (addr prefix agent env : string) (stuck : Z) (mocking : bool).

Definition start_reply (c : start_cmd) : Type :=
  match c with
  | SKr c => Keyring.kr_reply c
  | SKey c => reply Keys.KeyI c
  | SCn c => CosmosNet.cn_reply c
  | SOrch c => orch_reply c
  | SEvm c => Committer.evm_reply c
  | RpcDial _ | BindPeggy _ => error
  | GoSubscribeToPendingTxs _ => unit
  | Scanln => string * error
  | MetricsDisable => unit
  | MetricsInit _ _ _ _ _ _ => error
  end.

Definition StartI : Iface := MkIface start_cmd start_reply.
Definition scall (c : start_cmd) : prog StartI (start_reply c) := @call StartI c.

Definition in_kr {A} (p : prog Keyring.KrI A) : prog StartI A :=
  interp (I:=Keyring.KrI) (J:=StartI) (fun c => scall (SKr c)) p.
Definition in_key {A} (p : prog Keys.KeyI A) : prog StartI A :=
  interp (I:=Keys.KeyI) (J:=StartI) (fun c => scall (SKey c)) p.
Definition in_cn {A} (p : prog CosmosNet.CnI A) : prog StartI A :=
  interp (I:=CosmosNet.CnI) (J:=StartI) (fun c => scall (SCn c)) p.
Definition in_orch {A} (p : prog OrchI A) : prog StartI A :=
  interp (I:=OrchI) (J:=StartI) (fun c => scall (SOrch c)) p.
Definition in_evm {A} (p : prog Committer.EvmI A) : prog StartI A :=
  interp (I:=Committer.EvmI) (J:=StartI) (fun c => scall (SEvm c)) p.

(** ** util.go *)
Definition ErrServerStopped : err := ErrNew "grpc: the server has been stopped".
Definition unable_to_start : panicv := PanicValue "unable to start peggo".

(** [orShutdown]: [Fatalln] ends the process. *)
Definition orShutdown (e : error) : prog StartI unit :=
  match e with
  | Some e => if decide (e = ErrServerStopped) then mret tt else Panic unable_to_start
  | None => mret tt
  end.

(** A result that is used after [orShutdown(err)]: if the error was let pass, the nil
    result is dereferenced. *)
Definition or_shutdown {A} (r : A + err) : prog StartI A :=
  match r with
  | inl a => mret a
  | inr e => _ ← orShutdown (Some e); Panic nil_dereference
  end.

(** [stdinConfirm] *)
Definition stdinConfirm : prog StartI bool :=
  '(response, err) ← scall Scanln;
  match err with
  | Some _ => mret false
  | None =>
      let r := strings_ToLower (strings_TrimSpace response) in
      mret (String.eqb r "y" || String.eqb r "yes")
  end.

(** ** metrics.go: one turn of the loop that initializes the client; [fuel] bounds it *)
Fixpoint metrics_loop (fuel : nat) (o : StatsdOptions value) (envName : string) : prog StartI bool :=
  match fuel with
  | O => mret false
  | S fuel =>
      err ← scall (MetricsInit (statsdAddr _ o) (checkStatsdPrefix (statsdPrefix _ o)) (statsdAgent _ o)
               envName (duration (statsdStuckDur _ o) (30 * Minute))
               (toBool (statsdMocking _ o) || String.eqb envName "local"));
      match err with
      | Some _ => _ ← scall (SCn (CosmosNet.CnSleep Minute)); metrics_loop fuel o envName
      | None => mret true
      end
  end.

Definition initMetrics (fuel : nat) (o : StatsdOptions value) (envName : string) : prog StartI bool :=
  if toBool (statsdDisabled _ o) then _ ← scall MetricsDisable; mret true
  else metrics_loop fuel o envName.

(** ** orchestrator/ethereum/network.go: NewNetwork *)
Record EthNetworkConfig : Type := MkEthNetworkConfig {
  EthNodeRPC : string;
  GasPriceAdjustment : gofloat;
  MaxGasPrice : string;
  PendingTxWaitDuration : string;
  EthNodeAlchemyWS : string
}.

(** The committer, the contract client and the from address. *)
Record eth_network : Type := MkEthNetwork {
  en_committer : Committer.ethCommitter;
  en_contract : EthPeggy.peggyContract;
  en_FromAddr : Address
}.

Definition NewNetwork (peggyContractAddr fromAddr : Address) (cfg : EthNetworkConfig)
  : prog StartI (eth_network + err) :=
  err ← scall (RpcDial (EthNodeRPC cfg));
  match err with
  | Some e => mret (inr (ErrWrap e ("failed to connect to ethereum RPC: " ++ EthNodeRPC cfg)))
  | None =>
      '(ethCommitter, err) ← in_evm (Committer.NewEthCommitter fromAddr (GasPriceAdjustment cfg) (MaxGasPrice cfg) []);
      match err with
      | Some e => mret (inr e)
      | None =>
          ethCommitter ← deref ethCommitter;
          match ParseDuration (PendingTxWaitDuration cfg) with
          | inr e => mret (inr e)
          | inl pendingTxDuration =>
              bindErr ← scall (BindPeggy peggyContractAddr);
              let '(peggyContract, err) :=
                EthPeggy.NewPeggyContract bindErr peggyContractAddr [] pendingTxDuration in
              match err with
              | Some e => mret (inr e)
              | None =>
                  peggyContract ← deref peggyContract;
                  _ ← (if negb (String.eqb (EthNodeAlchemyWS cfg) "")
                       then scall (GoSubscribeToPendingTxs (EthNodeAlchemyWS cfg)) else mret tt);
                  mret (inl (MkEthNetwork ethCommitter peggyContract fromAddr))
              end
          end
      end
  end.

(** ** orchestrator.go *)
Definition keyring_config (k : CosmosKeyOptions value) : Keyring.KeyringConfig :=
  Keyring.MkKeyringConfig (cosmosKeyringDir _ k) (cosmosKeyringAppName _ k) (cosmosKeyringBackend _ k)
    (cosmosKeyFrom _ k) (cosmosKeyPassphrase _ k) (cosmosPrivKey _ k) (cosmosUseLedger _ k).

Definition network_config (c : CosmosOptions value) (validatorAddress : string) : CosmosNet.NetworkConfig :=
  CosmosNet.MkNetworkConfig (cosmosChainID _ c) validatorAddress (cosmosGRPC _ c) (tendermintRPC _ c)
    (cosmosGasPrices _ c).

Definition eth_network_config (c : Options.Config value) : EthNetworkConfig :=
  MkEthNetworkConfig (ethNodeRPC _ (eth _ c)) (ethGasPriceAdjustment _ (eth _ c)) (ethMaxGasPrice _ (eth _ c))
    (pendingTxWaitDuration _ (relayer _ c)) (ethNodeAlchemyWS _ (eth _ c)).

(** [initEthereumAccountsManager] on the options: none of the pointers is nil. *)
Definition accounts_manager (chainID : Z) (k : EthereumKeyOptions value) : prog StartI Keys.accounts_manager :=
  in_key (Keys.initEthereumAccountsManager chainID (Some (ethKeystoreDir _ k)) (Some (ethKeyFrom _ k))
            (Some (ethPassphrase _ k)) (Some (ethPrivKey _ k)) (Some (ethUseLedger _ k))).

(** [chaintypes.InjectiveCoin] *)
Definition InjectiveCoin : string := "inj".

(** What the action has set up when it starts [Run]. *)
Record started : Type := MkStarted {
  st_orchestrator : Orchestrator;
  st_keys : Keys.accounts_manager;
  st_injective : CosmosNet.Network;
  st_ethereum : eth_network;
  st_priceFeed : PriceFeed.CoingeckoPriceFeed
}.

(** The action of [orchestratorCmd]. *)
Definition orchestratorCmd (cfg : Options.Config value) : prog StartI (started * startup) :=
  if cosmosUseLedger _ (cosmosKey _ cfg) || ethUseLedger _ (ethKey _ cfg)
  then Panic (PanicValue "cannot use Ledger for orchestrator, since signatures must be realtime")
  else
    r ← in_kr (Keyring.NewKeyring (keyring_config (cosmosKey _ cfg)));
    cosmosKeyring ← or_shutdown
      (match r with inr e => inr (ErrWrap e "failed to initialize Injective keyring") | inl k => inl k end);
    keys ← accounts_manager (u64 (ethChainID _ (eth _ cfg))) (ethKey _ cfg);
    _ ← orShutdown (Wrap (Keys.am_err keys) "failed to initialize Ethereum keyring");
    let ethKeyFromAddress := Keys.am_address keys in
    let validatorAddress := Keyring.bech32_encode (Keyring.Addr cosmosKeyring) in
    r ← in_cn (CosmosNet.NewNetwork (network_config (cosmos _ cfg) validatorAddress));
    cosmosNetwork ← or_shutdown r;
    '(peggyParams, err) ← scall (SOrch PeggyParams);
    _ ← orShutdown (Wrap err "failed to query peggy params, is injectived running?");
    peggyParams ← deref peggyParams;
    let peggyContractAddr := HexToAddress (BridgeEthereumAddress peggyParams) in
    let injTokenAddr := HexToAddress (CosmosCoinErc20Contract peggyParams) in
    let erc20ContractMapping : gmap Z string := {[ injTokenAddr := InjectiveCoin ]} in
    r ← NewNetwork peggyContractAddr ethKeyFromAddress (eth_network_config cfg);
    ethNetwork ← or_shutdown r;
    '(_, isValidator) ← in_orch (CosmosNet.HasRegisteredOrchestrator ethKeyFromAddress);
    let rl := relayer _ cfg in
    valsetDur ← (if relayValsets _ rl then or_shutdown (ParseDuration (relayValsetOffsetDur _ rl)) else mret 0);
    batchDur ← (if relayBatches _ rl then or_shutdown (ParseDuration (relayBatchOffsetDur _ rl)) else mret 0);
    let orchestratorCfg := Interfaces.MkConfig validatorAddress ethKeyFromAddress (minBatchFeeUSD _ cfg)
      erc20ContractMapping valsetDur batchDur (relayValsets _ rl) (relayBatches _ rl) (negb isValidator) in
    let '(peggo, err) := NewOrchestrator orchestratorCfg in
    _ ← orShutdown err;
    run ← in_orch (Run peggo);
    mret (MkStarted peggo keys cosmosNetwork ethNetwork
            (PriceFeed.NewCoingeckoPriceFeed 100 (Some (PriceFeed.MkPriceConfig (coingeckoApi _ cfg)))), run).

(** ** tx.go *)
Inductive registration : Type := Declined | NotRegistered (e : err) | Registered.

(** After the confirmation. *)
Definition register_confirmed (c : CosmosOptions value) (keys : Keys.accounts_manager) (addr : AccAddress)
  : prog StartI registration :=
  net ← in_cn (CosmosNet.NewNetwork (network_config c addr));
  match net with
  | inr _ => Panic (PanicValue "failed to connect to Injective network")
  | inl _ =>
      err ← scall (SOrch (UpdatePeggyOrchestratorAddresses (Keys.am_address keys) addr));
      match err with
      | Some e => _ ← scall (SCn (CosmosNet.CnSleep Second)); mret (NotRegistered e)
      | None => mret Registered
      end
  end.

(** The action of [registerEthKeyCmd]. *)
Definition registerEthKeyCmd (cosmos : CosmosOptions value) (cosmosKey : CosmosKeyOptions value)
    (ethKey : EthereumKeyOptions value) (alwaysAutoConfirm : bool) : prog StartI registration :=
  r ← in_kr (Keyring.NewKeyring (keyring_config cosmosKey));
  keyring ← or_shutdown r;
  keys ← accounts_manager 0 ethKey;
  match Keys.am_err keys with
  | Some _ => Panic (PanicValue "failed to init Ethereum account")
  | None =>
      let addr := Keyring.bech32_encode (Keyring.Addr keyring) in
      actionConfirmed ← (if alwaysAutoConfirm then mret true else stdinConfirm);
      if negb (actionConfirmed : bool) then mret Declined else register_confirmed cosmos keys addr
  end.
End startup.
