(* ===== verification/StartupFacts.v ===== *)
(** * StartupFacts: what the commands set up before anything runs *)
From Stdlib Require Import Init.Byte.
From S2P Require Import Prelude GoStrings Effects GoFloat Types External Model GoSort.
From S2P Require EthPeggy Committer CosmosNet Keyring Keystore Keys KeysFacts Options PriceFeed.
From S2P Require Import Interfaces Loops Orchestrator Startup.
Import Options.

Section facts.
Context {GE : Geth} {GK : Keystore.GethKeys} {CK : Keyring.CosmosKeys} {CC : CosmosNet.ClientCommon}.
Context {SH : Shopspring} {GT : GoTime}.

(** A step of the set-up whose result is all that matters. *)
Lemma wp_any {A B} (p : prog StartI A) (f : A -> prog StartI B) (P : A -> Prop) Q :
  wp p (fun _ o => forall a, o = Done a -> P a) ->
  (forall tr a, P a -> wp (f a) (fun tr' o => Q (tr ++ tr') o)) ->
  (forall tr v, Q tr (Crashed v)) ->
  wp (p ≫= f) Q.
Proof.
  intros Hp Hf Hc. apply wp_bind. eapply wp_mono; [exact Hp|].
  intros tr [a|v] H; [|apply Hc]. apply Hf. by apply H.
Qed.

(** The postconditions of this file only speak of runs that return. *)
Definition on_done {A} (Q : list (event StartI) -> A -> Prop) : list (event StartI) -> outcome A -> Prop :=
  fun tr o => forall a, o = Done a -> Q tr a.

Lemma wp_done_bind {A B} (p : prog StartI A) (f : A -> prog StartI B) (P : A -> Prop) Q :
  wp p (fun _ o => forall a, o = Done a -> P a) ->
  (forall tr a, P a -> wp (f a) (on_done (fun tr' b => Q (tr ++ tr') b))) ->
  wp (p ≫= f) (on_done Q).
Proof. intros Hp Hf. apply (wp_any p f P (on_done Q)); [exact Hp|exact Hf|done]. Qed.

Lemma wp_done_any {A B} (p : prog StartI A) (f : A -> prog StartI B) Q :
  (forall tr a, wp (f a) (on_done (fun tr' b => Q (tr ++ tr') b))) ->
  wp (p ≫= f) (on_done Q).
Proof.
  intros Hf. apply (wp_done_bind p f (fun _ => True)); [by apply wp_runs|]. auto.
Qed.

Lemma or_shutdown_inl {A} (r : A + err) :
  wp (or_shutdown r) (fun _ o => forall a, o = Done a -> r = inl a).
Proof. destruct r as [a|e]; [by intros a' [= ->]|]. cbn. unfold orShutdown. by case_decide. Qed.

(** ** The default chain id *)

(** No end points are known for the chain id. *)
Definition no_end_points (c : CosmosOptions value) : Prop :=
  cosmosChainID _ c ∉ ["injective-1"; "injective-777"; "injective-888"]%string /\
  (cosmosGRPC _ c = ""%string \/ tendermintRPC _ c = ""%string).

Lemma no_end_points_panics c addr :
  no_end_points c -> CosmosNet.loadClientConfig (I:=CosmosNet.CnI) (network_config c addr) =
    Panic (CosmosNet.errNoProvider (network_config c addr)).
Proof.
  intros [Hid Hrpc]. unfold CosmosNet.loadClientConfig, CosmosNet.loadBalancedEndpoints. cbn.
  assert (negb (String.eqb (cosmosGRPC _ c) "") && negb (String.eqb (tendermintRPC _ c) "") = false) as ->.
  { destruct Hrpc as [-> | ->]; [done|]. by rewrite andb_false_r. }
  destruct (String.eqb_spec (cosmosChainID _ c) "injective-1"); [set_solver|].
  destruct (String.eqb_spec (cosmosChainID _ c) "injective-777"); [set_solver|].
  destruct (String.eqb_spec (cosmosChainID _ c) "injective-888"); [set_solver|]. done.
Qed.

Lemma orchestratorCmd_no_end_points cfg :
  no_end_points (cosmos _ cfg) -> wp (orchestratorCmd cfg) (on_done (fun _ _ => False)).
Proof.
  intros Hno. unfold orchestratorCmd. case_match; [done|].
  apply wp_done_any. intros _ r. apply wp_done_any. intros _ kr. apply wp_done_any. intros _ keys.
  apply wp_done_any. intros _ _. apply (wp_done_bind _ _ (fun _ => False)); [|done].
  apply wp_interp_result. unfold CosmosNet.NewNetwork. by rewrite no_end_points_panics.
Qed.

Lemma unset_value (env : environ) name var def :
  default ""%string (env !! var) = ""%string -> string_value env (MkOpt name var def) = def.
Proof.
  unfold string_value, opt_value. cbn. destruct (env !! var) as [v|]; [|done]. cbn. by intros ->.
Qed.

(** With the chain id left at its default and an end point missing, the orchestrator
    never starts, whatever the rest of the configuration and whatever the services
    answer: there are no end points for that chain id. *)
Lemma default_chain_id_never_starts {SC : StrConv} (env : environ) :
  default ""%string (env !! "PEGGO_COSMOS_CHAIN_ID"%string) = ""%string ->
  default ""%string (env !! "PEGGO_COSMOS_GRPC"%string) = ""%string \/
    default ""%string (env !! "PEGGO_TENDERMINT_RPC"%string) = ""%string ->
  wp (orchestratorCmd (config_values env initConfig)) (fun _ o => forall r, o <> Done r).
Proof.
  intros Hid Hrpc. apply orchestratorCmd_no_end_points. split.
  - cbn [cosmos config_values initConfig cosmos_values cosmosChainID]. rewrite unset_value by done.
    set_solver.
  - destruct Hrpc as [H|H]; [left|right]; by apply unset_value.
Qed.

(** ** Starting without a signer *)
Definition rejected (k : EthereumKeyOptions value) : Prop :=
  KeysFacts.from_rejected (ethKeystoreDir _ k) (ethKeyFrom _ k) (ethPrivKey _ k) (ethUseLedger _ k).

Lemma wp_accounts_manager chain k :
  wp (accounts_manager chain k) (fun _ o => forall m, o = Done m ->
    KeysFacts.result_shape (rejected k) m).
Proof. apply wp_interp_result, KeysFacts.init_shaped. Qed.

Lemma orShutdown_done e Q :
  (match e with Some e => e = ErrServerStopped | None => True end -> Q [] tt) ->
  wp (orShutdown e) (on_done Q).
Proof.
  destruct e as [e|]; cbn; [case_decide as Hd|]; [intros HQ [] _; auto|done|intros HQ [] _; auto].
Qed.

(** What holds of the keys whenever the orchestrator starts. *)
Lemma orchestratorCmd_keys cfg :
  wp (orchestratorCmd cfg) (on_done (fun _ r =>
    let m := st_keys r.1 in
    KeysFacts.result_shape (rejected (ethKey _ cfg)) m /\ Keys.am_err m = None /\
    EthereumAddr (Interfaces.cfg (st_orchestrator r.1)) = Keys.am_address m)).
Proof.
  unfold orchestratorCmd. case_match; [done|].
  apply wp_done_any. intros _ r. apply wp_done_any. intros _ kr.
  eapply wp_done_bind; [apply wp_accounts_manager|]. intros _ keys Hshape. cbv beta in Hshape.
  apply (wp_done_bind _ _ (fun _ => Keys.am_err keys = None)).
  { apply (orShutdown_done _ (fun _ _ => Keys.am_err keys = None)). by destruct (Keys.am_err keys). }
  intros _ _ Herr. apply wp_done_any. intros _ r'. apply wp_done_any. intros _ net.
  apply wp_done_any. intros _ [params e]. apply wp_done_any. intros _ _. apply wp_done_any. intros _ p.
  cbv zeta. apply wp_done_any. intros _ r2. apply wp_done_any. intros _ en.
  apply wp_done_any. intros _ [v isv]. apply wp_done_any. intros _ d1. apply wp_done_any. intros _ d2.
  apply wp_done_any. intros _ _. apply wp_done_any. intros _ run.
  by intros a [= <-].
Qed.

(** C37: when the from address does not parse or does not match the private key, the
    orchestrator is not stopped by it: whenever it starts in that configuration, it runs
    with nil signing functions and the zero Ethereum address. *)
Theorem orchestratorCmd_without_signer cfg :
  rejected (ethKey _ cfg) ->
  wp (orchestratorCmd cfg) (fun _ o => forall st run, o = Done (st, run) ->
    Keys.am_signer (st_keys st) = None /\ Keys.am_personal (st_keys st) = None /\
    EthereumAddr (Interfaces.cfg (st_orchestrator st)) = 0).
Proof.
  intros Hrej. eapply wp_mono; [apply orchestratorCmd_keys|].
  intros tr o H st run ->. destruct (H _ eq_refl) as (Hs & _ & Ha). cbn in *.
  unfold KeysFacts.result_shape in Hs.
  destruct (Keys.am_signer _), (Keys.am_personal _); try tauto. destruct Hs as [H0 _]. by rewrite Ha, H0.
Qed.

(** ** The configuration of the orchestrator *)
Lemma wp_done_call {B} (c : start_cmd) (f : start_reply c -> prog StartI B) Q :
  (forall r, wp (f r) (on_done (fun tr b => Q (@Ev StartI c r :: tr) b))) ->
  wp (scall c ≫= f) (on_done Q).
Proof. intros H r. apply H. Qed.

Lemma wp_NewNetwork_eth addr from c :
  wp (NewNetwork addr from c) (fun _ o => forall r, o = Done r -> forall en, r = inl en ->
    EthPeggy.peggyAddress (en_contract en) = addr /\ en_FromAddr en = from).
Proof.
  change (wp (NewNetwork addr from c) (on_done (fun _ r => forall en, r = inl en ->
    EthPeggy.peggyAddress (en_contract en) = addr /\ en_FromAddr en = from))).
  unfold NewNetwork. apply wp_done_any. intros _ [e|]; [by intros r [= <-]|].
  apply wp_done_any. intros _ [ec [e|]]; [by intros r [= <-]|].
  apply wp_done_any. intros _ ec'. destruct (ParseDuration _) as [d|e]; [|by intros r [= <-]].
  apply wp_done_any. intros _ [e|]; [by intros r [= <-]|]. cbn.
  destruct (negb _); [intros []|]; by intros r [= <-] en [= <-].
Qed.

(** The duration of an enabled task. *)
Definition duration_if (on : bool) (s : string) (d : Z) : Prop :=
  if on then ParseDuration s = inl d else d = 0.

Lemma wp_duration on s :
  wp (if on : bool then or_shutdown (ParseDuration s) else mret 0)
    (fun _ o => forall d, o = Done d -> duration_if on s d).
Proof. destruct on; [apply or_shutdown_inl|]. by intros d [= <-]. Qed.

Lemma Wrap_done e msg :
  wp (orShutdown (Wrap e msg)) (fun _ o => forall a, o = Done a -> e = None).
Proof. destruct e as [e|]; cbn; [case_decide as Hd; done|done]. Qed.

Lemma wp_registered {B} a (f : option AccAddress * bool -> prog StartI B) Q :
  (forall v e, wp (f (match e with Some _ => None | None => v end, negb (bool_decide (is_Some e))))
     (on_done (fun tr b => Q (@Ev StartI (SOrch (GetValidatorAddress a)) (v, e) :: tr) b))) ->
  wp (in_orch (CosmosNet.HasRegisteredOrchestrator a) ≫= f) (on_done Q).
Proof. intros H [v e]. specialize (H v e). by destruct e. Qed.

(** The configuration follows the options and the answers of the chain. *)
Definition configured (cfg : Options.Config value) (tr : list (event StartI)) (st : started) : Prop :=
  let c := Interfaces.cfg (st_orchestrator st) in
  let rl := relayer _ cfg in
  cosmosUseLedger _ (cosmosKey _ cfg) = false /\ ethUseLedger _ (ethKey _ cfg) = false /\
  (exists v e, @Ev StartI (SOrch (GetValidatorAddress (EthereumAddr c))) (v, e) ∈ tr /\
     RelayerMode c = bool_decide (is_Some e)) /\
  (exists p, @Ev StartI (SOrch PeggyParams) (Some p, None) ∈ tr /\
     ERC20ContractMapping c = {[ HexToAddress (CosmosCoinErc20Contract p) := InjectiveCoin ]} /\
     EthPeggy.peggyAddress (en_contract (st_ethereum st)) = HexToAddress (BridgeEthereumAddress p) /\
     en_FromAddr (st_ethereum st) = EthereumAddr c) /\
  RelayValsets c = relayValsets _ rl /\ RelayBatches c = relayBatches _ rl /\
  duration_if (relayValsets _ rl) (relayValsetOffsetDur _ rl) (RelayValsetOffsetDur c) /\
  duration_if (relayBatches _ rl) (relayBatchOffsetDur _ rl) (RelayBatchOffsetDur c).

(** C34: when the orchestrator starts, no Ledger is in use, and its configuration follows
    the options and the chain: it is a validator's exactly as the chain answered the query
    for the Ethereum address (any failure of that query makes it a relayer); the token
    of the chain's parameters maps to inj; the bridge contract is the one of the
    parameters and is called from the same address; an enabled relaying task has its
    parsed delay, a disabled one zero. *)
Theorem orchestratorCmd_config cfg :
  wp (orchestratorCmd cfg) (fun tr o => forall st run, o = Done (st, run) -> configured cfg tr st).
Proof.
  eapply (wp_mono _ (on_done (fun tr r => configured cfg tr r.1)));
    [|intros tr o H st run ->; exact (H _ eq_refl)].
  unfold orchestratorCmd, configured.
  destruct (cosmosUseLedger _ _); [done|]. destruct (ethUseLedger _ _); [done|].
  cbn [orb]. apply wp_done_any. intros tr1 r. apply wp_done_any. intros tr2 kr.
  apply wp_done_any. intros tr3 keys. apply wp_done_any. intros tr4 _.
  apply wp_done_any. intros tr5 r'. apply wp_done_any. intros tr6 net.
  apply wp_done_call. intros [params e].
  eapply wp_done_bind; [apply Wrap_done|]. intros tr7 _ ->. cbv beta.
  apply (wp_done_bind _ _ (fun p => params = Some p)); [destruct params as [p0|]; [by intros p [= ->]|done]|].
  intros tr8 p ->. cbv zeta.
  eapply wp_done_bind; [apply wp_NewNetwork_eth|]. intros tr9 en Hen. cbv beta in Hen.
  eapply wp_done_bind; [apply or_shutdown_inl|]. intros tr10 n Hn. cbv beta in Hn.
  destruct (Hen n Hn) as [Haddr Hfrom].
  refine (wp_registered _ _ _ _). intros v e. cbv beta iota.
  eapply wp_done_bind; [apply wp_duration|]. intros tr11 d1 Hd1. cbv beta in Hd1.
  eapply wp_done_bind; [apply wp_duration|]. intros tr12 d2 Hd2. cbv beta in Hd2.
  cbn [NewOrchestrator]. apply wp_done_any. intros tr13 _. apply wp_done_any. intros tr14 run.
  intros st [= <-]. cbn [fst st_orchestrator st_ethereum Interfaces.cfg EthereumAddr RelayerMode
    ERC20ContractMapping RelayValsets RelayBatches RelayValsetOffsetDur RelayBatchOffsetDur].
  do 2 (split; [done|]). split.
  { exists v, e. split; [set_solver|]. by destruct e. }
  split.
  { exists p. split; [set_solver|]. by rewrite Haddr, Hfrom. }
  done.
Qed.

(** ** Registering the Ethereum key *)

(** The registrations that a trace sent, with the answers. *)
Definition update_of (ev : event StartI) : option (Address * AccAddress * error) :=
  match ev with
  | existT (SOrch (UpdatePeggyOrchestratorAddresses a k)) e => Some (a, k, e)
  | _ => None
  end.
Definition updates (tr : list (event StartI)) : list (Address * AccAddress * error) := omap update_of tr.

Definition no_update (c : start_cmd) : Prop :=
  match c with SOrch (UpdatePeggyOrchestratorAddresses _ _) => False | _ => True end.

Lemma no_update_updates tr :
  Forall (fun ev : event StartI => no_update (projT1 ev)) tr -> updates tr = [].
Proof.
  induction 1 as [|[c r] tr Hc _ IH]; [done|]. unfold updates in *. cbn [omap list_omap].
  rewrite IH. destruct c as [| | |[]| | | | | | |]; try done; by destruct Hc.
Qed.

(** The operator agreed. *)
Definition confirmed (auto : bool) (tr : list (event StartI)) : Prop :=
  auto = true \/ exists r, @Ev StartI Scanln (r, None) ∈ tr /\
    strings_ToLower (strings_TrimSpace r) ∈ ["y"; "yes"]%string.

(** What a run of the command sent, and on what condition. *)
Definition registration_ok (auto : bool) (ethKey : EthereumKeyOptions value) (tr : list (event StartI))
    (o : outcome registration) : Prop :=
  (updates tr = [] /\ o <> Done Registered) \/
  (confirmed auto tr /\ exists a k e, updates tr = [(a, k, e)] /\
     (rejected ethKey -> a = 0) /\
     o = Done (match e with Some e => NotRegistered e | None => Registered end)).

Lemma registration_quiet auto ethKey tr tr' o :
  updates tr = [] -> registration_ok auto ethKey tr' o -> registration_ok auto ethKey (tr ++ tr') o.
Proof.
  intros Htr [[Hu Ho]|(Hc & a & k & e & Hu & Hr & Ho)].
  - left. split; [|done]. unfold updates in *. by rewrite omap_app, Htr, Hu.
  - right. split.
    + destruct Hc as [?|(r & Hin & Hr')]; [by left|]. right. exists r. set_solver.
    + exists a, k, e. split; [|done]. unfold updates in *. by rewrite omap_app, Htr, Hu.
Qed.

Lemma wp_registration_step {A} auto ethKey (p : prog StartI A) f (P : A -> Prop) :
  issues (I:=StartI) no_update p -> wp p (fun _ o => forall a, o = Done a -> P a) ->
  (forall a, P a -> wp (f a) (registration_ok auto ethKey)) ->
  wp (p ≫= f) (registration_ok auto ethKey).
Proof.
  intros Hi Hp Hf. apply wp_bind.
  eapply wp_mono; [exact (wp_conj _ _ _ Hi Hp)|].
  intros tr [a|v] [Htr%no_update_updates H].
  - eapply wp_mono; [by apply Hf, H|]. intros tr' o. by apply registration_quiet.
  - left. split; [done|congruence].
Qed.

Lemma issues_scall c : no_update c -> issues (I:=StartI) no_update (scall c).
Proof. intros Hc r. by repeat constructor. Qed.

Lemma issues_or_shutdown {A} P (r : A + err) : issues (I:=StartI) P (or_shutdown r).
Proof. destruct r as [a|e]; [apply issues_ret|]. cbn. case_decide; by constructor. Qed.

Lemma wp_register_confirmed c keys addr ethKey auto tr0 :
  (rejected ethKey -> Keys.am_address keys = 0) -> confirmed auto tr0 -> updates tr0 = [] ->
  wp (register_confirmed c keys addr) (fun tr o => registration_ok auto ethKey (tr0 ++ tr) o).
Proof.
  intros Hrej Hc Hu. unfold register_confirmed. apply wp_bind.
  eapply wp_mono; [apply (issues_interp (I:=StartI) no_update); intros; by apply issues_scall|].
  intros tr [[n|e]|v] Htr%no_update_updates; cbn.
  - assert (Hok : forall e tail, updates tail = [] -> registration_ok auto ethKey
      (tr0 ++ tr ++ @Ev StartI (SOrch (UpdatePeggyOrchestratorAddresses (Keys.am_address keys) addr)) e :: tail)
      (Done (match e with Some e => NotRegistered e | None => Registered end))).
    { intros e tail Ht. right. split.
      - destruct Hc as [?|(r & Hin & Hr)]; [by left|]. right. exists r. set_solver.
      - exists (Keys.am_address keys), addr, e. split; [|done]. unfold updates in *.
        rewrite !omap_app, Hu, Htr. cbn. by rewrite Ht. }
    intros [e|]; cbn; [intros []|]; by apply (Hok (Some e)) || apply (Hok None).
  - left. unfold updates in *. by rewrite !omap_app, Hu, Htr.
  - left. unfold updates in *. by rewrite omap_app, Hu, Htr.
Qed.

(** C35: the register command sends at most one registration, only when the operator agreed
    or confirmation was switched off, and reports success exactly when the chain took it;
    but when the from address does not parse or match the private key, the address that it
    registers is the zero address. *)
Theorem registerEthKeyCmd_spec c k ethKey auto :
  wp (registerEthKeyCmd c k ethKey auto) (registration_ok auto ethKey).
Proof.
  unfold registerEthKeyCmd.
  apply (wp_registration_step _ _ _ _ (fun _ => True)); [apply issues_interp; intros; by apply issues_scall|by apply wp_runs|].
  intros r _. apply (wp_registration_step _ _ _ _ (fun _ => True)); [apply issues_or_shutdown|by apply wp_runs|].
  intros keyring _.
  eapply wp_registration_step; [apply issues_interp; intros; by apply issues_scall|apply wp_accounts_manager|].
  intros keys Hshape. cbv beta in Hshape. destruct (Keys.am_err keys) as [e|] eqn:Herr; [left; done|].
  assert (Hrej : rejected ethKey -> Keys.am_address keys = 0).
  { intros Hr. unfold KeysFacts.result_shape in Hshape.
    by destruct (Keys.am_signer keys), (Keys.am_personal keys); destruct Hshape. }
  cbv zeta. destruct auto.
  - by apply (wp_register_confirmed c keys _ ethKey true []); [|left|].
  - cbn [stdinConfirm]. intros [resp [e|]]; [by left|]. cbn.
    destruct (String.eqb _ "y" || String.eqb _ "yes") eqn:Hyes; [|by left]. cbn.
    apply (wp_register_confirmed c keys _ ethKey false [@Ev StartI Scanln (resp, None)]); [done| |done].
    right. exists resp. split; [by left|].
    apply orb_true_iff in Hyes as [Hy|Hy]; apply String.eqb_eq in Hy; rewrite Hy; set_solver.
Qed.
End facts.

(** ** Examples *)
Module Example.
#[local] Existing Instance KeystoreFacts.Example.model_keys.
#[local] Open Scope string_scope.

#[local] Instance model_cosmos_keys : Keyring.CosmosKeys := {|
  Keyring.PubKey_Address raw := Some raw;
  Keyring.bech32_decode s := inr (ErrNew "decoding bech32 failed");
  Keyring.bech32_encode b := "inj1" ++ hex_of_bytes b;
  Keyring.EncryptArmorPrivKey raw phrase := phrase;
  Keyring.KeyType_String t := "local"
|}.

#[local] Instance model_networks : CosmosNet.ClientCommon := {|
  CosmosNet.LoadNetwork name node := CosmosNet.MkNetwork name "injective-1" "inj" "tm" "grpc" "" ""
|}.

#[local] Instance model_time : GoTime := {|
  ParseDuration s := if String.eqb s "20m" then inl (20 * Minute)%Z else inr (ErrNew "time: invalid duration")
|}.

#[local] Instance model_strconv : StrConv := {| ParseInt _ := None; ParseFloat _ := None |}.

(** Services that answer every call. *)
Definition params : Params := MkParams "0xaa" 7 "0xbb".

Definition services : answers (StartI (GK := KeystoreFacts.Example.model_keys)) := fun c =>
  match c return start_reply c with
  | SKr c =>
      match c return Keyring.kr_reply c with
      | Keyring.FilepathAbs d => (d, None)
      | Keyring.RandRead _ => ([], None)
      | Keyring.NewInMemory => 1%Z
      | Keyring.KeyringNew _ _ _ _ => inl 1%Z
      | Keyring.ImportPrivKey _ _ _ _ => None
      | Keyring.KrKey _ _ | Keyring.KrKeyByAddress _ _ => inr (ErrNew "key not found")
      end
  | SKey (inl c) => KeystoreFacts.Example.one_file "0xab" c
  | SKey (inr c) =>
      match c return Keys.dev_reply c with
      | Keys.ReadPassword => ([], None)
      | Keys.NewLedgerHub | Keys.WalletOpen _ | Keys.WalletClose _ => None
      | Keys.Wallets => []
      | Keys.WalletContains _ _ => false
      | Keys.WalletSignTx _ _ _ _ => inr (ErrNew "not supported")
      | Keys.WalletSignText _ _ _ => inr (ErrNew "not supported")
      end
  | SCn c =>
      match c return CosmosNet.cn_reply c with
      | CosmosNet.CtxDone _ => false
      | CosmosNet.GetState => CosmosNet.Ready
      | CosmosNet.CnSleep _ => tt
      | _ => None
      end
  | SOrch c =>
      match c return orch_reply c with
      | PeggyParams => (Some params, None)
      | GetValidatorAddress _ => (None, Some (ErrNew "not found"))
      | c => inhabitant c
      end
  | SEvm c =>
      match c return Committer.evm_reply c with
      | Committer.SuggestGasPrice | Committer.EstimateGas _ | Committer.PendingNonceAt _ => (0%Z, None)
      | Committer.Signer _ _ | Committer.SendTransactionWithRet _ => (0%Z, None)
      end
  | RpcDial _ | BindPeggy _ => None
  | GoSubscribeToPendingTxs _ => tt
  | Scanln => ("y", None)
  | MetricsDisable => tt
  | MetricsInit _ _ _ _ _ _ => None
  end.

(** A from address that is not the one of the private key. *)
Definition mismatch : environ :=
  {[ "PEGGO_COSMOS_CHAIN_ID" := "injective-1"; "PEGGO_COSMOS_PK" := "0x01";
     "PEGGO_ETH_PK" := "k"; "PEGGO_ETH_FROM" := "0x12" ]}.

Definition cfg : Options.Config value := config_values mismatch initConfig.

Lemma orchestratorCmd_without_signer_witness :
  rejected (ethKey _ cfg) /\
  exists st run, eval services (orchestratorCmd cfg) = Done (st, run) /\
    Keys.am_signer (st_keys st) = None /\
    EthereumAddr (Interfaces.cfg (st_orchestrator st)) = 0%Z.
Proof.
  assert (Hr : rejected (ethKey _ cfg)).
  { split; [by vm_compute|]. exists 107%Z. split; [by vm_compute|]. right. by vm_compute. }
  split; [exact Hr|].
  assert (Hd : match eval services (orchestratorCmd cfg) with Done _ => true | Crashed _ => false end = true)
    by (vm_compute; reflexivity).
  destruct (eval_runs services (orchestratorCmd cfg)) as [tr Htr].
  destruct (eval services (orchestratorCmd cfg)) as [[st run]|v]; [|done].
  exists st, run. split; [done|].
  destruct (proj1 (wp_runs _ _) (orchestratorCmd_without_signer cfg Hr) tr _ Htr st run eq_refl)
    as (Hs & _ & Ha). done.
Defined.

Lemma default_chain_id_never_starts_witness :
  wp (orchestratorCmd (config_values ∅ initConfig)) (fun _ o => forall r, o <> Done r).
Proof. apply default_chain_id_never_starts; [done|by left]. Defined.

End Example.
