(* ===== verification/Version.v ===== *)
(** * Version: the build information (orchestrator/version/version.go) *)
From S2P Require Import Prelude.

(** The variables that the linker may set, and those of the runtime. *)
Record BuildInfo : Type := MkBuildInfo {
  AppVersion : string;
  GitCommit : string;
  BuildDate : string;
  GoVersion : string;
  GoArch : string
}.

(** [init], with the version and the architecture that the runtime reports. *)
Definition init (runtimeVersion runtimeGOARCH : string) (b : BuildInfo) : BuildInfo :=
  MkBuildInfo (if (String.length (AppVersion b) =? 0)%nat then "dev" else AppVersion b)
    (GitCommit b) (BuildDate b) runtimeVersion runtimeGOARCH.

Definition newline : string := String "010" "".

(** [Version] *)
Definition Version (b : BuildInfo) : string :=
  ("Version " ++ AppVersion b ++ " (" ++ GitCommit b ++ ")" ++ newline ++
   "Compiled at " ++ BuildDate b ++ " using Go " ++ GoVersion b ++ " (" ++ GoArch b ++ ")")%string.

(** A build without linker flags is shown as [dev]; a set version is kept. *)
Lemma init_AppVersion v a b :
  AppVersion (init v a b) = if decide (AppVersion b = ""%string) then "dev"%string else AppVersion b.
Proof. destruct b as [[|c s] ? ? ? ?]; cbn; by case_decide. Qed.

Example unset_build :
  Version (init "go1.19" "amd64" (MkBuildInfo "" "" "" "" "")) =
    ("Version dev ()" ++ newline ++ "Compiled at  using Go go1.19 (amd64)")%string.
Proof. reflexivity. Qed.
